(* ===== verification/_CoqProject ===== *)
-Q . S2P
Prelude.v
GoLib.v
Floats.v
Protocol.v
Glob.v
Store.v
Keyspace.v
Lists.v
Sets.v
Hashes.v
ZSets.v
Scan.v
Interface.v
StoreSpec.v
StoreRefines.v
ZSetRefines.v
Implements.v
Cmd.v
Walk.v
Rely.v
Expiry.v
StringCmds.v
DataCmds.v
ZSetCmds.v
ServerCmds.v
PubSub.v
Delivery.v
Router.v
Persistence.v
Aof.v
Agree.v
Records.v
Recovery.v
Clients.v
Replies.v
Framing.v
Panics.v
CmdFacts.v
Linearizable.v
Timed.v
PersistenceFacts.v
Durability.v
Handler.v
HandlerFacts.v
Session.v
Abstraction.v
Isolation.v
Subscriptions.v
Server.v
Config.v
Startup.v
