(* ===== verification/Prelude.v ===== *)
(** * go-redis: a verification development

    go-redis is a Redis-compatible in-memory server.  A client sends commands in the RESP
    protocol; a connection handler reads them, keeps the client's transaction and
    subscriptions, and passes the rest to a router, which calls one handler function per
    command.  The handlers call a store guarded by one mutex, and the router appends a
    record of every change to an append-only file (AOF), which is replayed when the server
    starts.  A broker passes published messages on to subscribers.

    ** The files and what they model (paths under src/)

    - Prelude: outcomes of Go code, byte strings, tactics and hints, lemmas on lists and
      options.  GoLib: 64-bit integers with their wrap-around, strconv, strings, time and
      slices, as far as the program uses them.  Floats: IEEE binary64 (the Standard
      Library's [SpecFloat]) with ParseFloat and FormatFloat.  Glob: filepath.Match with
      its UTF-8 decoding.
    - Protocol: internal/protocol.  [Serialize] and the recursive-descent parser
      [ReadCommand] on the bytes of the stream.
    - Store: the record [MemoryStore] of internal/storage/memory.go (the seven maps of the
      struct) and the methods on keys of any type and on strings.  Every method is one
      function from the reading of the clock and the store to its results and the new
      store; a Go panic is the outcome [Panic].
    - Keyspace: the abstract specification.  [view now s key] is what a client can see of
      a key, a value with an optional deadline; [store_wf] is the invariant of the
      representation; [updates] says that an operation changed one key and nothing else.
      The theorems of Keyspace, Lists, Sets, Hashes and ZSets are refinements of
      operations on [view].  Lists, Sets, Hashes, ZSets and Scan also model the
      methods of memory.go on these types and on cursors.
    - Interface: the interface Store of internal/storage/store.go, one constructor per
      method ([StoreCall]), with MemoryStore as its implementation ([exec]).  StoreSpec: what
      the interface promises, as a relation between a keyspace, the result of a call and the
      keyspace afterwards ([spec]), and the calls for which it does ([allowed]).
    - Cmd: command handlers as programs ([cmd]) whose steps are the store calls.  [run]
      executes a program alone, with an arbitrary clock; [psteps] interleaves programs of
      several clients, one store call at a time, which is what the mutex guarantees.
      Walk: postconditions, step relations and totality of such programs, alone and in any
      interleaving, closed under sequencing, which the files about all commands use to
      walk over the registry; no interleaving is endless ([pool_terminates]).  Rely: the
      class [Sharing], for programs that each own a part of the state.
    - Expiry: the cleanup goroutine of memory.go (StartCleanup).
    - StringCmds, DataCmds, ZSetCmds, ServerCmds: every handler of internal/commands
      (string.go, counter.go, expire.go; hash.go, list.go, set.go; zset.go, scan.go;
      ping.go, meta.go, server_cmds.go, server_extra.go).
    - PubSub: internal/pubsub.  Subscribers are objects of a heap, named by identities.
      [Send] is a program of two steps, its two [select]s: other goroutines, [Close] among
      them, can run between the check of [done] and the enqueue.
    - Delivery: the write loop of a subscribed connection (handler.go, writeLoop) as a step
      relation beside publishers, whose sends are two steps, and the handler.
    - Router: internal/commands/router.go and pubsub.go.  The state of the server is a
      [World]: store, broker with its subscribers, and log.  The class [Appender] is the
      interface commands.Appender with the law the router relies on: appending adds one
      record at the end.  Persistence instantiates it with the file.
    - Persistence: internal/persistence, aof.go and replay.go, with the log as a file that
      every append extends.  Aof: the writer of aof.go below it, the [bufio.Writer] over a
      file system ([faults]) whose writes and syncs may fail.
    - Handler: internal/server/handler.go, on a connection whose writes may fail ([tcp]).
      Server: server.go as a step relation.
    - Config: internal/config and internal/logger, with Go's flag package.  Startup:
      cmd/server/main.go, from the command line to the listener.

    ** What is proved

    - Recovery, Startup: replaying the file a server leaves rebuilds its data, for
      any sequence of recoverable commands; a file cut off anywhere rebuilds the data
      after the last complete command; a second server on the same file continues the
      first.  [same_data] compares the five data maps; versions are not persistent.
      [recoverable] leaves out what the log does not record faithfully, for which
      PersistenceFacts has counterexamples.
      So do the theorems of Durability and Startup.
    - Timed: the same with the commands that set deadlines, where no deadline, counted from
      the time its command began, passes before the replay ends.  The class [Window] (file
      Agree) says which readings of the clock are considered, which deadlines none of
      them reaches and how near a restored deadline must be; Records proves once, for
      any window, that the records of each command restore what the command did.
      Recovery uses the window of all times, with no deadlines, and Timed a bounded one.
    - Aof, Durability: without faults the buffered writer implements the log of Persistence;
      with any write and sync errors the file stays a prefix of the intended log, so that
      after a power failure replay rebuilds the data after some first part of the
      commands; what was synced is in that part.
    - Session: from bytes to bytes, clients that pipeline commands each get one well-formed
      reply for each command, in order, however their connections interleave, and every
      interleaving ends (subscription commands, the commands of [risky] and names with line
      feeds are left out).  It rests on three properties of every command of the
      registry: Replies (an error changes nothing), Framing (a reply is one value of the
      protocol) and Panics (the command returns; the exceptions are named).  If a write
      fails, the commands up to that reply have been executed and none after it.
    - Isolation: what WATCH promises against any interleaving of other clients: equal versions
      mean the same value and deadline, for the commands that count.
    - Linearizable: with persistence off, the commands that call the store once, of any number
      of clients, give the replies and the store of some sequential execution; the others
      are listed.
    - HandlerFacts: MULTI/EXEC/WATCH, for commands that are known.  Subscriptions: a connection's own sets and the
      broker's registry agree whatever clients send in whatever interleaving, and a
      disconnect leaves nothing behind, because each connection owns its subscriber.
      PubSub: the registry, who is sent which frames, what PUBLISH replies, frames as RESP.
      Delivery: accepted frames reach the connection in order and once, and all those
      accepted before the write loop returned; a send that races with the close can be
      accepted later, and its frame is lost ([accepted_frame_lost]).
    - Protocol: round trips for values and commands, termination on every input (with a
      command, an error, or the panic of an oversized length), and that
      a command cut off at any byte is an end-of-file error.
    - Keyspace, Lists, Sets, Hashes, ZSets, Scan: functional correctness of the store's
      methods as refinements of the abstract keyspace, every branch included.
      StoreRefines, ZSetRefines, Implements: with them, MemoryStore implements the whole
      interface, in any sequence of calls and sweeps.  The specification follows store.go;
      [allowed] leaves out what the code gets wrong or store.go leaves open: writes to a key
      that has expired and is not swept yet ([alive]), LPush of several values, the options
      of SetAdv on a key of another type, a negative count of a pop, ZCARD of a missing key,
      ZADD XX of a missing key, scores that are not numbers, a reverse ZRange of less than
      the whole, a key moved to itself, HSET and the cursors on a key of another type.
    - Clients, Abstraction: every step of every connection is a call of that interface, or does
      not touch the store; so connections that take turns with each other and with the
      cleanup goroutine behave, from bytes to bytes, as on an abstract store
      ([server_refines]), provided that their calls are ones the specification covers and
      nothing outside the store panics ([safe]).
    - CmdFacts: 64-bit counters, and what other clients can see of commands of several
      steps.  Server: the client limit, in every interleaving, and that a shutdown
      completes.  Expiry: the cleanup goroutine changes nothing that can be read, and leaves
      nothing dead.
      Config: which command lines are accepted, and what each sets.
    - Where the code does something else than it means to, a theorem shows it on a
      concrete state: [huge_length_panics], [SET_option_stops_replay], [RENAME_loses_list],
      [INCR_lost_update], [ZCard_missing_panics], [shutdown_misses_connection],
      [EXEC_not_isolated], [SETNX_both_win], [log_order_differs], [write_error_silences_log],
      [RPush_expired_lost], [SETEX_torn], [SetAdv_KeepTTL_dead], [Publish_counts_frames],
      [accepted_frame_lost], [WATCH_misses_deadline], [EXEC_runs_despite_unknown],
      [DECRBY_min_wraps] and others.

    ** Fuel and bounds

    The recursions that are not structural take fuel: the parser, replay and the command
    loop one more than the number of bytes they read, which is enough because every value
    and every command takes at least one byte ([ReadCommand_terminates],
    [Replay_terminates], [serveLoop_fuel]); [itoa] the 20 bytes of its buffer, enough for
    64 bits; the buffered writer 3 rounds, of which it needs 2; pattern matching the length
    of the pattern; the command line one more than its arguments.  Recovery assumes a file whose
    length times 56 (the size of a Response) stays below the largest allocation, since a
    parser on a larger one may panic.  Times are nanoseconds since 1970 in unbounded
    integers; durations are 64-bit and saturate or wrap as in package time.

    ** Not modelled

    The timers of the ticker goroutines, whose loops ([StartCleanup], [syncLoopTick]) are
    modelled tick by tick; the delivery of signals; log output.  The write loop of a
    connection is modelled beside one subscriber (Delivery) and not as a thread of [World],
    where frames stay in the inboxes: no theorem about [World] speaks of what an inbox has
    lost.  A store method takes one reading of the clock where the code may take several
    under the same lock.  In Server, [Accept] and the check of the client limit are one step,
    and an accept error that the loop logs and retries is no step.  The order in which Go ranges
    over a map is the order of the finite map, or a parameter where it can be seen; random
    choices are parameters. *)

From stdpp Require Export base tactics gmap strings list fin_maps sets.
From Stdlib Require Export ZArith Lia.

Export Stdlib.Strings.Ascii.AsciiSyntax.
Delimit Scope char_scope with char.
#[global] Open Scope Z_scope.
#[export] Set Warnings "-clear-no-such-hyp".

(** std++ blocks [simpl] on string append; here literals are unfolded freely. *)
#[global] Arguments String.append !_ _ / : simpl nomatch.

(** ** Outcomes of Go code *)

(** What a piece of Go code does: it returns a value, returns an [error] value,
    or panics.  [OutOfFuel] is only produced by a fuelled recursion that was
    given too little fuel; every such function has a theorem that rules it out. *)
Inductive outcome (E A : Type) : Type :=
| Ret (a : A)
| Err (e : E)
| Panic
| OutOfFuel.
Arguments Ret {E A} a.
Arguments Err {E A} e.
Arguments Panic {E A}.
Arguments OutOfFuel {E A}.

Definition obind {E A B} (c : outcome E A) (k : A -> outcome E B) : outcome E B :=
  match c with
  | Ret a => k a
  | Err e => Err e
  | Panic => Panic
  | OutOfFuel => OutOfFuel
  end.

Declare Scope go_scope.
Delimit Scope go_scope with go.
Notation "'let!' x ':=' c 'in' k" := (obind c (fun x => k))
  (at level 10, x pattern, c at level 100, k at level 200,
   format "'let!'  x  ':='  c  'in' '//' k") : go_scope.

(** ** Byte strings

    A Go string is a sequence of bytes; [Ascii.ascii] is exactly a byte and
    [String.string] a sequence of them. *)

(** [len(s)] *)
Definition len (s : string) : Z := Z.of_nat (String.length s).

Fixpoint stake (n : nat) (s : string) : string :=
  match n, s with
  | S n', String c s' => String c (stake n' s')
  | _, _ => EmptyString
  end.

Fixpoint sdrop (n : nat) (s : string) : string :=
  match n, s with
  | S n', String _ s' => sdrop n' s'
  | _, _ => s
  end.

Fixpoint sconcat (l : list string) : string :=
  match l with
  | [] => EmptyString
  | s :: l' => s +:+ sconcat l'
  end.

(** [byte c] is the value of byte [c], between 0 and 255. *)
Definition byte (c : Ascii.ascii) : Z := Z.of_N (Ascii.N_of_ascii c).

(** Bytewise lexicographic comparison: Go's [<] on strings. *)
Fixpoint str_ltb (a b : string) : bool :=
  match a, b with
  | EmptyString, EmptyString => false
  | EmptyString, String _ _ => true
  | String _ _, EmptyString => false
  | String x a', String y b' =>
      if byte x <? byte y then true
      else if byte y <? byte x then false
      else str_ltb a' b'
  end.

Definition CR : Ascii.ascii := Ascii.ascii_of_N 13.
Definition LF : Ascii.ascii := Ascii.ascii_of_N 10.
Definition CRLF : string := String CR (String LF EmptyString).
#[global] Opaque CRLF.

(** ** Tactics *)

(** Case analysis on the scrutinee of the innermost [match] of the goal. *)
Ltac split_match :=
  match goal with
  | |- context [match ?x with _ => _ end] =>
      lazymatch x with
      | context [match _ with _ => _ end] => fail
      | _ => destruct x eqn:?
      end
  end.

Ltac split_match_in H :=
  match type of H with
  | context [match ?x with _ => _ end] =>
      lazymatch x with
      | context [match _ with _ => _ end] => fail
      | _ => destruct x eqn:?
      end
  end.

(** Turn boolean comparisons on [Z] into arithmetic facts. *)
Ltac zbool :=
  repeat match goal with
  | H : (_ <? _) = true |- _ => apply Z.ltb_lt in H
  | H : (_ <? _) = false |- _ => apply Z.ltb_ge in H
  | H : (_ <=? _) = true |- _ => apply Z.leb_le in H
  | H : (_ <=? _) = false |- _ => apply Z.leb_gt in H
  | H : (_ =? _) = true |- _ => apply Z.eqb_eq in H
  | H : (_ =? _) = false |- _ => apply Z.eqb_neq in H
  | H : (_ && _)%bool = true |- _ => apply andb_true_iff in H as [? ?]
  | H : (_ || _)%bool = false |- _ => apply orb_false_iff in H as [? ?]
  | H : negb _ = true |- _ => apply negb_true_iff in H
  | H : negb _ = false |- _ => apply negb_false_iff in H
  end.

(** Decide a boolean comparison on [Z] in the goal by arithmetic. *)
Ltac zfalse e :=
  replace e with false
    by (symmetry; first [apply Z.leb_gt | apply Z.ltb_ge | apply Z.eqb_neq]; lia).
Ltac ztrue e :=
  replace e with true
    by (symmetry; first [apply Z.leb_le | apply Z.ltb_lt | apply Z.eqb_eq]; lia).

Create HintDb goredis discriminated.
Create Rewrite HintDb gostr.

(** ** Shared lemmas *)

Lemma obind_Ret {E A B} (a : A) (k : A -> outcome E B) : obind (Ret a) k = k a.
Proof. reflexivity. Qed.

Lemma obind_inv {E A B} (c : outcome E A) (k : A -> outcome E B) b :
  obind c k = Ret b -> exists a, c = Ret a /\ k a = Ret b.
Proof. destruct c; simpl; intros; try discriminate. eauto. Qed.

Lemma sapp_assoc a b c : (a +:+ b) +:+ c = a +:+ (b +:+ c).
Proof. induction a as [|x a IH]; simpl; congruence. Qed.

Lemma sapp_nil_r s : s +:+ EmptyString = s.
Proof. induction s as [|c s IH]; simpl; congruence. Qed.

Lemma slength_app a b :
  String.length (a +:+ b) = (String.length a + String.length b)%nat.
Proof. induction a as [|x a IH]; simpl; congruence. Qed.

Lemma len_nonneg s : 0 <= len s.
Proof. unfold len. lia. Qed.

Lemma len_app a b : len (a +:+ b) = len a + len b.
Proof. unfold len. rewrite slength_app. lia. Qed.

Lemma stake_app a b : stake (String.length a) (a +:+ b) = a.
Proof. induction a as [|x a IH]; simpl; [by destruct b | congruence]. Qed.

Lemma sdrop_app a b : sdrop (String.length a) (a +:+ b) = b.
Proof. induction a as [|x a IH]; simpl; [by destruct b | exact IH]. Qed.

Lemma slength_sdrop n s : String.length (sdrop n s) = (String.length s - n)%nat.
Proof.
  revert s; induction n as [|n IH]; intros [|c s]; simpl; auto.
Qed.

Lemma slength_stake n s : String.length (stake n s) = Nat.min n (String.length s).
Proof. revert s; induction n as [|n IH]; intros [|c s]; simpl; auto. Qed.

Lemma stake_sdrop n s : stake n s +:+ sdrop n s = s.
Proof. revert s; induction n as [|n IH]; intros [|c s]; simpl; auto. by rewrite IH. Qed.

Lemma stake_ge n s : (String.length s <= n)%nat -> stake n s = s.
Proof.
  revert s; induction n as [|n IH]; intros [|c s]; simpl; intros H; auto; [lia|].
  by rewrite IH by lia.
Qed.

Lemma stake_split n a b : stake n (a +:+ b) = stake n a +:+ stake (n - String.length a) b.
Proof.
  revert n; induction a as [|c a IH]; intros [|n]; simpl; auto. by rewrite IH.
Qed.

Lemma sconcat_app l1 l2 : sconcat (l1 ++ l2) = sconcat l1 +:+ sconcat l2.
Proof. induction l1 as [|s l IH]; simpl; [done|]. by rewrite IH, sapp_assoc. Qed.

Lemma byte_range c : 0 <= byte c < 256.
Proof.
  unfold byte. pose proof (Ascii.N_ascii_bounded c). lia.
Qed.

Lemma byte_inj c d : byte c = byte d -> c = d.
Proof.
  unfold byte. intros H. apply N2Z.inj in H.
  rewrite <- (Ascii.ascii_N_embedding c), <- (Ascii.ascii_N_embedding d). by rewrite H.
Qed.

(** [str_ltb] is a strict total order. *)
Lemma str_ltb_irrefl a : str_ltb a a = false.
Proof. induction a as [|c a IH]; cbn; [done|]. by rewrite Z.ltb_irrefl. Qed.

Lemma str_ltb_total a b : str_ltb a b = false -> str_ltb b a = false -> a = b.
Proof.
  revert b; induction a as [|c a IH]; intros [|d b]; cbn; try done.
  destruct (Z.ltb_spec (byte c) (byte d)), (Z.ltb_spec (byte d) (byte c)); try done.
  intros H1 H2. f_equal; [apply byte_inj; lia|by apply IH].
Qed.

Lemma str_ltb_trans a b c : str_ltb a b = true -> str_ltb b c = true -> str_ltb a c = true.
Proof.
  revert b c; induction a as [|x a IH]; intros [|y b] [|z c]; cbn; try done.
  destruct (Z.ltb_spec (byte x) (byte y)), (Z.ltb_spec (byte y) (byte z)),
    (Z.ltb_spec (byte x) (byte z)); try done; try lia;
  destruct (Z.ltb_spec (byte y) (byte x)), (Z.ltb_spec (byte z) (byte y)),
    (Z.ltb_spec (byte z) (byte x)); try done; try lia.
  apply IH.
Qed.

#[export] Hint Rewrite @obind_Ret sapp_assoc sapp_nil_r slength_app len_app
  stake_app sdrop_app sconcat_app : gostr.
