(* ===== verification/GoLib.v ===== *)
(** * The parts of the Go language and standard library the program uses

    Machine integers, [strconv] on base-10 integers, [strings], [time] and the
    slice allocation check.  No definition here models code of the repository;
    each follows the documented behaviour of the named Go function. *)

From S2P Require Import Prelude.

(** ** Machine integers *)

Definition minInt64 : Z := - 2 ^ 63.
Definition maxInt64 : Z := 2 ^ 63 - 1.

(** Two's complement wrap-around of [int64] (and of [int] on a 64-bit target). *)
Definition wrap64 (z : Z) : Z := (z + 2 ^ 63) mod 2 ^ 64 - 2 ^ 63.

(** Wrap-around of [uint64]. *)
Definition wrapU64 (z : Z) : Z := z mod 2 ^ 64.

Definition int64_ok (z : Z) : Prop := minInt64 <= z <= maxInt64.

(** [make([]T, n)] panics when [n] is negative or the slice would exceed the
    address space of a linux/amd64 process (runtime.makeslice, maxAlloc = 2^48). *)
Definition maxAlloc : Z := 2 ^ 48.
Definition make_ok (n elemSize : Z) : bool := (0 <=? n) && (n * elemSize <=? maxAlloc).

(** ** Slices *)

(** [len(l)] *)
Definition llen {A} (l : list A) : Z := Z.of_nat (length l).

Definition ltake {A} (n : Z) (l : list A) : list A := take (Z.to_nat n) l.
Definition ldrop {A} (n : Z) (l : list A) : list A := drop (Z.to_nat n) l.

(** [l[lo:hi]].  Go accepts an upper bound up to the capacity of the slice; here a
    bound beyond the length counts as a panic, so a proof that code does not panic
    is a proof that it stays within the length. *)
Definition slice {E A} (l : list A) (lo hi : Z) : outcome E (list A) :=
  if (0 <=? lo) && (lo <=? hi) && (hi <=? llen l)
  then Ret (ltake (hi - lo) (ldrop lo l)) else Panic.

(** [l[i]] *)
Definition index {E A} (l : list A) (i : Z) : outcome E A :=
  if 0 <=? i then
    match l !! Z.to_nat i with Some a => Ret a | None => Panic end
  else Panic.

(** ** strconv *)

Definition digit_val (c : Ascii.ascii) : option Z :=
  if (48 <=? byte c) && (byte c <=? 57) then Some (byte c - 48) else None.

Definition digit_char (d : Z) : Ascii.ascii := Ascii.ascii_of_N (Z.to_N (48 + d)).

(** The value of a digit string read after the digits worth [acc]. *)
Fixpoint digits_val (acc : Z) (s : string) : option Z :=
  match s with
  | EmptyString => Some acc
  | String c s' =>
      match digit_val c with
      | Some d => digits_val (10 * acc + d) s'
      | None => None
      end
  end.

Definition is_empty (s : string) : bool :=
  match s with EmptyString => true | _ => false end.

(** [strconv.ParseUint(s, 10, 64)]; [None] for a syntax or a range error. *)
Definition ParseUint (s : string) : option Z :=
  if is_empty s then None else
  match digits_val 0 s with
  | Some n => if n <? 2 ^ 64 then Some n else None
  | None => None
  end.

(** [strconv.ParseInt(s, 10, 64)] and [strconv.Atoi(s)]; [None] for an error. *)
Definition ParseInt (s : string) : option Z :=
  let '(neg, digits) :=
    match s with
    | String c s' =>
        if byte c =? 43 then (false, s')
        else if byte c =? 45 then (true, s')
        else (false, s)
    | EmptyString => (false, s)
    end in
  match ParseUint digits with
  | None => None
  | Some un =>
      if neg then (if un <=? 2 ^ 63 then Some (- un) else None)
      else (if un <? 2 ^ 63 then Some un else None)
  end.

(** Digits of [n], most significant first, in front of [acc].  An unsigned
    64-bit number has at most 20 digits. *)
Fixpoint fmt_digits (fuel : nat) (n : Z) (acc : string) : string :=
  match fuel with
  | O => acc
  | S f => if n =? 0 then acc else fmt_digits f (n / 10) (String (digit_char (n mod 10)) acc)
  end.

(** [strconv.FormatUint(n, 10)] *)
Definition FormatUint (n : Z) : string :=
  if n =? 0 then "0" else fmt_digits 20 n EmptyString.

(** [strconv.FormatInt(n, 10)], [strconv.Itoa(n)] and [fmt.Sprintf("%d", n)]. *)
Definition FormatInt (n : Z) : string :=
  if n <? 0 then String "-"%char (FormatUint (- n)) else FormatUint n.

(** ** strings *)

Definition upper_byte (c : Ascii.ascii) : Ascii.ascii :=
  if (97 <=? byte c) && (byte c <=? 122) then Ascii.ascii_of_N (Z.to_N (byte c - 32)) else c.

Definition lower_byte (c : Ascii.ascii) : Ascii.ascii :=
  if (65 <=? byte c) && (byte c <=? 90) then Ascii.ascii_of_N (Z.to_N (byte c + 32)) else c.

(** [strings.ToUpper].  The results are only ever compared with ASCII words, so
    of the non-ASCII letters only the two whose upper case is ASCII matter:
    U+0131 (bytes C4 B1, upper case I) and U+017F (bytes C5 BF, upper case S).
    All other non-ASCII bytes are left as they are; no ASCII word has any. *)
Fixpoint ToUpper (s : string) : string :=
  match s with
  | EmptyString => EmptyString
  | String c s' =>
      match s' with
      | String d s'' =>
          if (byte c =? 196) && (byte d =? 177) then String "I"%char (ToUpper s'')
          else if (byte c =? 197) && (byte d =? 191) then String "S"%char (ToUpper s'')
          else String (upper_byte c) (ToUpper s')
      | EmptyString => String (upper_byte c) EmptyString
      end
  end.

(** [strings.ToLower], with the two non-ASCII letters whose lower case is ASCII:
    U+0130 (bytes C4 B0, lower case i) and U+212A (bytes E2 84 AA, lower case k). *)
Fixpoint ToLower (s : string) : string :=
  match s with
  | EmptyString => EmptyString
  | String c s' =>
      match s' with
      | EmptyString => String (lower_byte c) EmptyString
      | String d s'' =>
          if (byte c =? 196) && (byte d =? 176) then String "i"%char (ToLower s'')
          else match s'' with
          | String e s''' =>
              if (byte c =? 226) && (byte d =? 132) && (byte e =? 170)
              then String "k"%char (ToLower s''')
              else String (lower_byte c) (ToLower s')
          | EmptyString => String (lower_byte c) (ToLower s')
          end
      end
  end.

(** [strings.TrimRight(s, cutset)] *)
Fixpoint TrimRight (cutset : list Ascii.ascii) (s : string) : string :=
  match s with
  | EmptyString => EmptyString
  | String c s' =>
      match TrimRight cutset s' with
      | EmptyString => if bool_decide (c ∈ cutset) then EmptyString else String c EmptyString
      | t => String c t
      end
  end.

(** [strings.Contains(s, string(c))] for a single byte [c]. *)
Fixpoint contains_byte (c : Ascii.ascii) (s : string) : bool :=
  match s with
  | EmptyString => false
  | String d s' => bool_decide (c = d) || contains_byte c s'
  end.

(** ** time

    A [time.Time] is modelled by its distance in nanoseconds from the Unix epoch;
    the zero [Time] is January 1 of year 1.  A [time.Duration] is an [int64]
    number of nanoseconds. *)

Abbreviation Time := Z (only parsing).
Abbreviation Duration := Z (only parsing).

Definition Second : Duration := 1000000000.
Definition Millisecond : Duration := 1000000.

Definition unixToInternal : Z := 62135596800.
Definition zeroTime : Time := - unixToInternal * Second.
Definition IsZero (t : Time) : bool := t =? zeroTime.
Definition After (t u : Time) : bool := u <? t.
Definition Before (t u : Time) : bool := t <? u.

(** [time.Duration(n) * unit]: an [int64] product, which wraps around. *)
Definition durationOf (n unit : Z) : Duration := wrap64 (n * unit).

(** [t.Add(d)] *)
Definition TimeAdd (t : Time) (d : Duration) : Time := t + d.

(** [time.Unix(sec, 0)]: the seconds are kept in an [int64] counted from year 1. *)
Definition Unix (sec : Z) : Time := (wrap64 (sec + unixToInternal) - unixToInternal) * Second.

(** [time.UnixMilli(ms)] *)
Definition TimeUnixMilli (ms : Z) : Time := ms * Millisecond.

(** [t.UnixMilli()] *)
Definition UnixMilli (t : Time) : Z := t / Millisecond.

(** [time.Until(t)] at the instant [now]: [t.Sub(now)], which saturates. *)
Definition Until (now t : Time) : Duration := Z.max minInt64 (Z.min maxInt64 (t - now)).

(** ** Facts *)

Lemma wrap64_id z : int64_ok z -> wrap64 z = z.
Proof.
  unfold int64_ok, wrap64, minInt64, maxInt64. intros H.
  rewrite Z.mod_small; lia.
Qed.

Lemma wrap64_ok z : int64_ok (wrap64 z).
Proof.
  unfold int64_ok, wrap64, minInt64, maxInt64.
  pose proof (Z.mod_pos_bound (z + 2 ^ 63) (2 ^ 64)). lia.
Qed.

Lemma wrapU64_id z : 0 <= z < 2 ^ 64 -> wrapU64 z = z.
Proof. apply Z.mod_small. Qed.

Lemma byte_of_N n : (n < 256)%N -> byte (Ascii.ascii_of_N n) = Z.of_N n.
Proof. intros H. unfold byte. by rewrite Ascii.N_ascii_embedding. Qed.

Lemma digit_val_char d : 0 <= d < 10 -> digit_val (digit_char d) = Some d.
Proof.
  intros H. unfold digit_val, digit_char.
  rewrite byte_of_N, Z2N.id by lia.
  replace (48 <=? 48 + d) with true by lia.
  replace (48 + d <=? 57) with true by lia. simpl. f_equal. lia.
Qed.

Lemma digits_val_fmt fuel n acc :
  0 <= n < 10 ^ Z.of_nat fuel ->
  digits_val 0 (fmt_digits fuel n acc) = digits_val n acc.
Proof.
  revert n acc; induction fuel as [|f IH]; intros n acc H.
  - change (10 ^ Z.of_nat 0) with 1 in H. by replace n with 0 by lia.
  - rewrite Nat2Z.inj_succ, Z.pow_succ_r in H by lia.
    simpl. destruct (n =? 0) eqn:Hn; zbool; [by subst|].
    rewrite IH by (split; [apply Z.div_pos|apply Z.div_lt_upper_bound]; lia).
    simpl. rewrite digit_val_char by (apply Z.mod_pos_bound; lia).
    f_equal. pose proof (Z.div_mod n 10). lia.
Qed.

Lemma fmt_digits_cons fuel n c acc :
  exists d s, fmt_digits fuel n (String c acc) = String d s.
Proof.
  revert n c acc; induction fuel as [|f IH]; intros; simpl; [eauto|].
  destruct (n =? 0); eauto.
Qed.

Lemma fmt_digits_nonempty fuel n :
  n <> 0 -> is_empty (fmt_digits (S fuel) n EmptyString) = false.
Proof.
  intros Hn. simpl. replace (n =? 0) with false by lia.
  by destruct (fmt_digits_cons fuel (n / 10) (digit_char (n mod 10)) EmptyString) as (d & s & ->).
Qed.

Lemma FormatUint_nonempty n : is_empty (FormatUint n) = false.
Proof.
  unfold FormatUint. destruct (n =? 0) eqn:Hn; zbool; [done|].
  by apply fmt_digits_nonempty.
Qed.

(** Every unsigned 64-bit number is read back from its decimal form. *)
Lemma ParseUint_FormatUint n : 0 <= n < 2 ^ 64 -> ParseUint (FormatUint n) = Some n.
Proof.
  intros H. unfold ParseUint. rewrite FormatUint_nonempty.
  assert (digits_val 0 (FormatUint n) = Some n) as ->.
  { unfold FormatUint. destruct (n =? 0) eqn:Hn; zbool; [by subst|].
    rewrite digits_val_fmt; [done|]. change (10 ^ Z.of_nat 20) with (100000000000000000000). lia. }
  by replace (n <? 2 ^ 64) with true by lia.
Qed.

Lemma digit_val_range c d : digit_val c = Some d -> 48 <= byte c <= 57 /\ d = byte c - 48.
Proof. unfold digit_val. intros H. split_match_in H; zbool; simplify_eq. lia. Qed.

Lemma FormatUint_head n : 0 <= n < 2 ^ 64 ->
  exists c s, FormatUint n = String c s /\ 48 <= byte c <= 57.
Proof.
  intros H. pose proof (ParseUint_FormatUint n H) as HP.
  pose proof (FormatUint_nonempty n) as HE.
  unfold ParseUint in HP. rewrite HE in HP.
  destruct (FormatUint n) as [|c s]; [done|]. simpl in HP.
  destruct (digit_val c) as [d|] eqn:Hd; [|done].
  apply digit_val_range in Hd. exists c, s. by split; [|lia].
Qed.

(** Every [int64] is read back from its decimal form. *)
Lemma ParseInt_FormatInt n : int64_ok n -> ParseInt (FormatInt n) = Some n.
Proof.
  unfold int64_ok, minInt64, maxInt64, FormatInt. intros H.
  destruct (n <? 0) eqn:Hn; zbool.
  - unfold ParseInt. change (byte "-"%char =? 43) with false.
    change (byte "-"%char =? 45) with true. cbv iota beta.
    rewrite ParseUint_FormatUint by lia.
    replace (- n <=? 2 ^ 63) with true by lia. f_equal. lia.
  - destruct (FormatUint_head n) as (c & s & Hs & Hc); [lia|].
    unfold ParseInt. rewrite Hs.
    replace (byte c =? 43) with false by lia. replace (byte c =? 45) with false by lia.
    rewrite <- Hs, ParseUint_FormatUint by lia.
    by replace (n <? 2 ^ 63) with true by lia.
Qed.

Lemma digits_val_ge acc s n : 0 <= acc -> digits_val acc s = Some n -> 0 <= n.
Proof.
  revert acc; induction s as [|c s IH]; intros acc Ha H; simpl in H; [by simplify_eq|].
  destruct (digit_val c) as [d|] eqn:Hd; [|done].
  apply digit_val_range in Hd. eapply IH; [|exact H]. lia.
Qed.

Lemma ParseUint_range s n : ParseUint s = Some n -> 0 <= n < 2 ^ 64.
Proof.
  unfold ParseUint. intros H. repeat split_match_in H; simplify_eq; zbool.
  split; [eapply digits_val_ge; [|eassumption]; lia|lia].
Qed.

(** What [ParseInt] accepts is an [int64]. *)
Lemma ParseInt_ok s n : ParseInt s = Some n -> int64_ok n.
Proof.
  unfold ParseInt, int64_ok, minInt64, maxInt64. intros H.
  repeat split_match_in H; simplify_eq; zbool;
    match goal with P : ParseUint _ = Some _ |- _ => apply ParseUint_range in P end; lia.
Qed.

Lemma ParseInt_lt s n : ParseInt s = Some n -> - 2 ^ 63 <= n < 2 ^ 63.
Proof. intros H%ParseInt_ok. unfold int64_ok, minInt64, maxInt64 in H. lia. Qed.

Lemma Until_exact now t : int64_ok (t - now) -> Until now t = t - now.
Proof. unfold int64_ok, Until. lia. Qed.

Lemma durationOf_exact n u : int64_ok (n * u) -> durationOf n u = n * u.
Proof. apply wrap64_id. Qed.

(** Digits are printed without control bytes, so a decimal number is one line. *)
Definition printable (c : Ascii.ascii) : bool := 33 <=? byte c.

Fixpoint all_bytes (p : Ascii.ascii -> bool) (s : string) : bool :=
  match s with
  | EmptyString => true
  | String c s' => p c && all_bytes p s'
  end.

Lemma fmt_digits_printable fuel n acc :
  0 <= n -> all_bytes printable acc = true -> all_bytes printable (fmt_digits fuel n acc) = true.
Proof.
  revert n acc; induction fuel as [|f IH]; intros n acc Hn H; simpl; [done|].
  destruct (n =? 0); [done|]. apply IH; [apply Z.div_pos; lia|]. simpl.
  rewrite H, andb_true_r. unfold printable, digit_char.
  pose proof (Z.mod_pos_bound n 10). rewrite byte_of_N, Z2N.id by lia. lia.
Qed.

Lemma FormatUint_printable n : 0 <= n -> all_bytes printable (FormatUint n) = true.
Proof.
  intros Hn. unfold FormatUint. destruct (n =? 0); [done|].
  by apply fmt_digits_printable.
Qed.

Lemma FormatInt_printable n : all_bytes printable (FormatInt n) = true.
Proof.
  unfold FormatInt. destruct (n <? 0) eqn:?; zbool; simpl;
    rewrite FormatUint_printable; done || lia.
Qed.


(** ** Slices *)

Lemma slice_ok {E A} (l : list A) lo hi :
  0 <= lo -> lo <= hi -> hi <= llen l ->
  slice (E := E) l lo hi = Ret (ltake (hi - lo) (ldrop lo l)).
Proof.
  intros. unfold slice. ztrue (0 <=? lo). ztrue (lo <=? hi). by ztrue (hi <=? llen l).
Qed.

Lemma index_ok {E A} (l : list A) i :
  0 <= i < llen l -> exists a, l !! Z.to_nat i = Some a /\ index (E := E) l i = Ret a.
Proof.
  unfold llen, index. intros H. ztrue (0 <=? i).
  destruct (lookup_lt_is_Some_2 l (Z.to_nat i)) as [a Ha]; [lia|]. exists a. by rewrite Ha.
Qed.

Lemma llen_app {A} (l k : list A) : llen (l ++ k) = llen l + llen k.
Proof. unfold llen. rewrite length_app. lia. Qed.

Lemma llen_nonneg {A} (l : list A) : 0 <= llen l.
Proof. unfold llen. lia. Qed.

Lemma llen_nil_inv {A} (l : list A) : llen l = 0 -> l = [].
Proof. unfold llen. intros H. apply nil_length_inv. lia. Qed.

Lemma ltake_ldrop {A} n (l : list A) : ltake n l ++ ldrop n l = l.
Proof. apply take_drop. Qed.

Lemma ltake_app_llen {A} (l k : list A) : ltake (llen l) (l ++ k) = l.
Proof. unfold ltake, llen. rewrite Nat2Z.id. by rewrite take_app_length. Qed.

Lemma ldrop_app_llen {A} (l k : list A) : ldrop (llen l) (l ++ k) = k.
Proof. unfold ldrop, llen. rewrite Nat2Z.id. by rewrite drop_app_length. Qed.

Lemma ldrop_0 {A} (l : list A) : ldrop 0 l = l.
Proof. apply drop_0. Qed.

Lemma llen_ltake {A} n (l : list A) : 0 <= n <= llen l -> llen (ltake n l) = n.
Proof. unfold llen, ltake. rewrite length_take. lia. Qed.

Lemma llen_ldrop {A} n (l : list A) : 0 <= n <= llen l -> llen (ldrop n l) = llen l - n.
Proof. unfold llen, ldrop. rewrite length_drop. lia. Qed.
