(* ===== verification/Floats.v ===== *)
(** * float64 (IEEE-754 binary64) as the program uses it

    Values are the Standard Library's [spec_float]; arithmetic is its
    round-to-nearest-even specification at precision 53 and exponent bound 1024.
    [ParseFloat] and [FormatFloat] follow the documentation of Go's [strconv]:
    parsing rounds the exact value of the literal correctly, and the precision -1
    prints the fewest digits that parse back to the same value.  Nothing here
    models code of the repository. *)

From S2P Require Import Prelude GoLib.
From Stdlib Require Import SpecFloat.

Definition float64 : Type := spec_float.

#[export] Instance float64_eq_dec : EqDecision float64.
Proof. solve_decision. Defined.

Module F64.

Definition prec : Z := 53.
Definition emax : Z := 1024.

Definition zero : float64 := S754_zero false.
Definition Inf (neg : bool) : float64 := S754_infinity neg.

(** Go's [+], [*], [/] and comparisons; every comparison with NaN is false, except
    [!=]. *)
Definition add : float64 -> float64 -> float64 := SFadd prec emax.
Definition mul : float64 -> float64 -> float64 := SFmul prec emax.
Definition div : float64 -> float64 -> float64 := SFdiv prec emax.
Definition ltb : float64 -> float64 -> bool := SFltb.
Definition leb : float64 -> float64 -> bool := SFleb.
Definition eqb : float64 -> float64 -> bool := SFeqb.

Definition IsNaN (f : float64) : bool := match f with S754_nan => true | _ => false end.

(** [float64(n)] for an integer *)
Definition of_Z (n : Z) : float64 := binary_normalize prec emax n 0 false.

(** [int64(f)] for a finite [f] in range: truncation toward zero. *)
Definition trunc (f : float64) : Z :=
  match f with
  | S754_finite s m e =>
      let a := if 0 <=? e then Zpos m * 2 ^ e else Zpos m / 2 ^ (- e) in
      if s then - a else a
  | _ => 0
  end.

(** The float nearest to [m * 10^k], with sign [neg] ([m] not negative).  Beyond
    the exponent window the result is infinite or zero. *)
Definition of_decimal (neg : bool) (m k : Z) : float64 :=
  match m with
  | Zpos p =>
      if 0 <=? k then
        if 400 <? k then Inf neg
        else match m * 10 ^ k with
             | Zpos q => binary_round prec emax neg q 0
             | _ => S754_zero neg
             end
      else match 10 ^ (- k) with
           | Zpos q => div (S754_finite neg p 0) (S754_finite false q 0)
           | _ => S754_zero neg
           end
  | _ => S754_zero neg
  end.

(** The float nearest to [m * 2^k]. *)
Definition of_binary (neg : bool) (m k : Z) : float64 :=
  match m with
  | Zpos p => binary_round prec emax neg p k
  | _ => S754_zero neg
  end.

Definition is_inf (f : float64) : bool := match f with S754_infinity _ => true | _ => false end.

End F64.

(** ** strconv.ParseFloat(s, 64) *)

Definition hex_val (c : Ascii.ascii) : option Z :=
  match digit_val c with
  | Some d => Some d
  | None =>
      let l := byte (lower_byte c) in
      if (97 <=? l) && (l <=? 102) then Some (l - 87) else None
  end.

(** [strconv.underscoreOK]; [saw] is [Some true] after a digit, [Some false] after
    an underscore, [None] otherwise. *)
Fixpoint underscoreLoop (hex : bool) (saw : option bool) (s : string) : bool :=
  match s with
  | EmptyString => match saw with Some false => false | _ => true end
  | String c s' =>
      let digit := match (if hex then hex_val c else digit_val c) with
                   | Some _ => true | None => false end in
      if digit then underscoreLoop hex (Some true) s'
      else if Ascii.eqb c "_"%char then
        match saw with Some true => underscoreLoop hex (Some false) s' | _ => false end
      else match saw with Some false => false | _ => underscoreLoop hex None s' end
  end.

Definition dropSign (s : string) : string :=
  match s with
  | String c s' => if Ascii.eqb c "-"%char || Ascii.eqb c "+"%char then s' else s
  | EmptyString => s
  end.

Definition underscoreOK (s : string) : bool :=
  let s := dropSign s in
  match s with
  | String z (String b s') =>
      let l := lower_byte b in
      if Ascii.eqb z "0"%char
         && (Ascii.eqb l "b"%char || Ascii.eqb l "o"%char || Ascii.eqb l "x"%char)
      then underscoreLoop (Ascii.eqb l "x"%char) (Some true) s'
      else underscoreLoop false None s
  | _ => underscoreLoop false None s
  end.

(** The mantissa: all digits as one integer, the number of digits, and how many
    stand before the point.  Returns the rest of the string. *)
Record mantissa : Type := mkMantissa {
  mDigits : Z;      (* the digits read as an integer *)
  mFrac : Z;        (* how many of them follow the point *)
  mSawDot : bool;
  mSawDigits : bool;
  mUnderscore : bool
}.

Fixpoint readMantissa (hex : bool) (s : string) (acc : mantissa) : mantissa * string :=
  match s with
  | EmptyString => (acc, s)
  | String c s' =>
      if Ascii.eqb c "_"%char then
        readMantissa hex s'
          (mkMantissa (mDigits acc) (mFrac acc) (mSawDot acc) (mSawDigits acc) true)
      else if Ascii.eqb c "."%char then
        if mSawDot acc then (acc, s)
        else readMantissa hex s'
               (mkMantissa (mDigits acc) (mFrac acc) true (mSawDigits acc) (mUnderscore acc))
      else
        match (if hex then hex_val c else digit_val c) with
        | Some d =>
            readMantissa hex s'
              (mkMantissa ((if hex then 16 else 10) * mDigits acc + d)
                 (if mSawDot acc then mFrac acc + 1 else mFrac acc)
                 (mSawDot acc) true (mUnderscore acc))
        | None => (acc, s)
        end
  end.

(** The digits of an exponent; its value stops growing at 10000. *)
Fixpoint readExp (s : string) (e : Z) (us : bool) : Z * bool * string :=
  match s with
  | EmptyString => (e, us, s)
  | String c s' =>
      if Ascii.eqb c "_"%char then readExp s' e true
      else match digit_val c with
           | Some d => readExp s' (if e <? 10000 then e * 10 + d else e) us
           | None => (e, us, s)
           end
  end.

(** The optional exponent after the mantissa: [None] for a syntax error, else its
    value, whether there was one, whether it held an underscore, and the rest. *)
Definition readExponent (hex : bool) (s : string) : option (Z * bool * bool * string) :=
  match s with
  | String c s' =>
      if Ascii.eqb (lower_byte c) (if hex then "p"%char else "e"%char) then
        let '(neg, s2) :=
          match s' with
          | String d t => if Ascii.eqb d "+"%char then (false, t)
                          else if Ascii.eqb d "-"%char then (true, t) else (false, s')
          | EmptyString => (false, s')
          end in
        match s2 with
        | String d _ =>
            match digit_val d with
            | Some _ =>
                let '(e, us, rest) := readExp s2 0 false in
                Some (if neg then - e else e, true, us, rest)
            | None => None
            end
        | EmptyString => None
        end
      else Some (0, false, false, s)
  | EmptyString => Some (0, false, false, s)
  end.

(** ASCII lower case, byte by byte. *)
Fixpoint asciiLower (s : string) : string :=
  match s with
  | EmptyString => EmptyString
  | String c s' => String (lower_byte c) (asciiLower s')
  end.

Definition special (s : string) : option float64 :=
  let '(neg, signed, t) :=
    match s with
    | String c s' => if Ascii.eqb c "+"%char then (false, true, s')
                     else if Ascii.eqb c "-"%char then (true, true, s') else (false, false, s)
    | EmptyString => (false, false, s)
    end in
  let t := asciiLower t in
  if String.eqb t "inf" || String.eqb t "infinity" then Some (F64.Inf neg)
  else if String.eqb t "nan" && negb signed then Some S754_nan
  else None.

(** [None] for a syntax error and for a range error. *)
Definition ParseFloat (s : string) : option float64 :=
  match special s with
  | Some f => Some f
  | None =>
      let '(neg, t) :=
        match s with
        | String c s' => if Ascii.eqb c "+"%char then (false, s')
                         else if Ascii.eqb c "-"%char then (true, s') else (false, s)
        | EmptyString => (false, s)
        end in
      let '(hex, body) :=
        match t with
        | String z (String x (String d u)) =>
            if Ascii.eqb z "0"%char && Ascii.eqb (lower_byte x) "x"%char
            then (true, String d u) else (false, t)
        | _ => (false, t)
        end in
      let '(m, rest) := readMantissa hex body (mkMantissa 0 0 false false false) in
      if negb (mSawDigits m) then None else
      match readExponent hex rest with
      | None => None
      | Some (e, sawExp, us, rest) =>
          if hex && negb sawExp then None
          else if negb (is_empty rest) then None
          else if (mUnderscore m || us) && negb (underscoreOK s) then None
          else
            let f := if hex then F64.of_binary neg (mDigits m) (e - 4 * mFrac m)
                     else F64.of_decimal neg (mDigits m) (e - mFrac m) in
            if F64.is_inf f then None else Some f
      end
  end.

(** ** strconv.FormatFloat(f, fmt, -1, 64) *)

(** [m * 2^e] scaled by [10^k], as a fraction. *)
Definition scaled (m e k : Z) : Z * Z :=
  let num := m * (if 0 <=? e then 2 ^ e else 1) * (if 0 <=? k then 10 ^ k else 1) in
  let den := (if 0 <=? e then 1 else 2 ^ (- e)) * (if 0 <=? k then 1 else 10 ^ (- k)) in
  (num, den).

(** The decimal point position [p]: [10^(p-1) <= m * 2^e < 10^p]; [p] is searched
    from the estimate [digits2 m + e] scaled by log10 2. *)
Fixpoint adjustPoint (fuel : nat) (m e p : Z) : Z :=
  match fuel with
  | O => p
  | S fuel' =>
      let '(num, den) := scaled m e (- p) in
      if den <=? num then adjustPoint fuel' m e (p + 1)
      else let '(num1, den1) := scaled m e (1 - p) in
           if num1 <? den1 then adjustPoint fuel' m e (p - 1) else p
  end.

Definition pointPos (m e : Z) : Z :=
  adjustPoint 10 m e ((Z.log2 m + e) * 30103 / 100000 + 1).

(** Try [n], [n+1], ... digits: the nearer of the two neighbours with that many
    digits that parses back to [f]. *)
Fixpoint shortestLoop (fuel : nat) (f : float64) (m e p n : Z) : Z * Z :=
  let '(num, den) := scaled m e (n - p) in
  let c := num / den in
  let r := num mod den in
  let down := bool_decide (F64.of_decimal false c (p - n) = f) in
  let up := bool_decide (F64.of_decimal false (c + 1) (p - n) = f) in
  let nearUp := (den <? 2 * r) || ((den =? 2 * r) && Z.odd c) in
  match fuel with
  | O => (c, n)
  | S fuel' =>
      if down && (negb up || negb nearUp) then (c, n)
      else if up then (c + 1, n)
      else shortestLoop fuel' f m e p (n + 1)
  end.

(** Decimal digits without trailing zeros, and the position of the point. *)
Fixpoint stripZeros (fuel : nat) (d n : Z) : Z * Z :=
  match fuel with
  | O => (d, n)
  | S fuel' => if (1 <? n) && (d mod 10 =? 0) then stripZeros fuel' (d / 10) (n - 1) else (d, n)
  end.

(** The shortest digits of a positive finite float and its decimal point position
    [dp]: the value is [0.d1d2... * 10^dp]. *)
Definition shortestDigits (m : positive) (e : Z) : string * Z :=
  let p := pointPos (Zpos m) e in
  let '(d, n) := shortestLoop 20 (S754_finite false m e) (Zpos m) e p 1 in
  let '(d, n, p) := if 10 ^ n <=? d then (d / 10, n, p + 1) else (d, n, p) in
  let '(d, _) := stripZeros 20 d n in
  (FormatUint d, p).

Fixpoint zeros (n : nat) : string :=
  match n with O => EmptyString | S n' => String "0"%char (zeros n') end.

Definition sign (neg : bool) : string := if neg then "-" else "".

(** [%f] with exactly the digits there are. *)
Definition fmtF (neg : bool) (digs : string) (dp : Z) : string :=
  let nd := len digs in
  let int :=
    if 0 <? dp then stake (Z.to_nat dp) digs +:+ zeros (Z.to_nat (dp - nd)) else "0" in
  let frac :=
    if 0 <? nd - dp then
      "." +:+ zeros (Z.to_nat (- dp)) +:+ sdrop (Z.to_nat dp) digs
    else "" in
  sign neg +:+ int +:+ frac.

(** [%e]: one digit before the point and an exponent of at least two digits. *)
Definition fmtE (neg : bool) (digs : string) (dp : Z) : string :=
  let first := stake 1 digs in
  let rest := sdrop 1 digs in
  let ex := dp - 1 in
  let exs := FormatUint (Z.abs ex) in
  sign neg +:+ first +:+ (if is_empty rest then "" else "." +:+ rest) +:+ "e" +:+
  (if ex <? 0 then "-" else "+") +:+ (if len exs <? 2 then "0" +:+ exs else exs).

(** [FormatFloat(f, 'f', -1, 64)] and [FormatFloat(f, 'g', -1, 64)] *)
Definition FormatFloat_f (f : float64) : string :=
  match f with
  | S754_nan => "NaN"
  | S754_infinity neg => if neg then "-Inf" else "+Inf"
  | S754_zero neg => sign neg +:+ "0"
  | S754_finite neg m e => let '(digs, dp) := shortestDigits m e in fmtF neg digs dp
  end.

Definition FormatFloat_g (f : float64) : string :=
  match f with
  | S754_nan => "NaN"
  | S754_infinity neg => if neg then "-Inf" else "+Inf"
  | S754_zero neg => sign neg +:+ "0"
  | S754_finite neg m e =>
      let '(digs, dp) := shortestDigits m e in
      let ex := dp - 1 in
      if (ex <? -4) || (6 <=? ex) then fmtE neg digs dp else fmtF neg digs dp
  end.

(** ** The order of the values that are not NaN *)

(** A position on the number line: class, exponent, mantissa. *)
Definition frank (f : float64) : Z * Z * Z :=
  match f with
  | S754_infinity true => (-2, 0, 0)
  | S754_finite true m e => (-1, - e, - Zpos m)
  | S754_zero _ => (0, 0, 0)
  | S754_finite false m e => (1, e, Zpos m)
  | S754_infinity false => (2, 0, 0)
  | S754_nan => (3, 0, 0)
  end.

Definition rank_lt (a b : Z * Z * Z) : Prop :=
  let '(a1, a2, a3) := a in
  let '(b1, b2, b3) := b in
  a1 < b1 \/ (a1 = b1 /\ (a2 < b2 \/ (a2 = b2 /\ a3 < b3))).

Lemma SFcompare_rank f g :
  F64.IsNaN f = false -> F64.IsNaN g = false ->
  match SFcompare f g with
  | Some Lt => rank_lt (frank f) (frank g)
  | Some Eq => frank f = frank g
  | Some Gt => rank_lt (frank g) (frank f)
  | None => False
  end.
Proof.
  intros Hf Hg.
  destruct f as [[]|[]| |[] m e], g as [[]|[]| |[] m' e']; try done; cbn;
    try (by left); try done;
    destruct (Z.compare_spec e e') as [->|H|H]; cbn;
    try (change (Pos.compare_cont Eq m m') with (Pos.compare m m');
         destruct (Pos.compare_spec m m') as [->|H|H]; cbn);
    try done; right; (split; [done|]); lia.
Qed.

Lemma ltb_rank f g :
  F64.IsNaN f = false -> F64.IsNaN g = false ->
  (F64.ltb f g = true <-> rank_lt (frank f) (frank g)).
Proof.
  intros Hf Hg. pose proof (SFcompare_rank f g Hf Hg) as H.
  unfold F64.ltb, SFltb. destruct (SFcompare f g) as [[]|]; [..|done];
    (split; [done|]); intros H'; try done; exfalso;
    destruct (frank f) as [[a1 a2] a3], (frank g) as [[b1 b2] b3]; cbn in *; simplify_eq; lia.
Qed.

Lemma eqb_rank f g :
  F64.IsNaN f = false -> F64.IsNaN g = false -> (F64.eqb f g = true <-> frank f = frank g).
Proof.
  intros Hf Hg. pose proof (SFcompare_rank f g Hf Hg) as H.
  unfold F64.eqb, SFeqb. destruct (SFcompare f g) as [[]|]; [..|done];
    (split; [done|]); intros H'; try done; exfalso;
    destruct (frank f) as [[a1 a2] a3], (frank g) as [[b1 b2] b3]; cbn in *; simplify_eq; lia.
Qed.

Lemma leb_rank f g :
  F64.IsNaN f = false -> F64.IsNaN g = false ->
  (F64.leb f g = true <-> ~ rank_lt (frank g) (frank f)).
Proof.
  intros Hf Hg. pose proof (SFcompare_rank f g Hf Hg) as H.
  unfold F64.leb, SFleb. destruct (SFcompare f g) as [[]|]; [..|done];
    (split; intros H'); try done;
    destruct (frank f) as [[a1 a2] a3], (frank g) as [[b1 b2] b3]; cbn in *; simplify_eq; lia.
Qed.

Lemma leb_trans f g h :
  F64.IsNaN f = false -> F64.IsNaN g = false -> F64.IsNaN h = false ->
  F64.leb f g = true -> F64.leb g h = true -> F64.leb f h = true.
Proof.
  intros Hf Hg Hh. rewrite !leb_rank by done.
  destruct (frank f) as [[a1 a2] a3], (frank g) as [[b1 b2] b3], (frank h) as [[c1 c2] c3].
  cbn. lia.
Qed.

(** [d.Seconds()] of a [time.Duration]: whole seconds plus the rest, in float64. *)
Definition DurationSeconds (d : Duration) : float64 :=
  F64.add (F64.of_Z (Z.quot d Second))
    (F64.div (F64.of_Z (Z.rem d Second)) (F64.of_Z 1000000000)).

(** [fmt.Sprintf("%.2f", f)] for a finite [f] that is not negative: the exact value
    rounded to hundredths, halves to even. *)
Definition FormatFixed2 (f : float64) : string :=
  match f with
  | S754_finite _ m e =>
      let '(num, den) := scaled (Zpos m) e 2 in
      let q := num / den in
      let r := num mod den in
      let up := (den <? 2 * r) || ((den =? 2 * r) && Z.odd q) in
      let h := if up then q + 1 else q in
      let frac := FormatUint (h mod 100) in
      FormatUint (h / 100) +:+ "." +:+ (if len frac <? 2 then "0" +:+ frac else frac)
  | _ => "0.00"
  end.
