(* ===== verification/Protocol.v ===== *)
(** * RESP v2: internal/protocol (types.go, serializer.go, parser.go)

    [Response] and its constructors, [Serialize], and the recursive parser over
    the bytes a connection delivers before end of file.  The theorems: what is
    serialized is read back, commands are binary safe, parsing always
    terminates, consumes input, and never reads past the value it returns. *)

From S2P Require Import Prelude GoLib.

Open Scope go_scope.

(** ** types.go *)

Inductive RType : Type :=
| TypeSimpleString
| TypeError
| TypeInteger
| TypeBulkString
| TypeNullBulkString
| TypeArray
| TypeNullArray.

#[export] Instance RType_eq_dec : EqDecision RType.
Proof. solve_decision. Defined.

(** The struct [Response]; a field a constructor does not set has Go's zero value. *)
#[warnings="-register-all"]
Inductive Response : Type :=
| mkResponse (type : RType) (str : string) (integer : Z) (array : list Response).

Definition rType (r : Response) : RType := let 'mkResponse t _ _ _ := r in t.
Definition rStr (r : Response) : string := let 'mkResponse _ s _ _ := r in s.
Definition rInteger (r : Response) : Z := let 'mkResponse _ _ n _ := r in n.
Definition rArray (r : Response) : list Response := let 'mkResponse _ _ _ a := r in a.

Definition SimpleString (s : string) : Response := mkResponse TypeSimpleString s 0 [].
Definition Error (s : string) : Response := mkResponse TypeError s 0 [].
Definition Integer (n : Z) : Response := mkResponse TypeInteger EmptyString n [].
Definition BulkString (s : string) : Response := mkResponse TypeBulkString s 0 [].
Definition NullBulkString : Response := mkResponse TypeNullBulkString EmptyString 0 [].
Definition Array (elems : list Response) : Response := mkResponse TypeArray EmptyString 0 elems.
(** [protocol.Response{Type: protocol.TypeNullArray}] *)
Definition NullArray : Response := mkResponse TypeNullArray EmptyString 0 [].

(** ** serializer.go *)

Fixpoint Serialize (r : Response) : string :=
  match r with
  | mkResponse t s n a =>
      match t with
      | TypeSimpleString => "+" +:+ s +:+ CRLF
      | TypeError => "-" +:+ s +:+ CRLF
      | TypeInteger => ":" +:+ FormatInt n +:+ CRLF
      | TypeBulkString => "$" +:+ FormatInt (len s) +:+ CRLF +:+ s +:+ CRLF
      | TypeNullBulkString => "$-1" +:+ CRLF
      | TypeNullArray => "*-1" +:+ CRLF
      | TypeArray =>
          "*" +:+ FormatInt (Z.of_nat (length a)) +:+ CRLF +:+ sconcat (List.map Serialize a)
      end
  end.

(** ** parser.go *)

(** The errors the parser returns.  [EEof] wraps [io.EOF], the only error that
    [errors.Is(err, io.EOF)] recognises; [EUnexpectedEOF] wraps
    [io.ErrUnexpectedEOF]; the others are the parser's own messages. *)
Inductive perr : Type :=
| EEof
| EUnexpectedEOF
| EUnknownPrefix
| EInvalidInteger
| EInvalidBulkLength
| ENegativeBulkLength
| EInvalidArrayLength
| ENegativeArrayLength
| EExpectedCRLF
| EExpectedArray
| EEmptyCommand
| EElementNotBulk.

#[export] Instance perr_eq_dec : EqDecision perr.
Proof. solve_decision. Defined.

(** A read from the [bufio.Reader]: the bytes left before end of file go in, and
    come back less the bytes read. *)
Definition reader (A : Type) : Type := string -> outcome perr (A * string).

(** [rd.ReadString(delim)] *)
Fixpoint ReadString (delim : Ascii.ascii) (s : string) : option (string * string) :=
  match s with
  | EmptyString => None
  | String c s' =>
      if decide (c = delim) then Some (String c EmptyString, s')
      else match ReadString delim s' with
           | Some (line, rest) => Some (String c line, rest)
           | None => None
           end
  end.

(** [io.ReadFull(rd, buf)] with [len(buf) = n] *)
Definition ReadFull (n : Z) : reader string := fun s =>
  if n =? 0 then Ret (EmptyString, s)
  else if is_empty s then Err EEof
  else if len s <? n then Err EUnexpectedEOF
  else Ret (stake (Z.to_nat n) s, sdrop (Z.to_nat n) s).

Definition readLine : reader string := fun s =>
  match ReadString LF s with
  | None => Err EEof
  | Some (line, rest) => Ret (TrimRight [CR; LF] line, rest)
  end.

Definition consumeCRLF : reader unit := fun s =>
  let! (crlf, rest) := ReadFull 2 s in
  if decide (crlf = CRLF) then Ret (tt, rest) else Err EExpectedCRLF.

Definition readSimpleString : reader Response := fun s =>
  let! (line, rest) := readLine s in Ret (SimpleString line, rest).

Definition readError : reader Response := fun s =>
  let! (line, rest) := readLine s in Ret (Error line, rest).

Definition readInteger : reader Response := fun s =>
  let! (line, rest) := readLine s in
  match ParseInt line with
  | None => Err EInvalidInteger
  | Some n => Ret (Integer n, rest)
  end.

Definition readBulkString : reader Response := fun s =>
  let! (line, rest) := readLine s in
  match ParseInt line with
  | None => Err EInvalidBulkLength
  | Some length =>
      if length =? -1 then Ret (NullBulkString, rest)
      else if length <? 0 then Err ENegativeBulkLength
      else if negb (make_ok length 1) then Panic
      else
        let! (data, rest') := ReadFull length rest in
        let! (_, rest'') := consumeCRLF rest' in
        Ret (BulkString data, rest'')
  end.

(** [unsafe.Sizeof(Response{})]: an int, a string header, an int64, a slice header. *)
Definition sizeofResponse : Z := 56.

(** The loop of [readArray] that reads the elements, over the reader of one
    value.  [fuel] bounds the number of iterations. *)
Fixpoint readElems (readVal : reader Response) (fuel : nat) (count : Z)
    (s : string) : outcome perr (list Response * string) :=
  if count <=? 0 then Ret ([], s)
  else match fuel with
  | O => OutOfFuel
  | S f =>
      let! (elem, rest) := readVal s in
      let! (elems, rest') := readElems readVal f (count - 1) rest in
      Ret (elem :: elems, rest')
  end.

Definition readArray (readVal : reader Response) (fuel : nat) : reader Response := fun s =>
  let! (line, rest) := readLine s in
  match ParseInt line with
  | None => Err EInvalidArrayLength
  | Some count =>
      if count =? -1 then Ret (NullArray, rest)
      else if count <? 0 then Err ENegativeArrayLength
      else if negb (make_ok count sizeofResponse) then Panic
      else
        let! (elems, rest') := readElems readVal fuel count rest in
        Ret (Array elems, rest')
  end.

Fixpoint readValue (fuel : nat) (s : string) : outcome perr (Response * string) :=
  match fuel with
  | O => OutOfFuel
  | S f =>
      match s with
      | EmptyString => Err EEof
      | String prefix rest =>
          if decide (prefix = "+"%char) then readSimpleString rest
          else if decide (prefix = "-"%char) then readError rest
          else if decide (prefix = ":"%char) then readInteger rest
          else if decide (prefix = "$"%char) then readBulkString rest
          else if decide (prefix = "*"%char) then readArray (readValue f) f rest
          else Err EUnknownPrefix
      end
  end.

(** [Parser.ReadValue].  Every value takes at least one byte, so one unit of
    fuel more than there are bytes is enough ([ReadValue_total]). *)
Definition ReadValue : reader Response := fun s => readValue (S (String.length s)) s.

(** The loop of [ReadCommand] over the elements of the array. *)
Fixpoint commandParts (elems : list Response) : option (list string) :=
  match elems with
  | [] => Some []
  | elem :: elems' =>
      if decide (rType elem = TypeBulkString) then
        match commandParts elems' with
        | Some parts => Some (rStr elem :: parts)
        | None => None
        end
      else None
  end.

Definition ReadCommand : reader (list string) := fun s =>
  let! (val, rest) := ReadValue s in
  if decide (rType val <> TypeArray) then Err EExpectedArray
  else match rArray val with
  | [] => Err EEmptyCommand
  | elems =>
      match commandParts elems with
      | Some parts => Ret (parts, rest)
      | None => Err EElementNotBulk
      end
  end.

(** The array of bulk strings a client (and [AOF.Append]) sends for a command. *)
Definition command_resp (args : list string) : Response := Array (List.map BulkString args).

(** ** Which responses have a faithful wire form *)

(** A simple string or error text survives when it is one line. *)
Definition line_ok (s : string) : Prop :=
  contains_byte LF s = false /\ TrimRight [CR; LF] s = s.

Fixpoint wire_ok (r : Response) : Prop :=
  match r with
  | mkResponse t s n a =>
      match t with
      | TypeSimpleString | TypeError => line_ok s /\ n = 0 /\ a = []
      | TypeInteger => s = EmptyString /\ int64_ok n /\ a = []
      | TypeBulkString => len s <= maxAlloc /\ n = 0 /\ a = []
      | TypeNullBulkString | TypeNullArray => s = EmptyString /\ n = 0 /\ a = []
      | TypeArray =>
          s = EmptyString /\ n = 0 /\
          Z.of_nat (length a) * sizeofResponse <= maxAlloc /\
          fold_right (fun e P => wire_ok e /\ P) True a
      end
  end.

(** An argument vector that fits in memory on the receiving side. *)
Definition args_ok (args : list string) : Prop :=
  args <> [] /\ Z.of_nat (length args) * sizeofResponse <= maxAlloc /\
  Forall (fun a => len a <= maxAlloc) args.

(** ** Reading one line *)

Lemma ReadString_app s rest :
  contains_byte LF s = false ->
  ReadString LF (s +:+ CRLF +:+ rest) = Some (s +:+ CRLF, rest).
Proof.
  induction s as [|c s IH]; simpl; intros H; [done|].
  apply orb_false_iff in H as [Hc Hs]. apply bool_decide_eq_false in Hc.
  rewrite decide_False by congruence. by rewrite IH.
Qed.

Lemma TrimRight_app_empty cut s t :
  TrimRight cut t = EmptyString -> TrimRight cut (s +:+ t) = TrimRight cut s.
Proof. intros Ht. induction s as [|c s IH]; simpl; [done|]. by rewrite IH. Qed.

Lemma readLine_app s rest :
  line_ok s -> readLine (s +:+ CRLF +:+ rest) = Ret (s, rest).
Proof.
  intros [Hn Ht]. unfold readLine. rewrite ReadString_app by done.
  by rewrite TrimRight_app_empty, Ht.
Qed.

Lemma printable_line_ok s : all_bytes printable s = true -> line_ok s.
Proof.
  unfold line_ok. induction s as [|c s IH]; intros H; [done|]. simpl in H.
  apply andb_true_iff in H as [Hc Hs]. destruct (IH Hs) as [Hn Ht].
  assert (c <> LF /\ c <> CR) as [? ?].
  { unfold printable in Hc. zbool. split; intros ->; by apply Z.leb_le in Hc. }
  simpl. rewrite Hn, Ht. split.
  - rewrite bool_decide_false by congruence. done.
  - destruct s; [|done]. rewrite bool_decide_false; [done|].
    by intros [?|[?|?%elem_of_nil]%elem_of_cons]%elem_of_cons.
Qed.

Lemma readLine_FormatInt n rest :
  readLine (FormatInt n +:+ CRLF +:+ rest) = Ret (FormatInt n, rest).
Proof. apply readLine_app, printable_line_ok, FormatInt_printable. Qed.

Lemma ReadFull_app s rest : ReadFull (len s) (s +:+ rest) = Ret (s, rest).
Proof.
  unfold ReadFull. destruct s as [|c s]; [done|].
  replace (len (String c s) =? 0) with false by (unfold len; simpl; lia).
  simpl is_empty. cbv iota.
  rewrite (len_app (String c s)). pose proof (len_nonneg rest).
  zfalse (len (String c s) + len rest <? len (String c s)).
  unfold len at 1 2. rewrite Nat2Z.id. by rewrite stake_app, sdrop_app.
Qed.

Lemma consumeCRLF_app rest : consumeCRLF (CRLF +:+ rest) = Ret (tt, rest).
Proof. unfold consumeCRLF. change 2 with (len CRLF). by rewrite ReadFull_app. Qed.

(** ** Round trip *)

Lemma Response_nested_ind (P : Response -> Prop) :
  (forall t s n a, Forall P a -> P (mkResponse t s n a)) -> forall r, P r.
Proof.
  intros H. fix IH 1. intros [t s n a]. apply H.
  induction a as [|e a IHa]; constructor; [apply IH|exact IHa].
Qed.

Definition reads_back (r : Response) : Prop := forall fuel rest,
  (String.length (Serialize r +:+ rest) < fuel)%nat ->
  readValue fuel (Serialize r +:+ rest) = Ret (r, rest).

Lemma make_ok_true n sz : 0 <= n -> n * sz <= maxAlloc -> make_ok n sz = true.
Proof. unfold make_ok. lia. Qed.

Lemma readElems_roundtrip f rest a fuel :
  (forall e rest', e ∈ a ->
     (String.length (Serialize e +:+ rest') < f)%nat ->
     readValue f (Serialize e +:+ rest') = Ret (e, rest')) ->
  (String.length (sconcat (List.map Serialize a) +:+ rest) < f)%nat ->
  (length a <= fuel)%nat ->
  readElems (readValue f) fuel (Z.of_nat (length a)) (sconcat (List.map Serialize a) +:+ rest)
  = Ret (a, rest).
Proof.
  revert fuel; induction a as [|e a IH]; intros fuel He Hf Hfuel; [by destruct fuel|].
  destruct fuel as [|fuel]; [simpl in Hfuel; lia|].
  cbn [List.map sconcat length] in *. rewrite sapp_assoc in *.
  cbn [readElems]. zfalse (Z.of_nat (S (length a)) <=? 0).
  rewrite He; [|by left|done]. cbn [obind].
  replace (Z.of_nat (S (length a)) - 1) with (Z.of_nat (length a)) by lia.
  rewrite IH; [done| |rewrite !slength_app in *; lia|lia].
  intros e' rest' Hin. apply He. by right.
Qed.

Lemma Serialize_nonempty r : (1 <= String.length (Serialize r))%nat.
Proof. destruct r as [[] s n a]; simpl; lia. Qed.

Lemma sconcat_length_ge a :
  (length a <= String.length (sconcat (List.map Serialize a)))%nat.
Proof.
  induction a as [|e a IH]; simpl; [lia|]. rewrite slength_app.
  pose proof (Serialize_nonempty e). lia.
Qed.

Lemma wire_ok_elems a :
  fold_right (fun e P => wire_ok e /\ P) True a -> Forall wire_ok a.
Proof. induction a as [|e a IH]; simpl; [constructor|]. intros [? ?]. constructor; auto. Qed.

Lemma maxAlloc_int64 n : 0 <= n <= maxAlloc -> int64_ok n.
Proof. unfold int64_ok, minInt64, maxInt64, maxAlloc. lia. Qed.

Lemma readBulkString_roundtrip s rest :
  len s <= maxAlloc ->
  readBulkString (FormatInt (len s) +:+ CRLF +:+ s +:+ CRLF +:+ rest) = Ret (BulkString s, rest).
Proof.
  intros Hs. pose proof (len_nonneg s).
  unfold readBulkString. rewrite readLine_FormatInt. cbn [obind].
  rewrite ParseInt_FormatInt by (apply maxAlloc_int64; lia).
  zfalse (len s =? -1). zfalse (len s <? 0).
  rewrite make_ok_true by lia. cbn [negb].
  rewrite ReadFull_app. cbn [obind]. by rewrite consumeCRLF_app.
Qed.

Lemma readArray_roundtrip f a rest :
  Z.of_nat (length a) * sizeofResponse <= maxAlloc ->
  (forall e rest', e ∈ a ->
     (String.length (Serialize e +:+ rest') < f)%nat ->
     readValue f (Serialize e +:+ rest') = Ret (e, rest')) ->
  (String.length (sconcat (List.map Serialize a) +:+ rest) < f)%nat ->
  readArray (readValue f) f
    (FormatInt (Z.of_nat (length a)) +:+ CRLF +:+ sconcat (List.map Serialize a) +:+ rest)
  = Ret (Array a, rest).
Proof.
  intros Ha He Hf. unfold readArray. rewrite readLine_FormatInt. cbn [obind].
  rewrite ParseInt_FormatInt by (apply maxAlloc_int64; unfold sizeofResponse in Ha; lia).
  zfalse (Z.of_nat (length a) =? -1).
  zfalse (Z.of_nat (length a) <? 0).
  rewrite make_ok_true by lia. cbn [negb].
  rewrite readElems_roundtrip; [done|exact He|exact Hf|].
  pose proof (sconcat_length_ge a). rewrite slength_app in Hf. lia.
Qed.

Lemma readValue_roundtrip r : wire_ok r -> reads_back r.
Proof.
  induction r as [t s n a IH] using Response_nested_ind. intros Hok [|f] rest Hf; [lia|].
  destruct t; cbn [wire_ok] in Hok.
  - destruct Hok as (? & -> & ->). simpl. unfold readSimpleString.
    rewrite !sapp_assoc. by rewrite readLine_app.
  - destruct Hok as (? & -> & ->). simpl. unfold readError.
    rewrite !sapp_assoc. by rewrite readLine_app.
  - destruct Hok as (-> & ? & ->). simpl. unfold readInteger.
    rewrite !sapp_assoc, readLine_FormatInt. cbn [obind]. by rewrite ParseInt_FormatInt.
  - destruct Hok as (? & -> & ->). simpl. rewrite !sapp_assoc.
    by apply readBulkString_roundtrip.
  - by destruct Hok as (-> & -> & ->).
  - destruct Hok as (-> & -> & Hlen & Hel%wire_ok_elems).
    assert (forall x, wire_ok x -> x ∈ a -> reads_back x) as IH'.
    { intros x Hx Hin. rewrite Forall_forall in IH. by apply IH. }
    simpl in Hf |- *. rewrite !sapp_assoc in *. apply readArray_roundtrip; [done| |].
    + intros e rest' Hin Hlt. apply IH'; [|done|done].
      rewrite Forall_forall in Hel. by apply Hel.
    + rewrite !slength_app in *. lia.
  - by destruct Hok as (-> & -> & ->).
Qed.

Lemma ReadValue_Serialize r rest :
  wire_ok r -> ReadValue (Serialize r +:+ rest) = Ret (r, rest).
Proof. intros H. apply readValue_roundtrip; [done|lia]. Qed.

Lemma commandParts_bulk args : commandParts (List.map BulkString args) = Some args.
Proof. induction args as [|a args IH]; simpl; [done|]. by rewrite IH. Qed.

Lemma command_wire_ok args : args_ok args -> wire_ok (command_resp args).
Proof.
  intros (_ & Hlen & Hargs). cbn. rewrite length_map. do 3 (split; [done|]). clear Hlen.
  induction Hargs as [|a args Ha _ IH]; simpl; auto.
Qed.

Lemma ReadCommand_of_value s elems rest :
  ReadValue s = Ret (Array elems, rest) -> elems <> [] ->
  ReadCommand s =
    match commandParts elems with
    | Some parts => Ret (parts, rest)
    | None => Err EElementNotBulk
    end.
Proof.
  intros Hv Hne. unfold ReadCommand. rewrite Hv. cbn. by destruct elems.
Qed.

Lemma ReadCommand_Serialize args rest :
  args_ok args -> ReadCommand (Serialize (command_resp args) +:+ rest) = Ret (args, rest).
Proof.
  intros Hok. erewrite ReadCommand_of_value.
  - by rewrite commandParts_bulk.
  - by apply ReadValue_Serialize, command_wire_ok.
  - destruct Hok as [Hne _]. by destruct args.
Qed.

(** ** The parser is local, terminates and makes progress

    [local_at rd s]: on input [s] the reader [rd] does not look past what it
    returns, so bytes appended to the input stay unread, and errors other than
    the two end-of-file ones do not depend on what follows. *)

Definition eof_err (e : perr) : bool :=
  match e with EEof | EUnexpectedEOF => true | _ => false end.

Definition local_at {A} (rd : reader A) (s : string) : Prop := forall t,
  match rd s with
  | Ret (a, rest) => rd (s +:+ t) = Ret (a, rest +:+ t)
  | Err e => eof_err e = false -> rd (s +:+ t) = Err e
  | Panic => rd (s +:+ t) = Panic
  | OutOfFuel => True
  end.

(** [consumes n rd s]: when [rd] succeeds on [s] it has read at least [n] bytes. *)
Definition consumes {A} (n : nat) (rd : reader A) (s : string) : Prop :=
  match rd s with
  | Ret (_, rest) => (String.length rest + n <= String.length s)%nat
  | _ => True
  end.

Lemma local_bind {A B} (rd : reader A) (k : A -> reader B) s :
  local_at rd s ->
  (forall a rest, rd s = Ret (a, rest) -> local_at (k a) rest) ->
  local_at (fun s => let! (a, rest) := rd s in k a rest) s.
Proof.
  intros H1 H2 t. specialize (H1 t). destruct (rd s) as [[a rest]|e| |] eqn:Hs; cbn [obind].
  - rewrite H1. cbn [obind]. by apply H2.
  - intros He. by rewrite H1.
  - by rewrite H1.
  - done.
Qed.

Lemma ReadString_local s t line rest :
  ReadString LF s = Some (line, rest) -> ReadString LF (s +:+ t) = Some (line, rest +:+ t).
Proof.
  revert line rest; induction s as [|c s IH]; intros line rest H; [done|]. simpl in *.
  case_decide; [by simplify_eq|]. split_match_in H; [|done].
  destruct p as [line' rest']. simplify_eq. by erewrite IH.
Qed.

Lemma ReadString_length s line rest :
  ReadString LF s = Some (line, rest) -> (String.length rest + 1 <= String.length s)%nat.
Proof.
  revert line rest; induction s as [|c s IH]; intros line rest H; [done|]. simpl in *.
  case_decide; [simplify_eq; lia|]. split_match_in H; [|done].
  destruct p as [line' rest']. simplify_eq. specialize (IH _ _ eq_refl). lia.
Qed.

Lemma readLine_local s : local_at readLine s.
Proof.
  intros t. unfold readLine. destruct (ReadString LF s) as [[line rest]|] eqn:Hs; [|done].
  by erewrite ReadString_local.
Qed.

Lemma readLine_consumes s : consumes 1 readLine s.
Proof.
  unfold consumes, readLine. destruct (ReadString LF s) as [[line rest]|] eqn:Hs; [|done].
  by eapply ReadString_length.
Qed.

Lemma stake_app_le n s t : (n <= String.length s)%nat -> stake n (s +:+ t) = stake n s.
Proof.
  revert s; induction n as [|n IH]; intros [|c s] H; simpl in *; try lia;
    [by destruct t|done|]. by rewrite IH by lia.
Qed.

Lemma sdrop_app_le n s t : (n <= String.length s)%nat -> sdrop n (s +:+ t) = sdrop n s +:+ t.
Proof.
  revert s; induction n as [|n IH]; intros [|c s] H; simpl in *; try lia;
    [by destruct t|done|]. by rewrite IH by lia.
Qed.

Lemma ReadFull_local n s : 0 <= n -> local_at (ReadFull n) s.
Proof.
  intros Hn t. unfold ReadFull. destruct (n =? 0) eqn:?; zbool; [done|].
  destruct (is_empty s) eqn:He; [done|]. destruct (len s <? n) eqn:Hl; [done|]. zbool.
  assert (is_empty (s +:+ t) = false) as -> by (by destruct s).
  rewrite len_app. pose proof (len_nonneg t). zfalse (len s + len t <? n).
  unfold len in Hl. by rewrite stake_app_le, sdrop_app_le by lia.
Qed.

Lemma ReadFull_consumes n s : 0 <= n -> consumes (Z.to_nat n) (ReadFull n) s.
Proof.
  intros Hn. unfold consumes, ReadFull. destruct (n =? 0) eqn:?; zbool; [subst; simpl; lia|].
  destruct (is_empty s); [done|]. destruct (len s <? n) eqn:Hl; [done|]. zbool.
  unfold len in Hl. rewrite slength_sdrop. lia.
Qed.

Lemma consumeCRLF_local s : local_at consumeCRLF s.
Proof.
  apply (local_bind (ReadFull 2)); [by apply ReadFull_local|].
  intros crlf rest _ t. by case_decide.
Qed.

Lemma readInteger_local s : local_at readInteger s.
Proof.
  apply (local_bind readLine); [apply readLine_local|].
  intros line rest _ t. by destruct (ParseInt line).
Qed.

Lemma readBulkString_local s : local_at readBulkString s.
Proof.
  apply (local_bind readLine); [apply readLine_local|].
  intros line rest _. destruct (ParseInt line) as [n|]; [|done].
  destruct (n =? -1); [done|]. destruct (n <? 0) eqn:?; [done|]. zbool.
  destruct (make_ok n 1); [|done]. cbn [negb].
  apply (local_bind (ReadFull n)); [by apply ReadFull_local|].
  intros data rest' _. apply (local_bind consumeCRLF); [apply consumeCRLF_local|done].
Qed.

Lemma readElems_local (rv : reader Response) fuel count s :
  (forall s, local_at rv s) -> local_at (readElems rv fuel count) s.
Proof.
  intros Hrv. revert count s; induction fuel as [|f IH]; intros count s t; cbn [readElems].
  - by destruct (count <=? 0).
  - destruct (count <=? 0); [done|]. revert t.
    apply (local_bind rv); [apply Hrv|]. intros e rest _.
    apply (local_bind (readElems rv f (count - 1))); [apply IH|done].
Qed.

Lemma readValue_local fuel s : local_at (readValue fuel) s.
Proof.
  revert s; induction fuel as [|f IH]; intros s t; [done|].
  destruct s as [|c s]; [done|]. simpl. revert t.
  do 2 (case_decide; [apply (local_bind readLine); [apply readLine_local|done]|]).
  case_decide; [apply readInteger_local|].
  case_decide; [apply readBulkString_local|].
  case_decide; [|done].
  apply (local_bind readLine); [apply readLine_local|].
  intros line rest _. destruct (ParseInt line) as [n|]; [|done].
  destruct (n =? -1); [done|]. destruct (n <? 0); [done|].
  destruct (make_ok n sizeofResponse); [|done]. cbn [negb].
  apply (local_bind (readElems (readValue f) f n)); [by apply readElems_local|done].
Qed.

Lemma consumes_bind {A B} n (rd : reader A) (k : A -> reader B) s :
  consumes n rd s ->
  (forall a rest, rd s = Ret (a, rest) -> consumes 0 (k a) rest) ->
  consumes n (fun s => let! (a, rest) := rd s in k a rest) s.
Proof.
  unfold consumes. intros H1 H2. destruct (rd s) as [[a rest]|e| |]; cbn [obind]; try done.
  specialize (H2 a rest eq_refl). destruct (k a rest) as [[b rest']|e| |]; try done. lia.
Qed.

Lemma consumes_0 {A} n (rd : reader A) s : consumes n rd s -> consumes 0 rd s.
Proof. unfold consumes. destruct (rd s) as [[a rest]|e| |]; try done. lia. Qed.

Lemma consumes_line {B} (k : string -> reader B) s :
  (forall line rest, readLine s = Ret (line, rest) -> consumes 0 (k line) rest) ->
  consumes 1 (fun s => let! (line, rest) := readLine s in k line rest) s.
Proof. intros H. by apply (consumes_bind 1 readLine); [apply readLine_consumes|]. Qed.

Lemma readBulkString_consumes s : consumes 1 readBulkString s.
Proof.
  apply consumes_line. intros line rest _. destruct (ParseInt line) as [n|]; [|done].
  unfold consumes. destruct (n =? -1); [lia|]. destruct (n <? 0) eqn:?; [done|]. zbool.
  destruct (make_ok n 1); [|done]. cbn [negb].
  apply (consumes_bind 0 (ReadFull n) _ rest).
  - by eapply consumes_0, ReadFull_consumes.
  - intros data rest' _. apply (consumes_bind 0 consumeCRLF _ rest').
    + apply (consumes_bind 0 (ReadFull 2) _ rest').
      * by eapply consumes_0, ReadFull_consumes.
      * intros crlf r _. unfold consumes. case_decide; [lia|done].
    + intros [] r _. unfold consumes. lia.
Qed.

(** Reading [count] elements: it succeeds or fails without running out of fuel
    when there is more fuel than bytes, as every element takes a byte. *)
Lemma readElems_total (rv : reader Response) f fuel count s :
  (forall s, (String.length s < f)%nat -> rv s <> OutOfFuel /\ consumes 1 rv s) ->
  (String.length s < f)%nat -> (String.length s < fuel)%nat ->
  readElems rv fuel count s <> OutOfFuel /\ consumes 0 (readElems rv fuel count) s.
Proof.
  intros Hrv. revert count s; induction fuel as [|fuel IH]; intros count s Hf Hs; [lia|].
  unfold consumes. cbn [readElems]. destruct (count <=? 0); [by split; [|lia]|].
  destruct (Hrv s Hf) as [Hne Hc]. unfold consumes in Hc.
  destruct (rv s) as [[e rest]|er| |]; cbn [obind]; try done.
  destruct (IH (count - 1) rest) as [Hne' Hc']; [lia|lia|]. unfold consumes in Hc'.
  destruct (readElems rv fuel (count - 1) rest) as [[es rest']|er| |]; cbn [obind]; try done.
  by split; [|lia].
Qed.

Lemma obind_no_fuel {E A B} (c : outcome E A) (k : A -> outcome E B) :
  c <> OutOfFuel -> (forall a, c = Ret a -> k a <> OutOfFuel) -> obind c k <> OutOfFuel.
Proof. destruct c; simpl; intros H1 H2; auto. Qed.

Lemma readLine_no_fuel s : readLine s <> OutOfFuel.
Proof. unfold readLine. by destruct (ReadString LF s) as [[]|]. Qed.

Lemma ReadFull_no_fuel n s : ReadFull n s <> OutOfFuel.
Proof. unfold ReadFull. repeat split_match; done. Qed.

Lemma readBulkString_no_fuel s : readBulkString s <> OutOfFuel.
Proof.
  apply obind_no_fuel; [apply readLine_no_fuel|]. intros [line rest] _.
  repeat (split_match; try done).
  apply obind_no_fuel; [apply ReadFull_no_fuel|]. intros [data rest'] _.
  apply obind_no_fuel; [|by intros []].
  apply obind_no_fuel; [apply ReadFull_no_fuel|]. intros [crlf r] _. by case_decide.
Qed.

Lemma readValue_total fuel s :
  (String.length s < fuel)%nat ->
  readValue fuel s <> OutOfFuel /\ consumes 1 (readValue fuel) s.
Proof.
  revert s; induction fuel as [|f IH]; intros s Hs; [lia|].
  destruct s as [|c s]; [done|]. simpl in Hs.
  assert (forall rd : reader Response, rd s <> OutOfFuel /\ consumes 0 rd s ->
     rd s <> OutOfFuel /\
     match rd s with
     | Ret (_, rest) => (String.length rest + 1 <= S (String.length s))%nat
     | _ => True
     end) as Hlift.
  { intros rd [Hn Hc]. unfold consumes in Hc. split; [done|].
    destruct (rd s) as [[r rest]|e| |]; try done. lia. }
  unfold consumes. cbn [readValue String.length].
  do 3 (case_decide; [apply Hlift; split;
    [apply obind_no_fuel; [apply readLine_no_fuel|intros [] _; by repeat split_match]
    |eapply consumes_0, consumes_line; intros line rest _; unfold consumes;
     repeat split_match; simplify_eq; done || lia]|]).
  case_decide; [apply Hlift; split;
    [apply readBulkString_no_fuel|eapply consumes_0, readBulkString_consumes]|].
  case_decide; [|done]. apply Hlift. unfold readArray.
  pose proof (readLine_consumes s) as Hl. unfold consumes in Hl |- *.
  pose proof (readLine_no_fuel s).
  destruct (readLine s) as [[line rest]|e| |]; cbn [obind]; try done.
  destruct (ParseInt line) as [n|]; [|done]. destruct (n =? -1); [by split; [|lia]|].
  destruct (n <? 0); [done|]. destruct (make_ok n sizeofResponse); [|done]. cbn [negb].
  destruct (readElems_total (readValue f) f f n rest) as [Hn Hc]; [exact IH|lia|lia|].
  unfold consumes in Hc.
  destruct (readElems (readValue f) f n rest) as [[es rest']|e| |]; cbn [obind]; try done.
  by split; [|lia].
Qed.

(** More fuel does not change a result. *)
Lemma readElems_mono (rv rv' : reader Response) f f' count s :
  (forall s, rv s <> OutOfFuel -> rv' s = rv s) -> (f <= f')%nat ->
  readElems rv f count s <> OutOfFuel -> readElems rv' f' count s = readElems rv f count s.
Proof.
  intros Hrv. revert f' count s; induction f as [|f IH]; intros f' count s Hf Hne.
  - destruct f'; cbn [readElems] in *; by destruct (count <=? 0).
  - destruct f' as [|f']; [lia|]. cbn [readElems] in *.
    destruct (count <=? 0); [done|]. rewrite Hrv by (intros E; by rewrite E in Hne).
    destruct (rv s) as [[e rest]|er| |]; cbn [obind] in *; try done.
    rewrite IH; [done|lia|]. intros E; by rewrite E in Hne.
Qed.

Lemma readValue_mono f f' s :
  (f <= f')%nat -> readValue f s <> OutOfFuel -> readValue f' s = readValue f s.
Proof.
  revert f' s; induction f as [|f IH]; intros f' s Hf Hne; [done|].
  destruct f' as [|f']; [lia|]. destruct s as [|c s]; [done|]. cbn [readValue] in *.
  repeat (case_decide; [done|]). case_decide; [|done]. unfold readArray in *.
  destruct (readLine s) as [[line rest]|er| |]; cbn [obind] in *; try done.
  destruct (ParseInt line) as [n|]; [|done]. destruct (n =? -1); [done|].
  destruct (n <? 0); [done|]. destruct (make_ok n sizeofResponse); [|done]. cbn [negb] in *.
  rewrite (readElems_mono (readValue f) (readValue f') f f'); [done| |lia|].
  - intros s' Hs'. apply IH; [lia|done].
  - intros E; by rewrite E in Hne.
Qed.

Lemma ReadValue_total s : ReadValue s <> OutOfFuel /\ consumes 1 ReadValue s.
Proof. unfold ReadValue, consumes. apply readValue_total. lia. Qed.

Lemma ReadValue_fuel fuel s : (String.length s < fuel)%nat -> ReadValue s = readValue fuel s.
Proof.
  intros Hf. symmetry. apply readValue_mono; [lia|]. apply ReadValue_total.
Qed.

Lemma ReadValue_local s : local_at ReadValue s.
Proof.
  intros t. rewrite (ReadValue_fuel (S (String.length (s +:+ t))) s)
    by (rewrite slength_app; lia).
  apply (readValue_local _ s t).
Qed.

Definition check_command (val : Response) (rest : string) : outcome perr (list string * string) :=
  if decide (rType val <> TypeArray) then Err EExpectedArray
  else match rArray val with
  | [] => Err EEmptyCommand
  | elems =>
      match commandParts elems with
      | Some parts => Ret (parts, rest)
      | None => Err EElementNotBulk
      end
  end.

Lemma ReadCommand_unfold s :
  ReadCommand s = let! (val, rest) := ReadValue s in check_command val rest.
Proof. reflexivity. Qed.

Lemma check_command_cases val :
  (exists parts, (forall r, check_command val r = Ret (parts, r)) /\ parts <> []) \/
  (exists e, eof_err e = false /\ forall r, check_command val r = Err e).
Proof.
  unfold check_command. case_decide; [right; by exists EExpectedArray|].
  destruct (rArray val) as [|e es]; [right; by exists EEmptyCommand|].
  cbn [commandParts]. case_decide; [|right; by exists EElementNotBulk].
  destruct (commandParts es); [left; by eexists|right; by exists EElementNotBulk].
Qed.

Lemma ReadCommand_local s : local_at ReadCommand s.
Proof.
  apply (local_bind ReadValue); [apply ReadValue_local|]. intros val rest _ t.
  destruct (check_command_cases val) as [(p & Hp & _)|(e & _ & He)];
    unfold check_command in *; [by rewrite !Hp|by rewrite !He].
Qed.

Lemma ReadCommand_total s : ReadCommand s <> OutOfFuel /\ consumes 1 ReadCommand s.
Proof.
  destruct (ReadValue_total s) as [Hn Hc]. split.
  - apply obind_no_fuel; [done|]. intros [val rest] _.
    destruct (check_command_cases val) as [(p & Hp & _)|(e & _ & He)];
      unfold check_command in *; [by rewrite Hp|by rewrite He].
  - apply (consumes_bind 1 ReadValue); [done|]. intros val rest _. unfold consumes.
    destruct (check_command_cases val) as [(p & Hp & _)|(e & _ & He)];
      unfold check_command in *; [by rewrite Hp; lia|by rewrite He].
Qed.

Lemma ReadCommand_nonempty s args rest : ReadCommand s = Ret (args, rest) -> args <> [].
Proof.
  rewrite ReadCommand_unfold. intros ([val r] & _ & H)%obind_inv.
  destruct (check_command_cases val) as [(p & Hp & Hne)|(e & _ & He)].
  - rewrite Hp in H. by simplify_eq.
  - by rewrite He in H.
Qed.

(** A command cut short reads as one of the two end-of-file errors. *)
Lemma ReadCommand_prefix args n :
  args_ok args -> (n < String.length (Serialize (command_resp args)))%nat ->
  exists e, ReadCommand (stake n (Serialize (command_resp args))) = Err e /\ eof_err e = true.
Proof.
  intros Hok Hn. set (enc := Serialize (command_resp args)) in *.
  pose proof (ReadCommand_local (stake n enc) (sdrop n enc)) as Hl.
  rewrite stake_sdrop in Hl.
  assert (ReadCommand enc = Ret (args, EmptyString)) as Henc.
  { rewrite <- (sapp_nil_r enc). by apply ReadCommand_Serialize. }
  rewrite Henc in Hl. destruct (ReadCommand_total (stake n enc)) as [Hne _].
  destruct (ReadCommand (stake n enc)) as [[a r]|e| |]; try done.
  - simplify_eq. exfalso. pose proof (slength_sdrop n enc) as Hd.
    match goal with E : EmptyString = r +:+ _ |- _ => apply (f_equal String.length) in E;
      rewrite slength_app in E; simpl in E end. lia.
  - exists e. split; [done|]. destruct (eof_err e) eqn:He; [done|]. by specialize (Hl eq_refl).
Qed.

(** ** Properties *)

(** C22: every well-formed response of the protocol layer, of any of the seven
    types and arrays of any depth, is read back by [ReadValue] exactly as it was
    serialized, and the bytes that follow it stay unread. *)
Theorem serialize_roundtrip r rest :
  wire_ok r -> ReadValue (Serialize r +:+ rest) = Ret (r, rest).
Proof. apply ReadValue_Serialize. Qed.

Lemma serialize_roundtrip_witness :
  ReadValue (Serialize (Array [Integer (-5); Array [BulkString CRLF; NullBulkString];
    Error "ERR x"; NullArray]) +:+ "tail")
  = Ret (Array [Integer (-5); Array [BulkString CRLF; NullBulkString]; Error "ERR x"; NullArray],
         "tail").
Proof.
  apply serialize_roundtrip. cbn. unfold int64_ok, line_ok, maxAlloc.
  repeat split; vm_compute; congruence.
Defined.

(** C23: commands are binary safe: [ReadCommand] reads back any argument vector
    encoded as an array of bulk strings, whatever bytes the arguments hold, and
    leaves the next pipelined command untouched. *)
Theorem command_roundtrip args rest :
  args_ok args -> ReadCommand (Serialize (command_resp args) +:+ rest) = Ret (args, rest).
Proof. apply ReadCommand_Serialize. Qed.

Lemma command_roundtrip_witness :
  ReadCommand (Serialize (command_resp ["SET"; "k"; CRLF +:+ "$-1" +:+ CRLF]) +:+ "*1")
  = Ret (["SET"; "k"; CRLF +:+ "$-1" +:+ CRLF], "*1").
Proof.
  apply command_roundtrip. unfold args_ok.
  repeat split; [congruence|vm_compute; congruence|].
  repeat (constructor; [vm_compute; congruence|]). constructor.
Defined.

(** C24: [ReadCommand] terminates on every byte stream: the fuel of [ReadValue] is
    always enough, so it ends with a command, an error, or the panic of a length that
    cannot be allocated (see [huge_length_panics]). A successful read consumes at
    least one byte and returns a non-empty command, and it never depends on bytes
    after the command. *)
Theorem ReadCommand_terminates s :
  ReadCommand s <> OutOfFuel /\
  (forall args rest, ReadCommand s = Ret (args, rest) ->
     args <> [] /\ (String.length rest < String.length s)%nat /\
     forall t, ReadCommand (s +:+ t) = Ret (args, rest +:+ t)).
Proof.
  destruct (ReadCommand_total s) as [Hn Hc]. split; [done|]. intros args rest H.
  unfold consumes in Hc. rewrite H in Hc. split; [by eapply ReadCommand_nonempty|].
  split; [lia|]. intros t. pose proof (ReadCommand_local s t) as Hl. by rewrite H in Hl.
Qed.

(** a command cut off at any byte is never mistaken for a command: the read
    fails with one of the two end-of-file errors. *)
Theorem ReadCommand_torn args n :
  args_ok args -> (n < String.length (Serialize (command_resp args)))%nat ->
  exists e, ReadCommand (stake n (Serialize (command_resp args))) = Err e /\ eof_err e = true.
Proof. apply ReadCommand_prefix. Qed.

Lemma ReadCommand_torn_witness :
  exists e, ReadCommand (stake 7 (Serialize (command_resp ["GET"; "k"]))) = Err e /\
            eof_err e = true.
Proof.
  apply ReadCommand_torn; [|vm_compute; lia].
  repeat split; [congruence|vm_compute; congruence|].
  repeat (constructor; [vm_compute; congruence|]). constructor.
Defined.

(** a length prefix beyond the address space makes [readBulkString] and
    [readArray] call [make] with a length it refuses, which panics: a header of a
    few bytes is enough, whatever follows it. *)
Theorem huge_length_panics rest :
  ReadCommand ("*1" +:+ CRLF +:+ "$281474976710657" +:+ CRLF +:+ rest) = Panic /\
  ReadCommand ("*9223372036854775807" +:+ CRLF +:+ rest) = Panic.
Proof.
  assert (forall s, ReadCommand s = Panic -> ReadCommand (s +:+ rest) = Panic) as Hext.
  { intros s Hs. pose proof (ReadCommand_local s rest) as H. by rewrite Hs in H. }
  split.
  - apply (Hext ("*1" +:+ CRLF +:+ "$281474976710657" +:+ CRLF)). by vm_compute.
  - apply (Hext ("*9223372036854775807" +:+ CRLF)). by vm_compute.
Qed.
