(* ===== verification/Glob.v ===== *)
(** * Glob matching: [filepath.Match] on a Unix system

    KEYS, SCAN and PSUBSCRIBE match names with the Go function
    [path/filepath.Match]; its separator is the byte '/'.  The functions below
    follow its documented pattern language: '*' matches any sequence of
    non-separator bytes, '?' one non-separator rune, '[...]' a rune class with
    ranges and '^' negation, and a backslash escapes the next byte. *)

From S2P Require Import Prelude GoLib.

Open Scope go_scope.

Definition Separator : Ascii.ascii := "/"%char.

(** ** [utf8.DecodeRuneInString]: the first rune of a string and its width *)

Definition RuneError : Z := 65533.

Definition cont (c : Ascii.ascii) : bool := (128 <=? byte c) && (byte c <=? 191).

(** The range of second bytes that first byte [b] of a multi-byte rune accepts. *)
Definition second_ok (b : Z) (c : Ascii.ascii) : bool :=
  let lo := if b =? 224 then 160 else if b =? 240 then 144 else 128 in
  let hi := if b =? 237 then 159 else if b =? 244 then 143 else 191 in
  (lo <=? byte c) && (byte c <=? hi).

Definition DecodeRune (s : string) : Z * nat :=
  match s with
  | EmptyString => (RuneError, 0%nat)
  | String c0 s0 =>
      let b := byte c0 in
      if b <? 128 then (b, 1%nat)
      else match s0 with
      | EmptyString => (RuneError, 1%nat)
      | String c1 s1 =>
          if negb (second_ok b c1) then (RuneError, 1%nat)
          else if (194 <=? b) && (b <=? 223) then
            (Z.lor (Z.shiftl (Z.land b 31) 6) (Z.land (byte c1) 63), 2%nat)
          else match s1 with
          | EmptyString => (RuneError, 1%nat)
          | String c2 s2 =>
              if negb (cont c2) then (RuneError, 1%nat)
              else if (224 <=? b) && (b <=? 239) then
                (Z.lor (Z.shiftl (Z.land b 15) 12)
                   (Z.lor (Z.shiftl (Z.land (byte c1) 63) 6) (Z.land (byte c2) 63)), 3%nat)
              else match s2 with
              | EmptyString => (RuneError, 1%nat)
              | String c3 _ =>
                  if negb (cont c3) then (RuneError, 1%nat)
                  else if (240 <=? b) && (b <=? 244) then
                    (Z.lor (Z.shiftl (Z.land b 7) 18)
                       (Z.lor (Z.shiftl (Z.land (byte c1) 63) 12)
                          (Z.lor (Z.shiftl (Z.land (byte c2) 63) 6) (Z.land (byte c3) 63))), 4%nat)
                  else (RuneError, 1%nat)
              end
          end
      end
  end.

(** ** The matcher *)

(** The longest prefix of [p] with no '*' outside a class, and what follows it. *)
Fixpoint scanBody (inrange : bool) (p : string) : string * string :=
  match p with
  | EmptyString => (EmptyString, EmptyString)
  | String c p' =>
      if decide (c = "\"%char) then
        match p' with
        | EmptyString => (String c EmptyString, EmptyString)
        | String d p'' =>
            let '(chunk, rest) := scanBody inrange p'' in (String c (String d chunk), rest)
        end
      else if decide (c = "*"%char /\ inrange = false) then (EmptyString, p)
      else
        let inrange' :=
          if decide (c = "["%char) then true
          else if decide (c = "]"%char) then false else inrange in
        let '(chunk, rest) := scanBody inrange' p' in (String c chunk, rest)
  end.

Fixpoint stripStars (p : string) : bool * string :=
  match p with
  | String c p' => if decide (c = "*"%char) then (true, snd (stripStars p')) else (false, p)
  | EmptyString => (false, p)
  end.

(** [scanChunk]: (star, chunk, rest). *)
Definition scanChunk (pattern : string) : bool * string * string :=
  let '(star, p) := stripStars pattern in
  let '(chunk, rest) := scanBody false p in
  (star, chunk, rest).

(** [getEsc]: a possibly escaped rune of a class and the rest of the chunk, which
    is not empty; [None] is [ErrBadPattern]. *)
Definition getEsc (chunk : string) : option (Z * string) :=
  match chunk with
  | EmptyString => None
  | String c chunk' =>
      if decide (c = "-"%char \/ c = "]"%char) then None
      else
        let body := if decide (c = "\"%char) then chunk' else chunk in
        if is_empty body then None
        else
          let '(r, n) := DecodeRune body in
          let nchunk := sdrop n body in
          if decide (r = RuneError /\ n = 1%nat) then None
          else if is_empty nchunk then None
          else Some (r, nchunk)
  end.

(** The ranges of a class up to and past its ']': whether [r] is in one of them. *)
Fixpoint matchRanges (fuel : nat) (r : Z) (chunk : string) (matched : bool) (nrange : nat)
    : outcome unit (bool * string) :=
  match fuel with
  | O => OutOfFuel
  | S f =>
      match chunk with
      | String "]" chunk' =>
          if decide (nrange <> 0%nat) then Ret (matched, chunk') else Err tt
      | _ =>
          match getEsc chunk with
          | None => Err tt
          | Some (lo, chunk1) =>
              match chunk1 with
              | String "-" chunk2 =>
                  match getEsc chunk2 with
                  | None => Err tt
                  | Some (hi, chunk3) =>
                      matchRanges f r chunk3 (matched || ((lo <=? r) && (r <=? hi))) (S nrange)
                  end
              | _ => matchRanges f r chunk1 (matched || (lo =? r)) (S nrange)
              end
          end
      end
  end.

(** [matchChunk]: [Some rest] when a prefix of [s] matches the whole chunk. *)
Fixpoint matchChunk (fuel : nat) (failed : bool) (chunk s : string)
    : outcome unit (option string) :=
  match chunk with
  | EmptyString => Ret (if failed then None else Some s)
  | String c chunk' =>
      match fuel with
      | O => OutOfFuel
      | S f =>
          let failed := failed || is_empty s in
          if decide (c = "["%char) then
            let '(r, n) := if failed then (0, 0%nat) else DecodeRune s in
            let s := sdrop n s in
            let '(negated, chunk1) :=
              match chunk' with
              | String "^" chunk'' => (true, chunk'')
              | _ => (false, chunk')
              end in
            let! (matched, chunk2) := matchRanges (S (String.length chunk1)) r chunk1 false 0 in
            matchChunk f (failed || Bool.eqb matched negated) chunk2 s
          else if decide (c = "?"%char) then
            if failed then matchChunk f true chunk' s
            else
              let sep := match s with String d _ => bool_decide (d = Separator) | _ => false end in
              matchChunk f sep chunk' (sdrop (snd (DecodeRune s)) s)
          else if decide (c = "\"%char /\ chunk' = EmptyString) then Err tt
          else
            let '(lit, chunk1) :=
              match chunk' with
              | String d chunk'' => if decide (c = "\"%char) then (d, chunk'') else (c, chunk')
              | EmptyString => (c, chunk')
              end in
            if failed then matchChunk f true chunk1 s
            else match s with
            | String d s' => matchChunk f (negb (bool_decide (lit = d))) chunk1 s'
            | EmptyString => matchChunk f true chunk1 s
            end
      end
  end.

Definition runChunk (chunk s : string) : outcome unit (option string) :=
  matchChunk (String.length chunk) false chunk s.

(** The search after a '*': match [chunk] at every later byte before a separator. *)
Fixpoint starSearch (chunk pattern name : string) : outcome unit (option string) :=
  match name with
  | EmptyString => Ret None
  | String c name' =>
      if decide (c = Separator) then Ret None
      else
        let! res := runChunk chunk name' in
        match res with
        | Some t =>
            if is_empty pattern && negb (is_empty t) then starSearch chunk pattern name'
            else Ret (Some t)
        | None => starSearch chunk pattern name'
        end
  end.

(** The check that what is left of the pattern is well formed. *)
Fixpoint checkRest (fuel : nat) (pattern : string) : outcome unit bool :=
  if is_empty pattern then Ret false
  else match fuel with
  | O => OutOfFuel
  | S f =>
      let '(_, chunk, rest) := scanChunk pattern in
      let! _ := runChunk chunk EmptyString in checkRest f rest
  end.

Fixpoint matchLoop (fuel : nat) (pattern name : string) : outcome unit bool :=
  if is_empty pattern then Ret (is_empty name)
  else match fuel with
  | O => OutOfFuel
  | S f =>
      let '(star, chunk, rest) := scanChunk pattern in
      if star && is_empty chunk then Ret (negb (contains_byte Separator name))
      else
        let! res := runChunk chunk name in
        match res with
        | Some t =>
            if is_empty t || negb (is_empty rest) then matchLoop f rest t
            else if star then
              let! res' := starSearch chunk rest name in
              match res' with
              | Some t' => matchLoop f rest t'
              | None => checkRest f rest
              end
            else checkRest f rest
        | None =>
            if star then
              let! res' := starSearch chunk rest name in
              match res' with
              | Some t' => matchLoop f rest t'
              | None => checkRest f rest
              end
            else checkRest f rest
        end
  end.

(** [filepath.Match(pattern, name)]; [Err] is [ErrBadPattern]. *)
Definition Match (pattern name : string) : outcome unit bool :=
  matchLoop (String.length pattern) pattern name.

(** [if matched, _ := filepath.Match(pattern, name); matched] *)
Definition matches (pattern name : string) : bool :=
  match Match pattern name with Ret b => b | _ => false end.

(** ** Examples *)

Example match_range : Match "h[a-c]llo" "hbllo" = Ret true. Proof. reflexivity. Qed.
Example match_neg : Match "h[^a-c]llo" "hbllo" = Ret false. Proof. reflexivity. Qed.
Example match_star_mid : Match "user:*:name" "user:42:name" = Ret true. Proof. reflexivity. Qed.
Example match_slash : Match "user*" "user/1" = Ret false. Proof. reflexivity. Qed.
Example match_bad : Match "a[" "b" = Err tt. Proof. reflexivity. Qed.
Example match_esc : Match "a\*c" "a*c" = Ret true. Proof. reflexivity. Qed.
Example match_stars : Match "*a*b*c" "xxaxxbcbbc" = Ret true. Proof. reflexivity. Qed.

(** ** Facts *)

(** A byte with no meaning in a pattern. *)
Definition plain (c : Ascii.ascii) : bool :=
  negb (bool_decide (c ∈ ["*"%char; "?"%char; "["%char; "\"%char])).

Lemma plain_neq c d :
  plain c = true -> d ∈ ["*"%char; "?"%char; "["%char; "\"%char] -> c <> d.
Proof.
  unfold plain. intros H Hd ->. apply negb_true_iff, bool_decide_eq_false in H. done.
Qed.

Lemma scanBody_plain p b :
  all_bytes plain p = true -> scanBody b p = (p, EmptyString).
Proof.
  revert b; induction p as [|c p IH]; intros b H; [done|]. simpl in H.
  apply andb_true_iff in H as [Hc Hp]. simpl.
  rewrite decide_False by (apply (plain_neq _ _ Hc); set_solver).
  rewrite decide_False
    by (intros [? _]; apply (plain_neq _ "*"%char Hc); [set_solver|done]).
  by rewrite IH.
Qed.

Lemma matchChunk_plain p fuel failed s :
  all_bytes plain p = true -> (String.length p <= fuel)%nat ->
  exists r, matchChunk fuel failed p s = Ret r /\
    (r = if failed then None
         else if decide (stake (String.length p) s = p)
         then Some (sdrop (String.length p) s) else None).
Proof.
  revert fuel failed s; induction p as [|c p IH]; intros fuel failed s H Hf.
  - destruct fuel; simpl; eexists; (split; [done|]); destruct failed; simpl;
      destruct s; rewrite ?decide_True; done.
  - destruct fuel as [|fuel]; [simpl in Hf; lia|]. simpl in H, Hf.
    apply andb_true_iff in H as [Hc Hp]. cbn [matchChunk].
    rewrite decide_False by (apply (plain_neq _ _ Hc); set_solver).
    rewrite decide_False by (apply (plain_neq _ _ Hc); set_solver).
    rewrite decide_False
      by (intros [? _]; apply (plain_neq _ "\"%char Hc); [set_solver|done]).
    assert (match p with
            | String d p'' => if decide (c = "\"%char) then (d, p'') else (c, p)
            | EmptyString => (c, p) end = (c, p)) as ->.
    { destruct p; [done|]. rewrite decide_False; [done|].
      apply (plain_neq _ _ Hc); set_solver. }
    cbv beta iota.
    destruct failed; [cbn [orb]; apply (IH fuel true s); [done|lia]|].
    destruct s as [|d s].
    + cbn [orb is_empty]. destruct (IH fuel true EmptyString) as (r & Hr & ->); [done|lia|].
      eexists; split; [exact Hr|]. by case_decide.
    + cbn [orb is_empty]. destruct (bool_decide (c = d)) eqn:Hcd; cbn [negb].
      * apply bool_decide_eq_true in Hcd as ->.
        destruct (IH fuel false s) as (r & Hr & ->); [done|lia|].
        eexists; split; [exact Hr|]. simpl. repeat case_decide; congruence.
      * apply bool_decide_eq_false in Hcd.
        destruct (IH fuel true s) as (r & Hr & ->); [done|lia|].
        eexists; split; [exact Hr|]. simpl. rewrite decide_False by congruence. done.
Qed.

Lemma stake_sdrop_empty n p s :
  stake n s = p -> is_empty (sdrop n s) = bool_decide (s = p).
Proof.
  intros <-. destruct (sdrop n s) as [|c t] eqn:Hd; simpl; symmetry.
  - apply bool_decide_eq_true. by rewrite <- (stake_sdrop n s) at 1; rewrite Hd, sapp_nil_r.
  - apply bool_decide_eq_false. intros E. pose proof (stake_sdrop n s) as Hs.
    rewrite Hd, <- E in Hs. apply (f_equal String.length) in Hs.
    rewrite slength_app in Hs. simpl in Hs. lia.
Qed.

(** A pattern without special bytes matches exactly itself. *)
Lemma Match_plain p s : all_bytes plain p = true -> Match p s = Ret (bool_decide (s = p)).
Proof.
  intros Hp. unfold Match. destruct p as [|c p].
  - simpl. by destruct s.
  - assert (plain c = true) as Hc by (simpl in Hp; by apply andb_true_iff in Hp as [? _]).
    cbn [String.length matchLoop is_empty].
    assert (scanChunk (String c p) = (false, String c p, EmptyString)) as ->.
    { unfold scanChunk. cbn [stripStars].
      rewrite decide_False by (apply (plain_neq _ _ Hc); set_solver).
      by rewrite scanBody_plain. }
    cbn [andb]. unfold runChunk.
    destruct (matchChunk_plain (String c p) (String.length (String c p)) false s)
      as (r & -> & ->); [done|done|]. cbn [obind].
    case_decide as Hs.
    + rewrite <- (stake_sdrop_empty _ _ _ Hs).
      destruct (sdrop (String.length (String c p)) s); cbn [is_empty orb negb];
        by destruct (String.length p).
    + rewrite bool_decide_false; [by destruct (String.length p)|].
      intros ->. apply Hs. rewrite <- (sapp_nil_r (String c p)) at 2. apply stake_app.
Qed.

(** The pattern "*" matches exactly the names without a separator. *)
Lemma Match_star s : Match "*" s = Ret (negb (contains_byte Separator s)).
Proof. reflexivity. Qed.

(** ** The matcher terminates on every pattern *)

Lemma scanBody_length b p chunk rest :
  scanBody b p = (chunk, rest) ->
  (String.length chunk + String.length rest = String.length p)%nat.
Proof.
  revert b chunk rest; induction p as [p IH] using (induction_ltof1 _ String.length).
  unfold ltof in IH. intros b chunk rest H. destruct p as [|c p]; [by simplify_eq/=|].
  cbn [scanBody] in H. case_decide.
  - destruct p as [|d p]; [by simplify_eq/=|].
    destruct (scanBody b p) as [ch r] eqn:E. simplify_eq.
    apply IH in E; simpl in *; lia.
  - case_decide; [by simplify_eq/=|].
    match type of H with (let '(_, _) := scanBody ?b' p in _) = _ =>
      destruct (scanBody b' p) as [ch r] eqn:E end.
    simplify_eq. apply IH in E; simpl in *; lia.
Qed.

Lemma stripStars_length p :
  (String.length (snd (stripStars p)) <= String.length p)%nat /\
  (fst (stripStars p) = true -> (String.length (snd (stripStars p)) < String.length p)%nat) /\
  (fst (stripStars p) = false -> snd (stripStars p) = p).
Proof.
  induction p as [|c p IH]; simpl; [by repeat split; try lia|].
  case_decide; simpl; [|by repeat split; try lia].
  destruct IH as (? & _ & _). repeat split; lia || done.
Qed.

Lemma stripStars_head p c s :
  snd (stripStars p) = String c s -> fst (stripStars p) = false -> c <> "*"%char.
Proof.
  destruct p as [|d p]; simpl; [done|]. case_decide; simpl; [done|]. by intros [= <- _] _.
Qed.

Lemma scanChunk_length p star chunk rest :
  is_empty p = false -> scanChunk p = (star, chunk, rest) ->
  (String.length rest < String.length p)%nat.
Proof.
  intros Hp. unfold scanChunk.
  destruct (stripStars_length p) as (Hle & Htrue & Hfalse).
  pose proof (stripStars_head p) as Hhead.
  destruct (stripStars p) as [st p']. simpl in *.
  destruct (scanBody false p') as [ch r] eqn:E. intros [= <- <- <-].
  pose proof (scanBody_length _ _ _ _ E) as Hl.
  destruct st; [specialize (Htrue eq_refl); lia|]. rewrite Hfalse in * by done.
  destruct p as [|c p]; [done|]. specialize (Hhead c p eq_refl eq_refl).
  cbn [scanBody] in E. enough (1 <= String.length ch)%nat by lia. case_decide.
  - destruct p as [|d p]; [by simplify_eq/=|].
    destruct (scanBody false p). simplify_eq/=. lia.
  - rewrite decide_False in E by (by intros [? _]).
    match type of E with (let '(_, _) := ?x in _) = _ => destruct x end. simplify_eq/=. lia.
Qed.

Lemma DecodeRune_width s : is_empty s = false -> (1 <= snd (DecodeRune s))%nat.
Proof. destruct s as [|c s]; [done|]. intros _. unfold DecodeRune. repeat split_match; simpl; lia. Qed.

Lemma getEsc_length chunk r rest :
  getEsc chunk = Some (r, rest) -> (String.length rest < String.length chunk)%nat.
Proof.
  destruct chunk as [|c chunk]; [done|]. cbn [getEsc]. case_decide; [done|].
  set (body := if decide (c = "\"%char) then chunk else String c chunk).
  assert (String.length body <= String.length (String c chunk))%nat
    by (unfold body; case_decide; simpl; lia).
  destruct (is_empty body) eqn:Hb; [done|].
  pose proof (DecodeRune_width body Hb). destruct (DecodeRune body) as [r' n]. simpl in *.
  case_decide; [done|]. destruct (is_empty (sdrop n body)); [done|]. intros [= <- <-].
  rewrite slength_sdrop. destruct body; simpl in *; [done|lia].
Qed.

Definition ranges_ok (n : nat) (o : outcome unit (bool * string)) : Prop :=
  match o with
  | Ret (_, rest) => (String.length rest < n)%nat
  | Err _ => True
  | _ => False
  end.

Lemma matchRanges_total fuel r chunk m n :
  (String.length chunk < fuel)%nat ->
  ranges_ok (S (String.length chunk)) (matchRanges fuel r chunk m n).
Proof.
  revert chunk m n; induction fuel as [|f IH]; intros chunk m n Hf; [lia|].
  assert (forall m' n' c', (String.length c' < String.length chunk)%nat ->
    ranges_ok (S (String.length chunk)) (matchRanges f r c' m' n')) as IH'.
  { intros m' n' c' Hc. specialize (IH c' m' n' ltac:(lia)). unfold ranges_ok in *.
    destruct (matchRanges f r c' m' n') as [[? rest]|e| |]; try done. lia. }
  assert (ranges_ok (S (String.length chunk))
    match getEsc chunk with
    | None => Err tt
    | Some (lo, chunk1) =>
        match chunk1 with
        | String "-" chunk2 =>
            match getEsc chunk2 with
            | None => Err tt
            | Some (hi, chunk3) =>
                matchRanges f r chunk3 (m || ((lo <=? r) && (r <=? hi))) (S n)
            end
        | _ => matchRanges f r chunk1 (m || (lo =? r)) (S n)
        end
    end) as Hbody.
  { destruct (getEsc chunk) as [[lo chunk1]|] eqn:E; [|done].
    apply getEsc_length in E.
    repeat match goal with
    | |- context [match getEsc ?c with _ => _ end] =>
        let E := fresh in destruct (getEsc c) as [[? ?]|] eqn:E;
        [apply getEsc_length in E; simpl in *; apply IH'; lia|done]
    | |- context [match ?c with EmptyString => _ | String _ _ => _ end] => destruct c
    | |- context [match ?c with Ascii.Ascii _ _ _ _ _ _ _ _ => _ end] => destruct c
    | |- context [if ?b then _ else _] => is_var b; destruct b
    | |- _ => apply IH'; simpl in *; lia
    end. }
  cbn [matchRanges]. destruct chunk as [|c chunk]; [done|].
  destruct (decide (c = "]"%char)) as [->|Hc].
  - case_decide; simpl; [lia|done].
  - destruct c as [b0 b1 b2 b3 b4 b5 b6 b7].
    destruct b0, b1, b2, b3, b4, b5, b6, b7; try exact Hbody. by destruct Hc.
Qed.

Lemma matchChunk_total fuel failed chunk s :
  (String.length chunk <= fuel)%nat ->
  exists o, matchChunk fuel failed chunk s = Ret o \/ matchChunk fuel failed chunk s = Err tt.
Proof.
  revert failed chunk s; induction fuel as [|f IH]; intros failed chunk s Hf.
  - destruct chunk; [eexists; by left|simpl in Hf; lia].
  - destruct chunk as [|c chunk]; [eexists; by left|]. simpl in Hf. cbn [matchChunk].
    case_decide.
    + destruct (if failed || is_empty s then (0, 0%nat) else DecodeRune s) as [r n].
      set (p := match chunk with String "^" chunk'' => (true, chunk'') | _ => (false, chunk) end).
      assert (String.length (snd p) <= String.length chunk)%nat as Hp.
      { unfold p. destruct chunk as [|d chunk]; [done|].
        destruct d as [b0 b1 b2 b3 b4 b5 b6 b7].
        destruct b0, b1, b2, b3, b4, b5, b6, b7; simpl; lia. }
      destruct p as [neg chunk1]. simpl in Hp.
      pose proof (matchRanges_total (S (String.length chunk1)) r chunk1 false 0 ltac:(lia)) as Hr.
      unfold ranges_ok in Hr.
      destruct (matchRanges _ r chunk1 false 0) as [[m chunk2]|[]| |]; cbn [obind]; try done.
      * apply IH. lia.
      * exists None. by right.
    + case_decide; [destruct (failed || is_empty s); apply IH; lia|].
      case_decide as Hbs; [exists None; by right|].
      assert (forall d chunk'', chunk = String d chunk'' ->
                (String.length chunk'' <= f)%nat) as Hd by (intros ?? ->; simpl in Hf; lia).
      destruct chunk as [|d chunk''].
      * destruct (failed || is_empty s); [apply IH; simpl; lia|].
        destruct s; apply IH; simpl; lia.
      * specialize (Hd d chunk'' eq_refl). simpl in Hf.
        case_decide; (destruct (failed || is_empty s); [apply IH; simpl; lia|];
          destruct s; apply IH; simpl; lia).
Qed.

Lemma runChunk_total chunk s :
  exists o, runChunk chunk s = Ret o \/ runChunk chunk s = Err tt.
Proof. by apply matchChunk_total. Qed.

Lemma starSearch_total chunk pattern name :
  exists o, starSearch chunk pattern name = Ret o \/ starSearch chunk pattern name = Err tt.
Proof.
  induction name as [|c name IH]; simpl; [eexists; by left|].
  case_decide; [eexists; by left|].
  destruct (runChunk_total chunk name) as (o & [->| ->]); cbn [obind]; [|exists None; by right].
  destruct o; [|exact IH]. destruct (_ && _); [exact IH|]. eexists; by left.
Qed.

Lemma checkRest_total fuel p :
  (String.length p <= fuel)%nat -> checkRest fuel p = Ret false \/ checkRest fuel p = Err tt.
Proof.
  revert p; induction fuel as [|f IH]; intros p Hf.
  - destruct p; [by left|simpl in Hf; lia].
  - cbn [checkRest]. destruct (is_empty p) eqn:Hp; [by left|].
    destruct (scanChunk p) as [[star chunk] rest] eqn:E.
    apply scanChunk_length in E; [|done].
    destruct (runChunk_total chunk EmptyString) as (o & [->| ->]); cbn [obind]; [|by right].
    apply IH. lia.
Qed.

Lemma matchLoop_total fuel p name :
  (String.length p <= fuel)%nat ->
  exists b, matchLoop fuel p name = Ret b \/ matchLoop fuel p name = Err tt.
Proof.
  revert p name; induction fuel as [|f IH]; intros p name Hf.
  - destruct p; [eexists; by left|simpl in Hf; lia].
  - cbn [matchLoop]. destruct (is_empty p) eqn:Hp; [eexists; by left|].
    destruct (scanChunk p) as [[star chunk] rest] eqn:E.
    apply scanChunk_length in E; [|done].
    assert (exists b, checkRest f rest = Ret b \/ checkRest f rest = Err tt) as Hcheck
      by (exists false; apply checkRest_total; lia).
    assert (exists b, (let! res' := starSearch chunk rest name in
       match res' with Some t' => matchLoop f rest t' | None => checkRest f rest end) = Ret b \/
       (let! res' := starSearch chunk rest name in
       match res' with Some t' => matchLoop f rest t' | None => checkRest f rest end) = Err tt)
      as Hstar.
    { destruct (starSearch_total chunk rest name) as (o & [->| ->]); cbn [obind];
        [|exists false; by right]. destruct o; [apply IH; lia|exact Hcheck]. }
    destruct (star && is_empty chunk); [eexists; by left|].
    destruct (runChunk_total chunk name) as (o & [->| ->]); cbn [obind];
      [|exists false; by right].
    destruct o as [t|]; [destruct (is_empty t || negb (is_empty rest)); [apply IH; lia|]|];
      destruct star; done.
Qed.

(** [Match] decides every pattern and name: it returns a boolean or reports a bad
    pattern. *)
Lemma Match_total p name : exists b, Match p name = Ret b \/ Match p name = Err tt.
Proof. by apply matchLoop_total. Qed.
