(* ===== verification/Store.v ===== *)
(** * The in-memory store: state, strings, expiry, rename (internal/storage)

    [MemoryStore] with the operations of memory.go that concern whole keys and
    string values.  Each method runs under the store's lock, so it is one atomic
    function on the state; a method that reads the clock takes the reading [now]
    as an argument.  Go ranges over a map in an unspecified order: the lists
    below are in the order of [map_to_list], and theorems about them are stated
    up to permutation. *)

From S2P Require Import Prelude GoLib Floats Glob.

(** ** Results of methods that return a Go [error] *)

Inductive goerr : Type :=
| ErrWrongType
| ErrNoSuchKey
| ErrIndexOutOfRange.

(** [err.Error()] *)
Definition errText (e : goerr) : string :=
  match e with
  | ErrWrongType => "WRONGTYPE Operation against a key holding the wrong kind of value"
  | ErrNoSuchKey => "ERR no such key"
  | ErrIndexOutOfRange => "ERR index out of range"
  end.

Inductive result (A : Type) : Type :=
| Ok (a : A)
| Fail (e : goerr).
Arguments Ok {A} a.
Arguments Fail {A} e.

(** Code that can panic but returns no error of the outcome itself. *)
Abbreviation may_panic A := (outcome Empty_set A) (only parsing).

(** ** State *)

Record strEntry : Type := mkStrEntry {
  value : string;
  expiresAt : Time
}.

Record zset : Type := mkZset {
  scores : gmap string float64
}.

Record MemoryStore : Type := mkStore {
  strings : gmap string strEntry;
  hashes : gmap string (gmap string string);
  lists : gmap string (list string);
  sets : gmap string (gset string);
  zsets : gmap string zset;
  keyExpiry : gmap string Time;
  keyVersion : gmap string Z
}.

Definition NewMemoryStore : MemoryStore := mkStore ∅ ∅ ∅ ∅ ∅ ∅ ∅.

(** Assignments to the fields. *)
Definition set_strings m s :=
  mkStore m (hashes s) (lists s) (sets s) (zsets s) (keyExpiry s) (keyVersion s).
Definition set_hashes m s :=
  mkStore (strings s) m (lists s) (sets s) (zsets s) (keyExpiry s) (keyVersion s).
Definition set_lists m s :=
  mkStore (strings s) (hashes s) m (sets s) (zsets s) (keyExpiry s) (keyVersion s).
Definition set_sets m s :=
  mkStore (strings s) (hashes s) (lists s) m (zsets s) (keyExpiry s) (keyVersion s).
Definition set_zsets m s :=
  mkStore (strings s) (hashes s) (lists s) (sets s) m (keyExpiry s) (keyVersion s).
Definition set_keyExpiry m s :=
  mkStore (strings s) (hashes s) (lists s) (sets s) (zsets s) m (keyVersion s).
Definition set_keyVersion m s :=
  mkStore (strings s) (hashes s) (lists s) (sets s) (zsets s) (keyExpiry s) m.

(** ** Helpers *)

Definition expired (now t : Time) : bool := negb (IsZero t) && After now t.

Definition keyExpiredNonStr (now : Time) (key : string) (s : MemoryStore) : bool :=
  match keyExpiry s !! key with
  | Some exp => expired now exp
  | None => false
  end.

Definition Version (key : string) (s : MemoryStore) : Z := default 0 (keyVersion s !! key).

Definition bumpVersion (key : string) (s : MemoryStore) : MemoryStore :=
  set_keyVersion (<[key := wrapU64 (Version key s + 1)]> (keyVersion s)) s.

Definition deleteKey (key : string) (s : MemoryStore) : MemoryStore :=
  mkStore (delete key (strings s)) (delete key (hashes s)) (delete key (lists s))
    (delete key (sets s)) (delete key (zsets s)) (delete key (keyExpiry s)) (keyVersion s).

(** The tags of [typeOf]; [TNone] is the empty string. *)
Inductive keyType : Type := TNone | TString | THash | TList | TSet | TZset.

#[export] Instance keyType_eq_dec : EqDecision keyType.
Proof. solve_decision. Defined.

Definition typeOf (now : Time) (key : string) (s : MemoryStore) : keyType :=
  let stringLive :=
    match strings s !! key with
    | Some e => negb (expired now (expiresAt e))
    | None => false
    end in
  let live := negb (keyExpiredNonStr now key s) in
  if stringLive then TString
  else if bool_decide (is_Some (hashes s !! key)) && live then THash
  else if bool_decide (is_Some (lists s !! key)) && live then TList
  else if bool_decide (is_Some (sets s !! key)) && live then TSet
  else if bool_decide (is_Some (zsets s !! key)) && live then TZset
  else TNone.

Definition typeName (t : keyType) : string :=
  match t with
  | TNone => "none"
  | TString => "string"
  | THash => "hash"
  | TList => "list"
  | TSet => "set"
  | TZset => "zset"
  end.

Definition Type_ (now : Time) (key : string) (s : MemoryStore) : string :=
  typeName (typeOf now key s).

(** The keys a sweep at [now] removes from the string map and from [keyExpiry]. *)
Definition deadStrings (now : Time) (s : MemoryStore) : list string :=
  fst <$> filter (fun kv : string * strEntry => expired now (expiresAt (snd kv)))
            (map_to_list (strings s)).
Definition deadOthers (now : Time) (s : MemoryStore) : list string :=
  fst <$> filter (fun kv : string * Time => After now (snd kv)) (map_to_list (keyExpiry s)).

Definition delete_all {A} (ks : list string) (m : gmap string A) : gmap string A :=
  foldr delete m ks.

Definition deleteExpired (now : Time) (s : MemoryStore) : MemoryStore :=
  let ds := deadStrings now s in
  let dk := deadOthers now s in
  mkStore (delete_all ds (strings s)) (delete_all dk (hashes s)) (delete_all dk (lists s))
    (delete_all dk (sets s)) (delete_all dk (zsets s)) (delete_all dk (keyExpiry s))
    (delete_all dk (delete_all ds (keyVersion s))).

(** ** String operations *)

Definition Set_ (key val : string) (s : MemoryStore) : MemoryStore :=
  let s := deleteKey key s in
  let s := set_strings (<[key := mkStrEntry val zeroTime]> (strings s)) s in
  bumpVersion key s.

Definition SetWithTTL (now : Time) (key val : string) (ttl : Duration) (s : MemoryStore)
    : MemoryStore :=
  let s := deleteKey key s in
  let s := set_strings (<[key := mkStrEntry val (TimeAdd now ttl)]> (strings s)) s in
  bumpVersion key s.

Record SetAdvOpts : Type := mkSetAdvOpts {
  KeepTTL : bool;
  NX : bool;
  XX : bool;
  GetOpt : bool
}.

(** The string entry of a key that is present and not expired. *)
Definition liveString (now : Time) (key : string) (s : MemoryStore) : option strEntry :=
  match strings s !! key with
  | Some e => if expired now (expiresAt e) then None else Some e
  | None => None
  end.

(** Returns (oldVal, oldExists, wasSet). *)
Definition SetAdv (now : Time) (key val : string) (ttl : Duration) (opts : SetAdvOpts)
    (s : MemoryStore) : (string * bool * bool) * MemoryStore :=
  let '(oldVal, oldExists) :=
    match liveString now key s with
    | Some e => (value e, true)
    | None => (EmptyString, false)
    end in
  if NX opts && oldExists then ((oldVal, oldExists, false), s)
  else if XX opts && negb oldExists then ((oldVal, oldExists, false), s)
  else
    let newExpiry :=
      if KeepTTL opts then
        match strings s !! key with Some e => expiresAt e | None => zeroTime end
      else if 0 <? ttl then TimeAdd now ttl else zeroTime in
    let s := deleteKey key s in
    let s := set_strings (<[key := mkStrEntry val newExpiry]> (strings s)) s in
    ((oldVal, oldExists, true), bumpVersion key s).

Definition GetEx (now : Time) (key : string) (ttl : Duration) (persist hasTTL : bool)
    (s : MemoryStore) : option string * MemoryStore :=
  match liveString now key s with
  | None => (None, s)
  | Some e =>
      if persist then
        (Some (value e), set_strings (<[key := mkStrEntry (value e) zeroTime]> (strings s)) s)
      else if hasTTL then
        (Some (value e),
         set_strings (<[key := mkStrEntry (value e) (TimeAdd now ttl)]> (strings s)) s)
      else (Some (value e), s)
  end.

(** The value and [true], or [None] for ("", false). *)
Definition Get (now : Time) (key : string) (s : MemoryStore) : option string :=
  value <$> liveString now key s.

Fixpoint Del (now : Time) (keys : list string) (s : MemoryStore) : Z * MemoryStore :=
  match keys with
  | [] => (0, s)
  | k :: keys' =>
      if decide (typeOf now k s <> TNone) then
        let '(n, s') := Del now keys' (bumpVersion k (deleteKey k s)) in (n + 1, s')
      else Del now keys' s
  end.

Fixpoint Exists_ (now : Time) (keys : list string) (s : MemoryStore) : Z :=
  match keys with
  | [] => 0
  | k :: keys' =>
      (if decide (typeOf now k s <> TNone) then 1 else 0) + Exists_ now keys' s
  end.

(** The keys of the five maps that the clock reading does not hide. *)
Definition liveNonStr {A} (now : Time) (m : gmap string A) (s : MemoryStore) : list string :=
  filter (fun k => negb (keyExpiredNonStr now k s)) (fst <$> map_to_list m).

Definition Keys (now : Time) (pattern : string) (s : MemoryStore) : list string :=
  filter (fun k => matches pattern k)
    ((fst <$> filter (fun kv : string * strEntry => negb (expired now (expiresAt (snd kv))))
                (map_to_list (strings s)))
     ++ liveNonStr now (hashes s) s ++ liveNonStr now (lists s) s
     ++ liveNonStr now (sets s) s ++ liveNonStr now (zsets s) s).

(** [allKeys] and [Len] test [e.expiresAt.IsZero() || now.Before(e.expiresAt)]. *)
Definition beforeDeadline (now t : Time) : bool := IsZero t || Before now t.

(** The keys [allKeys] collects, before it sorts them. *)
Definition countedKeys (now : Time) (s : MemoryStore) : list string :=
  (fst <$> filter (fun kv : string * strEntry => beforeDeadline now (expiresAt (snd kv)))
             (map_to_list (strings s)))
  ++ liveNonStr now (hashes s) s ++ liveNonStr now (lists s) s
  ++ liveNonStr now (sets s) s ++ liveNonStr now (zsets s) s.

Definition Len (now : Time) (s : MemoryStore) : Z :=
  Z.of_nat (length (filter (fun kv : string * strEntry => beforeDeadline now (expiresAt (snd kv)))
                      (map_to_list (strings s))))
  + Z.of_nat (length (liveNonStr now (hashes s) s))
  + Z.of_nat (length (liveNonStr now (lists s) s))
  + Z.of_nat (length (liveNonStr now (sets s) s))
  + Z.of_nat (length (liveNonStr now (zsets s) s)).

Definition Flush (s : MemoryStore) : MemoryStore := mkStore ∅ ∅ ∅ ∅ ∅ ∅ ∅.

(** ** Expiry operations *)

Definition is_aggregate (t : keyType) : bool :=
  match t with THash | TList | TSet | TZset => true | _ => false end.

Definition Expire (now : Time) (key : string) (ttl : Duration) (s : MemoryStore)
    : bool * MemoryStore :=
  match liveString now key s with
  | Some e =>
      (true, set_strings (<[key := mkStrEntry (value e) (TimeAdd now ttl)]> (strings s)) s)
  | None =>
      if is_aggregate (typeOf now key s) then
        (true, set_keyExpiry (<[key := TimeAdd now ttl]> (keyExpiry s)) s)
      else (false, s)
  end.

Definition TTL (now : Time) (key : string) (s : MemoryStore) : Duration :=
  match strings s !! key with
  | Some e =>
      if expired now (expiresAt e) then -2 * Second
      else if IsZero (expiresAt e) then -1 * Second
      else Until now (expiresAt e)
  | None =>
      if decide (typeOf now key s = TNone) then -2 * Second
      else match keyExpiry s !! key with
      | None => -1 * Second
      | Some exp => if expired now exp then -2 * Second else Until now exp
      end
  end.

Definition Persist (now : Time) (key : string) (s : MemoryStore) : bool * MemoryStore :=
  let strCase :=
    match liveString now key s with
    | Some e => if IsZero (expiresAt e) then None else Some e
    | None => None
    end in
  match strCase with
  | Some e =>
      (true, set_strings (<[key := mkStrEntry (value e) zeroTime]> (strings s)) s)
  | None =>
      if is_aggregate (typeOf now key s) then
        match keyExpiry s !! key with
        | Some _ => (true, set_keyExpiry (delete key (keyExpiry s)) s)
        | None => (false, s)
        end
      else (false, s)
  end.

(** ** Atomic rename *)

(** The move of the value after [dst] was cleared.  [m[k]] of a Go map gives the
    zero value when [k] is absent, which happens here only if [src = dst]; the
    nil [*zset] it gives for a sorted set is dereferenced, which panics. *)
Definition renameValue (srcType : keyType) (src dst : string) (s : MemoryStore)
    : may_panic MemoryStore :=
  match srcType with
  | TString =>
      let e := default (mkStrEntry EmptyString zeroTime) (strings s !! src) in
      Ret (set_strings (delete src (<[dst := e]> (strings s))) s)
  | THash =>
      let h := default ∅ (hashes s !! src) in
      Ret (set_hashes (delete src (<[dst := h]> (hashes s))) s)
  | TList =>
      let l := default [] (lists s !! src) in
      Ret (set_lists (delete src (<[dst := l]> (lists s))) s)
  | TSet =>
      let st := default ∅ (sets s !! src) in
      Ret (set_sets (delete src (<[dst := st]> (sets s))) s)
  | TZset =>
      match zsets s !! src with
      | None => Panic
      | Some z => Ret (set_zsets (delete src (<[dst := z]> (zsets s))) s)
      end
  | TNone => Ret s
  end.

Definition renameExpiry (src dst : string) (s : MemoryStore) : MemoryStore :=
  match keyExpiry s !! src with
  | Some exp => set_keyExpiry (delete src (<[dst := exp]> (keyExpiry s))) s
  | None => set_keyExpiry (delete dst (keyExpiry s)) s
  end.

Definition Rename (now : Time) (src dst : string) (s : MemoryStore)
    : may_panic (bool * MemoryStore) :=
  let srcType := typeOf now src s in
  if decide (srcType = TNone) then Ret (false, s)
  else
    obind (renameValue srcType src dst (deleteKey dst s)) (fun s =>
    let s := renameExpiry src dst s in
    Ret (true, bumpVersion src (bumpVersion dst s))).
