(* ===== verification/Keyspace.v ===== *)
(** * The keyspace a client sees, and how the key operations of the store change it

    [view t s k] is what a client can observe of key [k] at time [t]: its value
    and its deadline, or nothing when the key is absent or expired.  Everything
    the store knows about one key is its [cell]; the lemmas compute the cell of
    every key after every operation, and the properties follow from them. *)

From S2P Require Import Prelude GoLib Floats Glob Store.

(** ** Specification *)

Inductive Val : Type :=
| VString (v : string)
| VHash (h : gmap string string)
| VList (l : list string)
| VSet (st : gset string)
| VZset (z : gmap string float64).

(** A visible key: its value and its deadline, if it has one. *)
Definition entry : Type := Val * option Time.
Definition keyspace : Type := string -> option entry.

(** What the store's maps hold under one key. *)
Record cell : Type := mkCell {
  cStr : option strEntry;
  cHash : option (gmap string string);
  cList : option (list string);
  cSet : option (gset string);
  cZset : option zset;
  cExp : option Time
}.

Definition emptyCell : cell := mkCell None None None None None None.

Definition cell_of (s : MemoryStore) (k : string) : cell :=
  mkCell (strings s !! k) (hashes s !! k) (lists s !! k) (sets s !! k) (zsets s !! k)
    (keyExpiry s !! k).

Definition deadline (t : Time) : option Time := if IsZero t then None else Some t.

Definition strView (t : Time) (c : cell) : option entry :=
  match cStr c with
  | Some e =>
      if expired t (expiresAt e) then None else Some (VString (value e), deadline (expiresAt e))
  | None => None
  end.

Definition aggVal (c : cell) : option Val :=
  match cHash c, cList c, cSet c, cZset c with
  | Some h, _, _, _ => Some (VHash h)
  | None, Some l, _, _ => Some (VList l)
  | None, None, Some st, _ => Some (VSet st)
  | None, None, None, Some z => Some (VZset (scores z))
  | None, None, None, None => None
  end.

Definition aggView (t : Time) (c : cell) : option entry :=
  let dead := match cExp c with Some exp => expired t exp | None => false end in
  if dead then None
  else match aggVal c with Some v => Some (v, cExp c) | None => None end.

Definition cellView (t : Time) (c : cell) : option entry :=
  match strView t c with Some e => Some e | None => aggView t c end.

Definition view (t : Time) (s : MemoryStore) : keyspace := fun k => cellView t (cell_of s k).

(** Abstract operations on keyspaces. *)
Definition ks_put (k : string) (e : option entry) (K : keyspace) : keyspace :=
  fun k' => if decide (k = k') then e else K k'.

(** An entry as it is seen at [t]: nothing once its deadline has passed. *)
Definition seen (t : Time) (e : entry) : option entry :=
  match snd e with
  | Some d => if d <? t then None else Some e
  | None => Some e
  end.

Definition valType (v : Val) : keyType :=
  match v with
  | VString _ => TString | VHash _ => THash | VList _ => TList
  | VSet _ => TSet | VZset _ => TZset
  end.

(** ** The invariant *)

(** The types whose maps physically hold the key. *)
Definition tag {A} (o : option A) (t : keyType) : list keyType :=
  match o with Some _ => [t] | None => [] end.

Definition holders (c : cell) : list keyType :=
  tag (cStr c) TString ++ tag (cHash c) THash ++ tag (cList c) TList ++
  tag (cSet c) TSet ++ tag (cZset c) TZset.

(** One type per key, TTLs in [keyExpiry] only beside an aggregate, no aggregate
    left behind empty, and no deadline that reads as "no deadline". *)
Record cell_wf (c : cell) : Prop := mkCellWf {
  wf_one_type : (length (holders c) <= 1)%nat;
  wf_expiry : forall d, cExp c = Some d -> aggVal c <> None /\ d <> zeroTime;
  wf_hash : cHash c <> Some ∅;
  wf_list : cList c <> Some [];
  wf_set : cSet c <> Some ∅
}.

Definition store_wf (s : MemoryStore) : Prop := forall k, cell_wf (cell_of s k).

(** A clock reading after 1970. *)
Definition clock_ok (now : Time) : Prop := 0 <= now.

(** ** Cells after each operation *)

Ltac cell_simpl :=
  unfold cell_of; cbn;
  rewrite ?lookup_insert, ?lookup_delete, ?lookup_empty.

(** Decide the key comparisons that map lookups leave behind. *)
Ltac cell_cases :=
  repeat case_decide; subst; try done; try congruence.

Lemma cell_bump k s k' : cell_of (bumpVersion k s) k' = cell_of s k'.
Proof. reflexivity. Qed.

Lemma cell_deleteKey k s k' :
  cell_of (deleteKey k s) k' = if decide (k = k') then emptyCell else cell_of s k'.
Proof. cell_simpl. by cell_cases. Qed.

Lemma cell_set_strings k e s k' :
  cell_of (set_strings (<[k := e]> (strings s)) s) k' =
    if decide (k = k') then
      mkCell (Some e) (hashes s !! k') (lists s !! k') (sets s !! k') (zsets s !! k')
        (keyExpiry s !! k')
    else cell_of s k'.
Proof. cell_simpl. by cell_cases. Qed.

Lemma cell_set_expiry k d s k' :
  cell_of (set_keyExpiry (<[k := d]> (keyExpiry s)) s) k' =
    if decide (k = k') then
      mkCell (strings s !! k') (hashes s !! k') (lists s !! k') (sets s !! k') (zsets s !! k')
        (Some d)
    else cell_of s k'.
Proof. cell_simpl. by cell_cases. Qed.

Lemma cell_unset_expiry k s k' :
  cell_of (set_keyExpiry (delete k (keyExpiry s)) s) k' =
    if decide (k = k') then
      mkCell (strings s !! k') (hashes s !! k') (lists s !! k') (sets s !! k') (zsets s !! k') None
    else cell_of s k'.
Proof. cell_simpl. by cell_cases. Qed.

Definition strCell (v : string) (t : Time) : cell :=
  mkCell (Some (mkStrEntry v t)) None None None None None.

Lemma cell_put_string k v t s k' :
  cell_of (bumpVersion k (set_strings (<[k := mkStrEntry v t]> (strings (deleteKey k s)))
             (deleteKey k s))) k' =
    if decide (k = k') then strCell v t else cell_of s k'.
Proof. cell_simpl. by cell_cases. Qed.

Lemma cell_Set k v s k' :
  cell_of (Set_ k v s) k' = if decide (k = k') then strCell v zeroTime else cell_of s k'.
Proof. apply cell_put_string. Qed.

Lemma cell_SetWithTTL now k v ttl s k' :
  cell_of (SetWithTTL now k v ttl s) k' =
    if decide (k = k') then strCell v (now + ttl) else cell_of s k'.
Proof. apply cell_put_string. Qed.

Lemma liveString_cell now k s :
  liveString now k s =
    match cStr (cell_of s k) with
    | Some e => if expired now (expiresAt e) then None else Some e
    | None => None
    end.
Proof. reflexivity. Qed.

(** ** Views *)

Lemma typeOf_view now k s :
  typeOf now k s = match view now s k with Some (v, _) => valType v | None => TNone end.
Proof.
  unfold typeOf, view, cellView, strView, aggView, aggVal, keyExpiredNonStr, cell_of. cbn.
  destruct (strings s !! k) as [e|]; cbn.
  - destruct (expired now (expiresAt e)); cbn; [|done].
    destruct (keyExpiry s !! k) as [d|]; [destruct (expired now d)|];
      destruct (hashes s !! k), (lists s !! k), (sets s !! k), (zsets s !! k); done.
  - destruct (keyExpiry s !! k) as [d|]; [destruct (expired now d)|];
      destruct (hashes s !! k), (lists s !! k), (sets s !! k), (zsets s !! k); done.
Qed.

Lemma typeOf_none_view now k s : typeOf now k s = TNone <-> view now s k = None.
Proof.
  rewrite typeOf_view. destruct (view now s k) as [[v d]|]; [|done]. by destruct v.
Qed.

Lemma Get_view now k s :
  Get now k s =
    match view now s k with Some (VString v, _) => Some v | _ => None end.
Proof.
  unfold Get. rewrite liveString_cell. unfold view, cellView, strView.
  set (c := cell_of s k). clearbody c. destruct (cStr c) as [e|]; cbn.
  - destruct (expired now (expiresAt e)); cbn; [|done].
    unfold aggView, aggVal. by repeat split_match; simplify_eq.
  - unfold aggView, aggVal. by repeat split_match; simplify_eq.
Qed.

Lemma deadline_zero : deadline zeroTime = None.
Proof. reflexivity. Qed.

Lemma expired_zero t : expired t zeroTime = false.
Proof. reflexivity. Qed.

Lemma cellView_strCell t v d :
  cellView t (strCell v d) = seen t (VString v, deadline d).
Proof.
  unfold cellView, strView, strCell, seen, expired, After, deadline, aggView. cbn.
  destruct (IsZero d); cbn; [done|]. by destruct (d <? t).
Qed.

Lemma cellView_empty t : cellView t emptyCell = None.
Proof. reflexivity. Qed.

Lemma view_put t k c s s' :
  (forall k', cell_of s' k' = if decide (k = k') then c else cell_of s k') ->
  forall k', view t s' k' = ks_put k (cellView t c) (view t s) k'.
Proof. intros H k'. unfold view, ks_put. rewrite H. by case_decide. Qed.

Lemma view_Set t k v s k' :
  view t (Set_ k v s) k' = ks_put k (Some (VString v, None)) (view t s) k'.
Proof. apply (view_put t k (strCell v zeroTime)), cell_Set. Qed.

Lemma view_SetWithTTL t now k v ttl s k' :
  view t (SetWithTTL now k v ttl s) k' =
    ks_put k (seen t (VString v, deadline (now + ttl))) (view t s) k'.
Proof.
  rewrite (view_put t k (strCell v (now + ttl)) s) by apply cell_SetWithTTL.
  unfold ks_put. by rewrite cellView_strCell.
Qed.

(** A deadline set by adding an [int64] duration to a current time is never the
    zero [Time]. *)
Lemma deadline_add now ttl :
  clock_ok now -> int64_ok ttl -> now + ttl <> zeroTime /\ deadline (now + ttl) = Some (now + ttl).
Proof.
  unfold clock_ok, int64_ok, minInt64, deadline, IsZero, zeroTime, unixToInternal, Second.
  intros H1 H2. assert (now + ttl <> - (62135596800) * 1000000000) by lia.
  split; [done|]. zfalse (now + ttl =? - (62135596800) * 1000000000). done.
Qed.

(** ** Key operations on the view *)

Lemma view_deleteKey t k s k' :
  view t (bumpVersion k (deleteKey k s)) k' = ks_put k None (view t s) k'.
Proof.
  unfold view, ks_put. rewrite cell_bump, cell_deleteKey.
  destruct (decide (k = k')); reflexivity.
Qed.

Lemma Del_cons now k keys s :
  Del now (k :: keys) s =
    if decide (typeOf now k s <> TNone) then
      (fst (Del now keys (bumpVersion k (deleteKey k s))) + 1,
       snd (Del now keys (bumpVersion k (deleteKey k s))))
    else Del now keys s.
Proof. cbn [Del]. case_decide; [|done]. by destruct (Del now keys _). Qed.

Lemma view_Del t now keys s k :
  view t (snd (Del now keys s)) k =
    if decide (k ∈ keys /\ view now s k <> None) then None else view t s k.
Proof.
  revert s; induction keys as [|k0 keys IH]; intros s.
  - cbn. rewrite decide_False; [done|]. by intros [?%elem_of_nil _].
  - rewrite Del_cons. destruct (decide (typeOf now k0 s <> TNone)) as [Ht|Ht]; rewrite typeOf_none_view in Ht; cbn [snd].
    + rewrite IH, !view_deleteKey. unfold ks_put.
      destruct (decide (k0 = k)) as [->|Hne].
      * rewrite (decide_False (P := _ /\ None <> None)) by tauto.
        rewrite decide_True; [done|]. split; [by left|done].
      * apply decide_ext. set_solver.
    + rewrite IH. apply dec_stable in Ht. apply decide_ext. rewrite elem_of_cons.
      split; [tauto|]. by intros [[->|?] ?].
Qed.

(** [Del] reports how many different keys of its arguments were visible. *)
Lemma Del_count now keys s :
  fst (Del now keys s) =
    Z.of_nat (size (filter (fun k => view now s k <> None) (list_to_set keys : gset string))).
Proof.
  revert s; induction keys as [|k0 keys IH]; intros s; [done|].
  rewrite Del_cons, list_to_set_cons.
  destruct (decide (typeOf now k0 s <> TNone)) as [Ht|Ht]; rewrite typeOf_none_view in Ht;
    cbn [fst].
  - rewrite IH.
    assert (filter (fun k => view now s k <> None) ({[k0]} ∪ list_to_set keys : gset string) =
      {[k0]} ∪ filter (fun k => view now (bumpVersion k0 (deleteKey k0 s)) k <> None)
                 (list_to_set keys)) as ->.
    { apply set_eq. intros k. rewrite !elem_of_filter, !elem_of_union, elem_of_filter,
        elem_of_singleton, view_deleteKey. unfold ks_put. case_decide; set_solver. }
    rewrite size_union, size_singleton; [lia|].
    intros k. rewrite elem_of_singleton, elem_of_filter, view_deleteKey. intros -> [Hk _].
    unfold ks_put in Hk. by rewrite decide_True in Hk.
  - apply dec_stable in Ht. rewrite IH. do 2 f_equal. apply set_eq. intros k.
    rewrite !elem_of_filter, elem_of_union, elem_of_singleton. set_solver.
Qed.

Lemma Exists_count now keys s :
  Exists_ now keys s = Z.of_nat (length (filter (fun k => view now s k <> None) keys)).
Proof.
  induction keys as [|k keys IH]; [done|]. cbn [Exists_]. rewrite IH, filter_cons.
  destruct (decide (typeOf now k s <> TNone)) as [Ht|Ht]; rewrite typeOf_none_view in Ht.
  - rewrite decide_True by done. cbn [length]. lia.
  - rewrite decide_False by done. lia.
Qed.

Lemma cell_SetAdv now k v ttl opts s k' :
  cell_of (snd (SetAdv now k v ttl opts s)) k' =
    if decide (k = k' /\ snd (fst (SetAdv now k v ttl opts s)) = true) then
      strCell v
        (if KeepTTL opts then
           match strings s !! k with Some e => expiresAt e | None => zeroTime end
         else if 0 <? ttl then now + ttl else zeroTime)
    else cell_of s k'.
Proof.
  unfold SetAdv. destruct (match liveString now k s with Some _ => _ | None => _ end) as [ov oe].
  destruct (NX opts && oe); [rewrite decide_False; naive_solver|].
  destruct (XX opts && negb oe); [rewrite decide_False; naive_solver|].
  cbn [fst snd]. rewrite cell_put_string.
  destruct (decide (k = k')) as [->|]; [by rewrite decide_True|].
  rewrite decide_False; naive_solver.
Qed.

(** What SetAdv reports: the old string value, whether there was one, and whether
    the NX / XX conditions let it write. *)
Lemma SetAdv_result now k v ttl opts s :
  fst (SetAdv now k v ttl opts s) =
    (default EmptyString (Get now k s), bool_decide (is_Some (Get now k s)),
     negb (NX opts && bool_decide (is_Some (Get now k s))) &&
     negb (XX opts && negb (bool_decide (is_Some (Get now k s))))).
Proof.
  unfold SetAdv, Get. destruct (liveString now k s) as [e|]; cbn.
  - destruct (NX opts); cbn; [done|]. by destruct (XX opts).
  - destruct (NX opts), (XX opts); done.
Qed.

Lemma cell_GetEx now k ttl p h s k' :
  cell_of (snd (GetEx now k ttl p h s)) k' =
    match liveString now k s with
    | Some e =>
        if decide (k = k' /\ (p || h) = true) then
          mkCell (Some (mkStrEntry (value e) (if p then zeroTime else now + ttl)))
            (hashes s !! k') (lists s !! k') (sets s !! k') (zsets s !! k') (keyExpiry s !! k')
        else cell_of s k'
    | None => cell_of s k'
    end.
Proof.
  unfold GetEx. destruct (liveString now k s) as [e|]; [|done].
  destruct p, h; cbn [orb snd]; rewrite ?cell_set_strings.
  all: destruct (decide (k = k')) as [->|]; repeat case_decide; naive_solver.
Qed.

Lemma cell_Expire now k ttl s k' :
  cell_of (snd (Expire now k ttl s)) k' =
    match liveString now k s with
    | Some e =>
        if decide (k = k') then
          mkCell (Some (mkStrEntry (value e) (now + ttl)))
            (hashes s !! k') (lists s !! k') (sets s !! k') (zsets s !! k') (keyExpiry s !! k')
        else cell_of s k'
    | None =>
        if decide (k = k' /\ is_aggregate (typeOf now k s) = true) then
          mkCell (strings s !! k') (hashes s !! k') (lists s !! k') (sets s !! k')
            (zsets s !! k') (Some (now + ttl))
        else cell_of s k'
    end.
Proof.
  unfold Expire. destruct (liveString now k s) as [e|]; [apply cell_set_strings|].
  destruct (is_aggregate (typeOf now k s)); cbn [snd].
  - rewrite cell_set_expiry. destruct (decide (k = k')) as [->|].
    + by rewrite decide_True.
    + rewrite decide_False; naive_solver.
  - rewrite decide_False; naive_solver.
Qed.

Lemma cell_Persist now k s k' :
  cell_of (snd (Persist now k s)) k' =
    if fst (Persist now k s) then
      if decide (k = k') then
        match liveString now k s with
        | Some e => mkCell (Some (mkStrEntry (value e) zeroTime))
            (hashes s !! k') (lists s !! k') (sets s !! k') (zsets s !! k') (keyExpiry s !! k')
        | None => mkCell (strings s !! k') (hashes s !! k') (lists s !! k') (sets s !! k')
            (zsets s !! k') None
        end
      else cell_of s k'
    else cell_of s k'.
Proof.
  unfold Persist. rewrite (typeOf_view now k s).
  destruct (liveString now k s) as [e|] eqn:Hl.
  - destruct (IsZero (expiresAt e)) eqn:Hz; cbn [fst snd]; [|apply cell_set_strings].
    assert (view now s k = Some (VString (value e), None)) as ->; [|done].
    unfold liveString in Hl. unfold view, cellView, strView. cbn.
    destruct (strings s !! k) as [e'|]; [|done].
    destruct (expired now (expiresAt e')); simplify_eq. unfold deadline. by rewrite Hz.
  - destruct (is_aggregate _); [|done]. destruct (keyExpiry s !! k); cbn [fst snd]; [|done].
    apply cell_unset_expiry.
Qed.

(** A key of some type is in the map of that type. *)
Lemma typeOf_present now k s :
  match typeOf now k s with
  | TNone => True
  | TString => is_Some (strings s !! k)
  | THash => is_Some (hashes s !! k)
  | TList => is_Some (lists s !! k)
  | TSet => is_Some (sets s !! k)
  | TZset => is_Some (zsets s !! k)
  end.
Proof.
  unfold typeOf. destruct (strings s !! k) as [e|] eqn:Hs; [destruct (expired now (expiresAt e))|];
    cbn [negb]; [|rewrite ?Hs; eauto|];
    (destruct (hashes s !! k) eqn:?, (lists s !! k) eqn:?, (sets s !! k) eqn:?,
      (zsets s !! k) eqn:?, (keyExpiredNonStr now k s); cbn; simplify_eq; eauto).
Qed.

Lemma cell_Rename now src dst s b s' k' :
  src <> dst -> Rename now src dst s = Ret (b, s') ->
  cell_of s' k' =
    match typeOf now src s with
    | TNone => cell_of s k'
    | ty =>
        if decide (k' = src) then
          mkCell (if decide (ty = TString) then None else strings s !! src)
            (if decide (ty = THash) then None else hashes s !! src)
            (if decide (ty = TList) then None else lists s !! src)
            (if decide (ty = TSet) then None else sets s !! src)
            (if decide (ty = TZset) then None else zsets s !! src) None
        else if decide (k' = dst) then
          mkCell (if decide (ty = TString) then strings s !! src else None)
            (if decide (ty = THash) then hashes s !! src else None)
            (if decide (ty = TList) then lists s !! src else None)
            (if decide (ty = TSet) then sets s !! src else None)
            (if decide (ty = TZset) then zsets s !! src else None) (keyExpiry s !! src)
        else cell_of s k'
    end.
Proof.
  intros Hne. unfold Rename. pose proof (typeOf_present now src s) as Hp.
  destruct (typeOf now src s) eqn:E; [by intros [= <- <-]|..];
    destruct Hp as [x Hx]; cbn [renameValue]; cbn;
    rewrite ?(lookup_delete_ne _ _ _ (not_eq_sym Hne)), ?Hx; cbn;
    intros [= <- <-]; unfold renameExpiry; cbn;
    rewrite ?(lookup_delete_ne _ _ _ (not_eq_sym Hne)).
  all: destruct (keyExpiry s !! src) eqn:Hx'; unfold cell_of; cbn;
    (destruct (decide (k' = src)) as [->|]; [|destruct (decide (k' = dst)) as [->|]]);
    simplify_map_eq; congruence.
Qed.

(** [Rename] of two different keys never panics, and fails only on an absent key. *)
Lemma Rename_ret now src dst s :
  src <> dst ->
  exists s', Rename now src dst s = Ret (bool_decide (view now s src <> None), s').
Proof.
  intros Hne. unfold Rename. pose proof (typeOf_present now src s) as Hp.
  destruct (decide (typeOf now src s = TNone)) as [Hn|Hn].
  - rewrite typeOf_none_view in Hn. rewrite bool_decide_false by tauto. eauto.
  - rewrite bool_decide_true by (by rewrite <- typeOf_none_view).
    destruct (typeOf now src s); try done; cbn; eauto.
    rewrite (lookup_delete_ne _ _ _ (not_eq_sym Hne)). destruct Hp as [z ->]. cbn. eauto.
Qed.

(** ** The background sweep *)

Lemma lookup_delete_all {A} ks (m : gmap string A) k :
  delete_all ks m !! k = if decide (k ∈ ks) then None else m !! k.
Proof.
  induction ks as [|k0 ks IH]; cbn [delete_all foldr].
  - rewrite decide_False; [done|]. by intros ?%elem_of_nil.
  - change (foldr delete m ks) with (delete_all ks m). rewrite lookup_delete, IH.
    repeat case_decide; set_solver.
Qed.

Lemma elem_deadStrings now s k :
  k ∈ deadStrings now s <-> exists e, strings s !! k = Some e /\ expired now (expiresAt e) = true.
Proof.
  unfold deadStrings. rewrite list_elem_of_fmap. split.
  - intros ([k' e] & -> & [He Hin]%list_elem_of_filter). apply elem_of_map_to_list in Hin.
    exists e. split; [done|]. by apply Is_true_eq_true.
  - intros (e & Hs & He). exists (k, e). split; [done|]. apply list_elem_of_filter.
    split; [by apply Is_true_eq_left|]. by apply elem_of_map_to_list.
Qed.

Lemma elem_deadOthers now s k :
  k ∈ deadOthers now s <-> exists d, keyExpiry s !! k = Some d /\ After now d = true.
Proof.
  unfold deadOthers. rewrite list_elem_of_fmap. split.
  - intros ([k' d] & -> & [He Hin]%list_elem_of_filter). apply elem_of_map_to_list in Hin.
    exists d. split; [done|]. by apply Is_true_eq_true.
  - intros (d & Hs & He). exists (k, d). split; [done|]. apply list_elem_of_filter.
    split; [by apply Is_true_eq_left|]. by apply elem_of_map_to_list.
Qed.

Definition sweepCell (now : Time) (c : cell) : cell :=
  let str := match cStr c with
    | Some e => if expired now (expiresAt e) then None else Some e | None => None end in
  match cExp c with
  | Some d => if After now d then mkCell str None None None None None
              else mkCell str (cHash c) (cList c) (cSet c) (cZset c) (cExp c)
  | None => mkCell str (cHash c) (cList c) (cSet c) (cZset c) (cExp c)
  end.

Lemma cell_deleteExpired now s k :
  cell_of (deleteExpired now s) k = sweepCell now (cell_of s k).
Proof.
  unfold cell_of, deleteExpired, sweepCell. cbn. rewrite !lookup_delete_all.
  assert ((if decide (k ∈ deadStrings now s) then None else strings s !! k) =
    match strings s !! k with
    | Some e => if expired now (expiresAt e) then None else Some e | None => None end) as ->.
  { destruct (decide (k ∈ deadStrings now s)) as [Hd|Hd]; rewrite elem_deadStrings in Hd.
    - destruct Hd as (e & -> & ->). done.
    - destruct (strings s !! k) as [e|]; [|done].
      destruct (expired now (expiresAt e)) eqn:?; [|done]. destruct Hd. eauto. }
  destruct (decide (k ∈ deadOthers now s)) as [Hd|Hd]; rewrite elem_deadOthers in Hd.
  - destruct Hd as (d & -> & ->). done.
  - destruct (keyExpiry s !! k) as [d|]; [|done].
    destruct (After now d) eqn:?; [|done]. destruct Hd. eauto.
Qed.

Lemma expired_mono t t' d : t <= t' -> expired t d = true -> expired t' d = true.
Proof. unfold expired, After. intros ? H. zbool. rewrite H. cbn. lia. Qed.

Lemma sweep_view now t c :
  now <= t -> cExp c <> Some zeroTime -> cellView t (sweepCell now c) = cellView t c.
Proof.
  intros Hle Hz. unfold cellView.
  assert (strView t (sweepCell now c) = strView t c) as ->.
  { unfold strView, sweepCell.
    assert (cStr (match cExp c with Some d => if After now d then _ else _ | None => _ end) =
      match cStr c with
      | Some e => if expired now (expiresAt e) then None else Some e | None => None end) as ->
      by (destruct (cExp c) as [d|]; [destruct (After now d)|]; reflexivity).
    destruct (cStr c) as [e|]; [|done].
    destruct (expired now (expiresAt e)) eqn:He; [|done].
    by rewrite (expired_mono now t _ Hle He). }
  destruct (strView t c); [done|]. unfold aggView, sweepCell.
  destruct (cExp c) as [d|] eqn:Hx; [|done].
  destruct (After now d) eqn:Ha; [|done].
  assert (expired t d = true) as ->; [|done].
  apply (expired_mono now); [done|]. unfold expired, IsZero. rewrite Ha.
  destruct (Z.eqb_spec d zeroTime); [by subst|done].
Qed.

(** ** The invariant is kept *)

Lemma cell_wf_str v t : cell_wf (strCell v t).
Proof. by constructor; cbn; try lia. Qed.

Lemma cell_wf_empty : cell_wf emptyCell.
Proof. by constructor; cbn; try lia. Qed.

Lemma wf_put k c s s' :
  store_wf s -> cell_wf c ->
  (forall k', cell_of s' k' = if decide (k = k') then c else cell_of s k') -> store_wf s'.
Proof. intros Hs Hc H k'. rewrite H. by case_decide. Qed.

Lemma wf_New : store_wf NewMemoryStore.
Proof. intros k. apply cell_wf_empty. Qed.

Lemma wf_Flush s : store_wf (Flush s).
Proof. intros k. apply cell_wf_empty. Qed.

Lemma wf_bump k s : store_wf s -> store_wf (bumpVersion k s).
Proof. done. Qed.

Lemma wf_deleteKey k s : store_wf s -> store_wf (deleteKey k s).
Proof. intros Hs. eapply (wf_put k emptyCell); [done|apply cell_wf_empty|apply cell_deleteKey]. Qed.

Lemma wf_Set k v s : store_wf s -> store_wf (Set_ k v s).
Proof. intros Hs. eapply wf_put; [done|apply cell_wf_str|apply cell_Set]. Qed.

Lemma wf_SetWithTTL now k v ttl s : store_wf s -> store_wf (SetWithTTL now k v ttl s).
Proof. intros Hs. eapply wf_put; [done|apply cell_wf_str|apply cell_SetWithTTL]. Qed.

Lemma wf_SetAdv now k v ttl opts s :
  store_wf s -> store_wf (snd (SetAdv now k v ttl opts s)).
Proof. intros Hs k'. rewrite cell_SetAdv. case_decide; [apply cell_wf_str|apply Hs]. Qed.

Lemma wf_Del now keys s : store_wf s -> store_wf (snd (Del now keys s)).
Proof.
  revert s; induction keys as [|k keys IH]; intros s Hs; [done|].
  rewrite Del_cons. case_decide; cbn [snd]; [|by apply IH].
  by apply IH, wf_bump, wf_deleteKey.
Qed.

(** Changing only the deadline of a live string, or of a live aggregate. *)
Lemma cell_wf_restr c e d :
  cell_wf c -> cStr c = Some e ->
  cell_wf (mkCell (Some (mkStrEntry (value e) d)) (cHash c) (cList c) (cSet c) (cZset c) (cExp c)).
Proof.
  intros [H1 H2 H3 H4 H5] He. constructor; cbn; try done.
  unfold holders in *. by rewrite He in H1.
Qed.

Lemma cell_wf_reexp c d :
  cell_wf c -> aggVal c <> None -> (forall x, d = Some x -> x <> zeroTime) ->
  cell_wf (mkCell (cStr c) (cHash c) (cList c) (cSet c) (cZset c) d).
Proof. intros [H1 H2 H3 H4 H5] Ha Hd. constructor; cbn; try done. eauto. Qed.

Lemma liveString_Some now k s e :
  liveString now k s = Some e -> strings s !! k = Some e /\ expired now (expiresAt e) = false.
Proof. unfold liveString. intros H. repeat split_match_in H; by simplify_eq. Qed.

Lemma is_aggregate_cell now k s :
  is_aggregate (typeOf now k s) = true -> aggVal (cell_of s k) <> None.
Proof.
  pose proof (typeOf_present now k s). unfold aggVal. cbn.
  destruct (typeOf now k s); cbn; try done; intros _;
    destruct (hashes s !! k), (lists s !! k), (sets s !! k), (zsets s !! k);
    try done; by destruct H.
Qed.

Lemma wf_GetEx now k ttl p h s : store_wf s -> store_wf (snd (GetEx now k ttl p h s)).
Proof.
  intros Hs k'. rewrite cell_GetEx. destruct (liveString now k s) as [e|] eqn:Hl; [|apply Hs].
  apply liveString_Some in Hl as [Hl _]. case_decide as Hk; [|apply Hs].
  destruct Hk as [-> _]. apply (cell_wf_restr (cell_of s k')); [apply Hs|done].
Qed.

Lemma wf_Expire now k ttl s :
  clock_ok now -> int64_ok ttl -> store_wf s -> store_wf (snd (Expire now k ttl s)).
Proof.
  intros Hc Ht Hs k'. rewrite cell_Expire.
  destruct (liveString now k s) as [e|] eqn:Hl.
  - apply liveString_Some in Hl as [Hl _]. case_decide as Hk; [|apply Hs]. subst k'.
    by apply (cell_wf_restr (cell_of s k)).
  - case_decide as Hk; [|apply Hs]. destruct Hk as [<- Ha].
    apply (cell_wf_reexp (cell_of s k)); [apply Hs|by eapply is_aggregate_cell|].
    intros x [= <-]. by apply deadline_add.
Qed.

Lemma Persist_true now k s :
  fst (Persist now k s) = true ->
  (exists e, liveString now k s = Some e /\ IsZero (expiresAt e) = false) \/
  (liveString now k s = None /\ is_aggregate (typeOf now k s) = true /\
   is_Some (keyExpiry s !! k)).
Proof.
  unfold Persist. destruct (liveString now k s) as [e|] eqn:Hl.
  - destruct (IsZero (expiresAt e)) eqn:Hz; [|intros _; left; eauto].
    rewrite (typeOf_view now k s).
    assert (view now s k = Some (VString (value e), None)) as ->; [|done].
    apply liveString_Some in Hl as [Hl He]. unfold view, cellView, strView. cbn.
    rewrite Hl, He. unfold deadline. by rewrite Hz.
  - intros H. right. split_match_in H; [|done]. split_match_in H; [|done].
    split_and!; eauto.
Qed.

Lemma wf_Persist now k s : store_wf s -> store_wf (snd (Persist now k s)).
Proof.
  intros Hs k'. rewrite cell_Persist.
  destruct (fst (Persist now k s)) eqn:Hp; [|apply Hs]. case_decide as Hk; [|apply Hs]. subst k'.
  apply Persist_true in Hp as [(e & Hl & _)|(Hl & Ha & _)]; rewrite Hl.
  - apply liveString_Some in Hl as [Hl _]. by apply (cell_wf_restr (cell_of s k)).
  - apply (cell_wf_reexp (cell_of s k)); [apply Hs|by eapply is_aggregate_cell|done].
Qed.

Lemma wf_deleteExpired now s : store_wf s -> store_wf (deleteExpired now s).
Proof.
  intros Hs k. rewrite cell_deleteExpired. specialize (Hs k).
  destruct (cell_of s k) as [st h l se z x]. destruct Hs as [H1 H2 H3 H4 H5].
  unfold holders, sweepCell in *. cbn in *.
  destruct x as [d|]; [destruct (After now d)|];
    (destruct st as [e|]; [destruct (expired now (expiresAt e))|]);
    constructor; cbn in *; try done; try lia.
Qed.

(** On a well-formed key, [Rename] moves the whole cell. *)
Lemma cell_Rename_wf now src dst s b s' k' :
  src <> dst -> cell_wf (cell_of s src) -> Rename now src dst s = Ret (b, s') ->
  cell_of s' k' =
    if decide (view now s src = None) then cell_of s k'
    else if decide (k' = src) then emptyCell
    else if decide (k' = dst) then cell_of s src else cell_of s k'.
Proof.
  intros Hne [H1 H2 _ _ _] HR. rewrite (cell_Rename _ _ _ _ _ _ _ Hne HR).
  pose proof (typeOf_present now src s) as Hp.
  destruct (decide (view now s src = None)) as [Hv|Hv]; rewrite <- typeOf_none_view in Hv;
    [by rewrite Hv|].
  unfold holders, aggVal in *. cbn in *. unfold cell_of, emptyCell.
  destruct (typeOf now src s); try done; destruct Hp as [x Hx];
    destruct (strings s !! src), (hashes s !! src), (lists s !! src), (sets s !! src),
      (zsets s !! src); cbn in *; simplify_eq; try lia;
    (destruct (keyExpiry s !! src) as [d|]; [by destruct (H2 d eq_refl)|done]) || done.
Qed.

Lemma wf_Rename now src dst s b s' :
  src <> dst -> store_wf s -> Rename now src dst s = Ret (b, s') -> store_wf s'.
Proof.
  intros Hne Hs HR k'. rewrite (cell_Rename_wf now src dst s b s' k' Hne (Hs src) HR).
  repeat case_decide; try apply Hs. apply cell_wf_empty.
Qed.

(** ** Versions: every write to a key changes what WATCH compares *)

Lemma Version_bump k s k' :
  Version k' (bumpVersion k s) = if decide (k = k') then wrapU64 (Version k s + 1) else Version k' s.
Proof. unfold Version, bumpVersion. cbn. rewrite lookup_insert. by case_decide. Qed.

Lemma wrapU64_succ v : 0 <= v < 2 ^ 64 -> wrapU64 (v + 1) <> v.
Proof.
  intros Hv. unfold wrapU64. destruct (decide (v = 2 ^ 64 - 1)) as [->|Hne]; [done|].
  rewrite Z.mod_small; lia.
Qed.

(** Versions are [uint64] values. *)
Definition versions_ok (s : MemoryStore) : Prop := forall k, 0 <= Version k s < 2 ^ 64.

Lemma versions_bump k s : versions_ok s -> versions_ok (bumpVersion k s).
Proof.
  intros H k'. rewrite Version_bump. case_decide; [|apply H].
  unfold wrapU64. apply Z.mod_pos_bound. lia.
Qed.

(** ** The three shapes of a well-formed key *)

(** A cell holding an aggregate value and nothing else. *)
Definition aggCell (v : Val) (d : option Time) : cell :=
  match v with
  | VString _ => emptyCell
  | VHash h => mkCell None (Some h) None None None d
  | VList l => mkCell None None (Some l) None None d
  | VSet st => mkCell None None None (Some st) None d
  | VZset z => mkCell None None None None (Some (mkZset z)) d
  end.

Inductive shape : cell -> Prop :=
| shape_empty : shape emptyCell
| shape_str v t : shape (strCell v t)
| shape_agg v d :
    is_aggregate (valType v) = true -> d <> Some zeroTime -> shape (aggCell v d).

Lemma wf_shape s k : store_wf s -> shape (cell_of s k).
Proof.
  intros H. specialize (H k). destruct (cell_of s k) as [st h l se z x].
  destruct H as [H1 H2 _ _ _]. unfold holders, aggVal in *. cbn in *.
  assert (x <> Some zeroTime) as Hx by (intros ->; by destruct (H2 _ eq_refl)).
  destruct st as [[v t]|], h as [h|], l as [l|], se as [se|], z as [[z]|]; cbn in *; try lia.
  - destruct x as [d|]; [by destruct (H2 d eq_refl)|]. apply shape_str.
  - by apply (shape_agg (VHash h)).
  - by apply (shape_agg (VList l)).
  - by apply (shape_agg (VSet se)).
  - by apply (shape_agg (VZset z)).
  - destruct x as [d|]; [by destruct (H2 d eq_refl)|]. apply shape_empty.
Qed.

Lemma expired_seen t d : d <> zeroTime -> expired t d = (d <? t).
Proof.
  intros Hd. unfold expired, IsZero, After. destruct (Z.eqb_spec d zeroTime); done.
Qed.

Lemma cellView_aggCell t v d :
  is_aggregate (valType v) = true -> d <> Some zeroTime ->
  cellView t (aggCell v d) = seen t (v, d).
Proof.
  intros Hv Hd. unfold cellView, strView, seen.
  assert (cStr (aggCell v d) = None) as -> by (by destruct v).
  unfold aggView. cbn [snd].
  assert (cExp (aggCell v d) = d) as -> by (by destruct v).
  assert (aggVal (aggCell v d) = Some v) as -> by (by destruct v).
  destruct d as [d|]; [|done]. by rewrite expired_seen by congruence.
Qed.

Lemma seen_seen t now e : now <= t -> seen t e <> None -> seen now e = Some e.
Proof.
  unfold seen. destruct e as [v [d|]]; cbn; [|done]. intros ? H.
  destruct (d <? t) eqn:?; [done|]. zbool. by zfalse (d <? now).
Qed.

Lemma seen_Some t e e' : seen t e = Some e' -> e' = e.
Proof. unfold seen. destruct e as [v [d|]]; cbn; [destruct (_ <? _)|]; congruence. Qed.

(** ** Expire, Persist, TTL and Rename on the view *)

(** The cell that holds exactly one visible entry. *)
Definition entryCell (e : entry) : cell :=
  match e with
  | (VString v, d) => strCell v (default zeroTime d)
  | (v, d) => aggCell v d
  end.

Lemma deadline_default t : default zeroTime (deadline t) = t.
Proof. unfold deadline, IsZero. destruct (Z.eqb_spec t zeroTime); done. Qed.

Lemma entryCell_agg v d : is_aggregate (valType v) = true -> entryCell (v, d) = aggCell v d.
Proof. by destruct v. Qed.

Lemma cellView_entryCell t v d :
  d <> Some zeroTime -> cellView t (entryCell (v, d)) = seen t (v, d).
Proof.
  intros Hd. destruct v; cbn [entryCell]; try (by apply cellView_aggCell).
  rewrite cellView_strCell.
  assert (deadline (default zeroTime d) = d) as ->; [|done].
  destruct d as [d|]; cbn; [|done].
  unfold deadline, IsZero. destruct (Z.eqb_spec d zeroTime); [congruence|done].
Qed.

(** On a well-formed store a visible key's cell is determined by what is seen. *)
Lemma view_cell now s k e :
  store_wf s -> view now s k = Some e -> cell_of s k = entryCell e /\ snd e <> Some zeroTime.
Proof.
  intros Hs. unfold view. destruct (wf_shape s k Hs) as [|v t|v d Hv Hd].
  - done.
  - rewrite cellView_strCell. intros ->%seen_Some. cbn. rewrite deadline_default.
    split; [done|]. unfold deadline, IsZero. destruct (Z.eqb_spec t zeroTime); congruence.
  - rewrite (cellView_aggCell now v d Hv Hd). intros ->%seen_Some.
    by rewrite entryCell_agg.
Qed.

Lemma view_live now s k v d :
  store_wf s -> view now s k = Some (v, d) -> seen now (v, d) = Some (v, d).
Proof.
  intros Hs Hv. destruct (view_cell _ _ _ _ Hs Hv) as [Hc Hd]. cbn in Hd.
  rewrite <- (cellView_entryCell now v d Hd), <- Hc. exact Hv.
Qed.

(** Cells of [Expire] and [Persist] on a well-formed store. *)
Lemma liveString_view now s k :
  store_wf s ->
  liveString now k s =
    match view now s k with
    | Some (VString v, d) => Some (mkStrEntry v (default zeroTime d))
    | _ => None
    end.
Proof.
  intros Hs. rewrite liveString_cell. destruct (view now s k) as [[v d]|] eqn:Hv.
  - destruct (view_cell _ _ _ _ Hs Hv) as [Hc Hd]. rewrite Hc.
    destruct v; cbn; try done.
    destruct (expired now (default zeroTime d)) eqn:He; [|done].
    exfalso. unfold view in Hv. rewrite Hc in Hv. cbn in Hv. unfold cellView, strView in Hv.
    cbn in Hv. rewrite He in Hv. unfold aggView in Hv. by cbn in Hv.
  - revert Hv. unfold view. destruct (wf_shape s k Hs) as [|v t|v d Hv Hd]; cbn; try done.
    + unfold cellView, strView. cbn. by destruct (expired now t).
    + by destruct v.
Qed.

Lemma cell_Expire_wf now k ttl s k' :
  store_wf s ->
  cell_of (snd (Expire now k ttl s)) k' =
    match view now s k with
    | Some (v, _) => if decide (k = k') then entryCell (v, Some (now + ttl)) else cell_of s k'
    | None => cell_of s k'
    end.
Proof.
  intros Hs. rewrite cell_Expire, typeOf_view, liveString_view by done.
  destruct (view now s k) as [[v d]|] eqn:Hv.
  - destruct (view_cell _ _ _ _ Hs Hv) as [Hc _]. unfold cell_of in Hc.
    destruct (decide (k = k')) as [<-|Hne].
    + destruct v; cbn in *; rewrite ?decide_True by done; unfold strCell in *; simplify_eq;
        congruence.
    + destruct v; try done; by rewrite decide_False by (by intros [? _]).
  - by rewrite decide_False by (by intros [_ ?]).
Qed.

Lemma liveString_typeOf now k s :
  is_Some (liveString now k s) <-> typeOf now k s = TString.
Proof.
  unfold liveString, typeOf. destruct (strings s !! k) as [e|].
  - destruct (expired now (expiresAt e)); cbn; [|by split; eauto].
    split; [by intros []|]. by repeat case_match.
  - split; [by intros []|]. cbn. by repeat case_match.
Qed.

Lemma Expire_fst now k ttl s :
  fst (Expire now k ttl s) = bool_decide (view now s k <> None).
Proof.
  rewrite (bool_decide_ext _ (typeOf now k s <> TNone)) by (by rewrite typeOf_none_view).
  unfold Expire. pose proof (liveString_typeOf now k s) as Hl.
  destruct (liveString now k s) as [e|].
  - by rewrite (proj1 Hl) by eauto.
  - destruct (typeOf now k s) eqn:Ht; try done. by destruct (proj2 Hl eq_refl).
Qed.

Lemma view_Expire t now k ttl s k' :
  store_wf s -> clock_ok now -> int64_ok ttl ->
  view t (snd (Expire now k ttl s)) k' =
    match view now s k with
    | Some (v, _) => ks_put k (seen t (v, Some (now + ttl))) (view t s) k'
    | None => view t s k'
    end.
Proof.
  intros Hs Hc Ht. destruct (deadline_add now ttl Hc Ht) as [Hz _].
  unfold view at 1. rewrite cell_Expire_wf by done.
  destruct (view now s k) as [[v d]|]; [|done]. unfold ks_put. case_decide; [|done].
  apply cellView_entryCell. congruence.
Qed.

Lemma cell_Persist_wf now k s k' :
  store_wf s ->
  cell_of (snd (Persist now k s)) k' =
    match view now s k with
    | Some (v, Some _) => if decide (k = k') then entryCell (v, None) else cell_of s k'
    | _ => cell_of s k'
    end.
Proof.
  intros Hs. unfold Persist. rewrite typeOf_view, liveString_view by done.
  destruct (view now s k) as [[v d]|] eqn:Hv; [|done].
  destruct (view_cell _ _ _ _ Hs Hv) as [Hc Hd]. cbn in Hd.
  destruct v; cbn [valType is_aggregate value expiresAt].
  { destruct d as [d|]; [change (default zeroTime (Some d)) with d|done].
    unfold IsZero. destruct (Z.eqb_spec d zeroTime); [congruence|]. cbn [snd].
    rewrite cell_set_strings. case_decide as Hk; [|done]. subst k'.
    unfold cell_of in Hc. cbn in Hc |- *. unfold strCell in *. simplify_eq. congruence. }
  all: assert (keyExpiry s !! k = d) as -> by (unfold cell_of in Hc; by simplify_eq/=).
  all: destruct d as [d|]; [|done]; cbn [snd]; rewrite cell_unset_expiry; case_decide as Hk;
    [|done]; subst k'; unfold cell_of in Hc; cbn in Hc |- *; simplify_eq; congruence.
Qed.

Lemma Persist_fst now k s :
  store_wf s ->
  fst (Persist now k s) = match view now s k with Some (_, Some _) => true | _ => false end.
Proof.
  intros Hs. unfold Persist. rewrite typeOf_view, liveString_view by done.
  destruct (view now s k) as [[v d]|] eqn:Hv; [|done].
  destruct (view_cell _ _ _ _ Hs Hv) as [Hc Hd]. cbn in Hd.
  destruct v; cbn [valType is_aggregate value expiresAt].
  { destruct d as [d|]; [change (default zeroTime (Some d)) with d|done].
    unfold IsZero. by destruct (Z.eqb_spec d zeroTime); [congruence|]. }
  all: assert (keyExpiry s !! k = d) as -> by (unfold cell_of in Hc; by simplify_eq/=);
    by destruct d.
Qed.

Lemma view_Persist t now k s k' :
  store_wf s ->
  view t (snd (Persist now k s)) k' =
    match view now s k with
    | Some (v, Some _) => ks_put k (Some (v, None)) (view t s) k'
    | _ => view t s k'
    end.
Proof.
  intros Hs. unfold view at 1. rewrite cell_Persist_wf by done.
  destruct (view now s k) as [[v [d|]]|]; try done.
  unfold ks_put. case_decide; [|done]. by apply cellView_entryCell.
Qed.

Lemma TTL_view now k s :
  store_wf s ->
  TTL now k s =
    match view now s k with
    | None => -2 * Second
    | Some (_, None) => -1 * Second
    | Some (_, Some d) => Until now d
    end.
Proof.
  intros Hs. unfold TTL. rewrite typeOf_view. destruct (view now s k) as [[v d]|] eqn:Hv.
  - destruct (view_cell _ _ _ _ Hs Hv) as [Hc Hd]. cbn in Hd.
    pose proof (view_live _ _ _ _ _ Hs Hv) as Hl. unfold seen in Hl. cbn in Hl.
    assert (forall t, d = Some t -> expired now t = false) as He.
    { intros t ->. rewrite expired_seen by congruence. by destruct (t <? now). }
    unfold cell_of in Hc. destruct v; cbn in Hc; unfold strCell in *; simplify_eq.
    { rewrite Hc. destruct d as [d|]; cbn; [|done]. rewrite (He d) by done. unfold IsZero.
      by destruct (Z.eqb_spec d zeroTime); [congruence|]. }
    all: rewrite Hc; cbn; destruct (keyExpiry s !! k) as [t|]; [by rewrite (He t)|done].
  - destruct (strings s !! k) as [e|] eqn:Hk; [|done].
    unfold view, cellView, strView in Hv. cbn in Hv. rewrite Hk in Hv.
    by destruct (expired now (expiresAt e)).
Qed.

Lemma view_Rename t now src dst s e :
  src <> dst -> store_wf s -> view now s src = Some e ->
  exists s', Rename now src dst s = Ret (true, s') /\
    forall k', view t s' k' = ks_put src None (ks_put dst (seen t e) (view t s)) k'.
Proof.
  intros Hne Hs Hv. destruct (Rename_ret now src dst s) as [s' HR]; [auto|].
  rewrite bool_decide_true in HR by (by rewrite Hv). exists s'. split; [done|]. intros k'.
  destruct e as [v d]. destruct (view_cell _ _ _ _ Hs Hv) as [Hc Hd].
  unfold view at 1, ks_put. rewrite (cell_Rename_wf _ _ _ _ _ _ k' Hne (Hs src) HR), Hv.
  rewrite decide_False by done.
  destruct (decide (k' = src)) as [->|]; [by rewrite decide_True|].
  rewrite (decide_False (P := src = k')) by congruence.
  destruct (decide (k' = dst)) as [->|];
    [|by rewrite (decide_False (P := dst = k')) by congruence].
  rewrite decide_True by done. rewrite Hc. by apply cellView_entryCell.
Qed.

(** ** Writing one key *)

(** A key that is not visible leaves nothing behind.  The sweep makes every key
    clean, and so does any command that deletes or overwrites it. *)
Definition clean (now : Time) (s : MemoryStore) (k : string) : Prop :=
  view now s k = None -> cell_of s k = emptyCell.

Definition optCell (e : option entry) : cell :=
  match e with Some e => entryCell e | None => emptyCell end.

Definition optSeen (t : Time) (e : option entry) : option entry :=
  match e with Some e => seen t e | None => None end.

(** Entries a well-formed store may hold. *)
Definition entry_ok (e : entry) : Prop :=
  snd e <> Some zeroTime /\
  match fst e with
  | VString _ | VZset _ => True
  | VHash h => h <> ∅
  | VList l => l <> []
  | VSet st => st <> ∅
  end.

Lemma clean_cell now s k :
  store_wf s -> clean now s k -> cell_of s k = optCell (view now s k).
Proof.
  intros Hs Hc. destruct (view now s k) as [e|] eqn:Hv; cbn; [|by apply Hc].
  by eapply view_cell.
Qed.

Lemma cell_wf_entry e : entry_ok e -> cell_wf (entryCell e).
Proof.
  destruct e as [v d]. intros [Hd Hv]. cbn in *.
  destruct v; cbn; [apply cell_wf_str|..]; constructor; cbn; try done; try lia;
    try (intros ? ->; split; congruence); intros [=]; done.
Qed.

Lemma view_entry_ok now s k e : store_wf s -> view now s k = Some e -> entry_ok e.
Proof.
  intros Hs Hv. destruct (view_cell _ _ _ _ Hs Hv) as [Hc Hd]. destruct e as [v d].
  split; [done|]. specialize (Hs k). rewrite Hc in Hs. destruct Hs as [_ _ H1 H2 H3].
  destruct v; cbn in *; try done; congruence.
Qed.

(** How an operation for values of type [T] finds a clean key of a well-formed
    store: absent, holding a value of its type, or holding another type. *)
Inductive key_case (now : Time) (s : MemoryStore) (k : string) (T : keyType) : Prop :=
| kc_none :
    view now s k = None -> typeOf now k s = TNone -> cell_of s k = emptyCell ->
    key_case now s k T
| kc_same v d :
    view now s k = Some (v, d) -> valType v = T -> typeOf now k s = T ->
    cell_of s k = entryCell (v, d) -> entry_ok (v, d) -> key_case now s k T
| kc_other v d :
    view now s k = Some (v, d) -> valType v <> T -> typeOf now k s = valType v ->
    key_case now s k T.

Lemma key_case_intro now s k T : store_wf s -> clean now s k -> key_case now s k T.
Proof.
  intros Hs Hc. destruct (view now s k) as [[v d]|] eqn:Hv.
  - pose proof (typeOf_view now k s) as Ht. rewrite Hv in Ht.
    destruct (decide (valType v = T)) as [Hv'|Hv'].
    + eapply kc_same; try done; [congruence|by eapply view_cell|by eapply view_entry_ok].
    + by eapply kc_other.
  - apply kc_none; [done|by apply typeOf_none_view|by apply Hc].
Qed.

(** [k] holds [e] after the step from [s] to [s'], and no other key changed. *)
Definition updates (k : string) (e : option entry) (s s' : MemoryStore) : Prop :=
  store_wf s' /\ forall t k', view t s' k' = ks_put k (optSeen t e) (view t s) k'.

(** An operation that writes one cell, seen through the view. *)
Lemma write_key s s' k e :
  (forall k', cell_of s' k' = if decide (k = k') then optCell e else cell_of s k') ->
  store_wf s -> (forall x, e = Some x -> entry_ok x) -> updates k e s s'.
Proof.
  intros H Hs He. split.
  - eapply wf_put; [done| |exact H]. destruct e as [e|]; [by apply cell_wf_entry; auto|].
    apply cell_wf_empty.
  - intros t k'. rewrite (view_put t k _ s s' H). unfold ks_put. case_decide; [|done].
    destruct e as [[v d]|]; [|done]. cbn. apply cellView_entryCell.
    by destruct (He (v, d) eq_refl).
Qed.

Lemma updates_bump k e s s' k2 : updates k e s s' -> updates k e s (bumpVersion k2 s').
Proof. intros [H1 H2]. split; [by apply wf_bump|]. exact H2. Qed.

Lemma clean_sweep now s k : store_wf s -> clean now (deleteExpired now s) k.
Proof.
  intros Hs. unfold clean, view. rewrite cell_deleteExpired.
  destruct (wf_shape s k Hs) as [|v t|v d Hv Hd]; [done| |].
  - unfold sweepCell. cbn. destruct (expired now t) eqn:He; [done|].
    unfold cellView, strView. cbn. by rewrite He.
  - rewrite sweep_view by (lia || by destruct v). rewrite cellView_aggCell by done.
    unfold seen. cbn. destruct d as [d|]; [|done]. destruct (d <? now) eqn:E; [|done].
    intros _. destruct v; try done; unfold sweepCell, After; cbn; by rewrite E.
Qed.

(** ** Listing and counting keys *)

Lemma elem_liveNonStr {A} now (m : gmap string A) s k :
  k ∈ liveNonStr now m s <-> is_Some (m !! k) /\ keyExpiredNonStr now k s = false.
Proof.
  unfold liveNonStr. rewrite list_elem_of_filter, list_elem_of_fmap. split.
  - intros [H ([k1 a] & -> & Hm)]. apply elem_of_map_to_list in Hm. cbn in *.
    split; [eauto|]. by destruct (keyExpiredNonStr now k1 s).
  - intros [[a Ha] ->]. split; [done|]. exists (k, a). by rewrite elem_of_map_to_list.
Qed.

Lemma elem_liveStrings (p : strEntry -> bool) (m : gmap string strEntry) k :
  k ∈ (fst <$> filter (fun kv : string * strEntry => p (snd kv)) (map_to_list m)) <->
  exists e, m !! k = Some e /\ p e = true.
Proof.
  rewrite list_elem_of_fmap. split.
  - intros ([k1 e] & -> & Hm). rewrite list_elem_of_filter, elem_of_map_to_list in Hm.
    destruct Hm as [Hp Hm]. cbn in *. exists e. split; [done|]. by destruct (p e).
  - intros (e & Hm & Hp). exists (k, e). rewrite list_elem_of_filter, elem_of_map_to_list.
    cbn. by rewrite Hp.
Qed.

(** The keys of the five maps, strings filtered by [p]. *)
Definition keysBy (p : strEntry -> bool) (now : Time) (s : MemoryStore) : list string :=
  (fst <$> filter (fun kv : string * strEntry => p (snd kv)) (map_to_list (strings s)))
  ++ liveNonStr now (hashes s) s ++ liveNonStr now (lists s) s
  ++ liveNonStr now (sets s) s ++ liveNonStr now (zsets s) s.

Lemma elem_keysBy p now s k :
  k ∈ keysBy p now s <->
  (exists e, strings s !! k = Some e /\ p e = true) \/
  (aggVal (cell_of s k) <> None /\ keyExpiredNonStr now k s = false).
Proof.
  unfold keysBy. rewrite !elem_of_app, !elem_liveNonStr, elem_liveStrings.
  unfold aggVal. cbn.
  destruct (hashes s !! k), (lists s !! k), (sets s !! k), (zsets s !! k);
    rewrite ?is_Some_alt; cbn; intuition congruence.
Qed.

Lemma elem_keysBy_view now s k :
  k ∈ keysBy (fun e => negb (expired now (expiresAt e))) now s <-> view now s k <> None.
Proof.
  rewrite elem_keysBy. unfold view, cellView, strView, aggView, keyExpiredNonStr. cbn.
  destruct (strings s !! k) as [e|];
    [destruct (expired now (expiresAt e)) eqn:He; cbn;
      [|split; [done|intros _; left; exists e; by rewrite He]]|];
    destruct (keyExpiry s !! k) as [d|]; try destruct (expired now d);
    destruct (aggVal (cell_of s k)); (split; [|done || by intros _; right]);
    intros [(e1 & ? & Hn)|[? ?]]; simplify_eq; try (rewrite He in Hn); done.
Qed.

Lemma NoDup_keysBy p now s : store_wf s -> NoDup (keysBy p now s).
Proof.
  intros Hs. unfold keysBy.
  assert (forall A (m : gmap string A), NoDup (liveNonStr now m s)) as Hn
    by (intros; apply NoDup_filter, NoDup_fst_map_to_list).
  assert (NoDup (fst <$> filter (fun kv : string * strEntry => p (snd kv))
                   (map_to_list (strings s)))) as Hn'.
  { apply (sublist_NoDup _ _ (NoDup_fst_map_to_list (strings s))).
    apply fmap_sublist, sublist_filter. }
  rewrite !NoDup_app. split_and!; auto; intros k;
    rewrite ?elem_of_app, ?elem_liveNonStr, ?elem_liveStrings;
    pose proof (wf_one_type _ (Hs k)); unfold holders in *; cbn in *;
    destruct (strings s !! k), (hashes s !! k), (lists s !! k), (sets s !! k), (zsets s !! k);
    cbn in *; try lia; rewrite ?is_Some_alt; cbn; naive_solver.
Qed.

Lemma counted_visible now s :
  (forall k e, strings s !! k = Some e -> expiresAt e <> now) ->
  forall k, k ∈ keysBy (fun e => beforeDeadline now (expiresAt e)) now s <-> view now s k <> None.
Proof.
  intros Hb k. rewrite <- elem_keysBy_view, !elem_keysBy. apply or_iff_compat_r.
  split; intros (e & He & Hp); exists e; (split; [done|]); specialize (Hb k e He);
    unfold beforeDeadline, expired, IsZero, Before, After in *; zbool; cbn in *; lia.
Qed.

(** ** Properties *)

(** The string a client sees under a key. *)
Definition stringAt (e : option entry) : option string :=
  match e with Some (VString v, _) => Some v | _ => None end.

Lemma Get_stringAt now k s : store_wf s -> Get now k s = stringAt (view now s k).
Proof.
  intros Hs. unfold Get. rewrite liveString_view by done.
  by destruct (view now s k) as [[[] d]|].
Qed.

(** A store with one key of each kind, used by the witnesses below. *)
Definition sampleStore : MemoryStore :=
  mkStore {[ "s" := mkStrEntry "v" zeroTime ]} {[ "h" := {[ "f" := "1" ]} ]}
    {[ "l" := ["a"; "b"] ]} {[ "st" := {["m"]} ]} ∅ {[ "l" := 1000 ]} {[ "s" := 1 ]}.

Lemma sampleStore_wf : store_wf sampleStore.
Proof.
  intros k. unfold cell_of. cbn. rewrite !lookup_singleton, !lookup_empty.
  repeat case_decide; subst; constructor; cbn; try done; try lia;
    try (by intros d [= <-]); try (intros [=]; set_solver).
Qed.

Lemma sampleStore_clean k : clean 10 sampleStore k.
Proof.
  unfold clean, view, cell_of. cbn. rewrite !lookup_singleton, !lookup_empty.
  by repeat case_decide; subst; vm_compute.
Qed.

(** A key that is absent or a string: the options of SET look at no other. *)
Definition stringOrNone (e : option entry) : Prop :=
  match e with None | Some (VString _, _) => True | _ => False end.

Lemma stringAt_there e :
  stringOrNone e -> bool_decide (is_Some (stringAt e)) = bool_decide (is_Some e).
Proof.
  intros H. apply bool_decide_ext. destruct e as [[[] d]|]; cbn; try done; split; intros _; by eexists.
Qed.

(** The deadline KEEPTTL finds. *)
Lemma kept_deadline now s key :
  store_wf s -> clean now s key -> stringOrNone (view now s key) ->
  deadline (match strings s !! key with Some e => expiresAt e | None => zeroTime end) =
    match view now s key with Some (_, d) => d | None => None end.
Proof.
  intros Hs Hc Hn. change (strings s !! key) with (cStr (cell_of s key)).
  destruct (view now s key) as [[[v| | | |] d]|] eqn:Hv; try done.
  - destruct (view_cell _ _ _ _ Hs Hv) as [-> Hd]. cbn in *. destruct d as [d|]; [|apply deadline_zero].
    cbn. unfold deadline, IsZero. by rewrite (proj2 (Z.eqb_neq d zeroTime)) by congruence.
  - rewrite (Hc Hv). apply deadline_zero.
Qed.

(** C30: SET refines the keyspace.  With NX it writes exactly when the key does not exist,
    with XX exactly when it exists, otherwise always, and says so; a write replaces the key
    by the string with the deadline the options ask for, KEEPTTL keeping the one the key
    has; every other key is left as it was; and the old string is reported.  A key of
    another type is covered without options only, and KEEPTTL on a key that does not hold
    an expired value that was not swept yet. *)
Theorem SetAdv_refines now key val ttl opts s :
  store_wf s -> clock_ok now -> int64_ok ttl ->
  (NX opts || XX opts || GetOpt opts || KeepTTL opts = true -> stringOrNone (view now s key)) ->
  (KeepTTL opts = true -> clean now s key) ->
  let there := bool_decide (is_Some (view now s key)) in
  let blocked := (NX opts && there) || (XX opts && negb there) in
  let dl := if KeepTTL opts then match view now s key with Some (_, d) => d | None => None end
            else if 0 <? ttl then Some (now + ttl) else None in
  snd (fst (SetAdv now key val ttl opts s)) = negb blocked /\
  (stringOrNone (view now s key) -> fst (fst (SetAdv now key val ttl opts s)) =
     (default EmptyString (stringAt (view now s key)), there)) /\
  forall t k', view t (snd (SetAdv now key val ttl opts s)) k' =
    if blocked then view t s k'
    else ks_put key (seen t (VString val, dl)) (view t s) k'.
Proof.
  intros Hs Hnow Ht Hstr Hclean there blocked dl.
  pose proof (SetAdv_result now key val ttl opts s) as Hr. rewrite !Get_stringAt in Hr by done.
  rewrite <- negb_orb in Hr.
  replace (_ || _) with blocked in Hr; cycle 1.
  { destruct (NX opts || XX opts) eqn:E.
    - subst blocked there. by rewrite stringAt_there by (by apply Hstr).
    - apply orb_false_elim in E as [E1 E2]. subst blocked. by rewrite E1, E2. }
  rewrite Hr. split; [done|]. split; [intros Hn; cbn; by rewrite stringAt_there|]. intros t k'.
  unfold view at 1. rewrite cell_SetAdv, Hr. cbn [snd]. unfold ks_put.
  destruct blocked; cbn [negb]; [by rewrite decide_False by (by intros [_ ?])|].
  destruct (decide (key = k')) as [<-|]; [|by rewrite decide_False by (by intros [? _])].
  rewrite decide_True by done. rewrite cellView_strCell. do 2 f_equal. subst dl.
  destruct (KeepTTL opts); [|destruct (0 <? ttl); [by apply deadline_add|apply deadline_zero]].
  rewrite !orb_true_r in Hstr. by apply kept_deadline; auto.
Qed.

(** NX on a key that is not there, with a deadline. *)
Lemma SetAdv_refines_witness :
  let r := SetAdv 10 "new" "x" 20 (mkSetAdvOpts false true false false) sampleStore in
  snd (fst r) = true /\ view 25 (snd r) "new" = Some (VString "x", Some 30) /\
  view 50 (snd r) "new" = None.
Proof.
  destruct (SetAdv_refines 10 "new" "x" 20 (mkSetAdvOpts false true false false) sampleStore
              sampleStore_wf) as (H1 & _ & H2); [done..|].
  intros r. split_and!; [exact H1|subst r; rewrite H2; reflexivity..].
Defined.

(** SET NX does not protect a key that holds another type: the live hash under
    the key is replaced. *)
Theorem SetAdv_NX_replaces_hash :
  view 10 sampleStore "h" = Some (VHash {[ "f" := "1" ]}, None) /\
  let r := SetAdv 10 "h" "x" 0 (mkSetAdvOpts false true false false) sampleStore in
  snd (fst r) = true /\ view 10 (snd r) "h" = Some (VString "x", None).
Proof. split; [|split]; reflexivity. Qed.

(** SET KEEPTTL on a string that has expired and is not swept yet keeps the deadline that has
    passed: the write is acknowledged, and the value is never seen. *)
Theorem SetAdv_KeepTTL_dead :
  let s := SetWithTTL 10 "k" "old" 100 NewMemoryStore in
  let r := SetAdv 200 "k" "new" 0 (mkSetAdvOpts true false false false) s in
  snd (fst r) = true /\ view 200 (snd r) "k" = None.
Proof. split; reflexivity. Qed.

(** DEL removes exactly the visible keys among its arguments, whatever their
    types, leaves the others alone, and its reply counts the different visible
    keys. *)
Theorem Del_refines now keys s :
  (forall t k, view t (snd (Del now keys s)) k =
     if decide (k ∈ keys /\ view now s k <> None) then None else view t s k) /\
  fst (Del now keys s) =
    Z.of_nat (size (filter (fun k => view now s k <> None) (list_to_set keys : gset string))).
Proof. split; [intros; apply view_Del|apply Del_count]. Qed.



(** PERSIST answers true exactly when a visible key has a deadline; it then
    removes the deadline for good and changes nothing else. *)
Theorem Persist_refines now key s :
  store_wf s ->
  fst (Persist now key s) =
    match view now s key with Some (_, Some _) => true | _ => false end /\
  (forall t k', view t (snd (Persist now key s)) k' =
     match view now s key with
     | Some (v, Some _) => ks_put key (Some (v, None)) (view t s) k'
     | _ => view t s k'
     end) /\
  forall t, fst (Persist now key s) = true -> TTL t key (snd (Persist now key s)) = -1 * Second.
Proof.
  intros Hs. split_and!; [by apply Persist_fst|intros; by apply view_Persist|].
  intros t Hp. rewrite Persist_fst in Hp by done. rewrite TTL_view by (by apply wf_Persist).
  rewrite view_Persist by done. destruct (view now s key) as [[v [d|]]|]; try done.
  unfold ks_put. by rewrite decide_True.
Qed.

Lemma Persist_refines_witness :
  TTL 5000 "l" (snd (Persist 900 "l" sampleStore)) = -1 * Second.
Proof.
  destruct (Persist_refines 900 "l" sampleStore sampleStore_wf) as (_ & _ & H).
  by apply H.
Defined.

(** RENAME between different keys: a missing source is reported and nothing
    changes; otherwise the destination's old value is dropped, the destination
    gets the source's value with its deadline, the source disappears, and no
    other key is touched.  It never panics. *)
Theorem Rename_refines now src dst s :
  src <> dst -> store_wf s ->
  match view now s src with
  | None => Rename now src dst s = Ret (false, s)
  | Some e => exists s', Rename now src dst s = Ret (true, s') /\ store_wf s' /\
      forall t k', view t s' k' = ks_put src None (ks_put dst (seen t e) (view t s)) k'
  end.
Proof.
  intros Hne Hs. destruct (view now s src) as [e|] eqn:Hv.
  - destruct (view_Rename now now src dst s e Hne Hs Hv) as (s' & HR & _).
    exists s'. split_and!; [done|by eapply wf_Rename|]. intros t k'.
    destruct (view_Rename t now src dst s e Hne Hs Hv) as (s'' & HR' & H). congruence.
  - unfold Rename. rewrite decide_True; [done|]. by rewrite typeOf_none_view.
Qed.

Lemma Rename_refines_witness :
  exists s', Rename 10 "l" "h" sampleStore = Ret (true, s') /\
    view 10 s' "h" = Some (VList ["a"; "b"], Some 1000) /\ view 10 s' "l" = None.
Proof.
  pose proof (Rename_refines 10 "l" "h" sampleStore) as H.
  destruct H as (s' & HR & _ & Hv); [done|apply sampleStore_wf|].
  exists s'. split; [done|]. rewrite !Hv. done.
Defined.

(** The background sweep is invisible: from its instant on, every key shows
    the same value and deadline as if it had not run. *)
Theorem sweep_invisible now t s k :
  store_wf s -> now <= t -> view t (deleteExpired now s) k = view t s k.
Proof.
  intros Hs Hle. unfold view. rewrite cell_deleteExpired. apply sweep_view; [done|].
  intros Hz. by destruct (wf_expiry _ (Hs k) _ Hz).
Qed.

Lemma sweep_invisible_witness :
  view 1500 (deleteExpired 1200 sampleStore) "l" = view 1500 sampleStore "l".
Proof. apply (sweep_invisible 1200 1500 sampleStore "l" sampleStore_wf). lia. Defined.

(** The sweep reclaims everything: after it, a key occupies memory only if it
    is visible. *)
Theorem sweep_reclaims now s k :
  store_wf s -> view now s k = None -> cell_of (deleteExpired now s) k = emptyCell.
Proof.
  intros Hs Hv. apply (clean_sweep now s k Hs). unfold view in *.
  rewrite cell_deleteExpired, sweep_view; [done|lia|].
  intros Hz. by destruct (wf_expiry _ (Hs k) _ Hz).
Qed.

Lemma sweep_reclaims_witness : cell_of (deleteExpired 1200 sampleStore) "l" = emptyCell.
Proof. by apply (sweep_reclaims 1200 sampleStore "l" sampleStore_wf). Defined.

(** KEYS lists each visible key whose name matches the pattern exactly once,
    and nothing else. *)
Theorem Keys_correct now pattern s :
  store_wf s ->
  NoDup (Keys now pattern s) /\
  forall k, k ∈ Keys now pattern s <-> matches pattern k = true /\ view now s k <> None.
Proof.
  intros Hs. split.
  - apply NoDup_filter. by apply (NoDup_keysBy (fun e => negb (expired now (expiresAt e)))).
  - intros k. unfold Keys. rewrite list_elem_of_filter, <- elem_keysBy_view.
    destruct (matches pattern k); cbn; [|by split; intros []].
    unfold keysBy. tauto.
Qed.

Lemma Keys_correct_witness : "h" ∈ Keys 10 "*" sampleStore.
Proof.
  apply (proj2 (proj2 (Keys_correct 10 "*" sampleStore sampleStore_wf) "h")).
  split; [by vm_compute|done].
Defined.

(** DBSIZE is the number of visible keys, as long as no string expires at
    exactly the instant of the call. *)
Theorem Len_correct now s :
  store_wf s -> (forall k e, strings s !! k = Some e -> expiresAt e <> now) ->
  exists ks, NoDup ks /\ (forall k, k ∈ ks <-> view now s k <> None) /\
             Len now s = Z.of_nat (length ks).
Proof.
  intros Hs Hb. exists (keysBy (fun e => beforeDeadline now (expiresAt e)) now s).
  split_and!; [by apply NoDup_keysBy| |].
  - by apply counted_visible.
  - unfold Len, keysBy. rewrite !length_app, length_fmap. lia.
Qed.

Lemma Len_correct_witness :
  exists ks, length ks = 4%nat /\ forall k, k ∈ ks <-> view 10 sampleStore k <> None.
Proof.
  destruct (Len_correct 10 sampleStore sampleStore_wf) as (ks & _ & H & Hl).
  - intros k e. cbn. rewrite lookup_singleton. case_decide; [|done]. by intros [= <-].
  - exists ks. split; [|done]. apply Nat2Z.inj. rewrite <- Hl. by vm_compute.
Defined.
