(* ===== verification/Lists.v ===== *)
(** * Lists (internal/storage/memory.go, list operations)

    Each operation is an atomic function on the store.  Slices that code builds
    and stores are never shared between keys, so a slice is its list of elements.
    A nil slice is told apart from an empty one where the code tests for it: the
    result [None] of [getList]. *)

From S2P Require Import Prelude GoLib Glob Store Keyspace.
Open Scope go_scope.

(** ** Operations *)

Definition normaliseIndex (idx length : Z) : Z :=
  let idx := if idx <? 0 then length + idx else idx in
  if (idx <? 0) || (length <=? idx) then -1 else idx.

Definition clampRange (start stop length : Z) : Z * Z :=
  let start := if start <? 0 then length + start else start in
  let stop := if stop <? 0 then length + stop else stop in
  let start := if start <? 0 then 0 else start in
  let stop := if length <=? stop then length - 1 else stop in
  (start, stop).

(** [None] is the nil slice of an absent key. *)
Definition getList (now : Time) (key : string) (s : MemoryStore) : result (option (list string)) :=
  let t := typeOf now key s in
  if decide (t = TNone) then Ok None
  else if decide (t <> TList) then Fail ErrWrongType
  else Ok (lists s !! key).

Definition LPush (now : Time) (key : string) (values : list string) (s : MemoryStore)
    : result Z * MemoryStore :=
  let t := typeOf now key s in
  if decide (t <> TNone /\ t <> TList) then (Fail ErrWrongType, s)
  else
    let l := default [] (lists s !! key) in
    let prepend := rev values in
    let s := set_lists (<[key := prepend ++ l]> (lists s)) s in
    let s := bumpVersion key s in
    (Ok (llen (default [] (lists s !! key))), s).

Definition RPush (now : Time) (key : string) (values : list string) (s : MemoryStore)
    : result Z * MemoryStore :=
  let t := typeOf now key s in
  if decide (t <> TNone /\ t <> TList) then (Fail ErrWrongType, s)
  else
    let s := set_lists (<[key := default [] (lists s !! key) ++ values]> (lists s)) s in
    let s := bumpVersion key s in
    (Ok (llen (default [] (lists s !! key))), s).

(** [delete(s.lists, key); delete(s.keyExpiry, key)] *)
Definition dropList (key : string) (s : MemoryStore) : MemoryStore :=
  set_keyExpiry (delete key (keyExpiry s)) (set_lists (delete key (lists s)) s).

(** [s.lists[key] = l; if len(s.lists[key]) == 0 { ...drop... }] *)
Definition putList (key : string) (l : list string) (s : MemoryStore) : MemoryStore :=
  let s := set_lists (<[key := l]> (lists s)) s in
  if llen l =? 0 then dropList key s else s.

(** [None] is a nil slice. *)
Definition LPop (now : Time) (key : string) (count : Z) (s : MemoryStore)
    : may_panic (result (option (list string)) * MemoryStore) :=
  match getList now key s with
  | Fail e => Ret (Fail e, s)
  | Ok None => Ret (Ok None, s)
  | Ok (Some l) =>
      let count := if llen l <? count then llen l else count in
      if count <? 0 then Panic else
      let result := ltake count l in
      let! rest := slice l count (llen l) in
      let s := putList key rest s in
      Ret (Ok (Some result), bumpVersion key s)
  end.

(** The elements [l[len(l)-count+i]] for [i < count]. *)
Fixpoint copyTail (l : list string) (from : Z) (count : nat) : may_panic (list string) :=
  match count with
  | O => Ret []
  | S n => let! x := index l from in
           let! r := copyTail l (from + 1) n in
           Ret (x :: r)
  end.

Definition RPop (now : Time) (key : string) (count : Z) (s : MemoryStore)
    : may_panic (result (option (list string)) * MemoryStore) :=
  match getList now key s with
  | Fail e => Ret (Fail e, s)
  | Ok None => Ret (Ok None, s)
  | Ok (Some l) =>
      let count := if llen l <? count then llen l else count in
      if count <? 0 then Panic else
      let! result := copyTail l (llen l - count) (Z.to_nat count) in
      let! rest := slice l 0 (llen l - count) in
      let s := putList key rest s in
      Ret (Ok (Some result), bumpVersion key s)
  end.

Definition LLen (now : Time) (key : string) (s : MemoryStore) : result Z :=
  match getList now key s with
  | Fail e => Fail e
  | Ok l => Ok (llen (default [] l))
  end.

Definition LRange (now : Time) (key : string) (start stop : Z) (s : MemoryStore)
    : may_panic (result (list string)) :=
  match getList now key s with
  | Fail e => Ret (Fail e)
  | Ok l =>
      let l := default [] l in
      if llen l =? 0 then Ret (Ok [])
      else
        let '(lo, hi) := clampRange start stop (llen l) in
        if hi <? lo then Ret (Ok [])
        else let! r := slice l lo (hi + 1) in Ret (Ok r)
  end.

Definition LIndex (now : Time) (key : string) (i : Z) (s : MemoryStore)
    : may_panic (result (option string)) :=
  match getList now key s with
  | Fail e => Ret (Fail e)
  | Ok l =>
      let l := default [] l in
      let idx := normaliseIndex i (llen l) in
      if idx <? 0 then Ret (Ok None)
      else let! v := index l idx in Ret (Ok (Some v))
  end.

Definition LSet (now : Time) (key : string) (i : Z) (value : string) (s : MemoryStore)
    : result unit * MemoryStore :=
  let t := typeOf now key s in
  if decide (t = TNone) then (Fail ErrNoSuchKey, s)
  else if decide (t <> TList) then (Fail ErrWrongType, s)
  else
    let l := default [] (lists s !! key) in
    let idx := normaliseIndex i (llen l) in
    if idx <? 0 then (Fail ErrIndexOutOfRange, s)
    else
      let s := set_lists (<[key := <[Z.to_nat idx := value]> l]> (lists s)) s in
      (Ok tt, bumpVersion key s).

(** The first position of [pivot], counting from [i]; -1 if there is none. *)
Fixpoint findPivot (pivot : string) (l : list string) (i : Z) : Z :=
  match l with
  | [] => -1
  | v :: l' => if decide (v = pivot) then i else findPivot pivot l' (i + 1)
  end.

Definition LInsert (now : Time) (key : string) (before : bool) (pivot value : string)
    (s : MemoryStore) : may_panic (result Z * MemoryStore) :=
  let t := typeOf now key s in
  if decide (t = TNone) then Ret (Ok 0, s)
  else if decide (t <> TList) then Ret (Fail ErrWrongType, s)
  else
    let l := default [] (lists s !! key) in
    let pos := findPivot pivot l 0 in
    if pos <? 0 then Ret (Ok (-1), s)
    else
      let pos := if negb before then pos + 1 else pos in
      let! front := slice l 0 pos in
      let! back := slice l pos (llen l) in
      let newList := front ++ value :: back in
      let s := set_lists (<[key := newList]> (lists s)) s in
      Ret (Ok (llen newList), bumpVersion key s).

(** The two removal loops of [LRem]: the number removed and the new list. *)
Fixpoint remHead (value : string) (count abs removed : Z) (l : list string)
    : Z * list string :=
  match l with
  | [] => (removed, [])
  | v :: l' =>
      if bool_decide (v = value) && ((count =? 0) || (removed <? abs)) then
        remHead value count abs (removed + 1) l'
      else let '(n, r) := remHead value count abs removed l' in (n, v :: r)
  end.

(** [todo] is the part of the list still to visit, last element first. *)
Fixpoint remTail (value : string) (abs removed : Z) (todo newList : list string)
    : Z * list string :=
  match todo with
  | [] => (removed, newList)
  | v :: todo' =>
      if bool_decide (v = value) && (removed <? abs) then
        remTail value abs (removed + 1) todo' newList
      else remTail value abs removed todo' (v :: newList)
  end.

Definition LRem (now : Time) (key : string) (count : Z) (value : string) (s : MemoryStore)
    : result Z * MemoryStore :=
  match getList now key s with
  | Fail e => (Fail e, s)
  | Ok None => (Ok 0, s)
  | Ok (Some l) =>
      let abs := if count <? 0 then wrap64 (- count) else count in
      let '(removed, newList) :=
        if 0 <=? count then remHead value count abs 0 l
        else remTail value abs 0 (rev l) [] in
      if 0 <? removed then
        let s := if llen newList =? 0 then dropList key s
                 else set_lists (<[key := newList]> (lists s)) s in
        (Ok removed, bumpVersion key s)
      else (Ok removed, s)
  end.

Definition LTrim (now : Time) (key : string) (start stop : Z) (s : MemoryStore)
    : may_panic (result unit * MemoryStore) :=
  let t := typeOf now key s in
  if decide (t = TNone) then Ret (Ok tt, s)
  else if decide (t <> TList) then Ret (Fail ErrWrongType, s)
  else
    let l := default [] (lists s !! key) in
    let '(lo, hi) := clampRange start stop (llen l) in
    if hi <? lo then Ret (Ok tt, bumpVersion key (dropList key s))
    else
      let! trimmed := slice l lo (hi + 1) in
      let s := set_lists (<[key := trimmed]> (lists s)) s in
      Ret (Ok tt, bumpVersion key s).

(** The element taken from one end of a non-empty list, and the rest. *)
Definition takeEnd (left : bool) (l : list string) : may_panic (string * list string) :=
  if left then
    let! elem := index l 0 in
    let! rest := slice l 1 (llen l) in
    Ret (elem, rest)
  else
    let! elem := index l (llen l - 1) in
    let! rest := slice l 0 (llen l - 1) in
    Ret (elem, rest).

(** [None] is ("", false, nil). *)
Definition LMove (now : Time) (src dst : string) (srcLeft dstLeft : bool) (s : MemoryStore)
    : may_panic (result (option string) * MemoryStore) :=
  let ts := typeOf now src s in
  if decide (ts <> TNone /\ ts <> TList) then Ret (Fail ErrWrongType, s)
  else
    let td := typeOf now dst s in
    if decide (td <> TNone /\ td <> TList) then Ret (Fail ErrWrongType, s)
    else
      let l := default [] (lists s !! src) in
      if llen l =? 0 then Ret (Ok None, s)
      else
        let! taken := takeEnd srcLeft l in
        let '(elem, rest) := taken in
        let s := putList src rest s in
        let d := default [] (lists s !! dst) in
        let s := set_lists (<[dst := if dstLeft then elem :: d else d ++ [elem]]> (lists s)) s in
        Ret (Ok (Some elem), bumpVersion dst (bumpVersion src s)).

(** ** Specification *)

(** The list a key stands for: an absent key is the empty list without deadline;
    [None] for a key of another type. *)
Definition listOf (e : option entry) : option (list string * option Time) :=
  match e with
  | None => Some ([], None)
  | Some (VList l, d) => Some (l, d)
  | Some _ => None
  end.

(** An empty list is an absent key. *)
Definition listEntry (l : list string) (d : option Time) : option entry :=
  match l with [] => None | _ => Some (VList l, d) end.

(** ** Lemmas *)

Lemma cell_put_list k l s k' :
  cell_of (set_lists (<[k := l]> (lists s)) s) k' =
    if decide (k = k') then
      mkCell (strings s !! k') (hashes s !! k') (Some l) (sets s !! k') (zsets s !! k')
        (keyExpiry s !! k')
    else cell_of s k'.
Proof. cell_simpl. by cell_cases. Qed.

Lemma cell_dropList k s k' :
  cell_of (dropList k s) k' =
    if decide (k = k') then
      mkCell (strings s !! k') (hashes s !! k') None (sets s !! k') (zsets s !! k') None
    else cell_of s k'.
Proof. cell_simpl. by cell_cases. Qed.

(** How a list operation finds its key. *)
Lemma list_key now s k :
  store_wf s -> clean now s k ->
  match listOf (view now s k) with
  | None => typeOf now k s <> TNone /\ typeOf now k s <> TList /\ getList now k s = Fail ErrWrongType
  | Some (l, d) =>
      cell_of s k = optCell (listEntry l d) /\ default [] (lists s !! k) = l /\
      d <> Some zeroTime /\
      (l = [] -> d = None) /\
      typeOf now k s = (match l with [] => TNone | _ => TList end) /\
      getList now k s = Ok (match l with [] => None | _ => Some l end)
  end.
Proof.
  intros Hs Hc. unfold getList.
  destruct (key_case_intro now s k TList Hs Hc) as [Hv Ht Hx|v d Hv Hy Ht Hx Ho|v d Hv Hy Ht];
    rewrite Hv, Ht; cbn [listOf].
  - assert (lists s !! k = None) as -> by (change (cList (cell_of s k) = None); by rewrite Hx).
    done.
  - destruct v; try done. destruct Ho as [Hd Hl]. cbn in Hd, Hl.
    assert (lists s !! k = Some l) as -> by (change (cList (cell_of s k) = Some l); by rewrite Hx).
    destruct l; [done|]. done.
  - destruct v; try done; cbn [valType]; rewrite decide_False by done; rewrite decide_True by done; done.
Qed.

Lemma listEntry_ok l d x :
  d <> Some zeroTime -> listEntry l d = Some x -> entry_ok x.
Proof. intros Hd. destruct l; [done|]. intros [= <-]. done. Qed.

(** Storing a list under a key that held list [l0]. *)
Lemma cell_list_write s k l0 d l k' :
  cell_of s k = optCell (listEntry l0 d) -> (l0 = [] -> d = None) -> l <> [] ->
  cell_of (set_lists (<[k := l]> (lists s)) s) k' =
    if decide (k = k') then optCell (listEntry l d) else cell_of s k'.
Proof.
  intros Hc Hd Hl. rewrite cell_put_list. case_decide as Hk; [|done]. subst k'.
  unfold cell_of in Hc. destruct l as [|x l]; [done|].
  destruct l0 as [|y l0]; cbn in Hc |- *; unfold emptyCell in *; simplify_eq;
    [rewrite Hd by done|]; congruence.
Qed.

Lemma cell_list_drop s k l0 d k' :
  cell_of s k = optCell (listEntry l0 d) ->
  cell_of (dropList k s) k' = if decide (k = k') then emptyCell else cell_of s k'.
Proof.
  intros Hc. rewrite cell_dropList. case_decide as Hk; [|done]. subst k'.
  unfold cell_of in Hc. unfold emptyCell.
  destruct l0 as [|y l0]; cbn in Hc; unfold emptyCell in *; simplify_eq; congruence.
Qed.

Lemma cell_putList s k l0 d l k' :
  cell_of s k = optCell (listEntry l0 d) -> (l0 = [] -> d = None) ->
  cell_of (putList k l s) k' =
    if decide (k = k') then optCell (listEntry l d) else cell_of s k'.
Proof.
  intros Hc Hd. unfold putList. destruct l as [|x l].
  - change (llen (A := string) [] =? 0) with true. cbv iota. rewrite cell_dropList. case_decide as Hk.
    + subst k'. unfold cell_of in Hc. cbn.
      destruct l0 as [|y l0]; cbn in Hc; unfold emptyCell in *; simplify_eq; congruence.
    + rewrite cell_put_list. by rewrite decide_False.
  - unfold llen. cbn [length]. zfalse (Z.of_nat (S (length l)) =? 0).
    by apply (cell_list_write s k l0).
Qed.

Lemma list_write s s' k d l :
  store_wf s -> d <> Some zeroTime ->
  (forall k', cell_of s' k' =
     if decide (k = k') then optCell (listEntry l d) else cell_of s k') ->
  updates k (listEntry l d) s s'.
Proof. intros Hs Hd H. apply write_key; [done|done|]. intros x. by apply listEntry_ok. Qed.

(** The effect shared by the two pushes: the key holds [l'] afterwards. *)
Lemma push_effect now k s l d l' :
  store_wf s -> clean now s k -> listOf (view now s k) = Some (l, d) -> l' <> [] ->
  updates k (listEntry l' d) s (bumpVersion k (set_lists (<[k := l']> (lists s)) s)).
Proof.
  intros Hs Hc Hl Hne. pose proof (list_key now s k Hs Hc) as Hk. rewrite Hl in Hk.
  destruct Hk as (Hx & _ & Hd & Hd0 & _). apply updates_bump, list_write; [done|done|].
  intros k'. by apply (cell_list_write s k l).
Qed.

Lemma push_type now k s l d :
  store_wf s -> clean now s k -> listOf (view now s k) = Some (l, d) ->
  ~ (typeOf now k s <> TNone /\ typeOf now k s <> TList).
Proof.
  intros Hs Hc Hl. pose proof (list_key now s k Hs Hc) as Hk. rewrite Hl in Hk.
  destruct Hk as (_ & _ & _ & _ & -> & _). destruct l; tauto.
Qed.

Lemma LPush_effect now k values s :
  store_wf s -> clean now s k -> values <> [] ->
  match listOf (view now s k) with
  | None => LPush now k values s = (Fail ErrWrongType, s)
  | Some (l, d) => exists s', LPush now k values s = (Ok (llen values + llen l), s') /\
      updates k (listEntry (rev values ++ l) d) s s'
  end.
Proof.
  intros Hs Hc Hv. pose proof (list_key now s k Hs Hc) as Hk. unfold LPush.
  destruct (listOf (view now s k)) as [[l d]|] eqn:Hl.
  - rewrite decide_False by (by eapply push_type). destruct Hk as (_ & -> & _).
    eexists. split; [|eapply push_effect; try done].
    + cbn. rewrite lookup_insert_eq. cbn. do 2 f_equal. unfold llen.
      rewrite length_app, length_rev. lia.
    + intros [H _]%app_nil. apply Hv. rewrite <- (rev_involutive values). by rewrite H.
  - destruct Hk as (H1 & H2 & _). by rewrite decide_True.
Qed.

Lemma RPush_effect now k values s :
  store_wf s -> clean now s k -> values <> [] ->
  match listOf (view now s k) with
  | None => RPush now k values s = (Fail ErrWrongType, s)
  | Some (l, d) => exists s', RPush now k values s = (Ok (llen l + llen values), s') /\
      updates k (listEntry (l ++ values) d) s s'
  end.
Proof.
  intros Hs Hc Hv. pose proof (list_key now s k Hs Hc) as Hk. unfold RPush.
  destruct (listOf (view now s k)) as [[l d]|] eqn:Hl.
  - rewrite decide_False by (by eapply push_type). destruct Hk as (_ & -> & _).
    eexists. split; [|eapply push_effect; try done; by intros [_ ?]%app_nil].
    cbn. rewrite lookup_insert_eq. cbn. by rewrite llen_app.
  - destruct Hk as (H1 & H2 & _). by rewrite decide_True.
Qed.

Lemma copyTail_ok l from n :
  0 <= from -> from + Z.of_nat n <= llen l ->
  copyTail l from n = Ret (take n (ldrop from l)).
Proof.
  revert from. induction n as [|n IH]; intros from H1 H2; [done|]. cbn [copyTail].
  destruct (index_ok (E := Empty_set) l from) as (a & Ha & ->); [lia|].
  cbn [obind]. rewrite IH by lia. cbn [obind]. unfold ldrop.
  rewrite (drop_S l a (Z.to_nat from)) by done.
  by replace (Z.to_nat (from + 1)) with (S (Z.to_nat from)) by lia.
Qed.

(** What a pop leaves and returns, as positions of a split of the list. *)
Lemma pop_state now k s l d rest :
  store_wf s -> clean now s k -> listOf (view now s k) = Some (l, d) ->
  updates k (listEntry rest d) s (bumpVersion k (putList k rest s)).
Proof.
  intros Hs Hc Hl. pose proof (list_key now s k Hs Hc) as Hk. rewrite Hl in Hk.
  destruct Hk as (Hx & _ & Hd & Hd0 & _). apply updates_bump, list_write; [done|done|].
  intros k'. by apply (cell_putList s k l).
Qed.

Lemma LPop_effect now k n s :
  store_wf s -> clean now s k -> 0 <= n ->
  match listOf (view now s k) with
  | None => LPop now k n s = Ret (Fail ErrWrongType, s)
  | Some ([], _) => LPop now k n s = Ret (Ok None, s)
  | Some (l, d) => exists s', LPop now k n s = Ret (Ok (Some (ltake n l)), s') /\
      updates k (listEntry (ldrop n l) d) s s'
  end.
Proof.
  intros Hs Hc Hn. pose proof (list_key now s k Hs Hc) as Hk. unfold LPop.
  destruct (listOf (view now s k)) as [[l d]|] eqn:Hl; [|by destruct Hk as (_ & _ & ->)].
  destruct Hk as (_ & _ & _ & _ & _ & ->). destruct l as [|x l]; [done|].
  set (l0 := x :: l) in *. pose proof (llen_nonneg l0).
  assert (exists m, (if llen l0 <? n then llen l0 else n) = m /\ 0 <= m <= llen l0 /\
            ltake m l0 = ltake n l0 /\ ldrop m l0 = ldrop n l0) as (m & -> & Hm & <- & <-).
  { destruct (llen l0 <? n) eqn:E; zbool; eexists; (split; [done|]); (split; [lia|]); [|done].
    unfold ltake, ldrop, llen in *. rewrite !take_ge, !drop_ge by lia. done. }
  zfalse (m <? 0). rewrite slice_ok by lia. cbn [obind]. eexists. split; [reflexivity|].
  unfold ltake. rewrite take_ge by (unfold ldrop, llen; rewrite length_drop; lia).
  by apply (pop_state now k s l0).
Qed.

Lemma RPop_effect now k n s :
  store_wf s -> clean now s k -> 0 <= n ->
  match listOf (view now s k) with
  | None => RPop now k n s = Ret (Fail ErrWrongType, s)
  | Some ([], _) => RPop now k n s = Ret (Ok None, s)
  | Some (l, d) => exists s',
      RPop now k n s = Ret (Ok (Some (ldrop (llen l - n) l)), s') /\
      updates k (listEntry (ltake (llen l - n) l) d) s s'
  end.
Proof.
  intros Hs Hc Hn. pose proof (list_key now s k Hs Hc) as Hk. unfold RPop.
  destruct (listOf (view now s k)) as [[l d]|] eqn:Hl; [|by destruct Hk as (_ & _ & ->)].
  destruct Hk as (_ & _ & _ & _ & _ & ->). destruct l as [|x l]; [done|].
  set (l0 := x :: l) in *. pose proof (llen_nonneg l0).
  assert (exists m, (if llen l0 <? n then llen l0 else n) = m /\ 0 <= m <= llen l0 /\
            ltake (llen l0 - m) l0 = ltake (llen l0 - n) l0 /\
            ldrop (llen l0 - m) l0 = ldrop (llen l0 - n) l0) as (m & -> & Hm & <- & <-).
  { destruct (llen l0 <? n) eqn:E; zbool; eexists; (split; [done|]); (split; [lia|]); [|done].
    unfold ltake, ldrop. split; f_equal; lia. }
  zfalse (m <? 0). rewrite copyTail_ok by lia. cbn [obind].
  rewrite slice_ok by lia. cbn [obind]. eexists. split.
  - rewrite take_ge; [reflexivity|]. unfold ldrop, llen. rewrite length_drop. unfold llen in *. lia.
  - unfold ldrop. cbn [Z.to_nat drop]. rewrite Z.sub_0_r. by apply (pop_state now k s l0).
Qed.

Lemma LRange_value now k start stop s :
  store_wf s -> clean now s k ->
  LRange now k start stop s =
    Ret match listOf (view now s k) with
        | None => Fail ErrWrongType
        | Some (l, _) =>
            let lo := fst (clampRange start stop (llen l)) in
            let hi := snd (clampRange start stop (llen l)) in
            Ok (if hi <? lo then [] else ltake (hi + 1 - lo) (ldrop lo l))
        end.
Proof.
  intros Hs Hc. pose proof (list_key now s k Hs Hc) as Hk. unfold LRange.
  destruct (listOf (view now s k)) as [[l d]|] eqn:Hl; [|by destruct Hk as (_ & _ & ->)].
  destruct Hk as (_ & _ & _ & _ & _ & ->).
  replace (default [] match l with [] => None | _ :: _ => Some l end) with l by (by destruct l).
  destruct (Z.eqb_spec (llen l) 0) as [H0|H0].
  - apply llen_nil_inv in H0. subst l. unfold ldrop, ltake. rewrite drop_nil, take_nil.
    by destruct (_ <? _).
  - unfold clampRange. pose proof (llen_nonneg l). cbn [fst snd].
    set (lo := if (if start <? 0 then _ else _) <? 0 then _ else _).
    set (hi := if llen l <=? _ then _ else _).
    assert (0 <= lo /\ hi < llen l) as [? ?]
      by (subst lo hi; repeat case_match; zbool; lia).
    destruct (hi <? lo) eqn:E; [done|]. zbool. by rewrite slice_ok by lia.
Qed.

(** ** Removal loops *)

(** [remFirst n v l]: [l] without its first [n] occurrences of [v]. *)
Fixpoint remFirst (n : nat) (v : string) (l : list string) : list string :=
  match n, l with
  | S n', x :: l' => if decide (x = v) then remFirst n' v l' else x :: remFirst n v l'
  | _, _ => l
  end.

Lemma remFirst_0 v l : remFirst 0 v l = l.
Proof. by destruct l. Qed.

Lemma remHead_all v abs r l :
  remHead v 0 abs r l =
    (r + llen l - llen (filter (fun x => x <> v) l), filter (fun x => x <> v) l).
Proof.
  revert r. induction l as [|x l IH]; intros r; cbn [remHead].
  - cbn. f_equal. lia.
  - rewrite filter_cons. cbn [Z.eqb orb]. rewrite andb_true_r.
    destruct (decide (x = v)) as [->|Hx].
    + rewrite bool_decide_true, decide_False by tauto. rewrite IH. f_equal.
      unfold llen. cbn [length]. lia.
    + rewrite bool_decide_false, decide_True by tauto. rewrite IH. f_equal.
      unfold llen. cbn [length]. lia.
Qed.

Lemma remHead_some v count abs r l :
  count <> 0 -> 0 <= r ->
  remHead v count abs r l =
    (r + llen l - llen (remFirst (Z.to_nat (abs - r)) v l), remFirst (Z.to_nat (abs - r)) v l).
Proof.
  intros Hc. revert r. induction l as [|x l IH]; intros r Hr; cbn [remHead].
  - destruct (Z.to_nat (abs - r)); cbn; f_equal; lia.
  - zfalse (count =? 0). cbn [orb]. destruct (decide (x = v)) as [->|Hx].
    + rewrite bool_decide_true by done. cbn [andb]. destruct (r <? abs) eqn:E; zbool.
      * rewrite IH by lia. replace (Z.to_nat (abs - r)) with (S (Z.to_nat (abs - (r + 1)))) by lia.
        cbn [remFirst]. rewrite decide_True by done. f_equal. unfold llen. cbn [length]. lia.
      * rewrite IH by lia. replace (Z.to_nat (abs - r)) with O by lia. rewrite !remFirst_0.
        f_equal. unfold llen. cbn [length]. lia.
    + rewrite bool_decide_false by done. cbn [andb]. rewrite IH by lia.
      destruct (Z.to_nat (abs - r)) as [|m]; cbn [remFirst].
      * rewrite remFirst_0. f_equal. unfold llen. cbn [length]. lia.
      * rewrite decide_False by done. f_equal. unfold llen. cbn [length]. lia.
Qed.

(** The tail loop is the head loop on the reversed list. *)
Lemma remTail_remHead v abs r todo acc :
  remTail v abs r todo acc =
    (fst (remHead v (-1) abs r todo), rev (snd (remHead v (-1) abs r todo)) ++ acc).
Proof.
  revert r acc. induction todo as [|x todo IH]; intros r acc; [done|]. cbn [remTail remHead].
  change (-1 =? 0) with false. cbn [orb].
  destruct (bool_decide (x = v) && (r <? abs)); [apply IH|]. rewrite IH.
  destruct (remHead v (-1) abs r todo) as [n l']. cbn. by rewrite <- app_assoc.
Qed.

(** The list LREM leaves, by the sign of its count. *)
Definition lremSpec (count : Z) (v : string) (l : list string) : list string :=
  if count =? 0 then filter (fun x => x <> v) l
  else if 0 <? count then remFirst (Z.to_nat count) v l
  else rev (remFirst (Z.to_nat (- count)) v (rev l)).

Lemma LRem_loops count v l :
  minInt64 < count <= maxInt64 ->
  let abs := if count <? 0 then wrap64 (- count) else count in
  (if 0 <=? count then remHead v count abs 0 l else remTail v abs 0 (rev l) []) =
    (llen l - llen (lremSpec count v l), lremSpec count v l).
Proof.
  intros Hc. cbv zeta. unfold lremSpec. destruct (count <? 0) eqn:E; zbool.
  - zfalse (0 <=? count). zfalse (count =? 0). zfalse (0 <? count).
    rewrite wrap64_id by (unfold int64_ok, minInt64, maxInt64 in *; lia).
    rewrite remTail_remHead, remHead_some by lia. cbn [fst snd].
    rewrite app_nil_r, Z.sub_0_r. f_equal. unfold llen. rewrite !length_rev. lia.
  - ztrue (0 <=? count). destruct (Z.eqb_spec count 0) as [->|H0].
    + rewrite remHead_all. f_equal; lia.
    + ztrue (0 <? count). rewrite remHead_some by lia. rewrite Z.sub_0_r. f_equal; lia.
Qed.

Lemma remFirst_length n v l : (length (remFirst n v l) <= length l)%nat.
Proof.
  revert n. induction l as [|x l IH]; intros [|n]; cbn; try lia.
  case_decide; cbn; [specialize (IH n)|specialize (IH (S n))]; lia.
Qed.

Lemma remFirst_same n v l : length (remFirst n v l) = length l -> remFirst n v l = l.
Proof.
  revert n. induction l as [|x l IH]; intros [|n]; cbn; try done.
  case_decide; cbn.
  - pose proof (remFirst_length n v l). lia.
  - intros [= H']. by rewrite IH.
Qed.

Lemma lremSpec_length count v l :
  llen (lremSpec count v l) <= llen l /\
  (llen (lremSpec count v l) = llen l -> lremSpec count v l = l).
Proof.
  unfold lremSpec, llen. destruct (count =? 0); [|destruct (0 <? count)].
  - induction l as [|x l IH]; [done|]. rewrite filter_cons.
    destruct (decide (x <> v)); cbn [length]; (split; [lia|]); [|lia].
    intros H. f_equal. apply IH. lia.
  - pose proof (remFirst_length (Z.to_nat count) v l). split; [lia|].
    intros H1. apply remFirst_same. lia.
  - pose proof (remFirst_length (Z.to_nat (- count)) v (rev l)) as H.
    rewrite !length_rev in *. split; [lia|]. intros H1. rewrite remFirst_same.
    + apply rev_involutive.
    + rewrite length_rev. lia.
Qed.

Lemma updates_refl now k s l d :
  store_wf s -> clean now s k -> listOf (view now s k) = Some (l, d) ->
  updates k (listEntry l d) s s.
Proof.
  intros Hs Hc Hl. pose proof (list_key now s k Hs Hc) as Hk. rewrite Hl in Hk.
  destruct Hk as (Hx & _ & Hd & _). apply list_write; [done|done|].
  intros k'. by case_decide as Hk'; [subst k'|].
Qed.

Lemma LRem_effect now k count v s :
  store_wf s -> clean now s k -> minInt64 < count <= maxInt64 ->
  match listOf (view now s k) with
  | None => LRem now k count v s = (Fail ErrWrongType, s)
  | Some (l, d) => exists s',
      LRem now k count v s = (Ok (llen l - llen (lremSpec count v l)), s') /\
      updates k (listEntry (lremSpec count v l) d) s s'
  end.
Proof.
  intros Hs Hc Hn. pose proof (list_key now s k Hs Hc) as Hk. unfold LRem.
  destruct (listOf (view now s k)) as [[l d]|] eqn:Hl; [|by destruct Hk as (_ & _ & ->)].
  destruct Hk as (Hx & _ & Hd & Hd0 & _ & ->). destruct l as [|x l].
  - exists s. assert (lremSpec count v [] = []) as ->
      by (apply llen_nil_inv; destruct (lremSpec_length count v []) as [H _];
          change (llen (A := string) []) with 0 in H;
          pose proof (llen_nonneg (lremSpec count v [])); lia).
    split; [done|]. by apply (updates_refl now).
  - set (l0 := x :: l) in *. rewrite LRem_loops by done.
    destruct (lremSpec_length count v l0) as [Hle Heq].
    destruct (0 <? _) eqn:E; zbool.
    + eexists. split; [reflexivity|]. apply updates_bump, list_write; [done|done|]. intros k'.
      destruct (lremSpec count v l0) as [|y r] eqn:Hr.
      * change (llen (A := string) [] =? 0) with true. cbv iota. by apply (cell_list_drop s k l0 d).
      * unfold llen at 1. cbn [length]. zfalse (Z.of_nat (S (length r)) =? 0).
        by apply (cell_list_write s k l0).
    + exists s. split; [done|]. rewrite Heq by lia. by apply (updates_refl now).
Qed.

(** ** LMOVE *)

Lemma takeEnd_ok left l :
  l <> [] ->
  exists e rest, takeEnd left l = Ret (e, rest) /\
    l = if left then e :: rest else rest ++ [e].
Proof.
  intros Hl. destruct left; unfold takeEnd.
  - destruct l as [|x l]; [done|]. exists x, l. split; [|done].
    destruct (index_ok (E := Empty_set) (x :: l) 0) as (a & Ha & ->);
      [unfold llen; cbn [length]; lia|].
    cbn in Ha. injection Ha as <-. cbn [obind]. unfold llen.
    rewrite slice_ok by (unfold llen; cbn [length]; lia). cbn [obind]. do 3 f_equal.
    unfold ltake, ldrop. change (Z.to_nat 1) with 1%nat. cbn [drop].
    rewrite drop_0, take_ge; [done|]. cbn [length]. lia.
  - destruct (exists_last Hl) as (r & e & ->). exists e, r. split; [|done].
    rewrite llen_app. change (llen [e]) with 1.
    destruct (index_ok (E := Empty_set) (r ++ [e]) (llen r + 1 - 1)) as (a & Ha & ->);
      [rewrite llen_app; change (llen [e]) with 1; pose proof (llen_nonneg r); lia|].
    replace (Z.to_nat (llen r + 1 - 1)) with (length r) in Ha by (unfold llen; lia).
    rewrite list_lookup_middle in Ha by done. injection Ha as <-. cbn [obind].
    rewrite slice_ok by (rewrite ?llen_app; pose proof (llen_nonneg r);
                         change (llen [e]) with 1; lia).
    cbn [obind]. do 3 f_equal. unfold ldrop. cbn [Z.to_nat drop].
    replace (llen r + 1 - 1 - 0) with (llen r) by lia. apply ltake_app_llen.
Qed.

Definition addEnd (left : bool) (e : string) (l : list string) : list string :=
  if left then e :: l else l ++ [e].

(** The keyspace after LMOVE took [e] from [src], leaving [rest] there with the
    deadline [d], and added it to the list [l2] of [dst]. *)
Lemma LMove_effect now src dst sl dl s l d l2 d2 :
  store_wf s -> clean now s src -> clean now s dst -> src <> dst -> l <> [] ->
  listOf (view now s src) = Some (l, d) -> listOf (view now s dst) = Some (l2, d2) ->
  exists e rest s', l = addEnd sl e rest /\
    LMove now src dst sl dl s = Ret (Ok (Some e), s') /\ store_wf s' /\
    forall t k', view t s' k' =
      ks_put dst (optSeen t (listEntry (addEnd dl e l2) d2))
        (ks_put src (optSeen t (listEntry rest d)) (view t s)) k'.
Proof.
  intros Hs Hc1 Hc2 Hne Hl H1 H2.
  pose proof (list_key now s src Hs Hc1) as Hk. rewrite H1 in Hk.
  destruct Hk as (_ & Hsrc & _). unfold LMove.
  rewrite (decide_False (P := typeOf now src s <> TNone /\ _)) by (by eapply push_type).
  rewrite (decide_False (P := typeOf now dst s <> TNone /\ _)) by (by eapply push_type).
  rewrite Hsrc. destruct (takeEnd_ok sl l Hl) as (e & rest & -> & He).
  destruct (Z.eqb_spec (llen l) 0) as [H0|_]; [by apply llen_nil_inv in H0|]. cbn [obind].
  pose proof (list_key now s src Hs Hc1) as Hk. rewrite H1 in Hk.
  destruct Hk as (Hx & _ & Hd & Hd0 & _).
  pose proof (fun k' => cell_putList s src l d rest k' Hx Hd0) as Hput.
  destruct (list_write s (putList src rest s) src d rest Hs Hd Hput) as [Hw Hv].
  set (s1 := putList src rest s) in *.
  assert (forall t, view t s1 dst = view t s dst) as Hvd.
  { intros t. rewrite Hv. unfold ks_put. by rewrite decide_False. }
  assert (clean now s1 dst) as Hc3.
  { intros Hn. rewrite Hput. rewrite decide_False by done. apply Hc2. by rewrite <- Hvd. }
  assert (listOf (view now s1 dst) = Some (l2, d2)) as H3 by (by rewrite Hvd).
  pose proof (list_key now s1 dst Hw Hc3) as Hk2. rewrite H3 in Hk2.
  destruct Hk2 as (_ & Hdst & _). rewrite Hdst.
  destruct (push_effect now dst s1 l2 d2 (addEnd dl e l2) Hw Hc3 H3) as [Hw2 Hv2];
    [by destruct dl; [|intros [_ ?]%app_nil]|].
  eexists e, rest, _. split; [done|]. split; [reflexivity|].
  split; [exact Hw2|].
  intros t k'. etransitivity; [exact (Hv2 t k')|]. unfold ks_put.
  case_decide; [done|]. by rewrite Hv.
Qed.

(** ** LINSERT, LSET, LTRIM, LINDEX *)

Lemma findPivot_spec pivot l i :
  (findPivot pivot l i = (-1) /\ (pivot ∉ l)) \/
  exists l1 l2, l = l1 ++ pivot :: l2 /\ (pivot ∉ l1) /\ findPivot pivot l i = i + llen l1.
Proof.
  revert i. induction l as [|x l IH]; intros i; cbn [findPivot].
  - left. split; [done|]. apply not_elem_of_nil.
  - case_decide as Hx.
    + subst x. right. exists [], l. split_and!; [done|apply not_elem_of_nil|]. unfold llen. cbn [length]. lia.
    + destruct (IH (i + 1)) as [[-> Hn]|(l1 & l2 & -> & Hn & ->)].
      * left. split; [done|]. by rewrite not_elem_of_cons.
      * right. exists (x :: l1), l2. split_and!; [done|by rewrite not_elem_of_cons|].
        unfold llen. cbn [length]. lia.
Qed.

Lemma LInsert_effect now k before pivot v s :
  store_wf s -> clean now s k ->
  match listOf (view now s k) with
  | None => LInsert now k before pivot v s = Ret (Fail ErrWrongType, s)
  | Some ([], _) => LInsert now k before pivot v s = Ret (Ok 0, s)
  | Some (l, d) =>
      ((pivot ∉ l) /\ LInsert now k before pivot v s = Ret (Ok (-1), s)) \/
      exists l1 l2 s', l = l1 ++ pivot :: l2 /\ (pivot ∉ l1) /\
        LInsert now k before pivot v s = Ret (Ok (llen l + 1), s') /\
        updates k (listEntry (l1 ++ (if before then [v; pivot] else [pivot; v]) ++ l2) d) s s'
  end.
Proof.
  intros Hs Hc. pose proof (list_key now s k Hs Hc) as Hk. unfold LInsert.
  destruct (listOf (view now s k)) as [[l d]|] eqn:Hl.
  2:{ destruct Hk as (H1 & H2 & _). by rewrite decide_False, decide_True by done. }
  destruct Hk as (_ & -> & _ & _ & Ht & _). rewrite Ht.
  destruct l as [|x l]; [done|]. rewrite decide_False by done.
  rewrite decide_False by (intros H; by apply H). set (l0 := x :: l) in *.
  destruct (findPivot_spec pivot l0 0) as [[-> Hn]|(l1 & l2 & H0 & Hn & ->)]; [by left|].
  right. exists l1, l2. pose proof (llen_nonneg l1). zfalse (0 + llen l1 <? 0).
  assert (llen l0 = llen l1 + 1 + llen l2) as Hlen
    by (rewrite H0; unfold llen; rewrite length_app; cbn [length]; lia).
  pose proof (llen_nonneg l2).
  assert (exists pos front back, (if negb before then 0 + llen l1 + 1 else 0 + llen l1) = pos /\
      0 <= pos <= llen l0 /\ l0 = front ++ back /\ llen front = pos /\
      front ++ v :: back = l1 ++ (if before then [v; pivot] else [pivot; v]) ++ l2)
    as (pos & front & back & -> & Hp & Hfb & Hlf & <-).
  { destruct before; cbn [negb].
    - exists (0 + llen l1), l1, (pivot :: l2). split_and!; try done; lia.
    - exists (0 + llen l1 + 1), (l1 ++ [pivot]), l2.
      rewrite llen_app, <- !app_assoc. cbn. split_and!; try done; try lia. }
  rewrite !slice_ok by lia. cbn [obind].
  rewrite Hfb, <- Hlf. rewrite Z.sub_0_r, ldrop_0, ltake_app_llen, ldrop_app_llen.
  replace (ltake _ back) with back
    by (unfold ltake; rewrite take_ge; [done|rewrite llen_app; unfold llen; lia]).
  eexists. split; [by rewrite <- Hfb|]. split; [done|].
  split; [|eapply push_effect; try done; by intros [_ ?]%app_nil].
  do 4 f_equal. unfold llen. rewrite !length_app. cbn [length]. lia.
Qed.

Lemma normaliseIndex_range i n : 0 <= n -> -1 <= normaliseIndex i n < n \/ normaliseIndex i n = -1.
Proof. intros. unfold normaliseIndex. repeat case_match; zbool; try lia. Qed.

Lemma LIndex_value now k i s :
  store_wf s -> clean now s k ->
  LIndex now k i s =
    Ret match listOf (view now s k) with
        | None => Fail ErrWrongType
        | Some (l, _) =>
            let j := normaliseIndex i (llen l) in
            Ok (if j <? 0 then None else l !! Z.to_nat j)
        end.
Proof.
  intros Hs Hc. pose proof (list_key now s k Hs Hc) as Hk. unfold LIndex.
  destruct (listOf (view now s k)) as [[l d]|] eqn:Hl; [|by destruct Hk as (_ & _ & ->)].
  destruct Hk as (_ & _ & _ & _ & _ & ->).
  replace (default [] match l with [] => None | _ :: _ => Some l end) with l by (by destruct l).
  destruct (_ <? 0) eqn:E; [done|]. zbool.
  destruct (normaliseIndex_range i (llen l)) as [Hr|Hr]; [apply llen_nonneg| |lia].
  destruct (index_ok (E := Empty_set) l (normaliseIndex i (llen l))) as (a & Ha & ->); [lia|].
  cbn [obind]. by rewrite Ha.
Qed.

Lemma LSet_effect now k i v s :
  store_wf s -> clean now s k ->
  match listOf (view now s k) with
  | None => LSet now k i v s = (Fail ErrWrongType, s)
  | Some ([], _) => LSet now k i v s = (Fail ErrNoSuchKey, s)
  | Some (l, d) =>
      let j := normaliseIndex i (llen l) in
      if j <? 0 then LSet now k i v s = (Fail ErrIndexOutOfRange, s)
      else exists s', LSet now k i v s = (Ok tt, s') /\
             updates k (listEntry (<[Z.to_nat j := v]> l) d) s s'
  end.
Proof.
  intros Hs Hc. pose proof (list_key now s k Hs Hc) as Hk. unfold LSet.
  destruct (listOf (view now s k)) as [[l d]|] eqn:Hl.
  2:{ destruct Hk as (H1 & H2 & _). by rewrite decide_False, decide_True by done. }
  destruct Hk as (_ & -> & _ & _ & Ht & _). rewrite Ht.
  destruct l as [|x l]; [done|]. rewrite decide_False by done.
  rewrite decide_False by (intros H; by apply H). cbv zeta.
  destruct (normaliseIndex i _ <? 0); [done|].
  eexists. split; [done|]. eapply push_effect; try done. by destruct (Z.to_nat _).
Qed.

Lemma LTrim_effect now k start stop s :
  store_wf s -> clean now s k ->
  match listOf (view now s k) with
  | None => LTrim now k start stop s = Ret (Fail ErrWrongType, s)
  | Some (l, d) => exists s' r, LTrim now k start stop s = Ret (Ok tt, s') /\
      LRange now k start stop s = Ret (Ok r) /\ updates k (listEntry r d) s s'
  end.
Proof.
  intros Hs Hc. pose proof (list_key now s k Hs Hc) as Hk.
  rewrite (LRange_value now k start stop s Hs Hc). unfold LTrim.
  destruct (listOf (view now s k)) as [[l d]|] eqn:Hl.
  2:{ destruct Hk as (H1 & H2 & _). by rewrite decide_False, decide_True by done. }
  destruct Hk as (Hx & -> & Hd & Hd0 & Ht & _). rewrite Ht. destruct l as [|x l].
  - rewrite decide_True by done. eexists s, _. split; [done|]. split; [done|].
    unfold ldrop, ltake. rewrite drop_nil, take_nil.
    destruct (_ <? _); by apply (updates_refl now).
  - rewrite decide_False by done. rewrite decide_False by (intros H; by apply H).
    set (l0 := x :: l) in *. pose proof (llen_nonneg l0).
    assert (0 <= fst (clampRange start stop (llen l0)) /\
            snd (clampRange start stop (llen l0)) < llen l0) as [Hlo Hhi].
    { unfold clampRange. cbn. repeat case_match; zbool; unfold l0, llen in *;
        cbn [length] in *; lia. }
    destruct (clampRange start stop (llen l0)) as [lo hi]. cbn [fst snd] in *.
    destruct (hi <? lo) eqn:E; zbool; eexists _, _.
    + split; [reflexivity|]. split; [done|]. apply updates_bump, list_write; [done|done|].
      intros k'. by apply (cell_list_drop s k l0 d).
    + rewrite slice_ok by lia. split; [reflexivity|]. split; [done|].
      eapply push_effect; try done. intros Hn.
      assert (llen (ltake (hi + 1 - lo) (ldrop lo l0)) = hi + 1 - lo) as Hlen
        by (apply llen_ltake; rewrite llen_ldrop; lia).
      rewrite Hn in Hlen. change (llen (A := string) []) with 0 in Hlen. lia.
Qed.

(** ** Properties *)

(** LPUSH and RPUSH: on an absent key or a list they put the values at the
    head (last argument first) or at the tail, keep the deadline, reply the new
    length and touch no other key; on another type they fail and change
    nothing. *)
Theorem push_correct now key values s :
  store_wf s -> clean now s key -> values <> [] ->
  match listOf (view now s key) with
  | None => LPush now key values s = (Fail ErrWrongType, s) /\
            RPush now key values s = (Fail ErrWrongType, s)
  | Some (l, d) =>
      (exists s', LPush now key values s = (Ok (llen values + llen l), s') /\
         updates key (listEntry (rev values ++ l) d) s s') /\
      (exists s', RPush now key values s = (Ok (llen l + llen values), s') /\
         updates key (listEntry (l ++ values) d) s s')
  end.
Proof.
  intros Hs Hc Hv. pose proof (LPush_effect now key values s Hs Hc Hv) as H1.
  pose proof (RPush_effect now key values s Hs Hc Hv) as H2.
  by destruct (listOf (view now s key)) as [[l d]|].
Qed.

Lemma push_correct_witness :
  exists s', LPush 10 "l" ["x"; "y"] sampleStore = (Ok 4, s') /\
    view 10 s' "l" = Some (VList ["y"; "x"; "a"; "b"], Some 1000).
Proof.
  pose proof (push_correct 10 "l" ["x"; "y"] sampleStore sampleStore_wf (sampleStore_clean "l"))
    as H.
  destruct H as [(s' & HL & _ & Hv) _]; [done|]. exists s'. split; [exact HL|].
  rewrite Hv. reflexivity.
Defined.

(** C33: LPOP n removes and returns the first n elements, RPOP n the last n (in list
    order); an emptied list disappears, a missing key gives nil, another type an
    error; neither panics for a count that is not negative. *)
Theorem pop_correct now key n s :
  store_wf s -> clean now s key -> 0 <= n ->
  match listOf (view now s key) with
  | None => LPop now key n s = Ret (Fail ErrWrongType, s) /\
            RPop now key n s = Ret (Fail ErrWrongType, s)
  | Some ([], _) => LPop now key n s = Ret (Ok None, s) /\ RPop now key n s = Ret (Ok None, s)
  | Some (l, d) =>
      (exists s', LPop now key n s = Ret (Ok (Some (ltake n l)), s') /\
         updates key (listEntry (ldrop n l) d) s s') /\
      (exists s', RPop now key n s = Ret (Ok (Some (ldrop (llen l - n) l)), s') /\
         updates key (listEntry (ltake (llen l - n) l) d) s s')
  end.
Proof.
  intros Hs Hc Hn. pose proof (LPop_effect now key n s Hs Hc Hn) as H1.
  pose proof (RPop_effect now key n s Hs Hc Hn) as H2.
  by destruct (listOf (view now s key)) as [[[|x l] d]|].
Qed.

Lemma pop_correct_witness :
  exists s', RPop 10 "l" 1 sampleStore = Ret (Ok (Some ["b"]), s') /\
    view 10 s' "l" = Some (VList ["a"], Some 1000).
Proof.
  pose proof (pop_correct 10 "l" 1 sampleStore sampleStore_wf (sampleStore_clean "l")) as H.
  destruct H as [_ (s' & HR & _ & Hv)]; [done|]. exists s'. split; [exact HR|].
  rewrite Hv. reflexivity.
Defined.

(** Popping as many elements as were just pushed on the same side returns them
    and gives back the keyspace as it was, TTL included. *)
Theorem push_pop_roundtrip now key values s s' n :
  store_wf s -> clean now s key -> values <> [] -> LPush now key values s = (Ok n, s') ->
  exists s'', LPop now key (llen values) s' = Ret (Ok (Some (rev values)), s'') /\
    store_wf s'' /\ forall t k, view t s'' k = view t s k.
Proof.
  intros Hs Hc Hv HL. pose proof (LPush_effect now key values s Hs Hc Hv) as H.
  destruct (listOf (view now s key)) as [[l d]|] eqn:Hl; [|congruence].
  destruct H as (s1 & HL' & Hw & Hview). rewrite HL in HL'. injection HL' as _ <-.
  assert (rev values ++ l <> []) as Hne
    by (intros [H _]%app_nil; apply Hv; by rewrite <- (rev_involutive values), H).
  assert (seen now (VList l, d) = Some (VList l, d) \/ l = [] /\ d = None) as Hseen.
  { destruct (view now s key) as [[[] d']|] eqn:E; simplify_eq/=; [left|by right].
    exact (view_live _ _ _ _ _ Hs E). }
  assert (view now s' key = Some (VList (rev values ++ l), d)) as Hk.
  { rewrite Hview. unfold ks_put. rewrite decide_True by done.
    destruct (rev values ++ l) eqn:E; [done|]. cbn. destruct Hseen as [Hseen|[_ ->]]; [|done].
    revert Hseen. unfold seen. cbn. by destruct d as [d|]; [destruct (d <? now)|]. }
  assert (clean now s' key) as Hc' by (intros Hn; congruence).
  pose proof (LPop_effect now key (llen values) s' Hw Hc' (llen_nonneg _)) as HP.
  rewrite Hk in HP. cbn [listOf] in HP.
  destruct (rev values ++ l) as [|x r] eqn:E; [done|]. rewrite <- E in HP.
  destruct HP as (s2 & HP & Hw2 & Hv2). exists s2.
  assert (llen values = llen (rev values)) as Hlen by (unfold llen; by rewrite length_rev).
  rewrite Hlen, ltake_app_llen in HP. rewrite <- Hlen in HP. rewrite Hlen, ldrop_app_llen in Hv2.
  split; [done|]. split; [done|]. intros t k.
  rewrite Hv2. unfold ks_put. case_decide as Hkk.
  - subst k. pose proof (list_key now s key Hs Hc) as Hx. rewrite Hl in Hx.
    destruct Hx as (Hx & _ & Hd & _). unfold view. rewrite Hx.
    destruct l; cbn [listEntry optSeen optCell]; [done|].
    by rewrite cellView_entryCell.
  - rewrite Hview. unfold ks_put. by rewrite decide_False.
Qed.

Lemma push_pop_roundtrip_witness :
  exists s' s'', LPush 10 "l" ["x"; "y"] sampleStore = (Ok 4, s') /\
    LPop 10 "l" 2 s' = Ret (Ok (Some ["y"; "x"]), s'') /\
    view 500 s'' "l" = view 500 sampleStore "l".
Proof.
  destruct (push_pop_roundtrip 10 "l" ["x"; "y"] sampleStore
              (snd (LPush 10 "l" ["x"; "y"] sampleStore)) 4 sampleStore_wf
              (sampleStore_clean "l")) as (s'' & HP & _ & Hv); [done|reflexivity|].
  eexists _, s''. split; [reflexivity|]. split; [exact HP|]. apply Hv.
Defined.

(** The position a client's index denotes: negative counts from the tail. *)
Definition position (i n : Z) : Z := if i <? 0 then n + i else i.

(** C34: LRANGE returns exactly the elements whose positions lie between the two
    indices (negative ones counted from the tail), in order, whatever the indices
    are, and never panics. *)
Theorem LRange_correct now key start stop s l d :
  store_wf s -> clean now s key -> listOf (view now s key) = Some (l, d) ->
  exists r, LRange now key start stop s = Ret (Ok r) /\
    forall j : nat, r !! j =
      let i := Z.max 0 (position start (llen l)) + Z.of_nat j in
      if i <=? position stop (llen l) then l !! Z.to_nat i else None.
Proof.
  intros Hs Hc Hl. rewrite (LRange_value now key start stop s Hs Hc), Hl. cbv zeta.
  unfold clampRange. cbn [fst snd]. fold (position start (llen l)) (position stop (llen l)).
  set (a := position start (llen l)). set (b := position stop (llen l)).
  replace (if a <? 0 then 0 else a) with (Z.max 0 a) by (destruct (a <? 0) eqn:?; zbool; lia).
  eexists. split; [reflexivity|]. intros j. unfold llen in *.
  destruct (_ <? Z.max 0 a) eqn:E.
  - rewrite lookup_nil. destruct (Z.max 0 a + Z.of_nat j <=? b) eqn:E2; [|done]. symmetry. apply lookup_ge_None_2.
    destruct (Z.of_nat (length l) <=? b) eqn:E3; zbool; lia.
  - unfold ltake, ldrop. zbool. destruct (Z.of_nat (length l) <=? b) eqn:E3; zbool.
    + destruct (decide (Z.max 0 a + Z.of_nat j < Z.of_nat (length l))).
      * ztrue (Z.max 0 a + Z.of_nat j <=? b). rewrite lookup_take_lt, lookup_drop by lia.
        f_equal. lia.
      * rewrite lookup_take_ge by lia. destruct (Z.max 0 a + Z.of_nat j <=? b); [|done].
        symmetry. apply lookup_ge_None_2. lia.
    + destruct (Z.max 0 a + Z.of_nat j <=? b) eqn:E4; zbool.
      * rewrite lookup_take_lt, lookup_drop by lia. f_equal. lia.
      * by rewrite lookup_take_ge by lia.
Qed.

Lemma LRange_correct_witness : LRange 10 "l" (-1) 100 sampleStore = Ret (Ok ["b"]).
Proof.
  destruct (LRange_correct 10 "l" (-1) 100 sampleStore ["a"; "b"] (Some 1000) sampleStore_wf
              (sampleStore_clean "l") eq_refl) as (r & -> & H).
  do 2 f_equal. apply list_eq. intros [|[|j]]; [by rewrite H..|]. rewrite H. cbv zeta.
  destruct (_ <=? _); [|done]. rewrite lookup_ge_None_2; [done|].
  change (position (-1) (llen ["a"; "b"])) with 1. cbn [length]. lia.
Defined.

(** LREM count v removes the first count occurrences of v, the last -count ones,
    or all of them, by the sign of count, keeps the order and deadline of the
    rest, and replies the number removed. *)
Theorem LRem_correct now key count v s :
  store_wf s -> clean now s key -> minInt64 < count <= maxInt64 ->
  match listOf (view now s key) with
  | None => LRem now key count v s = (Fail ErrWrongType, s)
  | Some (l, d) => exists s' l',
      l' = (if count =? 0 then filter (fun x => x <> v) l
            else if 0 <? count then remFirst (Z.to_nat count) v l
            else rev (remFirst (Z.to_nat (- count)) v (rev l))) /\
      LRem now key count v s = (Ok (llen l - llen l'), s') /\
      updates key (listEntry l' d) s s'
  end.
Proof.
  intros Hs Hc Hn. pose proof (LRem_effect now key count v s Hs Hc Hn) as H.
  destruct (listOf (view now s key)) as [[l d]|]; [|done]. destruct H as (s' & H1 & H2).
  by exists s', (lremSpec count v l).
Qed.

Lemma LRem_correct_witness :
  exists s', LRem 10 "l" (-1) "b" sampleStore = (Ok 1, s') /\
    view 10 s' "l" = Some (VList ["a"], Some 1000).
Proof.
  pose proof (LRem_correct 10 "l" (-1) "b" sampleStore sampleStore_wf (sampleStore_clean "l"))
    as H.
  destruct H as (s' & l' & -> & HR & _ & Hv); [done|]. exists s'. split; [exact HR|].
  rewrite Hv. reflexivity.
Defined.

(** LTRIM leaves exactly the elements LRANGE would have returned; LINSERT puts
    the value right before or after the first pivot and is -1 without one; LSET
    replaces the element LINDEX reads. *)
Theorem edit_correct now key s l d :
  store_wf s -> clean now s key -> listOf (view now s key) = Some (l, d) -> l <> [] ->
  (forall start stop, exists s' r, LTrim now key start stop s = Ret (Ok tt, s') /\
     LRange now key start stop s = Ret (Ok r) /\ updates key (listEntry r d) s s') /\
  (forall before pivot v,
     ((pivot ∉ l) /\ LInsert now key before pivot v s = Ret (Ok (-1), s)) \/
     exists l1 l2 s', l = l1 ++ pivot :: l2 /\ (pivot ∉ l1) /\
       LInsert now key before pivot v s = Ret (Ok (llen l + 1), s') /\
       updates key (listEntry (l1 ++ (if before then [v; pivot] else [pivot; v]) ++ l2) d) s s') /\
  (forall i v,
     (LIndex now key i s = Ret (Ok None) /\ LSet now key i v s = (Fail ErrIndexOutOfRange, s)) \/
     exists s' j old, LIndex now key i s = Ret (Ok (Some old)) /\ l !! j = Some old /\
       LSet now key i v s = (Ok tt, s') /\ updates key (listEntry (<[j := v]> l) d) s s').
Proof.
  intros Hs Hc Hl Hne. split_and!.
  - intros start stop. pose proof (LTrim_effect now key start stop s Hs Hc) as H.
    by rewrite Hl in H.
  - intros before pivot v. pose proof (LInsert_effect now key before pivot v s Hs Hc) as H.
    rewrite Hl in H. by destruct l.
  - intros i v. pose proof (LSet_effect now key i v s Hs Hc) as H.
    rewrite (LIndex_value now key i s Hs Hc), Hl in *. destruct l as [|x l]; [done|].
    cbv zeta in *. destruct (_ <? 0) eqn:E; [by left|]. right. destruct H as (s' & H1 & H2).
    zbool. destruct (normaliseIndex_range i (llen (x :: l))) as [Hr|Hr];
      [apply llen_nonneg| |lia].
    destruct (lookup_lt_is_Some_2 (x :: l) (Z.to_nat (normaliseIndex i (llen (x :: l)))))
      as [old Ho]; [unfold llen in *; lia|].
    eexists s', _, old. split; [by rewrite Ho|]. done.
Qed.

Lemma edit_correct_witness :
  exists s', LTrim 10 "l" 1 (-1) sampleStore = Ret (Ok tt, s') /\
    view 10 s' "l" = Some (VList ["b"], Some 1000).
Proof.
  destruct (edit_correct 10 "l" sampleStore ["a"; "b"] (Some 1000) sampleStore_wf
              (sampleStore_clean "l") eq_refl) as (H & _ & _); [done|].
  destruct (H 1 (-1)) as (s' & r & HT & HL & _ & Hv). exists s'. split; [done|].
  rewrite Hv. assert (r = ["b"]) as -> by (vm_compute in HL; congruence). reflexivity.
Defined.

(** LMOVE between different lists moves one element from the chosen end of the
    source to the chosen end of the destination; nothing is lost or duplicated,
    deadlines stay with their keys, an emptied source disappears. *)
Theorem LMove_correct now src dst srcLeft dstLeft s l d l2 d2 :
  store_wf s -> clean now s src -> clean now s dst -> src <> dst -> l <> [] ->
  listOf (view now s src) = Some (l, d) -> listOf (view now s dst) = Some (l2, d2) ->
  exists e rest s', l = addEnd srcLeft e rest /\
    LMove now src dst srcLeft dstLeft s = Ret (Ok (Some e), s') /\ store_wf s' /\
    forall t k', view t s' k' =
      ks_put dst (optSeen t (listEntry (addEnd dstLeft e l2) d2))
        (ks_put src (optSeen t (listEntry rest d)) (view t s)) k'.
Proof. apply LMove_effect. Qed.

Lemma LMove_correct_witness :
  exists s', LMove 10 "l" "new" true false sampleStore = Ret (Ok (Some "a"), s') /\
    view 10 s' "l" = Some (VList ["b"], Some 1000) /\ view 10 s' "new" = Some (VList ["a"], None).
Proof.
  destruct (LMove_correct 10 "l" "new" true false sampleStore ["a"; "b"] (Some 1000) [] None
              sampleStore_wf (sampleStore_clean "l") (sampleStore_clean "new"))
    as (e & rest & s' & Hl & HM & _ & Hv); try done.
  injection Hl as <- <-. exists s'. rewrite !Hv. split; [done|]. split; reflexivity.
Defined.

(** Rotating a one-element list onto itself drops its deadline. *)
Theorem LMove_self_drops_ttl :
  let s := mkStore ∅ ∅ {[ "l" := ["a"] ]} ∅ ∅ {[ "l" := 1000 ]} ∅ in
  view 10 s "l" = Some (VList ["a"], Some 1000) /\
  exists s', LMove 10 "l" "l" true false s = Ret (Ok (Some "a"), s') /\
    view 10 s' "l" = Some (VList ["a"], None).
Proof. split; [reflexivity|]. eexists. split; reflexivity. Qed.
