(* ===== verification/Sets.v ===== *)
(** * Sets (internal/storage/memory.go, set operations)

    A Go map ranged over gives its members in an unspecified order: the lists
    below are in the order of [elements].  The random choices of SRANDMEMBER and
    SPOP are the parameters [shuffle] and [intN], which stand for [math/rand/v2]. *)

From S2P Require Import Prelude GoLib Glob Store Keyspace.
Open Scope go_scope.

(** ** Operations *)

(** [None] is the nil map of an absent key. *)
Definition getSet (now : Time) (key : string) (s : MemoryStore) : result (option (gset string)) :=
  let t := typeOf now key s in
  if decide (t = TNone) then Ok None
  else if decide (t <> TSet) then Fail ErrWrongType
  else Ok (sets s !! key).

(** The loop of [SAdd]: the set and the number of members that were new. *)
Fixpoint addMembers (members : list string) (st : gset string) : Z * gset string :=
  match members with
  | [] => (0, st)
  | m :: ms =>
      if decide (m ∈ st) then addMembers ms st
      else let '(n, st') := addMembers ms ({[m]} ∪ st) in (n + 1, st')
  end.

Definition SAdd (now : Time) (key : string) (members : list string) (s : MemoryStore)
    : result Z * MemoryStore :=
  let t := typeOf now key s in
  if decide (t <> TNone /\ t <> TSet) then (Fail ErrWrongType, s)
  else
    let '(added, st) := addMembers members (default ∅ (sets s !! key)) in
    let s := set_sets (<[key := st]> (sets s)) s in
    (Ok added, bumpVersion key s).

Fixpoint remMembers (members : list string) (st : gset string) : Z * gset string :=
  match members with
  | [] => (0, st)
  | m :: ms =>
      if decide (m ∈ st) then
        let '(n, st') := remMembers ms (st ∖ {[m]}) in (n + 1, st')
      else remMembers ms st
  end.

(** [delete(s.sets, key); delete(s.keyExpiry, key)] *)
Definition dropSet (key : string) (s : MemoryStore) : MemoryStore :=
  set_keyExpiry (delete key (keyExpiry s)) (set_sets (delete key (sets s)) s).

(** The in-place change of the set under [key] to [st], dropped when empty. *)
Definition putSet (key : string) (st : gset string) (s : MemoryStore) : MemoryStore :=
  let s := set_sets (<[key := st]> (sets s)) s in
  if decide (size st = 0%nat) then dropSet key s else s.

Definition SRem (now : Time) (key : string) (members : list string) (s : MemoryStore)
    : result Z * MemoryStore :=
  match getSet now key s with
  | Fail e => (Fail e, s)
  | Ok None => (Ok 0, s)
  | Ok (Some st) =>
      let '(n, st) := remMembers members st in
      (Ok n, bumpVersion key (putSet key st s))
  end.

Definition SMembers (now : Time) (key : string) (s : MemoryStore) : result (list string) :=
  match getSet now key s with
  | Fail e => Fail e
  | Ok st => Ok (elements (default ∅ st))
  end.

Definition SCard (now : Time) (key : string) (s : MemoryStore) : result Z :=
  match getSet now key s with
  | Fail e => Fail e
  | Ok st => Ok (Z.of_nat (size (default ∅ st)))
  end.

Definition SIsMember (now : Time) (key member : string) (s : MemoryStore) : result bool :=
  match getSet now key s with
  | Fail e => Fail e
  | Ok st => Ok (bool_decide (member ∈ default ∅ st))
  end.

Definition SMIsMember (now : Time) (key : string) (members : list string) (s : MemoryStore)
    : result (list Z) :=
  match getSet now key s with
  | Fail e => Fail e
  | Ok st => Ok ((fun m => if decide (m ∈ default ∅ st) then 1 else 0) <$> members)
  end.

(** The inner loop of [setInter]: is [m] in the sets of all the keys? *)
Fixpoint inAll (now : Time) (keys : list string) (m : string) (s : MemoryStore) : result bool :=
  match keys with
  | [] => Ok true
  | k :: keys' =>
      match getSet now k s with
      | Fail e => Fail e
      | Ok st => if decide (m ∈ default ∅ st) then inAll now keys' m s else Ok false
      end
  end.

Fixpoint interLoop (now : Time) (rest members : list string) (s : MemoryStore)
    : result (list string) :=
  match members with
  | [] => Ok []
  | m :: ms =>
      match inAll now rest m s with
      | Fail e => Fail e
      | Ok b =>
          match interLoop now rest ms s with
          | Fail e => Fail e
          | Ok r => Ok (if b then m :: r else r)
          end
      end
  end.

Definition setInter (now : Time) (keys : list string) (s : MemoryStore) : result (list string) :=
  match keys with
  | [] => Ok []
  | k0 :: rest =>
      match getSet now k0 s with
      | Fail e => Fail e
      | Ok None => Ok []
      | Ok (Some first) => interLoop now rest (elements first) s
      end
  end.

Definition SInter := setInter.

(** The [seen] map of [setUnion]. *)
Fixpoint unionLoop (now : Time) (keys : list string) (seen : gset string) (s : MemoryStore)
    : result (gset string) :=
  match keys with
  | [] => Ok seen
  | k :: keys' =>
      match getSet now k s with
      | Fail e => Fail e
      | Ok st => unionLoop now keys' (default ∅ st ∪ seen) s
      end
  end.

Definition setUnion (now : Time) (keys : list string) (s : MemoryStore) : result (list string) :=
  match unionLoop now keys ∅ s with
  | Fail e => Fail e
  | Ok seen => Ok (elements seen)
  end.

Definition SUnion := setUnion.

(** The inner loop of [setDiff]: is [m] in the set of one of the keys? *)
Fixpoint inOther (now : Time) (keys : list string) (m : string) (s : MemoryStore) : result bool :=
  match keys with
  | [] => Ok false
  | k :: keys' =>
      match getSet now k s with
      | Fail e => Fail e
      | Ok st => if decide (m ∈ default ∅ st) then Ok true else inOther now keys' m s
      end
  end.

Fixpoint diffLoop (now : Time) (rest members : list string) (s : MemoryStore)
    : result (list string) :=
  match members with
  | [] => Ok []
  | m :: ms =>
      match inOther now rest m s with
      | Fail e => Fail e
      | Ok b =>
          match diffLoop now rest ms s with
          | Fail e => Fail e
          | Ok r => Ok (if b then r else m :: r)
          end
      end
  end.

Definition setDiff (now : Time) (keys : list string) (s : MemoryStore) : result (list string) :=
  match keys with
  | [] => Ok []
  | k0 :: rest =>
      match getSet now k0 s with
      | Fail e => Fail e
      | Ok first => diffLoop now rest (elements (default ∅ first)) s
      end
  end.

Definition SDiff := setDiff.

(** What the three STORE methods do with the members they computed. *)
Definition storeMembers (dst : string) (members : list string) (s : MemoryStore) : MemoryStore :=
  let s := deleteKey dst s in
  match members with
  | [] => s
  | _ => bumpVersion dst (set_sets (<[dst := list_to_set members]> (sets s)) s)
  end.

Definition SInterStore (now : Time) (dst : string) (keys : list string) (s : MemoryStore)
    : result Z * MemoryStore :=
  match setInter now keys s with
  | Fail e => (Fail e, s)
  | Ok members => (Ok (llen members), storeMembers dst members s)
  end.

Definition SUnionStore (now : Time) (dst : string) (keys : list string) (s : MemoryStore)
    : result Z * MemoryStore :=
  match setUnion now keys s with
  | Fail e => (Fail e, s)
  | Ok members => (Ok (llen members), storeMembers dst members s)
  end.

Definition SDiffStore (now : Time) (dst : string) (keys : list string) (s : MemoryStore)
    : result Z * MemoryStore :=
  match setDiff now keys s with
  | Fail e => (Fail e, s)
  | Ok members => (Ok (llen members), storeMembers dst members s)
  end.

Section Random.

(** [rand.Shuffle] on a slice, and the [i]-th [rand.IntN(n)] of a call. *)
Context (shuffle : list string -> list string) (intN : nat -> Z -> Z).

(** [n] draws from [all], the [i]-th first. *)
Fixpoint draws (all : list string) (i n : nat) : may_panic (list string) :=
  match n with
  | O => Ret []
  | S n' =>
      if llen all <=? 0 then Panic
      else let! m := index all (intN i (llen all)) in
           let! r := draws all (S i) n' in
           Ret (m :: r)
  end.

Definition SRandMember (now : Time) (key : string) (count : Z) (s : MemoryStore)
    : may_panic (result (list string)) :=
  match getSet now key s with
  | Fail e => Ret (Fail e)
  | Ok None => Ret (Ok [])
  | Ok (Some st) =>
      let all := elements st in
      if count =? 0 then Ret (Ok [])
      else if 0 <? count then
        if llen all <=? count then Ret (Ok all)
        else let! r := slice (shuffle all) 0 count in Ret (Ok r)
      else
        let abs := wrap64 (- count) in
        if negb (make_ok abs 16) then Panic
        else let! r := draws all 0 (Z.to_nat abs) in Ret (Ok r)
  end.

Definition SPop (now : Time) (key : string) (count : Z) (s : MemoryStore)
    : may_panic (result (list string) * MemoryStore) :=
  match getSet now key s with
  | Fail e => Ret (Fail e, s)
  | Ok None => Ret (Ok [], s)
  | Ok (Some st) =>
      let all := elements st in
      if llen all <=? count then Ret (Ok all, bumpVersion key (dropSet key s))
      else
        let! result := slice (shuffle all) 0 count in
        let st := foldl (fun st m => st ∖ {[m]}) st result in
        let s := set_sets (<[key := st]> (sets s)) s in
        Ret (Ok result, bumpVersion key s)
  end.

End Random.

Definition SMove (now : Time) (src dst member : string) (s : MemoryStore)
    : result bool * MemoryStore :=
  let ts := typeOf now src s in
  if decide (ts <> TNone /\ ts <> TSet) then (Fail ErrWrongType, s)
  else
    let td := typeOf now dst s in
    if decide (td <> TNone /\ td <> TSet) then (Fail ErrWrongType, s)
    else
      match sets s !! src with
      | None => (Ok false, s)
      | Some srcSet =>
          if decide (member ∈ srcSet) then
            let s := putSet src (srcSet ∖ {[member]}) s in
            let d := default ∅ (sets s !! dst) in
            let s := set_sets (<[dst := {[member]} ∪ d]> (sets s)) s in
            (Ok true, bumpVersion dst (bumpVersion src s))
          else (Ok false, s)
      end.

(** ** Specification *)

(** The set a key stands for: an absent key is the empty set; [None] for a key of
    another type. *)
Definition setOf (e : option entry) : option (gset string * option Time) :=
  match e with
  | None => Some (∅, None)
  | Some (VSet st, d) => Some (st, d)
  | Some _ => None
  end.

Definition setEntry (st : gset string) (d : option Time) : option entry :=
  if decide (st = ∅) then None else Some (VSet st, d).

(** ** Lemmas *)

Lemma cell_put_set k st s k' :
  cell_of (set_sets (<[k := st]> (sets s)) s) k' =
    if decide (k = k') then
      mkCell (strings s !! k') (hashes s !! k') (lists s !! k') (Some st) (zsets s !! k')
        (keyExpiry s !! k')
    else cell_of s k'.
Proof. cell_simpl. by cell_cases. Qed.

Lemma cell_dropSet k s k' :
  cell_of (dropSet k s) k' =
    if decide (k = k') then
      mkCell (strings s !! k') (hashes s !! k') (lists s !! k') None (zsets s !! k') None
    else cell_of s k'.
Proof. cell_simpl. by cell_cases. Qed.

Lemma setEntry_empty d : setEntry ∅ d = None.
Proof. unfold setEntry. by rewrite decide_True. Qed.

Lemma setEntry_ne st d : st <> ∅ -> setEntry st d = Some (VSet st, d).
Proof. intros. unfold setEntry. by rewrite decide_False. Qed.

Lemma setEntry_ok st d x : d <> Some zeroTime -> setEntry st d = Some x -> entry_ok x.
Proof. intros Hd. unfold setEntry. case_decide; [done|]. by intros [= <-]. Qed.

(** How a set operation finds its key. *)
Lemma set_key now s k :
  store_wf s -> clean now s k ->
  match setOf (view now s k) with
  | None => typeOf now k s <> TNone /\ typeOf now k s <> TSet /\ getSet now k s = Fail ErrWrongType
  | Some (st, d) =>
      cell_of s k = optCell (setEntry st d) /\ default ∅ (sets s !! k) = st /\
      d <> Some zeroTime /\ (st = ∅ -> d = None) /\
      ~ (typeOf now k s <> TNone /\ typeOf now k s <> TSet) /\
      getSet now k s = Ok (if decide (st = ∅) then None else Some st) /\
      sets s !! k = (if decide (st = ∅) then None else Some st)
  end.
Proof.
  intros Hs Hc. unfold getSet.
  destruct (key_case_intro now s k TSet Hs Hc) as [Hv Ht Hx|v d Hv Hy Ht Hx Ho|v d Hv Hy Ht];
    rewrite Hv, Ht; cbn [setOf].
  - assert (sets s !! k = None) as -> by (change (cSet (cell_of s k) = None); by rewrite Hx).
    rewrite setEntry_empty. split_and!; tauto || done.
  - destruct v; try done. destruct Ho as [Hd Hl]. cbn in Hd, Hl.
    assert (sets s !! k = Some st) as -> by (change (cSet (cell_of s k) = Some st); by rewrite Hx).
    rewrite (setEntry_ne st d Hl), !(decide_False (P := st = ∅)) by done.
    split_and!; tauto || done.
  - destruct v; try done; cbn [valType]; rewrite decide_False by done;
      rewrite decide_True by done; done.
Qed.

Lemma cell_set_write s k st0 d st k' :
  cell_of s k = optCell (setEntry st0 d) -> (st0 = ∅ -> d = None) -> st <> ∅ ->
  cell_of (set_sets (<[k := st]> (sets s)) s) k' =
    if decide (k = k') then optCell (setEntry st d) else cell_of s k'.
Proof.
  intros Hc Hd Hl. rewrite cell_put_set. case_decide as Hk; [|done]. subst k'.
  unfold cell_of in Hc. rewrite (setEntry_ne st) by done. unfold setEntry in Hc.
  case_decide as H0; cbn in Hc |- *; unfold emptyCell in *; simplify_eq;
    [rewrite Hd by done|]; congruence.
Qed.

Lemma cell_set_drop s k st0 d k' :
  cell_of s k = optCell (setEntry st0 d) ->
  cell_of (dropSet k s) k' = if decide (k = k') then emptyCell else cell_of s k'.
Proof.
  intros Hc. rewrite cell_dropSet. case_decide as Hk; [|done]. subst k'.
  unfold cell_of in Hc. unfold emptyCell. unfold setEntry in Hc.
  case_decide; cbn in Hc; unfold emptyCell in *; simplify_eq; congruence.
Qed.

Lemma cell_putSet s k st0 d st k' :
  cell_of s k = optCell (setEntry st0 d) -> (st0 = ∅ -> d = None) ->
  cell_of (putSet k st s) k' =
    if decide (k = k') then optCell (setEntry st d) else cell_of s k'.
Proof.
  intros Hc Hd. unfold putSet. destruct (decide (st = ∅)) as [->|Hne].
  - rewrite decide_True by apply size_empty. rewrite setEntry_empty, cell_dropSet.
    case_decide as Hk.
    + subst k'. unfold cell_of in Hc. cbn. unfold setEntry in Hc.
      case_decide; cbn in Hc; unfold emptyCell in *; simplify_eq; congruence.
    + rewrite cell_put_set. by rewrite decide_False.
  - rewrite decide_False by (by rewrite size_empty_iff, leibniz_equiv_iff).
    by apply (cell_set_write s k st0).
Qed.

Lemma set_write s s' k d st :
  store_wf s -> d <> Some zeroTime ->
  (forall k', cell_of s' k' =
     if decide (k = k') then optCell (setEntry st d) else cell_of s k') ->
  updates k (setEntry st d) s s'.
Proof. intros Hs Hd H. apply write_key; [done|done|]. intros x. by apply setEntry_ok. Qed.

(** Writing back a set that is not empty, and one that may be. *)
Lemma set_put_effect now k s st0 d st :
  store_wf s -> clean now s k -> setOf (view now s k) = Some (st0, d) -> st <> ∅ ->
  updates k (setEntry st d) s (bumpVersion k (set_sets (<[k := st]> (sets s)) s)).
Proof.
  intros Hs Hc Hl Hne. pose proof (set_key now s k Hs Hc) as Hk. rewrite Hl in Hk.
  destruct Hk as (Hx & _ & Hd & Hd0 & _). apply updates_bump, set_write; [done|done|].
  intros k'. by apply (cell_set_write s k st0).
Qed.

Lemma set_putSet_effect now k s st0 d st :
  store_wf s -> clean now s k -> setOf (view now s k) = Some (st0, d) ->
  updates k (setEntry st d) s (putSet k st s).
Proof.
  intros Hs Hc Hl. pose proof (set_key now s k Hs Hc) as Hk. rewrite Hl in Hk.
  destruct Hk as (Hx & _ & Hd & Hd0 & _). apply set_write; [done|done|].
  intros k'. by apply (cell_putSet s k st0).
Qed.

(** The loops compute unions and differences and count the changes. *)
Lemma addMembers_spec ms st :
  addMembers ms st =
    (Z.of_nat (size (list_to_set ms ∪ st)) - Z.of_nat (size st), list_to_set ms ∪ st).
Proof.
  revert st. induction ms as [|m ms IH]; intros st; cbn [addMembers list_to_set].
  - rewrite union_empty_l_L. f_equal. lia.
  - case_decide as Hm; rewrite IH.
    + assert ({[m]} ∪ list_to_set ms ∪ st = list_to_set ms ∪ st) as -> by set_solver. done.
    + assert ({[m]} ∪ list_to_set ms ∪ st = list_to_set ms ∪ ({[m]} ∪ st)) as -> by set_solver.
      f_equal. rewrite (size_union {[m]} st), size_singleton by set_solver. lia.
Qed.

Lemma remMembers_spec ms st :
  remMembers ms st =
    (Z.of_nat (size st) - Z.of_nat (size (st ∖ list_to_set ms)), st ∖ list_to_set ms).
Proof.
  revert st. induction ms as [|m ms IH]; intros st; cbn [remMembers list_to_set].
  - rewrite difference_empty_L. f_equal. lia.
  - assert (st ∖ ({[m]} ∪ list_to_set ms) = st ∖ {[m]} ∖ list_to_set ms) as -> by set_solver.
    case_decide as Hm; rewrite IH.
    + f_equal. rewrite (size_difference st {[m]}), size_singleton by set_solver.
      assert (size st <> 0)%nat by (rewrite size_non_empty_iff; set_solver). lia.
    + assert (st ∖ {[m]} = st) as -> by set_solver. done.
Qed.

Lemma getSet_view now k s :
  store_wf s ->
  getSet now k s =
    match view now s k with
    | None => Ok None
    | Some (VSet st, _) => Ok (Some st)
    | Some _ => Fail ErrWrongType
    end.
Proof.
  intros Hs. unfold getSet. rewrite typeOf_view. destruct (view now s k) as [[v d]|] eqn:Hv; [|done].
  destruct (view_cell _ _ _ _ Hs Hv) as [Hc _].
  destruct v; cbn [valType]; rewrite ?decide_False by done; try (by rewrite decide_True by done).
  rewrite decide_False by (intros H; by apply H).
  by assert (sets s !! k = Some st) as -> by (change (cSet (cell_of s k) = Some st); by rewrite Hc).
Qed.

(** The members a client sees under a key, and the keys that can be read as sets. *)
Definition membersOf (now : Time) (s : MemoryStore) (k : string) : gset string :=
  match view now s k with Some (VSet st, _) => st | _ => ∅ end.

Definition readable (now : Time) (s : MemoryStore) (k : string) : Prop :=
  match view now s k with None | Some (VSet _, _) => True | _ => False end.

Lemma getSet_readable now k s :
  store_wf s -> readable now s k ->
  exists o, getSet now k s = Ok o /\ default ∅ o = membersOf now s k.
Proof.
  intros Hs. rewrite getSet_view by done. unfold readable, membersOf.
  destruct (view now s k) as [[[] d]|]; try done; eauto.
Qed.

Lemma inAll_spec now keys m s :
  store_wf s -> Forall (readable now s) keys ->
  inAll now keys m s = Ok (bool_decide (Forall (fun k => m ∈ membersOf now s k) keys)).
Proof.
  intros Hs Hk. induction Hk as [|k keys Hr Hk IH]; [by rewrite bool_decide_true|].
  cbn [inAll]. destruct (getSet_readable now k s Hs Hr) as (o & -> & ->).
  case_decide as Hm.
  - rewrite IH. f_equal. apply bool_decide_ext. rewrite Forall_cons. tauto.
  - rewrite bool_decide_false; [done|]. rewrite Forall_cons. tauto.
Qed.

Lemma inOther_spec now keys m s :
  store_wf s -> Forall (readable now s) keys ->
  inOther now keys m s = Ok (bool_decide (Exists (fun k => m ∈ membersOf now s k) keys)).
Proof.
  intros Hs Hk. induction Hk as [|k keys Hr Hk IH];
    [rewrite bool_decide_false; [done|by intros ?%Exists_nil]|].
  cbn [inOther]. destruct (getSet_readable now k s Hs Hr) as (o & -> & ->).
  case_decide as Hm.
  - rewrite bool_decide_true; [done|]. rewrite Exists_cons. tauto.
  - rewrite IH. f_equal. apply bool_decide_ext. rewrite Exists_cons. tauto.
Qed.

Lemma interLoop_spec now rest ms s :
  store_wf s -> Forall (readable now s) rest ->
  interLoop now rest ms s =
    Ok (filter (fun m => Forall (fun k => m ∈ membersOf now s k) rest) ms).
Proof.
  intros Hs Hk. induction ms as [|m ms IH]; [done|]. cbn [interLoop].
  rewrite inAll_spec, IH, filter_cons by done. by repeat case_decide || case_bool_decide.
Qed.

Lemma diffLoop_spec now rest ms s :
  store_wf s -> Forall (readable now s) rest ->
  diffLoop now rest ms s =
    Ok (filter (fun m => ~ Exists (fun k => m ∈ membersOf now s k) rest) ms).
Proof.
  intros Hs Hk. induction ms as [|m ms IH]; [done|]. cbn [diffLoop].
  rewrite inOther_spec, IH, filter_cons by done. by repeat case_decide || case_bool_decide.
Qed.

Lemma unionLoop_spec now keys acc s :
  store_wf s -> Forall (readable now s) keys ->
  unionLoop now keys acc s = Ok (acc ∪ ⋃ (membersOf now s <$> keys)).
Proof.
  intros Hs Hk. revert acc. induction Hk as [|k keys Hr Hk IH]; intros acc;
    [by cbn; rewrite union_empty_r_L|].
  cbn [unionLoop]. destruct (getSet_readable now k s Hs Hr) as (o & -> & ->).
  rewrite IH. f_equal. rewrite fmap_cons, union_list_cons. set_solver.
Qed.

Lemma setInter_spec now k0 rest s :
  store_wf s -> Forall (readable now s) (k0 :: rest) ->
  exists l, setInter now (k0 :: rest) s = Ok l /\ NoDup l /\
    forall m, m ∈ l <-> Forall (fun k => m ∈ membersOf now s k) (k0 :: rest).
Proof.
  intros Hs [Hr Hk]%Forall_cons. unfold setInter.
  rewrite getSet_view by done. unfold readable in Hr.
  assert (membersOf now s k0 = match view now s k0 with Some (VSet st, _) => st | _ => ∅ end)
    as Hm by done.
  destruct (view now s k0) as [[[] d]|]; try done.
  - rewrite interLoop_spec by done. eexists. split; [done|].
    split; [apply NoDup_filter, NoDup_elements|]. intros m.
    rewrite list_elem_of_filter, elem_of_elements, Forall_cons, Hm. tauto.
  - eexists. split; [done|]. split; [constructor|]. intros m. rewrite Forall_cons, Hm. set_solver.
Qed.

Lemma setDiff_spec now k0 rest s :
  store_wf s -> Forall (readable now s) (k0 :: rest) ->
  exists l, setDiff now (k0 :: rest) s = Ok l /\ NoDup l /\
    forall m, m ∈ l <-> m ∈ membersOf now s k0 /\ Forall (fun k => m ∉ membersOf now s k) rest.
Proof.
  intros Hs [Hr Hk]%Forall_cons. unfold setDiff.
  destruct (getSet_readable now k0 s Hs Hr) as (o & -> & ->).
  rewrite diffLoop_spec by done. eexists. split; [done|].
  split; [apply NoDup_filter, NoDup_elements|]. intros m.
  rewrite list_elem_of_filter, elem_of_elements, Forall_Exists_neg. tauto.
Qed.

Lemma setUnion_spec now keys s :
  store_wf s -> Forall (readable now s) keys ->
  exists l, setUnion now keys s = Ok l /\ NoDup l /\
    forall m, m ∈ l <-> Exists (fun k => m ∈ membersOf now s k) keys.
Proof.
  intros Hs Hk. unfold setUnion. rewrite unionLoop_spec by done. eexists. split; [done|].
  split; [apply NoDup_elements|]. intros m. rewrite elem_of_elements, union_empty_l_L.
  rewrite elem_of_union_list, Exists_exists. set_solver.
Qed.

Lemma cell_storeMembers dst ms s k' :
  cell_of (storeMembers dst ms s) k' =
    if decide (dst = k') then optCell (setEntry (list_to_set ms) None) else cell_of s k'.
Proof.
  destruct ms as [|m ms]; cbn [storeMembers list_to_set].
  - rewrite setEntry_empty. apply cell_deleteKey.
  - rewrite cell_bump, cell_put_set, setEntry_ne by set_solver. case_decide as Hk.
    + subst k'. cbn. by rewrite !lookup_delete_eq.
    + rewrite cell_deleteKey. by rewrite decide_False.
Qed.

Lemma storeMembers_effect dst ms s :
  store_wf s -> updates dst (setEntry (list_to_set ms) None) s (storeMembers dst ms s).
Proof. intros Hs. apply set_write; [done|done|]. intros k'. apply cell_storeMembers. Qed.

Lemma foldl_difference (l : list string) (st : gset string) :
  foldl (fun st m => st ∖ {[m]}) st l = st ∖ list_to_set l.
Proof.
  revert st. induction l as [|m l IH]; intros st; cbn [foldl list_to_set];
    [by rewrite difference_empty_L|]. rewrite IH. set_solver.
Qed.

(** ** Properties *)

(** SADD and SREM: on an absent key or a set they add or remove exactly the
    given members, keep the deadline, and reply how many members really changed;
    a set emptied by SREM disappears; another type is an error. *)
Theorem add_rem_correct now key members s :
  store_wf s -> clean now s key -> members <> [] ->
  match setOf (view now s key) with
  | None => SAdd now key members s = (Fail ErrWrongType, s) /\
            SRem now key members s = (Fail ErrWrongType, s)
  | Some (st, d) =>
      (exists s', SAdd now key members s =
           (Ok (Z.of_nat (size (list_to_set members ∪ st)) - Z.of_nat (size st)), s') /\
         updates key (setEntry (list_to_set members ∪ st) d) s s') /\
      (exists s', SRem now key members s =
           (Ok (Z.of_nat (size st) - Z.of_nat (size (st ∖ list_to_set members))), s') /\
         updates key (setEntry (st ∖ list_to_set members) d) s s')
  end.
Proof.
  intros Hs Hc Hm. pose proof (set_key now s key Hs Hc) as Hk. unfold SAdd, SRem.
  destruct (setOf (view now s key)) as [[st d]|] eqn:Hl.
  - destruct Hk as (_ & -> & _ & _ & Ht & -> & _). rewrite (decide_False (P := _ /\ _)) by done.
    rewrite addMembers_spec. split.
    + eexists. split; [done|]. eapply set_put_effect; try done.
      destruct members as [|m ms]; [done|]. cbn. set_solver.
    + case_decide as H0.
      * subst st. exists s. assert (∅ ∖ list_to_set members = (∅ : gset string)) as -> by set_solver.
        split; [done|].
        pose proof (set_key now s key Hs Hc) as Hk. rewrite Hl in Hk.
        destruct Hk as (Hx & _ & Hd & _). apply set_write; [done|done|]. intros k'.
        by case_decide; [subst k'|].
      * rewrite remMembers_spec. eexists. split; [done|].
        by apply updates_bump, (set_putSet_effect now key s st).
  - destruct Hk as (H1 & H2 & ->). by rewrite decide_True.
Qed.

Lemma add_rem_correct_witness :
  exists s', SAdd 10 "st" ["m"; "n"; "n"] sampleStore = (Ok 1, s') /\
    view 10 s' "st" = Some (VSet {["m"; "n"]}, None).
Proof.
  pose proof (add_rem_correct 10 "st" ["m"; "n"; "n"] sampleStore sampleStore_wf
                (sampleStore_clean "st")) as H.
  destruct H as [(s' & HA & _ & Hv) _]; [done|]. exists s'. split; [exact HA|].
  rewrite Hv. reflexivity.
Defined.

(** C35: SINTER, SUNION and SDIFF of keys that are sets or absent return each member
    of the intersection, of the union, and of the difference of the first with
    the others exactly once, and nothing else. *)
Theorem algebra_correct now k0 rest s :
  store_wf s -> Forall (readable now s) (k0 :: rest) ->
  (exists l, SInter now (k0 :: rest) s = Ok l /\ NoDup l /\
     forall m, m ∈ l <-> Forall (fun k => m ∈ membersOf now s k) (k0 :: rest)) /\
  (exists l, SUnion now (k0 :: rest) s = Ok l /\ NoDup l /\
     forall m, m ∈ l <-> Exists (fun k => m ∈ membersOf now s k) (k0 :: rest)) /\
  (exists l, SDiff now (k0 :: rest) s = Ok l /\ NoDup l /\
     forall m, m ∈ l <-> m ∈ membersOf now s k0 /\ Forall (fun k => m ∉ membersOf now s k) rest).
Proof.
  intros Hs Hr. split_and!; [by apply setInter_spec|by apply setUnion_spec|by apply setDiff_spec].
Qed.

Lemma algebra_correct_witness :
  exists l, SDiff 10 ["st"; "other"] sampleStore = Ok l /\ "m" ∈ l.
Proof.
  destruct (algebra_correct 10 "st" ["other"] sampleStore sampleStore_wf) as (_ & _ & l & H & _ & Hm).
  - by repeat constructor.
  - exists l. split; [done|]. apply Hm. split; [by apply elem_of_singleton|].
    by repeat constructor.
Defined.

(** SINTERSTORE, SUNIONSTORE and SDIFFSTORE replace the destination, whatever
    it held and also when it is one of the sources, by exactly the members the
    read command returns, without a deadline; an empty result deletes it.  The
    reply is the size, and a failed read changes nothing. *)
Theorem store_correct now dst keys s :
  store_wf s ->
  let stores (f : Time -> list string -> MemoryStore -> result (list string)) r :=
    match f now keys s with
    | Fail e => r = (Fail e, s)
    | Ok l => fst r = Ok (llen l) /\ updates dst (setEntry (list_to_set l) None) s (snd r)
    end in
  stores SInter (SInterStore now dst keys s) /\
  stores SUnion (SUnionStore now dst keys s) /\
  stores SDiff (SDiffStore now dst keys s).
Proof.
  intros Hs. cbv zeta. unfold SInter, SUnion, SDiff, SInterStore, SUnionStore, SDiffStore.
  split_and!; split_match; try done; (split; [done|]); by apply storeMembers_effect.
Qed.

Lemma store_correct_witness :
  view 10 (snd (SUnionStore 10 "h" ["st"; "h2"] sampleStore)) "h" = Some (VSet {["m"]}, None).
Proof.
  destruct (store_correct 10 "h" ["st"; "h2"] sampleStore sampleStore_wf) as (_ & H & _).
  change (SUnion 10 ["st"; "h2"] sampleStore) with (Ok (A := list string) ["m"]) in H.
  destruct H as [_ [_ Hv]]. rewrite Hv. reflexivity.
Defined.

(** An empty SINTERSTORE deletes the destination but leaves its version as it
    was, so a WATCH on the destination does not see the deletion. *)
Theorem SInterStore_unwatched :
  let s := snd (SAdd 10 "dst" ["x"] sampleStore) in
  let r := SInterStore 10 "dst" ["st"; "missing"] s in
  view 10 s "dst" <> None /\ view 10 (snd r) "dst" = None /\
  Version "dst" (snd r) = Version "dst" s.
Proof. split; [done|]. split; reflexivity. Qed.

Section RandomProperties.

Context (shuffle : list string -> list string) (intN : nat -> Z -> Z).

(** [rand.Shuffle] permutes the slice; [rand.IntN(n)] is in [0, n). *)
Hypothesis shuffle_perm : forall l, shuffle l ≡ₚ l.
Hypothesis intN_range : forall i n, 0 < n -> 0 <= intN i n < n.

Lemma shuffle_llen l : llen (shuffle l) = llen l.
Proof using shuffle_perm. clear intN_range. unfold llen. by rewrite shuffle_perm. Qed.

Lemma NoDup_ltake {A} n (l : list A) : NoDup l -> NoDup (ltake n l).
Proof using. intros H. apply (sublist_NoDup _ _ H), sublist_take. Qed.

(** What [all[:count]] of a shuffled slice is: distinct members, as many as asked. *)
Lemma shuffle_prefix (st : gset string) n :
  0 <= n <= Z.of_nat (size st) ->
  exists r, slice (E := Empty_set) (shuffle (elements st)) 0 n = Ret r /\
    NoDup r /\ llen r = n /\ list_to_set r ⊆ st.
Proof using shuffle_perm. clear intN_range.
  intros Hn. assert (llen (shuffle (elements st)) = Z.of_nat (size st)) as Hl
    by (rewrite shuffle_llen; done).
  rewrite slice_ok by lia. rewrite ldrop_0, Z.sub_0_r. eexists. split; [done|].
  assert (NoDup (shuffle (elements st))) as Hnd by (rewrite shuffle_perm; apply NoDup_elements).
  split_and!; [by apply NoDup_ltake|apply llen_ltake; lia|].
  intros m. rewrite elem_of_list_to_set. unfold ltake. intros Hm.
  assert (m ∈ shuffle (elements st)) as Hm'.
  { rewrite <- (take_drop (Z.to_nat n) (shuffle (elements st))), elem_of_app. by left. }
  rewrite shuffle_perm in Hm'. by apply elem_of_elements.
Qed.

Lemma draws_ok all i n :
  0 < llen all -> exists r, draws intN all i n = Ret r /\ length r = n /\ Forall (fun m => m ∈ all) r.
Proof using intN_range.
  intros Ha. revert i. induction n as [|n IH]; intros i; cbn [draws]; [by eexists|].
  zfalse (llen all <=? 0).
  destruct (index_ok (E := Empty_set) all (intN i (llen all))) as (m & Hm & ->); [by apply intN_range|].
  destruct (IH (S i)) as (r & -> & Hr & Hf). cbn [obind]. eexists. split; [done|].
  split; [cbn; congruence|]. constructor; [|done]. by apply list_elem_of_lookup_2 in Hm.
Qed.

(** SPOP removes and returns min(count, size) different members of the set,
    chosen by the shuffle; exactly those are gone afterwards, and a set popped
    completely disappears. *)
Theorem SPop_correct now key count s st d :
  store_wf s -> clean now s key -> 0 <= count ->
  setOf (view now s key) = Some (st, d) ->
  exists r s', SPop shuffle now key count s = Ret (Ok r, s') /\ NoDup r /\
    llen r = Z.min count (Z.of_nat (size st)) /\ list_to_set r ⊆ st /\
    updates key (setEntry (st ∖ list_to_set r) d) s s'.
Proof using shuffle_perm. clear intN_range.
  intros Hs Hc Hn Hl. pose proof (set_key now s key Hs Hc) as Hk. rewrite Hl in Hk.
  destruct Hk as (Hx & _ & Hd & Hd0 & _ & Hg & _). unfold SPop. rewrite Hg.
  case_decide as H0.
  { subst st. exists [], s. split_and!; [done|apply NoDup_nil_2|rewrite size_empty; unfold llen; cbn [length]; lia|done|].
    assert (∅ ∖ list_to_set [] = (∅ : gset string)) as -> by set_solver.
    apply set_write; [done|done|]. intros k'. by case_decide; [subst k'|]. }
  destruct (llen (elements st) <=? count) eqn:E; zbool.
  - change (llen (elements st)) with (Z.of_nat (size st)) in E.
    eexists _, _. split_and!; [done|apply NoDup_elements| | |].
    + change (llen (elements st)) with (Z.of_nat (size st)). lia.
    + intros m. by rewrite elem_of_list_to_set, elem_of_elements.
    + assert (st ∖ list_to_set (elements st) = ∅) as -> by set_solver.
      apply updates_bump, set_write; [done|done|]. intros k'. rewrite setEntry_empty.
      by apply (cell_set_drop s key st d).
  - change (llen (elements st)) with (Z.of_nat (size st)) in E.
    destruct (shuffle_prefix st count) as (r & -> & Hnd & Hlen & Hsub); [lia|]. cbn [obind].
    eexists _, _. split_and!; [done|done|lia|done|]. rewrite foldl_difference.
    eapply set_put_effect; try done. intros He.
    assert (size (list_to_set r : gset string) = length r) as Hsz by (by apply size_list_to_set).
    assert (size st <= size (list_to_set r : gset string))%nat
      by (apply subseteq_size; set_solver).
    unfold llen in *. lia.
Qed.

(** SRANDMEMBER does not change the set: a positive count returns
    min(count, size) different members, a negative count returns exactly -count
    members with repetition allowed. *)
Theorem SRandMember_correct now key count s st d :
  store_wf s -> setOf (view now s key) = Some (st, d) -> st <> ∅ -> - 2 ^ 44 <= count ->
  exists r, SRandMember shuffle intN now key count s = Ret (Ok r) /\
    Forall (fun m => m ∈ st) r /\
    (0 <= count -> NoDup r /\ llen r = Z.min count (Z.of_nat (size st))) /\
    (count < 0 -> llen r = - count).
Proof.
  intros Hs Hl Hne Hn. unfold SRandMember. rewrite getSet_view by done.
  assert (size st <> 0)%nat as Hsz by (by rewrite size_non_empty_iff, leibniz_equiv_iff).
  destruct (view now s key) as [[[] d']|]; cbn in Hl; simplify_eq.
  destruct (Z.eqb_spec count 0) as [->|H0].
  { exists []. split_and!; [done|apply Forall_nil_2|split; [apply NoDup_nil_2|unfold llen; cbn [length]; lia]|lia]. }
  change (llen (elements st)) with (Z.of_nat (size st)).
  destruct (0 <? count) eqn:E; zbool.
  - destruct (Z.of_nat (size st) <=? count) eqn:E2; zbool.
    + exists (elements st). split_and!; [done| |intros _; split; [apply NoDup_elements|]|lia].
      * apply Forall_forall. intros m. by rewrite elem_of_elements.
      * change (llen (elements st)) with (Z.of_nat (size st)). lia.
    + destruct (shuffle_prefix st count) as (r & -> & Hnd & Hlen & Hsub); [lia|]. cbn [obind].
      exists r. split_and!; [done| |intros _; split; [done|lia]|lia].
      apply Forall_forall. intros m Hm. apply Hsub. by rewrite elem_of_list_to_set.
  - rewrite wrap64_id by (unfold int64_ok, minInt64, maxInt64; lia).
    assert (make_ok (- count) 16 = true) as ->
      by (unfold make_ok, maxAlloc; ztrue (0 <=? - count); cbn [andb];
          apply Z.leb_le; lia).
    cbn [negb]. destruct (draws_ok (elements st) 0 (Z.to_nat (- count))) as (r & -> & Hr & Hf).
    { change (llen (elements st)) with (Z.of_nat (size st)). lia. }
    exists r. split_and!; [done| |lia|unfold llen; lia].
    eapply Forall_impl; [exact Hf|]. intros m. by rewrite elem_of_elements.
Qed.

End RandomProperties.

Lemma SPop_correct_witness :
  exists r s', SPop (@rev string) 10 "st" 1 sampleStore = Ret (Ok r, s') /\ llen r = 1 /\
    view 10 s' "st" = None.
Proof.
  destruct (SPop_correct (@rev string) (fun l => symmetry (Permutation_rev l)) 10 "st" 1 sampleStore
              {["m"]} None sampleStore_wf (sampleStore_clean "st"))
    as (r & s' & H & _ & Hlen & _); [done|done|].
  exists r, s'. split; [done|]. split; [exact Hlen|].
  vm_compute in H. injection H as <- <-. reflexivity.
Defined.

Lemma SRandMember_correct_witness :
  exists r, SRandMember (fun l => l) (fun _ _ => 0) 10 "st" (-3) sampleStore = Ret (Ok r) /\
    llen r = 3.
Proof.
  destruct (SRandMember_correct (fun l => l) (fun _ _ => 0) (fun l => reflexivity l)
              (fun i n H => conj (Z.le_refl 0) H) 10 "st" (-3) sampleStore {["m"]} None
              sampleStore_wf eq_refl) as (r & H & _ & _ & Hn); [done|done|].
  exists r. split; [done|]. by apply Hn.
Defined.

(** SRANDMEMBER with the least 64-bit count panics on every non-empty set: the
    negated count is still negative and is used as a slice length. *)
Theorem SRandMember_panics shuffle intN :
  SRandMember shuffle intN 10 "st" minInt64 sampleStore = Panic.
Proof. reflexivity. Qed.

(** SMOVE between different sets moves the member if the source has it (reply
    1) and changes nothing otherwise; deadlines stay with their keys and an
    emptied source disappears. *)
Theorem SMove_correct now src dst m s st d st2 d2 :
  store_wf s -> clean now s src -> clean now s dst -> src <> dst ->
  setOf (view now s src) = Some (st, d) -> setOf (view now s dst) = Some (st2, d2) ->
  if decide (m ∈ st) then
    exists s', SMove now src dst m s = (Ok true, s') /\ store_wf s' /\
      forall t k', view t s' k' =
        ks_put dst (optSeen t (setEntry ({[m]} ∪ st2) d2))
          (ks_put src (optSeen t (setEntry (st ∖ {[m]}) d)) (view t s)) k'
  else SMove now src dst m s = (Ok false, s).
Proof.
  intros Hs Hc1 Hc2 Hne H1 H2.
  pose proof (set_key now s src Hs Hc1) as Hk1. rewrite H1 in Hk1.
  pose proof (set_key now s dst Hs Hc2) as Hk2. rewrite H2 in Hk2.
  destruct Hk1 as (Hx & _ & Hd & Hd0 & Ht1 & _ & Hsrc), Hk2 as (_ & _ & _ & _ & Ht2 & _).
  unfold SMove. rewrite (decide_False (P := typeOf now src s <> TNone /\ _)) by exact Ht1.
  rewrite (decide_False (P := typeOf now dst s <> TNone /\ _)) by exact Ht2. rewrite Hsrc.
  destruct (decide (st = ∅)) as [->|Hst].
  { rewrite decide_False by set_solver. done. }
  destruct (decide (m ∈ st)) as [Hm|Hm]; [|done].
  pose proof (fun k' => cell_putSet s src st d (st ∖ {[m]}) k' Hx Hd0) as Hput.
  destruct (set_putSet_effect now src s st d (st ∖ {[m]}) Hs Hc1 H1) as [Hw Hv].
  set (s1 := putSet src (st ∖ {[m]}) s) in *.
  assert (forall t, view t s1 dst = view t s dst) as Hvd.
  { intros t. rewrite Hv. unfold ks_put. by rewrite decide_False. }
  assert (clean now s1 dst) as Hc3.
  { intros Hn. rewrite Hput. rewrite decide_False by done. apply Hc2. by rewrite <- Hvd. }
  assert (setOf (view now s1 dst) = Some (st2, d2)) as H3 by (by rewrite Hvd).
  pose proof (set_key now s1 dst Hw Hc3) as Hk3. rewrite H3 in Hk3.
  destruct Hk3 as (_ & -> & _).
  destruct (set_put_effect now dst s1 st2 d2 ({[m]} ∪ st2) Hw Hc3 H3) as [Hw2 Hv2];
    [set_solver|].
  eexists. split; [reflexivity|]. split; [exact Hw2|].
  intros t k'. etransitivity; [exact (Hv2 t k')|]. unfold ks_put.
  case_decide; [done|]. by rewrite Hv.
Qed.

Lemma SMove_correct_witness :
  exists s', SMove 10 "st" "new" "m" sampleStore = (Ok true, s') /\
    view 10 s' "st" = None /\ view 10 s' "new" = Some (VSet {["m"]}, None).
Proof.
  destruct (SMove_correct 10 "st" "new" "m" sampleStore {["m"]} None ∅ None sampleStore_wf
              (sampleStore_clean "st") (sampleStore_clean "new")) as (s' & H & _ & Hv);
    [done|done|done|].
  exists s'. rewrite !Hv. split; [done|]. split; reflexivity.
Defined.
