(* ===== verification/Hashes.v ===== *)
(** * Hashes (internal/storage/memory.go, hash operations)

    The field map of a hash is a [gmap]; lists of fields or values are in the
    order of [map_to_list], which stands for Go's unspecified map order. *)

From S2P Require Import Prelude GoLib Glob Store Keyspace.

(** ** Operations *)

(** The loop of [HSet]: the number of fields that were new, and the hash. *)
Fixpoint setFields (fields : list (string * string)) (h : gmap string string)
    : Z * gmap string string :=
  match fields with
  | [] => (0, h)
  | (f, v) :: fields' =>
      let '(n, h') := setFields fields' (<[f := v]> h) in
      (if decide (h !! f = None) then n + 1 else n, h')
  end.

Definition HSet (key : string) (fields : gmap string string) (s : MemoryStore)
    : Z * MemoryStore :=
  let s := set_strings (delete key (strings s)) s in
  let h := default ∅ (hashes s !! key) in
  let '(added, h) := setFields (map_to_list fields) h in
  let s := set_hashes (<[key := h]> (hashes s)) s in
  (added, bumpVersion key s).

(** The hash of a key that is present and not expired: the guard
    [!ok || s.keyExpiredNonStr(key)] of every reader. *)
Definition liveHash (now : Time) (key : string) (s : MemoryStore) : option (gmap string string) :=
  match hashes s !! key with
  | Some h => if keyExpiredNonStr now key s then None else Some h
  | None => None
  end.

Definition HGet (now : Time) (key field : string) (s : MemoryStore) : option string :=
  match liveHash now key s with
  | None => None
  | Some h => h !! field
  end.

Fixpoint delFields (fields : list string) (h : gmap string string) : Z * gmap string string :=
  match fields with
  | [] => (0, h)
  | f :: fields' =>
      if decide (h !! f = None) then delFields fields' h
      else let '(n, h') := delFields fields' (delete f h) in (n + 1, h')
  end.

(** A hash that becomes empty is removed together with its deadline and its
    version counter. *)
Definition HDel (now : Time) (key : string) (fields : list string) (s : MemoryStore)
    : Z * MemoryStore :=
  match liveHash now key s with
  | None => (0, s)
  | Some h =>
      let '(n, h) := delFields fields h in
      if decide (size h = 0%nat) then
        let s := set_hashes (delete key (hashes s)) s in
        let s := set_keyExpiry (delete key (keyExpiry s)) s in
        (n, set_keyVersion (delete key (keyVersion s)) s)
      else
        (n, bumpVersion key (set_hashes (<[key := h]> (hashes s)) s))
  end.

(** [None] is the nil map. *)
Definition HGetAll (now : Time) (key : string) (s : MemoryStore) : option (gmap string string) :=
  liveHash now key s.

Definition HLen (now : Time) (key : string) (s : MemoryStore) : Z :=
  match liveHash now key s with
  | None => 0
  | Some h => Z.of_nat (size h)
  end.

Definition HExists (now : Time) (key field : string) (s : MemoryStore) : bool :=
  match liveHash now key s with
  | None => false
  | Some h => bool_decide (is_Some (h !! field))
  end.

Definition HKeys (now : Time) (key : string) (s : MemoryStore) : list string :=
  match liveHash now key s with
  | None => []
  | Some h => fst <$> map_to_list h
  end.

Definition HVals (now : Time) (key : string) (s : MemoryStore) : list string :=
  match liveHash now key s with
  | None => []
  | Some h => snd <$> map_to_list h
  end.

(** ** Specification *)

(** The hash HSET starts from: empty for an absent key and for a string, which it
    overwrites; [None] for the types it does not expect. *)
Definition hashOf (e : option entry) : option (gmap string string * option Time) :=
  match e with
  | None => Some (∅, None)
  | Some (VHash h, d) => Some (h, d)
  | Some (VString _, _) => Some (∅, None)
  | Some _ => None
  end.

Definition hashEntry (h : gmap string string) (d : option Time) : option entry :=
  if decide (h = ∅) then None else Some (VHash h, d).

(** ** Lemmas *)

Lemma setFields_spec fs h :
  NoDup fs.*1 ->
  setFields fs h =
    (Z.of_nat (size (list_to_map fs ∪ h : gmap string string)) - Z.of_nat (size h),
     list_to_map fs ∪ h).
Proof.
  revert h. induction fs as [|[f v] fs IH]; intros h Hnd; cbn [setFields].
  - cbn. rewrite (left_id_L ∅ (∪)). f_equal. lia.
  - apply NoDup_cons in Hnd as [Hf Hnd]. rewrite IH by done.
    assert (list_to_map ((f, v) :: fs) ∪ h = list_to_map fs ∪ <[f := v]> h) as ->.
    { cbn. rewrite <- insert_union_l, insert_union_r; [done|].
      by apply not_elem_of_list_to_map_1. }
    f_equal. rewrite map_size_insert. destruct (h !! f) eqn:E; unfold id; case_decide; lia || done.
Qed.

Lemma delFields_spec fs h :
  delFields fs h =
    (Z.of_nat (size h) - Z.of_nat (size (filter (fun kv => kv.1 ∉ fs) h)),
     filter (fun kv => kv.1 ∉ fs) h).
Proof.
  revert h. induction fs as [|f fs IH]; intros h; cbn [delFields].
  - assert (filter (fun kv : string * string => kv.1 ∉ []) h = h) as ->.
    { apply map_filter_id. intros k v _. apply not_elem_of_nil. }
    f_equal. lia.
  - assert (filter (fun kv : string * string => kv.1 ∉ f :: fs) h =
            filter (fun kv => kv.1 ∉ fs) (delete f h)) as ->.
    { apply map_eq. intros k. apply option_eq. intros v.
      rewrite !map_lookup_filter_Some, lookup_delete_Some. cbn. rewrite not_elem_of_cons.
      naive_solver. }
    case_decide as Hf.
    + rewrite IH. by rewrite (delete_id h f) by done.
    + rewrite IH. f_equal. rewrite (map_size_delete f h). destruct (h !! f) eqn:E; [|done].
      assert (size h <> 0)%nat by (rewrite map_size_non_empty_iff; intros ->; done). lia.
Qed.

Lemma cell_HSet k fs s k' :
  cell_of (snd (HSet k fs s)) k' =
    if decide (k = k') then
      mkCell None (Some (fs ∪ default ∅ (hashes s !! k))) (lists s !! k') (sets s !! k')
        (zsets s !! k') (keyExpiry s !! k')
    else cell_of s k'.
Proof.
  unfold HSet. cbn [hashes set_strings]. rewrite setFields_spec by apply NoDup_fst_map_to_list.
  rewrite list_to_map_to_list. cbn [snd]. cell_simpl. by cell_cases.
Qed.

Lemma fst_HSet k fs s :
  fst (HSet k fs s) = Z.of_nat (size (fs ∪ default ∅ (hashes s !! k)))
                    - Z.of_nat (size (default ∅ (hashes s !! k) : gmap string string)).
Proof.
  unfold HSet. cbn [hashes set_strings]. rewrite setFields_spec by apply NoDup_fst_map_to_list.
  by rewrite list_to_map_to_list.
Qed.

Lemma hashEntry_ne h d : h <> ∅ -> hashEntry h d = Some (VHash h, d).
Proof. intros. unfold hashEntry. by rewrite decide_False. Qed.

(** What HSET finds under a clean key of a well-formed store. *)
Lemma hash_key now s k h d :
  store_wf s -> clean now s k -> hashOf (view now s k) = Some (h, d) ->
  default ∅ (hashes s !! k) = h /\ lists s !! k = None /\ sets s !! k = None /\
  zsets s !! k = None /\ keyExpiry s !! k = d /\ d <> Some zeroTime.
Proof.
  intros Hs Hc Hh. pose proof (clean_cell now s k Hs Hc) as Hx.
  destruct (view now s k) as [[v d']|] eqn:Hv.
  - destruct (view_entry_ok now s k _ Hs Hv) as [Hd _]. unfold cell_of in Hx.
    destruct v; cbn in Hh, Hx, Hd; simplify_eq; unfold strCell in *; simplify_eq/=;
      split_and!; try done; by rewrite ?Hx, ?H, ?H0.
  - unfold cell_of in Hx. cbn in Hh, Hx. unfold emptyCell in Hx. simplify_eq.
    split_and!; try done. by rewrite H.
Qed.

Lemma HSet_effect now k fs s h d :
  store_wf s -> clean now s k -> fs <> ∅ -> hashOf (view now s k) = Some (h, d) ->
  fst (HSet k fs s) = Z.of_nat (size (fs ∪ h)) - Z.of_nat (size h) /\
  updates k (Some (VHash (fs ∪ h), d)) s (snd (HSet k fs s)).
Proof.
  intros Hs Hc Hne Hh. destruct (hash_key now s k h d Hs Hc Hh) as (H1 & H2 & H3 & H4 & H5 & Hd).
  split; [by rewrite fst_HSet, H1|]. apply write_key; [|done|].
  - intros k'. rewrite cell_HSet, H1. case_decide as Hk; [|done]. subst k'. cbn. congruence.
  - intros x [= <-]. split; [done|]. cbn. intros He.
    apply Hne. by apply (map_positive_l fs h).
Qed.

Lemma liveHash_view now k s :
  store_wf s ->
  liveHash now k s = match view now s k with Some (VHash h, _) => Some h | _ => None end.
Proof.
  intros Hs. unfold liveHash, keyExpiredNonStr.
  change (hashes s !! k) with (cHash (cell_of s k)).
  change (keyExpiry s !! k) with (cExp (cell_of s k)).
  unfold view. destruct (wf_shape s k Hs) as [|v t|v d Hv Hd]; [done| |].
  - rewrite cellView_strCell. unfold seen. cbn. by destruct (deadline t); [destruct (_ <? _)|].
  - rewrite cellView_aggCell by done. unfold seen. cbn.
    destruct v as [?|?|?|?|?]; try done; cbn; (destruct d as [d|]; [|done]);
      rewrite ?expired_seen by congruence; by destruct (d <? now).
Qed.

Lemma cell_set_hash k h s k' :
  cell_of (set_hashes (<[k := h]> (hashes s)) s) k' =
    if decide (k = k') then
      mkCell (strings s !! k') (Some h) (lists s !! k') (sets s !! k') (zsets s !! k')
        (keyExpiry s !! k')
    else cell_of s k'.
Proof. cell_simpl. by cell_cases. Qed.

Lemma HDel_effect now k fs s :
  store_wf s ->
  match view now s k with
  | Some (VHash h, d) =>
      let h' := filter (fun kv => kv.1 ∉ fs) h in
      fst (HDel now k fs s) = Z.of_nat (size h) - Z.of_nat (size h') /\
      updates k (hashEntry h' d) s (snd (HDel now k fs s))
  | _ => HDel now k fs s = (0, s)
  end.
Proof.
  intros Hs. unfold HDel. rewrite liveHash_view by done.
  destruct (view now s k) as [[[] d]|] eqn:Hv; try done. cbv zeta. rewrite delFields_spec.
  destruct (view_cell _ _ _ _ Hs Hv) as [Hc Hd]. cbn in Hc, Hd.
  set (h' := filter _ h). unfold hashEntry. rewrite (decide_ext _ _ _ _ (map_size_empty_iff h')).
  destruct (decide (h' = ∅)) as [He|He]; (split; [done|]); cbn [snd]; apply write_key; try done.
  - intros k'. cell_simpl. unfold cell_of in Hc. cell_cases. cbn. unfold emptyCell. congruence.
  - intros k'. rewrite cell_bump, cell_set_hash. case_decide as Hk; [|done]. subst k'.
    unfold cell_of in Hc. cbn. congruence.
  - intros x [= <-]. done.
Qed.

(** ** Properties *)

(** HSET on an absent key, a string (which it replaces) or a hash sets exactly
    the given fields and keeps the others and the hash's deadline; the reply
    counts the new fields; no other key changes. *)
Theorem HSet_correct now key fields s h d :
  store_wf s -> clean now s key -> fields <> ∅ -> hashOf (view now s key) = Some (h, d) ->
  fst (HSet key fields s) = Z.of_nat (size (fields ∪ h)) - Z.of_nat (size h) /\
  updates key (Some (VHash (fields ∪ h), d)) s (snd (HSet key fields s)).
Proof. apply HSet_effect. Qed.

Lemma HSet_correct_witness :
  fst (HSet "h" {[ "f" := "2"; "g" := "3" ]} sampleStore) = 1 /\
  view 10 (snd (HSet "h" {[ "f" := "2"; "g" := "3" ]} sampleStore)) "h" =
    Some (VHash {[ "f" := "2"; "g" := "3" ]}, None).
Proof.
  destruct (HSet_correct 10 "h" {[ "f" := "2"; "g" := "3" ]} sampleStore {[ "f" := "1" ]} None
              sampleStore_wf (sampleStore_clean "h")) as [H1 [_ H2]]; [done|done|].
  split; [rewrite H1; reflexivity|]. rewrite H2. reflexivity.
Defined.

(** After HSET every read agrees with the merged hash: HGET gives the new value
    of a field that was set and the old value of any other, HEXISTS and HLEN
    match, and HKEYS lists each field once. *)
Theorem HSet_reads now key fields s h :
  store_wf s -> clean now s key -> fields <> ∅ -> hashOf (view now s key) = Some (h, None) ->
  let s' := snd (HSet key fields s) in
  (forall f, HGet now key f s' =
     match fields !! f with Some v => Some v | None => h !! f end) /\
  (forall f, HExists now key f s' = bool_decide (is_Some (HGet now key f s'))) /\
  HLen now key s' = llen (HKeys now key s') /\
  NoDup (HKeys now key s') /\
  (forall f, f ∈ HKeys now key s' <-> HGet now key f s' <> None).
Proof.
  intros Hs Hc Hne Hh s'. destruct (HSet_effect now key fields s h None Hs Hc Hne Hh) as [_ [Hw Hv]].
  specialize (Hv now key). unfold ks_put in Hv. rewrite decide_True in Hv by done.
  change (view now s' key = Some (VHash (fields ∪ h), None)) in Hv. change (store_wf s') in Hw.
  unfold HGet, HExists, HLen, HKeys. rewrite liveHash_view, Hv by done. split_and!.
  - intros f. rewrite lookup_union. by destruct (fields !! f), (h !! f).
  - done.
  - unfold llen. by rewrite length_fmap, length_map_to_list.
  - apply NoDup_fst_map_to_list.
  - intros f. rewrite list_elem_of_fmap. split.
    + intros ([f' v] & -> & Hm%elem_of_map_to_list). cbn. by rewrite Hm.
    + destruct ((fields ∪ h) !! f) as [v|] eqn:E; [|done]. intros _. exists (f, v).
      by rewrite elem_of_map_to_list.
Qed.

Lemma HSet_reads_witness :
  HGet 10 "h" "f" (snd (HSet "h" {[ "g" := "3" ]} sampleStore)) = Some "1".
Proof.
  destruct (HSet_reads 10 "h" {[ "g" := "3" ]} sampleStore {[ "f" := "1" ]} sampleStore_wf
              (sampleStore_clean "h")) as (H & _); [done|done|]. rewrite H. reflexivity.
Defined.

(** HDEL removes exactly the given fields and replies how many existed; a hash
    left empty disappears with its deadline; a key that is not a visible hash is
    left alone. *)
Theorem HDel_correct now key fields s :
  store_wf s ->
  match view now s key with
  | Some (VHash h, d) =>
      let h' := filter (fun kv => kv.1 ∉ fields) h in
      fst (HDel now key fields s) = Z.of_nat (size h) - Z.of_nat (size h') /\
      updates key (hashEntry h' d) s (snd (HDel now key fields s))
  | _ => HDel now key fields s = (0, s)
  end.
Proof. apply HDel_effect. Qed.

Lemma HDel_correct_witness :
  view 10 (snd (HDel 10 "h" ["f"; "x"] sampleStore)) "h" = None.
Proof.
  destruct (HDel_correct 10 "h" ["f"; "x"] sampleStore sampleStore_wf) as [_ [_ H]].
  rewrite H. reflexivity.
Defined.

(** HSET does not check the type of the key: on a list it puts a hash beside the
    list, hides the list from every command, and the list comes back, without its
    deadline, when the hash's last field is deleted. *)
Theorem HSet_hides_list :
  let s1 := snd (HSet "l" {[ "f" := "v" ]} sampleStore) in
  let s2 := snd (HDel 10 "l" ["f"] s1) in
  view 10 sampleStore "l" = Some (VList ["a"; "b"], Some 1000) /\
  holders (cell_of s1 "l") = [THash; TList] /\
  view 10 s1 "l" = Some (VHash {[ "f" := "v" ]}, Some 1000) /\
  view 10 s2 "l" = Some (VList ["a"; "b"], None).
Proof. split_and!; reflexivity. Qed.

(** Deleting the last field of a hash resets its version counter, so a client
    that watched the key sees the same version after the hash was deleted and
    rebuilt with other contents. *)
Theorem HDel_version_reuse :
  let s1 := snd (HSet "k" {[ "f" := "1" ]} sampleStore) in
  let s2 := snd (HSet "k" {[ "f" := "2" ]} (snd (HDel 10 "k" ["f"] s1))) in
  HGet 10 "k" "f" s1 = Some "1" /\ HGet 10 "k" "f" s2 = Some "2" /\
  Version "k" s1 = Version "k" s2.
Proof. split_and!; reflexivity. Qed.
