(* ===== verification/ZSets.v ===== *)
(** * Sorted sets (internal/storage/memory.go, sorted set operations)

    A sorted set maps members to scores and is sorted on demand by (score,
    member).  For scores that are not NaN that order is total and the members are
    different, so the sorted slice is unique and any correct sort gives it; with
    a NaN score Go's comparison is no order and the program's result is
    unspecified, which the theorems exclude. *)

From S2P Require Import Prelude GoLib Floats Glob Store Keyspace.
From Stdlib Require Import SpecFloat Sorted.
Open Scope go_scope.

(** ** Operations *)

Record ZMember : Type := mkZMember {
  Member : string;
  Score : float64
}.

(** [None] is the nil pointer of an absent key. *)
Definition getZSet (now : Time) (key : string) (s : MemoryStore) : result (option zset) :=
  let t := typeOf now key s in
  if decide (t = TNone) then Ok None
  else if decide (t <> TZset) then Fail ErrWrongType
  else Ok (zsets s !! key).

(** The [less] function of the sort. *)
Definition zless (a b : ZMember) : bool :=
  if negb (F64.eqb (Score a) (Score b)) then F64.ltb (Score a) (Score b)
  else str_ltb (Member a) (Member b).

Fixpoint zinsert (m : ZMember) (l : list ZMember) : list ZMember :=
  match l with
  | [] => [m]
  | x :: l' => if zless m x then m :: l else x :: zinsert m l'
  end.

(** [sort.Slice] with [zless]. *)
Definition zsort (l : list ZMember) : list ZMember := foldr zinsert [] l.

Definition zmembers (z : zset) : list ZMember :=
  (fun kv => mkZMember kv.1 kv.2) <$> map_to_list (scores z).

Definition sortedMembers (z : zset) : list ZMember := zsort (zmembers z).

(** One iteration of the loop of [ZAdd]. *)
Definition zaddOne (nx xx gt lt ch : bool) (m : ZMember) (sc : gmap string float64)
    : Z * gmap string float64 :=
  let old := sc !! Member m in
  let exists_ := bool_decide (is_Some old) in
  let oldScore := default F64.zero old in
  if nx && exists_ then (0, sc)
  else if xx && negb exists_ then (0, sc)
  else if gt && exists_ && F64.leb (Score m) oldScore then (0, sc)
  else if lt && exists_ && F64.leb oldScore (Score m) then (0, sc)
  else
    (if negb exists_ then 1
     else if ch && negb (F64.eqb (Score m) oldScore) then 1 else 0,
     <[Member m := Score m]> sc).

Fixpoint zaddLoop (nx xx gt lt ch : bool) (ms : list ZMember) (sc : gmap string float64)
    : Z * gmap string float64 :=
  match ms with
  | [] => (0, sc)
  | m :: ms' =>
      let '(n, sc) := zaddOne nx xx gt lt ch m sc in
      let '(n', sc) := zaddLoop nx xx gt lt ch ms' sc in
      (n + n', sc)
  end.

(** The scores under [key], created empty when there are none. *)
Definition zscores (key : string) (s : MemoryStore) : gmap string float64 :=
  match zsets s !! key with Some z => scores z | None => ∅ end.

Definition ZAdd (now : Time) (key : string) (members : list ZMember) (nx xx gt lt ch : bool)
    (s : MemoryStore) : result Z * MemoryStore :=
  let t := typeOf now key s in
  if decide (t <> TNone /\ t <> TZset) then (Fail ErrWrongType, s)
  else
    let '(changed, sc) := zaddLoop nx xx gt lt ch members (zscores key s) in
    let s := set_zsets (<[key := mkZset sc]> (zsets s)) s in
    (Ok changed, bumpVersion key s).

(** [delete(s.zsets, key); delete(s.keyExpiry, key)] *)
Definition dropZSet (key : string) (s : MemoryStore) : MemoryStore :=
  set_keyExpiry (delete key (keyExpiry s)) (set_zsets (delete key (zsets s)) s).

(** The in-place change of the scores under [key], dropped when empty. *)
Definition putZSet (key : string) (sc : gmap string float64) (s : MemoryStore) : MemoryStore :=
  let s := set_zsets (<[key := mkZset sc]> (zsets s)) s in
  if decide (size sc = 0%nat) then dropZSet key s else s.

Fixpoint zremLoop (members : list string) (sc : gmap string float64) : Z * gmap string float64 :=
  match members with
  | [] => (0, sc)
  | m :: ms =>
      match sc !! m with
      | Some _ => let '(n, sc') := zremLoop ms (delete m sc) in (n + 1, sc')
      | None => zremLoop ms sc
      end
  end.

Definition ZRem (now : Time) (key : string) (members : list string) (s : MemoryStore)
    : result Z * MemoryStore :=
  match getZSet now key s with
  | Fail e => (Fail e, s)
  | Ok None => (Ok 0, s)
  | Ok (Some z) =>
      let '(n, sc) := zremLoop members (scores z) in
      (Ok n, bumpVersion key (putZSet key sc s))
  end.

Definition ZScore (now : Time) (key member : string) (s : MemoryStore) : result (option float64) :=
  match getZSet now key s with
  | Fail e => Fail e
  | Ok None => Ok None
  | Ok (Some z) => Ok (scores z !! member)
  end.

(** [len(z.scores)] dereferences the nil pointer of an absent key. *)
Definition ZCard (now : Time) (key : string) (s : MemoryStore) : may_panic (result Z) :=
  match getZSet now key s with
  | Fail e => Ret (Fail e)
  | Ok None => Panic
  | Ok (Some z) => Ret (Ok (Z.of_nat (size (scores z))))
  end.

(** The index of the first element that is [member], counting from [i]. *)
Fixpoint rankOf (member : string) (l : list ZMember) (i : Z) : option Z :=
  match l with
  | [] => None
  | m :: l' => if decide (Member m = member) then Some i else rankOf member l' (i + 1)
  end.

Definition ZRank (now : Time) (key member : string) (s : MemoryStore) : result (option Z) :=
  match getZSet now key s with
  | Fail e => Fail e
  | Ok None => Ok None
  | Ok (Some z) =>
      match scores z !! member with
      | None => Ok None
      | Some _ => Ok (rankOf member (sortedMembers z) 0)
      end
  end.

Definition ZRevRank (now : Time) (key member : string) (s : MemoryStore) : result (option Z) :=
  match getZSet now key s with
  | Fail e => Fail e
  | Ok None => Ok None
  | Ok (Some z) =>
      match scores z !! member with
      | None => Ok None
      | Some _ =>
          let sorted := sortedMembers z in
          Ok (match rankOf member sorted 0 with
              | Some i => Some (llen sorted - 1 - i)
              | None => None
              end)
      end
  end.

Definition ZIncrBy (now : Time) (key : string) (increment : float64) (member : string)
    (s : MemoryStore) : result float64 * MemoryStore :=
  let t := typeOf now key s in
  if decide (t <> TNone /\ t <> TZset) then (Fail ErrWrongType, s)
  else
    let sc := zscores key s in
    let new := F64.add (default F64.zero (sc !! member)) increment in
    let s := set_zsets (<[key := mkZset (<[member := new]> sc)]> (zsets s)) s in
    (Ok new, bumpVersion key s).

Definition formatScore (f : float64) : string :=
  match f with
  | S754_infinity false => "inf"
  | S754_infinity true => "-inf"
  | _ => FormatFloat_g f
  end.

(** The strings a range reply holds for its members. *)
Fixpoint withScoresOf (withScores : bool) (l : list ZMember) : list string :=
  match l with
  | [] => []
  | m :: l' =>
      Member m :: (if withScores then [formatScore (Score m)] else []) ++ withScoresOf withScores l'
  end.

Definition ZRange (now : Time) (key : string) (start stop : Z) (rev withScores : bool)
    (s : MemoryStore) : may_panic (result (list string)) :=
  match getZSet now key s with
  | Fail e => Ret (Fail e)
  | Ok None => Ret (Ok [])
  | Ok (Some z) =>
      if decide (size (scores z) = 0%nat) then Ret (Ok [])
      else
        let sorted := sortedMembers z in
        let n := llen sorted in
        let start := if start <? 0 then n + start else start in
        let stop := if stop <? 0 then n + stop else stop in
        let start := if start <? 0 then 0 else start in
        let stop := if n <=? stop then n - 1 else stop in
        if stop <? start then Ret (Ok [])
        else
          let! part := slice sorted start (stop + 1) in
          let part := if rev then List.rev part else part in
          Ret (Ok (withScoresOf withScores part))
  end.

(** The loop shared by the range queries: skip [offset] hits, take [count] of them
    (all when negative). *)
Fixpoint limitLoop (hit : ZMember -> bool) (offset count skipped taken : Z) (l : list ZMember)
    : list ZMember :=
  match l with
  | [] => []
  | m :: l' =>
      if negb (hit m) then limitLoop hit offset count skipped taken l'
      else if skipped <? offset then limitLoop hit offset count (skipped + 1) taken l'
      else if (0 <=? count) && (count <=? taken) then []
      else m :: limitLoop hit offset count skipped (taken + 1) l'
  end.

(** The four [continue] tests of the score loops. *)
Definition scoreHit (min max : float64) (minExcl maxExcl : bool) (m : ZMember) : bool :=
  negb (minExcl && F64.leb (Score m) min) &&
  negb (negb minExcl && F64.ltb (Score m) min) &&
  negb (maxExcl && F64.leb max (Score m)) &&
  negb (negb maxExcl && F64.ltb max (Score m)).

Definition ZRangeByScore (now : Time) (key : string) (min max : float64) (minExcl maxExcl : bool)
    (withScores : bool) (offset count : Z) (s : MemoryStore) : result (list string) :=
  match getZSet now key s with
  | Fail e => Fail e
  | Ok None => Ok []
  | Ok (Some z) =>
      Ok (withScoresOf withScores
            (limitLoop (scoreHit min max minExcl maxExcl) offset count 0 0 (sortedMembers z)))
  end.

Definition ZRevRangeByScore (now : Time) (key : string) (max min : float64)
    (maxExcl minExcl : bool) (withScores : bool) (offset count : Z) (s : MemoryStore)
    : result (list string) :=
  match getZSet now key s with
  | Fail e => Fail e
  | Ok None => Ok []
  | Ok (Some z) =>
      Ok (withScoresOf withScores
            (limitLoop (scoreHit min max minExcl maxExcl) offset count 0 0
               (List.rev (sortedMembers z))))
  end.

Definition countHit (min max : float64) (minExcl maxExcl : bool) (sc : float64) : bool :=
  let lo := (negb minExcl && F64.leb min sc) || (minExcl && F64.ltb min sc) in
  let hi := (negb maxExcl && F64.leb sc max) || (maxExcl && F64.ltb sc max) in
  lo && hi.

Definition ZCount (now : Time) (key : string) (min max : float64) (minExcl maxExcl : bool)
    (s : MemoryStore) : result Z :=
  match getZSet now key s with
  | Fail e => Fail e
  | Ok None => Ok 0
  | Ok (Some z) =>
      Ok (llen (filter (fun m => countHit min max minExcl maxExcl (Score m)) (zmembers z)))
  end.

(** (value, exclusive, isNegInf, isPosInf) *)
Definition parseLexBound (s : string) : string * bool * bool * bool :=
  if String.eqb s "-" then ("", false, true, false)
  else if String.eqb s "+" then ("", false, false, true)
  else match s with
       | String c s' =>
           if Ascii.eqb c "("%char then (s', true, false, false)
           else if Ascii.eqb c "["%char then (s', false, false, false)
           else (s, false, false, false)
       | EmptyString => (s, false, false, false)
       end.

Definition lexHit (min max : string) (m : ZMember) : bool :=
  let '(minVal, minExcl, minNeg, _) := parseLexBound min in
  let '(maxVal, maxExcl, _, maxPos) := parseLexBound max in
  let lt := str_ltb (Member m) minVal in
  let gt := str_ltb maxVal (Member m) in
  (minNeg || (negb (minExcl && negb (str_ltb minVal (Member m))) && negb (negb minExcl && lt))) &&
  (maxPos || (negb (maxExcl && negb (str_ltb (Member m) maxVal)) && negb (negb maxExcl && gt))).

Definition ZRangeByLex (now : Time) (key min max : string) (offset count : Z) (s : MemoryStore)
    : result (list string) :=
  match getZSet now key s with
  | Fail e => Fail e
  | Ok None => Ok []
  | Ok (Some z) =>
      Ok (Member <$> limitLoop (lexHit min max) offset count 0 0 (sortedMembers z))
  end.

Definition ZLexCount (now : Time) (key min max : string) (s : MemoryStore) : result Z :=
  match ZRangeByLex now key min max 0 (-1) s with
  | Fail e => Fail e
  | Ok l => Ok (llen l)
  end.

Definition zdelete (l : list ZMember) (sc : gmap string float64) : gmap string float64 :=
  foldl (fun sc m => delete (Member m) sc) sc l.

(** The two pops take [count] members of the slice [from] computes. *)
Definition zpop (from : list ZMember -> list ZMember) (now : Time) (key : string) (count : Z)
    (s : MemoryStore) : may_panic (result (list ZMember) * MemoryStore) :=
  match getZSet now key s with
  | Fail e => Ret (Fail e, s)
  | Ok None => Ret (Ok [], s)
  | Ok (Some z) =>
      if decide (size (scores z) = 0%nat) then Ret (Ok [], s)
      else
        let sorted := sortedMembers z in
        let count := if llen sorted <? count then llen sorted else count in
        if count <? 0 then Panic
        else
          let result := ltake count (from sorted) in
          let s := putZSet key (zdelete result (scores z)) s in
          Ret (Ok result, bumpVersion key s)
  end.

Definition ZPopMin : Time -> string -> Z -> MemoryStore ->
    may_panic (result (list ZMember) * MemoryStore) := zpop (fun l => l).

(** [sorted[n-1-i]] for [i] from 0: the slice from its end. *)
Definition ZPopMax : Time -> string -> Z -> MemoryStore ->
    may_panic (result (list ZMember) * MemoryStore) := zpop (@List.rev ZMember).

Definition applyAggregate (a b : float64) (agg : string) : float64 :=
  let u := ToUpper agg in
  if String.eqb u "MIN" then if F64.ltb b a then b else a
  else if String.eqb u "MAX" then if F64.ltb a b then b else a
  else F64.add a b.

(** [weights[i]] when there is one, else 1. *)
Definition weightAt (weights : list float64) (i : nat) : float64 :=
  default (F64.of_Z 1) (weights !! i).

Definition unionInto (w : float64) (agg : string) (acc : gmap string float64)
    (l : list (string * float64)) : gmap string float64 :=
  foldl (fun acc kv =>
           let weighted := F64.mul kv.2 w in
           match acc !! kv.1 with
           | None => <[kv.1 := weighted]> acc
           | Some cur => <[kv.1 := applyAggregate cur weighted agg]> acc
           end) acc l.

Fixpoint zunionLoop (now : Time) (keys : list string) (i : nat) (weights : list float64)
    (agg : string) (acc : gmap string float64) (s : MemoryStore)
    : result (gmap string float64) :=
  match keys with
  | [] => Ok acc
  | k :: keys' =>
      match getZSet now k s with
      | Fail e => Fail e
      | Ok None => zunionLoop now keys' (S i) weights agg acc s
      | Ok (Some z) =>
          zunionLoop now keys' (S i) weights agg
            (unionInto (weightAt weights i) agg acc (map_to_list (scores z))) s
      end
  end.

(** [s.deleteKey(dst)] and the new sorted set, if it is not empty. *)
Definition storeScores (dst : string) (sc : gmap string float64) (s : MemoryStore) : MemoryStore :=
  let s := deleteKey dst s in
  if decide (size sc = 0%nat) then s
  else bumpVersion dst (set_zsets (<[dst := mkZset sc]> (zsets s)) s).

Definition ZUnionStore (now : Time) (dst : string) (keys : list string) (weights : list float64)
    (aggregate : string) (s : MemoryStore) : result Z * MemoryStore :=
  match zunionLoop now keys 0 weights aggregate ∅ s with
  | Fail e => (Fail e, s)
  | Ok sc => (Ok (Z.of_nat (size sc)), storeScores dst sc s)
  end.

(** [newScores]: the members [z] has too, aggregated; none when [z] is nil. *)
Definition interWith (w : float64) (agg : string) (z : option zset) (acc : gmap string float64)
    : gmap string float64 :=
  match z with
  | None => ∅
  | Some z =>
      map_imap (fun m sc =>
        match scores z !! m with
        | Some zsc => Some (applyAggregate sc (F64.mul zsc w) agg)
        | None => None
        end) acc
  end.

Fixpoint zinterLoop (now : Time) (keys : list string) (i : nat) (weights : list float64)
    (agg : string) (acc : gmap string float64) (s : MemoryStore)
    : result (gmap string float64) :=
  match keys with
  | [] => Ok acc
  | k :: keys' =>
      match getZSet now k s with
      | Fail e => Fail e
      | Ok z => zinterLoop now keys' (S i) weights agg (interWith (weightAt weights i) agg z acc) s
      end
  end.

Definition ZInterStore (now : Time) (dst : string) (keys : list string) (weights : list float64)
    (aggregate : string) (s : MemoryStore) : result Z * MemoryStore :=
  match keys with
  | [] => (Ok 0, s)
  | k0 :: keys' =>
      match getZSet now k0 s with
      | Fail e => (Fail e, s)
      | Ok first =>
          let acc := match first with
                     | Some z => (fun sc => F64.mul sc (weightAt weights 0)) <$> scores z
                     | None => ∅
                     end in
          match zinterLoop now keys' 1 weights aggregate acc s with
          | Fail e => (Fail e, s)
          | Ok sc => (Ok (Z.of_nat (size sc)), storeScores dst sc s)
          end
      end
  end.

(** ** The order of the members *)

Definition regular (m : ZMember) : Prop := F64.IsNaN (Score m) = false.

(** No score of the sorted set is NaN. *)
Definition nan_free (sc : gmap string float64) : Prop :=
  forall m f, sc !! m = Some f -> F64.IsNaN f = false.

Lemma zless_spec a b :
  regular a -> regular b ->
  (zless a b = true <->
   rank_lt (frank (Score a)) (frank (Score b)) \/
   (frank (Score a) = frank (Score b) /\ str_ltb (Member a) (Member b) = true)).
Proof.
  intros Ha Hb. unfold zless.
  pose proof (ltb_rank _ _ Ha Hb) as Hl. pose proof (eqb_rank _ _ Ha Hb) as He.
  destruct (F64.eqb (Score a) (Score b)); cbn [negb].
  - assert (frank (Score a) = frank (Score b)) as Heq by tauto. rewrite Heq in *.
    split; [tauto|]. intros [Hr|[_ ?]]; [|done].
    destruct (frank (Score b)) as [[b1 b2] b3]. cbn in Hr. lia.
  - rewrite Hl. split; [tauto|]. intros [?|[H _]]; [done|]. by apply He in H.
Qed.

Lemma rank_lt_trans a b c : rank_lt a b -> rank_lt b c -> rank_lt a c.
Proof. destruct a as [[??]?], b as [[??]?], c as [[??]?]. cbn. lia. Qed.

Lemma zless_trans a b c :
  regular a -> regular b -> regular c ->
  zless a b = true -> zless b c = true -> zless a c = true.
Proof.
  intros Ha Hb Hc. rewrite !zless_spec by done. intros [H1|[H1 H1']] [H2|[H2 H2']].
  - left. by eapply rank_lt_trans.
  - left. by rewrite <- H2.
  - left. by rewrite H1.
  - right. split; [congruence|]. by eapply str_ltb_trans.
Qed.

Lemma zless_total a b :
  regular a -> regular b -> zless a b = false -> Member a <> Member b -> zless b a = true.
Proof.
  intros Ha Hb Hf Hne. apply zless_spec; [done..|].
  destruct (str_ltb (Member b) (Member a)) eqn:E1.
  - assert (~ rank_lt (frank (Score a)) (frank (Score b))) as Hn.
    { intros H. assert (zless a b = true) by (apply zless_spec; auto). congruence. }
    destruct (frank (Score a)) as [[a1 a2] a3], (frank (Score b)) as [[b1 b2] b3]. cbn in *.
    destruct (decide ((a1, a2, a3) = (b1, b2, b3))) as [[=]|Hd]; [right; subst; auto|].
    left. assert (a1 <> b1 \/ a2 <> b2 \/ a3 <> b3) by
      (destruct (decide (a1 = b1)), (decide (a2 = b2)), (decide (a3 = b3)); subst; tauto).
    lia.
  - destruct (str_ltb (Member a) (Member b)) eqn:E2; [|by destruct Hne; apply str_ltb_total].
    left. assert (~ (rank_lt (frank (Score a)) (frank (Score b)) \/
                     frank (Score a) = frank (Score b))) as Hn.
    { intros H. assert (zless a b = true) by (apply zless_spec; tauto). congruence. }
    destruct (frank (Score a)) as [[a1 a2] a3], (frank (Score b)) as [[b1 b2] b3]. cbn in *.
    assert (a1 <> b1 \/ a2 <> b2 \/ a3 <> b3) by
      (destruct (decide (a1 = b1)), (decide (a2 = b2)), (decide (a3 = b3)); subst; tauto).
    lia.
Qed.

(** ** Sorting *)

Lemma zinsert_perm m l : zinsert m l ≡ₚ m :: l.
Proof.
  induction l as [|x l IH]; cbn; [done|]. destruct (zless m x); [done|].
  rewrite IH. apply Permutation_swap.
Qed.

Lemma zsort_perm l : zsort l ≡ₚ l.
Proof. induction l as [|m l IH]; cbn; [done|]. by rewrite zinsert_perm, IH. Qed.

(** Every element is [zless] than the ones after it. *)
Definition zsorted (l : list ZMember) : Prop :=
  StronglySorted (fun a b => zless a b = true) l.

Lemma zinsert_sorted m l :
  regular m -> Forall regular l -> Forall (fun x => Member x <> Member m) l ->
  zsorted l -> zsorted (zinsert m l).
Proof.
  intros Hm Hr Hne Hs. unfold zsorted in *. induction Hs as [|x l Hs IH Hx]; cbn;
    [by repeat constructor|].
  apply Forall_cons in Hr as [Hrx Hr]. apply Forall_cons in Hne as [Hnx Hne].
  destruct (zless m x) eqn:E.
  - constructor; [by constructor|]. constructor; [done|].
    apply Forall_forall. intros y Hy. rewrite Forall_forall in Hx, Hr.
    eapply (zless_trans m x y); auto.
  - constructor; [by apply IH|]. rewrite zinsert_perm. constructor; [|done].
    by apply zless_total.
Qed.

Lemma zsort_sorted l :
  Forall regular l -> NoDup (Member <$> l) -> zsorted (zsort l).
Proof.
  induction l as [|m l IH]; cbn; intros Hr Hnd; [constructor|].
  apply Forall_cons in Hr as [Hm Hr]. apply NoDup_cons in Hnd as [Hn Hnd].
  apply zinsert_sorted; [done|by rewrite zsort_perm| |by apply IH].
  rewrite zsort_perm. apply Forall_forall. intros x Hx He. apply Hn.
  rewrite <- He. by apply list_elem_of_fmap_2.
Qed.

Lemma zmembers_regular z : nan_free (scores z) -> Forall regular (zmembers z).
Proof.
  intros Hn. apply Forall_forall. intros m. unfold zmembers. rewrite list_elem_of_fmap.
  intros ([k f] & -> & Hm%elem_of_map_to_list). by apply (Hn k).
Qed.

Lemma zmembers_names z : Member <$> zmembers z = (map_to_list (scores z)).*1.
Proof. unfold zmembers. rewrite <- list_fmap_compose. apply list_fmap_ext. done. Qed.

Lemma elem_zmembers z m : m ∈ zmembers z <-> scores z !! Member m = Some (Score m).
Proof.
  unfold zmembers. rewrite list_elem_of_fmap. split.
  - intros ([k f] & -> & Hm%elem_of_map_to_list). done.
  - intros H. exists (Member m, Score m). rewrite elem_of_map_to_list. by destruct m.
Qed.

Lemma sortedMembers_perm z : sortedMembers z ≡ₚ zmembers z.
Proof. apply zsort_perm. Qed.

Lemma sortedMembers_NoDup z : NoDup (Member <$> sortedMembers z).
Proof. rewrite sortedMembers_perm, zmembers_names. apply NoDup_fst_map_to_list. Qed.

Lemma sortedMembers_sorted z : nan_free (scores z) -> zsorted (sortedMembers z).
Proof.
  intros Hn. apply zsort_sorted; [by apply zmembers_regular|].
  rewrite zmembers_names. apply NoDup_fst_map_to_list.
Qed.

Lemma llen_sortedMembers z : llen (sortedMembers z) = Z.of_nat (size (scores z)).
Proof.
  unfold llen. rewrite sortedMembers_perm. unfold zmembers.
  by rewrite length_fmap, length_map_to_list.
Qed.

(** ** Range queries *)

(** Skip [n], then take [c] (everything when [c] is negative). *)
Definition window {A} (n c : Z) (l : list A) : list A :=
  let r := ldrop n l in if c <? 0 then r else ltake c r.

Lemma limitLoop_spec hit offset count skipped taken l :
  skipped <= Z.max 0 offset -> 0 <= taken -> (0 <= count -> taken <= count) ->
  limitLoop hit offset count skipped taken l =
    window (offset - skipped) (if count <? 0 then count else count - taken) (filter hit l).
Proof.
  revert skipped taken. induction l as [|m l IH]; intros sk tk H1 H2 H3; cbn [limitLoop].
  - unfold window, ldrop, ltake. rewrite filter_nil, drop_nil, take_nil. by destruct (_ <? 0).
  - rewrite filter_cons. destruct (hit m) eqn:Hh; cbn [negb].
    2:{ rewrite decide_False by (cbn; tauto). by apply IH. }
    rewrite decide_True by (cbn; tauto). destruct (sk <? offset) eqn:E1; zbool.
    + rewrite IH by lia. unfold window, ldrop.
      by replace (Z.to_nat (offset - sk)) with (S (Z.to_nat (offset - (sk + 1)))) by lia.
    + destruct ((0 <=? count) && (count <=? tk)) eqn:E2; zbool.
      * assert (count = tk) as -> by lia. zfalse (tk <? 0). rewrite Z.sub_diag.
        unfold window, ltake. change (0 <? 0) with false. by rewrite take_0.
      * assert (count < 0 \/ tk < count) as Hc.
        { apply andb_false_iff in E2 as [E2|E2]; zbool; lia. }
        rewrite IH by lia. unfold window, ldrop.
        replace (Z.to_nat (offset - sk)) with O by lia. rewrite !drop_0.
        destruct (count <? 0) eqn:E3; zbool; [by ztrue (count <? 0)|].
        zfalse (count - (tk + 1) <? 0). zfalse (count - tk <? 0). unfold ltake.
        by replace (Z.to_nat (count - tk)) with (S (Z.to_nat (count - (tk + 1)))) by lia.
Qed.

Lemma limitLoop_window hit offset count l :
  limitLoop hit offset count 0 0 l = window offset count (filter hit l).
Proof.
  rewrite limitLoop_spec by lia. rewrite Z.sub_0_r. f_equal. by destruct (count <? 0); [|lia].
Qed.

(** [scoreHit] is membership in the interval, for scores and bounds that are not
    NaN; [countHit] is the same test. *)
Lemma scoreHit_countHit min max minExcl maxExcl m :
  F64.IsNaN min = false -> F64.IsNaN max = false -> regular m ->
  scoreHit min max minExcl maxExcl m = countHit min max minExcl maxExcl (Score m).
Proof.
  intros Hmin Hmax Hm. unfold scoreHit, countHit.
  assert (forall f g, F64.IsNaN f = false -> F64.IsNaN g = false ->
            F64.ltb f g = negb (F64.leb g f)) as Hneg.
  { intros f g Hf Hg. apply eq_bool_prop_intro. rewrite negb_True, !Is_true_true.
    rewrite ltb_rank, leb_rank by done.
    destruct (frank f) as [[??]?], (frank g) as [[??]?]. cbn. lia. }
  rewrite !(Hneg _ _) by done.
  destruct minExcl, maxExcl, (F64.leb (Score m) min), (F64.leb min (Score m)),
    (F64.leb max (Score m)), (F64.leb (Score m) max); done.
Qed.

Lemma filter_ext_regular (P Q : ZMember -> bool) l :
  Forall regular l -> (forall m, regular m -> P m = Q m) -> filter P l = filter Q l.
Proof.
  intros Hr H. induction Hr as [|m l Hm Hr IH]; [done|]. rewrite !filter_cons, IH.
  by rewrite (H m Hm).
Qed.

Lemma rankOf_spec member l i :
  match rankOf member l i with
  | Some j => exists n m, j = i + Z.of_nat n /\ l !! n = Some m /\ Member m = member
  | None => member ∉ (Member <$> l)
  end.
Proof.
  revert i. induction l as [|m l IH]; intros i; cbn [rankOf]; [apply not_elem_of_nil|].
  case_decide as Hm.
  - exists 0%nat, m. split; [lia|]. done.
  - specialize (IH (i + 1)). destruct (rankOf member l (i + 1)) as [j|].
    + destruct IH as (n & m' & -> & Hl & Hm'). exists (S n), m'. split; [lia|]. done.
    + cbn. rewrite not_elem_of_cons. done.
Qed.

(** ** Keys *)

Definition zsetOf (e : option entry) : option (gmap string float64 * option Time) :=
  match e with
  | None => Some (∅, None)
  | Some (VZset sc, d) => Some (sc, d)
  | Some _ => None
  end.

Definition zsetEntry (sc : gmap string float64) (d : option Time) : option entry :=
  if decide (sc = ∅) then None else Some (VZset sc, d).

Lemma getZSet_view now k s :
  store_wf s ->
  getZSet now k s =
    match view now s k with
    | None => Ok None
    | Some (VZset sc, _) => Ok (Some (mkZset sc))
    | Some _ => Fail ErrWrongType
    end.
Proof.
  intros Hs. unfold getZSet. rewrite typeOf_view.
  destruct (view now s k) as [[v d]|] eqn:Hv; [|done].
  destruct (view_cell _ _ _ _ Hs Hv) as [Hc _].
  destruct v; cbn [valType]; rewrite ?decide_False by done; try (by rewrite decide_True by done).
  rewrite decide_False by (intros H; by apply H).
  by assert (zsets s !! k = Some (mkZset z)) as ->
    by (change (cZset (cell_of s k) = Some (mkZset z)); by rewrite Hc).
Qed.

Lemma cell_put_zset k z s k' :
  cell_of (set_zsets (<[k := z]> (zsets s)) s) k' =
    if decide (k = k') then
      mkCell (strings s !! k') (hashes s !! k') (lists s !! k') (sets s !! k') (Some z)
        (keyExpiry s !! k')
    else cell_of s k'.
Proof. cell_simpl. by cell_cases. Qed.

Lemma cell_dropZSet k s k' :
  cell_of (dropZSet k s) k' =
    if decide (k = k') then
      mkCell (strings s !! k') (hashes s !! k') (lists s !! k') (sets s !! k') None None
    else cell_of s k'.
Proof. cell_simpl. by cell_cases. Qed.

(** What an operation that creates the key on demand finds. *)
Lemma zset_key now s k sc d :
  store_wf s -> clean now s k -> zsetOf (view now s k) = Some (sc, d) ->
  ~ (typeOf now k s <> TNone /\ typeOf now k s <> TZset) /\ zscores k s = sc /\
  d <> Some zeroTime /\
  strings s !! k = None /\ hashes s !! k = None /\ lists s !! k = None /\ sets s !! k = None /\
  keyExpiry s !! k = d.
Proof.
  intros Hs Hc Hz.
  destruct (key_case_intro now s k TZset Hs Hc) as [Hv Ht Hx|v d' Hv Hy Ht Hx Ho|v d' Hv Hy Ht];
    rewrite Hv in Hz; cbn in Hz; unfold cell_of, zscores in *; rewrite Ht.
  - unfold emptyCell in Hx. simplify_eq. rewrite H2. split_and!; try done. tauto.
  - destruct v; try done. simplify_eq. cbn in Hx. simplify_eq. rewrite H2.
    destruct Ho. split_and!; try done. tauto.
  - by destruct v.
Qed.

Lemma zset_write now s k sc d sc' :
  store_wf s -> clean now s k -> zsetOf (view now s k) = Some (sc, d) ->
  updates k (Some (VZset sc', d)) s
    (bumpVersion k (set_zsets (<[k := mkZset sc']> (zsets s)) s)).
Proof.
  intros Hs Hc Hz. destruct (zset_key now s k sc d Hs Hc Hz) as (_ & _ & Hd & H1 & H2 & H3 & H4 & H5).
  apply updates_bump, write_key; [|done|].
  - intros k'. rewrite cell_put_zset. case_decide as Hk; [|done]. subst k'. cbn. congruence.
  - intros x [= <-]. done.
Qed.

(** Writing back the scores of a visible sorted set. *)
Lemma putZSet_effect now s k sc d sc' :
  store_wf s -> view now s k = Some (VZset sc, d) ->
  updates k (zsetEntry sc' d) s (putZSet k sc' s).
Proof.
  intros Hs Hv. destruct (view_cell _ _ _ _ Hs Hv) as [Hc Hd]. cbn in Hc, Hd.
  unfold cell_of in Hc. unfold putZSet, zsetEntry.
  rewrite (decide_ext _ _ _ _ (map_size_empty_iff sc')).
  destruct (decide (sc' = ∅)) as [He|He]; apply write_key; try done.
  - intros k'. rewrite cell_dropZSet. case_decide as Hk.
    + subst k'. cbn. unfold emptyCell. congruence.
    + rewrite cell_put_zset. by rewrite decide_False.
  - intros k'. rewrite cell_put_zset. case_decide as Hk; [|done]. subst k'. cbn. congruence.
  - intros x [= <-]. done.
Qed.

(** ** ZADD *)

Lemma leb_refl f : F64.IsNaN f = false -> F64.leb f f = true.
Proof. intros Hf. apply leb_rank; [done..|]. destruct (frank f) as [[??]?]. cbn. lia. Qed.

Lemma leb_total f g :
  F64.IsNaN f = false -> F64.IsNaN g = false -> F64.leb f g = false -> F64.leb g f = true.
Proof.
  intros Hf Hg Hl. apply leb_rank; [done..|]. intros Hr.
  assert (F64.leb f g = true); [|congruence]. apply leb_rank; [done..|].
  destruct (frank f) as [[??]?], (frank g) as [[??]?]. cbn in *. lia.
Qed.

Lemma leb_ltb f g :
  F64.IsNaN f = false -> F64.IsNaN g = false -> F64.leb f g = negb (F64.ltb g f).
Proof.
  intros Hf Hg. pose proof (leb_rank f g Hf Hg) as Hl. pose proof (ltb_rank g f Hg Hf) as Ht.
  destruct (F64.leb f g), (F64.ltb g f); cbn; try done; exfalso; intuition.
Qed.

Lemma eqb_sym f g :
  F64.IsNaN f = false -> F64.IsNaN g = false -> F64.eqb f g = F64.eqb g f.
Proof.
  intros Hf Hg. apply eq_true_iff_eq. rewrite !eqb_rank by done. split; congruence.
Qed.

Lemma eqb_refl f : F64.IsNaN f = false -> F64.eqb f f = true.
Proof. intros Hf. by apply eqb_rank. Qed.

(** What ZADD makes of a member that has the score [old], or none, when it is given the
    score [new]: NX leaves the members there are, XX adds none, GT takes greater scores
    only and LT smaller ones. *)
Definition offered (nx xx gt lt : bool) (old : option float64) (new : float64) : option float64 :=
  match old with
  | None => if xx then None else Some new
  | Some cur =>
      let wanted := negb nx && (negb gt || F64.ltb cur new) && (negb lt || F64.ltb new cur) in
      Some (if wanted then new else cur)
  end.

(** The scores listed for a member are offered one after another. *)
Definition scoreAfter (nx xx gt lt : bool) (ms : list ZMember) (k : string)
    (old : option float64) : option float64 :=
  foldl (offered nx xx gt lt) old (Score <$> filter (fun m => Member m = k) ms).

Definition scoreDiffers (old new : option float64) : bool :=
  match old, new with
  | Some f, Some g => negb (F64.eqb f g)
  | None, Some _ => true
  | _, None => false
  end.

(** The scores after ZADD and its reply: the number of new members, with CH the number of
    members that are new or have another score (for members listed once each). *)
Record added (ms : list ZMember) (nx xx gt lt ch : bool) (sc : gmap string float64) (n : Z)
    (sc' : gmap string float64) : Prop := mkAdded {
  add_scores : forall k, sc' !! k = scoreAfter nx xx gt lt ms k (sc !! k);
  add_count : ch = false -> n = Z.of_nat (size sc') - Z.of_nat (size sc);
  add_changed : ch = true -> NoDup (Member <$> ms) ->
    n = llen (filter (fun m => scoreDiffers (sc !! Member m) (sc' !! Member m)) ms);
  add_nan : nan_free sc'
}.

Lemma scoreAfter_cons nx xx gt lt m ms k old :
  scoreAfter nx xx gt lt (m :: ms) k old =
    scoreAfter nx xx gt lt ms k
      (if decide (Member m = k) then offered nx xx gt lt old (Score m) else old).
Proof. unfold scoreAfter. rewrite filter_cons. by case_decide. Qed.

Lemma scoreAfter_unlisted nx xx gt lt ms k old :
  (k ∉ Member <$> ms) -> scoreAfter nx xx gt lt ms k old = old.
Proof.
  induction ms as [|m ms IH]; [done|]. rewrite fmap_cons. intros [Hk Hn]%not_elem_of_cons.
  rewrite scoreAfter_cons, decide_False by done. by apply IH.
Qed.

Lemma filter_agree {A} (P Q : A -> bool) (l : list A) :
  (forall x, x ∈ l -> P x = Q x) -> filter P l = filter Q l.
Proof.
  induction l as [|x l IH]; intros H; [done|]. rewrite !filter_cons.
  rewrite IH by (intros y Hy; apply H; by right). pose proof (H x ltac:(by left)) as E.
  repeat case_decide; try done; exfalso; by rewrite E in *.
Qed.

(** One iteration skips the pair or writes it, as it is offered. *)
Lemma zaddOne_cases nx xx gt lt ch m sc :
  regular m -> nan_free sc ->
  (zaddOne nx xx gt lt ch m sc = (0, sc) /\
   offered nx xx gt lt (sc !! Member m) (Score m) = sc !! Member m) \/
  exists n, zaddOne nx xx gt lt ch m sc = (n, <[Member m := Score m]> sc) /\
    offered nx xx gt lt (sc !! Member m) (Score m) = Some (Score m) /\
    n = match sc !! Member m with
        | None => 1
        | Some f => if ch && negb (F64.eqb f (Score m)) then 1 else 0
        end.
Proof.
  intros Hm Hn. unfold zaddOne, offered. destruct (sc !! Member m) as [f|] eqn:E; cbn.
  - pose proof (Hn _ _ E) as Hf. change (bool_decide (is_Some (Some f))) with true.
    change (id f) with f. rewrite !andb_true_r, andb_false_r, !leb_ltb by done. cbn [negb].
    rewrite (eqb_sym (Score m) f) by done.
    destruct nx; [by left|]. destruct gt, (F64.ltb f (Score m)); cbn; try by left.
    all: destruct lt, (F64.ltb (Score m) f); cbn; try (by left); right; eexists; split_and!; done.
  - change (bool_decide (is_Some None)) with false. rewrite !andb_false_r. cbn [negb].
    rewrite andb_true_r. destruct xx; [by left|]. right. eexists. by split_and!.
Qed.

Lemma zaddOne_spec nx xx gt lt ch m sc :
  regular m -> nan_free sc ->
  let '(n, sc') := zaddOne nx xx gt lt ch m sc in
  (forall k, sc' !! k =
     if decide (Member m = k) then offered nx xx gt lt (sc !! k) (Score m) else sc !! k) /\
  (ch = true -> n = if scoreDiffers (sc !! Member m) (sc' !! Member m) then 1 else 0) /\
  (ch = false -> n = Z.of_nat (size sc') - Z.of_nat (size sc)) /\
  nan_free sc'.
Proof.
  intros Hm Hn.
  destruct (zaddOne_cases nx xx gt lt ch m sc Hm Hn) as [[-> Ho]|(n & -> & Ho & ->)]; split_and!.
  - intros k. case_decide; by subst.
  - intros _. destruct (sc !! Member m) as [f|] eqn:E; [|done]. cbn.
    by rewrite eqb_refl by (by eapply Hn).
  - lia.
  - done.
  - intros k. rewrite lookup_insert. case_decide; by subst.
  - intros ->. rewrite lookup_insert_eq. by destruct (sc !! Member m).
  - intros ->. rewrite map_size_insert. destruct (sc !! Member m); unfold id; cbn; lia.
  - intros k f. rewrite lookup_insert. case_decide; [by intros [= <-]|apply Hn].
Qed.

Lemma zaddLoop_spec nx xx gt lt ch ms sc :
  Forall regular ms -> nan_free sc ->
  let '(n, sc') := zaddLoop nx xx gt lt ch ms sc in added ms nx xx gt lt ch sc n sc'.
Proof.
  intros Hr. revert sc. induction Hr as [|m ms Hm Hr IH]; intros sc Hn; cbn [zaddLoop].
  - split; [done|lia|done|done].
  - pose proof (zaddOne_spec nx xx gt lt ch m sc Hm Hn) as H1.
    destruct (zaddOne nx xx gt lt ch m sc) as [n1 sc1]. destruct H1 as (Hs1 & Hc1 & Hz1 & Hn1).
    specialize (IH sc1 Hn1). destruct (zaddLoop nx xx gt lt ch ms sc1) as [n2 sc2].
    destruct IH as [Hs2 Hz2 Hc2 Hn2]. split; [| | |done].
    + intros k. by rewrite scoreAfter_cons, Hs2, Hs1.
    + intros Hch. rewrite Hz1, Hz2 by done. lia.
    + intros Hch Hnd. rewrite fmap_cons in Hnd. apply NoDup_cons in Hnd as [Hk Hnd].
      rewrite Hc1, Hc2, filter_cons by done.
      assert (sc2 !! Member m = sc1 !! Member m) as -> by (by rewrite Hs2, scoreAfter_unlisted).
      rewrite (filter_agree (fun m => scoreDiffers (sc1 !! Member m) (sc2 !! Member m))
                 (fun m => scoreDiffers (sc !! Member m) (sc2 !! Member m))).
      * case_decide; destruct (scoreDiffers _ _); try done; unfold llen; cbn [length]; lia.
      * intros x Hx. rewrite Hs1, decide_False; [done|]. intros E. apply Hk. rewrite E.
        by apply list_elem_of_fmap_2.
Qed.

Lemma zdelete_lookup l sc k :
  zdelete l sc !! k = if decide (k ∈ Member <$> l) then None else sc !! k.
Proof.
  unfold zdelete. revert sc. induction l as [|m l IH]; intros sc; cbn [foldl fmap].
  - rewrite decide_False; [done|]. apply not_elem_of_nil.
  - rewrite IH, lookup_delete. cbn [fmap list_fmap].
    destruct (decide (k ∈ Member <$> l)) as [H|H].
    + rewrite decide_True; [done|]. by right.
    + case_decide as E.
      * subst k. rewrite decide_True; [done|]. by left.
      * rewrite decide_False; [done|]. rewrite elem_of_cons. by intros [->|?].
Qed.

Lemma zsorted_split n (l : list ZMember) a b :
  zsorted l -> a ∈ ltake n l -> b ∈ ldrop n l -> zless a b = true.
Proof.
  intros Hs Ha Hb. rewrite <- (ltake_ldrop n l) in Hs.
  unfold zsorted in Hs. revert Ha Hs. generalize (ltake n l) as l1. induction l1 as [|x l1 IH].
  - by intros ?%elem_of_nil.
  - intros Ha Hs. inversion Hs as [|? ? Hs' Hx]; subst. apply elem_of_cons in Ha as [->|Ha].
    + rewrite Forall_forall in Hx. apply Hx, elem_of_app. by right.
    + by apply IH.
Qed.

(** Exactly the elements before position [n] of a sorted slice are smaller than
    the one there. *)
Lemma zsorted_smaller l1 m l2 :
  Forall regular (l1 ++ m :: l2) -> zsorted (l1 ++ m :: l2) ->
  filter (fun x => zless x m) (l1 ++ m :: l2) = l1.
Proof.
  assert (forall x y, regular x -> regular y -> zless x y = true -> zless y x = true -> False)
    as Hasym.
  { intros x y Hx Hy H1 H2. pose proof (zless_trans x y x Hx Hy Hx H1 H2) as H.
    apply zless_spec in H; [|done..]. destruct (frank (Score x)) as [[??]?]. cbn in H.
    rewrite str_ltb_irrefl in H. destruct H as [?|[_ ?]]; [lia|done]. }
  induction l1 as [|x l1 IH]; cbn [app]; intros Hr Hs; inversion Hs as [|? ? Hs' Hx]; subst;
    apply Forall_cons in Hr as [Hrx Hr].
  - rewrite filter_cons, decide_False by (intros H%Is_true_true; by apply (Hasym m m)).
    rewrite Forall_forall in Hx, Hr.
    clear Hs Hs'. induction l2 as [|y l2 IH]; [done|]. rewrite filter_cons, decide_False.
    + apply IH; intros z Hz; [apply Hr|apply Hx]; by right.
    + intros H%Is_true_true. apply (Hasym m y); auto; [apply Hr|apply Hx]; by left.
  - rewrite filter_cons, decide_True; [by rewrite IH|].
    rewrite Forall_forall in Hx. apply Is_true_true, Hx, elem_of_app. right. by left.
Qed.

(** ** Unions and intersections *)

(** SUM, MIN and MAX of two scores, and the weight of the [i]-th key, as the interface
    documents them. *)
Definition aggregates : list string := ["SUM"; "MIN"; "MAX"].

Definition least (a b : float64) : float64 := if F64.ltb b a then b else a.
Definition greatest (a b : float64) : float64 := if F64.ltb a b then b else a.

Definition combine (agg : string) : float64 -> float64 -> float64 :=
  if decide (agg = "MIN") then least
  else if decide (agg = "MAX") then greatest
  else F64.add.

Definition weightOf (weights : list float64) (i : nat) : float64 :=
  if decide (i < length weights)%nat then nth i weights F64.zero else F64.of_Z 1.

(** The weighted scores of a member, in the order of the keys that have it; [at_] are the
    scores under a key. *)
Fixpoint products (at_ : string -> gmap string float64) (weights : list float64)
    (keys : list string) (i : nat) (m : string) : list float64 :=
  match keys with
  | [] => []
  | k :: keys' =>
      match at_ k !! m with
      | Some f => F64.mul f (weightOf weights i) :: products at_ weights keys' (S i) m
      | None => products at_ weights keys' (S i) m
      end
  end.

(** The score of a member in the union and in the intersection. *)
Definition unionScore (at_ : string -> gmap string float64) (agg : string)
    (weights : list float64) (keys : list string) (m : string) : option float64 :=
  match products at_ weights keys 0 m with
  | [] => None
  | f :: fs => Some (foldl (combine agg) f fs)
  end.

Definition interScore (at_ : string -> gmap string float64) (agg : string)
    (weights : list float64) (keys : list string) (m : string) : option float64 :=
  if decide (Forall (fun k => is_Some (at_ k !! m)) keys) then unionScore at_ agg weights keys m
  else None.

Lemma applyAggregate_combine a b agg :
  agg ∈ aggregates -> applyAggregate a b agg = combine agg a b.
Proof.
  unfold aggregates. intros H. repeat apply elem_of_cons in H as [->|H]; [done..|].
  by apply elem_of_nil in H.
Qed.

Lemma weightAt_weightOf weights i : weightAt weights i = weightOf weights i.
Proof.
  unfold weightAt, weightOf. case_decide as H.
  - destruct (nth_lookup_or_length weights i F64.zero) as [->|?]; [done|lia].
  - by rewrite lookup_ge_None_2 by lia.
Qed.

(** One source's contribution to the score of a member. *)
Definition contribute (w : float64) (agg : string) (old new : option float64) : option float64 :=
  match new with
  | None => old
  | Some f => Some (match old with
                    | None => F64.mul f w
                    | Some cur => applyAggregate cur (F64.mul f w) agg
                    end)
  end.

(** More scores, folded into one that may be missing. *)
Definition absorb (agg : string) (acc : option float64) (fs : list float64) : option float64 :=
  match acc, fs with
  | None, [] => None
  | None, f :: fs => Some (foldl (combine agg) f fs)
  | Some cur, fs => Some (foldl (combine agg) cur fs)
  end.

Lemma unionInto_lookup w agg l acc m :
  NoDup l.*1 ->
  unionInto w agg acc l !! m =
    contribute w agg (acc !! m) ((list_to_map l : gmap string float64) !! m).
Proof.
  revert acc. induction l as [|[k f] l IH]; intros acc Hnd; [done|].
  apply NoDup_cons in Hnd as [Hk Hnd]. cbn [unionInto foldl fst snd list_to_map foldr uncurry].
  change (foldl _ ?a l) with (unionInto w agg a l). rewrite IH by done.
  rewrite lookup_insert. case_decide as E.
  - subst m. rewrite (not_elem_of_list_to_map_1 l k) by done. cbn.
    by destruct (acc !! k); rewrite lookup_insert_eq.
  - f_equal. destruct (acc !! k); by rewrite lookup_insert_ne.
Qed.

(** The scores a key contributes: none for an absent key. *)
Definition zscoresOf (now : Time) (s : MemoryStore) (k : string) : gmap string float64 :=
  match view now s k with Some (VZset sc, _) => sc | _ => ∅ end.

Definition zreadable (now : Time) (s : MemoryStore) (k : string) : Prop :=
  match view now s k with None | Some (VZset _, _) => True | _ => False end.

Lemma zunionLoop_spec now keys i weights agg acc s :
  store_wf s -> agg ∈ aggregates -> Forall (zreadable now s) keys ->
  exists sc, zunionLoop now keys i weights agg acc s = Ok sc /\
    forall m, sc !! m = absorb agg (acc !! m) (products (zscoresOf now s) weights keys i m).
Proof.
  intros Hs Hagg Hk. revert i acc. induction Hk as [|k keys Hr Hk IH]; intros i acc.
  - exists acc. split; [done|]. intros m. by destruct (acc !! m).
  - cbn [zunionLoop products]. rewrite getZSet_view by done. unfold zreadable in Hr.
    unfold zscoresOf at 1. destruct (view now s k) as [[[] d]|]; try done.
    destruct (IH (S i) (unionInto (weightAt weights i) agg acc (map_to_list z)))
      as (sc & HL & Hm). exists sc. split; [done|]. intros m. rewrite Hm.
    rewrite unionInto_lookup, list_to_map_to_list by apply NoDup_fst_map_to_list.
    rewrite weightAt_weightOf. destruct (z !! m) as [f|]; [|done].
    destruct (acc !! m); cbn; [by rewrite applyAggregate_combine|done].
Qed.

Lemma zinterLoop_spec now keys i weights agg acc s :
  store_wf s -> agg ∈ aggregates -> Forall (zreadable now s) keys ->
  exists sc, zinterLoop now keys i weights agg acc s = Ok sc /\
    forall m, sc !! m =
      if decide (Forall (fun k => is_Some (zscoresOf now s k !! m)) keys) then
        (fun cur => foldl (combine agg) cur (products (zscoresOf now s) weights keys i m)) <$> acc !! m
      else None.
Proof.
  intros Hs Hagg Hk. revert i acc. induction Hk as [|k keys Hr Hk IH]; intros i acc.
  - exists acc. split; [done|]. intros m. rewrite decide_True by done. by destruct (acc !! m).
  - cbn [zinterLoop products]. rewrite getZSet_view by done. unfold zreadable in Hr.
    assert (zscoresOf now s k = match view now s k with Some (VZset sc, _) => sc | _ => ∅ end)
      as Hz by done.
    destruct (view now s k) as [[[] d]|]; try done.
    + destruct (IH (S i) (interWith (weightAt weights i) agg (Some (mkZset z)) acc))
        as (sc & HL & Hm). exists sc. split; [done|]. intros m. rewrite Hm, Hz.
      cbn [interWith scores]. rewrite map_lookup_imap, weightAt_weightOf.
      destruct (z !! m) as [f|] eqn:Ef.
      * case_decide as Ha; [rewrite decide_True|rewrite decide_False]; try done.
        -- destruct (acc !! m); cbn; [by rewrite applyAggregate_combine|done].
        -- rewrite Forall_cons, Hz, Ef. split; [by eexists|done].
        -- rewrite Forall_cons. tauto.
      * rewrite (decide_False (P := Forall _ (k :: keys))).
        -- case_decide; [|done]. by destruct (acc !! m).
        -- rewrite Forall_cons, Hz, Ef. by intros [[? [=]] _].
    + destruct (IH (S i) ∅) as (sc & HL & Hm). exists sc. split; [done|]. intros m.
      rewrite Hm, lookup_empty. rewrite (decide_False (P := Forall _ (k :: keys))).
      * by case_decide.
      * rewrite Forall_cons, Hz, lookup_empty. by intros [[? [=]] _].
Qed.

Lemma storeScores_effect dst sc s :
  store_wf s -> updates dst (zsetEntry sc None) s (storeScores dst sc s).
Proof.
  intros Hs. unfold storeScores, zsetEntry. rewrite (decide_ext _ _ _ _ (map_size_empty_iff sc)).
  destruct (decide (sc = ∅)) as [He|He]; apply write_key; try done.
  - intros k'. apply cell_deleteKey.
  - intros k'. rewrite cell_bump, cell_put_zset. case_decide as Hk.
    + subst k'. cbn. by rewrite !lookup_delete_eq.
    + rewrite cell_deleteKey. by rewrite decide_False.
  - by intros x [= <-].
Qed.

(** ** Properties *)

Definition zfloat (n : Z) : float64 := F64.of_Z n.

(** A sorted set of three members, two of them with the same score. *)
Definition sampleZ : MemoryStore :=
  mkStore ∅ ∅ ∅ ∅
    {[ "z" := mkZset {[ "b" := zfloat 1; "a" := zfloat 1; "c" := zfloat (-5) ]} ]}
    {[ "z" := 1000 ]} ∅.

Lemma sampleZ_wf : store_wf sampleZ.
Proof.
  intros k. unfold cell_of. cbn. rewrite !lookup_singleton, !lookup_empty.
  repeat case_decide; subst; constructor; cbn; try done; try lia; by intros d [= <-].
Qed.

Lemma sampleZ_clean k : clean 10 sampleZ k.
Proof.
  unfold clean, view, cell_of. cbn. rewrite !lookup_singleton, !lookup_empty.
  by repeat case_decide; subst; vm_compute.
Qed.

Lemma sampleZ_nan : nan_free {[ "b" := zfloat 1; "a" := zfloat 1; "c" := zfloat (-5) ]}.
Proof.
  intros k f. rewrite !lookup_insert, lookup_singleton.
  repeat case_decide; intros [= <-]; reflexivity.
Qed.





Lemma elem_rev {A} (x : A) l : x ∈ rev l <-> x ∈ l.
Proof. by rewrite <- Permutation_rev. Qed.

Lemma sorted_regular sc : nan_free sc -> Forall regular (sortedMembers (mkZset sc)).
Proof. intros Hn. rewrite sortedMembers_perm. by apply zmembers_regular. Qed.

(** ZRANK is the number of members that come before the member in the order of
    scores and names, ZREVRANK counts those after it, and ZRANGE at the rank
    returns the member. *)
Theorem ZRank_correct now key member s sc d f :
  store_wf s -> view now s key = Some (VZset sc, d) -> nan_free sc -> sc !! member = Some f ->
  exists r, ZRank now key member s = Ok (Some r) /\
    r = llen (filter (fun m => zless m (mkZMember member f)) (zmembers (mkZset sc))) /\
    ZRevRank now key member s = Ok (Some (Z.of_nat (size sc) - 1 - r)) /\
    ZRange now key r r false false s = Ret (Ok [member]).
Proof.
  intros Hs Hv Hn Hm. unfold ZRank, ZRevRank, ZRange. rewrite getZSet_view, Hv by done.
  cbn [scores]. rewrite Hm. pose proof (rankOf_spec member (sortedMembers (mkZset sc)) 0) as Hr.
  destruct (rankOf member _ 0) as [r|].
  2:{ destruct Hr. assert (mkZMember member f ∈ zmembers (mkZset sc)) as Hz
        by (by apply elem_zmembers).
      rewrite sortedMembers_perm. by apply (list_elem_of_fmap_2 Member) in Hz. }
  destruct Hr as (n & m & Hrn & Hl & Hmm). exists r.
  assert (m = mkZMember member f) as ->.
  { assert (m ∈ zmembers (mkZset sc)) as Hz
      by (rewrite <- sortedMembers_perm; by eapply list_elem_of_lookup_2).
    apply elem_zmembers in Hz. destruct m as [mn mf]. cbn in *. subst mn. congruence. }
  pose proof (list_elem_of_split_length _ _ _ Hl) as (l1 & l2 & Hsplit & Hlen).
  pose proof (llen_sortedMembers (mkZset sc)) as Hsz. cbn [scores] in Hsz.
  assert (n < length (sortedMembers (mkZset sc)))%nat as Hlt by (by eapply lookup_lt_Some).
  unfold llen in Hsz. split_and!.
  - done.
  - unfold llen. rewrite <- (sortedMembers_perm (mkZset sc)), Hsplit, zsorted_smaller; [lia| |].
    + rewrite <- Hsplit. by apply sorted_regular.
    + rewrite <- Hsplit. by apply sortedMembers_sorted.
  - unfold llen. by rewrite Hsz.
  - rewrite decide_False by lia. unfold llen in *. rewrite Hsz. subst r.
    zfalse (0 + Z.of_nat n <? 0). zfalse (0 + Z.of_nat n <? 0).
    zfalse (Z.of_nat (size sc) <=? 0 + Z.of_nat n). rewrite Z.ltb_irrefl.
    rewrite slice_ok by (unfold llen; lia). cbn [obind]. do 2 f_equal.
    unfold ltake, ldrop. replace (Z.to_nat (0 + Z.of_nat n + 1 - (0 + Z.of_nat n))) with 1%nat by lia.
    replace (Z.to_nat (0 + Z.of_nat n)) with n by lia. by rewrite (drop_S _ _ _ Hl).
Qed.

Lemma ZRank_correct_witness : ZRank 10 "z" "b" sampleZ = Ok (Some 2).
Proof.
  destruct (ZRank_correct 10 "z" "b" sampleZ
              {[ "b" := zfloat 1; "a" := zfloat 1; "c" := zfloat (-5) ]} (Some 1000) (zfloat 1)
              sampleZ_wf eq_refl sampleZ_nan eq_refl) as (r & -> & -> & _).
  reflexivity.
Defined.

Lemma zpop_effect from now key count s sc d :
  store_wf s -> view now s key = Some (VZset sc, d) -> sc <> ∅ -> 0 <= count ->
  (forall l, from l ≡ₚ l) ->
  exists s', zpop from now key count s =
      Ret (Ok (ltake count (from (sortedMembers (mkZset sc)))), s') /\
    updates key (zsetEntry (filter (fun kv => kv.1 ∉
      Member <$> ltake count (from (sortedMembers (mkZset sc)))) sc) d) s s'.
Proof.
  intros Hs Hv Hne Hc Hf. unfold zpop. rewrite getZSet_view, Hv by done. cbn [scores].
  rewrite decide_False by (by rewrite map_size_empty_iff).
  set (l := sortedMembers _). pose proof (llen_nonneg l).
  assert (exists c, (if llen l <? count then llen l else count) = c /\ 0 <= c /\
            ltake c (from l) = ltake count (from l)) as (c & -> & Hc0 & ->).
  { destruct (llen l <? count) eqn:E; zbool; eexists; (split; [done|]); split; try lia; [|done].
    unfold ltake, llen in *. assert (length (from l) = length l) by (by rewrite Hf).
    rewrite !take_ge by lia. done. }
  zfalse (c <? 0). eexists. split; [done|].
  assert (zdelete (ltake count (from l)) sc =
          filter (fun kv => kv.1 ∉ Member <$> ltake count (from l)) sc) as <-.
  { apply map_eq. intros k. rewrite zdelete_lookup. apply option_eq. intros f.
    rewrite map_lookup_filter_Some. cbn. case_decide; naive_solver. }
  by apply updates_bump, (putZSet_effect now s key sc).
Qed.

(** ZPOPMIN removes and returns the count smallest members in order, ZPOPMAX the
    count largest in descending order: everything left is larger, respectively
    smaller, and a sorted set popped completely disappears. *)
Theorem ZPop_correct now key count s sc d :
  store_wf s -> view now s key = Some (VZset sc, d) -> sc <> ∅ -> nan_free sc -> 0 <= count ->
  (exists r s', ZPopMin now key count s = Ret (Ok r, s') /\ zsorted r /\
     llen r = Z.min count (Z.of_nat (size sc)) /\
     (forall a b, a ∈ r -> sc !! Member b = Some (Score b) -> b ∉ r -> zless a b = true) /\
     updates key (zsetEntry (filter (fun kv => kv.1 ∉ Member <$> r) sc) d) s s') /\
  (exists r s', ZPopMax now key count s = Ret (Ok r, s') /\ zsorted (rev r) /\
     llen r = Z.min count (Z.of_nat (size sc)) /\
     (forall a b, a ∈ r -> sc !! Member b = Some (Score b) -> b ∉ r -> zless b a = true) /\
     updates key (zsetEntry (filter (fun kv => kv.1 ∉ Member <$> r) sc) d) s s').
Proof.
  intros Hs Hv Hne Hn Hc. set (l := sortedMembers (mkZset sc)).
  pose proof (sortedMembers_sorted (mkZset sc) Hn) as Hsort. fold l in Hsort.
  assert (llen l = Z.of_nat (size sc)) as Hlen by apply llen_sortedMembers.
  assert (forall b, sc !! Member b = Some (Score b) -> b ∈ l) as Hin.
  { intros b Hb. unfold l. rewrite sortedMembers_perm. by apply elem_zmembers. }
  assert (zsorted_app : forall l1 l2, zsorted (l1 ++ l2) -> zsorted l1 /\ zsorted l2).
  { unfold zsorted. induction l1 as [|x l1 IH]; intros l2 H; [by split; [constructor|]|].
    inversion H as [|? ? H1 H2]; subst. destruct (IH _ H1) as [H3 H4]. split; [|done].
    constructor; [done|]. by apply Forall_app in H2 as [? _]. }
  split.
  - destruct (zpop_effect (fun l => l) now key count s sc d Hs Hv Hne Hc) as (s' & HP & Hu); [done|].
    fold l in HP, Hu. eexists _, s'. split; [exact HP|]. split_and!; [| | |exact Hu].
    + rewrite <- (ltake_ldrop count l) in Hsort. by apply zsorted_app in Hsort as [? _].
    + unfold llen, ltake in *. rewrite length_take. lia.
    + intros a b Ha Hb Hnb. eapply (zsorted_split count l); [done..|].
      specialize (Hin b Hb). rewrite <- (ltake_ldrop count l), elem_of_app in Hin. tauto.
  - destruct (zpop_effect (@rev ZMember) now key count s sc d Hs Hv Hne Hc) as (s' & HP & Hu);
      [intros l'; symmetry; apply Permutation_rev|].
    fold l in HP, Hu. eexists _, s'. split; [exact HP|].
    assert (l = rev (ldrop count (rev l)) ++ rev (ltake count (rev l))) as Hsp
      by (rewrite <- rev_app_distr, ltake_ldrop; symmetry; apply rev_involutive).
    split_and!; [| | |exact Hu].
    + rewrite Hsp in Hsort. by apply zsorted_app in Hsort as [_ ?].
    + unfold llen, ltake in *. rewrite length_take, length_rev. lia.
    + intros a b Ha Hb Hnb. specialize (Hin b Hb).
      rewrite Hsp, elem_of_app, !elem_rev in Hin.
      destruct Hin as [Hin|Hin]; [|done].
      set (k := llen (rev (ldrop count (rev l)))).
      eapply (zsorted_split k l); [done|rewrite Hsp; subst k|rewrite Hsp; subst k].
      * rewrite ltake_app_llen. by apply elem_rev.
      * rewrite ldrop_app_llen. by apply elem_rev.
Qed.

Lemma ZPop_correct_witness :
  exists r s', ZPopMin 10 "z" 2 sampleZ = Ret (Ok r, s') /\ llen r = 2.
Proof.
  destruct (ZPop_correct 10 "z" 2 sampleZ
              {[ "b" := zfloat 1; "a" := zfloat 1; "c" := zfloat (-5) ]} (Some 1000)
              sampleZ_wf eq_refl) as [(r & s' & HP & _ & Hl & _) _];
    [done|apply sampleZ_nan|done|].
  exists r, s'. split; [done|]. exact Hl.
Defined.

Lemma ZUnionStore_effect now dst keys weights agg s :
  store_wf s -> agg ∈ aggregates -> Forall (zreadable now s) keys ->
  exists sc s', ZUnionStore now dst keys weights agg s = (Ok (Z.of_nat (size sc)), s') /\
    (forall m, sc !! m = unionScore (zscoresOf now s) agg weights keys m) /\
    updates dst (zsetEntry sc None) s s'.
Proof.
  intros Hs Hagg Hk. unfold ZUnionStore.
  destruct (zunionLoop_spec now keys 0 weights agg ∅ s Hs Hagg Hk) as (sc & -> & Hm).
  eexists sc, _. split; [done|]. split; [|by apply storeScores_effect].
  intros m. by rewrite Hm, lookup_empty.
Qed.

Lemma ZInterStore_effect now dst k0 keys weights agg s :
  store_wf s -> agg ∈ aggregates -> Forall (zreadable now s) (k0 :: keys) ->
  exists sc s', ZInterStore now dst (k0 :: keys) weights agg s = (Ok (Z.of_nat (size sc)), s') /\
    (forall m, sc !! m = interScore (zscoresOf now s) agg weights (k0 :: keys) m) /\
    updates dst (zsetEntry sc None) s s'.
Proof.
  intros Hs Hagg [Hr Hk]%Forall_cons. unfold ZInterStore, interScore, unionScore. cbn [products].
  rewrite getZSet_view by done. unfold zreadable in Hr.
  assert (zscoresOf now s k0 = match view now s k0 with Some (VZset sc, _) => sc | _ => ∅ end)
    as Hz by done.
  set (acc := match view now s k0 with
              | Some (VZset z, _) => (fun sc => F64.mul sc (weightAt weights 0)) <$> z
              | _ => ∅ end).
  destruct (zinterLoop_spec now keys 1 weights agg acc s Hs Hagg Hk) as (sc & HL & Hm).
  exists sc, (storeScores dst sc s). split.
  { unfold acc in HL. destruct (view now s k0) as [[[] d]|]; try done; cbn [scores]; by rewrite HL. }
  split; [|by apply storeScores_effect]. intros m. rewrite Hm.
  assert (acc !! m = (fun f => F64.mul f (weightOf weights 0)) <$> zscoresOf now s k0 !! m) as ->.
  { unfold acc. rewrite Hz, weightAt_weightOf.
    destruct (view now s k0) as [[[] d]|]; try done; by rewrite ?lookup_fmap, ?lookup_empty. }
  destruct (zscoresOf now s k0 !! m) as [f|] eqn:Ef; cbn.
  - case_decide as Ha; [rewrite decide_True|rewrite decide_False]; try done.
    + rewrite Forall_cons, Ef. split; [by eexists|done].
    + rewrite Forall_cons. tauto.
  - rewrite (decide_False (P := Forall _ (k0 :: keys))); [by case_decide|].
    rewrite Forall_cons, Ef. by intros [[? [=]] _].
Qed.

(** C38: ZUNIONSTORE stores exactly the members some key has, ZINTERSTORE those all keys
    have, each with the sum, the least or the greatest of its scores under the keys that
    have it, every score multiplied by the weight of its key (1 for a key without one).
    The destination is replaced whatever it was, an empty result deletes it, and the reply
    is the number of members. *)
Theorem ZStore_correct now dst k0 keys weights agg s :
  store_wf s -> Forall (zreadable now s) (k0 :: keys) -> agg ∈ aggregates ->
  (exists sc s', ZUnionStore now dst (k0 :: keys) weights agg s =
       (Ok (Z.of_nat (size sc)), s') /\
     (forall m, sc !! m = unionScore (zscoresOf now s) agg weights (k0 :: keys) m) /\
     updates dst (zsetEntry sc None) s s') /\
  (exists sc s', ZInterStore now dst (k0 :: keys) weights agg s =
       (Ok (Z.of_nat (size sc)), s') /\
     (forall m, sc !! m = interScore (zscoresOf now s) agg weights (k0 :: keys) m) /\
     updates dst (zsetEntry sc None) s s').
Proof.
  intros Hs Hk Hagg. split; [by apply ZUnionStore_effect|by apply ZInterStore_effect].
Qed.

(** The second key has no weight. *)
Lemma ZStore_correct_witness :
  exists (sc : gmap string float64) s',
    ZInterStore 10 "z" ["z"; "z"] [zfloat 2] "MIN" sampleZ = (Ok (Z.of_nat (size sc)), s') /\
    sc !! "c" = Some (zfloat (-10)) /\ sc !! "b" = Some (zfloat 1) /\
    view 10 s' "z" = Some (VZset sc, None).
Proof.
  destruct (ZStore_correct 10 "z" "z" ["z"] [zfloat 2] "MIN" sampleZ sampleZ_wf)
    as [_ (sc & s' & H & Hm & Hu)]; [by repeat constructor|by vm_compute; set_solver|].
  assert (sc !! "c" = Some (zfloat (-10))) as Hc by (rewrite Hm; by vm_compute).
  exists sc, s'. split_and!; [exact H|exact Hc|rewrite Hm; by vm_compute|].
  destruct Hu as [_ Hv]. rewrite Hv. unfold zsetEntry. rewrite decide_False; [done|].
  intros ->. by rewrite lookup_empty in Hc.
Defined.

(** ZCARD of a key that does not exist dereferences a nil pointer. *)
Theorem ZCard_missing_panics now key s :
  typeOf now key s = TNone -> ZCard now key s = Panic.
Proof. intros H. unfold ZCard, getZSet. by rewrite H. Qed.

(** ZADD XX on a key that does not exist creates an empty sorted set, which counts
    as a key. *)
Theorem ZAdd_XX_creates_key :
  let s := snd (ZAdd 10 "k" [mkZMember "a" (zfloat 1)] false true false false false sampleZ) in
  view 10 sampleZ "k" = None /\ view 10 s "k" = Some (VZset ∅, None) /\
  Exists_ 10 ["k"] s = 1.
Proof. split_and!; reflexivity. Qed.

(** ZREVRANGE 0 0 returns the member with the lowest score: the ranks are taken
    from the ascending order and only then reversed. *)
Theorem ZRevRange_ascending_ranks :
  ZRange 10 "z" 0 0 true false sampleZ = Ret (Ok ["c"]) /\
  ZRevRank 10 "z" "c" sampleZ = Ok (Some 2).
Proof. split; reflexivity. Qed.
