(* ===== verification/Scan.v ===== *)
(** * Cursor iteration: SCAN, HSCAN, SSCAN, ZSCAN (internal/storage/memory.go)

    A cursor is a position in the sorted snapshot taken by each call.  [sort.Strings]
    is an insertion sort here; the keys of a well-formed store are all different, so
    the sorted slice is unique. *)

From S2P Require Import Prelude GoLib Floats Glob Store Keyspace ZSets.
From Stdlib Require Import Sorted.
Open Scope go_scope.

(** ** Operations *)

Fixpoint sinsert (x : string) (l : list string) : list string :=
  match l with
  | [] => [x]
  | y :: l' => if str_ltb y x then y :: sinsert x l' else x :: l
  end.

(** [sort.Strings] *)
Definition sortStrings (l : list string) : list string := foldr sinsert [] l.

Definition allKeys (now : Time) (s : MemoryStore) : list string := sortStrings (countedKeys now s).

(** [match == "" || match == "*"], or the glob matches. *)
Definition scanMatch (pattern name : string) : bool :=
  String.eqb pattern "" || String.eqb pattern "*" || matches pattern name.

(** The loop of the four methods, over the elements of the snapshot from position
    [pos] on: it visits at most [count] positions after [cursor]; [emit] is what a
    matching element contributes. *)
Fixpoint scanFrom {A} (name : A -> string) (emit : A -> list string) (pattern : string)
    (cursor count pos : Z) (items : list A) : Z * list string :=
  match items with
  | [] => (pos, [])
  | x :: items' =>
      if pos - cursor <? count then
        let '(p, r) := scanFrom name emit pattern cursor count (pos + 1) items' in
        (p, (if scanMatch pattern (name x) then emit x else []) ++ r)
      else (pos, [])
  end.

(** The next cursor (0 at the end) and the elements of one call. *)
Definition scanLoop {A} (name : A -> string) (emit : A -> list string) (pattern : string)
    (cursor count : Z) (items : list A) : Z * list string :=
  let total := llen items in
  let cursor := if total <=? cursor then 0 else cursor in
  let '(pos, result) := scanFrom name emit pattern cursor count cursor (ldrop cursor items) in
  (if total <=? pos then 0 else pos, result).

Definition Scan (now : Time) (cursor : Z) (pattern : string) (count : Z) (s : MemoryStore)
    : Z * list string :=
  let count := if count <=? 0 then 10 else count in
  let keys := allKeys now s in
  if llen keys =? 0 then (0, [])
  else scanLoop (fun k => k) (fun k => [k]) pattern cursor count keys.

Definition HScan (now : Time) (key : string) (cursor : Z) (pattern : string) (count : Z)
    (s : MemoryStore) : result (Z * list string) :=
  match hashes s !! key with
  | None => Ok (0, [])
  | Some h =>
      if keyExpiredNonStr now key s then Ok (0, [])
      else if decide (typeOf now key s <> THash) then Fail ErrWrongType
      else
        let count := if count <=? 0 then 10 else count in
        let fields := sortStrings (map_to_list h).*1 in
        Ok (scanLoop (fun f => f) (fun f => [f; default "" (h !! f)]) pattern cursor count fields)
  end.

Definition SScan (now : Time) (key : string) (cursor : Z) (pattern : string) (count : Z)
    (s : MemoryStore) : result (Z * list string) :=
  match sets s !! key with
  | None => Ok (0, [])
  | Some st =>
      if keyExpiredNonStr now key s then Ok (0, [])
      else if decide (typeOf now key s <> TSet) then Fail ErrWrongType
      else
        let count := if count <=? 0 then 10 else count in
        Ok (scanLoop (fun m => m) (fun m => [m]) pattern cursor count (sortStrings (elements st)))
  end.

Definition ZScan (now : Time) (key : string) (cursor : Z) (pattern : string) (count : Z)
    (s : MemoryStore) : result (Z * list string) :=
  match zsets s !! key with
  | None => Ok (0, [])
  | Some z =>
      if keyExpiredNonStr now key s then Ok (0, [])
      else if decide (typeOf now key s <> TZset) then Fail ErrWrongType
      else
        let count := if count <=? 0 then 10 else count in
        Ok (scanLoop Member (fun m => [Member m; formatScore (Score m)]) pattern cursor count
              (sortedMembers z))
  end.

(** ** Sorting *)

Lemma sinsert_perm x l : sinsert x l ≡ₚ x :: l.
Proof.
  induction l as [|y l IH]; cbn; [done|]. destruct (str_ltb y x); [|done].
  rewrite IH. apply Permutation_swap.
Qed.

Lemma sortStrings_perm l : sortStrings l ≡ₚ l.
Proof. induction l as [|x l IH]; cbn; [done|]. by rewrite sinsert_perm, IH. Qed.

Lemma sinsert_sorted x l :
  StronglySorted (fun a b => str_ltb b a = false) l ->
  StronglySorted (fun a b => str_ltb b a = false) (sinsert x l).
Proof.
  intros Hs. induction Hs as [|y l Hs IH Hy]; cbn; [by repeat constructor|].
  destruct (str_ltb y x) eqn:E.
  - constructor; [done|]. rewrite sinsert_perm. constructor; [|done].
    destruct (str_ltb x y) eqn:E2; [|done].
    pose proof (str_ltb_trans _ _ _ E E2) as H. by rewrite str_ltb_irrefl in H.
  - constructor; [by constructor|]. constructor; [done|].
    eapply Forall_impl; [exact Hy|]. intros z Hz. cbn in Hz.
    destruct (str_ltb z x) eqn:E2; [|done]. destruct (str_ltb y z) eqn:E3.
    + by rewrite (str_ltb_trans _ _ _ E3 E2) in E.
    + rewrite (str_ltb_total z y Hz E3) in E2. congruence.
Qed.

Lemma sortStrings_sorted l : StronglySorted (fun a b => str_ltb b a = false) (sortStrings l).
Proof. induction l as [|x l IH]; cbn; [constructor|by apply sinsert_sorted]. Qed.

(** ** Pages *)

Section Pages.

Context {A : Type} (name : A -> string) (emit : A -> list string) (pattern : string).

Definition emitAll (l : list A) : list string :=
  concat (emit <$> filter (fun x => scanMatch pattern (name x)) l).

Lemma emitAll_app l1 l2 : emitAll (l1 ++ l2) = emitAll l1 ++ emitAll l2.
Proof. unfold emitAll. by rewrite filter_app, fmap_app, concat_app. Qed.

Lemma scanFrom_spec cursor count pos items :
  cursor <= pos <= cursor + count ->
  scanFrom name emit pattern cursor count pos items =
    (pos + Z.min (cursor + count - pos) (llen items),
     emitAll (ltake (cursor + count - pos) items)).
Proof.
  revert pos. induction items as [|x items IH]; intros pos Hp; cbn [scanFrom].
  - unfold ltake, llen. rewrite take_nil. cbn [length]. f_equal. lia.
  - destruct (pos - cursor <? count) eqn:E; zbool.
    + rewrite IH by lia. unfold ltake, llen. cbn [length].
      replace (Z.to_nat (cursor + count - pos)) with (S (Z.to_nat (cursor + count - (pos + 1)))) by lia.
      cbn [take]. f_equal; [lia|]. unfold emitAll. rewrite filter_cons.
      destruct (scanMatch pattern (name x)); cbn; [|done].
      by rewrite decide_True.
    + assert (pos = cursor + count) as -> by lia. rewrite Z.sub_diag.
      pose proof (llen_nonneg (x :: items)). f_equal. lia.
Qed.

(** A client that follows the cursor from [cursor] until it is 0 again; [fuel]
    bounds the number of calls. *)
Fixpoint followCursor (fuel : nat) (cursor count : Z) (items : list A) : option (list string) :=
  match fuel with
  | O => None
  | S fuel' =>
      let '(next, page) := scanLoop name emit pattern cursor count items in
      if next =? 0 then Some page
      else match followCursor fuel' next count items with
           | Some rest => Some (page ++ rest)
           | None => None
           end
  end.

Lemma followCursor_from fuel cursor count items :
  1 <= count -> 0 <= cursor -> cursor < llen items \/ cursor = 0 ->
  (Z.to_nat (llen items - cursor) < fuel)%nat ->
  followCursor fuel cursor count items = Some (emitAll (ldrop cursor items)).
Proof.
  revert cursor. induction fuel as [|fuel IH]; intros cursor Hc H0 Hlt Hf; [lia|].
  cbn [followCursor]. unfold scanLoop. pose proof (llen_nonneg items).
  assert ((if llen items <=? cursor then 0 else cursor) = cursor) as ->
    by (destruct (llen items <=? cursor) eqn:E; zbool; lia).
  rewrite scanFrom_spec by lia. replace (cursor + count - cursor) with count by lia.
  rewrite llen_ldrop by lia.
  destruct (llen items <=? cursor + Z.min count (llen items - cursor)) eqn:E; zbool.
  - cbn. do 2 f_equal. unfold ltake. apply take_ge.
    assert (llen (ldrop cursor items) = llen items - cursor) as Hl by (apply llen_ldrop; lia).
    unfold llen in Hl |- *. unfold llen in *. lia.
  - zfalse (cursor + Z.min count (llen items - cursor) =? 0).
    replace (Z.min count (llen items - cursor)) with count by lia.
    rewrite IH by lia. rewrite <- emitAll_app. do 2 f_equal.
    rewrite <- (ltake_ldrop count (ldrop cursor items)) at 2. f_equal.
    unfold ldrop. rewrite drop_drop. f_equal. lia.
Qed.

End Pages.

(** ** Properties *)


