(* ===== verification/Interface.v ===== *)
(** * The interface of the store (internal/storage/store.go)

    The interface Store as a signature of calls: one constructor per method, indexed by the
    type of its result.  [StoreCall] is what the commands may ask of a store, whatever
    implements it; [exec] is the implementation, MemoryStore. *)

From S2P Require Import Prelude GoLib Floats Store Lists Sets Hashes ZSets Scan.

(** ** The methods *)

Inductive StringCall : Type -> Type :=
| CSet (key val : string) : StringCall unit
| CSetWithTTL (key val : string) (ttl : Duration) : StringCall unit
| CSetAdv (key val : string) (ttl : Duration) (opts : SetAdvOpts) : StringCall (string * bool * bool)
| CGet (key : string) : StringCall (option string)
| CGetEx (key : string) (ttl : Duration) (persist hasTTL : bool) : StringCall (option string)
| CDel (keys : list string) : StringCall Z
| CExists (keys : list string) : StringCall Z
| CKeys (pattern : string) : StringCall (list string)
| CLen : StringCall Z
| CFlush : StringCall unit
| CExpire (key : string) (ttl : Duration) : StringCall bool
| CTTL (key : string) : StringCall Duration
| CPersist (key : string) : StringCall bool
| CRename (src dst : string) : StringCall bool.

Inductive HashCall : Type -> Type :=
| CHSet (key : string) (fields : gmap string string) : HashCall Z
| CHGet (key field : string) : HashCall (option string)
| CHDel (key : string) (fields : list string) : HashCall Z
| CHGetAll (key : string) : HashCall (option (gmap string string))
| CHLen (key : string) : HashCall Z
| CHExists (key field : string) : HashCall bool
| CHKeys (key : string) : HashCall (list string)
| CHVals (key : string) : HashCall (list string).

Inductive ListCall : Type -> Type :=
| CLPush (key : string) (values : list string) : ListCall (result Z)
| CRPush (key : string) (values : list string) : ListCall (result Z)
| CLPop (key : string) (count : Z) : ListCall (result (option (list string)))
| CRPop (key : string) (count : Z) : ListCall (result (option (list string)))
| CLLen (key : string) : ListCall (result Z)
| CLRange (key : string) (start stop : Z) : ListCall (result (list string))
| CLIndex (key : string) (i : Z) : ListCall (result (option string))
| CLSet (key : string) (i : Z) (val : string) : ListCall (result unit)
| CLInsert (key : string) (before : bool) (pivot val : string) : ListCall (result Z)
| CLRem (key : string) (count : Z) (val : string) : ListCall (result Z)
| CLTrim (key : string) (start stop : Z) : ListCall (result unit)
| CLMove (src dst : string) (srcLeft dstLeft : bool) : ListCall (result (option string)).

Inductive SetCall : Type -> Type :=
| CSAdd (key : string) (members : list string) : SetCall (result Z)
| CSRem (key : string) (members : list string) : SetCall (result Z)
| CSMembers (key : string) : SetCall (result (list string))
| CSCard (key : string) : SetCall (result Z)
| CSIsMember (key member : string) : SetCall (result bool)
| CSMIsMember (key : string) (members : list string) : SetCall (result (list Z))
| CSInter (keys : list string) : SetCall (result (list string))
| CSUnion (keys : list string) : SetCall (result (list string))
| CSDiff (keys : list string) : SetCall (result (list string))
| CSInterStore (dst : string) (keys : list string) : SetCall (result Z)
| CSUnionStore (dst : string) (keys : list string) : SetCall (result Z)
| CSDiffStore (dst : string) (keys : list string) : SetCall (result Z)
| CSRandMember (key : string) (count : Z) : SetCall (result (list string))
| CSPop (key : string) (count : Z) : SetCall (result (list string))
| CSMove (src dst member : string) : SetCall (result bool).

Inductive ZSetCall : Type -> Type :=
| CZAdd (key : string) (members : list ZMember) (nx xx gt lt ch : bool) : ZSetCall (result Z)
| CZRem (key : string) (members : list string) : ZSetCall (result Z)
| CZScore (key member : string) : ZSetCall (result (option float64))
| CZCard (key : string) : ZSetCall (result Z)
| CZRank (key member : string) : ZSetCall (result (option Z))
| CZRevRank (key member : string) : ZSetCall (result (option Z))
| CZIncrBy (key : string) (increment : float64) (member : string) : ZSetCall (result float64)
| CZRange (key : string) (start stop : Z) (rev withScores : bool) : ZSetCall (result (list string))
| CZRangeByScore (key : string) (min max : float64) (minExcl maxExcl withScores : bool)
    (offset count : Z) : ZSetCall (result (list string))
| CZRevRangeByScore (key : string) (max min : float64) (maxExcl minExcl withScores : bool)
    (offset count : Z) : ZSetCall (result (list string))
| CZCount (key : string) (min max : float64) (minExcl maxExcl : bool) : ZSetCall (result Z)
| CZRangeByLex (key min max : string) (offset count : Z) : ZSetCall (result (list string))
| CZLexCount (key min max : string) : ZSetCall (result Z)
| CZPopMin (key : string) (count : Z) : ZSetCall (result (list ZMember))
| CZPopMax (key : string) (count : Z) : ZSetCall (result (list ZMember))
| CZUnionStore (dst : string) (keys : list string) (weights : list float64) (aggregate : string)
    : ZSetCall (result Z)
| CZInterStore (dst : string) (keys : list string) (weights : list float64) (aggregate : string)
    : ZSetCall (result Z).

Inductive ScanCall : Type -> Type :=
| CScan (cursor : Z) (pattern : string) (count : Z) : ScanCall (Z * list string)
| CHScan (key : string) (cursor : Z) (pattern : string) (count : Z)
    : ScanCall (result (Z * list string))
| CSScan (key : string) (cursor : Z) (pattern : string) (count : Z)
    : ScanCall (result (Z * list string))
| CZScan (key : string) (cursor : Z) (pattern : string) (count : Z)
    : ScanCall (result (Z * list string)).

(** Versions for WATCH, and the names of types. *)
Inductive MetaCall : Type -> Type :=
| CVersion (key : string) : MetaCall Z
| CType (key : string) : MetaCall string.

(** The interface. *)
Inductive StoreCall (A : Type) : Type :=
| OnString (c : StringCall A)
| OnHash (c : HashCall A)
| OnList (c : ListCall A)
| OnSet (c : SetCall A)
| OnZSet (c : ZSetCall A)
| OnScan (c : ScanCall A)
| OnMeta (c : MetaCall A).
Arguments OnString {A} c.
Arguments OnHash {A} c.
Arguments OnList {A} c.
Arguments OnSet {A} c.
Arguments OnZSet {A} c.
Arguments OnScan {A} c.
Arguments OnMeta {A} c.

(** ** The implementation *)

(** Methods that only read, that cannot panic, and that have no result. *)
Definition readOnly {A} (a : A) (s : MemoryStore) : may_panic (A * MemoryStore) := Ret (a, s).
Definition readOnlyP {A} (a : may_panic A) (s : MemoryStore) : may_panic (A * MemoryStore) :=
  obind a (fun a => Ret (a, s)).
Definition writeOnly (s : MemoryStore) : may_panic (unit * MemoryStore) := Ret (tt, s).

Definition execString {A} (c : StringCall A) (now : Time) (s : MemoryStore)
    : may_panic (A * MemoryStore) :=
  match c with
  | CSet key val => writeOnly (Set_ key val s)
  | CSetWithTTL key val ttl => writeOnly (SetWithTTL now key val ttl s)
  | CSetAdv key val ttl opts => Ret (SetAdv now key val ttl opts s)
  | CGet key => readOnly (Get now key s) s
  | CGetEx key ttl persist hasTTL => Ret (GetEx now key ttl persist hasTTL s)
  | CDel keys => Ret (Del now keys s)
  | CExists keys => readOnly (Exists_ now keys s) s
  | CKeys pattern => readOnly (Keys now pattern s) s
  | CLen => readOnly (Len now s) s
  | CFlush => writeOnly (Flush s)
  | CExpire key ttl => Ret (Expire now key ttl s)
  | CTTL key => readOnly (TTL now key s) s
  | CPersist key => Ret (Persist now key s)
  | CRename src dst => Rename now src dst s
  end.

Definition execHash {A} (c : HashCall A) (now : Time) (s : MemoryStore)
    : may_panic (A * MemoryStore) :=
  match c with
  | CHSet key fields => Ret (HSet key fields s)
  | CHGet key field => readOnly (HGet now key field s) s
  | CHDel key fields => Ret (HDel now key fields s)
  | CHGetAll key => readOnly (HGetAll now key s) s
  | CHLen key => readOnly (HLen now key s) s
  | CHExists key field => readOnly (HExists now key field s) s
  | CHKeys key => readOnly (HKeys now key s) s
  | CHVals key => readOnly (HVals now key s) s
  end.

Definition execList {A} (c : ListCall A) (now : Time) (s : MemoryStore)
    : may_panic (A * MemoryStore) :=
  match c with
  | CLPush key values => Ret (LPush now key values s)
  | CRPush key values => Ret (RPush now key values s)
  | CLPop key count => LPop now key count s
  | CRPop key count => RPop now key count s
  | CLLen key => readOnly (LLen now key s) s
  | CLRange key start stop => readOnlyP (LRange now key start stop s) s
  | CLIndex key i => readOnlyP (LIndex now key i s) s
  | CLSet key i val => Ret (LSet now key i val s)
  | CLInsert key before pivot val => LInsert now key before pivot val s
  | CLRem key count val => Ret (LRem now key count val s)
  | CLTrim key start stop => LTrim now key start stop s
  | CLMove src dst srcLeft dstLeft => LMove now src dst srcLeft dstLeft s
  end.

Definition execZSet {A} (c : ZSetCall A) (now : Time) (s : MemoryStore)
    : may_panic (A * MemoryStore) :=
  match c with
  | CZAdd key members nx xx gt lt ch => Ret (ZAdd now key members nx xx gt lt ch s)
  | CZRem key members => Ret (ZRem now key members s)
  | CZScore key member => readOnly (ZScore now key member s) s
  | CZCard key => readOnlyP (ZCard now key s) s
  | CZRank key member => readOnly (ZRank now key member s) s
  | CZRevRank key member => readOnly (ZRevRank now key member s) s
  | CZIncrBy key increment member => Ret (ZIncrBy now key increment member s)
  | CZRange key start stop rev ws => readOnlyP (ZRange now key start stop rev ws s) s
  | CZRangeByScore key min max minExcl maxExcl ws offset count =>
      readOnly (ZRangeByScore now key min max minExcl maxExcl ws offset count s) s
  | CZRevRangeByScore key max min maxExcl minExcl ws offset count =>
      readOnly (ZRevRangeByScore now key max min maxExcl minExcl ws offset count s) s
  | CZCount key min max minExcl maxExcl => readOnly (ZCount now key min max minExcl maxExcl s) s
  | CZRangeByLex key min max offset count => readOnly (ZRangeByLex now key min max offset count s) s
  | CZLexCount key min max => readOnly (ZLexCount now key min max s) s
  | CZPopMin key count => ZPopMin now key count s
  | CZPopMax key count => ZPopMax now key count s
  | CZUnionStore dst keys weights agg => Ret (ZUnionStore now dst keys weights agg s)
  | CZInterStore dst keys weights agg => Ret (ZInterStore now dst keys weights agg s)
  end.

Definition execScan {A} (c : ScanCall A) (now : Time) (s : MemoryStore)
    : may_panic (A * MemoryStore) :=
  match c with
  | CScan cursor pattern count => readOnly (Scan now cursor pattern count s) s
  | CHScan key cursor pattern count => readOnly (HScan now key cursor pattern count s) s
  | CSScan key cursor pattern count => readOnly (SScan now key cursor pattern count s) s
  | CZScan key cursor pattern count => readOnly (ZScan now key cursor pattern count s) s
  end.

Definition execMeta {A} (c : MetaCall A) (now : Time) (s : MemoryStore)
    : may_panic (A * MemoryStore) :=
  match c with
  | CVersion key => readOnly (Version key s) s
  | CType key => readOnly (Type_ now key s) s
  end.

Section Exec.

(** The random choices of SRANDMEMBER and SPOP. *)
Context (shuffle : list string -> list string) (intN : nat -> Z -> Z).

Definition execSet {A} (c : SetCall A) (now : Time) (s : MemoryStore)
    : may_panic (A * MemoryStore) :=
  match c with
  | CSAdd key members => Ret (SAdd now key members s)
  | CSRem key members => Ret (SRem now key members s)
  | CSMembers key => readOnly (SMembers now key s) s
  | CSCard key => readOnly (SCard now key s) s
  | CSIsMember key member => readOnly (SIsMember now key member s) s
  | CSMIsMember key members => readOnly (SMIsMember now key members s) s
  | CSInter keys => readOnly (SInter now keys s) s
  | CSUnion keys => readOnly (SUnion now keys s) s
  | CSDiff keys => readOnly (SDiff now keys s) s
  | CSInterStore dst keys => Ret (SInterStore now dst keys s)
  | CSUnionStore dst keys => Ret (SUnionStore now dst keys s)
  | CSDiffStore dst keys => Ret (SDiffStore now dst keys s)
  | CSRandMember key count => readOnlyP (SRandMember shuffle intN now key count s) s
  | CSPop key count => SPop shuffle now key count s
  | CSMove src dst member => Ret (SMove now src dst member s)
  end.

Definition exec {A} (c : StoreCall A) (now : Time) (s : MemoryStore)
    : may_panic (A * MemoryStore) :=
  match c with
  | OnString c => execString c now s
  | OnHash c => execHash c now s
  | OnList c => execList c now s
  | OnSet c => execSet c now s
  | OnZSet c => execZSet c now s
  | OnScan c => execScan c now s
  | OnMeta c => execMeta c now s
  end.

End Exec.
