(* ===== verification/StoreSpec.v ===== *)
(** * What the interface of the store promises

    An abstract store is a keyspace: for each key nothing, or a value with an optional
    deadline.  For every call of the interface ([StoreCall]) this file says which result it
    may have and what the keyspace is afterwards, as store.go documents it and for the cases
    it leaves open as the code does; and under which conditions ([allowed]) it says so.
    Calls for which the code does something else than store.go says, or panics, are not
    allowed: each such case is named where it is excluded. *)

From S2P Require Import Prelude GoLib Floats Glob Store Keyspace Lists Sets Hashes ZSets Scan.
From S2P Require Import Interface.
From Stdlib Require Import Sorted.

(** ** Abstract stores *)

(** What is seen of a key at [now]. *)
Definition vis (now : Time) (K : keyspace) (k : string) : option entry := optSeen now (K k).

(** A key that is not in the way: it has not expired, or it has been swept. *)
Definition alive (now : Time) (K : keyspace) (k : string) : Prop := vis now K k = K k.

(** The store [s] implements the keyspace [K]. *)
Definition represents (s : MemoryStore) (K : keyspace) : Prop :=
  store_wf s /\ forall t k, view t s k = optSeen t (K k).

(** ** Strings, keys and deadlines *)

(** A key that a string operation finds absent or a string. *)
Definition stringOrAbsent (now : Time) (K : keyspace) (k : string) : Prop :=
  stringOrNone (vis now K k).

Definition stringSpec {A} (c : StringCall A) (now : Time) (K : keyspace) : A -> keyspace -> Prop :=
  match c with
  | CSet k v => fun _ K' => K' = ks_put k (Some (VString v, None)) K
  | CSetWithTTL k v ttl => fun _ K' => K' = ks_put k (Some (VString v, Some (now + ttl))) K
  | CSetAdv k v ttl opts => fun a K' =>
      let there := bool_decide (is_Some (vis now K k)) in
      let blocked := (NX opts && there) || (XX opts && negb there) in
      let dl := if KeepTTL opts then match vis now K k with Some (_, d) => d | None => None end
                else if 0 <? ttl then Some (now + ttl) else None in
      snd a = negb blocked /\
      (stringOrAbsent now K k -> fst a = (default EmptyString (stringAt (vis now K k)), there)) /\
      K' = if blocked then K else ks_put k (Some (VString v, dl)) K
  | CGet k => fun a K' => a = stringAt (vis now K k) /\ K' = K
  | CGetEx k ttl persist hasTTL => fun a K' =>
      a = stringAt (vis now K k) /\
      K' = match vis now K k with
           | Some (VString v, d) =>
               ks_put k (Some (VString v, if persist then None
                                          else if hasTTL then Some (now + ttl) else d)) K
           | _ => K
           end
  | CDel keys => fun a K' =>
      a = Z.of_nat (size (filter (fun k => vis now K k <> None) (list_to_set keys : gset string))) /\
      K' = fun k => if decide (k ∈ keys /\ vis now K k <> None) then None else K k
  | CExists keys => fun a K' =>
      a = Z.of_nat (length (filter (fun k => vis now K k <> None) keys)) /\ K' = K
  | CKeys pattern => fun a K' =>
      NoDup a /\ (forall k, k ∈ a <-> matches pattern k = true /\ vis now K k <> None) /\ K' = K
  | CLen => fun a K' =>
      (exists ks, NoDup ks /\ (forall k, k ∈ ks <-> vis now K k <> None) /\ a = llen ks) /\ K' = K
  | CFlush => fun _ K' => K' = fun _ => None
  | CExpire k ttl => fun a K' =>
      a = bool_decide (vis now K k <> None) /\
      K' = match vis now K k with
           | Some (v, _) => ks_put k (Some (v, Some (now + ttl))) K
           | None => K
           end
  | CTTL k => fun a K' =>
      a = match vis now K k with
          | None => -2 * Second
          | Some (_, None) => -1 * Second
          | Some (_, Some d) => Until now d
          end /\ K' = K
  | CPersist k => fun a K' =>
      match vis now K k with
      | Some (v, Some _) => a = true /\ K' = ks_put k (Some (v, None)) K
      | _ => a = false /\ K' = K
      end
  | CRename src dst => fun a K' =>
      match vis now K src with
      | None => a = false /\ K' = K
      | Some e => a = true /\ K' = ks_put src None (ks_put dst (Some e) K)
      end
  end.

(** The options of SetAdv look at strings only: NX overwrites a value of another type, XX
    does not find it, GET does not report it, and KEEPTTL does not keep its deadline but
    the one of a string that has expired.  RENAME of a key to itself is caught by the
    handler.  Len differs from what is seen at the very instant of a deadline. *)
Definition stringAllowed {A} (c : StringCall A) (now : Time) (K : keyspace) : Prop :=
  match c with
  | CSetWithTTL _ _ ttl | CGetEx _ ttl _ _ | CExpire _ ttl => int64_ok ttl
  | CSetAdv k _ ttl opts =>
      int64_ok ttl /\
      (NX opts || XX opts || GetOpt opts || KeepTTL opts = true -> stringOrAbsent now K k) /\
      (KeepTTL opts = true -> alive now K k)
  | CLen => forall k v, K k <> Some (v, Some now)
  | CRename src dst => src <> dst
  | _ => True
  end.

(** ** Hashes *)

Definition hashSpec {A} (c : HashCall A) (now : Time) (K : keyspace) : A -> keyspace -> Prop :=
  let hash k := match vis now K k with Some (VHash h, _) => Some h | _ => None end in
  match c with
  | CHSet k fields => fun a K' =>
      match hashOf (vis now K k) with
      | Some (h, d) => a = Z.of_nat (size (fields ∪ h)) - Z.of_nat (size h) /\
                       K' = ks_put k (Some (VHash (fields ∪ h), d)) K
      | None => False
      end
  | CHGet k f => fun a K' => a = (match hash k with Some h => h !! f | None => None end) /\ K' = K
  | CHDel k fields => fun a K' =>
      match vis now K k with
      | Some (VHash h, d) =>
          let h' := filter (fun kv => kv.1 ∉ fields) h in
          a = Z.of_nat (size h) - Z.of_nat (size h') /\ K' = ks_put k (hashEntry h' d) K
      | _ => a = 0 /\ K' = K
      end
  | CHGetAll k => fun a K' => a = hash k /\ K' = K
  | CHLen k => fun a K' => a = Z.of_nat (size (default ∅ (hash k))) /\ K' = K
  | CHExists k f => fun a K' => a = bool_decide (is_Some (default ∅ (hash k) !! f)) /\ K' = K
  | CHKeys k => fun a K' => a ≡ₚ (map_to_list (default ∅ (hash k))).*1 /\ K' = K
  | CHVals k => fun a K' => a ≡ₚ (map_to_list (default ∅ (hash k))).*2 /\ K' = K
  end.

(** HSET does not check the type of its key. *)
Definition hashAllowed {A} (c : HashCall A) (now : Time) (K : keyspace) : Prop :=
  match c with
  | CHSet k fields => alive now K k /\ fields <> ∅ /\ hashOf (vis now K k) <> None
  | _ => True
  end.

(** ** Lists *)

(** The elements of a list from [start] to [stop], both counted from the end if negative. *)
Definition between {X} (start stop : Z) (l : list X) : list X :=
  let lo := Z.max 0 (position start (llen l)) in
  let hi := Z.min (llen l - 1) (position stop (llen l)) in
  if hi <? lo then [] else ltake (hi + 1 - lo) (ldrop lo l).

(** An operation on a key that is a list, or absent. *)
Definition onListKey {B} (now : Time) (K : keyspace) (k : string)
    (body : list string -> option Time -> result B -> keyspace -> Prop)
    (a : result B) (K' : keyspace) : Prop :=
  match listOf (vis now K k) with
  | None => a = Fail ErrWrongType /\ K' = K
  | Some (l, d) => body l d a K'
  end.

Definition listSpec {A} (c : ListCall A) (now : Time) (K : keyspace) : A -> keyspace -> Prop :=
  match c with
  | CLPush k vs => onListKey now K k (fun l d a K' =>
      a = Ok (llen vs + llen l) /\ K' = ks_put k (listEntry (vs ++ l) d) K)
  | CRPush k vs => onListKey now K k (fun l d a K' =>
      a = Ok (llen l + llen vs) /\ K' = ks_put k (listEntry (l ++ vs) d) K)
  | CLPop k n => onListKey now K k (fun l d a K' =>
      match l with
      | [] => a = Ok None /\ K' = K
      | _ => a = Ok (Some (ltake n l)) /\ K' = ks_put k (listEntry (ldrop n l) d) K
      end)
  | CRPop k n => onListKey now K k (fun l d a K' =>
      match l with
      | [] => a = Ok None /\ K' = K
      | _ => a = Ok (Some (ldrop (llen l - n) l)) /\
             K' = ks_put k (listEntry (ltake (llen l - n) l) d) K
      end)
  | CLLen k => onListKey now K k (fun l d a K' => a = Ok (llen l) /\ K' = K)
  | CLRange k start stop => onListKey now K k (fun l d a K' =>
      a = Ok (between start stop l) /\ K' = K)
  | CLIndex k i => onListKey now K k (fun l d a K' =>
      a = Ok (if position i (llen l) <? 0 then None else l !! Z.to_nat (position i (llen l))) /\ K' = K)
  | CLSet k i v => onListKey now K k (fun l d a K' =>
      let j := position i (llen l) in
      match l with
      | [] => a = Fail ErrNoSuchKey /\ K' = K
      | _ => if (0 <=? j) && (j <? llen l)
             then a = Ok tt /\ K' = ks_put k (listEntry (<[Z.to_nat j := v]> l) d) K
             else a = Fail ErrIndexOutOfRange /\ K' = K
      end)
  | CLInsert k before pivot v => onListKey now K k (fun l d a K' =>
      match l with
      | [] => a = Ok 0 /\ K' = K
      | _ => ((pivot ∉ l) /\ a = Ok (-1) /\ K' = K) \/
             exists l1 l2, l = l1 ++ pivot :: l2 /\ (pivot ∉ l1) /\ a = Ok (llen l + 1) /\
               K' = ks_put k (listEntry (l1 ++ (if before then [v; pivot] else [pivot; v]) ++ l2) d) K
      end)
  | CLRem k count v => onListKey now K k (fun l d a K' =>
      let l' := if count =? 0 then filter (fun x => x <> v) l
                else if 0 <? count then remFirst (Z.to_nat count) v l
                else rev (remFirst (Z.to_nat (- count)) v (rev l)) in
      a = Ok (llen l - llen l') /\ K' = ks_put k (listEntry l' d) K)
  | CLTrim k start stop => onListKey now K k (fun l d a K' =>
      a = Ok tt /\ K' = ks_put k (listEntry (between start stop l) d) K)
  | CLMove src dst srcLeft dstLeft => onListKey now K src (fun l d =>
      onListKey now K dst (fun l2 d2 a K' =>
        match l with
        | [] => a = Ok None /\ K' = K
        | _ => exists e rest, l = addEnd srcLeft e rest /\ a = Ok (Some e) /\
            K' = ks_put dst (listEntry (addEnd dstLeft e l2) d2)
                   (ks_put src (listEntry rest d) K)
        end))
  end.

(** LPush of several values leaves the last one leftmost, not the first.  A negative count
    panics.  LMove from an absent key fails when the destination is no list. *)
Definition listAllowed {A} (c : ListCall A) (now : Time) (K : keyspace) : Prop :=
  match c with
  | CLPush k vs => alive now K k /\ length vs = 1%nat
  | CRPush k vs => alive now K k /\ vs <> []
  | CLPop k n | CRPop k n => alive now K k /\ 0 <= n
  | CLLen k | CLRange k _ _ | CLIndex k _ | CLSet k _ _ | CLInsert k _ _ _ | CLTrim k _ _ =>
      alive now K k
  | CLRem k count _ => alive now K k /\ minInt64 < count <= maxInt64
  | CLMove src dst _ _ =>
      alive now K src /\ alive now K dst /\ src <> dst /\
      (vis now K src = None -> listOf (vis now K dst) <> None)
  end.

(** ** Sets *)

(** The set a key stands for, and whether it can be read as one. *)
Definition setAt (now : Time) (K : keyspace) (k : string) : gset string :=
  match vis now K k with Some (VSet st, _) => st | _ => ∅ end.
Definition isSet (now : Time) (K : keyspace) (k : string) : Prop :=
  match vis now K k with None | Some (VSet _, _) => True | _ => False end.

Definition onSetKey {B} (now : Time) (K : keyspace) (k : string)
    (body : gset string -> option Time -> result B -> keyspace -> Prop)
    (a : result B) (K' : keyspace) : Prop :=
  match setOf (vis now K k) with
  | None => a = Fail ErrWrongType /\ K' = K
  | Some (st, d) => body st d a K'
  end.

(** The members of an intersection, a union, a difference. *)
Definition inInter (now : Time) (K : keyspace) (keys : list string) (m : string) : Prop :=
  keys <> [] /\ Forall (fun k => m ∈ setAt now K k) keys.
Definition inUnion (now : Time) (K : keyspace) (keys : list string) (m : string) : Prop :=
  Exists (fun k => m ∈ setAt now K k) keys.
Definition inDiff (now : Time) (K : keyspace) (keys : list string) (m : string) : Prop :=
  match keys with
  | [] => False
  | k0 :: rest => m ∈ setAt now K k0 /\ Forall (fun k => m ∉ setAt now K k) rest
  end.

(** A list of the members of a set, each once. *)
Definition enumerates (P : string -> Prop) (l : list string) : Prop :=
  NoDup l /\ forall m, m ∈ l <-> P m.

Definition storesSet (P : string -> Prop) (dst : string) (K : keyspace) (a : result Z)
    (K' : keyspace) : Prop :=
  exists l, enumerates P l /\ a = Ok (llen l) /\ K' = ks_put dst (setEntry (list_to_set l) None) K.

Definition setSpec {A} (c : SetCall A) (now : Time) (K : keyspace) : A -> keyspace -> Prop :=
  match c with
  | CSAdd k ms => onSetKey now K k (fun st d a K' =>
      a = Ok (Z.of_nat (size (list_to_set ms ∪ st)) - Z.of_nat (size st)) /\
      K' = ks_put k (setEntry (list_to_set ms ∪ st) d) K)
  | CSRem k ms => onSetKey now K k (fun st d a K' =>
      a = Ok (Z.of_nat (size st) - Z.of_nat (size (st ∖ list_to_set ms))) /\
      K' = ks_put k (setEntry (st ∖ list_to_set ms) d) K)
  | CSMembers k => onSetKey now K k (fun st _ a K' =>
      (exists l, a = Ok l /\ enumerates (fun m => m ∈ st) l) /\ K' = K)
  | CSCard k => onSetKey now K k (fun st _ a K' => a = Ok (Z.of_nat (size st)) /\ K' = K)
  | CSIsMember k m => onSetKey now K k (fun st _ a K' => a = Ok (bool_decide (m ∈ st)) /\ K' = K)
  | CSMIsMember k ms => onSetKey now K k (fun st _ a K' =>
      a = Ok ((fun m => if decide (m ∈ st) then 1 else 0) <$> ms) /\ K' = K)
  | CSInter keys => fun a K' => (exists l, a = Ok l /\ enumerates (inInter now K keys) l) /\ K' = K
  | CSUnion keys => fun a K' => (exists l, a = Ok l /\ enumerates (inUnion now K keys) l) /\ K' = K
  | CSDiff keys => fun a K' => (exists l, a = Ok l /\ enumerates (inDiff now K keys) l) /\ K' = K
  | CSInterStore dst keys => storesSet (inInter now K keys) dst K
  | CSUnionStore dst keys => storesSet (inUnion now K keys) dst K
  | CSDiffStore dst keys => storesSet (inDiff now K keys) dst K
  | CSRandMember k count => onSetKey now K k (fun st _ a K' =>
      (exists l, a = Ok l /\ Forall (fun m => m ∈ st) l /\
         (0 <= count -> NoDup l /\ llen l = Z.min count (Z.of_nat (size st))) /\
         (count < 0 -> st <> ∅ -> llen l = - count)) /\ K' = K)
  | CSPop k count => onSetKey now K k (fun st d a K' =>
      exists l, a = Ok l /\ NoDup l /\ llen l = Z.min count (Z.of_nat (size st)) /\
        list_to_set l ⊆ st /\ K' = ks_put k (setEntry (st ∖ list_to_set l) d) K)
  | CSMove src dst m => onSetKey now K src (fun st d =>
      onSetKey now K dst (fun st2 d2 a K' =>
        if decide (m ∈ st) then
          a = Ok true /\ K' = ks_put dst (setEntry ({[m]} ∪ st2) d2)
                                (ks_put src (setEntry (st ∖ {[m]}) d) K)
        else a = Ok false /\ K' = K))
  end.

(** A negative count of SPOP and a huge negative one of SRANDMEMBER panic.  SMove of what is
    no member fails when the destination is no set. *)
Definition setAllowed {A} (c : SetCall A) (now : Time) (K : keyspace) : Prop :=
  match c with
  | CSAdd k ms | CSRem k ms => alive now K k /\ ms <> []
  | CSInter keys | CSUnion keys | CSDiff keys | CSInterStore _ keys | CSUnionStore _ keys
  | CSDiffStore _ keys => Forall (isSet now K) keys
  | CSRandMember _ count => - 2 ^ 44 <= count
  | CSPop k count => alive now K k /\ 0 <= count
  | CSMove src dst m =>
      alive now K src /\ alive now K dst /\ src <> dst /\
      ((m ∉ setAt now K src) -> isSet now K dst)
  | _ => True
  end.

(** ** Sorted sets *)

Definition scoresAt (now : Time) (K : keyspace) (k : string) : gmap string float64 :=
  match vis now K k with Some (VZset sc, _) => sc | _ => ∅ end.
Definition isZSet (now : Time) (K : keyspace) (k : string) : Prop :=
  match vis now K k with None | Some (VZset _, _) => True | _ => False end.

Definition onZSetKey {B} (now : Time) (K : keyspace) (k : string)
    (body : gmap string float64 -> option Time -> result B -> keyspace -> Prop)
    (a : result B) (K' : keyspace) : Prop :=
  match zsetOf (vis now K k) with
  | None => a = Fail ErrWrongType /\ K' = K
  | Some (sc, d) => body sc d a K'
  end.

(** The members in the order of their scores and names. *)
Definition ordered (sc : gmap string float64) (l : list ZMember) : Prop :=
  l ≡ₚ zmembers (mkZset sc) /\ zsorted l.

(** How many members come before one with this score. *)
Definition rankIn (sc : gmap string float64) (m : string) (f : float64) : Z :=
  llen (filter (fun x => zless x (mkZMember m f)) (zmembers (mkZset sc))).

(** The members that a pop leaves. *)
Definition popped (l : list ZMember) (sc : gmap string float64) : gmap string float64 :=
  filter (fun kv => kv.1 ∉ Member <$> l) sc.

(** The scores of an interval. *)
Definition inScores (min max : float64) (minExcl maxExcl : bool) (f : float64) : bool :=
  (if minExcl then F64.ltb min f else F64.leb min f) &&
  (if maxExcl then F64.ltb f max else F64.leb f max).

(** The bounds of a lexicographic range. *)
Inductive lexBound : Type := NegInf | PosInf | Incl (v : string) | Excl (v : string).

Definition lexText (b : lexBound) : string :=
  match b with
  | NegInf => "-"
  | PosInf => "+"
  | Incl v => "[" +:+ v
  | Excl v => "(" +:+ v
  end.

Definition aboveLex (b : lexBound) (m : string) : bool :=
  match b with
  | NegInf => true
  | PosInf => false
  | Incl v => negb (str_ltb m v)
  | Excl v => str_ltb v m
  end.

Definition belowLex (b : lexBound) (m : string) : bool :=
  match b with
  | NegInf => false
  | PosInf => true
  | Incl v => negb (str_ltb v m)
  | Excl v => str_ltb m v
  end.

Definition storesScores (score : string -> option float64) (dst : string) (K : keyspace)
    (a : result Z) (K' : keyspace) : Prop :=
  exists sc, (forall m, sc !! m = score m) /\ a = Ok (Z.of_nat (size sc)) /\
    K' = ks_put dst (zsetEntry sc None) K.

Definition zsetSpec {A} (c : ZSetCall A) (now : Time) (K : keyspace) : A -> keyspace -> Prop :=
  match c with
  | CZAdd k ms nx xx gt lt ch => onZSetKey now K k (fun sc d a K' =>
      exists n sc', added ms nx xx gt lt ch sc n sc' /\ a = Ok n /\
        K' = ks_put k (Some (VZset sc', d)) K)
  | CZRem k ms => onZSetKey now K k (fun sc d a K' =>
      let sc' := filter (fun kv => kv.1 ∉ ms) sc in
      a = Ok (Z.of_nat (size sc) - Z.of_nat (size sc')) /\ K' = ks_put k (zsetEntry sc' d) K)
  | CZScore k m => onZSetKey now K k (fun sc _ a K' => a = Ok (sc !! m) /\ K' = K)
  | CZCard k => onZSetKey now K k (fun sc _ a K' => a = Ok (Z.of_nat (size sc)) /\ K' = K)
  | CZRank k m => onZSetKey now K k (fun sc _ a K' =>
      a = Ok (rankIn sc m <$> sc !! m) /\ K' = K)
  | CZRevRank k m => onZSetKey now K k (fun sc _ a K' =>
      a = Ok ((fun f => Z.of_nat (size sc) - 1 - rankIn sc m f) <$> sc !! m) /\ K' = K)
  | CZIncrBy k incr m => onZSetKey now K k (fun sc d a K' =>
      let f := F64.add (default F64.zero (sc !! m)) incr in
      a = Ok f /\ K' = ks_put k (Some (VZset (<[m := f]> sc), d)) K)
  | CZRange k start stop rev ws => onZSetKey now K k (fun sc _ a K' =>
      (exists l, ordered sc l /\
         a = Ok (withScoresOf ws (between start stop (if rev then List.rev l else l)))) /\ K' = K)
  | CZRangeByScore k min max minExcl maxExcl ws offset count => onZSetKey now K k (fun sc _ a K' =>
      (exists l, ordered sc l /\
         a = Ok (withScoresOf ws (window offset count
               (filter (fun m => inScores min max minExcl maxExcl (Score m)) l)))) /\ K' = K)
  | CZRevRangeByScore k max min maxExcl minExcl ws offset count => onZSetKey now K k (fun sc _ a K' =>
      (exists l, ordered sc l /\
         a = Ok (withScoresOf ws (window offset count
               (filter (fun m => inScores min max minExcl maxExcl (Score m)) (List.rev l))))) /\ K' = K)
  | CZCount k min max minExcl maxExcl => onZSetKey now K k (fun sc _ a K' =>
      a = Ok (llen (filter (fun m => inScores min max minExcl maxExcl (Score m))
                      (zmembers (mkZset sc)))) /\ K' = K)
  | CZRangeByLex k min max offset count => onZSetKey now K k (fun sc _ a K' =>
      (exists l lo hi, ordered sc l /\ min = lexText lo /\ max = lexText hi /\
         a = Ok (Member <$> window offset count
               (filter (fun m => aboveLex lo (Member m) && belowLex hi (Member m)) l))) /\ K' = K)
  | CZLexCount k min max => onZSetKey now K k (fun sc _ a K' =>
      (exists lo hi, min = lexText lo /\ max = lexText hi /\
         a = Ok (llen (filter (fun m => aboveLex lo (Member m) && belowLex hi (Member m))
                         (zmembers (mkZset sc))))) /\ K' = K)
  | CZPopMin k n => onZSetKey now K k (fun sc d a K' =>
      exists l, ordered sc l /\ a = Ok (ltake n l) /\
        K' = if decide (sc = ∅) then K else ks_put k (zsetEntry (popped (ltake n l) sc) d) K)
  | CZPopMax k n => onZSetKey now K k (fun sc d a K' =>
      exists l, ordered sc l /\ a = Ok (ltake n (List.rev l)) /\
        K' = if decide (sc = ∅) then K else ks_put k (zsetEntry (popped (ltake n (List.rev l)) sc) d) K)
  | CZUnionStore dst keys weights agg =>
      storesScores (unionScore (scoresAt now K) agg weights keys) dst K
  | CZInterStore dst keys weights agg =>
      storesScores (interScore (scoresAt now K) agg weights keys) dst K
  end.

(** The scores under a key are numbers. *)
Definition numbers (now : Time) (K : keyspace) (k : string) : Prop := nan_free (scoresAt now K k).

(** Bounds of the documented forms. *)
Definition lexBounds (min max : string) : Prop := exists lo hi,
  min = lexText lo /\ max = lexText hi /\ lo <> PosInf /\ hi <> NegInf.

(** ZADD XX of a missing key creates an empty sorted set.  ZCARD of a missing key and pops of
    a negative number of members panic.  A reverse ZRange takes the ranks of the ascending
    order and then reverses, which is the descending order for the whole range only.  A
    lexicographic range has bounds of the documented forms, and no "+" below or "-" above:
    the code takes "+" as a lower bound for the empty name, and "-" as an upper bound too. *)
Definition zsetAllowed {A} (c : ZSetCall A) (now : Time) (K : keyspace) : Prop :=
  match c with
  | CZAdd k ms _ xx _ _ _ =>
      alive now K k /\ numbers now K k /\ Forall regular ms /\ ms <> [] /\
      (xx = true -> vis now K k <> None)
  | CZIncrBy k _ _ | CZRem k _ => alive now K k
  | CZCard k => vis now K k <> None
  | CZRank k _ | CZRevRank k _ => numbers now K k
  | CZRange k start stop rev _ => numbers now K k /\ (rev = true -> start = 0 /\ stop = -1)
  | CZRangeByLex k min max _ _ => numbers now K k /\ lexBounds min max
  | CZLexCount _ min max => lexBounds min max
  | CZRangeByScore k min max _ _ _ _ _ | CZRevRangeByScore k max min _ _ _ _ _ =>
      numbers now K k /\ F64.IsNaN min = false /\ F64.IsNaN max = false
  | CZPopMin k n | CZPopMax k n => numbers now K k /\ 0 <= n
  | CZUnionStore _ keys _ agg => Forall (isZSet now K) keys /\ agg ∈ aggregates
  | CZInterStore _ keys _ agg => keys <> [] /\ Forall (isZSet now K) keys /\ agg ∈ aggregates
  | _ => True
  end.

(** ** Cursors *)

(** One page of the items in order: at most [count] from [cursor] on, and the next cursor,
    which is 0 at the end. *)
Definition page {X} (name : X -> string) (emit : X -> list string) (pattern : string)
    (cursor count : Z) (items : list X) : Z * list string :=
  let count := if count <=? 0 then 10 else count in
  let from := if llen items <=? cursor then 0 else cursor in
  (if llen items <=? from + count then 0 else from + count,
   concat (emit <$> filter (fun x => scanMatch pattern (name x)) (ltake count (ldrop from items)))).

(** The items of an iteration, in the order of their names. *)
Definition inOrder (P : string -> Prop) (l : list string) : Prop :=
  enumerates P l /\ StronglySorted (fun a b => str_ltb b a = false) l.

Definition scanSpec {A} (c : ScanCall A) (now : Time) (K : keyspace) : A -> keyspace -> Prop :=
  match c with
  | CScan cursor pattern count => fun a K' =>
      (exists keys, inOrder (fun k => vis now K k <> None) keys /\
         a = page (fun k => k) (fun k => [k]) pattern cursor count keys) /\ K' = K
  | CHScan k cursor pattern count => fun a K' =>
      match vis now K k with
      | Some (VHash h, _) =>
          exists fields, inOrder (fun f => is_Some (h !! f)) fields /\
            a = Ok (page (fun f => f) (fun f => [f; default "" (h !! f)]) pattern cursor count fields)
      | _ => a = Ok (0, [])
      end /\ K' = K
  | CSScan k cursor pattern count => fun a K' =>
      match vis now K k with
      | Some (VSet st, _) =>
          exists ms, inOrder (fun m => m ∈ st) ms /\
            a = Ok (page (fun m => m) (fun m => [m]) pattern cursor count ms)
      | _ => a = Ok (0, [])
      end /\ K' = K
  | CZScan k cursor pattern count => fun a K' =>
      match vis now K k with
      | Some (VZset sc, _) =>
          exists l, ordered sc l /\
            a = Ok (page Member (fun m => [Member m; formatScore (Score m)]) pattern cursor count l)
      | _ => a = Ok (0, [])
      end /\ K' = K
  end.

(** The cursors over a value ignore a key of another type where an error is documented. *)
Definition scanAllowed {A} (c : ScanCall A) (now : Time) (K : keyspace) : Prop :=
  match c with
  | CScan cursor _ _ => 0 <= cursor /\ forall k v, K k <> Some (v, Some now)
  | CHScan k cursor _ _ => 0 <= cursor /\ hashOf (vis now K k) <> None
  | CSScan k cursor _ _ => 0 <= cursor /\ isSet now K k
  | CZScan k cursor _ _ => 0 <= cursor /\ numbers now K k /\ isZSet now K k
  end.

(** ** Versions and types *)

(** A keyspace has no versions: what a version promises is a matter of histories, and the
    subject of [watch_sound]. *)
Definition metaSpec {A} (c : MetaCall A) (now : Time) (K : keyspace) : A -> keyspace -> Prop :=
  match c with
  | CVersion k => fun a K' => K' = K
  | CType k => fun a K' =>
      a = typeName (match vis now K k with Some (v, _) => valType v | None => TNone end) /\ K' = K
  end.

(** ** The whole interface *)

Definition spec {A} (c : StoreCall A) (now : Time) (K : keyspace) : A -> keyspace -> Prop :=
  match c with
  | OnString c => stringSpec c now K
  | OnHash c => hashSpec c now K
  | OnList c => listSpec c now K
  | OnSet c => setSpec c now K
  | OnZSet c => zsetSpec c now K
  | OnScan c => scanSpec c now K
  | OnMeta c => metaSpec c now K
  end.

Definition allowed {A} (c : StoreCall A) (now : Time) (K : keyspace) : Prop :=
  clock_ok now /\
  match c with
  | OnString c => stringAllowed c now K
  | OnHash c => hashAllowed c now K
  | OnList c => listAllowed c now K
  | OnSet c => setAllowed c now K
  | OnZSet c => zsetAllowed c now K
  | OnScan c => scanAllowed c now K
  | OnMeta c => True
  end.

(** The sweep is a step of its own: what has expired is gone. *)
Definition swept (now : Time) (K : keyspace) : keyspace := vis now K.
