(* ===== verification/StoreRefines.v ===== *)
(** * The store implements its interface

    Every call of the interface, on a store that represents a keyspace, returns a result
    that the specification allows and leaves a store that represents the keyspace it
    prescribes. *)

From S2P Require Import Prelude GoLib Floats Glob Store Keyspace Lists Sets Hashes ZSets Scan.
From S2P Require Import Interface StoreSpec.
From Stdlib Require Import Sorted.

(** The execution of a call is one that the specification allows. *)
Definition conforms {A} (r : may_panic (A * MemoryStore)) (sp : A -> keyspace -> Prop) : Prop :=
  exists a s' K', r = Ret (a, s') /\ sp a K' /\ represents s' K'.

(** ** Representation *)

Lemma seen_at (e : entry) : seen (default 0 (snd e)) e = Some e.
Proof. destruct e as [v [d|]]; unfold seen; cbn; [by rewrite Z.ltb_irrefl|done]. Qed.

Lemma never_seen s k : store_wf s -> (forall t, view t s k = None) -> cell_of s k = emptyCell.
Proof.
  intros Hs Hv. pose proof (wf_shape s k Hs) as Hsh. unfold view in Hv.
  destruct Hsh as [|v d|v d Hagg Hd]; [done|exfalso..].
  - specialize (Hv (default 0 (deadline d))). rewrite cellView_strCell in Hv.
    pose proof (seen_at (VString v, deadline d)) as E. cbn in E. congruence.
  - specialize (Hv (default 0 d)). rewrite cellView_aggCell in Hv by done.
    pose proof (seen_at (v, d)) as E. cbn in E. congruence.
Qed.

Section Represents.

Context (s : MemoryStore) (K : keyspace) (HR : represents s K).

Lemma rep_wf : store_wf s.
Proof using HR. apply HR. Qed.

Lemma rep_view now k : view now s k = vis now K k.
Proof using HR. apply HR. Qed.

(** The cell under a key holds exactly the entry of the keyspace. *)
Lemma rep_entry k e : K k = Some e -> cell_of s k = entryCell e /\ entry_ok e.
Proof using HR.
  intros He. destruct HR as [Hs Hv]. specialize (Hv (default 0 (snd e)) k).
  rewrite He in Hv. cbn in Hv. rewrite seen_at in Hv.
  split; [by eapply view_cell|by eapply view_entry_ok].
Qed.

Lemma rep_cell k : cell_of s k = optCell (K k).
Proof using HR.
  destruct (K k) as [e|] eqn:He; [by apply rep_entry|]. destruct HR as [Hs Hv].
  apply never_seen; [done|]. intros t. by rewrite Hv, He.
Qed.

Lemma rep_clean now k : alive now K k -> clean now s k.
Proof using HR.
  intros Ha Hv. rewrite rep_view, Ha in Hv. by rewrite rep_cell, Hv.
Qed.

Lemma rep_updates k e s' : updates k e s s' -> represents s' (ks_put k e K).
Proof using HR.
  intros [Hs' Hv]. split; [done|]. intros t k'. rewrite Hv. unfold ks_put.
  case_decide; [done|]. apply HR.
Qed.

Lemma rep_updates2 k e k2 e2 s' :
  store_wf s' ->
  (forall t k', view t s' k' = ks_put k2 (optSeen t e2) (ks_put k (optSeen t e) (view t s)) k') ->
  represents s' (ks_put k2 e2 (ks_put k e K)).
Proof using HR.
  intros Hs' Hv. split; [done|]. intros t k'. rewrite Hv. unfold ks_put.
  do 2 (case_decide; [done|]). apply HR.
Qed.

(** The store is what its cells are. *)
Lemma rep_cells s' : (forall k, cell_of s' k = cell_of s k) -> represents s' K.
Proof using HR.
  intros Hc. split.
  - intros k. rewrite Hc. apply HR.
  - intros t k. unfold view. rewrite Hc. apply HR.
Qed.

Lemma rep_ext K' : (forall k, K' k = K k) -> represents s K'.
Proof using HR. intros He. split; [apply HR|]. intros t k. rewrite He. apply HR. Qed.

(** A call that only reads. *)
Lemma conforms_read {A} (a : A) (sp : A -> keyspace -> Prop) :
  sp a K -> conforms (readOnly a s) sp.
Proof using HR. intros Ha. by exists a, s, K. Qed.

(** The same call with what it writes. *)
Lemma conforms_updates {A} (a : A) s' k e (sp : A -> keyspace -> Prop) :
  updates k e s s' -> sp a (ks_put k e K) -> conforms (Ret (a, s')) sp.
Proof using HR. intros Hu Ha. exists a, s', (ks_put k e K). split_and!; [done..|by apply rep_updates]. Qed.

End Represents.

Lemma vis_seen now K k e : vis now K k = Some e -> K k = Some e.
Proof. unfold vis. destruct (K k) as [e'|]; [|done]. cbn. intros H. by apply seen_Some in H as ->. Qed.

Lemma entryCell_string v t : strCell v t = entryCell (VString v, deadline t).
Proof. cbn. by rewrite deadline_default. Qed.

Lemma deadline_ok t : deadline t <> Some zeroTime.
Proof. unfold deadline, IsZero. destruct (Z.eqb_spec t zeroTime); congruence. Qed.

Lemma entry_ok_deadline v d d' : entry_ok (v, d) -> d' <> Some zeroTime -> entry_ok (v, d').
Proof. by intros [_ Hv] Hd. Qed.

(** A store with the cells of the keyspace. *)
Lemma rep_intro s K :
  (forall k, cell_of s k = optCell (K k)) -> (forall k e, K k = Some e -> entry_ok e) -> represents s K.
Proof.
  intros Hc Hok. split.
  - intros k. rewrite Hc. destruct (K k) as [e|] eqn:He; [by eapply cell_wf_entry, Hok|].
    apply cell_wf_empty.
  - intros t k. unfold view. rewrite Hc. destruct (K k) as [[v d]|] eqn:He; [|done].
    apply cellView_entryCell. by destruct (Hok _ _ He).
Qed.

(** ** Strings, keys and deadlines *)

Section Strings.

Context (now : Time) (s : MemoryStore) (K : keyspace) (HR : represents s K) (Hnow : clock_ok now).

Local Abbreviation stringConforms c := (conforms (execString c now s) (stringSpec c now K)).

(** A call that writes one cell. *)
Lemma conforms_cell {A} (a : A) s' k e (sp : A -> keyspace -> Prop) :
  (forall k', cell_of s' k' = if decide (k = k') then optCell e else cell_of s k') ->
  (forall x, e = Some x -> entry_ok x) -> sp a (ks_put k e K) -> conforms (Ret (a, s')) sp.
Proof using HR.
  intros Hc He. eapply conforms_updates; [done|].
  by apply write_key; [done|eapply rep_wf|].
Qed.

(** The deadline of the string under a key. *)
Lemma string_deadline k :
  match strings s !! k with Some e => deadline (expiresAt e) | None => None end =
    match K k with Some (VString _, d) => d | _ => None end.
Proof using HR.
  change (strings s !! k) with (cStr (cell_of s k)). rewrite (rep_cell s K HR k).
  destruct (K k) as [[[] d]|] eqn:E; try done. cbn.
  destruct (rep_entry s K HR k _ E) as [_ [Hd _]]. destruct d as [d|]; [|apply deadline_zero].
  cbn in *. unfold deadline, IsZero. by rewrite (proj2 (Z.eqb_neq d zeroTime)) by congruence.
Qed.

Lemma SetAdv_conforms k v ttl opts :
  stringAllowed (CSetAdv k v ttl opts) now K -> stringConforms (CSetAdv k v ttl opts).
Proof using HR Hnow.
  intros (Ht & Hstr & Halive). cbn. pose proof (rep_wf s K HR) as Hw.
  pose proof (SetAdv_result now k v ttl opts s) as Hr.
  pose proof (cell_SetAdv now k v ttl opts s) as Hc. pose proof (string_deadline k) as Hd.
  rewrite !Get_stringAt, !(rep_view s K HR) in Hr by done.
  rewrite <- negb_orb in Hr. destruct (SetAdv now k v ttl opts s) as [a s']. cbn [fst snd] in *.
  set (there := bool_decide (is_Some (vis now K k))).
  assert ((NX opts && bool_decide (is_Some (stringAt (vis now K k)))
           || XX opts && negb (bool_decide (is_Some (stringAt (vis now K k))))) =
          (NX opts && there || XX opts && negb there)) as Hb.
  { destruct (NX opts || XX opts) eqn:E.
    - by rewrite stringAt_there by (by apply Hstr).
    - apply orb_false_elim in E as [-> ->]. done. }
  rewrite Hb in Hr. set (blocked := NX opts && there || XX opts && negb there) in *. subst a.
  assert (stringOrAbsent now K k -> (default EmptyString (stringAt (vis now K k)),
            bool_decide (is_Some (stringAt (vis now K k)))) =
            (default EmptyString (stringAt (vis now K k)), there)) as Hold.
  { intros Hs. by rewrite stringAt_there. }
  cbn [snd] in Hc. destruct blocked; cbn [negb] in Hc.
  - eexists _, s', K. split; [done|]. split; [done|]. apply (rep_cells s K HR).
    intros k'. rewrite Hc. by rewrite decide_False by (by intros [_ ?]).
  - set (t := if KeepTTL opts then _ else _) in Hc.
    eapply (conforms_cell _ _ k (Some (VString v, deadline t))).
    + intros k'. rewrite Hc, entryCell_string.
      destruct (decide (k = k')) as [<-|]; [by rewrite decide_True|by rewrite decide_False by (by intros [? _])].
    + intros x [= <-]. by split; [apply deadline_ok|].
    + split; [done|]. split; [done|]. do 4 f_equal. subst t.
      destruct (KeepTTL opts); [|destruct (0 <? ttl); [by apply deadline_add|apply deadline_zero]].
      rewrite !orb_true_r in Hstr. specialize (Hstr eq_refl). unfold stringOrAbsent, stringOrNone in Hstr.
      rewrite (Halive eq_refl) in *.
      transitivity (match K k with Some (VString _, d) => d | _ => None end).
      * rewrite <- Hd. by destruct (strings s !! k); [|apply deadline_zero].
      * by destruct (K k) as [[[] d]|].
Qed.

(** A string that keeps its value and gets a new deadline. *)
Lemma GetEx_conforms k ttl p h : int64_ok ttl -> stringConforms (CGetEx k ttl p h).
Proof using HR Hnow.
  intros Ht. cbn. pose proof (rep_wf s K HR) as Hw. pose proof (cell_GetEx now k ttl p h s) as Hc.
  assert (fst (GetEx now k ttl p h s) = stringAt (view now s k)) as Hf.
  { rewrite <- Get_stringAt by done. unfold GetEx, Get. by destruct (liveString now k s), p, h. }
  destruct (GetEx now k ttl p h s) as [a s']. cbn [fst snd] in *. subst a.
  rewrite liveString_view in Hc by done. rewrite (rep_view s K HR) in *.
  destruct (vis now K k) as [[[v| | | |] d]|] eqn:Hv;
    try (eexists _, s', K; split_and!; [done..|by apply (rep_cells s K HR)]).
  apply vis_seen in Hv. destruct (rep_entry s K HR k _ Hv) as [Hk [Hd _]]. cbn in Hd.
  eapply conforms_cell; [| |by split].
  - intros k'. rewrite Hc. destruct (decide (k = k')) as [<-|];
      [|by rewrite decide_False by (by intros [? _])].
    destruct p, h; cbn [orb]; rewrite ?(decide_True (P := _ /\ _)) by done;
      try by rewrite decide_False by (by intros [_ ?]).
    all: cbn in *; unfold cell_of, strCell in *; congruence.
  - intros x [= <-]. split; [|done]. cbn. destruct p; [done|]. destruct h; [|done].
    intros [= Hz]. by apply (deadline_add now ttl).
Qed.

Lemma Expire_conforms k ttl : int64_ok ttl -> stringConforms (CExpire k ttl).
Proof using HR Hnow.
  intros Ht. cbn. pose proof (rep_wf s K HR) as Hw.
  pose proof (fun k' => cell_Expire_wf now k ttl s k' Hw) as Hc.
  pose proof (Expire_fst now k ttl s) as Hf. destruct (Expire now k ttl s) as [a s'].
  cbn [fst snd] in *. subst a. setoid_rewrite (rep_view s K HR) in Hc. rewrite (rep_view s K HR).
  destruct (vis now K k) as [[v d]|] eqn:Hv;
    [|eexists _, s', K; split_and!; [done..|by apply (rep_cells s K HR)]].
  apply vis_seen in Hv. apply (rep_entry s K HR) in Hv as [_ Hok].
  eapply (conforms_cell _ _ k (Some _)); [exact Hc| |by split].
  intros x [= <-]. eapply entry_ok_deadline; [done|]. intros [= Hz].
  by destruct (deadline_add now ttl Hnow Ht).
Qed.

Lemma Persist_conforms k : stringConforms (CPersist k).
Proof using HR.
  cbn. pose proof (rep_wf s K HR) as Hw.
  pose proof (fun k' => cell_Persist_wf now k s k' Hw) as Hc.
  pose proof (Persist_fst now k s Hw) as Hf. destruct (Persist now k s) as [a s'].
  cbn [fst snd] in *. subst a. setoid_rewrite (rep_view s K HR) in Hc. rewrite (rep_view s K HR).
  destruct (vis now K k) as [[v [d|]]|] eqn:Hv;
    try (eexists _, s', K; split_and!; [done..|by apply (rep_cells s K HR)]).
  apply vis_seen in Hv. apply (rep_entry s K HR) in Hv as [_ Hok].
  eapply (conforms_cell _ _ k (Some _)); [exact Hc| |by split].
  intros x [= <-]. by eapply entry_ok_deadline.
Qed.

Lemma Rename_conforms src dst : src <> dst -> stringConforms (CRename src dst).
Proof using HR.
  intros Hne. cbn. pose proof (rep_wf s K HR) as Hw.
  destruct (Rename_ret now src dst s Hne) as [s' E]. rewrite E.
  pose proof (fun k' => cell_Rename_wf now src dst s _ s' k' Hne (Hw src) E) as Hc.
  pose proof (rep_view s K HR now src) as Hv'. rewrite Hv'.
  destruct (vis now K src) as [e|] eqn:Hv.
  - eexists _, s', _. split; [done|]. split; [by split|]. apply rep_intro.
    + intros k'. rewrite Hc, decide_False by congruence. unfold ks_put.
      apply vis_seen in Hv. rewrite !(rep_cell s K HR), Hv.
      destruct (decide (k' = src)) as [->|]; [by rewrite decide_True|].
      rewrite (decide_False (P := src = k')) by done.
      destruct (decide (k' = dst)) as [->|]; [by rewrite decide_True|].
      by rewrite decide_False.
    + clear Hc. intros k' e'. apply vis_seen in Hv. unfold ks_put.
      do 2 (case_decide; [intros [=]; subst; by apply (rep_entry s K HR src)|]).
      intros He. by apply (rep_entry s K HR) in He as [_ ?].
  - eexists _, s', K. split_and!; [done..|]. apply (rep_cells s K HR).
    intros k'. by rewrite Hc, decide_True.
Qed.

Lemma Del_conforms keys : stringConforms (CDel keys).
Proof using HR.
  cbn. pose proof (rep_wf s K HR) as Hw. pose proof (wf_Del now keys s Hw) as Hw'.
  pose proof (fun t => view_Del t now keys s) as Hv. pose proof (Del_count now keys s) as Hn.
  destruct (Del now keys s) as [a s']. cbn [fst snd] in *.
  eexists a, s', _. split; [done|]. split; [split; [|done]|split; [done|]].
  - rewrite Hn. do 2 f_equal. apply set_eq. intros k.
    rewrite !elem_of_filter, (rep_view s K HR). done.
  - intros t k. rewrite Hv, (rep_view s K HR). case_decide; [done|]. apply HR.
Qed.

Lemma Set_conforms k v t : conforms (writeOnly (bumpVersion k
    (set_strings (<[k := mkStrEntry v t]> (strings (deleteKey k s))) (deleteKey k s))))
  (fun _ K' => K' = ks_put k (Some (VString v, deadline t)) K).
Proof using HR.
  eapply conforms_cell; [| |done].
  - intros k'. by rewrite cell_put_string, entryCell_string.
  - intros x [= <-]. by split; [apply deadline_ok|].
Qed.

(** No deadline passes at this very instant. *)
Lemma no_instant :
  (forall k v, K k <> Some (v, Some now)) -> forall k e, strings s !! k = Some e -> expiresAt e <> now.
Proof using HR Hnow.
  intros Hi k e He Hz. pose proof (string_deadline k) as Hd. rewrite He, Hz in Hd.
  rewrite <- (Z.add_0_r now), (proj2 (deadline_add now 0 Hnow ltac:(done))), Z.add_0_r in Hd.
  destruct (K k) as [[[] d]|] eqn:E; try done. subst d. by eapply Hi.
Qed.

Lemma string_conforms {A} (c : StringCall A) : stringAllowed c now K -> stringConforms c.
Proof using HR Hnow.
  pose proof (rep_wf s K HR) as Hw.
  destruct c; cbn [stringAllowed]; intros Ha;
    try (eapply conforms_read; [done|]; cbn; rewrite <- ?(rep_view s K HR)).
  - pose proof (Set_conforms key val zeroTime) as H. by rewrite deadline_zero in H.
  - pose proof (Set_conforms key val (now + ttl)) as H. by rewrite (proj2 (deadline_add _ _ Hnow Ha)) in H.
  - by apply SetAdv_conforms.
  - by rewrite Get_stringAt.
  - by apply GetEx_conforms.
  - by apply Del_conforms.
  - split; [|done]. rewrite Exists_count. do 2 f_equal. apply list_filter_iff. intros k.
    by rewrite (rep_view s K HR).
  - destruct (Keys_correct now pattern s Hw) as [H1 H2]. split_and!; [done| |done].
    intros k. by rewrite H2, (rep_view s K HR).
  - destruct (Len_correct now s Hw (no_instant Ha)) as (ks & H1 & H2 & H3). split; [|done].
    exists ks. split_and!; [done| |done]. intros k. by rewrite H2, (rep_view s K HR).
  - eexists _, _, _. split; [done|]. split; [done|]. by apply rep_intro.
  - by apply Expire_conforms.
  - by rewrite TTL_view.
  - by apply Persist_conforms.
  - by apply Rename_conforms.
Qed.

Lemma meta_conforms {A} (c : MetaCall A) : conforms (execMeta c now s) (metaSpec c now K).
Proof using HR.
  destruct c; (eapply conforms_read; [done|]); [done|].
  cbn. rewrite <- (rep_view s K HR). split; [|done]. unfold Type_. by rewrite typeOf_view.
Qed.

End Strings.

(** ** Hashes *)

Section Hashes.

Context (now : Time) (s : MemoryStore) (K : keyspace) (HR : represents s K).

Lemma hash_conforms {A} (c : HashCall A) :
  hashAllowed c now K -> conforms (execHash c now s) (hashSpec c now K).
Proof using HR.
  pose proof (rep_wf s K HR) as Hw. pose proof (rep_view s K HR now) as Hv.
  assert (forall k, liveHash now k s =
            match vis now K k with Some (VHash h, _) => Some h | _ => None end) as Hl
    by (intros k; by rewrite liveHash_view, Hv).
  destruct c; cbn [hashAllowed]; intros Ha;
    try (eapply conforms_read; [done|]; split; [|done];
         unfold HGet, HGetAll, HLen, HExists, HKeys, HVals; rewrite Hl; by repeat case_match).
  - destruct Ha as (Ha & Hf & Hh). destruct (hashOf (vis now K key)) as [[h d]|] eqn:E; [|done].
    rewrite <- Hv in E.
    destruct (HSet_effect now key fields s h d Hw (rep_clean s K HR now key Ha) Hf E) as [H1 H2].
    cbn. destruct (HSet key fields s) as [a s']. eapply conforms_updates; [done..|].
    rewrite <- Hv, E. by split.
  - pose proof (HDel_effect now key fields s Hw) as H. rewrite Hv in H. cbn.
    destruct (vis now K key) as [[[v|h|l|st|z] d]|];
      try (rewrite H; by eapply conforms_read).
    destruct H as [H1 H2]. destruct (HDel now key fields s) as [a s'].
    by eapply conforms_updates.
Qed.

End Hashes.

(** ** Lists *)

Lemma clampRange_between {X} start stop (l : list X) :
  let '(lo, hi) := clampRange start stop (llen l) in
  (if hi <? lo then [] else ltake (hi + 1 - lo) (ldrop lo l)) = between start stop l.
Proof.
  unfold clampRange, between. cbv zeta. fold (position start (llen l)) (position stop (llen l)).
  set (a := position start (llen l)). set (b := position stop (llen l)).
  replace (if a <? 0 then 0 else a) with (Z.max 0 a) by (destruct (a <? 0) eqn:?; zbool; lia).
  by replace (if llen l <=? b then llen l - 1 else b) with (Z.min (llen l - 1) b)
    by (destruct (llen l <=? b) eqn:?; zbool; lia).
Qed.

Lemma LRange_between now k start stop s :
  store_wf s -> clean now s k ->
  LRange now k start stop s =
    Ret match listOf (view now s k) with
        | None => Fail ErrWrongType
        | Some (l, _) => Ok (between start stop l)
        end.
Proof.
  intros Hs Hc. rewrite LRange_value by done. destruct (listOf _) as [[l d]|]; [|done].
  pose proof (clampRange_between start stop l) as H. cbv zeta.
  destruct (clampRange start stop (llen l)) as [lo hi]. cbn [fst snd]. by rewrite H.
Qed.

Lemma normaliseIndex_position i n :
  normaliseIndex i n = if (0 <=? position i n) && (position i n <? n) then position i n else -1.
Proof.
  unfold normaliseIndex. fold (position i n).
  destruct (position i n <? 0) eqn:?, (n <=? position i n) eqn:?, (0 <=? position i n) eqn:?,
    (position i n <? n) eqn:?; zbool; cbn; lia.
Qed.

Lemma normaliseIndex_lookup {X} i (l : list X) :
  (if normaliseIndex i (llen l) <? 0 then None else l !! Z.to_nat (normaliseIndex i (llen l))) =
  if position i (llen l) <? 0 then None else l !! Z.to_nat (position i (llen l)).
Proof.
  rewrite normaliseIndex_position. set (j := position _ _).
  destruct (0 <=? j) eqn:E1, (j <? llen l) eqn:E2; cbn; try done; zbool;
    first [zfalse (j <? 0)|ztrue (j <? 0)]; try done.
  symmetry. apply lookup_ge_None_2. unfold llen in *. lia.
Qed.

Section Lists.

Context (now : Time) (s : MemoryStore) (K : keyspace) (HR : represents s K).

Lemma LMove_conforms src dst sl dl :
  alive now K src -> alive now K dst -> src <> dst ->
  conforms (LMove now src dst sl dl s) (listSpec (CLMove src dst sl dl) now K).
Proof using HR.
  intros Hs Hd Hne. pose proof (rep_wf s K HR) as Hw. pose proof (rep_view s K HR now) as Hv.
  apply (rep_clean s K HR) in Hs, Hd. pose proof (list_key now s src Hw Hs) as H1.
  pose proof (list_key now s dst Hw Hd) as H2. cbn. unfold onListKey. rewrite <- !Hv.
  destruct (listOf (view now s src)) as [[l d]|] eqn:E1.
  2: { unfold LMove. rewrite decide_True by intuition. by eapply conforms_read. }
  destruct (listOf (view now s dst)) as [[l2 d2]|] eqn:E2.
  2: { unfold LMove. rewrite decide_False by (by eapply push_type).
       rewrite decide_True by intuition. by eapply conforms_read. }
  destruct (decide (l = [])) as [->|Hne'].
  - destruct H1 as (_ & Hl & _). unfold LMove. rewrite !decide_False by (by eapply push_type).
    rewrite Hl. by eapply conforms_read.
  - destruct (LMove_effect now src dst sl dl s l d l2 d2 Hw Hs Hd Hne Hne' E1 E2)
      as (e & rest & s' & -> & -> & Hw' & Hv'). eexists _, s', _. split; [done|]. split.
    + destruct (addEnd sl e rest) eqn:Ea; [done|]. exists e, rest. by rewrite <- Ea.
    + by apply (rep_updates2 s K HR).
Qed.

(** A call on one list, from what it does with the list under the key: [H] is its effect. *)
Local Ltac on_list H :=
  unfold onListKey; rewrite ?(rep_view s K HR) in H;
  destruct (listOf _) as [[l d]|]; [|rewrite H; by eapply conforms_read].

Lemma list_conforms {A} (c : ListCall A) :
  listAllowed c now K -> conforms (execList c now s) (listSpec c now K).
Proof using HR.
  pose proof (rep_wf s K HR) as Hw. pose proof (rep_clean s K HR now) as Hc.
  destruct c; cbn [listAllowed]; intros Ha; cbn [listSpec execList].
  - destruct Ha as [Ha Hvs]. destruct values as [|x [|]]; [done| |done].
    pose proof (LPush_effect now key [x] s Hw (Hc _ Ha) ltac:(done)) as H.
    on_list H. destruct H as (s' & -> & Hu). by eapply conforms_updates.
  - destruct Ha as [Ha Hvs]. pose proof (RPush_effect now key values s Hw (Hc _ Ha) Hvs) as H.
    on_list H. destruct H as (s' & -> & Hu). by eapply conforms_updates.
  - destruct Ha as [Ha Hn]. pose proof (LPop_effect now key count s Hw (Hc _ Ha) Hn) as H.
    on_list H. destruct l; [rewrite H; by eapply conforms_read|].
    destruct H as (s' & -> & Hu). by eapply conforms_updates.
  - destruct Ha as [Ha Hn]. pose proof (RPop_effect now key count s Hw (Hc _ Ha) Hn) as H.
    on_list H. destruct l; [rewrite H; by eapply conforms_read|].
    destruct H as (s' & -> & Hu). by eapply conforms_updates.
  - pose proof (list_key now s key Hw (Hc _ Ha)) as H. eapply conforms_read; [done|].
    unfold LLen, onListKey. rewrite (rep_view s K HR) in H.
    destruct (listOf _) as [[l d]|]; [|by destruct H as (_ & _ & ->)].
    destruct H as (_ & _ & _ & _ & _ & ->). by destruct l.
  - rewrite (LRange_between now key start stop s Hw (Hc _ Ha)), (rep_view s K HR).
    eapply conforms_read; [done|]. unfold onListKey. by destruct (listOf _) as [[l d]|].
  - rewrite (LIndex_value now key i s Hw (Hc _ Ha)), (rep_view s K HR).
    eapply conforms_read; [done|]. unfold onListKey. destruct (listOf _) as [[l d]|]; [|done].
    split; [|done]. cbv zeta. by rewrite normaliseIndex_lookup.
  - pose proof (LSet_effect now key i val s Hw (Hc _ Ha)) as H. on_list H.
    destruct l as [|x l]; [rewrite H; by eapply conforms_read|]. cbv zeta in *.
    rewrite normaliseIndex_position in H. set (j := position _ _) in *.
    destruct ((0 <=? j) && (j <? llen (x :: l))) eqn:E; [|rewrite H; by eapply conforms_read].
    destruct (j <? 0) eqn:?; zbool; [lia|].
    destruct H as (s' & -> & Hu). by eapply conforms_updates.
  - pose proof (LInsert_effect now key before pivot val s Hw (Hc _ Ha)) as H. on_list H.
    destruct l as [|x l]; [rewrite H; by eapply conforms_read|].
    destruct H as [[Hp ->]|(l1 & l2 & s' & Hl & Hp & -> & Hu)].
    + eapply conforms_read; [done|]. by left.
    + eapply conforms_updates; [done..|]. right. by exists l1, l2.
  - destruct Ha as [Ha Hn]. pose proof (LRem_effect now key count val s Hw (Hc _ Ha) Hn) as H.
    on_list H. destruct H as (s' & -> & Hu). by eapply conforms_updates.
  - pose proof (LTrim_effect now key start stop s Hw (Hc _ Ha)) as H.
    rewrite (LRange_between now key start stop s Hw (Hc _ Ha)), (rep_view s K HR) in H.
    on_list H. destruct H as (s' & r & -> & [= <-] & Hu). by eapply conforms_updates.
  - destruct Ha as (H1 & H2 & H3 & _). by apply LMove_conforms.
Qed.

End Lists.

(** ** Sets *)

Section Sets.

Context (now : Time) (s : MemoryStore) (K : keyspace) (HR : represents s K).

(** What a set method finds under its key. *)
Lemma getSet_rep k :
  match setOf (vis now K k) with
  | None => getSet now k s = Fail ErrWrongType
  | Some (st, _) => exists o, getSet now k s = Ok o /\ default ∅ o = st /\ (o = None -> st = ∅)
  end.
Proof using HR.
  rewrite getSet_view, (rep_view s K HR) by eapply rep_wf, HR.
  destruct (vis now K k) as [[[] d]|]; cbn; [done..| |done|]; eexists; by split_and!.
Qed.

Local Ltac set_read k :=
  eapply conforms_read; [done|]; pose proof (getSet_rep k) as H; unfold onSetKey;
  destruct (setOf _) as [[st d]|]; [destruct H as (o & -> & <- & _)|by rewrite H].

(** The members computed by the set algebra. *)
Lemma algebra_rep keys :
  Forall (isSet now K) keys ->
  (exists l, setInter now keys s = Ok l /\ enumerates (inInter now K keys) l) /\
  (exists l, setUnion now keys s = Ok l /\ enumerates (inUnion now K keys) l) /\
  (exists l, setDiff now keys s = Ok l /\ enumerates (inDiff now K keys) l).
Proof using HR.
  intros Hk. pose proof (rep_wf s K HR) as Hw.
  assert (forall k, membersOf now s k = setAt now K k) as Hm.
  { intros k. unfold membersOf. by rewrite (rep_view s K HR). }
  assert (Forall (readable now s) keys) as Hr.
  { eapply Forall_impl; [done|]. intros k. unfold readable. by rewrite (rep_view s K HR). }
  split_and!.
  - destruct keys as [|k0 rest]; [exists []; split; [done|]; split; [constructor|]|].
    + intros m. split; [by intros ?%elem_of_nil|by intros [? _]].
    + destruct (setInter_spec now k0 rest s Hw Hr) as (l & Hl & Hn & He). exists l.
      do 2 (split; [done|]). intros m. rewrite He. unfold inInter. setoid_rewrite Hm. naive_solver.
  - destruct (setUnion_spec now keys s Hw Hr) as (l & Hl & Hn & He). exists l.
    do 2 (split; [done|]). intros m. rewrite He. by setoid_rewrite Hm.
  - destruct keys as [|k0 rest]; [exists []; split; [done|]; split; [constructor|]|].
    + intros m. split; [by intros ?%elem_of_nil|done].
    + destruct (setDiff_spec now k0 rest s Hw Hr) as (l & Hl & Hn & He). exists l.
      do 2 (split; [done|]). intros m. rewrite He. unfold inDiff. setoid_rewrite Hm. done.
Qed.

Lemma storesSet_conforms P dst l :
  enumerates P l -> conforms (Ret (Ok (llen l), storeMembers dst l s)) (storesSet P dst K).
Proof using HR.
  intros He. eapply conforms_updates; [done|apply storeMembers_effect; eapply rep_wf, HR|].
  by exists l.
Qed.

(** The two methods that choose members at random. *)
Context (shuffle : list string -> list string) (intN : nat -> Z -> Z).
Context (shuffle_perm : forall l, shuffle l ≡ₚ l) (intN_range : forall i n, 0 < n -> 0 <= intN i n < n).

Lemma SRandMember_conforms k count :
  - 2 ^ 44 <= count ->
  conforms (execSet shuffle intN (CSRandMember k count) now s) (setSpec (CSRandMember k count) now K).
Proof using HR shuffle_perm intN_range.
  intros Hn. cbn. pose proof (getSet_rep k) as H. unfold onSetKey.
  destruct (setOf _) as [[st d]|] eqn:E;
    [|unfold SRandMember; rewrite H; by eapply conforms_read].
  destruct (decide (st = ∅)) as [->|Hst].
  - destruct H as (o & Ho & Hd & _). unfold SRandMember. rewrite Ho.
    destruct o as [st|]; [cbn in Hd; subst st|].
    + rewrite getSet_view, (rep_view s K HR) in Ho by eapply rep_wf, HR. exfalso.
      destruct (vis now K k) as [[[] d']|] eqn:Hv; try done. injection Ho as ->.
      apply vis_seen, (rep_entry s K HR) in Hv as [_ [_ Hv]]. done.
    + eapply conforms_read; [done|]. split; [|done]. exists [].
      split_and!; [done|constructor| |done]. intros Hpos. split; [constructor|].
      rewrite size_empty. unfold llen. cbn [length]. lia.
  - rewrite <- (rep_view s K HR) in E.
    destruct (SRandMember_correct shuffle intN shuffle_perm intN_range now k count s st d
                (rep_wf s K HR) E Hst Hn) as (r & -> & Hr).
    eapply conforms_read; [done|]. split; [|done]. exists r. naive_solver.
Qed.

Lemma SMove_conforms src dst m :
  alive now K src -> alive now K dst -> src <> dst ->
  conforms (execSet shuffle intN (CSMove src dst m) now s) (setSpec (CSMove src dst m) now K).
Proof using HR.
  intros Hs Hd Hne. pose proof (rep_wf s K HR) as Hw. pose proof (rep_view s K HR now) as Hv.
  apply (rep_clean s K HR) in Hs, Hd. pose proof (set_key now s src Hw Hs) as H1.
  pose proof (set_key now s dst Hw Hd) as H2. cbn. unfold onSetKey. rewrite <- !Hv.
  destruct (setOf (view now s src)) as [[st d]|] eqn:E1.
  2: { unfold SMove. rewrite decide_True by intuition. by eapply conforms_read. }
  destruct (setOf (view now s dst)) as [[st2 d2]|] eqn:E2.
  2: { unfold SMove. rewrite decide_False by apply H1. rewrite decide_True by intuition.
       by eapply conforms_read. }
  pose proof (SMove_correct now src dst m s st d st2 d2 Hw Hs Hd Hne E1 E2) as H.
  destruct (decide (m ∈ st)); [|rewrite H; by eapply conforms_read].
  destruct H as (s' & -> & Hw' & Hv'). eexists _, s', _. split; [done|]. split; [by split|].
  by apply (rep_updates2 s K HR).
Qed.

Lemma set_conforms {A} (c : SetCall A) :
  setAllowed c now K -> conforms (execSet shuffle intN c now s) (setSpec c now K).
Proof using HR shuffle_perm intN_range.
  pose proof (rep_wf s K HR) as Hw. pose proof (rep_clean s K HR now) as Hc.
  destruct c; cbn [setAllowed]; intros Ha; cbn [setSpec execSet].
  - destruct Ha as [Ha Hm]. pose proof (add_rem_correct now key members s Hw (Hc _ Ha) Hm) as H.
    unfold onSetKey. rewrite (rep_view s K HR) in H. destruct (setOf _) as [[st d]|].
    + destruct H as [(s' & -> & Hu) _]. by eapply conforms_updates.
    + destruct H as [-> _]. by eapply conforms_read.
  - destruct Ha as [Ha Hm]. pose proof (add_rem_correct now key members s Hw (Hc _ Ha) Hm) as H.
    unfold onSetKey. rewrite (rep_view s K HR) in H. destruct (setOf _) as [[st d]|].
    + destruct H as [_ (s' & -> & Hu)]. by eapply conforms_updates.
    + destruct H as [_ ->]. by eapply conforms_read.
  - unfold SMembers. set_read key. split; [|done]. eexists. split; [done|].
    split; [apply NoDup_elements|]. intros m. by rewrite elem_of_elements.
  - unfold SCard. by set_read key.
  - unfold SIsMember. by set_read key.
  - unfold SMIsMember. by set_read key.
  - eapply conforms_read; [done|]. split; [|done]. by apply algebra_rep.
  - eapply conforms_read; [done|]. split; [|done]. by apply algebra_rep.
  - eapply conforms_read; [done|]. split; [|done]. by apply algebra_rep.
  - destruct (algebra_rep keys Ha) as [(l & Hl & He) _]. unfold SInterStore. rewrite Hl.
    by apply storesSet_conforms.
  - destruct (algebra_rep keys Ha) as (_ & (l & Hl & He) & _). unfold SUnionStore. rewrite Hl.
    by apply storesSet_conforms.
  - destruct (algebra_rep keys Ha) as (_ & _ & l & Hl & He). unfold SDiffStore. rewrite Hl.
    by apply storesSet_conforms.
  - by apply SRandMember_conforms.
  - destruct Ha as [Ha Hn]. unfold onSetKey. destruct (setOf _) as [[st d]|] eqn:E.
    + rewrite <- (rep_view s K HR) in E.
      destruct (SPop_correct shuffle shuffle_perm now key count s st d Hw (Hc _ Ha) Hn E)
        as (r & s' & -> & Hr). eapply conforms_updates; [done|apply Hr|]. exists r. naive_solver.
    + pose proof (getSet_rep key) as H. rewrite E in H. unfold SPop. rewrite H. by eapply conforms_read.
  - destruct Ha as (H1 & H2 & H3 & _). by apply SMove_conforms.
Qed.

End Sets.
