(* ===== verification/ZSetRefines.v ===== *)
(** * The store implements its interface: sorted sets and cursors

    The calls of [ZSetCall] and [ScanCall], by the effects of their methods. *)

From S2P Require Import Prelude GoLib Floats Glob Store Keyspace Lists Sets Hashes ZSets Scan.
From S2P Require Import Interface StoreSpec StoreRefines.
From Stdlib Require Import Sorted.

(** ** Members in order *)

Lemma sortedMembers_ordered sc : nan_free sc -> ordered sc (sortedMembers (mkZset sc)).
Proof. intros Hn. split; [apply sortedMembers_perm|by apply sortedMembers_sorted]. Qed.

Lemma sortedMembers_empty : sortedMembers (mkZset ∅) = [].
Proof. apply Permutation_nil_r. by rewrite sortedMembers_perm. Qed.

Lemma zremLoop_spec ms sc :
  zremLoop ms sc = (Z.of_nat (size sc) - Z.of_nat (size (filter (fun kv => kv.1 ∉ ms) sc)),
                    filter (fun kv : string * float64 => kv.1 ∉ ms) sc).
Proof.
  revert sc. induction ms as [|m ms IH]; intros sc; cbn [zremLoop].
  - rewrite map_filter_id by (intros; apply not_elem_of_nil). f_equal. lia.
  - destruct (sc !! m) as [f|] eqn:E.
    + rewrite IH.
      assert (filter (fun kv : string * float64 => kv.1 ∉ ms) (delete m sc) =
              filter (fun kv => kv.1 ∉ m :: ms) sc) as ->.
      { apply map_eq. intros k. rewrite !map_lookup_filter. destruct (decide (k = m)) as [->|Hk].
        - rewrite lookup_delete_eq, E. cbn. rewrite option_guard_False; [done|]. set_solver.
        - rewrite lookup_delete_ne by done. destruct (sc !! k); [|done]. cbn.
          apply option_guard_iff. set_solver. }
      f_equal. rewrite map_size_delete_Some by done. assert (size sc <> 0)%nat; [|lia].
      intros ->%map_size_empty_inv. by rewrite lookup_empty in E.
    + rewrite IH. assert (filter (fun kv : string * float64 => kv.1 ∉ ms) sc =
                          filter (fun kv => kv.1 ∉ m :: ms) sc) as ->; [|done].
      apply map_filter_ext. intros k f Hk. cbn. assert (k <> m) by congruence. set_solver.
Qed.

Lemma between_nil {X} start stop : between start stop (@nil X) = [].
Proof. unfold between, ltake, ldrop. cbv zeta. by rewrite drop_nil, take_nil; destruct (_ <? _). Qed.

Lemma between_all {X} (l : list X) : between 0 (-1) l = l.
Proof.
  unfold between, position, ltake, ldrop. cbv zeta. cbn [Z.ltb Z.compare].
  pose proof (llen_nonneg l). rewrite (Z.max_id 0). destruct (_ <? 0) eqn:E; zbool.
  - destruct l as [|x l]; [done|]. unfold llen in E. cbn [length] in E. lia.
  - rewrite drop_0. apply take_ge. unfold llen in *. lia.
Qed.

(** The part of a sorted set that ZRANGE replies with. *)
Definition rangePart (start stop : Z) (rev : bool) (l : list ZMember) : list ZMember :=
  let part := between start stop l in if rev then List.rev part else part.

Lemma ZRange_value now k start stop rev ws s z :
  getZSet now k s = Ok (Some z) ->
  ZRange now k start stop rev ws s =
    Ret (Ok (withScoresOf ws (rangePart start stop rev (sortedMembers z)))).
Proof.
  intros Hg. unfold ZRange, rangePart. rewrite Hg. case_decide as Hsz.
  { destruct z as [sc]. apply map_size_empty_inv in Hsz. cbn in Hsz. subst sc.
    rewrite sortedMembers_empty, between_nil. by destruct rev. }
  pose proof (clampRange_between start stop (sortedMembers z)) as Hb. unfold clampRange in Hb.
  cbv zeta in Hb. rewrite <- Hb. clear Hb.
  set (n := llen (sortedMembers z)). set (a := if start <? 0 then _ else _).
  set (b := if stop <? 0 then _ else _). assert (0 <= n) by (unfold n, llen; lia).
  set (lo := if a <? 0 then 0 else a). set (hi := if n <=? b then n - 1 else b).
  cbv zeta. fold n a b lo hi. destruct (hi <? lo) eqn:E; [by destruct rev|]. zbool.
  assert (0 <= lo /\ hi + 1 <= n) as [? ?].
  { subst lo hi. destruct (a <? 0) eqn:?, (n <=? b) eqn:?; zbool; lia. }
  rewrite slice_ok by lia. done.
Qed.

Section ZSets.

Context (now : Time) (s : MemoryStore) (K : keyspace) (HR : represents s K).

(** What a sorted-set method finds under its key. *)
Lemma getZSet_rep k :
  match zsetOf (vis now K k) with
  | None => getZSet now k s = Fail ErrWrongType
  | Some (sc, d) => (getZSet now k s = Ok None /\ sc = ∅ /\ vis now K k = None) \/
                    (getZSet now k s = Ok (Some (mkZset sc)) /\ view now s k = Some (VZset sc, d))
  end.
Proof using HR.
  rewrite getZSet_view, (rep_view s K HR) by eapply rep_wf, HR.
  destruct (vis now K k) as [[[] d]|]; cbn; auto.
Qed.

(** A method that reads a sorted set: [H] are the two cases of its key. *)
Local Ltac zset_read k :=
  eapply conforms_read; [done|]; pose proof (getZSet_rep k) as H; unfold onZSetKey;
  destruct (zsetOf _) as [[sc d]|] eqn:Hz; [destruct H as [(-> & -> & _)|(-> & _)]|by rewrite H].

Lemma numbers_of k sc d : numbers now K k -> zsetOf (vis now K k) = Some (sc, d) -> nan_free sc.
Proof using Type.
  unfold numbers, scoresAt. destruct (vis now K k) as [[[] ?]|]; intros Hn [= <- <-]; done.
Qed.

Lemma ZRank_conforms k m :
  numbers now K k ->
  conforms (execZSet (CZRank k m) now s) (zsetSpec (CZRank k m) now K) /\
  conforms (execZSet (CZRevRank k m) now s) (zsetSpec (CZRevRank k m) now K).
Proof using HR.
  intros Hn. cbn. pose proof (getZSet_rep k) as H. unfold onZSetKey, ZRank, ZRevRank.
  destruct (zsetOf _) as [[sc d]|] eqn:Hz.
  2: { rewrite H. split; by eapply conforms_read. }
  pose proof (numbers_of k sc d Hn Hz) as Hnf. destruct H as [(-> & -> & _)|(Hg & Hv)].
  { split; eapply conforms_read; try done; by rewrite lookup_empty. }
  destruct (sc !! m) as [f|] eqn:Hm.
  - destruct (ZRank_correct now k m s sc d f (rep_wf s K HR) Hv Hnf Hm) as (r & H1 & -> & H2 & _).
    fold (ZRank now k m s) (ZRevRank now k m s).
    rewrite H1, H2. split; by eapply conforms_read.
  - rewrite Hg. cbn [scores]. rewrite Hm. split; by eapply conforms_read.
Qed.

Lemma ZRange_conforms k start stop rev ws :
  numbers now K k -> (rev = true -> start = 0 /\ stop = -1) ->
  conforms (execZSet (CZRange k start stop rev ws) now s) (zsetSpec (CZRange k start stop rev ws) now K).
Proof using HR.
  intros Hn Hrev. cbn. pose proof (getZSet_rep k) as H. unfold onZSetKey.
  destruct (zsetOf _) as [[sc d]|] eqn:Hz; [|unfold ZRange; rewrite H; by eapply conforms_read].
  pose proof (sortedMembers_ordered sc (numbers_of k sc d Hn Hz)) as Ho.
  destruct H as [(Hg & -> & _)|(Hg & _)].
  - unfold ZRange. rewrite Hg. eapply conforms_read; [done|]. split; [|done]. eexists.
    split; [done|]. rewrite sortedMembers_empty. by destruct rev; cbn [List.rev]; rewrite between_nil.
  - rewrite (ZRange_value _ _ _ _ _ _ _ _ Hg). eapply conforms_read; [done|]. split; [|done]. eexists.
    split; [done|]. unfold rangePart. destruct rev; [|done].
    destruct (Hrev eq_refl) as [-> ->]. by rewrite !between_all.
Qed.

(** The tests of the score and name ranges are those of the specification. *)
Lemma countHit_inScores min max minExcl maxExcl f :
  countHit min max minExcl maxExcl f = inScores min max minExcl maxExcl f.
Proof using Type.
  unfold countHit, inScores. by destruct minExcl, maxExcl; cbn; rewrite ?orb_false_r.
Qed.

Lemma lexHit_inLex lo hi m :
  lo <> PosInf -> hi <> NegInf ->
  lexHit (lexText lo) (lexText hi) m = aboveLex lo (Member m) && belowLex hi (Member m).
Proof using Type.
  intros Hlo Hhi. destruct lo, hi; try done; unfold lexHit; cbn;
    rewrite ?negb_involutive, ?andb_true_r; done.
Qed.

(** The members a score range selects. *)
Lemma scoreHits_count min max minExcl maxExcl offset count l :
  F64.IsNaN min = false -> F64.IsNaN max = false -> Forall regular l ->
  limitLoop (scoreHit min max minExcl maxExcl) offset count 0 0 l =
    window offset count (filter (fun m => inScores min max minExcl maxExcl (Score m)) l).
Proof using Type.
  intros Hmin Hmax Hr. rewrite limitLoop_window. f_equal. apply filter_ext_regular; [done|].
  intros m Hm. rewrite <- countHit_inScores. by apply scoreHit_countHit.
Qed.

Lemma window_nil {X} offset count : window offset count (@nil X) = [].
Proof using Type. unfold window, ltake, ldrop. rewrite drop_nil, take_nil. by destruct (_ <? _). Qed.

Lemma score_conforms k min max minExcl maxExcl ws offset count :
  numbers now K k -> F64.IsNaN min = false -> F64.IsNaN max = false ->
  let c := CZRangeByScore k min max minExcl maxExcl ws offset count in
  let c' := CZRevRangeByScore k max min maxExcl minExcl ws offset count in
  conforms (execZSet c now s) (zsetSpec c now K) /\ conforms (execZSet c' now s) (zsetSpec c' now K).
Proof using HR.
  intros Hn Hmin Hmax. cbn. pose proof (getZSet_rep k) as H.
  unfold onZSetKey, ZRangeByScore, ZRevRangeByScore.
  destruct (zsetOf _) as [[sc d]|] eqn:Hz; [|rewrite H; split; by eapply conforms_read].
  pose proof (numbers_of k sc d Hn Hz) as Hnf. pose proof (sortedMembers_ordered sc Hnf) as Ho.
  pose proof (sorted_regular sc Hnf) as Hr.
  destruct H as [(-> & -> & _)|(-> & _)].
  - split; (eapply conforms_read; [done|]; split; [|done]; eexists; split; [done|]);
      rewrite sortedMembers_empty; cbn [List.rev]; by rewrite filter_nil, window_nil.
  - rewrite !scoreHits_count by (done || by rewrite <- Permutation_rev).
    split; (eapply conforms_read; [done|]; split; [|done]; by eexists).
Qed.

(** A pop from the front or the back of the members in order. *)
Lemma zpop_conforms from k n :
  numbers now K k -> 0 <= n -> (forall l, from l ≡ₚ l) ->
  conforms (zpop from now k n s)
    (onZSetKey now K k (fun sc d a K' =>
      exists l, ordered sc l /\ a = Ok (ltake n (from l)) /\
        K' = if decide (sc = ∅) then K else ks_put k (zsetEntry (popped (ltake n (from l)) sc) d) K)).
Proof using HR.
  intros Hn Hpos Hf. pose proof (getZSet_rep k) as H. unfold onZSetKey.
  destruct (zsetOf _) as [[sc d]|] eqn:Hz; [|unfold zpop; rewrite H; by eapply conforms_read].
  pose proof (sortedMembers_ordered sc (numbers_of k sc d Hn Hz)) as Ho.
  destruct (decide (sc = ∅)) as [->|Hsc].
  - assert (zpop from now k n s = Ret (Ok [], s)) as ->
      by (unfold zpop; destruct H as [(-> & _ & _)|(-> & _)]; done).
    eapply conforms_read; [done|]. eexists. split; [done|]. split; [|done].
    rewrite sortedMembers_empty, (proj1 (Permutation_nil_r _) (Hf [])). unfold ltake. by rewrite take_nil.
  - destruct H as [(_ & ? & _)|(_ & Hv)]; [done|].
    destruct (zpop_effect from now k n s sc d (rep_wf s K HR) Hv Hsc Hpos Hf) as (s' & -> & Hu).
    eapply conforms_updates; [done..|]. by eexists.
Qed.

(** The two calls that write scores one by one. *)
Lemma zset_write_conforms {B} k sc d sc' (a : B) sp :
  alive now K k -> zsetOf (vis now K k) = Some (sc, d) -> sp a (ks_put k (Some (VZset sc', d)) K) ->
  conforms (Ret (a, bumpVersion k (set_zsets (<[k := mkZset sc']> (zsets s)) s))) sp.
Proof using HR.
  intros Ha Hz. rewrite <- (rep_view s K HR) in Hz. eapply conforms_updates; [done|].
  eapply zset_write; [by eapply rep_wf|by eapply rep_clean|done].
Qed.

Lemma zset_type k :
  alive now K k ->
  match zsetOf (vis now K k) with
  | None => typeOf now k s <> TNone /\ typeOf now k s <> TZset
  | Some (sc, _) => ~ (typeOf now k s <> TNone /\ typeOf now k s <> TZset) /\ zscores k s = sc
  end.
Proof using HR.
  intros Ha. apply (rep_clean s K HR) in Ha. rewrite <- (rep_view s K HR).
  destruct (zsetOf _) as [[sc d]|] eqn:Hz.
  - destruct (zset_key now s k sc d (rep_wf s K HR) Ha Hz) as (H1 & H2 & _). done.
  - rewrite typeOf_view. by destruct (view now s k) as [[[] d]|].
Qed.

Lemma ZAdd_conforms k ms nx xx gt lt ch :
  alive now K k -> numbers now K k -> Forall regular ms ->
  conforms (execZSet (CZAdd k ms nx xx gt lt ch) now s) (zsetSpec (CZAdd k ms nx xx gt lt ch) now K).
Proof using HR.
  intros Ha Hn Hr. cbn. pose proof (zset_type k Ha) as Ht. unfold onZSetKey, ZAdd.
  destruct (zsetOf _) as [[sc d]|] eqn:Hz;
    [|rewrite decide_True by done; by eapply conforms_read].
  destruct Ht as [Ht Hsc]. rewrite decide_False, Hsc by done.
  pose proof (zaddLoop_spec nx xx gt lt ch ms sc Hr (numbers_of k sc d Hn Hz)) as H.
  destruct (zaddLoop nx xx gt lt ch ms sc) as [n sc'].
  eapply zset_write_conforms; [done..|]. by exists n, sc'.
Qed.

Lemma ZIncrBy_conforms k incr m :
  alive now K k ->
  conforms (execZSet (CZIncrBy k incr m) now s) (zsetSpec (CZIncrBy k incr m) now K).
Proof using HR.
  intros Ha. cbn. pose proof (zset_type k Ha) as Ht. unfold onZSetKey, ZIncrBy.
  destruct (zsetOf _) as [[sc d]|] eqn:Hz;
    [|rewrite decide_True by done; by eapply conforms_read].
  destruct Ht as [Ht Hsc]. rewrite decide_False, Hsc by done. by eapply zset_write_conforms.
Qed.

Lemma ZRem_conforms k ms :
  alive now K k -> conforms (execZSet (CZRem k ms) now s) (zsetSpec (CZRem k ms) now K).
Proof using HR.
  intros Ha. cbn. pose proof (getZSet_rep k) as H. unfold onZSetKey, ZRem.
  destruct (zsetOf _) as [[sc d]|] eqn:Hz; [|rewrite H; by eapply conforms_read].
  destruct H as [(-> & -> & Hv)|(-> & Hv)].
  - eexists _, s, _. split; [done|]. split; [by split; [rewrite map_filter_empty|]|].
    apply (rep_ext s K HR). intros k'. unfold ks_put. case_decide; [|done]. subst k'.
    rewrite map_filter_empty. by rewrite <- Ha, Hv.
  - cbn [scores]. rewrite zremLoop_spec. eapply conforms_updates; [done| |by split].
    by eapply updates_bump, putZSet_effect; [eapply rep_wf|].
Qed.

(** The scores that the STORE commands compute are those of the keyspace. *)
Lemma zscoresOf_rep k : zscoresOf now s k = scoresAt now K k.
Proof using HR. unfold zscoresOf. by rewrite (rep_view s K HR). Qed.

Lemma zreadable_rep keys : Forall (isZSet now K) keys -> Forall (zreadable now s) keys.
Proof using HR.
  intros Hk. eapply Forall_impl; [done|]. intros k. unfold zreadable. by rewrite (rep_view s K HR).
Qed.

Lemma products_rep weights keys i m :
  products (zscoresOf now s) weights keys i m = products (scoresAt now K) weights keys i m.
Proof using HR.
  revert i. induction keys as [|k keys IH]; intros i; cbn; [done|]. by rewrite IH, zscoresOf_rep.
Qed.

Lemma unionScore_rep agg weights keys m :
  unionScore (zscoresOf now s) agg weights keys m = unionScore (scoresAt now K) agg weights keys m.
Proof using HR. unfold unionScore. by rewrite products_rep. Qed.

Lemma interScore_rep agg weights keys m :
  interScore (zscoresOf now s) agg weights keys m = interScore (scoresAt now K) agg weights keys m.
Proof using HR.
  unfold interScore. rewrite unionScore_rep. apply decide_ext. apply Forall_iff.
  intros k. by rewrite zscoresOf_rep.
Qed.

Lemma zset_conforms {A} (c : ZSetCall A) :
  zsetAllowed c now K -> conforms (execZSet c now s) (zsetSpec c now K).
Proof using HR.
  pose proof (rep_wf s K HR) as Hw.
  destruct c; cbn [zsetAllowed]; intros Ha.
  - destruct Ha as (H1 & H2 & H3 & _). by apply ZAdd_conforms.
  - by apply ZRem_conforms.
  - cbn. unfold ZScore. by zset_read key.
  - cbn. pose proof (getZSet_rep key) as H. unfold onZSetKey, ZCard.
    destruct (zsetOf _) as [[sc d]|]; [|rewrite H; by eapply conforms_read].
    destruct H as [(_ & _ & ?)|(-> & _)]; [done|]. by eapply conforms_read.
  - by apply ZRank_conforms.
  - by apply ZRank_conforms.
  - by apply ZIncrBy_conforms.
  - destruct Ha as [H1 H2]. by apply ZRange_conforms.
  - destruct Ha as (H1 & H2 & H3). by apply score_conforms.
  - destruct Ha as (H1 & H2 & H3). by apply score_conforms.
  - cbn. unfold ZCount. zset_read key; [done|]. split; [|done]. do 2 f_equal.
    apply list_filter_iff. intros m. by rewrite countHit_inScores.
  - destruct Ha as (Hn & lo & hi & -> & -> & Hlo & Hhi).
    cbn. unfold ZRangeByLex. pose proof (getZSet_rep key) as H. unfold onZSetKey.
    destruct (zsetOf _) as [[sc d]|] eqn:Hz; [|rewrite H; by eapply conforms_read].
    pose proof (sortedMembers_ordered sc (numbers_of key sc d Hn Hz)) as Ho.
    eapply conforms_read; [done|]. split; [|done]. eexists _, lo, hi. do 3 (split; [done|]).
    destruct H as [(-> & -> & _)|(-> & _)];
      [by rewrite sortedMembers_empty, filter_nil, window_nil|].
    rewrite limitLoop_window. do 3 f_equal. apply filter_agree. intros m _. by apply lexHit_inLex.
  - destruct Ha as (lo & hi & -> & -> & Hlo & Hhi).
    cbn. unfold ZLexCount, ZRangeByLex. zset_read key; (split; [|done]); exists lo, hi; [done|].
    do 2 (split; [done|]). rewrite limitLoop_window. unfold window, llen. cbn [Z.ltb Z.compare].
    rewrite ldrop_0, length_fmap, sortedMembers_perm. do 3 f_equal.
    apply filter_agree. intros m _. by apply lexHit_inLex.
  - destruct Ha as [H1 H2]. by apply (zpop_conforms (fun l => l)).
  - destruct Ha as [H1 H2]. apply (zpop_conforms (@List.rev ZMember)); [done..|].
    intros l. by rewrite <- Permutation_rev.
  - destruct Ha as [Ha Hagg].
    cbn. destruct (ZUnionStore_effect now dst keys weights aggregate s Hw Hagg (zreadable_rep _ Ha))
      as (sc & s' & -> & Hm & Hu). eapply conforms_updates; [done..|]. exists sc.
    split_and!; [|done..]. intros m. by rewrite Hm, unionScore_rep.
  - destruct Ha as (Hne & Ha & Hagg). destruct keys as [|k0 keys]; [done|]. cbn [execZSet zsetSpec].
    destruct (ZInterStore_effect now dst k0 keys weights aggregate s Hw Hagg (zreadable_rep _ Ha))
      as (sc & s' & -> & Hm & Hu). eapply conforms_updates; [done..|]. exists sc.
    split_and!; [|done..]. intros m. by rewrite Hm, interScore_rep.
Qed.

End ZSets.

(** ** Cursors *)

Lemma scanLoop_page {X} (name : X -> string) emit pattern cursor count items :
  0 <= cursor ->
  scanLoop name emit pattern cursor (if count <=? 0 then 10 else count) items =
    page name emit pattern cursor count items.
Proof.
  intros Hc. unfold scanLoop, page. cbv zeta. set (n := if count <=? 0 then 10 else count).
  assert (1 <= n) by (subst n; destruct (count <=? 0) eqn:?; zbool; lia).
  set (from := if llen items <=? cursor then 0 else cursor).
  assert (0 <= from /\ from <= llen items) as [? ?].
  { subst from. unfold llen. destruct (_ <=? cursor) eqn:?; zbool; lia. }
  rewrite scanFrom_spec by lia. unfold emitAll. replace (from + n - from) with n by lia.
  f_equal. assert (llen (ldrop from items) = llen items - from) as ->.
  { unfold llen, ldrop in *. rewrite length_drop. lia. }
  destruct (llen items <=? from + n) eqn:?, (llen items <=? from + Z.min n (llen items - from)) eqn:?;
    zbool; lia.
Qed.

Lemma sortStrings_inOrder P l : enumerates P l -> inOrder P (sortStrings l).
Proof.
  intros [Hn Hl]. split; [|apply sortStrings_sorted]. split; [by rewrite sortStrings_perm|].
  intros m. by rewrite sortStrings_perm.
Qed.

Section Scans.

Context (now : Time) (s : MemoryStore) (K : keyspace) (HR : represents s K) (Hnow : clock_ok now).

(** What the deadline of an aggregate hides is not seen. *)
Lemma agg_seen k v d :
  K k = Some (v, d) -> is_aggregate (valType v) = true ->
  (keyExpiredNonStr now k s = true /\ vis now K k = None) \/
  (keyExpiredNonStr now k s = false /\ vis now K k = Some (v, d) /\ typeOf now k s = valType v).
Proof using HR.
  intros Hk Hv. rewrite typeOf_view, (rep_view s K HR). unfold keyExpiredNonStr.
  change (keyExpiry s !! k) with (cExp (cell_of s k)).
  destruct (rep_entry s K HR k _ Hk) as [-> [Hd _]]. cbn in Hd.
  unfold vis. rewrite Hk, (entryCell_agg v d Hv). cbn. unfold seen. cbn.
  replace (cExp (aggCell v d)) with d by (by destruct v).
  destruct d as [d|]; [|by right]. rewrite expired_seen by congruence.
  destruct (d <? now); [by left|by right].
Qed.

(** A call that scans the value under a key. *)
Local Ltac scan_key k :=
  eapply conforms_read; [done|]; split; [|done]; rewrite (rep_cell s K HR);
  destruct (K k) as [[[v|h|l|st|sc] d]|] eqn:E; cbn;
  try (unfold vis; rewrite E; cbn; unfold seen; cbn;
       first [done | by destruct d as [d|]; [destruct (d <? now)|]]);
  (destruct (agg_seen k _ _ E) as [(-> & ->)|(-> & Hvis & ->)]; [done|done|rewrite Hvis]);
  rewrite decide_False by (intros H; by apply H); eexists;
  (split; [|by rewrite scanLoop_page]).

Lemma scan_conforms {A} (c : ScanCall A) :
  scanAllowed c now K -> conforms (execScan c now s) (scanSpec c now K).
Proof using HR Hnow.
  destruct c; cbn [scanAllowed]; intros Ha; cbn [execScan scanSpec].
  - destruct Ha as [Hc Hi]. pose proof (no_instant now s K HR Hnow Hi) as Hb.
    eapply conforms_read; [done|]. split; [|done]. exists (allKeys now s). split.
    + apply sortStrings_inOrder. split.
      * by eapply (NoDup_keysBy (fun e => beforeDeadline now (expiresAt e))), rep_wf.
      * intros k. rewrite <- (rep_view s K HR). by apply counted_visible.
    + unfold Scan. rewrite <- scanLoop_page by done. destruct (llen _ =? 0) eqn:E; [|done].
      zbool. destruct (allKeys now s); [|done]. unfold scanLoop. change (llen []) with 0.
      by ztrue (0 <=? cursor).
  - destruct Ha as [Hc _]. unfold HScan. change (hashes s !! key) with (cHash (cell_of s key)). scan_key key.
    apply sortStrings_inOrder. split; [apply NoDup_fst_map_to_list|].
    intros f. rewrite list_elem_of_fmap. split.
    + intros ([f' x] & -> & Hf%elem_of_map_to_list). by exists x.
    + intros [x Hx]. exists (f, x). by rewrite elem_of_map_to_list.
  - destruct Ha as [Hc _]. unfold SScan. change (sets s !! key) with (cSet (cell_of s key)). scan_key key.
    apply sortStrings_inOrder. split; [apply NoDup_elements|]. intros m. by rewrite elem_of_elements.
  - destruct Ha as (Hc & Hn & _). unfold ZScan. change (zsets s !! key) with (cZset (cell_of s key)).
    scan_key key.
    apply sortedMembers_ordered. unfold numbers, scoresAt in Hn. by rewrite Hvis in Hn.
Qed.

End Scans.
