(* ===== verification/Implements.v ===== *)
(** * MemoryStore implements Store

    Sequences of calls of the interface, with sweeps of the expiry goroutine between them,
    on the implementation ([serveCalls]) and on the abstract store ([conducts]); the theorem is
    that every run of the first is one of the second. *)

From S2P Require Import Prelude GoLib Floats Glob Store Keyspace Lists Sets Hashes ZSets Scan.
From S2P Require Import Interface StoreSpec StoreRefines ZSetRefines.

(** ** Sequences of calls *)

(** What reaches the store: a call of the interface at a time, or a sweep. *)
Inductive storeRequest : Type :=
| Ask {A : Type} (now : Time) (c : StoreCall A)
| Sweep (now : Time).

Inductive storeReply : Type :=
| Reply {A : Type} (a : A).

(** The implementation. *)
Fixpoint serveCalls (shuffle : list string -> list string) (intN : nat -> Z -> Z) (reqs : list storeRequest)
    (s : MemoryStore) : may_panic (list storeReply * MemoryStore) :=
  match reqs with
  | [] => Ret ([], s)
  | Ask now c :: reqs =>
      let! r := exec shuffle intN c now s in
      let! rest := serveCalls shuffle intN reqs (snd r) in
      Ret (Reply (fst r) :: fst rest, snd rest)
  | Sweep now :: reqs => serveCalls shuffle intN reqs (deleteExpired now s)
  end.

(** The abstract store. *)
Inductive conducts : keyspace -> list storeRequest -> list storeReply -> keyspace -> Prop :=
| conducts_nil K : conducts K [] [] K
| conducts_call A now (c : StoreCall A) K a K' reqs rs K'' :
    spec c now K a K' -> conducts K' reqs rs K'' -> conducts K (Ask now c :: reqs) (Reply a :: rs) K''
| conducts_sweep now K reqs rs K'' :
    conducts (swept now K) reqs rs K'' -> conducts K (Sweep now :: reqs) rs K''.

(** Every call is one that the interface covers, wherever the calls before it lead. *)
Fixpoint permitted (K : keyspace) (reqs : list storeRequest) : Prop :=
  match reqs with
  | [] => True
  | Ask now c :: reqs => allowed c now K /\ forall a K', spec c now K a K' -> permitted K' reqs
  | Sweep now :: reqs => permitted (swept now K) reqs
  end.

(** ** The refinement *)

Section Implements.

Context (shuffle : list string -> list string) (intN : nat -> Z -> Z).

Lemma call_conforms {A} (c : StoreCall A) now s K :
  (forall l, shuffle l ≡ₚ l) -> (forall i n, 0 < n -> 0 <= intN i n < n) ->
  represents s K -> allowed c now K -> conforms (exec shuffle intN c now s) (spec c now K).
Proof.
  intros Hs Hi HR [Hnow Ha]. destruct c as [c|c|c|c|c|c|c]; cbn [exec spec] in *.
  - by apply string_conforms.
  - by apply hash_conforms.
  - by apply list_conforms.
  - by apply set_conforms.
  - by apply zset_conforms.
  - by apply scan_conforms.
  - by apply meta_conforms.
Qed.

(** A sweep removes what is not seen, and nothing else. *)
Lemma sweep_represents now s K : represents s K -> represents (deleteExpired now s) (swept now K).
Proof.
  intros HR. pose proof (rep_wf s K HR) as Hw. apply rep_intro.
  - intros k. unfold swept. rewrite <- (rep_view s K HR), <- (sweep_invisible now now s k Hw (Z.le_refl _)).
    apply clean_cell; [by apply wf_deleteExpired|by apply clean_sweep].
  - intros k e He. unfold swept in He. rewrite <- (rep_view s K HR) in He. by eapply view_entry_ok.
Qed.

(** After a sweep nothing is in the way of a call at that time. *)
Lemma swept_alive now K k : alive now (swept now K) k.
Proof.
  unfold alive, swept, vis. destruct (K k) as [e|]; [|done]. cbn. destruct (seen now e) as [e'|] eqn:E; [|done].
  cbn. pose proof (seen_Some _ _ _ E) as ->. done.
Qed.

End Implements.

Lemma new_represents : represents NewMemoryStore (fun _ => None).
Proof. by apply rep_intro. Qed.


