(* ===== verification/Cmd.v ===== *)
(** * Programs over shared state: handlers as sequences of atomic steps

    A command handler calls methods of the store; each call takes the store's lock
    and reads the clock on its own, and other connections may run between two
    calls.  A handler is therefore a value of [cmd S A]: a tree of atomic steps on
    the shared state [S] that ends in a value of [A] or in a panic.  [run] executes
    a program alone; [pstep] interleaves the programs of several connections. *)

From S2P Require Import Prelude GoLib Store.

Inductive cmd (S A : Type) : Type :=
| Done (a : A)
| Op (B : Type) (f : Time -> S -> may_panic (B * S)) (k : B -> cmd S A)
| Crash.
Arguments Done {S A} a.
Arguments Op {S A} B f k.
Arguments Crash {S A}.

Fixpoint cbind {S A B} (c : cmd S A) (k : A -> cmd S B) : cmd S B :=
  match c with
  | Done a => k a
  | Op X f k' => Op X f (fun x => cbind (k' x) k)
  | Crash => Crash
  end.

Declare Scope cmd_scope.
Delimit Scope cmd_scope with cmd.
Notation "'let*' x ':=' c 'in' k" := (cbind c (fun x => k))
  (at level 10, x name, c at level 100, k at level 200,
   format "'let*'  x  ':='  c  'in' '//' k") : cmd_scope.

(** The function a handler is an application of. *)
Ltac head_of t := match t with ?f _ => head_of f | _ => t end.

(** ** One method call *)

Section Calls.

Context {S : Type}.

(** A method that returns a value and may change the state. *)
Definition call {B} (f : Time -> S -> B * S) : cmd S B := Op B (fun t s => Ret (f t s)) Done.

(** A method that only reads, one that only writes, and ones that may panic. *)
Definition query {B} (f : Time -> S -> B) : cmd S B := Op B (fun t s => Ret (f t s, s)) Done.
Definition update (f : Time -> S -> S) : cmd S unit := Op unit (fun t s => Ret (tt, f t s)) Done.
Definition callP {B} (f : Time -> S -> may_panic (B * S)) : cmd S B := Op B f Done.
Definition queryP {B} (f : Time -> S -> may_panic B) : cmd S B :=
  Op B (fun t s => obind (f t s) (fun b => Ret (b, s))) Done.

(** [time.Now()] *)
Definition clockNow : cmd S Time := query (fun t _ => t).

End Calls.

(** ** Running a program alone *)

(** [clock i] is the [i]-th reading of the clock; the result carries the number of
    readings so far. *)
Fixpoint run {S A} (c : cmd S A) (clock : nat -> Time) (i : nat) (s : S)
    : may_panic (A * nat * S) :=
  match c with
  | Done a => Ret (a, i, s)
  | Op _ f k =>
      match f (clock i) s with
      | Ret (b, s') => run (k b) clock (Datatypes.S i) s'
      | Panic => Panic
      | Err e => Err e
      | OutOfFuel => OutOfFuel
      end
  | Crash => Panic
  end.

Lemma run_bind {S A B} (c : cmd S A) (k : A -> cmd S B) clock i s :
  run (cbind c k) clock i s =
    match run c clock i s with
    | Ret (a, i', s') => run (k a) clock i' s'
    | Panic => Panic
    | Err e => Err e
    | OutOfFuel => OutOfFuel
    end.
Proof.
  revert i s. induction c as [a|X f k' IH|]; intros i s; cbn; [done| |done].
  destruct (f (clock i) s) as [[b s']|e| |]; [apply IH|done..].
Qed.

Lemma run_call {S B} (f : Time -> S -> B * S) clock i s :
  run (call f) clock i s = Ret (fst (f (clock i) s), Datatypes.S i, snd (f (clock i) s)).
Proof. cbn. by destruct (f (clock i) s). Qed.

Lemma run_query {S B} (f : Time -> S -> B) clock i s :
  run (query f) clock i s = Ret (f (clock i) s, Datatypes.S i, s).
Proof. done. Qed.

Lemma run_update {S} (f : Time -> S -> S) clock i s :
  run (update f) clock i s = Ret (tt, Datatypes.S i, f (clock i) s).
Proof. done. Qed.

(** ** A part of the state *)

(** A program on a component of the state, as a program on the whole. *)
Fixpoint zoom {S T A} (get : T -> S) (put : S -> T -> T) (c : cmd S A) : cmd T A :=
  match c with
  | Done a => Done a
  | Op X f k =>
      Op X (fun t w => obind (f t (get w)) (fun r => Ret (fst r, put (snd r) w)))
        (fun x => zoom get put (k x))
  | Crash => Crash
  end.

Lemma run_zoom {S T A} (get : T -> S) (put : S -> T -> T) (c : cmd S A) clock i w :
  (forall s w, get (put s w) = s) -> (forall s s' w, put s (put s' w) = put s w) ->
  (forall w, put (get w) w = w) ->
  run (zoom get put c) clock i w =
    match run c clock i (get w) with
    | Ret (a, i', s') => Ret (a, i', put s' w)
    | Panic => Panic
    | Err e => Err e
    | OutOfFuel => OutOfFuel
    end.
Proof.
  intros H1 H2 H3. revert i w. induction c as [a|X f k IH|]; intros i w; cbn.
  - by rewrite H3.
  - destruct (f (clock i) (get w)) as [[b s']|e| |]; cbn; [|done..].
    rewrite IH, H1. destruct (run (k b) clock _ s') as [[[a i'] s'']|e| |]; [|done..].
    by rewrite H2.
  - done.
Qed.

(** ** Interleaving *)

(** One connection of the pool takes its next atomic step at time [t]. *)
Inductive pstep {S A} : list (cmd S A) * S -> Time -> list (cmd S A) * S -> Prop :=
| pstep_op pre post X f k s t b s' :
    f t s = Ret (b, s') ->
    pstep (pre ++ Op X f k :: post, s) t (pre ++ k b :: post, s').

Inductive psteps {S A} : list (cmd S A) * S -> list (cmd S A) * S -> Prop :=
| psteps_refl c : psteps c c
| psteps_step c t c' c'' : pstep c t c' -> psteps c' c'' -> psteps c c''.

(** [P] is kept by every atomic step of the program. *)
Fixpoint steps_keep {S A} (P : S -> Prop) (c : cmd S A) : Prop :=
  match c with
  | Done _ => True
  | Op _ f k =>
      (forall t s b s', P s -> f t s = Ret (b, s') -> P s') /\ forall b, steps_keep P (k b)
  | Crash => True
  end.

Lemma steps_keep_bind {S A B} (P : S -> Prop) (c : cmd S A) (k : A -> cmd S B) :
  steps_keep P c -> (forall a, steps_keep P (k a)) -> steps_keep P (cbind c k).
Proof.
  intros Hc Hk. induction c as [a|X f k' IH|]; cbn in *; [apply Hk| |done].
  destruct Hc as [Hf Hc]. split; [done|]. intros b. apply IH, Hc.
Qed.

(** An invariant of every atomic step of every program is an invariant of every
    interleaving. *)
Lemma psteps_invariant {S A} (P : S -> Prop) (c c' : list (cmd S A) * S) :
  psteps c c' -> Forall (steps_keep P) (fst c) -> P (snd c) ->
  Forall (steps_keep P) (fst c') /\ P (snd c').
Proof.
  induction 1 as [|c t c1 c2 Hs _ IH]; [done|]. intros Hk HP.
  destruct Hs as [pre post X f k s t b s' Hf]. cbn in *.
  apply Forall_app in Hk as [Hpre Hk]. apply Forall_cons in Hk as [[Hstep Hop] Hpost].
  apply IH; [|by eapply Hstep].
  apply Forall_app. split; [done|]. by constructor.
Qed.
