(* ===== verification/Walk.v ===== *)
(** * Reasoning about handlers: postconditions and step relations

    Ways to say something about every handler of the registry.  [post c s Q] is a
    postcondition of the program run alone from [s]; [results P c] one of its result that
    holds whatever other programs do in between; [steps_in R c] says that every atomic step
    of the program is in the relation [R]; [never_panics c] that every one returns.  All are
    closed under sequencing, so that a handler is walked over by tactics. *)

From S2P Require Import Prelude GoLib Store Cmd.

(** ** Postconditions *)

Definition post {S A} (c : cmd S A) (s : S) (Q : A -> S -> Prop) : Prop :=
  forall clock i a i' s', run c clock i s = Ret (a, i', s') -> Q a s'.

Section Post.

Context {S : Type}.

Lemma post_done {A} (a : A) (s : S) (Q : A -> S -> Prop) : Q a s -> post (Done a) s Q.
Proof. by intros HQ clock i a' i' s' [= <- _ <-]. Qed.

Lemma post_crash {A} (s : S) (Q : A -> S -> Prop) : post Crash s Q.
Proof. done. Qed.

Lemma post_bind {A B} (c : cmd S A) (k : A -> cmd S B) s (Q : B -> S -> Prop) :
  post c s (fun a s1 => post (k a) s1 Q) -> post (cbind c k) s Q.
Proof.
  intros H clock i b i' s'. rewrite run_bind.
  destruct (run c clock i s) as [[[a i1] s1]|?| |] eqn:E; try done. by apply (H _ _ _ _ _ E).
Qed.

Lemma post_mono {A} (c : cmd S A) s (P Q : A -> S -> Prop) :
  post c s P -> (forall a s', P a s' -> Q a s') -> post c s Q.
Proof. intros H HPQ clock i a i' s' Hr. by eapply HPQ, H. Qed.

Lemma post_query {B} (f : Time -> S -> B) s (Q : B -> S -> Prop) :
  (forall t, Q (f t s) s) -> post (query f) s Q.
Proof. by intros HQ clock i b i' s' [= <- _ <-]. Qed.

Lemma post_queryP {B} (f : Time -> S -> may_panic B) s (Q : B -> S -> Prop) :
  (forall t b, f t s = Ret b -> Q b s) -> post (queryP f) s Q.
Proof.
  intros HQ clock i b i' s'. cbn. destruct (f (clock i) s) eqn:E; cbn; try done.
  intros [= <- _ <-]. by eapply HQ.
Qed.

Lemma post_update (f : Time -> S -> S) s (Q : unit -> S -> Prop) :
  (forall t, Q tt (f t s)) -> post (update f) s Q.
Proof. by intros HQ clock i [] i' s' [= _ <-]. Qed.

Lemma post_callP {B} (f : Time -> S -> may_panic (B * S)) s (Q : B -> S -> Prop) :
  (forall t b s', f t s = Ret (b, s') -> Q b s') -> post (callP f) s Q.
Proof.
  intros HQ clock i b i' s'. cbn. destruct (f (clock i) s) as [[b1 s1]|?| |] eqn:E; try done.
  intros [= <- _ <-]. by eapply HQ.
Qed.

Lemma post_call {B} (f : Time -> S -> B * S) s (Q : B -> S -> Prop) :
  (forall t b s', f t s = (b, s') -> Q b s') -> post (call f) s Q.
Proof. intros HQ. apply post_callP. intros t b s' [= E]. by eapply HQ. Qed.

Lemma post_steps {A} (P : S -> Prop) (c : cmd S A) s :
  steps_keep P c -> P s -> post c s (fun _ s' => P s').
Proof.
  intros Hk HP clock i. revert i s HP.
  induction c as [x|X f k IH|]; intros i s HP a i' s'; cbn; [by intros [= _ _ <-]| |done].
  destruct Hk as [Hf Hk]. destruct (f (clock i) s) as [[b s1]|?| |] eqn:E; try done.
  apply IH; [done|]. by eapply Hf.
Qed.

End Post.

(** ** Results in any interleaving *)

Fixpoint results {S A} (P : A -> Prop) (c : cmd S A) : Prop :=
  match c with
  | Done a => P a
  | Op _ f k => forall t s b s', f t s = Ret (b, s') -> results P (k b)
  | Crash => True
  end.

Section Results.

Context {S : Type}.

Lemma results_done {A} (P : A -> Prop) a : P a -> results P (Done (S := S) a).
Proof. done. Qed.

Lemma results_crash {A} (P : A -> Prop) : results P (Crash (S := S)).
Proof. done. Qed.

Lemma results_mono {A} (P Q : A -> Prop) (c : cmd S A) :
  results P c -> (forall a, P a -> Q a) -> results Q c.
Proof. induction c as [a|X f k IH|]; cbn; eauto. Qed.

Lemma results_any {A} (c : cmd S A) : results (fun _ => True) c.
Proof. induction c as [a|X f k IH|]; cbn; eauto. Qed.

Lemma results_bind {A B} (P : B -> Prop) (c : cmd S A) (k : A -> cmd S B) :
  results (fun a => results P (k a)) c -> results P (cbind c k).
Proof. induction c as [a|X f k' IH|]; cbn; eauto. Qed.

Lemma results_callP {B} (P : B -> Prop) (f : Time -> S -> may_panic (B * S)) :
  (forall t s b s', f t s = Ret (b, s') -> P b) -> results P (callP f).
Proof. done. Qed.

Lemma results_call {B} (P : B -> Prop) (f : Time -> S -> B * S) :
  (forall t s b s', f t s = (b, s') -> P b) -> results P (call f).
Proof. intros H. apply results_callP. intros t s b s' [= E]. by eapply H. Qed.

Lemma results_query {B} (P : B -> Prop) (f : Time -> S -> B) :
  (forall t s, P (f t s)) -> results P (query f).
Proof. intros H. apply results_callP. by intros t s b s' [= <- _]. Qed.

Lemma results_queryP {B} (P : B -> Prop) (f : Time -> S -> may_panic B) :
  (forall t s b, f t s = Ret b -> P b) -> results P (queryP f).
Proof.
  intros H. apply results_callP. intros t s b s'. destruct (f t s) eqn:E; cbn; try done.
  intros [= <- _]. by eapply H.
Qed.

Lemma results_update (P : unit -> Prop) (f : Time -> S -> S) : P tt -> results P (update f).
Proof. intros H. apply results_callP. by intros t s [] s' _. Qed.

Lemma results_post {A} (P : A -> Prop) (c : cmd S A) s : results P c -> post c s (fun a _ => P a).
Proof.
  intros Hc clock i. revert i s Hc.
  induction c as [x|X f k IH|]; intros i s Hc a i' s'; cbn; [by intros [= <- _ _]| |done].
  destruct (f (clock i) s) as [[b s1]|?| |] eqn:E; try done. by eapply IH, Hc.
Qed.

End Results.

Lemma results_zoom {S T A} (P : A -> Prop) (get : T -> S) (put : S -> T -> T) (c : cmd S A) :
  results P c -> results P (zoom get put c).
Proof.
  induction c as [a|X f k IH|]; cbn; [done| |done]. intros Hf t w b w'.
  destruct (f t (get w)) as [[b1 s1]|?| |] eqn:E; cbn; try done. intros [= <- _]. by eapply IH, Hf.
Qed.

Lemma pstep_at {S A} (pool : list (cmd S A)) j X f k t s b s' :
  pool !! j = Some (Op X f k) -> f t s = Ret (b, s') ->
  pstep (pool, s) t (<[j := k b]> pool, s').
Proof.
  intros E Ef. rewrite (insert_take_drop pool j (k b)) by by eapply lookup_lt_Some.
  rewrite <- (take_drop_middle _ _ _ E) at 1. by constructor.
Qed.

Lemma pstep_inv {S A} (pool pool' : list (cmd S A)) s t s' :
  pstep (pool, s) t (pool', s') ->
  exists i X f k b, pool !! i = Some (Op X f k) /\ f t s = Ret (b, s') /\ pool' = <[i := k b]> pool.
Proof.
  inversion 1 as [pre post X f k s0 t0 b s1 Hf]; subst. exists (length pre), X, f, k, b.
  split; [by apply list_lookup_middle|]. split; [done|].
  rewrite insert_app_r_alt by lia. by rewrite Nat.sub_diag.
Qed.

Lemma psteps_length {S A} (c c' : list (cmd S A) * S) :
  psteps c c' -> length (fst c) = length (fst c').
Proof.
  induction 1 as [|c t c1 c2 Hs _ IH]; [done|]. rewrite <- IH. destruct Hs. cbn.
  by rewrite !length_app.
Qed.

(** What the steps of a program keep is kept in a pool. *)
Lemma pool_keeps {S A} (I : cmd S A -> Prop) (c c' : list (cmd S A) * S) j p :
  (forall X f k t s b s', I (Op X f k) -> f t s = Ret (b, s') -> I (k b)) ->
  psteps c c' -> fst c !! j = Some p -> I p -> exists p', fst c' !! j = Some p' /\ I p'.
Proof.
  intros HI Hs. revert p. induction Hs as [c|c t c1 c2 Hs _ IH]; intros p Hj Hp; [by eauto|].
  destruct Hs as [pre post X f k s t b s' Hf]. cbn in *.
  destruct (decide (j = length pre)) as [->|Hn].
  - rewrite list_lookup_middle in Hj by done. injection Hj as <-.
    apply (IH (k b)); [by apply list_lookup_middle|by eapply HI].
  - apply (IH p); [|done]. rewrite <- Hj.
    destruct (decide (j < length pre)%nat); [by rewrite !lookup_app_l by done|].
    rewrite !lookup_app_r by lia. by destruct (j - length pre)%nat eqn:E; [lia|].
Qed.

Lemma results_pool {S A} (P : A -> Prop) (progs pool : list (cmd S A)) s s' j p a :
  psteps (progs, s) (pool, s') -> progs !! j = Some p -> results P p ->
  pool !! j = Some (Done a) -> P a.
Proof.
  intros Hs Hj Hp Hd. destruct (pool_keeps (results P) (progs, s) (pool, s') j p)
    as (p' & Hp' & HP); [|exact Hs|done..|].
  - cbn. eauto.
  - cbn in Hp'. rewrite Hp' in Hd. by injection Hd as ->.
Qed.

(** ** Results that mean nothing was changed *)

(** A step that changes the state leads to a result outside [P]. *)
Fixpoint harmless {S A} (P : A -> Prop) (c : cmd S A) : Prop :=
  match c with
  | Done _ => True
  | Op _ f k => forall t s b s', f t s = Ret (b, s') ->
      (s' = s \/ results (fun a => ~ P a) (k b)) /\ harmless P (k b)
  | Crash => True
  end.

Section Harmless.

Context {S A : Type} (P : A -> Prop).

Lemma harmless_never (c : cmd S A) : results (fun a => ~ P a) c -> harmless P c.
Proof using Type.
  induction c as [a|X f k IH|]; cbn; [done| |done]. intros Hf t s b s' E. split; [right|]; eauto.
Qed.

Lemma harmless_callP {B} (f : Time -> S -> may_panic (B * S)) (k : B -> cmd S A) :
  (forall t s b s', f t s = Ret (b, s') ->
     s' = s /\ harmless P (k b) \/ results (fun a => ~ P a) (k b)) ->
  harmless P (cbind (callP f) k).
Proof using Type.
  intros Hf t s b s' E. destruct (Hf t s b s' E) as [[-> Hk]|Hk]; cbn; [by auto|].
  split; [by right|by apply harmless_never].
Qed.

Lemma harmless_call {B} (f : Time -> S -> B * S) (k : B -> cmd S A) :
  (forall t s b s', f t s = (b, s') ->
     s' = s /\ harmless P (k b) \/ results (fun a => ~ P a) (k b)) ->
  harmless P (cbind (call f) k).
Proof using Type.
  intros Hf. apply (harmless_callP (fun t s => Ret (f t s))). intros t s b s' [= E]. by eapply Hf.
Qed.

Lemma harmless_query {B} (f : Time -> S -> B) (k : B -> cmd S A) :
  (forall t s, harmless P (k (f t s))) -> harmless P (cbind (query f) k).
Proof using Type.
  intros Hk. apply (harmless_callP (fun t s => Ret (f t s, s))). intros t s b s' [= <- <-]. by left.
Qed.

Lemma harmless_queryP {B} (f : Time -> S -> may_panic B) (k : B -> cmd S A) :
  (forall t s b, f t s = Ret b -> harmless P (k b)) -> harmless P (cbind (queryP f) k).
Proof using Type.
  intros Hk. apply (harmless_callP (fun t s => obind (f t s) (fun b => Ret (b, s)))).
  intros t s b s'. destruct (f t s) as [b1|?| |] eqn:E; cbn; try done. intros [= <- <-]. left.
  split; [done|]. by eapply Hk.
Qed.

Lemma harmless_reads {B} (c : cmd S B) (k : B -> cmd S A) :
  (forall s, steps_keep (eq s) c) -> (forall b, harmless P (k b)) -> harmless P (cbind c k).
Proof using Type.
  intros Hc Hk. induction c as [b|X f k' IH|]; cbn; [apply Hk| |done]. intros t s b s' E.
  split; [left; symmetry; by apply (proj1 (Hc s) t s b s')|]. apply IH. intros s0. apply Hc.
Qed.

(** If the whole ends in [P] only when a part ends in [Q], the part decides. *)
Lemma harmless_bind {B} (Q : B -> Prop) (c : cmd S B) (k : B -> cmd S A) :
  harmless Q c -> results (fun b => ~ Q b -> results (fun a => ~ P a) (k b)) c ->
  results (fun b => Q b -> harmless P (k b)) c -> (forall b, Q b \/ ~ Q b) ->
  harmless P (cbind c k).
Proof using Type.
  intros Hc Hn Hk Hdec. induction c as [b|X f k' IH|]; cbn in *; [| |done].
  - destruct (Hdec b); [by auto|]. by apply harmless_never, Hn.
  - intros t s b s' E. destruct (Hc t s b s' E) as [Hs Hb]. split; [|by eapply IH; eauto].
    destruct Hs as [->|Hr]; [by left|]. right. apply results_bind. specialize (Hn t s b s' E).
    clear -Hr Hn. induction (k' b) as [x|Y g k1 IH1|]; cbn in *; [by auto| |done].
    intros t0 s0 b0 s1 E. eapply IH1; eauto.
Qed.

(** Alone, such a result means that the state is as it was. *)
Lemma harmless_post (c : cmd S A) s : harmless P c -> post c s (fun a s' => P a -> s' = s).
Proof using Type.
  intros Hc clock i. revert i s Hc.
  induction c as [x|X f k IH|]; intros i s Hc a i' s'; cbn; [by intros [= <- _ <-]| |done].
  destruct (f (clock i) s) as [[b s1]|?| |] eqn:E; try done. intros Hr HP.
  destruct (Hc _ _ _ _ E) as [[->|Hn] Hk]; [by eapply IH|].
  by destruct (results_post _ _ _ Hn _ _ _ _ _ Hr).
Qed.

(** In a pool, the steps of a program that ends in [P] can be left out: the others do the
    same, and the state is the same in the end. *)
Lemma harmless_pool (progs pool : list (cmd S A)) s s' j p a :
  psteps (progs, s) (pool, s') -> progs !! j = Some p -> harmless P p ->
  pool !! j = Some (Done a) -> P a -> psteps (<[j := Done a]> progs, s) (pool, s').
Proof using Type.
  intros Hs. remember (progs, s) as c eqn:Ec. remember (pool, s') as c' eqn:Ec'.
  revert progs s p Ec. induction Hs as [c|c t c1 c2 Hs Hss IH]; intros progs s p Ec Hj Hp Hd HP.
  - rewrite Ec in Ec'. injection Ec' as -> ->. rewrite list_insert_id, Ec by done. apply psteps_refl.
  - subst c c2. destruct c1 as [progs1 s1].
    destruct (pstep_inv _ _ _ _ _ Hs) as (i & X & f & k & b & Hi & Hf & ->).
    assert (i < length progs)%nat as Hlen by by eapply lookup_lt_Some.
    destruct (decide (i = j)) as [->|Hn].
    + assert (<[j := k b]> progs !! j = Some (k b)) as Hj' by by apply list_lookup_insert_eq.
      rewrite Hi in Hj. injection Hj as <-. destruct (Hp _ _ _ _ Hf) as [[->|Hr] Hk].
      * specialize (IH eq_refl _ _ (k b) eq_refl Hj' Hk Hd HP). by rewrite list_insert_insert_eq in IH.
      * by destruct (results_pool (fun a => ~ P a) _ _ _ _ j (k b) a Hss Hj' Hr Hd).
    + eapply psteps_step; [eapply (pstep_at _ i); [by rewrite list_lookup_insert_ne|exact Hf]|].
      rewrite list_insert_insert_ne by done.
      apply (IH eq_refl _ _ p eq_refl); [by rewrite list_lookup_insert_ne|done..].
Qed.

End Harmless.

(** ** Termination *)

(** The pool [y] comes after [x]. *)
Definition after {S A} (y x : list (cmd S A) * S) : Prop := exists t, pstep x t y.

(** What is left of a program after its next step. *)
Definition rest_of {S A} (c' c : cmd S A) : Prop :=
  match c with Op _ _ k => exists b, c' = k b | _ => False end.

(** One program of the list takes a step. *)
Inductive shrinks {S A} : list (cmd S A) -> list (cmd S A) -> Prop :=
| shrinks_here c c' pool : rest_of c' c -> shrinks (c' :: pool) (c :: pool)
| shrinks_there c pool pool' : shrinks pool' pool -> shrinks (c :: pool') (c :: pool).

Lemma shrinks_cons {S A} (c : cmd S A) pool : Acc shrinks pool -> Acc shrinks (c :: pool).
Proof.
  intros Hp. revert c. induction Hp as [pool Hp IHp]. intros c.
  induction c as [a|X f k IHc|]; constructor; intros y Hy;
    inversion Hy as [c0 c' pool0 Hr|c0 pool0 pool' Hs]; subst.
  - destruct Hr.
  - apply IHp, Hs.
  - destruct Hr as [b ->]. apply IHc.
  - apply IHp, Hs.
  - destruct Hr.
  - apply IHp, Hs.
Qed.

Lemma shrinks_wf {S A} (pool : list (cmd S A)) : Acc shrinks pool.
Proof. induction pool as [|c pool IH]; [constructor; inversion 1|apply shrinks_cons, IH]. Qed.

Lemma shrinks_middle {S A} pre (c c' : cmd S A) post :
  rest_of c' c -> shrinks (pre ++ c' :: post) (pre ++ c :: post).
Proof. intros Hr. induction pre as [|p pre IH]; cbn; by constructor. Qed.

(** There is no endless interleaving of any programs. *)
Lemma pool_terminates {S A} (c : list (cmd S A) * S) : Acc after c.
Proof.
  destruct c as [pool s]. revert s. induction (shrinks_wf pool) as [pool _ IH]. intros s.
  constructor. intros [pool' s'] [t Hs]. apply IH.
  inversion Hs as [pre post X f k s1 t1 b s2 Hf]; subst. apply shrinks_middle. by exists b.
Qed.

(** ** Step relations *)

Fixpoint steps_in {S A} (R : S -> S -> Prop) (c : cmd S A) : Prop :=
  match c with
  | Done _ => True
  | Op _ f k => (forall t s b s', f t s = Ret (b, s') -> R s s') /\ forall b, steps_in R (k b)
  | Crash => True
  end.

Section Steps.

Context {S : Type} (R : S -> S -> Prop).

Lemma steps_done {A} (a : A) : steps_in R (Done a).
Proof using Type. done. Qed.

Lemma steps_crash {A} : steps_in R (Crash (A := A)).
Proof using Type. done. Qed.

Lemma steps_bind {A B} (c : cmd S A) (k : A -> cmd S B) :
  steps_in R c -> (forall a, steps_in R (k a)) -> steps_in R (cbind c k).
Proof using Type.
  intros Hc Hk. induction c as [a|X f k' IH|]; cbn in *; [apply Hk| |done].
  destruct Hc as [Hf Hc]. split; [done|]. intros b. apply IH, Hc.
Qed.

Lemma steps_callP {B} (f : Time -> S -> may_panic (B * S)) :
  (forall t s b s', f t s = Ret (b, s') -> R s s') -> steps_in R (callP f).
Proof using Type. done. Qed.

Lemma steps_call {B} (f : Time -> S -> B * S) :
  (forall t s, R s (snd (f t s))) -> steps_in R (call f).
Proof using Type.
  intros H. apply steps_callP. intros t s b s' [= E]. specialize (H t s). by rewrite E in H.
Qed.

Lemma steps_update (f : Time -> S -> S) : (forall t s, R s (f t s)) -> steps_in R (update f).
Proof using Type. intros H. apply steps_callP. by intros t s b s' [= _ <-]. Qed.

Lemma steps_query {B} (f : Time -> S -> B) : (forall s, R s s) -> steps_in R (query f).
Proof using Type. intros H. apply steps_callP. by intros t s b s' [= _ <-]. Qed.

Lemma steps_queryP {B} (f : Time -> S -> may_panic B) :
  (forall s, R s s) -> steps_in R (queryP f).
Proof using Type.
  intros H. apply steps_callP. intros t s b s'. destruct (f t s); cbn; [|done..].
  by intros [= _ <-].
Qed.

End Steps.

(** Steps on a part of the state, as steps on the whole. *)
Lemma steps_zoom {S T A} (get : T -> S) (put : S -> T -> T) (R : S -> S -> Prop)
    (RT : T -> T -> Prop) (c : cmd S A) :
  (forall s' w, R (get w) s' -> RT w (put s' w)) -> steps_in R c -> steps_in RT (zoom get put c).
Proof.
  intros Hp. induction c as [a|X f k IH|]; cbn; [done| |done]. intros [Hf Hk]. split; [|auto].
  intros t w b w'. destruct (f t (get w)) as [[b' s']|?| |] eqn:E; cbn; try done.
  intros [= <- <-]. by eapply Hp, Hf.
Qed.

(** ** Counted interleavings *)

(** [n] atomic steps of a pool of programs. *)
Inductive interleaved {S A} : nat -> list (cmd S A) * S -> list (cmd S A) * S -> Prop :=
| interleaved_none c : interleaved O c c
| interleaved_step n c t c' c'' :
    pstep c t c' -> interleaved n c' c'' -> interleaved (Datatypes.S n) c c''.

(** A family of relations that adds up along the steps. *)
Lemma interleaved_in {S A} (R : nat -> S -> S -> Prop) n (c c' : list (cmd S A) * S) :
  (forall s, R O s s) ->
  (forall n s s1 s2, R 1%nat s s1 -> R n s1 s2 -> R (Datatypes.S n) s s2) ->
  interleaved n c c' -> Forall (steps_in (R 1%nat)) (fst c) -> R n (snd c) (snd c').
Proof.
  intros H0 HS. induction 1 as [c|n c t c1 c2 Hs _ IH]; [done|]. intros Hk.
  destruct Hs as [pre post X f k s t b s' Hf]. cbn in *.
  apply Forall_app in Hk as [Hpre Hk]. apply Forall_cons in Hk as [[Hstep Hop] Hpost].
  eapply HS; [by eapply Hstep|]. apply IH.
  apply Forall_app. split; [done|]. by constructor.
Qed.

(** ** Programs that cannot panic *)

(** Every atomic step returns, in every state and at every time. *)
Fixpoint never_panics {S A} (c : cmd S A) : Prop :=
  match c with
  | Done _ => True
  | Op _ f k => (forall t s, exists r, f t s = Ret r) /\ forall b, never_panics (k b)
  | Crash => False
  end.

Section Total.

Context {S : Type}.

Lemma total_bind {A B} (c : cmd S A) (k : A -> cmd S B) :
  never_panics c -> (forall a, never_panics (k a)) -> never_panics (cbind c k).
Proof.
  intros Hc Hk. induction c as [a|X f k' IH|]; cbn in *; [apply Hk| |done].
  destruct Hc as [Hf Hc]. split; [done|]. intros b. apply IH, Hc.
Qed.

Lemma total_done {A} (a : A) : never_panics (Done (S := S) a).
Proof. done. Qed.

Lemma total_callP {B} (f : Time -> S -> may_panic (B * S)) :
  (forall t s, exists r, f t s = Ret r) -> never_panics (callP f).
Proof. done. Qed.

Lemma total_call {B} (f : Time -> S -> B * S) : never_panics (call f).
Proof. apply total_callP. eauto. Qed.

Lemma total_query {B} (f : Time -> S -> B) : never_panics (query f).
Proof. apply total_callP. eauto. Qed.

Lemma total_update (f : Time -> S -> S) : never_panics (update f).
Proof. apply total_callP. eauto. Qed.

Lemma total_queryP {B} (f : Time -> S -> may_panic B) :
  (forall t s, exists r, f t s = Ret r) -> never_panics (queryP f).
Proof. intros Hf. apply total_callP. intros t s. destruct (Hf t s) as [b ->]. eauto. Qed.

(** Alone, such a program ends with a value. *)
Lemma total_run {A} (c : cmd S A) clock i s :
  never_panics c -> exists a i' s', run c clock i s = Ret (a, i', s').
Proof.
  revert i s. induction c as [a|X f k IH|]; intros i s; cbn; [eauto| |done].
  intros [Hf Hk]. destruct (Hf (clock i) s) as [[b s'] ->]. by apply IH.
Qed.

(** In a pool of such programs every one that is not finished can take its step, and the
    programs stay such. *)
Lemma total_pool {A} (c c' : list (cmd S A) * S) :
  psteps c c' -> Forall never_panics (fst c) -> Forall never_panics (fst c').
Proof.
  induction 1 as [|c t c1 c2 Hs _ IH]; [done|]. intros Hk. apply IH.
  destruct Hs as [pre post X f k s t b s' Hf]. cbn in *.
  apply Forall_app in Hk as [Hpre Hk]. apply Forall_cons in Hk as [[_ Hop] Hpost].
  apply Forall_app. split; [done|]. by constructor.
Qed.

Lemma total_step {A} pre (c : cmd S A) post s t :
  never_panics c -> (exists a, c = Done a) \/ exists c' s', pstep (pre ++ c :: post, s) t (pre ++ c' :: post, s').
Proof.
  destruct c as [a|X f k|]; cbn; [by left; eauto| |done]. intros [Hf _]. right.
  destruct (Hf t s) as [[b s'] E]. exists (k b), s'. by constructor.
Qed.

End Total.

Lemma total_zoom {S T A} (get : T -> S) (put : S -> T -> T) (c : cmd S A) :
  never_panics c -> never_panics (zoom get put c).
Proof.
  induction c as [a|X f k IH|]; cbn; [done| |done]. intros [Hf Hk]. split; [|auto].
  intros t w. destruct (Hf t (get w)) as [[b s'] ->]. cbn. eauto.
Qed.

(** ** Total correctness in any interleaving *)

(** Every step returns, and the program ends with a result in [P], whatever others do. *)
Fixpoint returns {S A} (P : A -> Prop) (c : cmd S A) : Prop :=
  match c with
  | Done a => P a
  | Op _ f k => forall t s, exists b s', f t s = Ret (b, s') /\ returns P (k b)
  | Crash => False
  end.

Lemma returns_intro {S A} (P : A -> Prop) (c : cmd S A) :
  never_panics c -> results P c -> returns P c.
Proof.
  induction c as [a|X f k IH|]; cbn; [done| |done]. intros [Hf Hk] Hr t s.
  destruct (Hf t s) as [[b s'] E]. exists b, s'. split; [done|]. apply IH; [done|by eapply Hr].
Qed.

Lemma returns_bind {S A B} (P : A -> Prop) (Q : B -> Prop) (c : cmd S A) (k : A -> cmd S B) :
  returns P c -> (forall a, P a -> returns Q (k a)) -> returns Q (cbind c k).
Proof.
  intros Hc Hk. induction c as [a|X f k' IH|]; cbn in *; [by auto| |done].
  intros t s. destruct (Hc t s) as (b & s' & E & Hb). eauto.
Qed.

Lemma returns_mono {S A} (P Q : A -> Prop) (c : cmd S A) :
  returns P c -> (forall a, P a -> Q a) -> returns Q c.
Proof.
  intros Hc HPQ. induction c as [a|X f k IH|]; cbn in *; [by auto| |done].
  intros t s. destruct (Hc t s) as (b & s' & E & Hb). eauto.
Qed.

(** A program of a pool has ended with a right result, or can take its next step. *)
Lemma returns_pool {S A} (P : A -> Prop) (progs pool : list (cmd S A)) s s' j p :
  psteps (progs, s) (pool, s') -> progs !! j = Some p -> returns P p ->
  (exists a, pool !! j = Some (Done a) /\ P a) \/
  (forall t, exists c s2, pstep (pool, s') t (<[j := c]> pool, s2)).
Proof.
  intros Hs Hj Hp. destruct (pool_keeps (returns P) (progs, s) (pool, s') j p)
    as (p' & Hp' & HP); [|exact Hs|done..|].
  - cbn. intros X f k t s0 b s1 Hf E. destruct (Hf t s0) as (b' & s2 & E' & Hk). congruence.
  - cbn in Hp'. destruct p' as [a|X f k|]; cbn in HP; [left; eauto| |done].
    right. intros t. destruct (HP t s') as (b & s2 & E & _). exists (k b), s2. by eapply pstep_at.
Qed.

(** ** Executing an interleaving *)

(** The pool with its turns given: who takes the next step, all at time [t].  A turn of a
    program that has ended is skipped. *)
Fixpoint runPool {S A} (turns : list nat) (t : Time) (pool : list (cmd S A)) (s : S)
    : list (cmd S A) * S :=
  match turns with
  | [] => (pool, s)
  | j :: turns' =>
      match pool !! j with
      | Some (Op _ f k) =>
          match f t s with
          | Ret (b, s') => runPool turns' t (<[j := k b]> pool) s'
          | _ => (pool, s)
          end
      | _ => runPool turns' t pool s
      end
  end.

Lemma runPool_psteps {S A} turns t (pool : list (cmd S A)) s :
  psteps (pool, s) (fst (runPool turns t pool s), snd (runPool turns t pool s)).
Proof.
  revert pool s. induction turns as [|j turns IH]; intros pool s; cbn [runPool]; [apply psteps_refl|].
  destruct (pool !! j) as [[a|X f k|]|] eqn:E; [apply IH| |apply IH..].
  destruct (f t s) as [[b s']|?| |] eqn:Ef; [|apply psteps_refl..].
  eapply psteps_step; [by eapply pstep_at|apply IH].
Qed.
