(* ===== verification/Rely.v ===== *)
(** * Rely and guarantee

    Programs of several connections on shared state, where each program owns a part of the
    state.  What a program owns is a ghost value: its steps may change it, and must leave
    what the others own alone.  A program that is correct under the assumption that nobody
    touches what it owns ([wp]) is then correct in every interleaving with others of the
    kind. *)

From S2P Require Import Prelude GoLib Store Cmd Walk.

(** ** The interface *)

(** [rely o s s']: the others may go from [s] to [s'] while this program owns [o].
    [guar o s o' s']: a step of this program from [s] to [s'], after which it owns [o'].
    [owned os s]: the programs own [os] in [s]. *)
Class Sharing (S O : Type) : Type := mkSharing {
  rely : O -> S -> S -> Prop;
  guar : O -> S -> O -> S -> Prop;
  owned : list O -> S -> Prop;
  rely_refl : forall o s, rely o s s;
  rely_trans : forall o s s1 s2, rely o s s1 -> rely o s1 s2 -> rely o s s2;
  guar_owned : forall pre post o o' s s',
    owned (pre ++ o :: post) s -> guar o s o' s' -> owned (pre ++ o' :: post) s';
  guar_rely : forall pre post o o' s s' x,
    owned (pre ++ o :: post) s -> guar o s o' s' -> x ∈ pre ++ post -> rely x s s'
}.

Section Wp.

Context {S O : Type} `{Sharing S O}.

(** From [s], and whatever the others do, the steps of [c] keep the guarantee, and if it
    ends then in [Q]. *)
Fixpoint wp {A} (o : O) (c : cmd S A) (Q : O -> A -> S -> Prop) (s : S) : Prop :=
  match c with
  | Done a => forall s', rely o s s' -> Q o a s'
  | Op _ f k => forall t s1 b s2, rely o s s1 -> f t s1 = Ret (b, s2) ->
      exists o', guar o s1 o' s2 /\ wp o' (k b) Q s2
  | Crash => True
  end.

Lemma wp_rely {A} o (c : cmd S A) Q s s' : wp o c Q s -> rely o s s' -> wp o c Q s'.
Proof using Type.
  destruct c as [a|X f k|]; cbn; [| |done].
  - intros HQ Hs s2 Hs'. apply HQ. by eapply rely_trans.
  - intros Hf Hs t s1 b s2 Hr. apply Hf. by eapply rely_trans.
Qed.

Lemma wp_mono {A} o (c : cmd S A) (P Q : O -> A -> S -> Prop) s :
  wp o c P s -> (forall o a s, P o a s -> Q o a s) -> wp o c Q s.
Proof using Type.
  revert o s. induction c as [a|X f k IH|]; intros o s; cbn; [by auto| |done].
  intros Hf HPQ t s1 b s2 Hr E. destruct (Hf t s1 b s2 Hr E) as (o' & Hg & Hk). eauto.
Qed.

Lemma wp_done {A} o (a : A) (Q : O -> A -> S -> Prop) s :
  (forall s', rely o s s' -> Q o a s') -> wp o (Done a) Q s.
Proof using Type. done. Qed.

Lemma wp_bind {A B} o (c : cmd S A) (k : A -> cmd S B) Q s :
  wp o c (fun o' a s' => wp o' (k a) Q s') s -> wp o (cbind c k) Q s.
Proof using Type.
  revert o s. induction c as [a|X f k' IH|]; intros o s; cbn; [| |done].
  - intros Ha. apply Ha, rely_refl.
  - intros Hf t s1 b s2 H1 E. destruct (Hf t s1 b s2 H1 E) as (o' & Hg & Hk). eauto.
Qed.

(** Steps that may be taken whatever the program owns. *)
Lemma wp_steps {A} o (c : cmd S A) (R : S -> S -> Prop) Q s :
  (forall s s', R s s' -> rely o s s' /\ guar o s o s') -> steps_in R c ->
  (forall a s', rely o s s' -> Q o a s') -> wp o c Q s.
Proof using Type.
  intros HR. revert s. induction c as [a|X f k IH|]; intros s; cbn; [by auto| |done].
  intros [Hf Hk] HQ t s1 b s2 H1 E. destruct (HR s1 s2 (Hf _ _ _ _ E)) as [Hr Hg].
  exists o. split; [done|]. apply IH; [done|]. intros a s' Hs'. apply HQ.
  eapply rely_trans; [exact H1|]. by eapply rely_trans.
Qed.

(** ** Pools of programs *)

Lemma wp_pool {A} (Q : O -> A -> S -> Prop) (c c' : list (cmd S A) * S) :
  psteps c c' -> forall os, owned os (snd c) -> Forall2 (fun o p => wp o p Q (snd c)) os (fst c) ->
  exists os', owned os' (snd c') /\ Forall2 (fun o p => wp o p Q (snd c')) os' (fst c').
Proof using Type.
  induction 1 as [c|c t c1 c2 Hs _ IH]; intros os Ho Hw; [by eauto|].
  destruct Hs as [pre post X f k s t b s' Hf]. cbn in *.
  apply Forall2_app_inv_r in Hw as (os1 & os2 & Hpre & Hw & ->).
  apply Forall2_cons_inv_r in Hw as (o & os3 & Hop & Hpost & ->).
  destruct (Hop t s b s' (rely_refl o s) Hf) as (o' & Hg & Hk).
  assert (forall x, x ∈ os1 ++ os3 -> rely x s s') as Hr by (intros x; by eapply guar_rely).
  assert (forall os ps, Forall2 (fun o p => wp o p Q s) os ps -> (forall x, x ∈ os -> rely x s s') ->
    Forall2 (fun o p => wp o p Q s') os ps) as Hkeep.
  { induction 1 as [|x p xs ps Hp _ IHx]; intros Hx; constructor.
    - eapply wp_rely; [exact Hp|]. apply Hx, list_elem_of_here.
    - apply IHx. intros y Hy. by apply Hx, list_elem_of_further. }
  apply (IH (os1 ++ o' :: os3)); [by eapply guar_owned|].
  apply Forall2_app; [|constructor; [done|]]; (apply Hkeep; [done|]);
    intros x Hx; apply Hr, elem_of_app; auto.
Qed.

(** A program of the pool that has ended. *)
Lemma wp_ended {A} (Q : O -> A -> S -> Prop) (progs pool : list (cmd S A)) os s s' j a :
  psteps (progs, s) (pool, s') -> pool !! j = Some (Done a) ->
  owned os s -> Forall2 (fun o p => wp o p Q s) os progs -> exists o, Q o a s'.
Proof using Type.
  intros Hs Hj Ho Hw. destruct (wp_pool Q _ _ Hs os Ho Hw) as (os' & _ & Hw').
  destruct (Forall2_lookup_r _ _ _ _ _ Hw' Hj) as (o & _ & Ha). exists o. apply Ha, rely_refl.
Qed.

End Wp.

(** What each of a list of programs starts with. *)
Lemma Forall2_maps {A B C} (f : A -> B) (g : A -> C) (R : B -> C -> Prop) l :
  Forall (fun x => R (f x) (g x)) l -> Forall2 R (List.map f l) (List.map g l).
Proof. induction 1; cbn; by constructor. Qed.
