(* ===== verification/Expiry.v ===== *)
(** * The background expiry goroutine (internal/storage/memory.go, StartCleanup)

    Once per second the goroutine deletes what has expired.  However often it has run, no
    client can tell, and it leaves nothing behind that has expired.  The second part shows
    what the goroutine hides: a write to a key that has expired and is not yet swept goes
    to the dead value. *)

From S2P Require Import Prelude GoLib Glob Store Keyspace Lists Sets Hashes ZSets Cmd.
Open Scope cmd_scope.

(** The loop of [StartCleanup]; [ticks] is the number of ticks before the context is
    cancelled. *)
Fixpoint StartCleanup (ticks : nat) : cmd MemoryStore unit :=
  match ticks with
  | O => Done tt
  | S ticks' =>
      let* _ := update deleteExpired in
      StartCleanup ticks'
  end.

(** C32: the cleanup goroutine. After any number of ticks on a well-formed store, the
    store is well-formed, every key shows, from the last tick on, the value and
    deadline it would show without the goroutine, and a key that had expired at the
    last tick occupies no memory. Versions are not part of what is shown: the sweep
    deletes those of the keys it removes. *)
Theorem cleanup_correct ticks clock i s :
  store_wf s -> (forall j, clock j <= clock (S j)) ->
  exists s', run (StartCleanup ticks) clock i s = Ret (tt, (i + ticks)%nat, s') /\ store_wf s' /\
    (forall t k, (ticks <> 0%nat -> clock (i + ticks - 1)%nat <= t) -> view t s' k = view t s k) /\
    (forall k, ticks <> 0%nat -> view (clock (i + ticks - 1)%nat) s k = None ->
       cell_of s' k = emptyCell).
Proof.
  intros Hs Hc. revert i s Hs. induction ticks as [|n IH]; intros i s Hs; cbn [StartCleanup].
  - exists s. rewrite Nat.add_0_r. by split_and!.
  - rewrite run_bind, run_update.
    assert (forall a b, clock a <= clock (a + b)%nat) as Hm.
    { intros a b. induction b as [|b IHb]; [by rewrite Nat.add_0_r|].
      rewrite Nat.add_succ_r. specialize (Hc (a + b)%nat). lia. }
    destruct (IH (S i) (deleteExpired (clock i) s)) as (s' & Hr & Hw & Hv & He);
      [by apply wf_deleteExpired|].
    exists s'. split; [by rewrite Nat.add_succ_r|]. split; [done|].
    replace (i + S n - 1)%nat with (i + n)%nat by lia. destruct n as [|n].
    + injection Hr as Hr. rewrite Nat.add_0_r in *. subst s'. split.
      * intros t k Ht. apply sweep_invisible; [done|auto].
      * intros k _ Hk. by apply sweep_reclaims.
    + replace (S i + S n - 1)%nat with (i + S n)%nat in Hv, He by lia.
      specialize (Hm i (S n)). split.
      * intros t k Ht. rewrite Hv by auto. apply sweep_invisible; [done|]. specialize (Ht ltac:(lia)). lia.
      * intros k _ Hk. apply He; [done|]. by rewrite sweep_invisible.
Qed.

Lemma cleanup_correct_witness :
  exists s', run (StartCleanup 2) (fun i => 1200 + Z.of_nat i) 0 sampleStore = Ret (tt, 2%nat, s') /\
    view 1300 s' "l" = view 1300 sampleStore "l" /\ cell_of s' "l" = emptyCell.
Proof.
  destruct (cleanup_correct 2 (fun i => 1200 + Z.of_nat i) 0 sampleStore sampleStore_wf)
    as (s' & Hr & _ & Hv & He); [intros j; lia|].
  exists s'. split; [exact Hr|]. split; [apply Hv; intros _; vm_compute; congruence|by apply He].
Defined.

(** ** Writes to dead values *)

(** A list that expired at 5 and has not been swept. *)
Definition deadList : MemoryStore := mkStore ∅ ∅ {["l" := ["old"]]} ∅ ∅ {["l" := 5]} ∅.

(** RPUSH is acknowledged with the length of the dead list and the new element; the key is
    still absent for every client, and the next sweep deletes the element. *)
Lemma RPush_expired_lost :
  exists s', RPush 10 "l" ["new"] deadList = (Ok 2, s') /\
    view 10 s' "l" = None /\ cell_of (deleteExpired 11 s') "l" = emptyCell.
Proof. eexists. split; [reflexivity|]. by split. Qed.

(** The same for a set, a sorted set and a hash. *)
Definition deadAggregates : MemoryStore :=
  mkStore ∅ {["h" := {["f" := "old"]}]} ∅ {["s" := {["old"]}]} {["z" := mkZset ∅]}
    {["s" := 5; "z" := 5; "h" := 5]} ∅.

Lemma writes_expired_lost :
  view 10 (snd (SAdd 10 "s" ["new"] deadAggregates)) "s" = None /\
  view 10 (snd (ZAdd 10 "z" [mkZMember "new" Floats.F64.zero] false false false false false
                  deadAggregates)) "z" = None /\
  view 10 (snd (HSet "h" {["f" := "new"]} deadAggregates)) "h" = None.
Proof. by split_and!. Qed.
