(* ===== verification/StringCmds.v ===== *)
(** * Handlers for strings, counters and expiry
    (internal/commands: string.go, counter.go, expire.go, util.go, ping.go, meta.go)

    [args] is the whole command line; [arg args i] is [args[i]], used only where
    the handler has checked the length.  Each store method a handler calls is one
    atomic step. *)

From S2P Require Import Prelude GoLib Floats Protocol Glob Store Cmd.
Open Scope cmd_scope.

Abbreviation handler := (cmd MemoryStore Response) (only parsing).

Definition arg (args : list string) (i : nat) : string := nth i args "".

(** [args[i:]] *)
Definition argsFrom (i : nat) (args : list string) : list string := drop i args.

(** The reply of a handler after a method returned: an error reply for the error
    the handler tests for, else [ok] of the value. *)
Definition onOk {A} (r : result A) (ok : A -> Response) : Response :=
  match r with
  | Ok a => ok a
  | Fail e => Error (errText e)
  end.

Definition bulks (l : list string) : Response := Array (BulkString <$> l).

(** ** ping.go, meta.go *)

Definition handlePing (args : list string) : handler :=
  if decide (length args = 1%nat) then Done (SimpleString "PONG")
  else if decide (length args = 2%nat) then Done (BulkString (arg args 1))
  else Done (Error "ERR wrong number of arguments for 'PING'").

Definition handleCommand (args : list string) : handler := Done (Array []).

(** ** util.go *)

Definition parseInt64 (s : string) : option Z := ParseInt s.
Definition formatInt64 (n : Z) : string := FormatInt n.

(** ** string.go *)

(** [secs, err := strconv.ParseInt(...); if err != nil || secs <= 0] *)
Definition parsePositive (s : string) : option Z :=
  match ParseInt s with
  | Some n => if n <=? 0 then None else Some n
  | None => None
  end.

(** [if ttl <= 0 { ttl = 1 }] after an absolute deadline. *)
Definition atLeast1 (ttl : Duration) : Duration := if ttl <=? 0 then 1 else ttl.

(** The option loop of SET from [args[i]] on: an error reply, or the options and
    the TTL. *)
Fixpoint setOptions (rest : list string) (opts : SetAdvOpts) (ttl : Duration)
    : cmd MemoryStore (Response + SetAdvOpts * Duration) :=
  let invalid := Done (inl (Error "ERR invalid expire time in 'SET' command")) in
  let syntax := Done (inl (Error "ERR syntax error")) in
  match rest with
  | [] => Done (inr (opts, ttl))
  | o :: rest1 =>
      let u := ToUpper o in
      if String.eqb u "NX" then
        setOptions rest1 (mkSetAdvOpts (KeepTTL opts) true (XX opts) (GetOpt opts)) ttl
      else if String.eqb u "XX" then
        setOptions rest1 (mkSetAdvOpts (KeepTTL opts) (NX opts) true (GetOpt opts)) ttl
      else if String.eqb u "GET" then
        setOptions rest1 (mkSetAdvOpts (KeepTTL opts) (NX opts) (XX opts) true) ttl
      else if String.eqb u "KEEPTTL" then
        setOptions rest1 (mkSetAdvOpts true (NX opts) (XX opts) (GetOpt opts)) ttl
      else if String.eqb u "EX" then
        match rest1 with
        | [] => syntax
        | v :: rest2 =>
            match parsePositive v with
            | None => invalid
            | Some secs => setOptions rest2 opts (durationOf secs Second)
            end
        end
      else if String.eqb u "PX" then
        match rest1 with
        | [] => syntax
        | v :: rest2 =>
            match parsePositive v with
            | None => invalid
            | Some ms => setOptions rest2 opts (durationOf ms Millisecond)
            end
        end
      else if String.eqb u "EXAT" then
        match rest1 with
        | [] => syntax
        | v :: rest2 =>
            match parsePositive v with
            | None => invalid
            | Some unixSec =>
                let* now := clockNow in
                setOptions rest2 opts (atLeast1 (Until now (Unix unixSec)))
            end
        end
      else if String.eqb u "PXAT" then
        match rest1 with
        | [] => syntax
        | v :: rest2 =>
            match parsePositive v with
            | None => invalid
            | Some unixMs =>
                let* now := clockNow in
                setOptions rest2 opts (atLeast1 (Until now (TimeUnixMilli unixMs)))
            end
        end
      else syntax
  end.

Definition noOpts : SetAdvOpts := mkSetAdvOpts false false false false.

Definition handleSet (args : list string) : handler :=
  if decide (length args < 3)%nat then
    Done (Error "ERR wrong number of arguments for 'SET' command")
  else
    let key := arg args 1 in
    let value := arg args 2 in
    let* parsed := setOptions (argsFrom 3 args) noOpts 0 in
    match parsed with
    | inl err => Done err
    | inr (opts, ttl) =>
        if NX opts && XX opts then Done (Error "ERR syntax error")
        else
          let* r := call (fun now => SetAdv now key value ttl opts) in
          let '(oldVal, oldExists, wasSet) := r in
          if GetOpt opts then
            if negb oldExists then Done NullBulkString else Done (BulkString oldVal)
          else if negb wasSet then Done NullBulkString
          else Done (SimpleString "OK")
    end.

(** The reply for a value that may be missing. *)
Definition orNull (o : option string) : Response :=
  match o with Some v => BulkString v | None => NullBulkString end.

Definition handleGet (args : list string) : handler :=
  if decide (length args <> 2%nat) then
    Done (Error "ERR wrong number of arguments for 'GET'")
  else
    let* v := query (fun now => Get now (arg args 1)) in
    Done (orNull v).

Definition handleDel (args : list string) : handler :=
  if decide (length args < 2)%nat then
    Done (Error "ERR wrong number of arguments for 'DEL'")
  else
    let* n := call (fun now => Del now (argsFrom 1 args)) in
    Done (Integer n).

Definition handleExists (args : list string) : handler :=
  if decide (length args < 2)%nat then
    Done (Error "ERR wrong number of arguments for 'EXISTS'")
  else
    let* n := query (fun now => Exists_ now (argsFrom 1 args)) in
    Done (Integer n).

Definition handleKeys (args : list string) : handler :=
  if decide (length args <> 2%nat) then
    Done (Error "ERR wrong number of arguments for 'KEYS'")
  else
    match Match (arg args 1) "" with
    | Err _ => Done (Error "ERR invalid pattern")
    | _ =>
        let* keys := query (fun now => Keys now (arg args 1)) in
        Done (bulks keys)
    end.

Definition handleSetNX (args : list string) : handler :=
  if decide (length args <> 3%nat) then
    Done (Error "ERR wrong number of arguments for 'SETNX' command")
  else
    let* v := query (fun now => Get now (arg args 1)) in
    match v with
    | Some _ => Done (Integer 0)
    | None =>
        let* _ := update (fun _ => Set_ (arg args 1) (arg args 2)) in
        Done (Integer 1)
    end.

Definition handleSetEX (args : list string) : handler :=
  if decide (length args <> 4%nat) then
    Done (Error "ERR wrong number of arguments for 'SETEX' command")
  else
    match parsePositive (arg args 2) with
    | None => Done (Error "ERR invalid expire time in 'SETEX' command")
    | Some secs =>
        let* _ := update (fun now =>
          SetWithTTL now (arg args 1) (arg args 3) (durationOf secs Second)) in
        Done (SimpleString "OK")
    end.

Definition handlePSetEX (args : list string) : handler :=
  if decide (length args <> 4%nat) then
    Done (Error "ERR wrong number of arguments for 'PSETEX' command")
  else
    match parsePositive (arg args 2) with
    | None => Done (Error "ERR invalid expire time in 'PSETEX' command")
    | Some ms =>
        let* _ := update (fun now =>
          SetWithTTL now (arg args 1) (arg args 3) (durationOf ms Millisecond)) in
        Done (SimpleString "OK")
    end.

(** The pairs [args[i], args[i+1]] for [i], [i+2], ... *)
Fixpoint pairs (l : list string) : list (string * string) :=
  match l with
  | a :: b :: l' => (a, b) :: pairs l'
  | _ => []
  end.

(** One [store.Set] per pair, in order. *)
Fixpoint msetLoop (kvs : list (string * string)) : cmd MemoryStore unit :=
  match kvs with
  | [] => Done tt
  | (k, v) :: kvs' =>
      let* _ := update (fun _ => Set_ k v) in
      msetLoop kvs'
  end.

Definition handleMSet (args : list string) : handler :=
  if decide ((length args < 3)%nat \/ Nat.even (length args) = true) then
    Done (Error "ERR wrong number of arguments for 'MSET' command")
  else
    let* _ := msetLoop (pairs (argsFrom 1 args)) in
    Done (SimpleString "OK").

Fixpoint mgetLoop (keys : list string) : cmd MemoryStore (list Response) :=
  match keys with
  | [] => Done []
  | k :: keys' =>
      let* v := query (fun now => Get now k) in
      let* rest := mgetLoop keys' in
      Done (orNull v :: rest)
  end.

Definition handleMGet (args : list string) : handler :=
  if decide (length args < 2)%nat then
    Done (Error "ERR wrong number of arguments for 'MGET' command")
  else
    let* elems := mgetLoop (argsFrom 1 args) in
    Done (Array elems).

Definition handleGetSet (args : list string) : handler :=
  if decide (length args <> 3%nat) then
    Done (Error "ERR wrong number of arguments for 'GETSET' command")
  else
    let* old := query (fun now => Get now (arg args 1)) in
    let* _ := update (fun _ => Set_ (arg args 1) (arg args 2)) in
    Done (orNull old).

Definition handleGetDel (args : list string) : handler :=
  if decide (length args <> 2%nat) then
    Done (Error "ERR wrong number of arguments for 'GETDEL' command")
  else
    let* v := query (fun now => Get now (arg args 1)) in
    match v with
    | None => Done NullBulkString
    | Some val =>
        let* _ := call (fun now => Del now [arg args 1]) in
        Done (BulkString val)
    end.

(** The option loop of GETEX: an error reply, or (ttl, persist, hasTTL). *)
Fixpoint getexOptions (rest : list string) (ttl : Duration) (persist hasTTL : bool)
    : cmd MemoryStore (Response + Duration * bool * bool) :=
  let invalid := Done (inl (Error "ERR invalid expire time in 'GETEX' command")) in
  let syntax := Done (inl (Error "ERR syntax error")) in
  match rest with
  | [] => Done (inr (ttl, persist, hasTTL))
  | o :: rest1 =>
      let u := ToUpper o in
      if String.eqb u "PERSIST" then getexOptions rest1 ttl true hasTTL
      else if String.eqb u "EX" then
        match rest1 with
        | [] => syntax
        | v :: rest2 =>
            match parsePositive v with
            | None => invalid
            | Some secs => getexOptions rest2 (durationOf secs Second) persist true
            end
        end
      else if String.eqb u "PX" then
        match rest1 with
        | [] => syntax
        | v :: rest2 =>
            match parsePositive v with
            | None => invalid
            | Some ms => getexOptions rest2 (durationOf ms Millisecond) persist true
            end
        end
      else if String.eqb u "EXAT" then
        match rest1 with
        | [] => syntax
        | v :: rest2 =>
            match parsePositive v with
            | None => invalid
            | Some unixSec =>
                let* now := clockNow in
                getexOptions rest2 (Until now (Unix unixSec)) persist true
            end
        end
      else if String.eqb u "PXAT" then
        match rest1 with
        | [] => syntax
        | v :: rest2 =>
            match parsePositive v with
            | None => invalid
            | Some unixMs =>
                let* now := clockNow in
                getexOptions rest2 (Until now (TimeUnixMilli unixMs)) persist true
            end
        end
      else syntax
  end.

Definition handleGetEX (args : list string) : handler :=
  if decide (length args < 2)%nat then
    Done (Error "ERR wrong number of arguments for 'GETEX' command")
  else
    let* parsed := getexOptions (argsFrom 2 args) 0 false false in
    match parsed with
    | inl err => Done err
    | inr (ttl, persist, hasTTL) =>
        let* v := call (fun now => GetEx now (arg args 1) ttl persist hasTTL) in
        Done (orNull v)
    end.

Definition handleAppend (args : list string) : handler :=
  if decide (length args <> 3%nat) then
    Done (Error "ERR wrong number of arguments for 'APPEND' command")
  else
    let* existing := query (fun now => Get now (arg args 1)) in
    let newVal := default "" existing +:+ arg args 2 in
    let* _ := update (fun _ => Set_ (arg args 1) newVal) in
    Done (Integer (len newVal)).

Definition handleStrLen (args : list string) : handler :=
  if decide (length args <> 2%nat) then
    Done (Error "ERR wrong number of arguments for 'STRLEN' command")
  else
    let* v := query (fun now => Get now (arg args 1)) in
    Done (match v with None => Integer 0 | Some val => Integer (len val) end).

(** ** counter.go *)

Definition incrBy (key : string) (delta : Z) : handler :=
  let* raw := query (fun now => Get now key) in
  match (match raw with None => Some 0 | Some v => ParseInt v end) with
  | None => Done (Error "ERR value is not an integer or out of range")
  | Some current =>
      let next := wrap64 (current + delta) in
      if (0 <? delta) && (next <? current) then Done (Error "ERR increment would overflow")
      else if (delta <? 0) && (current <? next) then Done (Error "ERR decrement would overflow")
      else
        let* _ := update (fun _ => Set_ key (FormatInt next)) in
        Done (Integer next)
  end.

Definition handleIncr (args : list string) : handler :=
  if decide (length args <> 2%nat) then
    Done (Error "ERR wrong number of arguments for 'INCR' command")
  else incrBy (arg args 1) 1.

Definition handleIncrBy (args : list string) : handler :=
  if decide (length args <> 3%nat) then
    Done (Error "ERR wrong number of arguments for 'INCRBY' command")
  else
    match ParseInt (arg args 2) with
    | None => Done (Error "ERR value is not an integer or out of range")
    | Some delta => incrBy (arg args 1) delta
    end.

Definition handleIncrByFloat (args : list string) : handler :=
  if decide (length args <> 3%nat) then
    Done (Error "ERR wrong number of arguments for 'INCRBYFLOAT' command")
  else
    match ParseFloat (arg args 2) with
    | None => Done (Error "ERR value is not a valid float")
    | Some delta =>
        let* raw := query (fun now => Get now (arg args 1)) in
        match (match raw with None => Some F64.zero | Some v => ParseFloat v end) with
        | None => Done (Error "ERR value is not a valid float")
        | Some current =>
            let resultStr := FormatFloat_f (F64.add current delta) in
            let* _ := update (fun _ => Set_ (arg args 1) resultStr) in
            Done (BulkString resultStr)
        end
    end.

Definition handleDecr (args : list string) : handler :=
  if decide (length args <> 2%nat) then
    Done (Error "ERR wrong number of arguments for 'DECR' command")
  else incrBy (arg args 1) (-1).

Definition handleDecrBy (args : list string) : handler :=
  if decide (length args <> 3%nat) then
    Done (Error "ERR wrong number of arguments for 'DECRBY' command")
  else
    match ParseInt (arg args 2) with
    | None => Done (Error "ERR value is not an integer or out of range")
    | Some delta => incrBy (arg args 1) (wrap64 (- delta))
    end.

(** ** expire.go *)

Definition boolReply (b : bool) : Response := if b then Integer 1 else Integer 0.

(** [n, err := strconv.ParseInt(...); if err != nil || n < 0] *)
Definition parseNonNegative (s : string) : option Z :=
  match ParseInt s with
  | Some n => if n <? 0 then None else Some n
  | None => None
  end.

Definition handleExpire (args : list string) : handler :=
  if decide (length args <> 3%nat) then
    Done (Error "ERR wrong number of arguments for 'EXPIRE' command")
  else
    match parseNonNegative (arg args 2) with
    | None => Done (Error "ERR value is not an integer or out of range")
    | Some secs =>
        let* ok := call (fun now => Expire now (arg args 1) (durationOf secs Second)) in
        Done (boolReply ok)
    end.

Definition handlePExpire (args : list string) : handler :=
  if decide (length args <> 3%nat) then
    Done (Error "ERR wrong number of arguments for 'PEXPIRE' command")
  else
    match parseNonNegative (arg args 2) with
    | None => Done (Error "ERR value is not an integer or out of range")
    | Some ms =>
        let* ok := call (fun now => Expire now (arg args 1) (durationOf ms Millisecond)) in
        Done (boolReply ok)
    end.

Definition handleTTL (args : list string) : handler :=
  if decide (length args <> 2%nat) then
    Done (Error "ERR wrong number of arguments for 'TTL' command")
  else
    let* d := query (fun now => TTL now (arg args 1)) in
    if d =? -1 * Second then Done (Integer (-1))
    else if d =? -2 * Second then Done (Integer (-2))
    else
      let secs := F64.trunc (DurationSeconds d) in
      Done (Integer (if secs <? 1 then 1 else secs)).

Definition handlePTTL (args : list string) : handler :=
  if decide (length args <> 2%nat) then
    Done (Error "ERR wrong number of arguments for 'PTTL' command")
  else
    let* d := query (fun now => TTL now (arg args 1)) in
    if d =? -1 * Second then Done (Integer (-1))
    else if d =? -2 * Second then Done (Integer (-2))
    else
      let ms := Z.quot d Millisecond in
      Done (Integer (if ms <? 1 then 1 else ms)).

(** The common end of EXPIREAT and PEXPIREAT. *)
Definition expireAt (key : string) (deadline : Time) : handler :=
  let* now := clockNow in
  let remaining := Until now deadline in
  if remaining <=? 0 then
    let* _ := call (fun now => Del now [key]) in
    Done (Integer 1)
  else
    let* ok := call (fun now => Expire now key remaining) in
    Done (boolReply ok).

Definition handleExpireAt (args : list string) : handler :=
  if decide (length args <> 3%nat) then
    Done (Error "ERR wrong number of arguments for 'EXPIREAT' command")
  else
    match ParseInt (arg args 2) with
    | None => Done (Error "ERR value is not an integer or out of range")
    | Some unixSec => expireAt (arg args 1) (Unix unixSec)
    end.

Definition handlePExpireAt (args : list string) : handler :=
  if decide (length args <> 3%nat) then
    Done (Error "ERR wrong number of arguments for 'PEXPIREAT' command")
  else
    match ParseInt (arg args 2) with
    | None => Done (Error "ERR value is not an integer or out of range")
    | Some unixMs => expireAt (arg args 1) (TimeUnixMilli unixMs)
    end.

Definition handlePersist (args : list string) : handler :=
  if decide (length args <> 2%nat) then
    Done (Error "ERR wrong number of arguments for 'PERSIST' command")
  else
    let* ok := call (fun now => Persist now (arg args 1)) in
    Done (boolReply ok).
