(* ===== verification/DataCmds.v ===== *)
(** * Handlers for hashes, lists and sets (internal/commands: hash.go, list.go, set.go) *)

From S2P Require Import Prelude GoLib Floats Protocol Glob Store Lists Sets Hashes ZSets Scan Cmd.
From S2P Require Import StringCmds.
From Stdlib Require Import SpecFloat.
Open Scope cmd_scope.

(** ** hash.go *)

(** The [fields] map built from the arguments: a later pair overwrites an earlier
    one with the same field. *)
Definition fieldMap (kvs : list (string * string)) : gmap string string :=
  foldl (fun m kv => <[kv.1 := kv.2]> m) ∅ kvs.

Definition handleHSet (args : list string) : handler :=
  if decide ((length args < 4)%nat \/ Nat.odd (length args - 2) = true) then
    Done (Error "ERR wrong number of arguments for 'HSET' command")
  else
    let fields := fieldMap (pairs (argsFrom 2 args)) in
    let* n := call (fun _ => HSet (arg args 1) fields) in
    Done (Integer n).

Definition handleHGet (args : list string) : handler :=
  if decide (length args <> 3%nat) then
    Done (Error "ERR wrong number of arguments for 'HGET' command")
  else
    let* v := query (fun now => HGet now (arg args 1) (arg args 2)) in
    Done (orNull v).

Definition handleHDel (args : list string) : handler :=
  if decide (length args < 3)%nat then
    Done (Error "ERR wrong number of arguments for 'HDEL' command")
  else
    let* n := call (fun now => HDel now (arg args 1) (argsFrom 2 args)) in
    Done (Integer n).

Definition handleHGetAll (args : list string) : handler :=
  if decide (length args <> 2%nat) then
    Done (Error "ERR wrong number of arguments for 'HGETALL' command")
  else
    let* all := query (fun now => HGetAll now (arg args 1)) in
    Done (bulks (concat ((fun kv => [kv.1; kv.2]) <$> map_to_list (default ∅ all)))).

Fixpoint hmgetLoop (key : string) (fields : list string) : cmd MemoryStore (list Response) :=
  match fields with
  | [] => Done []
  | f :: fields' =>
      let* v := query (fun now => HGet now key f) in
      let* rest := hmgetLoop key fields' in
      Done (orNull v :: rest)
  end.

Definition handleHMGet (args : list string) : handler :=
  if decide (length args < 3)%nat then
    Done (Error "ERR wrong number of arguments for 'HMGET' command")
  else
    let* elems := hmgetLoop (arg args 1) (argsFrom 2 args) in
    Done (Array elems).

Definition handleHLen (args : list string) : handler :=
  if decide (length args <> 2%nat) then
    Done (Error "ERR wrong number of arguments for 'HLEN' command")
  else
    let* n := query (fun now => HLen now (arg args 1)) in
    Done (Integer n).

Definition handleHExists (args : list string) : handler :=
  if decide (length args <> 3%nat) then
    Done (Error "ERR wrong number of arguments for 'HEXISTS' command")
  else
    let* b := query (fun now => HExists now (arg args 1) (arg args 2)) in
    Done (boolReply b).

Definition handleHKeys (args : list string) : handler :=
  if decide (length args <> 2%nat) then
    Done (Error "ERR wrong number of arguments for 'HKEYS' command")
  else
    let* keys := query (fun now => HKeys now (arg args 1)) in
    Done (bulks keys).

Definition handleHVals (args : list string) : handler :=
  if decide (length args <> 2%nat) then
    Done (Error "ERR wrong number of arguments for 'HVALS' command")
  else
    let* vals := query (fun now => HVals now (arg args 1)) in
    Done (bulks vals).

Definition handleHIncrByFloat (args : list string) : handler :=
  if decide (length args <> 4%nat) then
    Done (Error "ERR wrong number of arguments for 'HINCRBYFLOAT' command")
  else
    let key := arg args 1 in
    let field := arg args 2 in
    match ParseFloat (arg args 3) with
    | None => Done (Error "ERR value is not a valid float")
    | Some delta =>
        let* raw := query (fun now => HGet now key field) in
        match (match raw with None => Some F64.zero | Some v => ParseFloat v end) with
        | None => Done (Error "ERR hash value is not a valid float")
        | Some current =>
            let resultStr := FormatFloat_f (F64.add current delta) in
            let* _ := call (fun _ => HSet key {[ field := resultStr ]}) in
            Done (BulkString resultStr)
        end
    end.

Definition handleHIncrBy (args : list string) : handler :=
  if decide (length args <> 4%nat) then
    Done (Error "ERR wrong number of arguments for 'HINCRBY' command")
  else
    let key := arg args 1 in
    let field := arg args 2 in
    let* raw := query (fun now => HGet now key field) in
    match (match raw with None => Some 0 | Some v => parseInt64 v end) with
    | None => Done (Error "ERR hash value is not an integer")
    | Some current =>
        match parseInt64 (arg args 3) with
        | None => Done (Error "ERR value is not an integer or out of range")
        | Some delta =>
            let next := wrap64 (current + delta) in
            let* _ := call (fun _ => HSet key {[ field := formatInt64 next ]}) in
            Done (Integer next)
        end
    end.

(** ** list.go *)

Definition handleLPush (args : list string) : handler :=
  if decide (length args < 3)%nat then
    Done (Error "ERR wrong number of arguments for 'LPUSH' command")
  else
    let* r := call (fun now => LPush now (arg args 1) (argsFrom 2 args)) in
    Done (onOk r Integer).

Definition handleRPush (args : list string) : handler :=
  if decide (length args < 3)%nat then
    Done (Error "ERR wrong number of arguments for 'RPUSH' command")
  else
    let* r := call (fun now => RPush now (arg args 1) (argsFrom 2 args)) in
    Done (onOk r Integer).

Definition handleLPushX (args : list string) : handler :=
  if decide (length args < 3)%nat then
    Done (Error "ERR wrong number of arguments for 'LPUSHX' command")
  else
    let* t := query (fun now => Type_ now (arg args 1)) in
    if negb (String.eqb t "list") then Done (Integer 0)
    else
      let* r := call (fun now => LPush now (arg args 1) (argsFrom 2 args)) in
      Done (onOk r Integer).

Definition handleRPushX (args : list string) : handler :=
  if decide (length args < 3)%nat then
    Done (Error "ERR wrong number of arguments for 'RPUSHX' command")
  else
    let* t := query (fun now => Type_ now (arg args 1)) in
    if negb (String.eqb t "list") then Done (Integer 0)
    else
      let* r := call (fun now => RPush now (arg args 1) (argsFrom 2 args)) in
      Done (onOk r Integer).

(** The reply of LPOP and RPOP: nil, a single element, or an array. *)
Definition popReply (withCount : bool) (vals : option (list string)) : Response :=
  match vals with
  | None => NullBulkString
  | Some l =>
      if negb withCount then
        match l with [] => NullBulkString | v :: _ => BulkString v end
      else bulks l
  end.

(** LPOP and RPOP differ in the store method only. *)
Definition handlePop (name : string)
    (pop : Time -> string -> Z -> MemoryStore ->
           may_panic (result (option (list string)) * MemoryStore))
    (args : list string) : handler :=
  if decide ((length args < 2)%nat \/ (3 < length args)%nat) then
    Done (Error ("ERR wrong number of arguments for '" +:+ name +:+ "' command"))
  else
    let withCount := bool_decide (length args = 3%nat) in
    match (if withCount then parseNonNegative (arg args 2) else Some 1) with
    | None => Done (Error "ERR value is not an integer or out of range")
    | Some count =>
        let* r := callP (fun now => pop now (arg args 1) count) in
        Done (onOk r (popReply withCount))
    end.

Definition handleLPop : list string -> handler := handlePop "LPOP" LPop.
Definition handleRPop : list string -> handler := handlePop "RPOP" RPop.

Definition handleLLen (args : list string) : handler :=
  if decide (length args <> 2%nat) then
    Done (Error "ERR wrong number of arguments for 'LLEN' command")
  else
    let* r := query (fun now => LLen now (arg args 1)) in
    Done (onOk r Integer).

Definition handleLRange (args : list string) : handler :=
  if decide (length args <> 4%nat) then
    Done (Error "ERR wrong number of arguments for 'LRANGE' command")
  else
    match ParseInt (arg args 2), ParseInt (arg args 3) with
    | Some start, Some stop =>
        let* r := queryP (fun now => LRange now (arg args 1) start stop) in
        Done (onOk r bulks)
    | _, _ => Done (Error "ERR value is not an integer or out of range")
    end.

Definition handleLIndex (args : list string) : handler :=
  if decide (length args <> 3%nat) then
    Done (Error "ERR wrong number of arguments for 'LINDEX' command")
  else
    match ParseInt (arg args 2) with
    | None => Done (Error "ERR value is not an integer or out of range")
    | Some idx =>
        let* r := queryP (fun now => LIndex now (arg args 1) idx) in
        Done (onOk r orNull)
    end.

Definition handleLSet (args : list string) : handler :=
  if decide (length args <> 4%nat) then
    Done (Error "ERR wrong number of arguments for 'LSET' command")
  else
    match ParseInt (arg args 2) with
    | None => Done (Error "ERR value is not an integer or out of range")
    | Some idx =>
        let* r := call (fun now => LSet now (arg args 1) idx (arg args 3)) in
        Done (onOk r (fun _ => SimpleString "OK"))
    end.

(** [switch strings.ToUpper(s)] on two words: [Some true] for the first. *)
Definition eitherWord (s yes no : string) : option bool :=
  let u := ToUpper s in
  if String.eqb u yes then Some true else if String.eqb u no then Some false else None.

Definition handleLInsert (args : list string) : handler :=
  if decide (length args <> 5%nat) then
    Done (Error "ERR wrong number of arguments for 'LINSERT' command")
  else
    match eitherWord (arg args 2) "BEFORE" "AFTER" with
    | None => Done (Error "ERR syntax error")
    | Some before =>
        let* r := callP (fun now => LInsert now (arg args 1) before (arg args 3) (arg args 4)) in
        Done (onOk r Integer)
    end.

Definition handleLRem (args : list string) : handler :=
  if decide (length args <> 4%nat) then
    Done (Error "ERR wrong number of arguments for 'LREM' command")
  else
    match ParseInt (arg args 2) with
    | None => Done (Error "ERR value is not an integer or out of range")
    | Some count =>
        let* r := call (fun now => LRem now (arg args 1) count (arg args 3)) in
        Done (onOk r Integer)
    end.

Definition handleLTrim (args : list string) : handler :=
  if decide (length args <> 4%nat) then
    Done (Error "ERR wrong number of arguments for 'LTRIM' command")
  else
    match ParseInt (arg args 2), ParseInt (arg args 3) with
    | Some start, Some stop =>
        let* r := callP (fun now => LTrim now (arg args 1) start stop) in
        Done (onOk r (fun _ => SimpleString "OK"))
    | _, _ => Done (Error "ERR value is not an integer or out of range")
    end.

Definition handleLMove (args : list string) : handler :=
  if decide (length args <> 5%nat) then
    Done (Error "ERR wrong number of arguments for 'LMOVE' command")
  else
    match eitherWord (arg args 3) "LEFT" "RIGHT" with
    | None => Done (Error "ERR syntax error")
    | Some srcLeft =>
        match eitherWord (arg args 4) "LEFT" "RIGHT" with
        | None => Done (Error "ERR syntax error")
        | Some dstLeft =>
            let* r := callP (fun now => LMove now (arg args 1) (arg args 2) srcLeft dstLeft) in
            Done (onOk r orNull)
        end
    end.

Definition handleRPopLPush (args : list string) : handler :=
  if decide (length args <> 3%nat) then
    Done (Error "ERR wrong number of arguments for 'RPOPLPUSH' command")
  else
    let* r := callP (fun now => LMove now (arg args 1) (arg args 2) false true) in
    Done (onOk r orNull).

Record lposOpts : Type := mkLposOpts {
  lpRank : Z;
  lpCount : Z;
  lpHasCount : bool;
  lpMaxlen : Z
}.

Definition rankError : string :=
  "ERR RANK can't be zero: use 1 to start from the first match, 2 from the second … or use negative to start from the end of the list".

Fixpoint lposOptions (rest : list string) (o : lposOpts) : Response + lposOpts :=
  match rest with
  | [] => inr o
  | w :: rest1 =>
      let u := ToUpper w in
      if String.eqb u "RANK" then
        match rest1 with
        | [] => inl (Error "ERR syntax error")
        | v :: rest2 =>
            match ParseInt v with
            | Some n =>
                if n =? 0 then inl (Error rankError)
                else lposOptions rest2 (mkLposOpts n (lpCount o) (lpHasCount o) (lpMaxlen o))
            | None => inl (Error rankError)
            end
        end
      else if String.eqb u "COUNT" then
        match rest1 with
        | [] => inl (Error "ERR syntax error")
        | v :: rest2 =>
            match parseNonNegative v with
            | Some n => lposOptions rest2 (mkLposOpts (lpRank o) n true (lpMaxlen o))
            | None => inl (Error "ERR value is not an integer or out of range")
            end
        end
      else if String.eqb u "MAXLEN" then
        match rest1 with
        | [] => inl (Error "ERR syntax error")
        | v :: rest2 =>
            match parseNonNegative v with
            | Some n => lposOptions rest2 (mkLposOpts (lpRank o) (lpCount o) (lpHasCount o) n)
            | None => inl (Error "ERR value is not an integer or out of range")
            end
        end
      else inl (Error "ERR syntax error")
  end.

(** The search loop over the positions with their elements, in visiting order:
    collect the matches from the [rank]-th on, stop after [count] when there is
    one. *)
Fixpoint lposLoop (target : string) (rank count : Z) (hasCount : bool) (matchCount found : Z)
    (todo : list (Z * string)) : list Z :=
  match todo with
  | [] => []
  | (i, v) :: todo' =>
      if bool_decide (v = target) then
        if rank <=? matchCount + 1 then
          if hasCount && (0 <? count) && (count <=? found + 1) then [i]
          else i :: lposLoop target rank count hasCount (matchCount + 1) (found + 1) todo'
        else lposLoop target rank count hasCount (matchCount + 1) found todo'
      else lposLoop target rank count hasCount matchCount found todo'
  end.

Definition indexed (l : list string) : list (Z * string) :=
  imap (fun i v => (Z.of_nat i, v)) l.

Definition handleLPos (args : list string) : handler :=
  if decide (length args < 3)%nat then
    Done (Error "ERR wrong number of arguments for 'LPOS' command")
  else
    match lposOptions (argsFrom 3 args) (mkLposOpts 1 1 false 0) with
    | inl err => Done err
    | inr o =>
        let* r := queryP (fun now => LRange now (arg args 1) 0 (-1)) in
        Done (onOk r (fun vals =>
          let limit := if (0 <? lpMaxlen o) && (lpMaxlen o <? llen vals) then lpMaxlen o
                       else llen vals in
          let visited := indexed (ltake limit vals) in
          let positions :=
            if 0 <=? lpRank o then
              lposLoop (arg args 2) (lpRank o) (lpCount o) (lpHasCount o) 0 0 visited
            else
              lposLoop (arg args 2) (wrap64 (- lpRank o)) (lpCount o) (lpHasCount o) 0 0
                (rev visited) in
          if lpHasCount o then Array (Integer <$> positions)
          else match positions with [] => NullBulkString | p :: _ => Integer p end))
    end.

(** ** set.go *)

(** SADD and SREM, and the three STORE commands, have the same handler around
    different methods. *)
Definition handleMembers (name : string)
    (f : Time -> string -> list string -> MemoryStore -> result Z * MemoryStore)
    (args : list string) : handler :=
  if decide (length args < 3)%nat then
    Done (Error ("ERR wrong number of arguments for '" +:+ name +:+ "' command"))
  else
    let* r := call (fun now => f now (arg args 1) (argsFrom 2 args)) in
    Done (onOk r Integer).

Definition handleSAdd : list string -> handler := handleMembers "SADD" SAdd.
Definition handleSRem : list string -> handler := handleMembers "SREM" SRem.
Definition handleSInterStore : list string -> handler := handleMembers "SINTERSTORE" SInterStore.
Definition handleSUnionStore : list string -> handler := handleMembers "SUNIONSTORE" SUnionStore.
Definition handleSDiffStore : list string -> handler := handleMembers "SDIFFSTORE" SDiffStore.

Definition handleSMembers (args : list string) : handler :=
  if decide (length args <> 2%nat) then
    Done (Error "ERR wrong number of arguments for 'SMEMBERS' command")
  else
    let* r := query (fun now => SMembers now (arg args 1)) in
    Done (onOk r bulks).

Definition handleSCard (args : list string) : handler :=
  if decide (length args <> 2%nat) then
    Done (Error "ERR wrong number of arguments for 'SCARD' command")
  else
    let* r := query (fun now => SCard now (arg args 1)) in
    Done (onOk r Integer).

Definition handleSIsMember (args : list string) : handler :=
  if decide (length args <> 3%nat) then
    Done (Error "ERR wrong number of arguments for 'SISMEMBER' command")
  else
    let* r := query (fun now => SIsMember now (arg args 1) (arg args 2)) in
    Done (onOk r boolReply).

Definition handleSMIsMember (args : list string) : handler :=
  if decide (length args < 3)%nat then
    Done (Error "ERR wrong number of arguments for 'SMISMEMBER' command")
  else
    let* r := query (fun now => SMIsMember now (arg args 1) (argsFrom 2 args)) in
    Done (onOk r (fun flags => Array (Integer <$> flags))).

(** SINTER, SUNION and SDIFF. *)
Definition handleAlgebra (name : string)
    (f : Time -> list string -> MemoryStore -> result (list string)) (args : list string)
    : handler :=
  if decide (length args < 2)%nat then
    Done (Error ("ERR wrong number of arguments for '" +:+ name +:+ "' command"))
  else
    let* r := query (fun now => f now (argsFrom 1 args)) in
    Done (onOk r bulks).

Definition handleSInter : list string -> handler := handleAlgebra "SINTER" SInter.
Definition handleSUnion : list string -> handler := handleAlgebra "SUNION" SUnion.
Definition handleSDiff : list string -> handler := handleAlgebra "SDIFF" SDiff.

(** The reply of SRANDMEMBER and SPOP. *)
Definition randReply (withCount : bool) (members : list string) : Response :=
  if negb withCount then
    match members with [] => NullBulkString | m :: _ => BulkString m end
  else bulks members.

Section Random.

Context (shuffle : list string -> list string) (intN : nat -> Z -> Z).

Definition handleSRandMember (args : list string) : handler :=
  if decide ((length args < 2)%nat \/ (3 < length args)%nat) then
    Done (Error "ERR wrong number of arguments for 'SRANDMEMBER' command")
  else
    let withCount := bool_decide (length args = 3%nat) in
    match (if withCount then ParseInt (arg args 2) else Some 1) with
    | None => Done (Error "ERR value is not an integer or out of range")
    | Some count =>
        let* r := queryP (fun now => SRandMember shuffle intN now (arg args 1) count) in
        Done (onOk r (randReply withCount))
    end.

Definition handleSPop (args : list string) : handler :=
  if decide ((length args < 2)%nat \/ (3 < length args)%nat) then
    Done (Error "ERR wrong number of arguments for 'SPOP' command")
  else
    let withCount := bool_decide (length args = 3%nat) in
    match (if withCount then parseNonNegative (arg args 2) else Some 1) with
    | None => Done (Error "ERR value is not an integer or out of range")
    | Some count =>
        let* r := callP (fun now => SPop shuffle now (arg args 1) count) in
        Done (onOk r (randReply withCount))
    end.

End Random.

Definition handleSMove (args : list string) : handler :=
  if decide (length args <> 4%nat) then
    Done (Error "ERR wrong number of arguments for 'SMOVE' command")
  else
    let* r := call (fun now => SMove now (arg args 1) (arg args 2) (arg args 3)) in
    Done (onOk r boolReply).
