(* ===== verification/ZSetCmds.v ===== *)
(** * Handlers for sorted sets and cursors (internal/commands: zset.go, scan.go) *)

From S2P Require Import Prelude GoLib Floats Protocol Glob Store ZSets Scan Cmd StringCmds.
Open Scope cmd_scope.

(** ** zset.go *)

Definition parseScore (s : string) : option float64 :=
  let l := ToLower s in
  if String.eqb l "+inf" || String.eqb l "inf" then Some (F64.Inf false)
  else if String.eqb l "-inf" then Some (F64.Inf true)
  else ParseFloat s.

(** The value and whether the bound is exclusive. *)
Definition parseScoreBound (s : string) : option (float64 * bool) :=
  match s with
  | String c s' =>
      if Ascii.eqb c "("%char then (fun f => (f, true)) <$> parseScore s'
      else (fun f => (f, false)) <$> parseScore s
  | EmptyString => (fun f => (f, false)) <$> parseScore s
  end.

Record zaddFlags : Type := mkZaddFlags {
  zNX : bool;
  zXX : bool;
  zGT : bool;
  zLT : bool;
  zCH : bool
}.

(** The flags in front, and the arguments from the first that is none. *)
Fixpoint zaddOptions (rest : list string) (f : zaddFlags) : zaddFlags * list string :=
  match rest with
  | [] => (f, [])
  | w :: rest' =>
      let u := ToUpper w in
      if String.eqb u "NX" then
        zaddOptions rest' (mkZaddFlags true (zXX f) (zGT f) (zLT f) (zCH f))
      else if String.eqb u "XX" then
        zaddOptions rest' (mkZaddFlags (zNX f) true (zGT f) (zLT f) (zCH f))
      else if String.eqb u "GT" then
        zaddOptions rest' (mkZaddFlags (zNX f) (zXX f) true (zLT f) (zCH f))
      else if String.eqb u "LT" then
        zaddOptions rest' (mkZaddFlags (zNX f) (zXX f) (zGT f) true (zCH f))
      else if String.eqb u "CH" then
        zaddOptions rest' (mkZaddFlags (zNX f) (zXX f) (zGT f) (zLT f) true)
      else (f, rest)
  end.

Fixpoint zaddMembers (parse : string -> option float64) (kvs : list (string * string))
    : option (list ZMember) :=
  match kvs with
  | [] => Some []
  | (sc, m) :: kvs' =>
      match parse sc with
      | None => None
      | Some f =>
          match zaddMembers parse kvs' with
          | Some ms => Some (mkZMember m f :: ms)
          | None => None
          end
      end
  end.

Definition noFlags : zaddFlags := mkZaddFlags false false false false false.

Definition handleZAdd (args : list string) : handler :=
  if decide (length args < 4)%nat then
    Done (Error "ERR wrong number of arguments for 'ZADD' command")
  else
    let '(f, rest) := zaddOptions (argsFrom 2 args) noFlags in
    if zNX f && zXX f then
      Done (Error "ERR XX and NX options at the same time are not compatible")
    else if (zGT f && zNX f) || (zLT f && zNX f) then
      Done (Error "ERR GT, LT, and NX options at the same time are not compatible")
    else if decide (Nat.odd (length rest) = true \/ length rest = 0%nat) then
      Done (Error "ERR syntax error")
    else
      match zaddMembers parseScore (pairs rest) with
      | None => Done (Error "ERR value is not a valid float")
      | Some members =>
          let* r := call (fun now =>
            ZAdd now (arg args 1) members (zNX f) (zXX f) (zGT f) (zLT f) (zCH f)) in
          Done (onOk r Integer)
      end.

Definition handleZRem (args : list string) : handler :=
  if decide (length args < 3)%nat then
    Done (Error "ERR wrong number of arguments for 'ZREM' command")
  else
    let* r := call (fun now => ZRem now (arg args 1) (argsFrom 2 args)) in
    Done (onOk r Integer).

Definition handleZScore (args : list string) : handler :=
  if decide (length args <> 3%nat) then
    Done (Error "ERR wrong number of arguments for 'ZSCORE' command")
  else
    let* r := query (fun now => ZScore now (arg args 1) (arg args 2)) in
    Done (onOk r (fun o => orNull (formatScore <$> o))).

Definition handleZCard (args : list string) : handler :=
  if decide (length args <> 2%nat) then
    Done (Error "ERR wrong number of arguments for 'ZCARD' command")
  else
    let* r := queryP (fun now => ZCard now (arg args 1)) in
    Done (onOk r Integer).

Definition rankReply (o : option Z) : Response :=
  match o with Some r => Integer r | None => NullBulkString end.

Definition handleZRank (args : list string) : handler :=
  if decide (length args <> 3%nat) then
    Done (Error "ERR wrong number of arguments for 'ZRANK' command")
  else
    let* r := query (fun now => ZRank now (arg args 1) (arg args 2)) in
    Done (onOk r rankReply).

Definition handleZRevRank (args : list string) : handler :=
  if decide (length args <> 3%nat) then
    Done (Error "ERR wrong number of arguments for 'ZREVRANK' command")
  else
    let* r := query (fun now => ZRevRank now (arg args 1) (arg args 2)) in
    Done (onOk r rankReply).

Definition handleZIncrBy (args : list string) : handler :=
  if decide (length args <> 4%nat) then
    Done (Error "ERR wrong number of arguments for 'ZINCRBY' command")
  else
    match parseScore (arg args 2) with
    | None => Done (Error "ERR value is not a valid float")
    | Some incr =>
        let* r := call (fun now => ZIncrBy now (arg args 1) incr (arg args 3)) in
        Done (onOk r (fun score => BulkString (formatScore score)))
    end.

Record zrangeOpts : Type := mkZrangeOpts {
  zrRev : bool;
  zrWithScores : bool;
  zrByScore : bool;
  zrByLex : bool;
  zrOffset : Z;
  zrCount : Z
}.

Definition notInteger : Response := Error "ERR value is not an integer or out of range".

(** The option loop of ZRANGE. *)
Fixpoint zrangeOptions (rest : list string) (o : zrangeOpts) : Response + zrangeOpts :=
  match rest with
  | [] => inr o
  | w :: rest1 =>
      let u := ToUpper w in
      if String.eqb u "REV" then
        zrangeOptions rest1 (mkZrangeOpts true (zrWithScores o) (zrByScore o) (zrByLex o)
                               (zrOffset o) (zrCount o))
      else if String.eqb u "WITHSCORES" then
        zrangeOptions rest1 (mkZrangeOpts (zrRev o) true (zrByScore o) (zrByLex o)
                               (zrOffset o) (zrCount o))
      else if String.eqb u "BYSCORE" then
        zrangeOptions rest1 (mkZrangeOpts (zrRev o) (zrWithScores o) true (zrByLex o)
                               (zrOffset o) (zrCount o))
      else if String.eqb u "BYLEX" then
        zrangeOptions rest1 (mkZrangeOpts (zrRev o) (zrWithScores o) (zrByScore o) true
                               (zrOffset o) (zrCount o))
      else if String.eqb u "LIMIT" then
        match rest1 with
        | a :: b :: rest2 =>
            match ParseInt a, ParseInt b with
            | Some off, Some c =>
                zrangeOptions rest2 (mkZrangeOpts (zrRev o) (zrWithScores o) (zrByScore o)
                                       (zrByLex o) off c)
            | _, _ => inl notInteger
            end
        | _ => inl (Error "ERR syntax error")
        end
      else inl (Error "ERR syntax error")
  end.

Definition notFloat : Response := Error "ERR min or max is not a float".

Definition handleZRange (args : list string) : handler :=
  if decide (length args < 4)%nat then
    Done (Error "ERR wrong number of arguments for 'ZRANGE' command")
  else
    let key := arg args 1 in
    let a := arg args 2 in
    let b := arg args 3 in
    match zrangeOptions (argsFrom 4 args) (mkZrangeOpts false false false false 0 (-1)) with
    | inl err => Done err
    | inr o =>
        if zrByLex o then
          let* r := query (fun now =>
            if zrRev o then ZRangeByLex now key b a (zrOffset o) (zrCount o)
            else ZRangeByLex now key a b (zrOffset o) (zrCount o)) in
          Done (onOk r bulks)
        else if zrByScore o then
          match parseScoreBound a, parseScoreBound b with
          | Some (fa, ea), Some (fb, eb) =>
              let* r := query (fun now =>
                if zrRev o then
                  ZRevRangeByScore now key fa fb ea eb (zrWithScores o) (zrOffset o) (zrCount o)
                else ZRangeByScore now key fa fb ea eb (zrWithScores o) (zrOffset o) (zrCount o)) in
              Done (onOk r bulks)
          | _, _ => Done notFloat
          end
        else
          match ParseInt a, ParseInt b with
          | Some start, Some stop =>
              let* r := queryP (fun now => ZRange now key start stop (zrRev o) (zrWithScores o)) in
              Done (onOk r bulks)
          | _, _ => Done notInteger
          end
    end.

Definition handleZRevRange (args : list string) : handler :=
  if decide (length args < 4)%nat then
    Done (Error "ERR wrong number of arguments for 'ZREVRANGE' command")
  else
    match ParseInt (arg args 2), ParseInt (arg args 3) with
    | Some start, Some stop =>
        let withScores :=
          bool_decide (length args = 5%nat) && String.eqb (ToUpper (arg args 4)) "WITHSCORES" in
        let* r := queryP (fun now => ZRange now (arg args 1) start stop true withScores) in
        Done (onOk r bulks)
    | _, _ => Done notInteger
    end.

(** The option loop of ZRANGEBYSCORE and ZREVRANGEBYSCORE: words it does not know
    are skipped.  (withScores, offset, count) *)
Fixpoint scoreOptions (rest : list string) (withScores : bool) (offset count : Z)
    : Response + bool * Z * Z :=
  match rest with
  | [] => inr (withScores, offset, count)
  | w :: rest1 =>
      let u := ToUpper w in
      if String.eqb u "WITHSCORES" then scoreOptions rest1 true offset count
      else if String.eqb u "LIMIT" then
        match rest1 with
        | a :: b :: rest2 =>
            match ParseInt a, ParseInt b with
            | Some o, Some c => scoreOptions rest2 withScores o c
            | _, _ => inl notInteger
            end
        | _ => inl (Error "ERR syntax error")
        end
      else scoreOptions rest1 withScores offset count
  end.

Definition handleZRangeByScore (args : list string) : handler :=
  if decide (length args < 4)%nat then
    Done (Error "ERR wrong number of arguments for 'ZRANGEBYSCORE' command")
  else
    match parseScoreBound (arg args 2), parseScoreBound (arg args 3) with
    | Some (min, minExcl), Some (max, maxExcl) =>
        match scoreOptions (argsFrom 4 args) false 0 (-1) with
        | inl err => Done err
        | inr (withScores, offset, count) =>
            let* r := query (fun now =>
              ZRangeByScore now (arg args 1) min max minExcl maxExcl withScores offset count) in
            Done (onOk r bulks)
        end
    | _, _ => Done notFloat
    end.

Definition handleZRevRangeByScore (args : list string) : handler :=
  if decide (length args < 4)%nat then
    Done (Error "ERR wrong number of arguments for 'ZREVRANGEBYSCORE' command")
  else
    match parseScoreBound (arg args 2), parseScoreBound (arg args 3) with
    | Some (max, maxExcl), Some (min, minExcl) =>
        match scoreOptions (argsFrom 4 args) false 0 (-1) with
        | inl err => Done err
        | inr (withScores, offset, count) =>
            let* r := query (fun now =>
              ZRevRangeByScore now (arg args 1) max min maxExcl minExcl withScores offset count) in
            Done (onOk r bulks)
        end
    | _, _ => Done notFloat
    end.

Definition handleZCount (args : list string) : handler :=
  if decide (length args <> 4%nat) then
    Done (Error "ERR wrong number of arguments for 'ZCOUNT' command")
  else
    match parseScoreBound (arg args 2), parseScoreBound (arg args 3) with
    | Some (min, minExcl), Some (max, maxExcl) =>
        let* r := query (fun now => ZCount now (arg args 1) min max minExcl maxExcl) in
        Done (onOk r Integer)
    | _, _ => Done notFloat
    end.

(** The LIMIT loop of ZRANGEBYLEX and ZREVRANGEBYLEX. *)
Fixpoint lexOptions (rest : list string) (offset count : Z) : Response + Z * Z :=
  match rest with
  | [] => inr (offset, count)
  | w :: rest1 =>
      if String.eqb (ToUpper w) "LIMIT" then
        match rest1 with
        | a :: b :: rest2 =>
            match ParseInt a, ParseInt b with
            | Some o, Some c => lexOptions rest2 o c
            | _, _ => inl notInteger
            end
        | _ => inl (Error "ERR syntax error")
        end
      else lexOptions rest1 offset count
  end.

Definition handleZRangeByLex (args : list string) : handler :=
  if decide (length args < 4)%nat then
    Done (Error "ERR wrong number of arguments for 'ZRANGEBYLEX' command")
  else
    match lexOptions (argsFrom 4 args) 0 (-1) with
    | inl err => Done err
    | inr (offset, count) =>
        let* r := query (fun now =>
          ZRangeByLex now (arg args 1) (arg args 2) (arg args 3) offset count) in
        Done (onOk r bulks)
    end.

Definition handleZRevRangeByLex (args : list string) : handler :=
  if decide (length args < 4)%nat then
    Done (Error "ERR wrong number of arguments for 'ZREVRANGEBYLEX' command")
  else
    match lexOptions (argsFrom 4 args) 0 (-1) with
    | inl err => Done err
    | inr (offset, count) =>
        let* r := query (fun now =>
          ZRangeByLex now (arg args 1) (arg args 3) (arg args 2) offset count) in
        Done (onOk r (fun result => bulks (rev result)))
    end.

Definition handleZLexCount (args : list string) : handler :=
  if decide (length args <> 4%nat) then
    Done (Error "ERR wrong number of arguments for 'ZLEXCOUNT' command")
  else
    let* r := query (fun now => ZLexCount now (arg args 1) (arg args 2) (arg args 3)) in
    Done (onOk r Integer).

(** ZPOPMIN and ZPOPMAX differ in the store method only. *)
Definition handleZPop (name : string)
    (pop : Time -> string -> Z -> MemoryStore ->
           may_panic (result (list ZMember) * MemoryStore)) (args : list string) : handler :=
  if decide ((length args < 2)%nat \/ (3 < length args)%nat) then
    Done (Error ("ERR wrong number of arguments for '" +:+ name +:+ "' command"))
  else
    match (if decide (length args = 3%nat) then parseNonNegative (arg args 2) else Some 1) with
    | None => Done notInteger
    | Some count =>
        let* r := callP (fun now => pop now (arg args 1) count) in
        Done (onOk r (fun members => bulks (withScoresOf true members)))
    end.

Definition handleZPopMin : list string -> handler := handleZPop "ZPOPMIN" ZPopMin.
Definition handleZPopMax : list string -> handler := handleZPop "ZPOPMAX" ZPopMax.

(** The weights that follow WEIGHTS: up to [n] of them, written over [weights]
    from position [j] on.  Returns the rest of the arguments. *)
Fixpoint readWeights (n : nat) (j : nat) (rest : list string) (weights : list float64)
    : option (list float64 * list string) :=
  match n, rest with
  | S n', w :: rest' =>
      match ParseFloat w with
      | None => None
      | Some f => readWeights n' (S j) rest' (<[j := f]> weights)
      end
  | _, _ => Some (weights, rest)
  end.

(** The option loop of the STORE commands; [fuel] bounds the number of options,
    each of which consumes an argument. *)
Fixpoint zstoreOptions (fuel : nat) (numkeys : nat) (rest : list string) (weights : list float64)
    (aggregate : string) : Response + list float64 * string :=
  match fuel, rest with
  | _, [] => inr (weights, aggregate)
  | O, _ => inl (Error "ERR syntax error")
  | S fuel', w :: rest1 =>
      let u := ToUpper w in
      if String.eqb u "WEIGHTS" then
        match readWeights numkeys 0 rest1 weights with
        | None => inl (Error "ERR weight value is not a float")
        | Some (weights, rest2) => zstoreOptions fuel' numkeys rest2 weights aggregate
        end
      else if String.eqb u "AGGREGATE" then
        match rest1 with
        | [] => inl (Error "ERR syntax error")
        | a :: rest2 => zstoreOptions fuel' numkeys rest2 weights (ToUpper a)
        end
      else inl (Error "ERR syntax error")
  end.

Definition handleZSetStore (cmdName : string) (args : list string) (inter : bool) : handler :=
  if decide (length args < 4)%nat then
    Done (Error ("ERR wrong number of arguments for '" +:+ cmdName +:+ "' command"))
  else
    match ParseInt (arg args 2) with
    | None => Done notInteger
    | Some numkeys =>
        if numkeys <? 1 then Done notInteger
        else if llen args <? wrap64 (3 + numkeys) then Done (Error "ERR syntax error")
        else if llen args <? 3 + numkeys then Crash
        else
          let n := Z.to_nat numkeys in
          let keys := take n (argsFrom 3 args) in
          let rest := drop n (argsFrom 3 args) in
          match zstoreOptions (length rest) n rest (repeat (F64.of_Z 1) n) "SUM" with
          | inl err => Done err
          | inr (weights, aggregate) =>
              let* r := call (fun now =>
                if inter then ZInterStore now (arg args 1) keys weights aggregate
                else ZUnionStore now (arg args 1) keys weights aggregate) in
              Done (onOk r Integer)
          end
    end.

Definition handleZUnionStore (args : list string) : handler :=
  handleZSetStore "ZUNIONSTORE" args false.
Definition handleZInterStore (args : list string) : handler :=
  handleZSetStore "ZINTERSTORE" args true.

(** ** scan.go *)

Fixpoint scanOptions (rest : list string) (pattern : string) (count : Z)
    : string + string * Z :=
  match rest with
  | [] => inr (pattern, count)
  | w :: rest1 =>
      let u := ToUpper w in
      if String.eqb u "MATCH" then
        match rest1 with
        | [] => inl "ERR syntax error"
        | p :: rest2 => scanOptions rest2 p count
        end
      else if String.eqb u "COUNT" then
        match rest1 with
        | [] => inl "ERR syntax error"
        | c :: rest2 =>
            match parsePositive c with
            | None => inl "ERR value is not an integer or out of range"
            | Some n => scanOptions rest2 pattern n
            end
        end
      else inl "ERR syntax error"
  end.

(** [parseScanArgs(args, offset)] *)
Definition parseScanArgs (args : list string) (offset : nat) : string + string * Z :=
  scanOptions (argsFrom offset args) "*" 10.

Definition scanReply (page : Z * list string) : Response :=
  Array [BulkString (FormatUint (fst page)); bulks (snd page)].

(** [if match == "*" { match = "" }] *)
Definition starPattern (p : string) : string := if String.eqb p "*" then "" else p.

Definition handleScan (args : list string) : handler :=
  if decide (length args < 2)%nat then
    Done (Error "ERR wrong number of arguments for 'SCAN' command")
  else
    match ParseUint (arg args 1) with
    | None => Done notInteger
    | Some cursor =>
        match parseScanArgs args 2 with
        | inl err => Done (Error err)
        | inr (pattern, count) =>
            let* page := query (fun now => Scan now cursor (starPattern pattern) count) in
            Done (scanReply page)
        end
    end.

(** HSCAN, SSCAN and ZSCAN differ in the store method only. *)
Definition handleKeyScan (name : string)
    (f : Time -> string -> Z -> string -> Z -> MemoryStore -> result (Z * list string))
    (args : list string) : handler :=
  if decide (length args < 3)%nat then
    Done (Error ("ERR wrong number of arguments for '" +:+ name +:+ "' command"))
  else
    match ParseUint (arg args 2) with
    | None => Done notInteger
    | Some cursor =>
        match parseScanArgs args 3 with
        | inl err => Done (Error err)
        | inr (pattern, count) =>
            let* r := query (fun now => f now (arg args 1) cursor (starPattern pattern) count) in
            Done (onOk r scanReply)
        end
    end.

Definition handleHScan : list string -> handler := handleKeyScan "HSCAN" HScan.
Definition handleSScan : list string -> handler := handleKeyScan "SSCAN" SScan.
Definition handleZScan : list string -> handler := handleKeyScan "ZSCAN" ZScan.
