(* ===== verification/ServerCmds.v ===== *)
(** * Handlers for the server and the database
    (internal/commands: server_cmds.go, server_extra.go) *)

From S2P Require Import Prelude GoLib Floats Protocol Store Lists Sets Hashes ZSets Cmd.
From S2P Require Import StringCmds.
Open Scope cmd_scope.

(** ** server_cmds.go *)

(** What INFO reads from the Go runtime, and the time the server started. *)
Record runtimeInfo : Type := mkRuntimeInfo {
  goos : string;
  goVersion : string;
  memAlloc : Z;
  serverStartTime : Time
}.

Definition crlf (s : string) : string := s +:+ CRLF.

Definition infoServer (env : runtimeInfo) (now : Time) : string :=
  let uptime := F64.trunc (DurationSeconds (Until (serverStartTime env) now)) in
  crlf "# Server" +:+
  crlf "redis_version:7.0.0-go-clone" +:+
  crlf ("os:" +:+ goos env) +:+
  crlf "arch_bits:64" +:+
  crlf ("go_version:" +:+ goVersion env) +:+
  crlf ("uptime_in_seconds:" +:+ FormatInt uptime) +:+
  crlf ("uptime_in_days:" +:+ FormatInt (Z.quot uptime 86400)) +:+
  crlf "connected_clients:0" +:+
  crlf "".

Definition infoKeyspace (n : Z) : string :=
  crlf "# Keyspace" +:+ crlf ("db0:keys=" +:+ FormatInt n +:+ ",expires=0") +:+ crlf "".

Definition infoMemory (env : runtimeInfo) : string :=
  crlf "# Memory" +:+
  crlf ("used_memory:" +:+ FormatUint (memAlloc env)) +:+
  crlf ("used_memory_human:" +:+
        FormatFixed2 (F64.div (F64.of_Z (memAlloc env)) (F64.of_Z 1024)) +:+ "K") +:+
  crlf "".

Definition handleInfo (env : runtimeInfo) (args : list string) : handler :=
  if decide (2 < length args)%nat then
    Done (Error "ERR wrong number of arguments for 'INFO' command")
  else
    let section := if decide (length args = 2%nat) then ToLower (arg args 1) else "all" in
    let wants (s : string) :=
      String.eqb section s || String.eqb section "all" || String.eqb section "default" in
    let* server :=
      (if wants "server" then let* now := clockNow in Done (infoServer env now) else Done "") in
    let* keyspace :=
      (if wants "keyspace" then let* n := query Len in Done (infoKeyspace n) else Done "") in
    let memory := if wants "memory" then infoMemory env else "" in
    Done (BulkString (server +:+ keyspace +:+ memory)).

Definition handleDBSize (args : list string) : handler :=
  if decide (length args <> 1%nat) then
    Done (Error "ERR wrong number of arguments for 'DBSIZE' command")
  else
    let* n := query Len in
    Done (Integer n).

Definition handleType (args : list string) : handler :=
  if decide (length args <> 2%nat) then
    Done (Error "ERR wrong number of arguments for 'TYPE' command")
  else
    let* t := query (fun now => Type_ now (arg args 1)) in
    Done (SimpleString t).

Definition handleRename (args : list string) : handler :=
  if decide (length args <> 3%nat) then
    Done (Error "ERR wrong number of arguments for 'RENAME' command")
  else if decide (arg args 1 = arg args 2) then
    let* t := query (fun now => Type_ now (arg args 1)) in
    if String.eqb t "none" then Done (Error "ERR no such key") else Done (SimpleString "OK")
  else
    let* ok := callP (fun now => Rename now (arg args 1) (arg args 2)) in
    if negb ok then Done (Error "ERR no such key") else Done (SimpleString "OK").

Definition handleFlushDB (args : list string) : handler :=
  if decide (2 < length args)%nat then
    Done (Error "ERR wrong number of arguments for 'FLUSHDB' command")
  else
    let* _ := update (fun _ => Flush) in
    Done (SimpleString "OK").

Definition handleFlushAll (args : list string) : handler :=
  if decide (2 < length args)%nat then
    Done (Error "ERR wrong number of arguments for 'FLUSHALL' command")
  else
    let* _ := update (fun _ => Flush) in
    Done (SimpleString "OK").

Definition handleSelect (args : list string) : handler :=
  if decide (length args <> 2%nat) then
    Done (Error "ERR wrong number of arguments for 'SELECT' command")
  else if negb (String.eqb (arg args 1) "0") then Done (Error "ERR DB index is out of range")
  else Done (SimpleString "OK").

(** ** server_extra.go *)

(** [n, _ := method(key)]: the zero value on an error. *)
Definition orZero (r : result Z) : Z := match r with Ok n => n | Fail _ => 0 end.

Definition sizeEncoding (n : Z) (small large : string) : Response :=
  BulkString (if n <=? 128 then small else large).

Definition objectEncoding (key : string) : handler :=
  let* t := query (fun now => Type_ now key) in
  if String.eqb t "none" then Done (Error "ERR no such key")
  else if String.eqb t "string" then
    let* v := query (fun now => Get now key) in
    let val := default "" v in
    match parseInt64 val with
    | Some _ =>
        if len val <? 20 then Done (BulkString "int")
        else if len val <=? 44 then Done (BulkString "embstr") else Done (BulkString "raw")
    | None => if len val <=? 44 then Done (BulkString "embstr") else Done (BulkString "raw")
    end
  else if String.eqb t "hash" then
    let* n := query (fun now => HLen now key) in
    Done (sizeEncoding n "ziplist" "hashtable")
  else if String.eqb t "list" then
    let* r := query (fun now => LLen now key) in
    Done (sizeEncoding (orZero r) "listpack" "quicklist")
  else if String.eqb t "set" then
    let* r := query (fun now => SCard now key) in
    Done (sizeEncoding (orZero r) "listpack" "hashtable")
  else if String.eqb t "zset" then
    let* r := queryP (fun now => ZCard now key) in
    Done (sizeEncoding (orZero r) "listpack" "skiplist")
  else Done (BulkString "embstr").

(** REFCOUNT, IDLETIME and FREQ: a constant for a key that exists. *)
Definition objectConst (sub : string) (n : Z) (args : list string) : handler :=
  if decide (length args <> 3%nat) then
    Done (Error ("ERR wrong number of arguments for 'OBJECT|" +:+ sub +:+ "' command"))
  else
    let* t := query (fun now => Type_ now (arg args 2)) in
    if String.eqb t "none" then Done (Error "ERR no such key") else Done (Integer n).

Definition objectHelp : list string :=
  ["OBJECT <subcommand> [<arg> [value] [opt] ...]. subcommands are:";
   "ENCODING <key>";
   "    Return the kind of internal representation the Redis object stored at <key> is using.";
   "FREQ <key>";
   "    Return the access frequency index of the key. The returned integer is proportional to the logarithm of the recent access frequency.";
   "HELP";
   "    Return subcommand help summary.";
   "IDLETIME <key>";
   "    Return the idle time of the key, that is the approximated number of seconds elapsed since the last access to the key.";
   "REFCOUNT <key>";
   "    Return the reference count of the object stored at <key>."].

Definition handleObject (args : list string) : handler :=
  if decide (length args < 2)%nat then
    Done (Error "ERR wrong number of arguments for 'OBJECT' command")
  else
    let sub := ToUpper (arg args 1) in
    if String.eqb sub "ENCODING" then
      if decide (length args <> 3%nat) then
        Done (Error "ERR wrong number of arguments for 'OBJECT|ENCODING' command")
      else objectEncoding (arg args 2)
    else if String.eqb sub "REFCOUNT" then objectConst "REFCOUNT" 1 args
    else if String.eqb sub "IDLETIME" then objectConst "IDLETIME" 0 args
    else if String.eqb sub "FREQ" then objectConst "FREQ" 0 args
    else if String.eqb sub "HELP" then Done (bulks objectHelp)
    else Done (Error ("ERR unknown subcommand '" +:+ arg args 1 +:+ "'. Try OBJECT HELP.")).

(** The line CLIENT LIST and CLIENT INFO return, up to the name of the subcommand. *)
Definition clientLine (sub : string) : string :=
  "id=1 addr=127.0.0.1:0 laddr=127.0.0.1:6379 fd=0 name= age=0 idle=0 flags=N db=0 sub=0 psub=0 multi=-1 watch=0 qbuf=0 qbuf-free=0 argv-mem=0 multi-mem=0 tot-mem=0 rbs=0 rbp=0 obl=0 oll=0 omem=0 events=r cmd=client|"
  +:+ sub +:+ " user=default library-name= library-ver= resp=2" +:+ String LF EmptyString.

Definition handleClient (args : list string) : handler :=
  if decide (length args < 2)%nat then
    Done (Error "ERR wrong number of arguments for 'CLIENT' command")
  else
    let sub := ToUpper (arg args 1) in
    if String.eqb sub "ID" then Done (Integer 1)
    else if String.eqb sub "GETNAME" then Done NullBulkString
    else if String.eqb sub "SETNAME" then
      if decide (length args <> 3%nat) then
        Done (Error "ERR wrong number of arguments for 'CLIENT|SETNAME' command")
      else Done (SimpleString "OK")
    else if String.eqb sub "LIST" then Done (BulkString (clientLine "list"))
    else if String.eqb sub "INFO" then Done (BulkString (clientLine "info"))
    else if String.eqb sub "NO-EVICT" || String.eqb sub "NO-TOUCH" || String.eqb sub "CACHING" then
      Done (SimpleString "OK")
    else if String.eqb sub "REPLY" then Done (SimpleString "OK")
    else if String.eqb sub "UNPAUSE" then Done (SimpleString "OK")
    else if String.eqb sub "PAUSE" then Done (SimpleString "OK")
    else if String.eqb sub "KILL" then Done (Integer 0)
    else Done (Error ("ERR unknown subcommand '" +:+ arg args 1 +:+ "'. Try CLIENT HELP.")).
