(* ===== verification/PubSub.v ===== *)
(** * Publish/subscribe (internal/pubsub)

    A [*Subscriber] is an identifier; the broker's registry holds identifiers and
    the heap of subscribers holds each one's inbox and whether it was closed.  The
    inbox channel is the list of the frames that wait in it, oldest first.  Publish
    snapshots the registry under the lock and sends after releasing it, so it is a
    program of atomic steps. *)

From S2P Require Import Prelude GoLib Protocol Glob Store Cmd.
Open Scope cmd_scope.

(** ** subscriber.go *)

Definition inboxSize : Z := 256.

Record Subscriber : Type := mkSubscriber {
  inbox : list string;
  done : bool
}.

Definition NewSubscriber : Subscriber := mkSubscriber [] false.

#[export] Instance Subscriber_eq_dec : EqDecision Subscriber.
Proof. solve_decision. Defined.

(** The second [select] of Send: the frame goes into the inbox if it has room, closed
    or not. *)
Definition enqueue (msg : string) (s : Subscriber) : bool * Subscriber :=
  if llen (inbox s) <? inboxSize then (true, mkSubscriber (inbox s ++ [msg]) (done s))
  else (false, s).

Definition Close (s : Subscriber) : Subscriber := mkSubscriber (inbox s) true.

(** The write loop takes the oldest frame. *)
Definition Receive (s : Subscriber) : option string * Subscriber :=
  match inbox s with
  | [] => (None, s)
  | m :: ms => (Some m, mkSubscriber ms (done s))
  end.

(** ** broker.go *)

Abbreviation SubId := positive (only parsing).
Abbreviation registry := (gmap string (gset positive)) (only parsing).

Record Broker : Type := mkBroker {
  channels : registry;
  patterns : registry
}.

(** The broker and the subscribers its registry points to. *)
Record PubSub : Type := mkPubSub {
  broker : Broker;
  subscribers : gmap SubId Subscriber
}.

Definition NewBroker : Broker := mkBroker ∅ ∅.

Definition addTo (m : registry) (key : string) (sub : SubId) : registry :=
  <[key := {[sub]} ∪ default ∅ (m !! key)]> m.

Definition Subscribe (channel : string) (sub : SubId) (b : Broker) : Broker :=
  mkBroker (addTo (channels b) channel sub) (patterns b).

Definition PSubscribe (pattern : string) (sub : SubId) (b : Broker) : Broker :=
  mkBroker (channels b) (addTo (patterns b) pattern sub).

Definition removeFromMap (m : registry) (key : string) (sub : SubId) : registry :=
  match m !! key with
  | None => m
  | Some subs =>
      let subs := subs ∖ {[sub]} in
      if decide (size subs = 0%nat) then delete key m else <[key := subs]> m
  end.

Definition Unsubscribe (channel : string) (sub : SubId) (b : Broker) : Broker :=
  mkBroker (removeFromMap (channels b) channel sub) (patterns b).

Definition PUnsubscribe (pattern : string) (sub : SubId) (b : Broker) : Broker :=
  mkBroker (channels b) (removeFromMap (patterns b) pattern sub).

(** The keys that list the subscriber, and the registry without it. *)
Definition removeSubFromAllChannels (m : registry) (sub : SubId) : list string * registry :=
  (fst <$> filter (fun kv : string * gset positive => sub ∈ kv.2) (map_to_list m),
   map_imap (fun _ subs =>
     if decide (sub ∈ subs) then
       let subs := subs ∖ {[sub]} in
       if decide (size subs = 0%nat) then None else Some subs
     else Some subs) m).

Definition UnsubscribeAll (sub : SubId) (b : Broker) : list string * Broker :=
  let '(removed, m) := removeSubFromAllChannels (channels b) sub in
  (removed, mkBroker m (patterns b)).

Definition PUnsubscribeAll (sub : SubId) (b : Broker) : list string * Broker :=
  let '(removed, m) := removeSubFromAllChannels (patterns b) sub in
  (removed, mkBroker (channels b) m).

(** ** message.go *)

(** [$<len>\r\n<s>\r\n] *)
Definition frameBulk (s : string) : string :=
  "$" +:+ FormatInt (len s) +:+ CRLF +:+ s +:+ CRLF.

Definition EncodePubSubMessage (channel payload : string) : string :=
  "*3" +:+ CRLF +:+ "$7" +:+ CRLF +:+ "message" +:+ CRLF +:+
  frameBulk channel +:+ frameBulk payload.

Definition EncodePMessage (pattern channel payload : string) : string :=
  "*4" +:+ CRLF +:+ "$8" +:+ CRLF +:+ "pmessage" +:+ CRLF +:+
  frameBulk pattern +:+ frameBulk channel +:+ frameBulk payload.

Definition EncodeSubscribeAck (channel : string) (activeSubscriptions : Z) : string :=
  "*3" +:+ CRLF +:+ "$9" +:+ CRLF +:+ "subscribe" +:+ CRLF +:+
  frameBulk channel +:+ ":" +:+ FormatInt activeSubscriptions +:+ CRLF.

Definition EncodeUnsubscribeAck (channel : string) (remainingSubscriptions : Z) : string :=
  "*3" +:+ CRLF +:+ "$11" +:+ CRLF +:+ "unsubscribe" +:+ CRLF +:+
  frameBulk channel +:+ ":" +:+ FormatInt remainingSubscriptions +:+ CRLF.

Definition EncodePSubscribeAck (pattern : string) (activeSubscriptions : Z) : string :=
  "*3" +:+ CRLF +:+ "$10" +:+ CRLF +:+ "psubscribe" +:+ CRLF +:+
  frameBulk pattern +:+ ":" +:+ FormatInt activeSubscriptions +:+ CRLF.

Definition EncodePUnsubscribeAck (pattern : string) (remainingSubscriptions : Z) : string :=
  "*3" +:+ CRLF +:+ "$12" +:+ CRLF +:+ "punsubscribe" +:+ CRLF +:+
  frameBulk pattern +:+ ":" +:+ FormatInt remainingSubscriptions +:+ CRLF.

(** ** Publish *)

(** The deliveries of a message: the exact subscribers of the channel, then one per
    matching pattern and subscriber of the pattern. *)
Definition exactSnapshot (channel : string) (b : Broker) : list SubId :=
  elements (default ∅ (channels b !! channel)).

Definition patternMatches (channel : string) (b : Broker) : list (string * SubId) :=
  concat ((fun kv : string * gset positive => (fun sub => (kv.1, sub)) <$> elements kv.2) <$>
          filter (fun kv : string * gset positive => matches kv.1 channel)
            (map_to_list (patterns b))).

(** The two loops range over maps: [iterSubs] and [iterMatches] are the orders Go
    happens to take. *)
Record iteration : Type := mkIteration {
  iterSubs : list SubId -> list SubId;
  iterMatches : list (string * SubId) -> list (string * SubId)
}.

Definition deliveries (it : iteration) (channel message : string) (b : Broker)
    : list (SubId * string) :=
  ((fun sub => (sub, EncodePubSubMessage channel message)) <$>
     iterSubs it (exactSnapshot channel b)) ++
  ((fun ps => (ps.2, EncodePMessage ps.1 channel message)) <$>
     iterMatches it (patternMatches channel b)).

(** The two [select]s of [sub.Send] on the heap.  A registered subscriber is always
    there. *)
Definition isDone (sub : SubId) (ps : PubSub) : bool :=
  match subscribers ps !! sub with None => true | Some s => done s end.

Definition enqueueTo (sub : SubId) (msg : string) (ps : PubSub) : bool * PubSub :=
  match subscribers ps !! sub with
  | None => (false, ps)
  | Some s =>
      let '(ok, s') := enqueue msg s in
      (ok, mkPubSub (broker ps) (<[sub := s']> (subscribers ps)))
  end.

(** [sub.Send(msg)]: the subscriber can be closed between the two steps.  Returns whether
    the frame was queued. *)
Definition Send (sub : SubId) (msg : string) : cmd PubSub bool :=
  let* closed := query (fun _ ps => isDone sub ps) in
  if closed then Done false
  else call (fun _ ps => enqueueTo sub msg ps).

Fixpoint sendAll (ds : list (SubId * string)) : cmd PubSub Z :=
  match ds with
  | [] => Done 0
  | (sub, msg) :: ds' =>
      let* ok := Send sub msg in
      let* n := sendAll ds' in
      Done (if ok then n + 1 else n)
  end.

Definition Publish (it : iteration) (channel message : string) : cmd PubSub Z :=
  let* ds := query (fun _ ps => deliveries it channel message (broker ps)) in
  sendAll ds.

(** ** Lemmas *)

(** Send with nothing in between, on one subscriber and on the heap. *)
Definition sendAlone (msg : string) (s : Subscriber) : bool * Subscriber :=
  if done s then (false, s) else enqueue msg s.

Definition sendTo (sub : SubId) (msg : string) (ps : PubSub) : bool * PubSub :=
  if isDone sub ps then (false, ps) else enqueueTo sub msg ps.

Lemma run_Send sub msg clock i ps :
  exists i', run (Send sub msg) clock i ps =
    Ret (fst (sendTo sub msg ps), i', snd (sendTo sub msg ps)).
Proof.
  unfold Send, sendTo. rewrite run_bind, run_query.
  destruct (isDone sub ps); [by exists (S i)|]. rewrite run_call. eauto.
Qed.

Lemma sendTo_lookup sub msg ps sub' :
  subscribers (snd (sendTo sub msg ps)) !! sub' =
    if decide (sub = sub') then (snd ∘ sendAlone msg) <$> subscribers ps !! sub'
    else subscribers ps !! sub'.
Proof.
  unfold sendTo, isDone, enqueueTo, sendAlone.
  destruct (decide (sub = sub')) as [<-|Hne]; destruct (subscribers ps !! sub) as [s|] eqn:Es;
    cbn; rewrite ?Es; try done; destruct (done s) eqn:Ed; cbn; rewrite ?Ed, ?Es; try done;
    destruct (enqueue msg s); cbn; [by rewrite lookup_insert_eq|by rewrite lookup_insert_ne].
Qed.

Lemma sendTo_broker sub msg ps : broker (snd (sendTo sub msg ps)) = broker ps.
Proof.
  unfold sendTo, enqueueTo. destruct (isDone sub ps); [done|].
  destruct (subscribers ps !! sub) as [s|]; [|done]. by destruct (enqueue msg s).
Qed.

(** The frames for one subscriber, in order. *)
Definition framesFor (sub : SubId) (ds : list (SubId * string)) : list string :=
  snd <$> filter (fun d : SubId * string => d.1 = sub) ds.

(** What a subscriber's inbox holds after frames were offered to it: as many as fit,
    in order; a closed one takes none. *)
Definition offer (msgs : list string) (s : Subscriber) : Subscriber :=
  if done s then s
  else mkSubscriber (inbox s ++ ltake (inboxSize - llen (inbox s)) msgs) false.

Lemma offer_nil s : offer [] s = s.
Proof.
  destruct s as [l d]. unfold offer, ltake. cbn. rewrite take_nil, app_nil_r. by destruct d.
Qed.

Lemma offer_cons m ms s : offer (m :: ms) s = offer ms (snd (sendAlone m s)).
Proof.
  destruct s as [l d]. unfold offer, sendAlone, enqueue. cbn. destruct d; [done|]. cbn.
  destruct (llen l <? inboxSize) eqn:E; cbn; zbool.
  - rewrite llen_app. change (llen [m]) with 1. unfold ltake, inboxSize in *.
    pose proof (llen_nonneg l). replace (Z.to_nat (256 - llen l)) with
      (S (Z.to_nat (256 - (llen l + 1)))) by lia.
    cbn [take]. by rewrite <- app_assoc.
  - unfold ltake. replace (Z.to_nat (inboxSize - llen l)) with O by lia.
    by rewrite !take_0.
Qed.

Lemma offer_bounded msgs s :
  llen (inbox s) <= inboxSize -> llen (inbox (offer msgs s)) <= inboxSize.
Proof.
  destruct s as [l d]. unfold offer. cbn. destruct d; [done|]. cbn. intros H.
  rewrite llen_app. unfold ltake, llen in *. rewrite length_take. lia.
Qed.

(** The number of frames that wait in the inboxes. *)
Definition waiting (m : gmap SubId Subscriber) : Z :=
  map_fold (fun _ s n => llen (inbox s) + n) 0 m.

Lemma waiting_insert (m : gmap SubId Subscriber) sub s s' :
  m !! sub = Some s -> waiting (<[sub := s']> m) = waiting m + (llen (inbox s') - llen (inbox s)).
Proof.
  intros Hs. unfold waiting. rewrite <- insert_delete_eq.
  rewrite map_fold_insert_L; [|intros; lia|apply lookup_delete_eq].
  rewrite (map_fold_delete_L _ _ sub s m); [lia|intros; lia|done].
Qed.

Lemma sendTo_waiting sub msg ps :
  waiting (subscribers (snd (sendTo sub msg ps))) =
    waiting (subscribers ps) + (if fst (sendTo sub msg ps) then 1 else 0).
Proof.
  unfold sendTo, isDone, enqueueTo. destruct (subscribers ps !! sub) as [s|] eqn:Es; [|cbn; lia].
  destruct (done s) eqn:Ed; [cbn; lia|].
  unfold enqueue. destruct (llen (inbox s) <? inboxSize); cbn;
    rewrite (waiting_insert _ _ s) by done; cbn; rewrite ?llen_app; try lia.
  change (llen [msg]) with 1. lia.
Qed.

Lemma framesFor_cons sub d ds :
  framesFor sub (d :: ds) =
    if decide (d.1 = sub) then d.2 :: framesFor sub ds else framesFor sub ds.
Proof. unfold framesFor. rewrite filter_cons. by destruct (decide _). Qed.

(** The loop of sends, run alone. *)
Lemma run_sendAll ds clock i ps :
  exists n i' ps', run (sendAll ds) clock i ps = Ret (n, i', ps') /\
    broker ps' = broker ps /\
    (forall sub, subscribers ps' !! sub = offer (framesFor sub ds) <$> subscribers ps !! sub) /\
    waiting (subscribers ps') = waiting (subscribers ps) + n.
Proof.
  revert i ps. induction ds as [|[sub msg] ds IH]; intros i ps.
  - exists 0, i, ps. split_and!; [done..| |lia]. intros sub.
    cbn. rewrite (option_fmap_ext _ id), option_fmap_id; [done|]. intros s. apply offer_nil.
  - cbn [sendAll]. destruct (run_Send sub msg clock i ps) as [j Hsend].
    rewrite run_bind, Hsend.
    destruct (IH j (snd (sendTo sub msg ps))) as (n & i' & ps' & Hrun & Hb & Hs & Hw).
    exists ((if fst (sendTo sub msg ps) then n + 1 else n)), i', ps'.
    rewrite run_bind, Hrun. split_and!; [done| | |].
    + by rewrite Hb, sendTo_broker.
    + intros sub'. rewrite Hs, framesFor_cons, sendTo_lookup. cbn.
      destruct (decide (sub = sub')) as [<-|Hne]; [|done].
      destruct (subscribers ps !! sub) as [s|]; cbn; [|done]. by rewrite offer_cons.
    + rewrite Hw, sendTo_waiting. destruct (fst _); lia.
Qed.

(** Who listens under a key. *)
Definition listeners (m : registry) (key : string) : gset positive := default ∅ (m !! key).

Lemma addTo_listeners m key sub k :
  listeners (addTo m key sub) k =
    if decide (k = key) then {[sub]} ∪ listeners m key else listeners m k.
Proof.
  unfold listeners, addTo. rewrite lookup_insert.
  destruct (decide (key = k)) as [->|Hne]; [by rewrite decide_True|by rewrite decide_False].
Qed.

(** What a publication owes one subscriber: a message frame if it is on the channel,
    and a pmessage frame for each of its patterns that match. *)
Definition owedExact (channel message : string) (b : Broker) (sub : SubId) : list string :=
  if decide (sub ∈ default ∅ (channels b !! channel)) then
    [EncodePubSubMessage channel message]
  else [].

Definition owedPatterns (channel message : string) (b : Broker) (sub : SubId) : list string :=
  (fun kv => EncodePMessage kv.1 channel message) <$>
  filter (fun kv : string * gset positive => matches kv.1 channel /\ sub ∈ kv.2)
    (map_to_list (patterns b)).

Lemma framesFor_app sub ds ds' :
  framesFor sub (ds ++ ds') = framesFor sub ds ++ framesFor sub ds'.
Proof. unfold framesFor. by rewrite filter_app, fmap_app. Qed.

Lemma framesFor_perm sub ds ds' :
  ds ≡ₚ ds' -> framesFor sub ds ≡ₚ framesFor sub ds'.
Proof. intros H. unfold framesFor. by rewrite H. Qed.

Lemma framesFor_none sub l (f : SubId -> string) :
  sub ∉ l -> framesFor sub ((fun x => (x, f x)) <$> l) = [].
Proof.
  induction l as [|x l IH]; [done|]. intros [Hx Hl]%not_elem_of_cons.
  rewrite fmap_cons, framesFor_cons. cbn. rewrite decide_False by done. by apply IH.
Qed.

Lemma framesFor_nodup sub l (f : SubId -> string) :
  NoDup l ->
  framesFor sub ((fun x => (x, f x)) <$> l) = if decide (sub ∈ l) then [f sub] else [].
Proof.
  induction 1 as [|x l Hx Hl IH]; [done|].
  rewrite fmap_cons, framesFor_cons. cbn. destruct (decide (x = sub)) as [->|Hne].
  - rewrite decide_True by set_solver. by rewrite framesFor_none.
  - rewrite IH. apply decide_ext. set_solver.
Qed.

Lemma owedPatterns_cons channel message m sub :
  owedPatterns channel message m sub =
  framesFor sub ((fun ps => (ps.2, EncodePMessage ps.1 channel message)) <$>
    patternMatches channel m).
Proof.
  unfold owedPatterns, patternMatches.
  induction (map_to_list (patterns m)) as [|[p subs] l IH]; [done|].
  rewrite !filter_cons. cbn [fst snd].
  destruct (decide (matches p channel)) as [Hm|Hm].
  - rewrite fmap_cons, concat_cons, fmap_app, framesFor_app, <- IH. cbn [fst snd].
    rewrite <- list_fmap_compose. unfold compose. cbn [fst snd].
    rewrite (framesFor_nodup sub _ (fun _ => EncodePMessage p channel message))
      by apply NoDup_elements.
    rewrite (decide_ext (sub ∈ elements subs) (matches p channel /\ sub ∈ subs))
      by set_solver.
    by destruct (decide _).
  - rewrite decide_False by tauto. apply IH.
Qed.

(** What a publication does, frame by frame. *)
Lemma Publish_frames it channel message clock i ps :
  (forall l, iterSubs it l ≡ₚ l) -> (forall l, iterMatches it l ≡ₚ l) ->
  exists n i' ps', run (Publish it channel message) clock i ps = Ret (n, i', ps') /\
    broker ps' = broker ps /\
    waiting (subscribers ps') = waiting (subscribers ps) + n /\
    forall sub, exists pframes,
      pframes ≡ₚ owedPatterns channel message (broker ps) sub /\
      subscribers ps' !! sub =
        offer (owedExact channel message (broker ps) sub ++ pframes) <$> subscribers ps !! sub.
Proof.
  intros Hi1 Hi2. unfold Publish. rewrite run_bind, run_query.
  destruct (run_sendAll (deliveries it channel message (broker ps)) clock (S i) ps)
    as (n & i' & ps' & Hrun & Hb & Hs & Hw).
  exists n, i', ps'. split_and!; [done..|]. intros sub. rewrite Hs.
  unfold deliveries. rewrite framesFor_app.
  eexists. split; [|f_equal; f_equal; f_equal].
  - rewrite owedPatterns_cons. apply framesFor_perm. by rewrite Hi2.
  - rewrite (framesFor_nodup sub _ (fun _ => EncodePubSubMessage channel message)).
    + unfold owedExact. apply decide_ext. rewrite Hi1. unfold exactSnapshot. set_solver.
    + rewrite Hi1. apply NoDup_elements.
Qed.

(** The subscribers that received something between two states. *)
Definition receivers (ps ps' : PubSub) : gset SubId :=
  filter (fun sub => subscribers ps' !! sub <> subscribers ps !! sub) (dom (subscribers ps)).

(** No subscriber is owed a frame twice, once for the channel and once for a pattern or
    for two patterns. *)
Definition owedOnce (channel message : string) (b : Broker) : Prop := forall sub,
  (length (owedExact channel message b sub) +
   length (owedPatterns channel message b sub) <= 1)%nat.

(** One more frame waits for each subscriber that changed, if each that changed got one. *)
Lemma waiting_changed (f : SubId -> Subscriber -> Subscriber) (m : gmap SubId Subscriber) :
  (forall sub s, f sub s <> s -> llen (inbox (f sub s)) = llen (inbox s) + 1) ->
  waiting (map_imap (fun sub s => Some (f sub s)) m) =
    waiting m + Z.of_nat (size (filter (fun kv : SubId * Subscriber => f kv.1 kv.2 <> kv.2) m)).
Proof.
  intros Hf. induction m as [|sub s m Hm IH] using map_ind;
    [rewrite map_filter_empty, map_size_empty, map_imap_empty; lia|].
  rewrite (map_imap_insert_Some _ _ _ _ _ eq_refl). unfold waiting in *.
  rewrite !map_fold_insert_L; try (intros; lia); try done;
    [|rewrite map_lookup_imap, Hm; done].
  rewrite IH, map_filter_insert. cbn [fst snd].
  destruct (decide (f sub s <> s)) as [Hc|Hc].
  - rewrite map_size_insert_None by (rewrite map_lookup_filter_None; by left).
    rewrite (Hf _ _ Hc). lia.
  - rewrite delete_id by done. rewrite (dec_stable Hc). lia.
Qed.

Lemma offer_one msgs s :
  (length msgs <= 1)%nat -> offer msgs s <> s -> llen (inbox (offer msgs s)) = llen (inbox s) + 1.
Proof.
  destruct s as [l d], msgs as [|m [|m' ms]]; cbn [length]; [|intros _|lia].
  - by rewrite offer_nil.
  - rewrite offer_cons, offer_nil. unfold sendAlone, enqueue. cbn. destruct d; [done|]. cbn.
    destruct (llen l <? inboxSize); cbn; [|done]. intros _. by rewrite llen_app.
Qed.

(** C20: a publication, run alone, leaves the registry alone; every subscriber gets, in
    order and as far as its inbox has room, a message frame if it is on the channel and
    then one pmessage frame for each of its matching patterns (in the order Go ranges
    over them), closed subscribers get none; and where nobody is owed the message twice,
    the reply is the number of subscribers that received it. *)
Theorem Publish_correct it channel message clock i ps :
  (forall l, iterSubs it l ≡ₚ l) -> (forall l, iterMatches it l ≡ₚ l) ->
  exists n i' ps', run (Publish it channel message) clock i ps = Ret (n, i', ps') /\
    broker ps' = broker ps /\
    (forall sub, exists pframes,
      pframes ≡ₚ owedPatterns channel message (broker ps) sub /\
      subscribers ps' !! sub =
        offer (owedExact channel message (broker ps) sub ++ pframes) <$> subscribers ps !! sub) /\
    (owedOnce channel message (broker ps) -> n = Z.of_nat (size (receivers ps ps'))).
Proof.
  intros Hi1 Hi2. destruct (Publish_frames it channel message clock i ps Hi1 Hi2)
    as (n & i' & ps' & Hrun & Hb & Hw & Hs).
  exists n, i', ps'. split_and!; [done..|]. intros Honce.
  set (f := fun sub => offer (owedExact channel message (broker ps) sub ++
                              owedPatterns channel message (broker ps) sub)).
  assert (subscribers ps' = map_imap (fun sub s => Some (f sub s)) (subscribers ps)) as E.
  { apply map_eq. intros sub. rewrite map_lookup_imap. destruct (Hs sub) as (fr & Hp & ->).
    pose proof (Honce sub) as Ho. apply Permutation_length in Hp as Hl.
    assert (fr = owedPatterns channel message (broker ps) sub) as ->; [|by destruct (_ !! sub)].
    destruct (owedPatterns _ _ _ _) as [|x [|y l]]; cbn in Ho; [|by apply Permutation_length_1_inv|lia].
    by apply Permutation_nil_r. }
  rewrite E, waiting_changed in Hw; cycle 1.
  { intros sub s. apply offer_one. rewrite length_app. apply Honce. }
  replace (size (receivers ps ps')) with
    (size (filter (fun kv : SubId * Subscriber => f kv.1 kv.2 <> kv.2) (subscribers ps))); [lia|].
  rewrite <- (size_dom (D := gset SubId)). f_equal. apply set_eq. intros sub.
  unfold receivers. rewrite elem_of_filter, E, map_lookup_imap, !elem_of_dom.
  destruct (subscribers ps !! sub) as [s|] eqn:Es.
  - split.
    + intros [x [Hx Hne]%map_lookup_filter_Some]. cbn. simplify_eq. split; [|done]. cbn in Hne. congruence.
    + intros [Hne _]. cbn in Hne. exists s. apply map_lookup_filter_Some. split; [done|]. cbn. congruence.
  - split; [|by intros [_ [? ?]]]. intros [x [Hx _]%map_lookup_filter_Some]. congruence.
Qed.

Definition sampleAudience : PubSub :=
  mkPubSub (PSubscribe "n*" 3 (PSubscribe "n?ws" 2 (Subscribe "news" 1 NewBroker)))
    (<[1%positive := NewSubscriber]> (<[2%positive := NewSubscriber]>
       (<[3%positive := Close NewSubscriber]> ∅))).

Lemma sampleAudience_once : owedOnce "news" "hi" (broker sampleAudience).
Proof.
  intros sub. unfold owedExact, owedPatterns. rewrite length_fmap.
  destruct (decide (sub = 1%positive)) as [->|H1]; [vm_compute; lia|].
  destruct (decide (sub = 2%positive)) as [->|H2]; [vm_compute; lia|].
  destruct (decide (sub = 3%positive)) as [->|H3]; [vm_compute; lia|].
  assert (sub ∉ listeners (addTo ∅ "news" 1) "news") as Hc.
  { unfold listeners, addTo. rewrite lookup_insert_eq, lookup_empty. cbn. set_solver. }
  rewrite decide_False by exact Hc.
  destruct (filter _ _) as [|[pat subs] l] eqn:E; [cbn; lia|].
  assert ((pat, subs) ∈ (pat, subs) :: l) as Hin by left. rewrite <- E in Hin.
  apply list_elem_of_filter in Hin as [[_ Hs] Hin%elem_of_map_to_list]. cbn [fst snd] in Hin, Hs.
  assert (sub ∈ listeners (patterns (broker sampleAudience)) pat) as Hl.
  { unfold listeners. by rewrite Hin. }
  change (patterns (broker sampleAudience)) with (addTo (addTo ∅ "n?ws" 2) "n*" 3) in Hl.
  clear - Hl H2 H3. rewrite !addTo_listeners in Hl. unfold listeners in Hl.
  rewrite !lookup_empty in Hl. cbn [default] in Hl. repeat case_decide; set_solver.
Qed.

(** One subscriber on the channel and two with a pattern, one of them closed. *)
Lemma Publish_correct_witness :
  exists n i' ps',
    run (Publish (mkIteration id id) "news" "hi") (fun _ => zeroTime) 0 sampleAudience =
      Ret (n, i', ps') /\
    n = Z.of_nat (size (receivers sampleAudience ps')) /\ n = 2.
Proof.
  destruct (Publish_correct (mkIteration id id) "news" "hi" (fun _ => zeroTime) 0 sampleAudience)
    as (n & i' & ps' & Hrun & _ & _ & Hn); [intros l; reflexivity..|].
  exists n, i', ps'. split_and!; [exact Hrun|apply Hn, sampleAudience_once|].
  assert (match run (Publish (mkIteration id id) "news" "hi") (fun _ => zeroTime) 0 sampleAudience with
          | Ret (n, _, _) => n = 2 | _ => False end) as H2 by (vm_compute; reflexivity).
  rewrite Hrun in H2. exact H2.
Defined.

Definition samplePubSub : PubSub :=
  mkPubSub (PSubscribe "n*" 2 (PSubscribe "*" 1 (Subscribe "news" 1 NewBroker)))
    (<[1%positive := NewSubscriber]> (<[2%positive := Close NewSubscriber]> ∅)).

(** A subscriber that is on the channel and on a matching pattern is counted twice: the
    reply counts frames, not subscribers. *)
Lemma Publish_counts_frames :
  let ps := mkPubSub (PSubscribe "*" 1 (Subscribe "news" 1 NewBroker))
              (<[1%positive := NewSubscriber]> ∅) in
  exists i' ps',
    run (Publish (mkIteration id id) "news" "hi") (fun _ => zeroTime) 0 ps = Ret (2, i', ps') /\
    receivers ps ps' = {[1%positive]}.
Proof. eexists _, _. split; [vm_compute; reflexivity|]. by vm_compute. Qed.

(** ** The registry *)

(** The shape the registry keeps: no empty entries. *)
Definition no_empty (m : registry) : Prop := map_Forall (fun _ subs => subs <> ∅) m.

Lemma addTo_no_empty m key sub : no_empty m -> no_empty (addTo m key sub).
Proof. intros H. apply map_Forall_insert_2; [set_solver|done]. Qed.

Lemma removeFromMap_listeners m key sub k :
  listeners (removeFromMap m key sub) k =
    if decide (k = key) then listeners m key ∖ {[sub]} else listeners m k.
Proof.
  unfold listeners, removeFromMap. destruct (m !! key) as [subs|] eqn:E.
  - case_decide as Hsz.
    + apply size_empty_inv in Hsz. destruct (decide (k = key)) as [->|Hne].
      * rewrite lookup_delete_eq. cbn. set_solver.
      * by rewrite lookup_delete_ne.
    + destruct (decide (k = key)) as [->|Hne].
      * by rewrite lookup_insert_eq.
      * by rewrite lookup_insert_ne.
  - destruct (decide (k = key)) as [->|Hne]; [|done]. rewrite E. cbn. set_solver.
Qed.

Lemma removeFromMap_no_empty m key sub : no_empty m -> no_empty (removeFromMap m key sub).
Proof.
  intros H. unfold removeFromMap. destruct (m !! key) as [subs|]; [|done].
  case_decide as Hsz; [by apply map_Forall_delete|].
  apply map_Forall_insert_2; [|done]. intros Heq. apply Hsz, size_empty_iff. by rewrite Heq.
Qed.

Lemma removeAll_lookup m sub k :
  snd (removeSubFromAllChannels m sub) !! k =
    match m !! k with
    | Some subs =>
        if decide (sub ∈ subs) then
          if decide (size (subs ∖ {[sub]}) = 0%nat) then None else Some (subs ∖ {[sub]})
        else Some subs
    | None => None
    end.
Proof. cbn. rewrite map_lookup_imap. by destruct (m !! k). Qed.

Lemma removeAll_listeners m sub k :
  listeners (snd (removeSubFromAllChannels m sub)) k = listeners m k ∖ {[sub]}.
Proof.
  unfold listeners. rewrite removeAll_lookup. destruct (m !! k) as [subs|]; cbn; [|set_solver].
  case_decide as Hin; [|set_solver].
  case_decide as Hsz; [|done]. apply size_empty_inv in Hsz. cbn. set_solver.
Qed.

Lemma removeAll_no_empty m sub :
  no_empty m -> no_empty (snd (removeSubFromAllChannels m sub)).
Proof.
  intros H k subs' Hk. rewrite removeAll_lookup in Hk.
  destruct (m !! k) as [subs|] eqn:E; [|done].
  case_decide; [|simplify_eq; by eapply H].
  case_decide as Hsz; [done|]. injection Hk as <-. intros Heq. apply Hsz, size_empty_iff. by rewrite Heq.
Qed.

Lemma removeAll_removed m sub k :
  k ∈ fst (removeSubFromAllChannels m sub) <-> sub ∈ listeners m k.
Proof.
  cbn. unfold listeners. rewrite list_elem_of_fmap. split.
  - intros ([k' subs] & -> & [Hin Hl]%list_elem_of_filter).
    apply elem_of_map_to_list in Hl. cbn in *. by rewrite Hl.
  - destruct (m !! k) as [subs|] eqn:E; cbn; [|set_solver]. intros Hin.
    exists (k, subs). split; [done|]. apply list_elem_of_filter.
    split; [done|]. by apply elem_of_map_to_list.
Qed.

Definition broker_wf (b : Broker) : Prop := no_empty (channels b) /\ no_empty (patterns b).

(** the registry of exact channels is the relation "this subscriber listens to this
    channel": SUBSCRIBE adds one pair, UNSUBSCRIBE removes one, the removal at disconnect
    removes the subscriber everywhere and reports the channels it was on; none of them
    touches the patterns, and no entry is ever left empty. *)
Theorem registry_correct b sub channel :
  broker_wf b ->
  (forall k, listeners (channels (Subscribe channel sub b)) k =
     if decide (k = channel) then {[sub]} ∪ listeners (channels b) channel
     else listeners (channels b) k) /\
  (forall k, listeners (channels (Unsubscribe channel sub b)) k =
     if decide (k = channel) then listeners (channels b) channel ∖ {[sub]}
     else listeners (channels b) k) /\
  (forall k, listeners (channels (snd (UnsubscribeAll sub b))) k =
     listeners (channels b) k ∖ {[sub]}) /\
  (forall k, k ∈ fst (UnsubscribeAll sub b) <-> sub ∈ listeners (channels b) k) /\
  patterns (Subscribe channel sub b) = patterns b /\
  patterns (Unsubscribe channel sub b) = patterns b /\
  patterns (snd (UnsubscribeAll sub b)) = patterns b /\
  broker_wf (Subscribe channel sub b) /\ broker_wf (Unsubscribe channel sub b) /\
  broker_wf (snd (UnsubscribeAll sub b)).
Proof.
  intros [Hc Hp]. split_and!; try done.
  - intros k. apply addTo_listeners.
  - intros k. apply removeFromMap_listeners.
  - intros k. apply removeAll_listeners.
  - intros k. apply removeAll_removed.
  - split; [by apply addTo_no_empty|done].
  - split; [by apply removeFromMap_no_empty|done].
  - split; [by apply removeAll_no_empty|done].
Qed.

Lemma registry_correct_witness :
  broker_wf (Subscribe "a" 1 NewBroker) /\ broker_wf (Unsubscribe "a" 1 NewBroker) /\
  broker_wf (snd (UnsubscribeAll 1 NewBroker)).
Proof. apply (registry_correct NewBroker 1 "a"). split; apply map_Forall_empty. Defined.

(** ** Frames are RESP *)

Lemma frameBulk_Serialize s : frameBulk s = Serialize (BulkString s).
Proof. done. Qed.

(** the frames a subscriber is sent are RESP arrays: a client that reads values off
    its connection gets the message kind, the channel, the pattern and the payload back
    exactly, whatever bytes they hold, and the subscription count as an integer. *)
Theorem frames_roundtrip pattern channel payload n rest :
  len pattern <= maxAlloc -> len channel <= maxAlloc -> len payload <= maxAlloc -> int64_ok n ->
  ReadValue (EncodePubSubMessage channel payload +:+ rest) =
    Ret (Array [BulkString "message"; BulkString channel; BulkString payload], rest) /\
  ReadValue (EncodePMessage pattern channel payload +:+ rest) =
    Ret (Array [BulkString "pmessage"; BulkString pattern; BulkString channel;
                BulkString payload], rest) /\
  ReadValue (EncodeSubscribeAck channel n +:+ rest) =
    Ret (Array [BulkString "subscribe"; BulkString channel; Integer n], rest) /\
  ReadValue (EncodeUnsubscribeAck channel n +:+ rest) =
    Ret (Array [BulkString "unsubscribe"; BulkString channel; Integer n], rest) /\
  ReadValue (EncodePSubscribeAck pattern n +:+ rest) =
    Ret (Array [BulkString "psubscribe"; BulkString pattern; Integer n], rest) /\
  ReadValue (EncodePUnsubscribeAck pattern n +:+ rest) =
    Ret (Array [BulkString "punsubscribe"; BulkString pattern; Integer n], rest).
Proof.
  intros Hp Hc Hm Hn.
  assert (forall l r, r = Serialize (Array l) -> wire_ok (Array l) ->
            ReadValue (r +:+ rest) = Ret (Array l, rest)) as H.
  { intros l r -> Hok. by apply ReadValue_Serialize. }
  split_and!; apply H; try (cbn [Serialize List.map sconcat Array length Z.of_nat];
    rewrite sapp_nil_r; reflexivity).
  all: cbn; split_and!; try done.
Qed.

Lemma frames_roundtrip_witness :
  ReadValue (EncodePMessage "n*" "news" CRLF +:+ "x") =
    Ret (Array [BulkString "pmessage"; BulkString "n*"; BulkString "news"; BulkString CRLF], "x").
Proof. apply (frames_roundtrip "n*" "news" CRLF 1 "x"); by vm_compute. Defined.
