(* ===== verification/Delivery.v ===== *)
(** * The write loop of a subscribed connection (internal/server/handler.go, [writeLoop])

    Once a client has subscribed, a goroutine of its own takes frames from the
    subscriber's inbox and writes them to the connection, until the subscriber is closed;
    then it empties the inbox and returns.  Publishers send at the same time, and the
    connection's handler closes the subscriber at some point.  The steps below are theirs
    in any order: the two steps of a send, the receive of one frame with its write, the
    choice of the [select]. *)

From S2P Require Import Prelude GoLib PubSub.

(** Where the loop is: in the outer [select], in the draining loop, returned, or returned
    after a write error. *)
Inductive writerAt : Type := Selecting | Draining | Returned | Broken.

#[export] Instance writerAt_eq_dec : EqDecision writerAt.
Proof. solve_decision. Defined.

(** [wire] is the list of the frames that were written to the connection in full. *)
Record delivery : Type := mkDelivery {
  mailbox : Subscriber;
  wire : list string;
  writer : writerAt
}.

Definition started : delivery := mkDelivery NewSubscriber [] Selecting.

(** The loop has ended and nobody reads the inbox any more. *)
Definition ended (at_ : writerAt) : bool :=
  match at_ with Selecting | Draining => false | Returned | Broken => true end.

Section WriteLoop.

(** Whether writes to the connection can fail. *)
Context (faulty : bool).

(** One step of the loop.  When the inbox has a frame and the subscriber is closed, Go's
    [select] may take either branch. *)
Inductive writeLoop : delivery -> delivery -> Prop :=
| write_frame mb mb' out m :
    Receive mb = (Some m, mb') ->
    writeLoop (mkDelivery mb out Selecting) (mkDelivery mb' (out ++ [m]) Selecting)
| write_error mb mb' out m :
    faulty = true -> Receive mb = (Some m, mb') ->
    writeLoop (mkDelivery mb out Selecting) (mkDelivery mb' out Broken)
| see_done mb out :
    done mb = true ->
    writeLoop (mkDelivery mb out Selecting) (mkDelivery mb out Draining)
| drain_frame mb mb' out m :
    Receive mb = (Some m, mb') ->
    writeLoop (mkDelivery mb out Draining) (mkDelivery mb' (out ++ [m]) Draining)
| drain_error mb mb' out m :
    faulty = true -> Receive mb = (Some m, mb') ->
    writeLoop (mkDelivery mb out Draining) (mkDelivery mb' out Draining)
| drain_end mb mb' out :
    Receive mb = (None, mb') ->
    writeLoop (mkDelivery mb out Draining) (mkDelivery mb' out Returned).

(** What the sends did so far: the frames of those that are between their two steps, the
    frames accepted while the loop was there to take them, the ones accepted after it
    ended, and how many sends were between their steps when the subscriber was closed. *)
Record sends : Type := mkSends {
  inflight : list string;
  accepted : list string;
  late : list string;
  racing : nat
}.

Definition noSends : sends := mkSends [] [] [] 0.

(** An enqueued frame is in time or late. *)
Definition account (m : string) (tooLate : bool) (rest : list string) (x : sends) : sends :=
  if tooLate then mkSends rest (accepted x) (late x ++ [m]) (racing x)
  else mkSends rest (accepted x ++ [m]) (late x) (racing x).

(** The states that can be reached: a send passes its first [select] while the subscriber
    is open and enqueues at some later point; the subscriber is closed; the loop goes on. *)
Inductive delivering : sends -> delivery -> Prop :=
| at_start : delivering noSends started
| send_checked x d m :
    delivering x d -> done (mailbox d) = false ->
    delivering (mkSends (m :: inflight x) (accepted x) (late x) (racing x)) d
| send_queued x d l1 m l2 mb' :
    delivering x d -> inflight x = l1 ++ m :: l2 -> enqueue m (mailbox d) = (true, mb') ->
    delivering (account m (ended (writer d)) (l1 ++ l2) x) (mkDelivery mb' (wire d) (writer d))
| send_dropped x d l1 m l2 mb' :
    delivering x d -> inflight x = l1 ++ m :: l2 -> enqueue m (mailbox d) = (false, mb') ->
    delivering (mkSends (l1 ++ l2) (accepted x) (late x) (racing x))
      (mkDelivery mb' (wire d) (writer d))
| closed x d :
    delivering x d -> done (mailbox d) = false ->
    delivering (mkSends (inflight x) (accepted x) (late x) (length (inflight x)))
      (mkDelivery (Close (mailbox d)) (wire d) (writer d))
| wrote x d d' : delivering x d -> writeLoop d d' -> delivering x d'.

Lemma Receive_cases mb :
  (inbox mb = [] /\ Receive mb = (None, mb)) \/
  exists m ms, inbox mb = m :: ms /\ Receive mb = (Some m, mkSubscriber ms (done mb)).
Proof. unfold Receive. destruct (inbox mb) as [|m ms]; [by left|right; eauto]. Qed.

Lemma Receive_Some mb m mb' :
  Receive mb = (Some m, mb') -> inbox mb = m :: inbox mb' /\ done mb' = done mb.
Proof.
  destruct (Receive_cases mb) as [[_ ->]|(m' & ms & E & ->)]; [done|]. by intros [= <- <-].
Qed.

Lemma Receive_None mb mb' : Receive mb = (None, mb') -> inbox mb = [] /\ mb' = mb.
Proof.
  destruct (Receive_cases mb) as [[E ->]|(m' & ms & E & ->)]; [|done]. by intros [= <-].
Qed.

Lemma enqueue_true m s s' :
  enqueue m s = (true, s') ->
  s' = mkSubscriber (inbox s ++ [m]) (done s) /\ llen (inbox s) < inboxSize.
Proof.
  unfold enqueue. destruct (llen (inbox s) <? inboxSize) eqn:El; [|done].
  intros [= <-]. split; [done|lia].
Qed.

Lemma enqueue_false m s s' : enqueue m s = (false, s') -> s' = s.
Proof. unfold enqueue. destruct (llen (inbox s) <? inboxSize); [done|]. by intros [= <-]. Qed.

(** ** Nothing is repeated or reordered, and without write errors nothing is lost *)

(** [rest] are the accepted frames that still wait for the loop. *)
Record delivery_inv (rest : list string) (x : sends) (d : delivery) : Prop := {
  inv_inbox : inbox (mailbox d) = rest ++ late x;
  inv_order : wire d ++ rest `sublist_of` accepted x;
  inv_all : faulty = false -> wire d ++ rest = accepted x;
  inv_room : llen (inbox (mailbox d)) <= inboxSize;
  inv_late : ended (writer d) = false -> late x = [];
  inv_done : writer d = Draining \/ writer d = Returned -> done (mailbox d) = true;
  inv_empty : writer d = Returned -> rest = [];
  inv_sound : faulty = false -> writer d <> Broken;
  inv_racing : done (mailbox d) = true -> writer d <> Broken ->
    (length (late x) + length (inflight x) <= racing x)%nat
}.

(** A frame that was taken and written, or lost to an error. *)
Lemma take_inv rest x mb mb' out m at1 at2 :
  delivery_inv rest x (mkDelivery mb out at1) -> Receive mb = (Some m, mb') ->
  ended at1 = false -> at2 <> Returned -> (at2 = Draining -> at1 = Draining) ->
  (at2 <> Broken -> exists rest', delivery_inv rest' x (mkDelivery mb' (out ++ [m]) at2)) /\
  (faulty = true -> exists rest', delivery_inv rest' x (mkDelivery mb' out at2)).
Proof.
  intros [Hi Ho Ha Hr Hl Hd He Hb Hc] [Hm Hdone]%Receive_Some Hat1 Hret Hat. cbn in *.
  rewrite (Hl Hat1), app_nil_r in Hi. rewrite Hm in *. subst rest.
  change (llen (m :: inbox mb')) with (Z.of_nat (S (length (inbox mb')))) in Hr.
  assert (llen (inbox mb') <= inboxSize) as Hr' by (unfold llen; lia).
  assert (at2 = Draining \/ at2 = Returned -> done mb' = true) as Hd'.
  { rewrite Hdone. intros [E|E]; [apply Hd; left; auto|done]. }
  assert (inbox mb' = inbox mb' ++ late x) as Hi' by (by rewrite (Hl Hat1), app_nil_r).
  assert (done mb' = true -> at2 <> Broken ->
    (length (late x) + length (inflight x) <= racing x)%nat) as Hc'.
  { rewrite Hdone. intros Hdn _. apply Hc; [done|]. by destruct at1. }
  split.
  - intros Hnb. exists (inbox mb'). constructor; cbn; try done; try by rewrite <- app_assoc.
    by intros _; apply Hl.
  - intros Hf. exists (inbox mb'). constructor; cbn; try congruence; try done; [|by intros _; apply Hl].
    etransitivity; [|exact Ho]. apply sublist_app; [done|]. by apply sublist_cons.
Qed.

Lemma writeLoop_inv rest x d d' :
  delivery_inv rest x d -> writeLoop d d' -> exists rest', delivery_inv rest' x d'.
Proof.
  intros H Hst. destruct Hst as [mb mb' out m E|mb mb' out m Hf E|mb out Hd|mb mb' out m E
                                |mb mb' out m Hf E|mb mb' out E].
  - by apply (take_inv rest x mb mb' out m Selecting Selecting).
  - by apply (take_inv rest x mb mb' out m Selecting Broken).
  - exists rest. destruct H as [Hi Ho Ha Hr Hl _ _ _ Hc]. constructor; cbn in *; auto; done.
  - by apply (take_inv rest x mb mb' out m Draining Draining).
  - by apply (take_inv rest x mb mb' out m Draining Draining).
  - exists rest. apply Receive_None in E as [E ->]. destruct H as [Hi Ho Ha Hr Hl Hd _ _ Hc].
    cbn in *. rewrite E in Hi. symmetry in Hi. apply app_eq_nil in Hi as [-> El].
    constructor; cbn; auto; try done. by rewrite E, El.
Qed.

(** An enqueue, in time or late. *)
Lemma enqueue_inv rest x d l1 m l2 mb' :
  delivery_inv rest x d -> inflight x = l1 ++ m :: l2 -> enqueue m (mailbox d) = (true, mb') ->
  exists rest', delivery_inv rest' (account m (ended (writer d)) (l1 ++ l2) x)
                  (mkDelivery mb' (wire d) (writer d)).
Proof.
  intros [Hi Ho Ha Hr Hl Hd He Hb Hc] Hf [-> Hroom]%enqueue_true.
  assert (llen (inbox (mailbox d) ++ [m]) <= inboxSize) as Hr'.
  { rewrite llen_app. change (llen [m]) with 1. lia. }
  rewrite Hf in Hc. rewrite length_app in Hc. cbn in Hc. unfold account.
  destruct (ended (writer d)) eqn:Ee.
  - exists rest. constructor; cbn; auto; try congruence.
    + by rewrite Hi, app_assoc.
    + intros Hdn Hnb. rewrite !length_app. cbn. specialize (Hc Hdn Hnb). lia.
  - exists (rest ++ [m]). rewrite (Hl eq_refl), app_nil_r in Hi. constructor; cbn; auto; try congruence.
    + by rewrite Hi, (Hl eq_refl), app_nil_r.
    + rewrite app_assoc. by apply sublist_app.
    + intros Hfl. by rewrite app_assoc, Ha.
    + intros Hw. by rewrite Hw in Ee.
    + intros Hdn Hnb. rewrite !length_app. specialize (Hc Hdn Hnb). lia.
Qed.

Lemma delivering_inv x d : delivering x d -> exists rest, delivery_inv rest x d.
Proof.
  induction 1 as [|x d m _ [rest IH] Hd|x d l1 m l2 mb' _ [rest IH] Hf Hs
                 |x d l1 m l2 mb' _ [rest IH] Hf Hs|x d _ [rest IH] Hd|x d d' _ [rest IH] Hst].
  - exists []. constructor; cbn; try done; intros [E|E]; done.
  - exists rest. destruct IH as [Hi Ho Ha Hr Hl Hdn He Hb Hc].
    constructor; cbn; auto. congruence.
  - by eapply enqueue_inv.
  - exists rest. apply enqueue_false in Hs as ->.
    destruct IH as [Hi Ho Ha Hr Hl Hdn He Hb Hc]. constructor; cbn; auto.
    rewrite Hf, length_app in Hc. cbn in Hc. intros Hd Hnb. specialize (Hc Hd Hnb).
    rewrite length_app. lia.
  - exists rest. destruct IH as [Hi Ho Ha Hr Hl Hdn He Hb Hc]. constructor; cbn; auto.
    intros _ Hnb. rewrite Hl; [cbn; lia|]. destruct (writer d); try done.
    by rewrite Hdn in Hd by (by right).
  - by eapply writeLoop_inv.
Qed.

(** ** The loop returns *)

Definition pendingSteps (d : delivery) : Z :=
  llen (inbox (mailbox d)) +
  match writer d with Selecting => 2 | Draining => 1 | Returned | Broken => 0 end.

Lemma writeLoop_decreases d d' : writeLoop d d' -> 0 <= pendingSteps d' < pendingSteps d.
Proof.
  unfold pendingSteps. intros Hst.
  destruct Hst as [mb mb' out m E|mb mb' out m Hf E|mb out Hd|mb mb' out m E
                  |mb mb' out m Hf E|mb mb' out E]; cbn -[llen];
    first [apply Receive_Some in E as [-> _]|apply Receive_None in E as [E ->]|idtac];
    unfold llen; cbn [length]; lia.
Qed.

Lemma writeLoop_enabled d :
  done (mailbox d) = true -> writer d = Selecting \/ writer d = Draining ->
  exists d', writeLoop d d' /\ done (mailbox d') = true.
Proof.
  destruct d as [mb out at_]. cbn. intros Hd [-> | ->]; [eexists; split; [by apply see_done|done]|].
  destruct (Receive_cases mb) as [[E HR]|(m & ms & E & HR)]; eexists.
  - split; [by eapply drain_end|done].
  - split; [by eapply drain_frame|done].
Qed.

(** C21: delivery.  Whatever publishers, the handler and the write loop do in any order,
    the frames on the wire are among those accepted while the loop was there, in the order
    they were accepted and none twice; the inbox never holds more than its 256 frames;
    without write errors what was accepted is on the wire or still in the inbox, and when
    the loop has returned the wire holds every frame accepted until then; what is left
    in the inbox was accepted later, by sends that had passed their check of [done] when
    the subscriber was closed: at most one frame for each of them.  Once the subscriber is
    closed the loop can always go on until it has returned, each of its steps bringing it
    closer: it takes at most two steps more than there are frames in the inbox. *)
Theorem delivery_correct x d :
  delivering x d ->
  wire d `sublist_of` accepted x /\
  llen (inbox (mailbox d)) <= inboxSize /\
  (faulty = false -> wire d ++ inbox (mailbox d) = accepted x ++ late x) /\
  (faulty = false -> writer d = Returned -> wire d = accepted x /\ inbox (mailbox d) = late x) /\
  (writer d <> Broken -> done (mailbox d) = true ->
     (length (late x) + length (inflight x) <= racing x)%nat) /\
  (done (mailbox d) = true -> ended (writer d) = false ->
     exists d', writeLoop d d' /\ done (mailbox d') = true) /\
  (forall d', writeLoop d d' -> 0 <= pendingSteps d' < pendingSteps d).
Proof.
  intros Hd. apply delivering_inv in Hd as [rest [Hi Ho Ha Hr Hl Hdn He Hb Hc]]. split_and!.
  - etransitivity; [|exact Ho]. by apply sublist_inserts_r.
  - done.
  - intros Hf. by rewrite Hi, app_assoc, Ha.
  - intros Hf Hw. rewrite (He Hw) in *. rewrite app_nil_r in Ha. auto.
  - auto.
  - intros Hclosed Hend. apply writeLoop_enabled; [done|].
    destruct (writer d); [by left|by right|done|done].
  - apply writeLoop_decreases.
Qed.

End WriteLoop.

(** Two sends have passed their check; one enqueues, the subscriber is closed, the loop
    drains and returns; then the other one enqueues. *)
Lemma racing_send m m' :
  delivering false (mkSends [] [m] [m'] 1)
    (mkDelivery (mkSubscriber [m'] true) [m] Returned).
Proof.
  pose proof (send_checked _ _ _ m (send_checked _ _ _ m' (at_start false) eq_refl) eq_refl) as H.
  eapply (send_queued _ _ _ [] m [m']) in H; [|done..].
  apply closed in H; [|done]. eapply wrote in H; [|by apply see_done].
  eapply wrote in H; [|by eapply drain_frame]. eapply wrote in H; [|by eapply drain_end].
  eapply (send_queued _ _ _ [] m' []) in H; [|done..]. exact H.
Qed.

Lemma delivery_correct_witness :
  exists x d, delivering false x d /\ writer d = Returned /\
    wire d = accepted x /\ accepted x = ["hello"] /\ inbox (mailbox d) = late x.
Proof.
  exists (mkSends [] ["hello"] ["late"] 1), (mkDelivery (mkSubscriber ["late"] true) ["hello"] Returned).
  pose proof (racing_send "hello" "late") as H.
  destruct (delivery_correct false _ _ H) as (_ & _ & _ & Hw & _).
  destruct (Hw eq_refl eq_refl) as [H1 H2]. auto.
Defined.

(** Send has answered [true] for a frame that is never written, though no write fails. *)
Lemma accepted_frame_lost : exists x d,
  delivering false x d /\ late x = ["late"] /\ ended (writer d) = true /\ ("late" ∉ wire d) /\
  forall d', ~ writeLoop false d d'.
Proof.
  eexists _, _. split; [apply (racing_send "hello" "late")|]. split_and!; [done..|set_solver|].
  intros d' H. inversion H.
Qed.
