(* ===== verification/Router.v ===== *)
(** * The router (internal/commands: router.go, pubsub.go)

    The registry of handlers, [Dispatch] and the translation of a command that
    succeeded into records of the append-only file.  The log is seen through the
    interface [Appender], as in router.go; the theorems about it hold for every
    implementation that keeps its promise. *)

From S2P Require Import Prelude GoLib Floats Protocol Glob Store Lists Sets Hashes ZSets Scan Cmd.
From S2P Require Import StringCmds DataCmds ZSetCmds ServerCmds PubSub.
Open Scope cmd_scope.

(** ** Interfaces *)

(** What the router relies on: [Append args] adds one record, [args], to the records
    the log holds.  (Append also returns an error, which the router drops.) *)
Class Appender (L : Type) : Type := {
  Append : list string -> L -> L;
  holds : L -> list (list string) -> Prop;
  Append_holds : forall l recs args, holds l recs -> holds (Append args l) (recs ++ [args])
}.

(** The shared state: the store, the broker with its subscribers, and the log. *)
Record World (L : Type) : Type := mkWorld {
  wStore : MemoryStore;
  wPubSub : PubSub;
  wLog : L
}.
Arguments mkWorld {L} wStore wPubSub wLog.
Arguments wStore {L} w.
Arguments wPubSub {L} w.
Arguments wLog {L} w.

(** What the handlers take from outside the program: the facts INFO reports, the
    random source, and the order in which Go ranges over a map. *)
Record environment : Type := mkEnvironment {
  runtime : runtimeInfo;
  shuffle : list string -> list string;
  intN : nat -> Z -> Z;
  mapOrder : iteration
}.

(** The fields of a router other than the store: [aof == nil], [pub == nil]. *)
Record Router : Type := mkRouter {
  hasAof : bool;
  hasPub : bool;
  env : environment
}.

(** [NewRouter(store, aof, pub)]: the registry is [register] below. *)
Definition NewRouter {A : Type} (aof : option A) (pub : bool) (e : environment) : Router :=
  mkRouter (match aof with Some _ => true | None => false end) pub e.

Section Router.

Context {L : Type} `{Appender L}.

Abbreviation HandlerFunc := (list string -> cmd (World L) Response) (only parsing).

Definition onStore {A} (c : cmd MemoryStore A) : cmd (World L) A :=
  zoom wStore (fun s w => mkWorld s (wPubSub w) (wLog w)) c.

Definition onPubSub {A} (c : cmd PubSub A) : cmd (World L) A :=
  zoom wPubSub (fun p w => mkWorld (wStore w) p (wLog w)) c.

(** [_ = r.aof.Append(args)] *)
Definition aofAppend (args : list string) : cmd (World L) unit :=
  update (fun _ w => mkWorld (wStore w) (wPubSub w) (Append args (wLog w))).

(** ** pubsub.go *)

Definition makePublishHandler (r : Router) : HandlerFunc := fun args =>
  if decide (length args <> 3%nat) then
    Done (Error "ERR wrong number of arguments for 'publish' command")
  else if negb (hasPub r) then Done (Integer 0)
  else
    let* count := onPubSub (Publish (mapOrder (env r)) (arg args 1) (arg args 2)) in
    Done (Integer count).

(** ** The registry *)

(** The handlers that only use the store. *)
Definition storeHandlers (e : environment) : list (string * (list string -> handler)) :=
  [("PING", handlePing); ("COMMAND", handleCommand);
   ("SET", handleSet); ("GET", handleGet); ("GETEX", handleGetEX); ("DEL", handleDel);
   ("EXISTS", handleExists); ("KEYS", handleKeys); ("SETNX", handleSetNX);
   ("SETEX", handleSetEX); ("PSETEX", handlePSetEX); ("MSET", handleMSet);
   ("MGET", handleMGet); ("GETSET", handleGetSet); ("GETDEL", handleGetDel);
   ("APPEND", handleAppend); ("STRLEN", handleStrLen);
   ("EXPIRE", handleExpire); ("PEXPIRE", handlePExpire); ("EXPIREAT", handleExpireAt);
   ("PEXPIREAT", handlePExpireAt); ("TTL", handleTTL); ("PTTL", handlePTTL);
   ("PERSIST", handlePersist);
   ("INCR", handleIncr); ("INCRBY", handleIncrBy); ("INCRBYFLOAT", handleIncrByFloat);
   ("DECR", handleDecr); ("DECRBY", handleDecrBy);
   ("HSET", handleHSet); ("HMSET", handleHSet); ("HGET", handleHGet); ("HDEL", handleHDel);
   ("HGETALL", handleHGetAll); ("HMGET", handleHMGet); ("HLEN", handleHLen);
   ("HEXISTS", handleHExists); ("HKEYS", handleHKeys); ("HVALS", handleHVals);
   ("HINCRBY", handleHIncrBy); ("HINCRBYFLOAT", handleHIncrByFloat);
   ("LPUSH", handleLPush); ("RPUSH", handleRPush); ("LPUSHX", handleLPushX);
   ("RPUSHX", handleRPushX); ("LPOP", handleLPop); ("RPOP", handleRPop);
   ("LLEN", handleLLen); ("LRANGE", handleLRange); ("LINDEX", handleLIndex);
   ("LSET", handleLSet); ("LINSERT", handleLInsert); ("LREM", handleLRem);
   ("LTRIM", handleLTrim); ("LMOVE", handleLMove); ("RPOPLPUSH", handleRPopLPush);
   ("LPOS", handleLPos);
   ("SADD", handleSAdd); ("SREM", handleSRem); ("SMEMBERS", handleSMembers);
   ("SCARD", handleSCard); ("SISMEMBER", handleSIsMember); ("SMISMEMBER", handleSMIsMember);
   ("SINTER", handleSInter); ("SUNION", handleSUnion); ("SDIFF", handleSDiff);
   ("SINTERSTORE", handleSInterStore); ("SUNIONSTORE", handleSUnionStore);
   ("SDIFFSTORE", handleSDiffStore);
   ("SRANDMEMBER", handleSRandMember (shuffle e) (intN e));
   ("SPOP", handleSPop (shuffle e)); ("SMOVE", handleSMove);
   ("ZADD", handleZAdd); ("ZREM", handleZRem); ("ZSCORE", handleZScore);
   ("ZCARD", handleZCard); ("ZRANK", handleZRank); ("ZREVRANK", handleZRevRank);
   ("ZINCRBY", handleZIncrBy); ("ZRANGE", handleZRange); ("ZREVRANGE", handleZRevRange);
   ("ZRANGEBYSCORE", handleZRangeByScore); ("ZREVRANGEBYSCORE", handleZRevRangeByScore);
   ("ZRANGEBYLEX", handleZRangeByLex); ("ZREVRANGEBYLEX", handleZRevRangeByLex);
   ("ZCOUNT", handleZCount); ("ZLEXCOUNT", handleZLexCount);
   ("ZPOPMIN", handleZPopMin); ("ZPOPMAX", handleZPopMax);
   ("ZUNIONSTORE", handleZUnionStore); ("ZINTERSTORE", handleZInterStore);
   ("SCAN", handleScan); ("HSCAN", handleHScan); ("SSCAN", handleSScan); ("ZSCAN", handleZScan);
   ("INFO", handleInfo (runtime e)); ("DBSIZE", handleDBSize); ("TYPE", handleType);
   ("RENAME", handleRename); ("FLUSHDB", handleFlushDB); ("FLUSHALL", handleFlushAll);
   ("SELECT", handleSelect); ("OBJECT", handleObject); ("CLIENT", handleClient)].

(** [fn, ok := r.handlers[name]] *)
Fixpoint lookupHandler {A} (name : string) (table : list (string * A)) : option A :=
  match table with
  | [] => None
  | (n, h) :: table' => if String.eqb n name then Some h else lookupHandler name table'
  end.

Definition register (r : Router) (name : string) : option HandlerFunc :=
  if String.eqb name "PUBLISH" then Some (makePublishHandler r)
  else match lookupHandler name (storeHandlers (env r)) with
       | Some h => Some (fun args => onStore (h args))
       | None => None
       end.

(** [r.store.Version(key)] *)
Definition KeyVersion (key : string) : cmd (World L) Z := onStore (query (fun _ => Version key)).

(** ** The append-only file *)

Definition verbatim : list string :=
  ["SET"; "DEL"; "MSET"; "HSET"; "HMSET"; "HDEL"; "FLUSHDB"; "FLUSHALL"; "PERSIST"; "APPEND";
   "LPUSH"; "RPUSH"; "LPUSHX"; "RPUSHX"; "LSET"; "LINSERT"; "LTRIM";
   "SADD"; "SREM"; "SINTERSTORE"; "SUNIONSTORE"; "SDIFFSTORE"; "SMOVE";
   "ZADD"; "ZREM"; "ZINCRBY"; "ZUNIONSTORE"; "ZINTERSTORE"].

Definition oneOf (name : string) (l : list string) : bool := existsb (String.eqb name) l.

Definition RType_eqb (a b : RType) : bool := bool_decide (a = b).

(** [absMs := time.Now().UnixMilli() + n*unit] and the PEXPIREAT record. *)
Definition appendDeadline (key n : string) (unit_ : Z) : cmd (World L) unit :=
  match ParseInt n with
  | Some v =>
      let* now := clockNow in
      aofAppend ["PEXPIREAT"; key; FormatInt (wrap64 (UnixMilli now + wrap64 (v * unit_)))]
  | None => Done tt
  end.

Definition appendRename (src dst : string) : cmd (World L) unit :=
  let* t := onStore (query (fun now => Type_ now dst)) in
  let* _ :=
    (if String.eqb t "string" then
       let* v := onStore (query (fun now => Get now dst)) in
       match v with Some val => aofAppend ["SET"; dst; val] | None => Done tt end
     else if String.eqb t "hash" then
       let* all := onStore (query (fun now => HGetAll now dst)) in
       let all := default ∅ all in
       if decide (0 < size all)%nat then
         aofAppend ("HSET" :: dst :: concat ((fun kv => [kv.1; kv.2]) <$> map_to_list all))
       else Done tt
     else Done tt) in
  aofAppend ["DEL"; src].

Definition appendToAOF (name : string) (args : list string) (resp : Response)
    : cmd (World L) unit :=
  let is1 := rInteger resp =? 1 in
  let arity n := bool_decide (length args = n) in
  let when (b : bool) (c : cmd (World L) unit) := if b then c else Done tt in
  let key := arg args 1 in
  if oneOf name verbatim then aofAppend args
  else if String.eqb name "SETNX" then when is1 (aofAppend ["SET"; key; arg args 2])
  else if String.eqb name "GETSET" then aofAppend ["SET"; key; arg args 2]
  else if String.eqb name "GETDEL" then
    when (negb (RType_eqb (rType resp) TypeNullBulkString)) (aofAppend ["DEL"; key])
  else if oneOf name ["LPOP"; "RPOP"] then
    when (negb (RType_eqb (rType resp) TypeNullBulkString) &&
          negb (RType_eqb (rType resp) TypeNullArray)) (aofAppend args)
  else if oneOf name ["LMOVE"; "RPOPLPUSH"] then
    when (negb (RType_eqb (rType resp) TypeNullBulkString)) (aofAppend args)
  else if String.eqb name "LREM" then when (0 <? rInteger resp) (aofAppend args)
  else if String.eqb name "SPOP" then
    when (negb (RType_eqb (rType resp) TypeNullBulkString)) (aofAppend args)
  else if oneOf name ["ZPOPMIN"; "ZPOPMAX"] then
    when (0 <? llen (rArray resp)) (aofAppend args)
  else if String.eqb name "SETEX" then
    when (arity 4%nat)
      (let* _ := aofAppend ["SET"; key; arg args 3] in appendDeadline key (arg args 2) 1000)
  else if String.eqb name "PSETEX" then
    when (arity 4%nat)
      (let* _ := aofAppend ["SET"; key; arg args 3] in appendDeadline key (arg args 2) 1)
  else if String.eqb name "EXPIRE" then
    when (is1 && arity 3%nat) (appendDeadline key (arg args 2) 1000)
  else if String.eqb name "PEXPIRE" then
    when (is1 && arity 3%nat) (appendDeadline key (arg args 2) 1)
  else if String.eqb name "EXPIREAT" then
    when (is1 && arity 3%nat)
      (match ParseInt (arg args 2) with
       | Some secs => aofAppend ["PEXPIREAT"; key; FormatInt (wrap64 (secs * 1000))]
       | None => Done tt
       end)
  else if String.eqb name "PEXPIREAT" then when (is1 && arity 3%nat) (aofAppend args)
  else if oneOf name ["INCR"; "INCRBY"; "DECR"; "DECRBY"] then
    aofAppend ["SET"; key; FormatInt (rInteger resp)]
  else if String.eqb name "INCRBYFLOAT" then aofAppend ["SET"; key; rStr resp]
  else if String.eqb name "HINCRBY" then
    when (arity 4%nat) (aofAppend ["HSET"; key; arg args 2; FormatInt (rInteger resp)])
  else if String.eqb name "HINCRBYFLOAT" then
    when (arity 4%nat) (aofAppend ["HSET"; key; arg args 2; rStr resp])
  else if String.eqb name "RENAME" then
    when (arity 3%nat && negb (String.eqb key (arg args 2))) (appendRename key (arg args 2))
  else Done tt.

(** ** Dispatch *)

Definition Dispatch (r : Router) (args : list string) : cmd (World L) Response :=
  match args with
  | [] => Done (Error "ERR empty command")
  | a0 :: _ =>
      let name := ToUpper a0 in
      match register r name with
      | None => Done (Error ("ERR unknown command '" +:+ a0 +:+ "'"))
      | Some fn =>
          let* resp := fn args in
          let* _ :=
            (if hasAof r && negb (RType_eqb (rType resp) TypeError)
             then appendToAOF name args resp else Done tt) in
          Done resp
      end
  end.

End Router.
