(* ===== verification/Persistence.v ===== *)
(** * Persistence (internal/persistence: aof.go, replay.go)

    The append-only file and its replay at startup.  The file is a byte string;
    what is on the disk after a power failure is told apart from what the operating
    system holds in its page cache.  The file [Aof] models the writer below it, and write
    errors of the operating system. *)

From S2P Require Import Prelude GoLib Floats Protocol Glob Store Lists Sets Hashes ZSets Scan Cmd.
From S2P Require Import StringCmds DataCmds ZSetCmds Router.
Open Scope cmd_scope.

(** ** aof.go *)

Inductive SyncPolicy : Type := SyncAlways | SyncEverySec | SyncNo.

#[export] Instance SyncPolicy_eq_dec : EqDecision SyncPolicy.
Proof. solve_decision. Defined.

(** [file] is what a reader of the file sees; [durable] what was on the disk at the
    last fsync. *)
Record AOF : Type := mkAOF {
  file : string;
  durable : string;
  policy : SyncPolicy
}.

(** [Open] keeps the contents of an existing file. *)
Definition Open (contents : string) (p : SyncPolicy) : AOF := mkAOF contents contents p.

(** [a.file.Sync()] *)
Definition Sync (a : AOF) : AOF := mkAOF (file a) (file a) (policy a).

(** The record of a command. *)
Definition encodeRecord (args : list string) : string := Serialize (command_resp args).

Definition AppendAOF (args : list string) (a : AOF) : AOF :=
  let a := mkAOF (file a +:+ encodeRecord args) (durable a) (policy a) in
  if decide (policy a = SyncAlways) then Sync a else a.

(** One tick of [syncLoop], and [Close]. *)
Definition syncTick (a : AOF) : AOF :=
  if decide (policy a = SyncEverySec) then Sync a else a.
Definition CloseAOF (a : AOF) : AOF := Sync a.

(** ** replay.go *)

Inductive applyErr : Type :=
| EmptyRecord
| BadArity
| BadNumber
| UnknownCommand.

Section Replay.

Context (shuffle : list string -> list string).

Abbreviation replayStep := (cmd MemoryStore (option applyErr)) (only parsing).

(** The result of the method is dropped. *)
Definition drop_result {A} (c : cmd MemoryStore A) : replayStep := let* _ := c in Done None.

(** [count := 1; if len(args) == 3 { if n, err := Atoi(args[2]); err == nil { count = n } }] *)
Definition optionalCount (args : list string) : Z :=
  if decide (length args = 3%nat) then default 1 (ParseInt (arg args 2)) else 1.

Definition applyStore (union : bool) (args : list string) : replayStep :=
  if decide (length args < 4)%nat then Done (Some BadArity)
  else
    match ParseInt (arg args 2) with
    | None => Done (Some BadNumber)
    | Some numkeys =>
        if (numkeys <? 1) || (llen args <? wrap64 (3 + numkeys)) then Done (Some BadNumber)
        else if llen args <? 3 + numkeys then Crash
        else
          let keys := take (Z.to_nat numkeys) (argsFrom 3 args) in
          drop_result (call (fun now =>
            if union then ZUnionStore now (arg args 1) keys [] "SUM"
            else ZInterStore now (arg args 1) keys [] "SUM"))
    end.

Definition applyZAdd (args : list string) : replayStep :=
  if decide (length args < 4)%nat then Done (Some BadArity)
  else
    let '(f, rest) := zaddOptions (argsFrom 2 args) noFlags in
    if decide (Nat.odd (length rest) = true) then Done (Some BadArity)
    else
      match zaddMembers ParseFloat (pairs rest) with
      | None => Done (Some BadNumber)
      | Some members =>
          drop_result (call (fun now =>
            ZAdd now (arg args 1) members (zNX f) (zXX f) (zGT f) (zLT f) (zCH f)))
      end.

Definition applyPExpireAt (args : list string) : replayStep :=
  if decide (length args <> 3%nat) then Done (Some BadArity)
  else
    match ParseInt (arg args 2) with
    | None => Done (Some BadNumber)
    | Some absMs =>
        let* now := clockNow in
        let remaining := Until now (TimeUnixMilli absMs) in
        if remaining <=? 0 then drop_result (call (fun now => Del now [arg args 1]))
        else drop_result (call (fun now => Expire now (arg args 1) remaining))
    end.

Definition applyAppend (args : list string) : replayStep :=
  if decide (length args <> 3%nat) then Done (Some BadArity)
  else
    let* existing := query (fun now => Get now (arg args 1)) in
    drop_result (update (fun _ => Set_ (arg args 1) (default "" existing +:+ arg args 2))).

(** LPUSHX and RPUSHX. *)
Definition applyPushX
    (push : Time -> string -> list string -> MemoryStore -> result Z * MemoryStore)
    (args : list string) : replayStep :=
  if decide (length args < 3)%nat then Done (Some BadArity)
  else
    let* t := query (fun now => Type_ now (arg args 1)) in
    if String.eqb t "list" then
      drop_result (call (fun now => push now (arg args 1) (argsFrom 2 args)))
    else Done None.

(** The checks of the arguments that open most cases of the switch. *)
Definition exactly (args : list string) (n : nat) (c : replayStep) : replayStep :=
  if decide (length args <> n) then Done (Some BadArity) else c.
Definition atLeast (args : list string) (n : nat) (c : replayStep) : replayStep :=
  if decide (length args < n)%nat then Done (Some BadArity) else c.
Definition withInt (args : list string) (i : nat) (k : Z -> replayStep) : replayStep :=
  match ParseInt (arg args i) with None => Done (Some BadNumber) | Some n => k n end.
Definition members (args : list string)
    (m : Time -> string -> list string -> MemoryStore -> result Z * MemoryStore) : replayStep :=
  atLeast args 3%nat (drop_result (call (fun now => m now (arg args 1) (argsFrom 2 args)))).

(** The cases of the switch for lists, for sets and for sorted sets; [otherwise] are the
    cases that follow. *)
Definition applyLists (name : string) (args : list string) (otherwise : replayStep) : replayStep :=
  if String.eqb name "LPUSH" then members args LPush
  else if String.eqb name "RPUSH" then members args RPush
  else if String.eqb name "LPUSHX" then applyPushX LPush args
  else if String.eqb name "RPUSHX" then applyPushX RPush args
  else if String.eqb name "LPOP" then
    atLeast args 2%nat (drop_result (callP (fun now => LPop now (arg args 1) (optionalCount args))))
  else if String.eqb name "RPOP" then
    atLeast args 2%nat (drop_result (callP (fun now => RPop now (arg args 1) (optionalCount args))))
  else if String.eqb name "LSET" then
    exactly args 4%nat (withInt args 2%nat (fun idx =>
      drop_result (call (fun now => LSet now (arg args 1) idx (arg args 3)))))
  else if String.eqb name "LINSERT" then
    exactly args 5%nat (drop_result (callP (fun now =>
      LInsert now (arg args 1) (String.eqb (ToUpper (arg args 2)) "BEFORE") (arg args 3) (arg args 4))))
  else if String.eqb name "LTRIM" then
    exactly args 4%nat (withInt args 2%nat (fun start => withInt args 3%nat (fun stop =>
      drop_result (callP (fun now => LTrim now (arg args 1) start stop)))))
  else if String.eqb name "LREM" then
    exactly args 4%nat (withInt args 2%nat (fun count =>
      drop_result (call (fun now => LRem now (arg args 1) count (arg args 3)))))
  else if String.eqb name "LMOVE" then
    exactly args 5%nat (drop_result (callP (fun now =>
      LMove now (arg args 1) (arg args 2) (String.eqb (ToUpper (arg args 3)) "LEFT")
        (String.eqb (ToUpper (arg args 4)) "LEFT"))))
  else if String.eqb name "RPOPLPUSH" then
    exactly args 3%nat (drop_result (callP (fun now => LMove now (arg args 1) (arg args 2) false true)))
  else otherwise.

Definition applySets (name : string) (args : list string) (otherwise : replayStep) : replayStep :=
  if String.eqb name "SADD" then members args SAdd
  else if String.eqb name "SREM" then members args SRem
  else if String.eqb name "SINTERSTORE" then members args SInterStore
  else if String.eqb name "SUNIONSTORE" then members args SUnionStore
  else if String.eqb name "SDIFFSTORE" then members args SDiffStore
  else if String.eqb name "SMOVE" then
    exactly args 4%nat (drop_result (call (fun now => SMove now (arg args 1) (arg args 2) (arg args 3))))
  else if String.eqb name "SPOP" then
    atLeast args 2%nat (drop_result (callP (fun now => SPop shuffle now (arg args 1) (optionalCount args))))
  else otherwise.

Definition applyZSets (name : string) (args : list string) (otherwise : replayStep) : replayStep :=
  if String.eqb name "ZADD" then applyZAdd args
  else if String.eqb name "ZREM" then members args ZRem
  else if String.eqb name "ZINCRBY" then
    exactly args 4%nat
      (match ParseFloat (arg args 2) with
       | None => Done (Some BadNumber)
       | Some incr => drop_result (call (fun now => ZIncrBy now (arg args 1) incr (arg args 3)))
       end)
  else if String.eqb name "ZUNIONSTORE" then applyStore true args
  else if String.eqb name "ZINTERSTORE" then applyStore false args
  else if String.eqb name "ZPOPMIN" then
    atLeast args 2%nat (drop_result (callP (fun now => ZPopMin now (arg args 1) (optionalCount args))))
  else if String.eqb name "ZPOPMAX" then
    atLeast args 2%nat (drop_result (callP (fun now => ZPopMax now (arg args 1) (optionalCount args))))
  else otherwise.

Definition applyCommand (args : list string) : replayStep :=
  match args with
  | [] => Done (Some EmptyRecord)
  | a0 :: _ =>
      let name := ToUpper a0 in
      let key := arg args 1 in
      if String.eqb name "SET" then
        exactly args 3%nat (drop_result (update (fun _ => Set_ key (arg args 2))))
      else if String.eqb name "DEL" then
        atLeast args 2%nat (drop_result (call (fun now => Del now (argsFrom 1 args))))
      else if String.eqb name "MSET" then
        if decide ((length args < 3)%nat \/ Nat.even (length args) = true) then
          Done (Some BadArity)
        else drop_result (msetLoop (pairs (argsFrom 1 args)))
      else if String.eqb name "APPEND" then applyAppend args
      else if String.eqb name "PEXPIREAT" then applyPExpireAt args
      else if String.eqb name "PERSIST" then
        exactly args 2%nat (drop_result (call (fun now => Persist now key)))
      else if String.eqb name "HSET" || String.eqb name "HMSET" then
        if decide ((length args < 4)%nat \/ Nat.odd (length args - 2) = true) then
          Done (Some BadArity)
        else drop_result (call (fun _ => HSet key (fieldMap (pairs (argsFrom 2 args)))))
      else if String.eqb name "HDEL" then
        atLeast args 3%nat (drop_result (call (fun now => HDel now key (argsFrom 2 args))))
      else
        applyLists name args (applySets name args (applyZSets name args
          (if String.eqb name "FLUSHDB" || String.eqb name "FLUSHALL" then
             drop_result (update (fun _ => Flush))
           else Done (Some UnknownCommand))))
  end.

Inductive replayErr : Type :=
| OpenError
| ParseError (e : perr)
| CommandError (e : applyErr).

(** What is at the path of the log: nothing ([os.ErrNotExist]), a file that can be opened, or
    one whose opening fails for another reason; with its contents. *)
Inductive aofFile : Type :=
| NotExist
| Readable (contents : string)
| Unreadable (contents : string).

(** Fuel that runs out: ruled out by [Replay_terminates]. *)
Definition noFuel {A} : cmd MemoryStore A :=
  Op Empty_set (fun _ _ => OutOfFuel) (fun x => match x with end).

(** The loop of [Replay] over what is left of the file. *)
Fixpoint replayLoop (fuel : nat) (s : string) (replayed : Z)
    : cmd MemoryStore (Z * option replayErr) :=
  match fuel with
  | O => noFuel
  | S fuel' =>
      match ReadCommand s with
      | Ret (args, rest) =>
          let* e := applyCommand args in
          match e with
          | Some e => Done (replayed, Some (CommandError e))
          | None => replayLoop fuel' rest (replayed + 1)
          end
      | Err EEof => Done (replayed, None)
      | Err e => Done (replayed, Some (ParseError e))
      | Panic => Crash
      | OutOfFuel => noFuel
      end
  end.

Definition Replay (path : aofFile) : cmd MemoryStore (Z * option replayErr) :=
  match path with
  | NotExist => Done (0, None)
  | Unreadable _ => Done (0, Some OpenError)
  | Readable s =>
      let* _ := update (fun _ => Flush) in
      replayLoop (S (String.length s)) s 0
  end.

End Replay.

(** ** The log as an [Appender] *)

Definition fileHolds (a : AOF) (recs : list (list string)) : Prop :=
  file a = sconcat (List.map encodeRecord recs).

Lemma AppendAOF_holds a recs args :
  fileHolds a recs -> fileHolds (AppendAOF args a) (recs ++ [args]).
Proof.
  unfold fileHolds, AppendAOF. intros H.
  rewrite List.map_app, sconcat_app. cbn [List.map sconcat]. rewrite sapp_nil_r, <- H.
  by case_decide.
Qed.

#[export] Instance AOF_Appender : Appender AOF :=
  {| Append := AppendAOF; holds := fileHolds; Append_holds := AppendAOF_holds |}.

(** ** Replay as a fold over the records *)

Section ReplayFacts.

Context (shuffle : list string -> list string).

(** The records one after the other; [last] is how reading ends after them. *)
Fixpoint applyAll (recs : list (list string)) (replayed : Z) (last : option replayErr)
    : cmd MemoryStore (Z * option replayErr) :=
  match recs with
  | [] => Done (replayed, last)
  | r :: recs' =>
      let* e := applyCommand shuffle r in
      match e with
      | Some e => Done (replayed, Some (CommandError e))
      | None => applyAll recs' (replayed + 1) last
      end
  end.

Definition endOf (e : perr) : option replayErr :=
  match e with EEof => None | e => Some (ParseError e) end.

Lemma encodeRecord_nonempty r : (1 <= String.length (encodeRecord r))%nat.
Proof. apply Serialize_nonempty. Qed.

(** Reading a file that holds [recs] and then a tail that is no command. *)
Lemma run_replayLoop recs tail e fuel n clock i s :
  Forall args_ok recs -> ReadCommand tail = Err e ->
  (length recs < fuel)%nat ->
  run (replayLoop shuffle fuel (sconcat (List.map encodeRecord recs) +:+ tail) n) clock i s =
  run (applyAll recs n (endOf e)) clock i s.
Proof.
  intros Hok Htail. revert fuel n i s.
  induction Hok as [|r recs Hr Hok IH]; intros fuel n i s Hf; destruct fuel as [|fuel];
    cbn [length] in Hf; try lia.
  - cbn [List.map sconcat]. change (EmptyString +:+ tail) with tail. cbn [replayLoop].
    rewrite Htail. by destruct e.
  - cbn [List.map sconcat replayLoop applyAll]. rewrite sapp_assoc. unfold encodeRecord at 1.
    rewrite ReadCommand_Serialize by done. rewrite !run_bind.
    destruct (run (applyCommand shuffle r) clock i s) as [[[o i'] s']|? | |]; [|done..].
    destruct o; [done|]. apply IH. lia.
Qed.

Lemma records_length recs tail :
  (length recs <= String.length (sconcat (List.map encodeRecord recs) +:+ tail))%nat.
Proof.
  rewrite slength_app. induction recs as [|r recs IH]; cbn [List.map sconcat length]; [lia|].
  rewrite slength_app. pose proof (encodeRecord_nonempty r). lia.
Qed.

Lemma run_Replay recs tail e clock i s :
  Forall args_ok recs -> ReadCommand tail = Err e ->
  run (Replay shuffle (Readable (sconcat (List.map encodeRecord recs) +:+ tail))) clock i s =
  run (applyAll recs 0 (endOf e)) clock (S i) NewMemoryStore.
Proof.
  intros Hok Ht. cbn [Replay]. rewrite run_bind, run_update.
  change (Flush s) with NewMemoryStore. apply run_replayLoop; [done..|].
  pose proof (records_length recs tail). lia.
Qed.

End ReplayFacts.
