(* ===== verification/Aof.v ===== *)
(** * The log writer over a file system that fails (internal/persistence/aof.go)

    [Persistence] takes the log as a file that every [Append] extends.  Here is the
    writer below it: the [bufio.Writer] with its buffer of 64 KB and its sticky error, and
    the operating system, which may refuse a write after some of its bytes and may fail to
    sync.  Without faults the writer implements [AppendAOF], [syncTick] and [CloseAOF]
    exactly.  With faults the file stays a prefix of the intended log, and once a write
    has failed nothing is ever written again. *)

From S2P Require Import Prelude GoLib Protocol Store Cmd Router Persistence.

(** ** The operating system *)

(** What the system does: how many bytes the [i]-th write system call accepts ([None]: all
    of them), and whether the [i]-th fsync succeeds. *)
Record faults : Type := mkFaults {
  accepts : nat -> option nat;
  syncs : nat -> bool
}.

Definition noFaults : faults := mkFaults (fun _ => None) (fun _ => true).

(** The system writes everything and syncs always. *)
Definition faultless (os : faults) : Prop :=
  (forall i, accepts os i = None) /\ (forall i, syncs os i = true).

(** [osFile] is what a reader of the file sees, [onDisk] what the last successful fsync
    left on the disk; [buf] and [werr] are the bytes and the error of the [bufio.Writer];
    [writeCalls] and [syncCalls] number the system calls. *)
Record writer : Type := mkWriter {
  osFile : string;
  onDisk : string;
  buf : string;
  werr : bool;
  wpolicy : SyncPolicy;
  writeCalls : nat;
  syncCalls : nat
}.

Section Writer.

Context (os : faults).

(** [file.Write(s)]: the number of bytes written, and whether there was an error, which is
    so exactly when not all were. *)
Definition osWrite (s : string) (a : writer) : nat * bool * writer :=
  let n := match accepts os (writeCalls a) with
           | None => String.length s
           | Some k => Nat.min k (String.length s)
           end in
  (n, bool_decide (n < String.length s)%nat,
   mkWriter (osFile a +:+ stake n s) (onDisk a) (buf a) (werr a) (wpolicy a)
     (S (writeCalls a)) (syncCalls a)).

(** [a.file.Sync()]: true is an error. *)
Definition osSync (a : writer) : bool * writer :=
  let ok := syncs os (syncCalls a) in
  (negb ok,
   mkWriter (osFile a) (if ok then osFile a else onDisk a) (buf a) (werr a) (wpolicy a)
     (writeCalls a) (S (syncCalls a))).

(** ** bufio.Writer *)

Definition bufSize : Z := 65536.

Definition setBuf (b : string) (e : bool) (a : writer) : writer :=
  mkWriter (osFile a) (onDisk a) b e (wpolicy a) (writeCalls a) (syncCalls a).

(** [b.Flush()] *)
Definition bufFlush (a : writer) : bool * writer :=
  if werr a then (true, a)
  else if is_empty (buf a) then (false, a)
  else
    let '(n, err, a') := osWrite (buf a) a in
    if err then (true, setBuf (sdrop n (buf a)) true a')
    else (false, setBuf EmptyString false a').

(** The loop of [b.WriteString(s)] while [s] does not fit: with an empty buffer the file
    is written directly, else the buffer is filled and flushed.  At most two rounds are needed. *)
Fixpoint writeRounds (fuel : nat) (s : string) (a : writer) : string * writer :=
  match fuel with
  | O => (s, a)
  | S fuel' =>
      let avail := bufSize - len (buf a) in
      if (len s <=? avail) || werr a then (s, a)
      else if is_empty (buf a) then
        let '(n, err, a') := osWrite s a in
        writeRounds fuel' (sdrop n s) (setBuf EmptyString err a')
      else
        let '(_, a') := bufFlush (setBuf (buf a +:+ stake (Z.to_nat avail) s) (werr a) a) in
        writeRounds fuel' (sdrop (Z.to_nat avail) s) a'
  end.

Definition bufWriteString (s : string) (a : writer) : bool * writer :=
  let '(s', a') := writeRounds 3 s a in
  if werr a' then (true, a') else (false, setBuf (buf a' +:+ s') false a').

(** ** aof.go *)

Definition OpenWriter (contents : string) (p : SyncPolicy) : writer :=
  mkWriter contents contents EmptyString false p 0 0.

(** True is an error. *)
Definition AppendWriter (args : list string) (a : writer) : bool * writer :=
  let encoded := encodeRecord args in
  let '(err, a) := bufWriteString encoded a in
  if err then (true, a)
  else
    let '(err, a) := bufFlush a in
    if err then (true, a)
    else if decide (wpolicy a = SyncAlways) then osSync a
    else (false, a).

(** [case <-ticker.C] of [syncLoop], which [Open] starts for [SyncEverySec] only. *)
Definition syncLoopTick (a : writer) : writer :=
  if decide (wpolicy a = SyncEverySec) then
    let '(_, a) := bufFlush a in
    snd (osSync a)
  else a.

(** [Close], up to the closing of the file descriptor. *)
Definition CloseWriter (a : writer) : bool * writer :=
  let '(err, a) := bufFlush a in
  if err then (true, a) else osSync a.

(** ** The file is a prefix of the intended log *)

Definition sprefix (x y : string) : Prop := exists z, y = x +:+ z.

Lemma sprefix_refl x : sprefix x x.
Proof using Type. exists EmptyString. by rewrite sapp_nil_r. Qed.

Lemma sprefix_app x y z : sprefix x y -> sprefix x (y +:+ z).
Proof using Type. intros [t ->]. exists (t +:+ z). by rewrite sapp_assoc. Qed.

Lemma sprefix_stake n x y : sprefix (x +:+ stake n y) (x +:+ y).
Proof using Type. exists (sdrop n y). by rewrite sapp_assoc, stake_sdrop. Qed.

Lemma sprefix_trans x y z : sprefix x y -> sprefix y z -> sprefix x z.
Proof using Type. intros [t ->]. intros [u ->]. exists (t +:+ u). by rewrite sapp_assoc. Qed.

(** The writer behind the log [ab]: as long as no write has failed, the file is the log and
    the buffer is empty; in any case it is a prefix of the log, and the disk has a prefix of
    the file. *)
Record follows (a : writer) (ab : AOF) : Prop := mkFollows {
  follows_policy : wpolicy a = policy ab;
  follows_ok : werr a = false -> buf a = EmptyString /\ osFile a = file ab;
  follows_prefix : sprefix (osFile a) (file ab);
  follows_disk : sprefix (onDisk a) (osFile a)
}.

(** One write of [s], directly or through the buffer: all of it, or a part and the error. *)
Inductive wrote (s : string) (a a' : writer) : Prop :=
| wrote_all :
    osFile a' = osFile a +:+ s -> onDisk a' = onDisk a -> buf a' = EmptyString ->
    werr a' = false -> wpolicy a' = wpolicy a -> syncCalls a' = syncCalls a -> wrote s a a'
| wrote_part :
    sprefix (osFile a') (osFile a +:+ s) -> sprefix (osFile a) (osFile a') ->
    onDisk a' = onDisk a -> werr a' = true -> wpolicy a' = wpolicy a -> wrote s a a'.

Lemma osWrite_wrote s a n err a' b :
  osWrite s a = (n, err, a') ->
  wrote s a (setBuf (if err then b else EmptyString) err a').
Proof using Type.
  unfold osWrite. intros [= <- <- <-]. set (n := match _ with Some _ => _ | None => _ end).
  assert (n <= String.length s)%nat by (unfold n; case_match; lia).
  case_bool_decide as Hn.
  - apply wrote_part; cbn; try done; [apply sprefix_stake|]. by exists (stake n s).
  - apply wrote_all; cbn; try done. by rewrite stake_ge by lia.
Qed.

Lemma osWrite_faultless s a n err a' :
  osWrite s a = (n, err, a') -> faultless os -> err = false.
Proof using Type.
  unfold osWrite. intros [= _ <- _] [Hw _]. rewrite Hw. apply bool_decide_eq_false. lia.
Qed.

(** [Append] on a writer that is in order. *)
Lemma append_write s a :
  buf a = EmptyString -> werr a = false -> s <> EmptyString ->
  exists err a', (let '(err, a1) := bufWriteString s a in
                  if err then (true, a1) else bufFlush a1) = (err, a') /\
    wrote s a a' /\ err = werr a' /\ (faultless os -> err = false).
Proof using Type.
  intros Hb He Hs. unfold bufWriteString. cbn [writeRounds]. rewrite Hb, He.
  change (len EmptyString) with 0. rewrite Z.sub_0_r, orb_false_r.
  destruct (len s <=? bufSize) eqn:E.
  - rewrite He. cbn [buf setBuf]. rewrite Hb. change (EmptyString +:+ s) with s.
    unfold bufFlush. cbn [werr setBuf buf]. destruct s as [|c s]; [done|]. cbn [is_empty].
    set (a0 := setBuf (String c s) false a).
    destruct (osWrite (String c s) a0) as [[n err] a1] eqn:Ew.
    pose proof (osWrite_wrote _ _ _ _ _ (sdrop n (String c s)) Ew) as Hw.
    pose proof (osWrite_faultless _ _ _ _ _ Ew) as Hfl.
    destruct err; (do 2 eexists; split; [reflexivity|]; split; [|done]); destruct Hw.
    all: first [by apply wrote_all|by apply wrote_part].
  - cbn [is_empty]. destruct (osWrite s a) as [[n err] a1] eqn:Ew.
    pose proof (osWrite_wrote _ _ _ _ _ EmptyString Ew) as Hw.
    pose proof (osWrite_faultless _ _ _ _ _ Ew) as Hfl.
    assert ((if err then EmptyString else EmptyString) = EmptyString) as Hee by by destruct err.
    rewrite Hee in Hw. unfold osWrite in Ew. injection Ew as Hn Herr <-.
    destruct err.
    + cbn [writeRounds werr setBuf]. rewrite orb_true_r. cbn [werr setBuf].
      do 2 eexists. split; [reflexivity|]. by split.
    + apply bool_decide_eq_false in Herr.
      assert (sdrop n s = EmptyString) as ->.
      { destruct (sdrop n s) eqn:Ed; [done|]. apply (f_equal String.length) in Ed.
        rewrite slength_sdrop in Ed. cbn in Ed. lia. }
      cbn. do 2 eexists. split; [reflexivity|]. by split.
Qed.

Lemma encodeRecord_ne args : encodeRecord args <> EmptyString.
Proof using Type. by destruct args. Qed.

(** [Append] writes the record and syncs when the policy says so; after an error it does
    nothing. *)
Lemma AppendWriter_broken args a : werr a = true -> AppendWriter args a = (true, a).
Proof using Type.
  intros He. unfold AppendWriter, bufWriteString. cbn [writeRounds].
  by rewrite He, orb_true_r, He.
Qed.

Lemma AppendWriter_works args a :
  werr a = false -> buf a = EmptyString ->
  exists a1, wrote (encodeRecord args) a a1 /\ (faultless os -> werr a1 = false) /\
    AppendWriter args a =
      if werr a1 then (true, a1)
      else if decide (wpolicy a1 = SyncAlways) then osSync a1 else (false, a1).
Proof using Type.
  intros He Hb. destruct (append_write (encodeRecord args) a Hb He (encodeRecord_ne args))
    as (err & a1 & Ha & Hw & -> & Hfl).
  exists a1. split; [done|]. split; [done|]. unfold AppendWriter.
  destruct (bufWriteString (encodeRecord args) a) as [[] a2].
  - injection Ha as Ha <-. by rewrite <- Ha.
  - by rewrite Ha.
Qed.

Lemma file_AppendAOF args ab : file (AppendAOF args ab) = file ab +:+ encodeRecord args.
Proof using Type. unfold AppendAOF. by case_decide. Qed.

Lemma policy_AppendAOF args ab : policy (AppendAOF args ab) = policy ab.
Proof using Type. unfold AppendAOF. by case_decide. Qed.

(** What [osSync] changes. *)
Lemma osSync_fields a :
  osFile (snd (osSync a)) = osFile a /\ buf (snd (osSync a)) = buf a /\
  werr (snd (osSync a)) = werr a /\ wpolicy (snd (osSync a)) = wpolicy a /\
  (sprefix (onDisk a) (osFile a) -> sprefix (onDisk (snd (osSync a))) (osFile a)).
Proof using Type. cbn. split_and!; try done. case_match; [intros _; apply sprefix_refl|done]. Qed.

Lemma follows_sync a ab : follows a ab -> follows (snd (osSync a)) ab.
Proof using Type.
  intros [Hp Hok Hpre Hd]. destruct (osSync_fields a) as (H1 & H2 & H3 & H4 & H5).
  split; rewrite ?H1, ?H2, ?H3, ?H4; auto.
Qed.

Lemma follows_append args a ab :
  follows a ab -> follows (snd (AppendWriter args a)) (AppendAOF args ab).
Proof using Type.
  intros [Hp Hok Hpre Hd]. destruct (werr a) eqn:He.
  - rewrite AppendWriter_broken by done. cbn [snd].
    split; rewrite ?file_AppendAOF, ?policy_AppendAOF; [done|congruence|by apply sprefix_app|done].
  - destruct Hok as [Hb Hf]; [done|].
    destruct (AppendWriter_works args a He Hb) as (a1 & Hw & _ & ->).
    assert (follows a1 (AppendAOF args ab)) as Hfo.
    { destruct Hw as [Hw1 Hw2 Hw3 Hw4 Hw5 _|Hw1 Hw2 Hw3 Hw4 Hw5]; split;
        rewrite ?file_AppendAOF, ?policy_AppendAOF, <- ?Hf.
      all: rewrite ?Hw1, ?Hw2, ?Hw3, ?Hw5; try done; try congruence.
      - apply sprefix_refl.
      - by apply sprefix_app.
      - by eapply sprefix_trans. }
    destruct (werr a1); [done|]. case_decide; [by apply follows_sync|done].
Qed.

Lemma bufFlush_idle a ab : follows a ab -> bufFlush a = (werr a, a).
Proof using Type.
  intros [_ Hok _ _]. unfold bufFlush. destruct (werr a) eqn:He; [done|].
  by destruct Hok as [-> _].
Qed.

Lemma follows_tick a ab : follows a ab -> follows (syncLoopTick a) (syncTick ab).
Proof using Type.
  intros H. unfold syncLoopTick, syncTick. rewrite (bufFlush_idle a ab H).
  pose proof (follows_policy _ _ H) as Hp. rewrite Hp. case_decide; [|done].
  apply follows_sync in H as [H1 H2 H3 H4]. by split.
Qed.

(** Once a write has failed, nothing reaches the file any more. *)
Lemma broken_stays args a :
  werr a = true -> AppendWriter args a = (true, a) /\ osFile (syncLoopTick a) = osFile a.
Proof using Type.
  intros He. split; [by apply AppendWriter_broken|]. unfold syncLoopTick, bufFlush. rewrite He.
  by case_decide.
Qed.

End Writer.

(** ** Without faults the writer is the log *)

(** The writer is in order and has synced what the log says is durable. *)
Definition implements (a : writer) (ab : AOF) : Prop :=
  follows a ab /\ werr a = false /\ onDisk a = durable ab.

Lemma implements_sync os a ab :
  faultless os -> implements a ab -> implements (snd (osSync os a)) (Sync ab) /\ fst (osSync os a) = false.
Proof.
  intros [_ Hs] (Hf & He & Hd). split; [|cbn; by rewrite Hs]. pose proof (follows_sync os _ _ Hf) as Hf'.
  destruct (follows_ok _ _ Hf He) as [_ Hfile]. split_and!; [|done|cbn; by rewrite Hs].
  destruct Hf' as [H1 H2 H3 H4]. by split.
Qed.

Lemma durable_AppendAOF args ab :
  durable (AppendAOF args ab) =
    if decide (policy ab = SyncAlways) then file ab +:+ encodeRecord args else durable ab.
Proof. unfold AppendAOF. cbn [policy]. by case_decide. Qed.

Lemma implements_append os args a ab :
  faultless os -> implements a ab ->
  implements (snd (AppendWriter os args a)) (AppendAOF args ab) /\ fst (AppendWriter os args a) = false.
Proof.
  intros Hos (Hf & He & Hd). pose proof (follows_append os args _ _ Hf) as Hf'.
  destruct (follows_ok _ _ Hf He) as [Hb Hfile].
  destruct (AppendWriter_works os args a He Hb) as (a1 & Hw & Hfl & Ha). rewrite Ha in *.
  rewrite (Hfl Hos) in *. destruct Hw as [Hw1 Hw2 _ Hw4 Hw5 _|_ _ _ Hw4 _];
    [|rewrite Hfl in Hw4; done].
  unfold implements. rewrite durable_AppendAOF, <- Hfile, <- (follows_policy _ _ Hf), <- Hw5.
  case_decide.
  - destruct Hos as [_ Hs]. split; [|cbn; by rewrite Hs]. split; [done|].
    split; [exact Hw4|]. cbn. by rewrite Hs, Hw1.
  - split; [|done]. split; [done|]. split; [done|]. cbn. congruence.
Qed.

(** C29: the log writer implements the log.  On a file system without faults, [Append], a
    tick of the sync goroutine and [Close] return no error and do to the file and to what
    is on the disk exactly what [AppendAOF], [syncTick] and [CloseAOF] say, through the
    64 KB buffer, for records of any size. *)
Theorem writer_refines os a ab :
  faultless os -> implements a ab ->
  (forall args, implements (snd (AppendWriter os args a)) (AppendAOF args ab) /\
                fst (AppendWriter os args a) = false) /\
  implements (syncLoopTick os a) (syncTick ab) /\
  (implements (snd (CloseWriter os a)) (CloseAOF ab) /\ fst (CloseWriter os a) = false).
Proof.
  intros Hos H. pose proof (implements_sync os a ab Hos H) as Hs.
  destruct H as (Hf & He & Hd). pose proof (bufFlush_idle os a ab Hf) as Hfl. split_and!.
  - intros args. by apply implements_append.
  - unfold syncLoopTick, syncTick. rewrite (follows_policy _ _ Hf). case_decide; [|done].
    rewrite Hfl. apply Hs.
  - unfold CloseWriter. rewrite Hfl, He. apply Hs.
  - unfold CloseWriter. rewrite Hfl, He. apply Hs.
Qed.

Lemma writer_refines_witness :
  implements (snd (AppendWriter noFaults ["SET"; "k"; "v"] (OpenWriter "" SyncAlways)))
    (AppendAOF ["SET"; "k"; "v"] (Open "" SyncAlways)) /\
  fst (AppendWriter noFaults ["SET"; "k"; "v"] (OpenWriter "" SyncAlways)) = false.
Proof.
  apply (writer_refines noFaults (OpenWriter "" SyncAlways) (Open "" SyncAlways)).
  - by split.
  - split; [|done]. split; try done; apply sprefix_refl.
Defined.

(** ** The writer as an [Appender] *)

(** The records a log holds that was written with errors: the file is a prefix of them. *)
Definition writerHolds (a : writer) (recs : list (list string)) : Prop :=
  exists ab, fileHolds ab recs /\ follows a ab.

Lemma AppendWriter_holds os a recs args :
  writerHolds a recs -> writerHolds (snd (AppendWriter os args a)) (recs ++ [args]).
Proof.
  intros (ab & Hh & Hf). exists (AppendAOF args ab). split; [by apply AppendAOF_holds|].
  by apply follows_append.
Qed.

Definition writer_Appender (os : faults) : Appender writer :=
  {| Append := fun args a => snd (AppendWriter os args a);
     holds := writerHolds;
     Append_holds := AppendWriter_holds os |}.

(** A disk that is full for one write: the file keeps the torn record, the later records
    are lost although there is room again, and [Append] reports errors that the router
    drops. *)
Definition fullOnce : faults := mkFaults (fun i => if decide (i = 1%nat) then Some 5%nat else None) (fun _ => true).

Lemma write_error_silences_log :
  let a := snd (AppendWriter fullOnce ["SET"; "b"; "2"]
             (snd (AppendWriter fullOnce ["SET"; "a"; "1"] (OpenWriter "" SyncAlways)))) in
  osFile a = encodeRecord ["SET"; "a"; "1"] +:+ stake 5 (encodeRecord ["SET"; "b"; "2"]) /\
  forall args, AppendWriter fullOnce args a = (true, a).
Proof. split; [vm_compute; reflexivity|]. intros args. by apply AppendWriter_broken. Qed.
