(* ===== verification/Agree.v ===== *)
(** * Stores that hold the same data

    Replaying a log runs at other times than the commands it records, version counters are
    not persisted, and a deadline is restored up to the time that passes between two
    readings of the clock.  [agree s s'] relates stores that hold the same data, with
    deadlines that are near each other and have not passed: every method then gives the
    same result on both, whatever the clock reads, and keeps them related. *)

From S2P Require Import Prelude GoLib Floats Glob Store Lists Sets Hashes ZSets.

(** ** Windows *)

(** The span of time in which a log is written and replayed: the readings of the clock in
    it, the deadlines that do not pass in it, and how near the two deadlines of a key
    are.  [steady] are the clocks whose readings are taken, and [admits] the commands
    that, begun at this time, set such deadlines. *)
Class Window : Type := {
  reading : Time -> Prop;
  steady : (nat -> Time) -> Prop;
  lasting : Time -> Prop;
  near : Time -> Time -> Prop;
  admits : Time -> list string -> bool;
  steady_reading : forall clock i, steady clock -> reading (clock i);
  some_steady : exists clock, steady clock;
  lasting_live : forall t d, reading t -> lasting d -> expired t d = false;
  lasting_set : forall d, lasting d -> IsZero d = false;
  near_refl : forall d, near d d
}.

(** Without deadlines, any time will do. *)
#[export, refine] Instance anytime : Window := {|
  reading := fun _ => True;
  steady := fun _ => True;
  lasting := fun _ => False;
  near := eq;
  admits := fun _ _ => false
|}.
Proof. all: try done. by exists (fun _ => 0). Defined.

(** ** The relation *)

Definition lists_ok (m : gmap string (list string)) : Prop := map_Forall (fun _ l => l <> []) m.

(** Equal up to the version counters. *)
Record same_data (s s' : MemoryStore) : Prop := mkSameData {
  sd_strings : strings s' = strings s;
  sd_hashes : hashes s' = hashes s;
  sd_lists : lists s' = lists s;
  sd_sets : sets s' = sets s;
  sd_zsets : zsets s' = zsets s;
  sd_expiry : keyExpiry s' = keyExpiry s
}.

#[export] Instance same_data_equiv : Equivalence same_data.
Proof.
  split.
  - intros s. by split.
  - intros s s' []. by split.
  - intros s1 s2 s3 [] []. split; congruence.
Qed.

Create HintDb agree.

Section Relation.

Context `{W : Window}.

(** Two deadlines that have not passed and are near each other. *)
Record near_deadlines (d d' : Time) : Prop := mkNear {
  nd_left : lasting d;
  nd_right : lasting d';
  nd_near : near d d'
}.

(** The same string, and near deadlines or none. *)
Definition near_entries (e e' : strEntry) : Prop :=
  value e' = value e /\
  (expiresAt e = zeroTime /\ expiresAt e' = zeroTime \/
   near_deadlines (expiresAt e) (expiresAt e')).

Definition near_strings : gmap string strEntry -> gmap string strEntry -> Prop :=
  map_Forall2 (fun _ => near_entries).
Definition near_expiry : gmap string Time -> gmap string Time -> Prop :=
  map_Forall2 (fun _ => near_deadlines).

(** The same data up to the deadlines, and no empty list. *)
Record agree (s s' : MemoryStore) : Prop := mkAgree {
  ag_strings : near_strings (strings s) (strings s');
  ag_hashes : hashes s' = hashes s;
  ag_lists : lists s' = lists s;
  ag_sets : sets s' = sets s;
  ag_zsets : zsets s' = zsets s;
  ag_expiry : near_expiry (keyExpiry s) (keyExpiry s');
  ag_lists_ok : lists_ok (lists s)
}.

(** No deadline passes in the window. *)
Definition settled (s : MemoryStore) : Prop := agree s s.

Lemma near_deadlines_refl d d' : near_deadlines d d' -> near_deadlines d d.
Proof using Type. intros []. split; [done..|apply near_refl]. Qed.

Lemma near_entries_refl e e' : near_entries e e' -> near_entries e e.
Proof using Type.
  intros [_ [[H _]|H]]; (split; [done|]); [by left|right]. by eapply near_deadlines_refl.
Qed.

(** The left of related maps is related to itself. *)
Lemma map_Forall2_left {A} (R : A -> A -> Prop) (m m' : gmap string A) :
  (forall a a', R a a' -> R a a) -> map_Forall2 (fun _ => R) m m' -> map_Forall2 (fun _ => R) m m.
Proof using Type.
  intros HR Hm k. specialize (Hm k). destruct (m !! k); [|constructor].
  inversion Hm; subst. constructor. by eapply HR.
Qed.

Lemma agree_settled s s' : agree s s' -> settled s.
Proof using Type.
  intros []. split; try done.
  - eapply map_Forall2_left; [exact near_entries_refl|done].
  - eapply map_Forall2_left; [exact near_deadlines_refl|done].
Qed.

Lemma agree_same_r s1 s2 s3 : agree s1 s2 -> same_data s2 s3 -> agree s1 s3.
Proof using Type.
  intros [] [E1 E2 E3 E4 E5 E6]. split; try congruence; [by rewrite E1|by rewrite E6|done].
Qed.

Lemma agree_same_l s1 s2 s3 : same_data s1 s2 -> agree s1 s3 -> agree s2 s3.
Proof using Type.
  intros [E1 E2 E3 E4 E5 E6] []. split; try congruence; [by rewrite E1|by rewrite E6|by rewrite E3].
Qed.

Lemma settled_same s s' : settled s -> same_data s s' -> settled s'.
Proof using Type. intros H Hd. eapply agree_same_l; [done|]. by eapply agree_same_r. Qed.

Lemma settled_new : settled NewMemoryStore.
Proof using Type. by split; try apply map_Forall2_empty. Qed.

(** ** Reads do not depend on the clock *)

Section Reads.

Context (s s' : MemoryStore) (HR : agree s s') (t t' : Time) (Ht : reading t) (Ht' : reading t').

Lemma near_live e e' :
  near_entries e e' -> expired t (expiresAt e) = false /\ expired t' (expiresAt e') = false.
Proof using Ht Ht'.
  intros [_ [[-> ->]|[H1 H2 _]]]; [done|]. by split; apply lasting_live.
Qed.

Lemma agree_expired k : keyExpiredNonStr t k s = false /\ keyExpiredNonStr t' k s' = false.
Proof using HR Ht Ht'.
  unfold keyExpiredNonStr. pose proof (ag_expiry _ _ HR k) as Hk.
  inversion Hk as [d d' [H1 H2 _]|]; [|done]. by split; apply lasting_live.
Qed.

Lemma agree_lookup k :
  strings s !! k = None /\ strings s' !! k = None \/
  exists e e', strings s !! k = Some e /\ strings s' !! k = Some e' /\ near_entries e e'.
Proof using HR. pose proof (ag_strings _ _ HR k) as Hk. inversion Hk; [right; eauto|by left]. Qed.

Lemma agree_liveString k :
  liveString t k s = strings s !! k /\ liveString t' k s' = strings s' !! k.
Proof using HR Ht Ht'.
  unfold liveString. destruct (agree_lookup k) as [[-> ->]|(e & e' & -> & -> & He)]; [done|].
  destruct (near_live e e' He) as [-> ->]. done.
Qed.

Lemma agree_typeOf k : typeOf t' k s' = typeOf t k s.
Proof using HR Ht Ht'.
  unfold typeOf. destruct (agree_expired k) as [-> ->].
  rewrite (ag_hashes _ _ HR), (ag_lists _ _ HR), (ag_sets _ _ HR), (ag_zsets _ _ HR).
  destruct (agree_lookup k) as [[-> ->]|(e & e' & -> & -> & He)]; [done|].
  by destruct (near_live e e' He) as [-> ->].
Qed.

Lemma agree_Type k : Type_ t' k s' = Type_ t k s.
Proof using HR Ht Ht'. unfold Type_. by rewrite agree_typeOf. Qed.

Lemma agree_Get k : Get t' k s' = Get t k s.
Proof using HR Ht Ht'.
  unfold Get. destruct (agree_liveString k) as [-> ->].
  destruct (agree_lookup k) as [[-> ->]|(e & e' & -> & -> & [Hv _])]; cbn; by rewrite ?Hv.
Qed.

Lemma agree_liveHash k : liveHash t' k s' = liveHash t k s.
Proof using HR Ht Ht'.
  unfold liveHash. destruct (agree_expired k) as [-> ->]. by rewrite (ag_hashes _ _ HR).
Qed.

Lemma agree_HGet k f : HGet t' k f s' = HGet t k f s.
Proof using HR Ht Ht'. unfold HGet. by rewrite agree_liveHash. Qed.

Lemma agree_getList k : getList t' k s' = getList t k s.
Proof using HR Ht Ht'. unfold getList. by rewrite agree_typeOf, (ag_lists _ _ HR). Qed.

Lemma agree_getSet k : getSet t' k s' = getSet t k s.
Proof using HR Ht Ht'. unfold getSet. by rewrite agree_typeOf, (ag_sets _ _ HR). Qed.

Lemma agree_getZSet k : getZSet t' k s' = getZSet t k s.
Proof using HR Ht Ht'. unfold getZSet. by rewrite agree_typeOf, (ag_zsets _ _ HR). Qed.

End Reads.

(** ** Writes keep it *)

Lemma agree_bump k s s' : agree s s' -> agree (bumpVersion k s) (bumpVersion k s').
Proof using Type. by intros []; split. Qed.

Lemma agree_noversion k s s' :
  agree s s' ->
  agree (set_keyVersion (delete k (keyVersion s)) s) (set_keyVersion (delete k (keyVersion s')) s').
Proof using Type. by intros []; split. Qed.

Lemma agree_set_hashes m s s' : agree s s' -> agree (set_hashes m s) (set_hashes m s').
Proof using Type. by intros []; split. Qed.

Lemma agree_set_sets m s s' : agree s s' -> agree (set_sets m s) (set_sets m s').
Proof using Type. by intros []; split. Qed.

Lemma agree_set_zsets m s s' : agree s s' -> agree (set_zsets m s) (set_zsets m s').
Proof using Type. by intros []; split. Qed.

Lemma agree_set_lists m s s' :
  agree s s' -> lists_ok m -> agree (set_lists m s) (set_lists m s').
Proof using Type. by intros [] Hm; split. Qed.

Lemma agree_set_strings m m' s s' :
  agree s s' -> near_strings m m' -> agree (set_strings m s) (set_strings m' s').
Proof using Type. by intros [] Hm; split. Qed.

Lemma agree_set_expiry m m' s s' :
  agree s s' -> near_expiry m m' -> agree (set_keyExpiry m s) (set_keyExpiry m' s').
Proof using Type. by intros [] Hm; split. Qed.

Lemma agree_clearExpiry k s s' :
  agree s s' ->
  agree (set_keyExpiry (delete k (keyExpiry s)) s) (set_keyExpiry (delete k (keyExpiry s')) s').
Proof using Type. intros HR. apply agree_set_expiry; [done|]. apply map_Forall2_delete, HR. Qed.

Lemma near_strings_delete k m m' : near_strings m m' -> near_strings (delete k m) (delete k m').
Proof using Type. apply map_Forall2_delete. Qed.

Lemma near_strings_insert k v m m' :
  near_strings m m' ->
  near_strings (<[k := mkStrEntry v zeroTime]> m) (<[k := mkStrEntry v zeroTime]> m').
Proof using Type. apply map_Forall2_insert_2. split; [done|]. by left. Qed.

Lemma lists_ok_delete k m : lists_ok m -> lists_ok (delete k m).
Proof using Type. apply map_Forall_delete. Qed.

Lemma lists_ok_insert k l m : lists_ok m -> l <> [] -> lists_ok (<[k := l]> m).
Proof using Type. intros H Hl. by apply map_Forall_insert_2. Qed.

Lemma agree_deleteKey k s s' : agree s s' -> agree (deleteKey k s) (deleteKey k s').
Proof using Type.
  intros []. split; cbn; try congruence; [by apply map_Forall2_delete..|by apply lists_ok_delete].
Qed.

End Relation.

#[export] Hint Resolve agree_bump agree_noversion agree_set_hashes agree_set_sets agree_set_zsets
  agree_set_lists agree_set_strings agree_clearExpiry near_strings_delete near_strings_insert
  lists_ok_delete lists_ok_insert ag_strings ag_lists_ok agree_deleteKey : agree.

(** The fields of the second store, written with the first. *)
Ltac agree_fields HR :=
  rewrite ?(ag_hashes _ _ HR), ?(ag_lists _ _ HR), ?(ag_sets _ _ HR), ?(ag_zsets _ _ HR).

(** Without deadlines stores that agree hold equal data. *)
Lemma anytime_same s s' : agree (W := anytime) s s' -> same_data s s'.
Proof.
  intros []. split; try done.
  - apply map_eq. intros k. pose proof (ag_strings0 k) as Hk.
    inversion Hk as [e e' [Hv [[H1 H2]|[[] _ _]]]|]; [|done].
    destruct e, e'. cbn in *. congruence.
  - apply map_eq. intros k. pose proof (ag_expiry0 k) as Hk. by inversion Hk as [d d' [[] _ _]|].
Qed.

Section Methods.

Context `{W : Window}.

(** ** Methods *)

(** The method gives the same result on both stores and keeps them related. *)
Definition method_agrees {B} (m : Time -> MemoryStore -> may_panic (B * MemoryStore)) : Prop :=
  forall t t' s s' b s1, reading t -> reading t' -> agree s s' -> m t s = Ret (b, s1) ->
  exists s1', m t' s' = Ret (b, s1') /\ agree s1 s1'.

Definition pure_agrees {B} (m : Time -> MemoryStore -> B * MemoryStore) : Prop :=
  forall t t' s s', reading t -> reading t' -> agree s s' ->
  fst (m t' s') = fst (m t s) /\ agree (snd (m t s)) (snd (m t' s')).

(** A method that reports an error has not changed the store. *)
Definition fails_clean {B} (m : Time -> MemoryStore -> may_panic (result B * MemoryStore)) : Prop :=
  forall t s e s1, m t s = Ret (Fail e, s1) -> s1 = s.

Definition lift {B} (m : Time -> MemoryStore -> B * MemoryStore)
    : Time -> MemoryStore -> may_panic (B * MemoryStore) := fun t s => Ret (m t s).

Lemma lift_agrees {B} (m : Time -> MemoryStore -> B * MemoryStore) :
  pure_agrees m -> method_agrees (lift m).
Proof using Type.
  intros Hm t t' s s' b s1 Ht Ht' HR [= Heq]. destruct (Hm t t' s s' Ht Ht' HR) as [Hb Hs].
  unfold lift. destruct (m t' s') as [b' s1']. exists s1'. rewrite Heq in *. cbn in *.
  by rewrite Hb.
Qed.

(** Strings and whole keys. *)

Lemma agree_Set k v s s' : agree s s' -> agree (Set_ k v s) (Set_ k v s').
Proof using Type. intros HR. unfold Set_. eauto 7 with agree. Qed.

Lemma Set_agrees k v : pure_agrees (fun _ s => (tt, Set_ k v s)).
Proof using Type. intros t t' s s' Ht Ht' HR. split; [done|]. by apply agree_Set. Qed.

Lemma Del_agrees ks : pure_agrees (fun t => Del t ks).
Proof using Type.
  intros t t' s s' Ht Ht'. revert s s'. induction ks as [|k ks IH]; intros s s' HR; [done|].
  cbn [Del]. rewrite (agree_typeOf _ _ HR t t' Ht Ht'). case_decide; [|by apply IH].
  destruct (IH (bumpVersion k (deleteKey k s)) (bumpVersion k (deleteKey k s')))
    as [H1 H2]; [eauto with agree|].
  destruct (Del t ks _) as [n s1], (Del t' ks _) as [n' s1']. cbn in *. by rewrite H1.
Qed.

Lemma Flush_agrees : pure_agrees (fun _ s => (tt, Flush s)).
Proof using Type. intros t t' s s' Ht Ht' HR. split; [done|]. apply settled_new. Qed.

Lemma Persist_agrees k : pure_agrees (fun t => Persist t k).
Proof using Type.
  intros t t' s s' Ht Ht' HR. unfold Persist.
  destruct (agree_liveString _ _ HR t t' Ht Ht' k) as [-> ->].
  rewrite (agree_typeOf _ _ HR t t' Ht Ht').
  assert (agree_expiry : forall b : bool,
    let p s0 := if b then match keyExpiry s0 !! k with
                          | Some _ => (true, set_keyExpiry (delete k (keyExpiry s0)) s0)
                          | None => (false, s0)
                          end else (false, s0) in
    fst (p s') = fst (p s) /\ agree (snd (p s)) (snd (p s'))).
  { intros []; cbv zeta; [|done]. pose proof (ag_expiry _ _ HR k) as Hk.
    inversion Hk; [|done]. split; [done|]. by apply agree_clearExpiry. }
  destruct (agree_lookup _ _ HR k) as [[-> ->]|(e & e' & -> & -> & Hv & He)]; [apply agree_expiry|].
  destruct He as [[-> ->]|[H1 H2 _]]; [apply agree_expiry|].
  rewrite !lasting_set by done. split; [done|]. cbn. rewrite Hv. eauto with agree.
Qed.

(** Hashes. *)

Lemma HSet_agrees k fs : pure_agrees (fun _ => HSet k fs).
Proof using Type.
  intros t t' s s' Ht Ht' HR. unfold HSet.
  assert (agree (set_strings (delete k (strings s)) s) (set_strings (delete k (strings s')) s'))
    as HR1 by eauto with agree.
  agree_fields HR1. destruct (setFields _ _) as [n h]. split; [done|]. cbn [snd].
  eauto with agree.
Qed.

Lemma HDel_agrees k fs : pure_agrees (fun t => HDel t k fs).
Proof using Type.
  intros t t' s s' Ht Ht' HR. unfold HDel. rewrite (agree_liveHash _ _ HR t t' Ht Ht').
  destruct (liveHash t k s) as [h|]; [|done]. destruct (delFields fs h) as [n h'].
  agree_fields HR. case_decide; (split; [done|]); cbn [snd]; [|eauto with agree].
  pose proof (agree_set_hashes (delete k (hashes s)) _ _ HR) as HR1.
  pose proof (agree_clearExpiry k _ _ HR1) as HR2. eauto with agree.
Qed.

(** Lists. *)

Lemma agree_dropList k s s' : agree s s' -> agree (dropList k s) (dropList k s').
Proof using Type.
  intros HR. unfold dropList. agree_fields HR.
  assert (agree (set_lists (delete k (lists s)) s) (set_lists (delete k (lists s)) s')) as HR1
    by eauto with agree.
  exact (agree_clearExpiry k _ _ HR1).
Qed.

Lemma agree_putList k l s s' : agree s s' -> agree (putList k l s) (putList k l s').
Proof using Type.
  intros HR. unfold putList. agree_fields HR. destruct (llen l =? 0) eqn:E; zbool.
  - unfold dropList. cbn [lists set_lists keyExpiry].
    rewrite delete_insert_eq. pose proof (agree_dropList k _ _ HR) as HR1.
    unfold dropList in HR1. by rewrite (ag_lists _ _ HR) in HR1.
  - apply agree_set_lists; [done|]. apply lists_ok_insert; [eauto with agree|].
    intros ->. by change (llen (A:=string) []) with 0 in E.
Qed.
#[local] Hint Resolve agree_dropList agree_putList : agree.

Lemma push_agrees k l s s' :
  agree s s' -> l <> [] ->
  agree (bumpVersion k (set_lists (<[k := l]> (lists s)) s))
        (bumpVersion k (set_lists (<[k := l]> (lists s)) s')).
Proof using Type. eauto with agree. Qed.

Lemma LPush_agrees k vs : vs <> [] -> pure_agrees (fun t => LPush t k vs).
Proof using Type.
  intros Hv t t' s s' Ht Ht' HR. unfold LPush. rewrite (agree_typeOf _ _ HR t t' Ht Ht').
  case_decide; [done|]. agree_fields HR. split; [done|]. cbn [snd]. apply push_agrees; [done|].
  intros [Hn _]%app_eq_nil. apply Hv. rewrite <- (rev_involutive vs), Hn. done.
Qed.

Lemma RPush_agrees k vs : vs <> [] -> pure_agrees (fun t => RPush t k vs).
Proof using Type.
  intros Hv t t' s s' Ht Ht' HR. unfold RPush. rewrite (agree_typeOf _ _ HR t t' Ht Ht').
  case_decide; [done|]. agree_fields HR. split; [done|]. cbn [snd]. apply push_agrees; [done|].
  by intros [_ Hn]%app_eq_nil.
Qed.

Lemma LPop_agrees k n : method_agrees (fun t => LPop t k n).
Proof using Type.
  intros t t' s s' b s1 Ht Ht' HR. unfold LPop. rewrite (agree_getList _ _ HR t t' Ht Ht').
  destruct (getList t k s) as [[l|]|e]; try (intros [= <- <-]; eauto; fail).
  case_match; [done|]. destruct (slice l _ _) as [rest|?| |]; cbn [obind]; try done.
  intros [= <- <-]. eauto 6 with agree.
Qed.

Lemma RPop_agrees k n : method_agrees (fun t => RPop t k n).
Proof using Type.
  intros t t' s s' b s1 Ht Ht' HR. unfold RPop. rewrite (agree_getList _ _ HR t t' Ht Ht').
  destruct (getList t k s) as [[l|]|e]; try (intros [= <- <-]; eauto; fail).
  case_match; [done|]. destruct (copyTail l _ _) as [res|?| |]; cbn [obind]; try done.
  destruct (slice l _ _) as [rest|?| |]; cbn [obind]; try done.
  intros [= <- <-]. eauto 6 with agree.
Qed.

Lemma LSet_agrees k i v : pure_agrees (fun t => LSet t k i v).
Proof using Type.
  intros t t' s s' Ht Ht' HR. unfold LSet. rewrite (agree_typeOf _ _ HR t t' Ht Ht').
  case_decide; [done|]. case_decide; [done|]. agree_fields HR.
  case_match eqn:E; [done|]. split; [done|]. cbn [snd]. apply push_agrees; [done|].
  intros Hn%(f_equal length). rewrite length_insert in Hn.
  destruct (default [] (lists s !! k)) as [|x l]; [|done].
  unfold normaliseIndex in E. change (llen (A:=string) []) with 0 in E.
  destruct (i <? 0) eqn:E1; repeat case_match; zbool; lia.
Qed.

Lemma LInsert_agrees k b p v : method_agrees (fun t => LInsert t k b p v).
Proof using Type.
  intros t t' s s' r s1 Ht Ht' HR. unfold LInsert. rewrite (agree_typeOf _ _ HR t t' Ht Ht').
  case_decide; [intros [= <- <-]; eauto|]. case_decide; [intros [= <- <-]; eauto|].
  agree_fields HR. case_match; [intros [= <- <-]; eauto|].
  destruct (slice _ 0 _) as [front|?| |]; cbn [obind]; try done.
  destruct (slice _ _ (llen _)) as [back|?| |]; cbn [obind]; try done.
  intros [= <- <-]. eexists. split; [done|]. apply push_agrees; [done|].
  by intros [_ Hn]%app_eq_nil.
Qed.

Lemma LRem_agrees k n v : pure_agrees (fun t => LRem t k n v).
Proof using Type.
  intros t t' s s' Ht Ht' HR. unfold LRem. rewrite (agree_getList _ _ HR t t' Ht Ht').
  destruct (getList t k s) as [[l|]|e]; [|done..].
  destruct (if 0 <=? n then _ else _) as [removed newList]. case_match; [|done].
  split; [done|]. cbn [snd]. agree_fields HR. destruct (llen newList =? 0) eqn:E; zbool.
  - eauto with agree.
  - apply push_agrees; [done|]. intros ->. by change (llen (A:=string) []) with 0 in E.
Qed.

Lemma slice_nonempty {A E} (l : list A) lo hi r :
  lo < hi -> slice (E := E) l lo hi = Ret r -> r <> [].
Proof using Type.
  unfold slice. intros Hlt. case_match eqn:Hb; [|done]. zbool. intros [= <-] Hn.
  apply (f_equal llen) in Hn. rewrite llen_ltake in Hn; [change (llen (A:=A) []) with 0 in Hn; lia|].
  rewrite llen_ldrop; lia.
Qed.

Lemma LTrim_agrees k a b : method_agrees (fun t => LTrim t k a b).
Proof using Type.
  intros t t' s s' r s1 Ht Ht' HR. unfold LTrim. rewrite (agree_typeOf _ _ HR t t' Ht Ht').
  case_decide; [intros [= <- <-]; eauto|]. case_decide; [intros [= <- <-]; eauto|].
  agree_fields HR. destruct (clampRange _ _ _) as [lo hi].
  destruct (hi <? lo) eqn:E; zbool; [intros [= <- <-]; eauto 6 with agree|].
  destruct (slice _ _ _) as [tr|?| |] eqn:Es; cbn [obind]; try done.
  intros [= <- <-]. eexists. split; [done|]. apply push_agrees; [done|].
  eapply slice_nonempty; [|done]. lia.
Qed.

Lemma LMove_agrees src dst a b : method_agrees (fun t => LMove t src dst a b).
Proof using Type.
  intros t t' s s' r s1 Ht Ht' HR. unfold LMove. rewrite !(agree_typeOf _ _ HR t t' Ht Ht').
  case_decide; [intros [= <- <-]; eauto|]. case_decide; [intros [= <- <-]; eauto|].
  agree_fields HR. case_match; [intros [= <- <-]; eauto|].
  destruct (takeEnd a _) as [[elem rest]|?| |]; cbn [obind]; try done.
  intros [= <- <-]. eexists. split; [done|].
  pose proof (agree_putList src rest _ _ HR) as HR1. agree_fields HR1.
  apply agree_bump, agree_bump, agree_set_lists; [done|].
  apply lists_ok_insert; [eauto with agree|]. destruct b; [done|]. by intros [_ Hn]%app_eq_nil.
Qed.

(** Sets. *)

Lemma SAdd_agrees k ms : pure_agrees (fun t => SAdd t k ms).
Proof using Type.
  intros t t' s s' Ht Ht' HR. unfold SAdd. rewrite (agree_typeOf _ _ HR t t' Ht Ht').
  case_decide; [done|]. agree_fields HR. destruct (addMembers _ _) as [n st].
  split; [done|]. cbn [snd]. eauto with agree.
Qed.

Lemma agree_putSet k st s s' : agree s s' -> agree (putSet k st s) (putSet k st s').
Proof using Type.
  intros HR. unfold putSet. agree_fields HR.
  pose proof (agree_set_sets (<[k := st]> (sets s)) _ _ HR) as HR1.
  case_decide; [|done]. unfold dropSet. agree_fields HR1.
  exact (agree_clearExpiry k _ _ (agree_set_sets _ _ _ HR1)).
Qed.
#[local] Hint Resolve agree_putSet : agree.

Lemma SRem_agrees k ms : pure_agrees (fun t => SRem t k ms).
Proof using Type.
  intros t t' s s' Ht Ht' HR. unfold SRem. rewrite (agree_getSet _ _ HR t t' Ht Ht').
  destruct (getSet t k s) as [[st|]|e]; [|done..]. destruct (remMembers ms st) as [n st'].
  split; [done|]. cbn [snd]. eauto with agree.
Qed.

Lemma SMove_agrees src dst m : pure_agrees (fun t => SMove t src dst m).
Proof using Type.
  intros t t' s s' Ht Ht' HR. unfold SMove. rewrite !(agree_typeOf _ _ HR t t' Ht Ht').
  case_decide; [done|]. case_decide; [done|]. agree_fields HR.
  destruct (sets s !! src) as [st|]; [|done]. case_decide; [|done].
  pose proof (agree_putSet src (st ∖ {[m]}) _ _ HR) as HR1. agree_fields HR1.
  split; [done|]. cbn [snd]. eauto with agree.
Qed.

Section SetAlgebra.

Context (s s' : MemoryStore) (HR : agree s s') (t t' : Time)
  (Ht : reading t) (Ht' : reading t').

Lemma agree_inAll ks m : inAll t' ks m s' = inAll t ks m s.
Proof using HR Ht Ht'.
  induction ks as [|k ks IH]; cbn; [done|]. by rewrite (agree_getSet _ _ HR t t' Ht Ht'), IH.
Qed.

Lemma agree_interLoop ks ms : interLoop t' ks ms s' = interLoop t ks ms s.
Proof using HR Ht Ht'. induction ms as [|m ms IH]; cbn; [done|]. by rewrite agree_inAll, IH. Qed.

Lemma agree_setInter ks : setInter t' ks s' = setInter t ks s.
Proof using HR Ht Ht'.
  destruct ks as [|k ks]; cbn; [done|]. rewrite (agree_getSet _ _ HR t t' Ht Ht').
  destruct (getSet t k s) as [[st|]|]; [|done..]. apply agree_interLoop.
Qed.

Lemma agree_unionLoop ks seen : unionLoop t' ks seen s' = unionLoop t ks seen s.
Proof using HR Ht Ht'.
  revert seen. induction ks as [|k ks IH]; intros seen; cbn; [done|].
  rewrite (agree_getSet _ _ HR t t' Ht Ht'). by destruct (getSet t k s).
Qed.

Lemma agree_setUnion ks : setUnion t' ks s' = setUnion t ks s.
Proof using HR Ht Ht'. unfold setUnion. by rewrite agree_unionLoop. Qed.

Lemma agree_inOther ks m : inOther t' ks m s' = inOther t ks m s.
Proof using HR Ht Ht'.
  induction ks as [|k ks IH]; cbn; [done|]. by rewrite (agree_getSet _ _ HR t t' Ht Ht'), IH.
Qed.

Lemma agree_diffLoop ks ms : diffLoop t' ks ms s' = diffLoop t ks ms s.
Proof using HR Ht Ht'. induction ms as [|m ms IH]; cbn; [done|]. by rewrite agree_inOther, IH. Qed.

Lemma agree_setDiff ks : setDiff t' ks s' = setDiff t ks s.
Proof using HR Ht Ht'.
  destruct ks as [|k ks]; cbn; [done|]. rewrite (agree_getSet _ _ HR t t' Ht Ht').
  destruct (getSet t k s); [|done]. apply agree_diffLoop.
Qed.

End SetAlgebra.

Lemma agree_storeMembers dst ms s s' :
  agree s s' -> agree (storeMembers dst ms s) (storeMembers dst ms s').
Proof using Type.
  intros HR. unfold storeMembers. pose proof (agree_deleteKey dst _ _ HR) as HR1.
  destruct ms; [done|]. agree_fields HR1. eauto with agree.
Qed.

Lemma SInterStore_agrees dst ks : pure_agrees (fun t => SInterStore t dst ks).
Proof using Type.
  intros t t' s s' Ht Ht' HR. unfold SInterStore. rewrite (agree_setInter _ _ HR t t' Ht Ht').
  destruct (setInter t ks s); (split; [done|]); [by apply agree_storeMembers|done].
Qed.

Lemma SUnionStore_agrees dst ks : pure_agrees (fun t => SUnionStore t dst ks).
Proof using Type.
  intros t t' s s' Ht Ht' HR. unfold SUnionStore. rewrite (agree_setUnion _ _ HR t t' Ht Ht').
  destruct (setUnion t ks s); (split; [done|]); [by apply agree_storeMembers|done].
Qed.

Lemma SDiffStore_agrees dst ks : pure_agrees (fun t => SDiffStore t dst ks).
Proof using Type.
  intros t t' s s' Ht Ht' HR. unfold SDiffStore. rewrite (agree_setDiff _ _ HR t t' Ht Ht').
  destruct (setDiff t ks s); (split; [done|]); [by apply agree_storeMembers|done].
Qed.

(** Sorted sets. *)

Lemma ZAdd_agrees k ms nx xx gt lt ch : pure_agrees (fun t => ZAdd t k ms nx xx gt lt ch).
Proof using Type.
  intros t t' s s' Ht Ht' HR. unfold ZAdd, zscores. rewrite (agree_typeOf _ _ HR t t' Ht Ht').
  case_decide; [done|]. agree_fields HR. destruct (zaddLoop _ _ _ _ _ _ _) as [n sc].
  split; [done|]. cbn [snd]. eauto with agree.
Qed.

Lemma ZIncrBy_agrees k x m : pure_agrees (fun t => ZIncrBy t k x m).
Proof using Type.
  intros t t' s s' Ht Ht' HR. unfold ZIncrBy, zscores. rewrite (agree_typeOf _ _ HR t t' Ht Ht').
  case_decide; [done|]. agree_fields HR. split; [done|]. cbn [snd]. eauto with agree.
Qed.

Lemma agree_putZSet k sc s s' : agree s s' -> agree (putZSet k sc s) (putZSet k sc s').
Proof using Type.
  intros HR. unfold putZSet. agree_fields HR.
  pose proof (agree_set_zsets (<[k := mkZset sc]> (zsets s)) _ _ HR) as HR1.
  case_decide; [|done]. unfold dropZSet. agree_fields HR1.
  exact (agree_clearExpiry k _ _ (agree_set_zsets _ _ _ HR1)).
Qed.
#[local] Hint Resolve agree_putZSet : agree.

Lemma ZRem_agrees k ms : pure_agrees (fun t => ZRem t k ms).
Proof using Type.
  intros t t' s s' Ht Ht' HR. unfold ZRem. rewrite (agree_getZSet _ _ HR t t' Ht Ht').
  destruct (getZSet t k s) as [[z|]|e]; [|done..]. destruct (zremLoop ms _) as [n sc].
  split; [done|]. cbn [snd]. eauto with agree.
Qed.

Lemma zpop_agrees from k n : method_agrees (fun t => zpop from t k n).
Proof using Type.
  intros t t' s s' b s1 Ht Ht' HR. unfold zpop. rewrite (agree_getZSet _ _ HR t t' Ht Ht').
  destruct (getZSet t k s) as [[z|]|e]; try (intros [= <- <-]; eauto; fail).
  case_decide; [intros [= <- <-]; eauto|]. case_match; [done|].
  intros [= <- <-]. eauto 6 with agree.
Qed.

Lemma agree_zunionLoop t t' ks i ws agg acc s s' :
  reading t -> reading t' -> agree s s' ->
  zunionLoop t' ks i ws agg acc s' = zunionLoop t ks i ws agg acc s.
Proof using Type.
  intros Ht Ht' HR. revert i acc. induction ks as [|k ks IH]; intros i acc; cbn; [done|].
  rewrite (agree_getZSet _ _ HR t t' Ht Ht'). destruct (getZSet t k s) as [[z|]|]; done || apply IH.
Qed.

Lemma agree_zinterLoop t t' ks i ws agg acc s s' :
  reading t -> reading t' -> agree s s' ->
  zinterLoop t' ks i ws agg acc s' = zinterLoop t ks i ws agg acc s.
Proof using Type.
  intros Ht Ht' HR. revert i acc. induction ks as [|k ks IH]; intros i acc; cbn; [done|].
  rewrite (agree_getZSet _ _ HR t t' Ht Ht'). destruct (getZSet t k s) as [z|]; done || apply IH.
Qed.

Lemma agree_storeScores dst sc s s' :
  agree s s' -> agree (storeScores dst sc s) (storeScores dst sc s').
Proof using Type.
  intros HR. unfold storeScores. pose proof (agree_deleteKey dst _ _ HR) as HR1.
  case_decide; [done|]. agree_fields HR1. eauto with agree.
Qed.

Lemma ZUnionStore_agrees dst ks ws agg : pure_agrees (fun t => ZUnionStore t dst ks ws agg).
Proof using Type.
  intros t t' s s' Ht Ht' HR. unfold ZUnionStore. rewrite (agree_zunionLoop t t' _ _ _ _ _ s s') by done.
  destruct (zunionLoop _ _ _ _ _ _ _); (split; [done|]); [by apply agree_storeScores|done].
Qed.

Lemma ZInterStore_agrees dst ks ws agg : pure_agrees (fun t => ZInterStore t dst ks ws agg).
Proof using Type.
  intros t t' s s' Ht Ht' HR. unfold ZInterStore. destruct ks as [|k ks]; [done|].
  rewrite (agree_getZSet _ _ HR t t' Ht Ht'). destruct (getZSet t k s) as [z|]; [|done].
  rewrite (agree_zinterLoop t t' _ _ _ _ _ s s') by done.
  destruct (zinterLoop _ _ _ _ _ _ _); (split; [done|]); [by apply agree_storeScores|done].
Qed.

End Methods.

(** ** Errors *)

Ltac solve_fails_clean :=
  intros t s e s1; unfold lift; repeat (case_match || cbn [obind]); intros; simplify_eq; done.

Lemma LPush_clean k vs : fails_clean (lift (fun t => LPush t k vs)).
Proof. unfold LPush. solve_fails_clean. Qed.
Lemma RPush_clean k vs : fails_clean (lift (fun t => RPush t k vs)).
Proof. unfold RPush. solve_fails_clean. Qed.
Lemma LPop_clean k n : fails_clean (fun t => LPop t k n).
Proof. unfold LPop, obind. solve_fails_clean. Qed.
Lemma RPop_clean k n : fails_clean (fun t => RPop t k n).
Proof. unfold RPop, obind. solve_fails_clean. Qed.
Lemma LSet_clean k i v : fails_clean (lift (fun t => LSet t k i v)).
Proof. unfold LSet. solve_fails_clean. Qed.
Lemma LInsert_clean k b p v : fails_clean (fun t => LInsert t k b p v).
Proof. unfold LInsert, obind. solve_fails_clean. Qed.
Lemma LRem_clean k n v : fails_clean (lift (fun t => LRem t k n v)).
Proof. unfold LRem. solve_fails_clean. Qed.
Lemma LTrim_clean k a b : fails_clean (fun t => LTrim t k a b).
Proof. unfold LTrim, obind. solve_fails_clean. Qed.
Lemma LMove_clean src dst a b : fails_clean (fun t => LMove t src dst a b).
Proof. unfold LMove, obind. solve_fails_clean. Qed.
Lemma SAdd_clean k ms : fails_clean (lift (fun t => SAdd t k ms)).
Proof. unfold SAdd. solve_fails_clean. Qed.
Lemma SRem_clean k ms : fails_clean (lift (fun t => SRem t k ms)).
Proof. unfold SRem. solve_fails_clean. Qed.
Lemma SMove_clean a b m : fails_clean (lift (fun t => SMove t a b m)).
Proof. unfold SMove. solve_fails_clean. Qed.
Lemma SInterStore_clean k ms : fails_clean (lift (fun t => SInterStore t k ms)).
Proof. unfold SInterStore. solve_fails_clean. Qed.
Lemma SUnionStore_clean k ms : fails_clean (lift (fun t => SUnionStore t k ms)).
Proof. unfold SUnionStore. solve_fails_clean. Qed.
Lemma SDiffStore_clean k ms : fails_clean (lift (fun t => SDiffStore t k ms)).
Proof. unfold SDiffStore. solve_fails_clean. Qed.
Lemma ZAdd_clean k ms nx xx gt lt ch : fails_clean (lift (fun t => ZAdd t k ms nx xx gt lt ch)).
Proof. unfold ZAdd. solve_fails_clean. Qed.
Lemma ZIncrBy_clean k x m : fails_clean (lift (fun t => ZIncrBy t k x m)).
Proof. unfold ZIncrBy. solve_fails_clean. Qed.
Lemma ZRem_clean k ms : fails_clean (lift (fun t => ZRem t k ms)).
Proof. unfold ZRem. solve_fails_clean. Qed.
Lemma zpop_clean from k n : fails_clean (fun t => zpop from t k n).
Proof. unfold zpop. solve_fails_clean. Qed.
Lemma ZUnionStore_clean k ks ws agg : fails_clean (lift (fun t => ZUnionStore t k ks ws agg)).
Proof. unfold ZUnionStore. solve_fails_clean. Qed.
Lemma ZInterStore_clean k ks ws agg : fails_clean (lift (fun t => ZInterStore t k ks ws agg)).
Proof. unfold ZInterStore. solve_fails_clean. Qed.

#[export] Hint Resolve LPush_clean RPush_clean LPop_clean RPop_clean LSet_clean LInsert_clean
  LRem_clean LTrim_clean LMove_clean SAdd_clean SRem_clean SMove_clean SInterStore_clean
  SUnionStore_clean SDiffStore_clean ZAdd_clean ZIncrBy_clean ZRem_clean zpop_clean
  ZUnionStore_clean ZInterStore_clean : agree.
#[export] Hint Resolve Set_agrees Del_agrees Flush_agrees Persist_agrees HSet_agrees HDel_agrees
  LPush_agrees RPush_agrees LPop_agrees RPop_agrees LSet_agrees LInsert_agrees LRem_agrees
  LTrim_agrees LMove_agrees SAdd_agrees SRem_agrees SMove_agrees SInterStore_agrees
  SUnionStore_agrees SDiffStore_agrees ZAdd_agrees ZIncrBy_agrees ZRem_agrees zpop_agrees
  ZUnionStore_agrees ZInterStore_agrees lift_agrees : agree.
