(* ===== verification/Records.v ===== *)
(** * The record of each command

    For every handler of the registry: what the router logs for a [recoverable] command,
    replayed on a store that agrees with the one before it, leads to a store that agrees
    with the one after it.  What is recoverable depends on the window of time in which the
    log is written and replayed (file Agree). *)

From S2P Require Import Prelude GoLib Floats Protocol Glob Store Lists Sets Hashes ZSets Scan Cmd.
From S2P Require Import StringCmds DataCmds ZSetCmds ServerCmds PubSub Router Persistence Agree.
Open Scope cmd_scope.

(** ** Commands whose records restore what they did *)

Definition timed : list string :=
  ["SETEX"; "PSETEX"; "EXPIRE"; "PEXPIRE"; "EXPIREAT"; "PEXPIREAT"].

Definition asciiOnly (s : string) : bool := all_bytes (fun c => byte c <? 128) s.

(** Not: commands with a deadline the window does not admit at this time, SET and GETEX with
    options, SPOP, RENAME, and the STORE commands of sorted sets with options; the arguments of
    ZADD and ZINCRBY must be plain ASCII. *)
Definition recoverableAt `{Window} (now : Time) (args : list string) : bool :=
  let name := ToUpper (arg args 0) in
  (if oneOf name timed then admits now args else true) && negb (oneOf name ["SPOP"; "RENAME"]) &&
  (if String.eqb name "SET" then (length args <=? 3)%nat else true) &&
  (if String.eqb name "GETEX" then (length args <=? 2)%nat else true) &&
  (if oneOf name ["ZADD"; "ZINCRBY"] then forallb asciiOnly args else true) &&
  (if oneOf name ["ZUNIONSTORE"; "ZINTERSTORE"] then
     match ParseInt (arg args 2) with Some n => llen args <=? 3 + n | None => true end
   else true).

(** Without deadlines, at any time. *)
Definition recoverable (args : list string) : bool := recoverableAt (H := anytime) zeroTime args.

(** ** Programs that only read *)

Definition reads_only {S A} (c : cmd S A) : Prop := forall s, steps_keep (eq s) c.

Lemma run_keeps {S A} (P : S -> Prop) (c : cmd S A) clock i s a i' s' :
  steps_keep P c -> P s -> run c clock i s = Ret (a, i', s') -> P s'.
Proof.
  revert i s. induction c as [x|X f k IH|]; intros i s; cbn; [|intros [Hf Hk]|done].
  - by intros _ HP [= <- <- <-].
  - intros HP. destruct (f (clock i) s) as [[b s1]|?| |] eqn:E; try done.
    apply IH; [done|]. by eapply Hf.
Qed.

Lemma reads_only_run {S A} (c : cmd S A) clock i s a i' s' :
  reads_only c -> run c clock i s = Ret (a, i', s') -> s' = s.
Proof. intros Hc Hr. symmetry. by apply (run_keeps (eq s) c clock i s a i' s'). Qed.

Lemma reads_only_done {S A} (a : A) : reads_only (Done (S := S) a).
Proof. done. Qed.

Lemma reads_only_bind {S A B} (c : cmd S A) (k : A -> cmd S B) :
  reads_only c -> (forall a, reads_only (k a)) -> reads_only (cbind c k).
Proof. intros Hc Hk s. apply steps_keep_bind; [apply Hc|intros a; apply Hk]. Qed.

Lemma reads_only_query {S B} (f : Time -> S -> B) : reads_only (query f).
Proof. intros s. split; [|done]. by intros t s0 b s' -> [= _ <-]. Qed.

Lemma reads_only_queryP {S B} (f : Time -> S -> may_panic B) : reads_only (queryP f).
Proof.
  intros s. split; [|done]. intros t s0 b s' ->. destruct (f t s0); cbn; congruence.
Qed.

Lemma reads_only_crash {S A} : reads_only (Crash (S := S) (A := A)).
Proof. done. Qed.

Create HintDb reads.
#[export] Hint Resolve reads_only_done reads_only_query reads_only_queryP reads_only_crash : reads.

(** Walks over a handler. *)
Ltac reads :=
  repeat first
    [ progress intros
    | progress cbv zeta
    | progress (auto with reads)
    | apply reads_only_bind
    | case_match ].

Lemma mgetLoop_reads ks : reads_only (mgetLoop ks).
Proof. induction ks as [|k ks IH]; cbn [mgetLoop]; reads. Qed.

Lemma hmgetLoop_reads k fs : reads_only (hmgetLoop k fs).
Proof. induction fs as [|f fs IH]; cbn [hmgetLoop]; reads. Qed.
#[export] Hint Resolve mgetLoop_reads hmgetLoop_reads : reads.

(** The handler reads the store only. *)
Ltac read_handler :=
  intros args; match goal with |- reads_only ?c => let h := head_of c in unfold h end;
  unfold handleAlgebra, handleKeyScan, objectEncoding, objectConst, clockNow; reads.

(** ** What a handler does and what is logged for it *)

Section Sound.

Context `{W : Window} {L : Type} `{Appender L} (rnd : list string -> list string).

(** Replaying [recs] on [s'] rebuilds the data of [s1] and goes on with the rest of
    the log, whatever the clock reads. *)
Definition restores (recs : list (list string)) (s' s1 : MemoryStore) : Prop :=
  forall clock j n rest last, steady clock -> exists j' s1', agree s1 s1' /\
    run (applyAll rnd (recs ++ rest) n last) clock j s' =
    run (applyAll rnd rest (n + llen recs) last) clock j' s1'.

(** The program, run now, only appends [recs] to the log. *)
Definition logs (c : cmd (World L) unit) (clock : nat -> Time) (i : nat)
    (recs : list (list string)) : Prop :=
  forall w, exists i' l', run c clock i w = Ret (tt, i', mkWorld (wStore w) (wPubSub w) l') /\
    forall old, holds (wLog w) old -> holds l' (old ++ recs).

Definition is_error (resp : Response) : bool := RType_eqb (rType resp) TypeError.

(** The commands with two records, a SET and a PEXPIREAT. *)
Definition twoRecords : list string := ["SETEX"; "PSETEX"].

(** One run of a handler from [s] to [s1], the log being written at reading [i'] of the
    clock: an error has changed no data; otherwise what is logged leads from any store
    with the data of [s] to the data of [s1]. *)
Definition outcome_sound (name : string) (args : list string) (clock : nat -> Time)
    (s : MemoryStore) (resp : Response) (i' : nat) (s1 : MemoryStore) : Prop :=
  if is_error resp then same_data s s1
  else exists recs, (oneOf name twoRecords = false -> (length recs <= 1)%nat) /\
       logs (appendToAOF name args resp) clock i' recs /\
       forall s', agree s s' -> restores recs s' s1.

Definition handler_sound (name : string) (h : list string -> handler) : Prop :=
  forall a0 rest clock i s resp i' s1,
  ToUpper a0 = name -> recoverableAt (clock i) (a0 :: rest) = true -> steady clock -> settled s ->
  run (h (a0 :: rest)) clock i s = Ret (resp, i', s1) ->
  outcome_sound name (a0 :: rest) clock s resp i' s1.

Lemma logs_one args clock i : logs (aofAppend args) clock i [args].
Proof using Type.
  intros w. unfold aofAppend. rewrite run_update.
  do 2 eexists. split; [done|]. cbn. intros old. apply Append_holds.
Qed.

Lemma logs_none clock i : logs (Done tt) clock i [].
Proof using Type.
  intros w. exists i, (wLog w). split; [by destruct w|]. intros old. by rewrite app_nil_r.
Qed.

Lemma restores_none s' s1 : agree s1 s' -> restores [] s' s1.
Proof using Type.
  intros HR clock j n rest last _. exists j, s'. split; [done|].
  change (llen (A := list string) []) with 0. by rewrite Z.add_0_r.
Qed.

(** The record is applied without error and leads to the data of [s1]. *)
Definition applies (r : list string) (s' s1 : MemoryStore) : Prop :=
  forall clock j, steady clock -> exists j' s1', run (applyCommand rnd r) clock j s' = Ret (None, j', s1') /\
    agree s1 s1'.

Lemma restores_one r s' s1 : applies r s' s1 -> restores [r] s' s1.
Proof using Type.
  intros Ha clock j n rest last Hc. destruct (Ha clock j Hc) as (j' & s1' & Hr & HR).
  exists j', s1'. split; [done|]. cbn [app applyAll]. by rewrite run_bind, Hr.
Qed.

(** The two ways a reply that is no error ends. *)
Lemma sound_logged name args clock i' s resp s1 r :
  appendToAOF name args resp = aofAppend r -> is_error resp = false ->
  (forall s', agree s s' -> applies r s' s1) ->
  outcome_sound name args clock s resp i' s1.
Proof using Type.
  intros Hl He Ha. unfold outcome_sound. rewrite He. exists [r]. rewrite Hl.
  split; [done|]. split; [apply logs_one|]. intros s' HR. by apply restores_one, Ha.
Qed.

Lemma sound_silent name args clock i' s resp s1 :
  appendToAOF name args resp = Done tt -> same_data s s1 ->
  outcome_sound name args clock s resp i' s1.
Proof using Type.
  intros Hl Ha. unfold outcome_sound. destruct (is_error resp); [done|].
  exists []. rewrite Hl. split; [cbn; lia|]. split; [apply logs_none|]. intros s' HR.
  apply restores_none. by eapply agree_same_l.
Qed.

Lemma sound_error name args clock i' s msg s1 :
  same_data s s1 -> outcome_sound name args clock s (Error msg) i' s1.
Proof using Type. by intros. Qed.

(** ** Readers *)

Lemma reader_sound name (h : list string -> handler) :
  (forall args, reads_only (h args)) ->
  (forall args resp, appendToAOF name args resp = Done tt) ->
  handler_sound name h.
Proof using Type.
  intros Hr Hl a0 rest clock i s resp i' s1 _ _ _ HT Hrun.
  apply reads_only_run in Hrun as ->; [|done]. by apply sound_silent.
Qed.

(** ** One method call *)

(** A call whose result [k] turns into the reply. *)
Lemma run_callP {B} (m : Time -> MemoryStore -> may_panic (B * MemoryStore)) (k : B -> Response)
    clock i s resp i' s1 :
  run (cbind (callP m) (fun r => Done (k r))) clock i s = Ret (resp, i', s1) ->
  exists b, resp = k b /\ m (clock i) s = Ret (b, s1).
Proof using Type.
  cbn. destruct (m (clock i) s) as [[b s2]|?| |]; try done. intros [= <- <- <-]. by exists b.
Qed.

Lemma applies_callP {B} (m : Time -> MemoryStore -> may_panic (B * MemoryStore)) r t s s' b s1 :
  applyCommand rnd r = drop_result (callP m) -> method_agrees m -> reading t -> agree s s' ->
  m t s = Ret (b, s1) -> applies r s' s1.
Proof using Type.
  intros Hr Hm Ht HR Hms clock j Hc. rewrite Hr.
  destruct (Hm t (clock j) s s' b s1 Ht (steady_reading _ j Hc) HR Hms) as (s1' & Hm' & HR1).
  exists (S j), s1'. split; [|done]. cbn. by rewrite Hm'.
Qed.

(** A handler that calls a method with an error result and is logged verbatim. *)
Lemma sound_method {B} (m : Time -> MemoryStore -> may_panic (result B * MemoryStore))
    (reply : B -> Response) name args r clock i s resp i' s1 :
  run (cbind (callP m) (fun r => Done (onOk r reply))) clock i s = Ret (resp, i', s1) ->
  steady clock -> settled s -> method_agrees m -> fails_clean m ->
  (forall b, is_error (reply b) = false) ->
  (forall b, appendToAOF name args (reply b) = aofAppend r) ->
  applyCommand rnd r = drop_result (callP m) ->
  outcome_sound name args clock s resp i' s1.
Proof using Type.
  intros Hrun Hc HR Hm Hf Hb Hl Hr.
  apply (run_callP m (fun r => onOk r reply)) in Hrun as (b & -> & Hms).
  destruct b as [b|e]; cbn [onOk].
  - eapply sound_logged; [done..|]. intros s' HR'.
    eapply applies_callP; [done|done|by apply steady_reading|done..].
  - apply sound_error. by rewrite (Hf _ _ _ _ Hms).
Qed.

(** One that cannot fail. *)
Lemma sound_total {B} (m : Time -> MemoryStore -> B * MemoryStore)
    (reply : B -> Response) name args r clock i s resp i' s1 :
  run (cbind (callP (lift m)) (fun r => Done (reply r))) clock i s = Ret (resp, i', s1) ->
  steady clock -> settled s -> pure_agrees m ->
  (forall b, is_error (reply b) = false) ->
  (forall b, appendToAOF name args (reply b) = aofAppend r) ->
  applyCommand rnd r = drop_result (callP (lift m)) ->
  outcome_sound name args clock s resp i' s1.
Proof using Type.
  intros Hrun Hc HR Hm Hb Hl Hr.
  apply (run_callP (lift m) reply) in Hrun as (b & -> & Hms).
  eapply sound_logged; [done..|]. intros s' HR'.
  eapply applies_callP; [done|by apply lift_agrees|by apply steady_reading|done..].
Qed.

End Sound.

(** ** Each handler that writes *)

Ltac start_run :=
  intros a0 rest clock i s resp i' s1 Hn Hrec Hc HR.

(** An arity or syntax error of the handler. *)
Ltac bad_args := cbn [run]; intros [= <- <- <-]; by apply sound_error.

(** The replay of a record with this name runs this program. *)
Ltac open_apply :=
  cbn [applyCommand];
  unfold applyLists, applySets, applyZSets, members, exactly, atLeast, withInt.

Ltac replayed Hn :=
  open_apply; try rewrite Hn; cbn [String.eqb Ascii.eqb Bool.eqb orb];
  rewrite ?decide_False by (cbn; lia || done || tauto); reflexivity.

Section Writers.

Context `{W : Window} {L : Type} `{Appender L} (rnd : list string -> list string).

Lemma handleLPush_sound : handler_sound rnd "LPUSH" handleLPush.
Proof using Type.
  start_run. unfold handleLPush. case_decide as Hlen; [bad_args|]. intros Hrun.
  eapply (sound_method rnd (lift (fun t => LPush t _ _)) Integer);
    [exact Hrun|done|done| |auto with agree|done|done|replayed Hn].
  apply lift_agrees, LPush_agrees. destruct rest as [|? [|]]; cbn in *; [lia..|done].
Qed.

Lemma handleRPush_sound : handler_sound rnd "RPUSH" handleRPush.
Proof using Type.
  start_run. unfold handleRPush. case_decide as Hlen; [bad_args|]. intros Hrun.
  eapply (sound_method rnd (lift (fun t => RPush t _ _)) Integer);
    [exact Hrun|done|done| |auto with agree|done|done|replayed Hn].
  apply lift_agrees, RPush_agrees. destruct rest as [|? [|]]; cbn in *; [lia..|done].
Qed.

Lemma handleLSet_sound : handler_sound rnd "LSET" handleLSet.
Proof using Type.
  start_run. unfold handleLSet. case_decide as Hlen; [bad_args|].
  destruct (ParseInt _) as [idx|] eqn:Ei; [|bad_args]. intros Hrun.
  eapply (sound_method rnd (lift (fun t => LSet t _ _ _)) (fun _ => SimpleString "OK"));
    [exact Hrun|done|done|auto with agree|auto with agree|done|done|].
  open_apply. rewrite Hn, Ei. replayed Hn.
Qed.

(** Methods with an error result, logged verbatim. *)
Lemma members_sound (name : string)
    (m : Time -> string -> list string -> MemoryStore -> result Z * MemoryStore) :
  oneOf name verbatim = true ->
  (forall a0 rest, ToUpper a0 = name -> ~ (length (a0 :: rest) < 3)%nat ->
     applyCommand rnd (a0 :: rest) =
     drop_result (callP (lift (fun now => m now (arg (a0 :: rest) 1) (argsFrom 2 (a0 :: rest)))))) ->
  (forall k ms, pure_agrees (fun t => m t k ms)) ->
  (forall k ms, fails_clean (lift (fun t => m t k ms))) ->
  handler_sound rnd name (handleMembers name m).
Proof using Type.
  intros Hv Happ Hm Hf. start_run. unfold handleMembers. case_decide as Hlen; [bad_args|].
  intros Hrun.
  eapply (sound_method rnd (lift (fun t => m t _ _)) Integer);
    [exact Hrun|done|done|by apply lift_agrees|done|done|by unfold appendToAOF; rewrite Hv|auto].
Qed.

Lemma handleSAdd_sound : handler_sound rnd "SADD" handleSAdd.
Proof using Type.
  apply members_sound; [done| |auto with agree..]. intros a0 rest Hn Hlen. replayed Hn.
Qed.

Lemma handleSRem_sound : handler_sound rnd "SREM" handleSRem.
Proof using Type.
  apply members_sound; [done| |auto with agree..]. intros a0 rest Hn Hlen. replayed Hn.
Qed.

Lemma handleSInterStore_sound : handler_sound rnd "SINTERSTORE" handleSInterStore.
Proof using Type.
  apply members_sound; [done| |auto with agree..]. intros a0 rest Hn Hlen. replayed Hn.
Qed.

Lemma handleSUnionStore_sound : handler_sound rnd "SUNIONSTORE" handleSUnionStore.
Proof using Type.
  apply members_sound; [done| |auto with agree..]. intros a0 rest Hn Hlen. replayed Hn.
Qed.

Lemma handleSDiffStore_sound : handler_sound rnd "SDIFFSTORE" handleSDiffStore.
Proof using Type.
  apply members_sound; [done| |auto with agree..]. intros a0 rest Hn Hlen. replayed Hn.
Qed.

Lemma handleZRem_sound : handler_sound rnd "ZREM" handleZRem.
Proof using Type.
  start_run. unfold handleZRem. case_decide as Hlen; [bad_args|]. intros Hrun.
  eapply (sound_method rnd (lift (fun t => ZRem t _ _)) Integer);
    [exact Hrun|done|done|auto with agree|auto with agree|done|done|replayed Hn].
Qed.

Lemma handleSMove_sound : handler_sound rnd "SMOVE" handleSMove.
Proof using Type.
  start_run. unfold handleSMove. case_decide as Hlen; [bad_args|]. intros Hrun.
  eapply (sound_method rnd (lift (fun t => SMove t _ _ _)) boolReply);
    [exact Hrun|done|done|auto with agree|auto with agree|by intros []|done|replayed Hn].
Qed.

Lemma handleLInsert_sound : handler_sound rnd "LINSERT" handleLInsert.
Proof using Type.
  start_run. unfold handleLInsert. case_decide as Hlen; [bad_args|].
  destruct (eitherWord _ _ _) as [b|] eqn:Eb; [|bad_args]. intros Hrun.
  eapply (sound_method rnd (fun t => LInsert t _ _ _ _) Integer);
    [exact Hrun|done|done|auto with agree|auto with agree|done|done|].
  assert (String.eqb (ToUpper (arg (a0 :: rest) 2)) "BEFORE" = b) as <-; [|replayed Hn].
  unfold eitherWord in Eb. destruct (String.eqb (ToUpper _) "BEFORE"); [congruence|].
  destruct (String.eqb _ _); congruence.
Qed.

Lemma handleLTrim_sound : handler_sound rnd "LTRIM" handleLTrim.
Proof using Type.
  start_run. unfold handleLTrim. case_decide as Hlen; [bad_args|].
  destruct (ParseInt (arg _ 2)) as [lo|] eqn:Ea; [|bad_args].
  destruct (ParseInt (arg _ 3)) as [hi|] eqn:Eb; [|bad_args]. intros Hrun.
  eapply (sound_method rnd (fun t => LTrim t _ _ _) (fun _ => SimpleString "OK"));
    [exact Hrun|done|done|auto with agree|auto with agree|done|done|].
  open_apply. rewrite Hn, Ea, Eb. replayed Hn.
Qed.

(** The words of LMOVE. *)
Lemma eitherWord_first w b :
  eitherWord w "LEFT" "RIGHT" = Some b -> String.eqb (ToUpper w) "LEFT" = b.
Proof using Type.
  unfold eitherWord. destruct (String.eqb (ToUpper w) "LEFT"); [congruence|].
  destruct (String.eqb _ _); congruence.
Qed.

(** A move that reports nothing moved nothing. *)
Lemma LMove_none t src dst a b s s1 : LMove t src dst a b s = Ret (Ok None, s1) -> s1 = s.
Proof using Type.
  unfold LMove. case_decide; [done|]. case_decide; [done|].
  case_match; [by intros [= <-]|].
  destruct (takeEnd a _) as [[elem r]|?| |]; cbn [obind]; done.
Qed.

Lemma move_sound src dst a b name a0 rest clock i s resp i' s1 :
  oneOf name ["LMOVE"; "RPOPLPUSH"] = true -> oneOf name verbatim = false ->
  run (cbind (callP (fun t => LMove t src dst a b)) (fun r => Done (onOk r orNull))) clock i s =
    Ret (resp, i', s1) ->
  steady clock -> agree s s ->
  applyCommand rnd (a0 :: rest) = drop_result (callP (fun t => LMove t src dst a b)) ->
  outcome_sound rnd name (a0 :: rest) clock s resp i' s1.
Proof using Type.
  intros Hn Hv Hrun Hc HR Happ.
  apply (run_callP _ (fun r => onOk r orNull)) in Hrun as (r & -> & Hm).
  assert (forall resp, rType resp <> TypeNullBulkString ->
            appendToAOF name (a0 :: rest) resp = aofAppend (a0 :: rest)) as Hlog.
  { intros resp Ht. apply orb_true_iff in Hn as [Hn|Hn]; [|rewrite orb_false_r in Hn];
      apply String.eqb_eq in Hn as ->; cbn; unfold RType_eqb; by rewrite bool_decide_false. }
  destruct r as [[v|]|e]; cbn [onOk orNull].
  - eapply sound_logged; [by apply Hlog|done|]. intros s' HR'.
    eapply applies_callP; [done|auto with agree|by apply steady_reading|exact HR'|exact Hm].
  - apply LMove_none in Hm as ->. apply sound_silent; [|done].
    apply orb_true_iff in Hn as [Hn|Hn]; [|rewrite orb_false_r in Hn];
      by apply String.eqb_eq in Hn as ->.
  - apply sound_error. by rewrite (LMove_clean _ _ _ _ _ _ _ _ Hm).
Qed.

Lemma handleLMove_sound : handler_sound rnd "LMOVE" handleLMove.
Proof using Type.
  start_run. unfold handleLMove. case_decide as Hlen; [bad_args|].
  destruct (eitherWord (arg _ 3) _ _) as [a|] eqn:Ea; [|bad_args].
  destruct (eitherWord (arg _ 4) _ _) as [b|] eqn:Eb; [|bad_args]. intros Hrun.
  eapply move_sound; [done|done|exact Hrun|done|done|].
  apply eitherWord_first in Ea as <-, Eb as <-. replayed Hn.
Qed.

Lemma handleRPopLPush_sound : handler_sound rnd "RPOPLPUSH" handleRPopLPush.
Proof using Type.
  start_run. unfold handleRPopLPush. case_decide as Hlen; [bad_args|]. intros Hrun.
  eapply move_sound; [done|done|exact Hrun|done|done|replayed Hn].
Qed.

(** Methods without an error result, logged verbatim. *)
Lemma handleDel_sound : handler_sound rnd "DEL" handleDel.
Proof using Type.
  start_run. unfold handleDel. case_decide as Hlen; [bad_args|]. intros Hrun.
  eapply (sound_total rnd (fun t => Del t _) Integer);
    [exact Hrun|done|done|auto with agree|done|done|replayed Hn].
Qed.

Lemma HSet_sound name :
  oneOf name ["HSET"; "HMSET"] = true -> handler_sound rnd name handleHSet.
Proof using Type.
  intros Ho. start_run. unfold handleHSet. case_decide as Hlen; [bad_args|]. intros Hrun.
  apply orb_true_iff in Ho as [Ho|Ho]; [|rewrite orb_false_r in Ho];
    apply String.eqb_eq in Ho as ->;
    (eapply (sound_total rnd (fun _ => HSet _ _) Integer);
       [exact Hrun|done|done|auto with agree|done|done|replayed Hn]).
Qed.

Lemma handleHDel_sound : handler_sound rnd "HDEL" handleHDel.
Proof using Type.
  start_run. unfold handleHDel. case_decide as Hlen; [bad_args|]. intros Hrun.
  eapply (sound_total rnd (fun t => HDel t _ _) Integer);
    [exact Hrun|done|done|auto with agree|done|done|replayed Hn].
Qed.

Lemma handlePersist_sound : handler_sound rnd "PERSIST" handlePersist.
Proof using Type.
  start_run. unfold handlePersist. case_decide as Hlen; [bad_args|]. intros Hrun.
  eapply (sound_total rnd (fun t => Persist t _) boolReply);
    [exact Hrun|done|done|auto with agree|by intros []|done|replayed Hn].
Qed.

Lemma handleFlushDB_sound : handler_sound rnd "FLUSHDB" handleFlushDB.
Proof using Type.
  start_run. unfold handleFlushDB. case_decide as Hlen; [bad_args|]. intros Hrun.
  eapply (sound_total rnd (fun _ s => (tt, Flush s)) (fun _ => SimpleString "OK"));
    [exact Hrun|done|done|auto with agree|done|done|replayed Hn].
Qed.

Lemma handleFlushAll_sound : handler_sound rnd "FLUSHALL" handleFlushAll.
Proof using Type.
  start_run. unfold handleFlushAll. case_decide as Hlen; [bad_args|]. intros Hrun.
  eapply (sound_total rnd (fun _ s => (tt, Flush s)) (fun _ => SimpleString "OK"));
    [exact Hrun|done|done|auto with agree|done|done|replayed Hn].
Qed.

(** Commands that end in a plain SET. *)

(** Replaying SET does what [Set_] did. *)
Lemma applies_SET key v s s' : agree s s' -> applies rnd ["SET"; key; v] s' (Set_ key v s).
Proof using Type.
  intros HR clock j _. exists (S j), (Set_ key v s'). split; [reflexivity|]. by apply agree_Set.
Qed.

(** Without options SET stores the value without a deadline. *)
Lemma SetAdv_plain t key v s :
  exists old ex, SetAdv t key v 0 noOpts s = ((old, ex, true), Set_ key v s).
Proof using Type. unfold SetAdv. destruct (liveString t key s); cbn; eauto. Qed.

Lemma handleSet_sound : handler_sound rnd "SET" handleSet.
Proof using Type.
  start_run. unfold handleSet. case_decide as Hlen; [bad_args|].
  assert (length rest = 2%nat) as Hl.
  { unfold recoverableAt in Hrec. cbn [arg nth] in Hrec. rewrite Hn in Hrec.
    cbn in Hrec, Hlen. destruct (length rest) as [|[|[|]]]; cbn in *; try lia; done. }
  destruct rest as [|key [|v []]]; try done. cbn [argsFrom drop setOptions]. cbn.
  destruct (SetAdv_plain (clock i) key v s) as (old & ex & ->). cbn. intros [= <- <- <-].
  apply (sound_logged rnd _ _ _ _ _ _ _ [a0; key; v]); [done|done|].
  intros s' HR'.
  eapply (applies_callP rnd (lift (fun _ s => (tt, Set_ key v s))) _ (clock i) s);
    [replayed Hn|auto with agree|by apply steady_reading|done|done].
Qed.

Lemma handleSetNX_sound : handler_sound rnd "SETNX" handleSetNX.
Proof using Type.
  start_run. unfold handleSetNX. case_decide as Hlen; [bad_args|].
  rewrite run_bind, run_query. destruct (Get _ _ s); cbn; intros [= <- <- <-].
  - by apply sound_silent.
  - eapply sound_logged; [done|done|by intros; apply applies_SET].
Qed.

Lemma handleGetSet_sound : handler_sound rnd "GETSET" handleGetSet.
Proof using Type.
  start_run. unfold handleGetSet. case_decide as Hlen; [bad_args|].
  rewrite run_bind, run_query. cbn. intros [= <- <- <-].
  eapply sound_logged; [done| |by intros; apply applies_SET]. by destruct (Get _ _ s).
Qed.

Lemma incrBy_sound name a0 rest clock i s resp i' s1 delta :
  (forall resp, appendToAOF name (a0 :: rest) resp =
     aofAppend (L := L) ["SET"; arg (a0 :: rest) 1; FormatInt (rInteger resp)]) ->
  run (incrBy (arg (a0 :: rest) 1) delta) clock i s = Ret (resp, i', s1) ->
  outcome_sound rnd name (a0 :: rest) clock s resp i' s1.
Proof using Type.
  intros Hl. unfold incrBy. rewrite run_bind, run_query.
  destruct (match Get _ _ s with Some _ => _ | None => _ end) as [cur|]; [|bad_args].
  case_match; [bad_args|]. case_match; [bad_args|].
  rewrite run_bind, run_update. cbn [run]. intros [= <- <- <-].
  eapply sound_logged; [apply Hl|done|]. by intros; apply applies_SET.
Qed.

Lemma handleIncr_sound : handler_sound rnd "INCR" handleIncr.
Proof using Type.
  start_run. unfold handleIncr. case_decide as Hlen; [bad_args|]. by apply incrBy_sound.
Qed.

Lemma handleDecr_sound : handler_sound rnd "DECR" handleDecr.
Proof using Type.
  start_run. unfold handleDecr. case_decide as Hlen; [bad_args|]. by apply incrBy_sound.
Qed.

Lemma handleIncrBy_sound : handler_sound rnd "INCRBY" handleIncrBy.
Proof using Type.
  start_run. unfold handleIncrBy. case_decide as Hlen; [bad_args|].
  destruct (ParseInt _); [by apply incrBy_sound|bad_args].
Qed.

Lemma handleDecrBy_sound : handler_sound rnd "DECRBY" handleDecrBy.
Proof using Type.
  start_run. unfold handleDecrBy. case_decide as Hlen; [bad_args|].
  destruct (ParseInt _); [by apply incrBy_sound|bad_args].
Qed.

Lemma handleIncrByFloat_sound : handler_sound rnd "INCRBYFLOAT" handleIncrByFloat.
Proof using Type.
  start_run. unfold handleIncrByFloat. case_decide as Hlen; [bad_args|].
  destruct (ParseFloat (arg _ 2)) as [d|]; [|bad_args]. rewrite run_bind, run_query.
  destruct (match Get _ _ s with Some _ => _ | None => _ end) as [cur|]; [|bad_args].
  rewrite run_bind, run_update. cbn [run]. intros [= <- <- <-].
  eapply sound_logged; [done|done|by intros; apply applies_SET].
Qed.

Lemma handleGetDel_sound : handler_sound rnd "GETDEL" handleGetDel.
Proof using Type.
  start_run. unfold handleGetDel. case_decide as Hlen; [bad_args|].
  rewrite run_bind, run_query. destruct (Get _ _ s) as [v|]; cbn [run].
  - rewrite run_bind, run_call. cbn [run]. intros [= <- <- <-].
    eapply sound_logged; [done|done|]. intros s' HR'.
    eapply (applies_callP rnd (lift (fun t => Del t [_]))); [reflexivity|auto with agree|by apply steady_reading|done|].
    unfold lift. by rewrite <- surjective_pairing.
  - intros [= <- <- <-]. by apply sound_silent.
Qed.

Lemma handleAppend_sound : handler_sound rnd "APPEND" handleAppend.
Proof using Type.
  start_run. unfold handleAppend. case_decide as Hlen; [bad_args|].
  rewrite run_bind, run_query. rewrite run_bind, run_update. cbn [run].
  intros [= <- <- <-]. apply (sound_logged rnd _ _ _ _ _ _ _ (a0 :: rest)); [done|done|].
  intros s' HR' clock' j Hc'. open_apply. rewrite Hn. cbn [String.eqb Ascii.eqb Bool.eqb].
  unfold applyAppend. rewrite decide_False by tauto. rewrite run_bind, run_query.
  rewrite (agree_Get _ _ HR' (clock i)) by by apply steady_reading. unfold drop_result. rewrite run_bind, run_update.
  cbn [run]. do 2 eexists. split; [done|]. by apply agree_Set.
Qed.

Lemma msetLoop_agrees kvs clock clock' i j s s' :
  agree s s' -> exists i' j' s1 s1',
    run (msetLoop kvs) clock i s = Ret (tt, i', s1) /\
    run (msetLoop kvs) clock' j s' = Ret (tt, j', s1') /\ agree s1 s1'.
Proof using Type.
  revert i j s s'. induction kvs as [|[k v] kvs IH]; intros i j s s' HR.
  - by exists i, j, s, s'.
  - cbn [msetLoop]. rewrite !run_bind, !run_update. apply IH. by apply agree_Set.
Qed.

Lemma handleMSet_sound : handler_sound rnd "MSET" handleMSet.
Proof using Type.
  start_run. unfold handleMSet. case_decide as Hlen; [bad_args|]. rewrite run_bind. intros Hrun.
  apply (sound_logged rnd _ _ _ _ _ _ _ (a0 :: rest)).
  1, 2: destruct (msetLoop_agrees (pairs (argsFrom 1 (a0 :: rest))) clock clock i i s s HR)
    as (i1 & j1 & s2 & s2' & Hr & _ & _); rewrite Hr in Hrun; by injection Hrun as <- <- <-.
  intros s' HR' clock' j _.
  destruct (msetLoop_agrees (pairs (argsFrom 1 (a0 :: rest))) clock clock' i j s s' HR')
    as (i1 & j1 & s2 & s2' & Hr & Hr' & HR2).
  rewrite Hr in Hrun. injection Hrun as <- <- <-. exists j1, s2'. split; [|done].
  assert (applyCommand rnd (a0 :: rest) =
          drop_result (msetLoop (pairs (argsFrom 1 (a0 :: rest))))) as -> by replayed Hn.
  unfold drop_result. by rewrite run_bind, Hr'.
Qed.

(** LPUSHX and RPUSHX: the test of the type comes first. *)
Lemma pushX_sound name
    (push : Time -> string -> list string -> MemoryStore -> result Z * MemoryStore)
    a0 rest clock i s resp i' s1 :
  (forall resp, appendToAOF name (a0 :: rest) resp = aofAppend (L := L) (a0 :: rest)) ->
  applyCommand rnd (a0 :: rest) = applyPushX push (a0 :: rest) ->
  ~ (length (a0 :: rest) < 3)%nat ->
  (forall k vs, vs <> [] -> pure_agrees (fun t => push t k vs)) ->
  (forall k vs, fails_clean (lift (fun t => push t k vs))) ->
  steady clock -> agree s s ->
  run (let* t := query (fun now => Type_ now (arg (a0 :: rest) 1)) in
       if negb (String.eqb t "list") then Done (Integer 0)
       else
         let* r := call (fun now => push now (arg (a0 :: rest) 1) (argsFrom 2 (a0 :: rest))) in
         Done (onOk r Integer)) clock i s = Ret (resp, i', s1) ->
  outcome_sound rnd name (a0 :: rest) clock s resp i' s1.
Proof using Type.
  intros Hl Happ Hlen Hm Hf Hc HR. rewrite run_bind, run_query.
  assert (argsFrom 2 (a0 :: rest) <> []) as Hne.
  { destruct rest as [|? [|]]; cbn in *; [lia..|done]. }
  assert (forall s' clock' j, steady clock' -> agree s s' -> run (applyCommand rnd (a0 :: rest)) clock' j s' =
    run (if String.eqb (Type_ (clock i) (arg (a0 :: rest) 1) s) "list" then
           drop_result (call (fun now => push now (arg (a0 :: rest) 1) (argsFrom 2 (a0 :: rest))))
         else Done None) clock' (S j) s') as Hr.
  { intros s' clock' j Hc' HR'. rewrite Happ. unfold applyPushX. rewrite decide_False by done.
    rewrite run_bind, run_query, (agree_Type _ _ HR' (clock i)) by by apply steady_reading. done. }
  destruct (String.eqb (Type_ _ _ s) "list"); cbn [negb run].
  - intros Hrun. apply (run_callP (lift (fun t => push t _ _))) in Hrun as ([n|e] & -> & Hms).
    + eapply sound_logged; [apply Hl|done|]. intros s' HR' clock' j Hc'. rewrite Hr by done.
      destruct (lift_agrees _ (Hm _ _ Hne) _ (clock' (S j)) _ _ _ _ (steady_reading _ _ Hc)
        (steady_reading _ _ Hc') HR' Hms) as (s1' & Hm' & HR1).
      exists (S (S j)), s1'. split; [|done]. unfold drop_result. rewrite run_bind.
      change (call ?f) with (callP (lift f)). cbn [callP run cbind]. by rewrite Hm'.
    + apply sound_error. by rewrite (Hf _ _ _ _ _ _ Hms).
  - intros [= <- <- <-]. eapply sound_logged; [apply Hl|done|]. intros s' HR' clock' j Hc'. rewrite Hr by done.
    by exists (S j), s'.
Qed.

Lemma handleLPushX_sound : handler_sound rnd "LPUSHX" handleLPushX.
Proof using Type.
  start_run. unfold handleLPushX. case_decide as Hlen; [bad_args|].
  apply pushX_sound; auto with agree. replayed Hn.
Qed.

Lemma handleRPushX_sound : handler_sound rnd "RPUSHX" handleRPushX.
Proof using Type.
  start_run. unfold handleRPushX. case_decide as Hlen; [bad_args|].
  apply pushX_sound; auto with agree. replayed Hn.
Qed.

(** HINCRBY and HINCRBYFLOAT are logged as HSET. *)
Lemma applies_HSET key field v s s' :
  agree s s' -> applies rnd ["HSET"; key; field; v] s' (snd (HSet key {[field := v]} s)).
Proof using Type.
  intros HR. destruct some_steady as [clock Hc].
  eapply (applies_callP rnd (lift (fun _ => HSet key {[field := v]})) _ (clock O) s).
  - reflexivity.
  - auto with agree.
  - by apply steady_reading.
  - done.
  - unfold lift. by rewrite <- surjective_pairing.
Qed.

Lemma handleHIncrBy_sound : handler_sound rnd "HINCRBY" handleHIncrBy.
Proof using Type.
  start_run. unfold handleHIncrBy. case_decide as Hlen; [bad_args|].
  rewrite run_bind, run_query.
  destruct (match HGet _ _ _ s with Some _ => _ | None => _ end) as [cur|]; [|bad_args].
  destruct (parseInt64 (arg _ 3)) as [d|]; [|bad_args].
  rewrite run_bind, run_call. cbn [run]. intros [= <- <- <-].
  eapply sound_logged; [|done|by intros; apply applies_HSET].
  unfold appendToAOF. cbv beta zeta.
  by rewrite (bool_decide_true (length (a0 :: rest) = 4%nat)) by done.
Qed.

Lemma handleHIncrByFloat_sound : handler_sound rnd "HINCRBYFLOAT" handleHIncrByFloat.
Proof using Type.
  start_run. unfold handleHIncrByFloat. case_decide as Hlen; [bad_args|].
  destruct (ParseFloat (arg _ 3)) as [d|]; [|bad_args]. rewrite run_bind, run_query.
  destruct (match HGet _ _ _ s with Some _ => _ | None => _ end) as [cur|]; [|bad_args].
  rewrite run_bind, run_call. cbn [run]. intros [= <- <- <-].
  eapply sound_logged; [|done|by intros; apply applies_HSET].
  unfold appendToAOF. cbv beta zeta.
  by rewrite (bool_decide_true (length (a0 :: rest) = 4%nat)) by done.
Qed.

(** LREM is logged when it removed something. *)
Lemma LRem_none t k c v s n s1 : LRem t k c v s = (Ok n, s1) -> n <= 0 -> s1 = s.
Proof using Type.
  unfold LRem. destruct (getList t k s) as [[l|]|]; [|by intros [= _ <-]|done].
  destruct (if 0 <=? c then _ else _) as [removed newList].
  destruct (0 <? removed) eqn:E; zbool; intros [= <- <-]; [lia|done].
Qed.

Lemma handleLRem_sound : handler_sound rnd "LREM" handleLRem.
Proof using Type.
  start_run. unfold handleLRem. case_decide as Hlen; [bad_args|].
  destruct (ParseInt _) as [c|] eqn:Ec; [|bad_args]. intros Hrun.
  apply (run_callP (lift (fun t => LRem t _ c _)) (fun r => onOk r Integer))
    in Hrun as ([n|e] & -> & Hm); cbn [onOk].
  - destruct (0 <? n) eqn:En; zbool.
    + eapply sound_logged; [|done|].
      * cbn. by replace (0 <? n) with true by lia.
      * intros s' HR'. eapply applies_callP;
          [|apply lift_agrees, LRem_agrees|by apply steady_reading|exact HR'|exact Hm].
        open_apply. rewrite Hn, Ec. replayed Hn.
    + unfold lift in Hm. injection Hm as Hm. rewrite (LRem_none _ _ _ _ _ _ _ Hm) by lia.
      apply sound_silent; [|done]. cbn. by replace (0 <? n) with false by lia.
  - apply sound_error. by rewrite (LRem_clean _ _ _ _ _ _ _ Hm).
Qed.

(** LPOP and RPOP are logged unless the reply is nil: then there was no list. *)
Lemma LPop_nil t k n s l s1 s' :
  agree s s' -> 0 < n -> LPop t k n s = Ret (Ok l, s1) ->
  match l with None => s1 = s | Some l => l <> [] end.
Proof using Type.
  intros [_ _ _ _ _ _ Hl] Hn. unfold LPop, getList.
  case_decide; [by intros [= <- <-]|]. case_decide; [done|].
  destruct (lists s !! k) as [l0|] eqn:E; [|by intros [= <- <-]].
  pose proof (Hl k l0 E) as Hne. case_match eqn:Hc; [done|].
  destruct (slice l0 _ _) as [rest|?| |]; cbn [obind]; try done. intros [= <- <-].
  destruct l0 as [|x l0]; [done|]. zbool. unfold ltake.
  assert (1 <= llen (x :: l0)) by (unfold llen; cbn [length]; lia).
  destruct (llen (x :: l0) <? n); destruct (Z.to_nat _) eqn:Ez; try lia; done.
Qed.

Lemma RPop_nil t k n s l s1 s' :
  agree s s' -> 0 < n -> RPop t k n s = Ret (Ok l, s1) ->
  match l with None => s1 = s | Some l => l <> [] end.
Proof using Type.
  intros [_ _ _ _ _ _ Hl] Hn. unfold RPop, getList.
  case_decide; [by intros [= <- <-]|]. case_decide; [done|].
  destruct (lists s !! k) as [l0|] eqn:E; [|by intros [= <- <-]].
  pose proof (Hl k l0 E) as Hne. case_match eqn:Hc; [done|].
  destruct (copyTail l0 _ _) as [res|?| |] eqn:Et; cbn [obind]; try done.
  destruct (slice l0 _ _) as [rest|?| |]; cbn [obind]; try done. intros [= <- <-].
  destruct l0 as [|x l0]; [done|]. zbool.
  assert (1 <= llen (x :: l0)) by (unfold llen; cbn [length]; lia).
  destruct (Z.to_nat _) as [|m] eqn:Ez; [destruct (llen (x :: l0) <? n); lia|].
  cbn [copyTail] in Et. destruct (index _ _); cbn [obind] in Et; try done.
  destruct (copyTail _ _ m); cbn [obind] in Et; by inversion Et.
Qed.

Lemma pop_sound name
    (pop : Time -> string -> Z -> MemoryStore ->
           may_panic (result (option (list string)) * MemoryStore)) :
  oneOf name ["LPOP"; "RPOP"] = true ->
  (forall k n, method_agrees (fun t => pop t k n)) ->
  (forall k n, fails_clean (fun t => pop t k n)) ->
  (forall t k n s l s1 s', agree s s' -> 0 < n -> pop t k n s = Ret (Ok l, s1) ->
     match l with None => s1 = s | Some l => l <> [] end) ->
  (forall t k n s s1, pop t k n s = Ret (Ok None, s1) -> s1 = s) ->
  (forall a0 rest, ToUpper a0 = name -> ~ (length (a0 :: rest) < 2)%nat ->
     applyCommand rnd (a0 :: rest) =
     drop_result (callP (fun t => pop t (arg (a0 :: rest) 1) (optionalCount (a0 :: rest))))) ->
  handler_sound rnd name (handlePop name pop).
Proof using Type.
  intros Ho Hm Hf Hnil Hnone Happ. start_run. unfold handlePop. case_decide as Hlen; [bad_args|].
  destruct (if bool_decide _ then _ else _) as [count|] eqn:Ec; [|bad_args]. intros Hrun.
  assert (count = optionalCount (a0 :: rest)) as ->.
  { unfold optionalCount. destruct (bool_decide_reflect (length (a0 :: rest) = 3%nat)).
    - rewrite decide_True by done. unfold parseNonNegative in Ec.
      destruct (ParseInt _) as [x|]; [|done]. destruct (x <? 0); [done|]. by injection Ec as ->.
    - rewrite decide_False by done. by injection Ec as <-. }
  apply (run_callP (fun t => pop t _ _)
           (fun r => onOk r (popReply (bool_decide (length (a0 :: rest) = 3%nat)))))
    in Hrun as ([l|e] & -> & Hms); cbn [onOk].
  2: { apply sound_error. by rewrite (Hf _ _ _ _ _ _ Hms). }
  assert (forall resp, rType resp <> TypeNullBulkString -> rType resp <> TypeNullArray ->
            appendToAOF name (a0 :: rest) resp = aofAppend (a0 :: rest)) as Hlog.
  { intros resp Ht1 Ht2. apply orb_true_iff in Ho as [Ho|Ho]; [|rewrite orb_false_r in Ho];
      apply String.eqb_eq in Ho as ->; cbn; unfold RType_eqb;
      by rewrite !bool_decide_false. }
  assert (forall s', agree s s' -> applies rnd (a0 :: rest) s' s1) as Ha.
  { intros s' HR'. eapply applies_callP;
      [apply Happ; [done|lia]|apply Hm|by apply steady_reading|exact HR'|exact Hms]. }
  destruct l as [l|]; cbn [popReply].
  - destruct (bool_decide_reflect (length (a0 :: rest) = 3%nat)) as [H3|H3]; cbn [negb].
    + eapply sound_logged; [by apply Hlog|done|done].
    + assert (optionalCount (a0 :: rest) = 1) as H1.
      { unfold optionalCount. by rewrite decide_False. }
      rewrite H1 in Hms. pose proof (Hnil _ _ _ _ _ _ _ HR Z.lt_0_1 Hms).
      destruct l as [|v l]; [done|]. eapply sound_logged; [by apply Hlog|done|done].
  - rewrite (Hnone _ _ _ _ _ Hms). apply sound_silent; [|done].
    apply orb_true_iff in Ho as [Ho|Ho]; [|rewrite orb_false_r in Ho];
      by apply String.eqb_eq in Ho as ->.
Qed.

Lemma handleLPop_sound : handler_sound rnd "LPOP" handleLPop.
Proof using Type.
  apply pop_sound; auto with agree; [exact LPop_nil| |].
  - intros t k n s s1. unfold LPop. destruct (getList t k s) as [[l|]|]; try (by intros [= <-]).
    case_match; [done|]. by destruct (slice _ _ _).
  - intros a0 rest Hn Hlen. replayed Hn.
Qed.

Lemma handleRPop_sound : handler_sound rnd "RPOP" handleRPop.
Proof using Type.
  apply pop_sound; auto with agree; [exact RPop_nil| |].
  - intros t k n s s1. unfold RPop. destruct (getList t k s) as [[l|]|]; try (by intros [= <-]).
    case_match; [done|]. destruct (copyTail _ _ _); try done. by destruct (slice _ _ _).
  - intros a0 rest Hn Hlen. replayed Hn.
Qed.

(** ZADD and ZINCRBY parse a score with [parseScore]; replay with [ParseFloat]. *)
Lemma ToLower_ascii s : asciiOnly s = true -> ToLower s = asciiLower s.
Proof using Type.
  induction s as [|c s IH]; [done|]. unfold asciiOnly. cbn [all_bytes].
  intros [Hc Hs]%andb_true_iff. specialize (IH Hs). destruct s as [|d s]; [done|].
  cbn [asciiLower] in *. cbn [ToLower]. zbool. replace (byte c =? 196) with false by lia.
  replace (byte c =? 226) with false by lia. cbn [andb]. destruct s; by rewrite <- IH.
Qed.

Lemma lower_byte_sign c d :
  lower_byte c = d -> (d = "+"%char \/ d = "-"%char -> c = d) /\
  (d = "i"%char -> Ascii.eqb c "+"%char = false /\ Ascii.eqb c "-"%char = false).
Proof using Type.
  intros <-. split; [intros [H1|H1]|intros H1]; revert H1;
    destruct c as [[] [] [] [] [] [] [] []]; vm_compute; done || congruence.
Qed.

Lemma parseScore_ascii s : asciiOnly s = true -> parseScore s = ParseFloat s.
Proof using Type.
  intros Ha. unfold parseScore. rewrite ToLower_ascii by done.
  destruct (String.eqb (asciiLower s) "+inf" || _) eqn:Ep.
  - unfold ParseFloat. assert (special s = Some (F64.Inf false)) as ->; [|done].
    destruct s as [|c s]; [done|]. cbn [asciiLower] in Ep.
    apply orb_true_iff in Ep as [Ep|Ep]; apply String.eqb_eq in Ep; injection Ep as Hc Hs.
    + apply lower_byte_sign in Hc as [Hc _]. rewrite Hc by auto. unfold special. cbn.
      by rewrite Hs.
    + pose proof Hc as Hc'. apply lower_byte_sign in Hc' as [_ Hc'].
      destruct (Hc' eq_refl) as [H1 H2]. unfold special. rewrite H1, H2.
      cbn [asciiLower]. by rewrite Hc, Hs.
  - destruct (String.eqb (asciiLower s) "-inf") eqn:Em; [|done].
    unfold ParseFloat. assert (special s = Some (F64.Inf true)) as ->; [|done].
    destruct s as [|c s]; [done|]. cbn [asciiLower] in Em. apply String.eqb_eq in Em.
    injection Em as Hc Hs. apply lower_byte_sign in Hc as [Hc _]. rewrite Hc by auto.
    unfold special. cbn. by rewrite Hs.
Qed.

Lemma pairs_incl l : Forall (fun kv => kv.1 ∈ l) (pairs l).
Proof using Type.
  enough (forall n l, (length l <= n)%nat -> Forall (fun kv => kv.1 ∈ l) (pairs l)) by eauto.
  clear l. induction n as [|n IH]; intros l Hl; [by destruct l; cbn in Hl; [|lia]|].
  destruct l as [|a [|b l]]; cbn [pairs]; [done|done|]. constructor; [left|].
  cbn in Hl. eapply Forall_impl; [apply (IH l); lia|]. intros kv Hk. by right; right.
Qed.

Lemma zaddMembers_ext f g kvs :
  Forall (fun kv => f kv.1 = g kv.1) kvs -> zaddMembers f kvs = zaddMembers g kvs.
Proof using Type.
  induction 1 as [|[sc m] kvs Hk _ IH]; [done|]. cbn in *. by rewrite Hk, IH.
Qed.

Lemma zaddOptions_incl rest f w : w ∈ snd (zaddOptions rest f) -> w ∈ rest.
Proof using Type.
  revert f. induction rest as [|x rest IH]; intros f; [done|]. cbn [zaddOptions].
  repeat (case_match; [by intros ?%IH; right|]). done.
Qed.

Lemma recoverable_ascii now args w :
  oneOf (ToUpper (arg args 0)) ["ZADD"; "ZINCRBY"] = true -> recoverableAt now args = true ->
  w ∈ args -> asciiOnly w = true.
Proof using Type.
  intros Ho Hr Hw. unfold recoverableAt in Hr. rewrite Ho in Hr.
  rewrite !andb_true_iff in Hr. destruct Hr as [[_ Hr] _].
  rewrite List.forallb_forall in Hr. apply Hr. by apply list_elem_of_In.
Qed.

Lemma handleZAdd_sound : handler_sound rnd "ZADD" handleZAdd.
Proof using Type.
  start_run. unfold handleZAdd. case_decide as Hlen; [bad_args|].
  destruct (zaddOptions _ _) as [f ms] eqn:Eo. case_match; [bad_args|]. case_match; [bad_args|].
  case_decide as Hodd; [bad_args|].
  destruct (zaddMembers _ _) as [members|] eqn:Em; [|bad_args]. intros Hrun.
  eapply (sound_method rnd (lift (fun t => ZAdd t _ _ _ _ _ _ _)) Integer);
    [exact Hrun|done|done|auto with agree|auto with agree|done|done|].
  open_apply. rewrite Hn. cbn [String.eqb Ascii.eqb Bool.eqb orb]. unfold applyZAdd.
  rewrite decide_False by done. rewrite Eo, decide_False by tauto.
  rewrite <- (zaddMembers_ext parseScore), Em; [done|].
  eapply Forall_impl; [apply pairs_incl|]. intros kv Hk. apply parseScore_ascii.
  apply (recoverable_ascii (clock i) (a0 :: rest)); [by cbn [arg nth]; rewrite Hn|done|].
  assert (kv.1 ∈ argsFrom 2 (a0 :: rest)) as Hin.
  { apply (zaddOptions_incl _ noFlags). by rewrite Eo. }
  unfold argsFrom in Hin. rewrite <- (take_drop 2 (a0 :: rest)). apply elem_of_app. by right.
Qed.

Lemma handleZIncrBy_sound : handler_sound rnd "ZINCRBY" handleZIncrBy.
Proof using Type.
  start_run. unfold handleZIncrBy. case_decide as Hlen; [bad_args|].
  destruct (parseScore _) as [incr|] eqn:Es; [|bad_args]. intros Hrun.
  eapply (sound_method rnd (lift (fun t => ZIncrBy t _ _ _))
            (fun score => BulkString (formatScore score)));
    [exact Hrun|done|done|auto with agree|auto with agree|done|done|].
  rewrite parseScore_ascii in Es.
  - open_apply. rewrite Hn, Es. replayed Hn.
  - apply (recoverable_ascii (clock i) (a0 :: rest)); [by cbn [arg nth]; rewrite Hn|done|].
    destruct rest as [|? [|? []]]; cbn in Hlen; try lia. cbn. set_solver.
Qed.

(** A pop of sorted set members that returns none leaves the data alone. *)
Lemma zpop_none from t k n s s1 :
  zpop from t k n s = Ret (Ok [], s1) -> same_data s s1.
Proof using Type.
  unfold zpop, getZSet. case_decide; [by intros [= <-]|].
  case_decide; [done|]. destruct (zsets s !! k) as [[sc]|] eqn:Ez; [|by intros [= <-]].
  case_decide as Hsz; [by intros [= <-]|]. case_match; [done|]. intros [= Hr <-]. rewrite Hr.
  cbn [zdelete foldl scores]. unfold putZSet. rewrite decide_False by done.
  rewrite insert_id by done. by split.
Qed.

Lemma withScores_nil l : withScoresOf true l = [] -> l = [].
Proof using Type. by destruct l. Qed.

Lemma zpop_sound name from :
  oneOf name ["ZPOPMIN"; "ZPOPMAX"] = true ->
  (forall a0 rest, ToUpper a0 = name -> ~ (length (a0 :: rest) < 2)%nat ->
     applyCommand rnd (a0 :: rest) =
     drop_result (callP (fun t => zpop from t (arg (a0 :: rest) 1) (optionalCount (a0 :: rest))))) ->
  handler_sound rnd name (handleZPop name (zpop from)).
Proof using Type.
  intros Ho Happ. start_run. unfold handleZPop. case_decide as Hlen; [bad_args|].
  destruct (if decide _ then _ else _) as [count|] eqn:Ec; [|bad_args]. intros Hrun.
  assert (count = optionalCount (a0 :: rest)) as ->.
  { unfold optionalCount. case_decide.
    - unfold parseNonNegative in Ec. destruct (ParseInt _) as [x|]; [|done].
      destruct (x <? 0); [done|]. by injection Ec as ->.
    - by injection Ec as <-. }
  apply (run_callP (fun t => zpop from t _ _)
           (fun r => onOk r (fun ms => bulks (withScoresOf true ms))))
    in Hrun as ([ms|e] & -> & Hms); cbn [onOk].
  2: { apply sound_error. by rewrite (zpop_clean _ _ _ _ _ _ _ Hms). }
  assert (forall resp, appendToAOF name (a0 :: rest) resp =
            if 0 <? llen (rArray resp) then aofAppend (a0 :: rest) else Done tt) as Hlog.
  { intros resp. apply orb_true_iff in Ho as [Ho|Ho]; [|rewrite orb_false_r in Ho];
      by apply String.eqb_eq in Ho as ->. }
  destruct ms as [|m ms].
  - apply sound_silent; [by rewrite Hlog|]. by eapply zpop_none.
  - eapply sound_logged; [|done|].
    + rewrite Hlog. cbn [withScoresOf bulks rArray Array fmap list_fmap]. done.
    + intros s' HR'.
      eapply applies_callP;
        [apply Happ; [done|lia]|apply zpop_agrees|by apply steady_reading|exact HR'|exact Hms].
Qed.

Lemma handleZPopMin_sound : handler_sound rnd "ZPOPMIN" handleZPopMin.
Proof using Type. apply zpop_sound; [done|]. intros a0 rest Hn Hlen. replayed Hn. Qed.

Lemma handleZPopMax_sound : handler_sound rnd "ZPOPMAX" handleZPopMax.
Proof using Type. apply zpop_sound; [done|]. intros a0 rest Hn Hlen. replayed Hn. Qed.

(** Replay passes no weights, the handler weights of one. *)
Lemma weightAt_ones n i : weightAt (repeat (F64.of_Z 1) n) i = weightAt [] i.
Proof using Type.
  unfold weightAt. rewrite lookup_nil. destruct (repeat _ n !! i) as [w|] eqn:E; [|done].
  apply list_elem_of_lookup_2, list_elem_of_In, repeat_spec in E. by rewrite E.
Qed.

Lemma zunionLoop_ones t ks i n agg acc s :
  zunionLoop t ks i (repeat (F64.of_Z 1) n) agg acc s = zunionLoop t ks i [] agg acc s.
Proof using Type.
  revert i acc. induction ks as [|k ks IH]; intros i acc; cbn [zunionLoop]; [done|].
  destruct (getZSet t k s) as [[z|]|]; [|apply IH|done]. by rewrite weightAt_ones, IH.
Qed.

Lemma zinterLoop_ones t ks i n agg acc s :
  zinterLoop t ks i (repeat (F64.of_Z 1) n) agg acc s = zinterLoop t ks i [] agg acc s.
Proof using Type.
  revert i acc. induction ks as [|k ks IH]; intros i acc; cbn [zinterLoop]; [done|].
  destruct (getZSet t k s) as [z|]; [|done]. by rewrite weightAt_ones, IH.
Qed.

Lemma ZUnionStore_ones t dst ks n agg s :
  ZUnionStore t dst ks (repeat (F64.of_Z 1) n) agg s = ZUnionStore t dst ks [] agg s.
Proof using Type. unfold ZUnionStore. by rewrite zunionLoop_ones. Qed.

Lemma ZInterStore_ones t dst ks n agg s :
  ZInterStore t dst ks (repeat (F64.of_Z 1) n) agg s = ZInterStore t dst ks [] agg s.
Proof using Type.
  unfold ZInterStore. destruct ks as [|k ks]; [done|].
  destruct (getZSet t k s) as [z|]; [|done]. by rewrite zinterLoop_ones, weightAt_ones.
Qed.

Lemma zstore_sound name word (inter : bool) :
  oneOf name ["ZUNIONSTORE"; "ZINTERSTORE"] = true ->
  (forall a0 rest, ToUpper a0 = name ->
     applyCommand rnd (a0 :: rest) = applyStore (negb inter) (a0 :: rest)) ->
  handler_sound rnd name (fun args => handleZSetStore word args inter).
Proof using Type.
  intros Ho Happ. start_run. unfold handleZSetStore. case_decide as Hlen; [bad_args|].
  destruct (ParseInt _) as [n|] eqn:En; [|bad_args].
  destruct (n <? 1) eqn:E1; [bad_args|]. destruct (llen _ <? wrap64 _) eqn:E2; [bad_args|].
  destruct (llen _ <? 3 + n) eqn:E3; [done|].
  assert (drop (Z.to_nat n) (argsFrom 3 (a0 :: rest)) = []) as Hrest.
  { unfold recoverableAt in Hrec. cbn [arg nth] in Hrec. rewrite Hn, Ho in Hrec.
    change (nth 1 rest "") with (arg (a0 :: rest) 2) in Hrec. rewrite En in Hrec.
    rewrite !andb_true_iff in Hrec. destruct Hrec as [_ Hrec]. zbool.
    apply drop_ge. unfold argsFrom. rewrite length_drop. unfold llen in *. lia. }
  rewrite Hrest. cbn [zstoreOptions length]. intros Hrun.
  set (keys := take (Z.to_nat n) (argsFrom 3 (a0 :: rest))) in *.
  set (m := fun now => if inter then ZInterStore now (arg (a0 :: rest) 1) keys [] "SUM"
                       else ZUnionStore now (arg (a0 :: rest) 1) keys [] "SUM").
  assert (run (cbind (callP (lift m)) (fun r => Done (onOk r Integer))) clock i s =
          Ret (resp, i', s1)) as Hrun'.
  { rewrite <- Hrun, !run_bind. unfold m, lift, callP, call. cbn [run].
    destruct inter; [by rewrite ZInterStore_ones|by rewrite ZUnionStore_ones]. }
  eapply (sound_method rnd (lift m) Integer); [exact Hrun'|done|done| | |done| |].
  - apply lift_agrees. unfold m. destruct inter; auto with agree.
  - unfold m. destruct inter; auto with agree.
  - intros b. apply orb_true_iff in Ho as [Ho|Ho]; [|rewrite orb_false_r in Ho];
      by apply String.eqb_eq in Ho as ->.
  - rewrite Happ by done. unfold applyStore. rewrite decide_False by done.
    rewrite En, E1, E2, E3. cbn [orb]. unfold m. by destruct inter.
Qed.

Lemma handleZUnionStore_sound : handler_sound rnd "ZUNIONSTORE" handleZUnionStore.
Proof using Type. apply (zstore_sound _ _ false); [done|]. intros a0 rest Hn. replayed Hn. Qed.

Lemma handleZInterStore_sound : handler_sound rnd "ZINTERSTORE" handleZInterStore.
Proof using Type. apply (zstore_sound _ _ true); [done|]. intros a0 rest Hn. replayed Hn. Qed.

(** GETEX without options reads. *)
Lemma handleGetEX_sound : handler_sound rnd "GETEX" handleGetEX.
Proof using Type.
  start_run. unfold handleGetEX. case_decide as Hlen; [bad_args|].
  assert (argsFrom 2 (a0 :: rest) = []) as ->.
  { unfold recoverableAt in Hrec. cbn [arg nth] in Hrec. rewrite Hn in Hrec. cbn in Hrec, Hlen.
    destruct rest as [|? [|]]; cbn in *; try lia; done. }
  cbn [getexOptions]. cbn. unfold GetEx. destruct (liveString _ _ s); cbn; intros [= <- <- <-];
    by apply sound_silent.
Qed.

Lemma excluded_sound name h :
  oneOf name ["SPOP"; "RENAME"] = true -> handler_sound rnd name h.
Proof using Type.
  intros Hx. start_run. exfalso. unfold recoverableAt in Hrec. cbn [arg nth] in Hrec.
  rewrite Hn, Hx, andb_false_r in Hrec. done.
Qed.

(** The commands with a deadline: what is needed of them depends on the window. *)
Definition timedHandlers : list (string * (list string -> handler)) :=
  [("SETEX", handleSetEX); ("PSETEX", handlePSetEX); ("EXPIRE", handleExpire);
   ("PEXPIRE", handlePExpire); ("EXPIREAT", handleExpireAt); ("PEXPIREAT", handlePExpireAt)].

Definition timed_sound : Prop := Forall (fun nh => handler_sound rnd nh.1 nh.2) timedHandlers.

(** ** Every command of the registry *)

Lemma storeHandlers_sound e :
  timed_sound -> Forall (fun nh => handler_sound rnd nh.1 nh.2) (storeHandlers e).
Proof using Type.
  intros HT. unfold timed_sound, timedHandlers in HT. rewrite !Forall_cons in HT.
  destruct HT as (HT1 & HT2 & HT3 & HT4 & HT5 & HT6 & _).
  repeat apply Forall_cons_2; try apply Forall_nil_2; cbn [fst snd].
  all: first [ apply handleSet_sound | apply handleGetEX_sound | apply handleDel_sound
    | apply handleSetNX_sound | apply handleMSet_sound | apply handleGetSet_sound
    | apply handleGetDel_sound | apply handleAppend_sound | apply handlePersist_sound
    | apply handleIncr_sound | apply handleIncrBy_sound | apply handleIncrByFloat_sound
    | apply handleDecr_sound | apply handleDecrBy_sound | apply HSet_sound; done
    | apply handleHDel_sound | apply handleHIncrBy_sound | apply handleHIncrByFloat_sound
    | apply handleLPush_sound | apply handleRPush_sound | apply handleLPushX_sound
    | apply handleRPushX_sound | apply handleLPop_sound | apply handleRPop_sound
    | apply handleLSet_sound | apply handleLInsert_sound | apply handleLRem_sound
    | apply handleLTrim_sound | apply handleLMove_sound | apply handleRPopLPush_sound
    | apply handleSAdd_sound | apply handleSRem_sound | apply handleSInterStore_sound
    | apply handleSUnionStore_sound | apply handleSDiffStore_sound | apply handleSMove_sound
    | apply handleZAdd_sound | apply handleZRem_sound | apply handleZIncrBy_sound
    | apply handleZPopMin_sound | apply handleZPopMax_sound | apply handleZUnionStore_sound
    | apply handleZInterStore_sound | apply handleFlushDB_sound | apply handleFlushAll_sound
    | exact HT1 | exact HT2 | exact HT3 | exact HT4 | exact HT5 | exact HT6
    | apply excluded_sound; reflexivity
    | apply reader_sound; [read_handler|done] ].
Qed.

Lemma lookupHandler_elem {A} name (table : list (string * A)) h :
  lookupHandler name table = Some h -> (name, h) ∈ table.
Proof using Type.
  induction table as [|[n g] table IH]; cbn; [done|].
  destruct (String.eqb n name) eqn:E; [|by intros ?%IH; right].
  apply String.eqb_eq in E as ->. intros [= ->]. left.
Qed.

Lemma run_onStore {A} (c : cmd MemoryStore A) clock i (w : World L) :
  run (onStore c) clock i w =
    match run c clock i (wStore w) with
    | Ret (a, i', s') => Ret (a, i', mkWorld s' (wPubSub w) (wLog w))
    | Panic => Panic | Err e => Err e | OutOfFuel => OutOfFuel
    end.
Proof using Type. unfold onStore. rewrite run_zoom; [done|done|done|by intros []]. Qed.

Lemma run_onPubSub {A} (c : cmd PubSub A) clock i (w : World L) :
  run (onPubSub c) clock i w =
    match run c clock i (wPubSub w) with
    | Ret (a, i', p') => Ret (a, i', mkWorld (wStore w) p' (wLog w))
    | Panic => Panic | Err e => Err e | OutOfFuel => OutOfFuel
    end.
Proof using Type. unfold onPubSub. rewrite run_zoom; [done|done|done|by intros []]. Qed.

(** What one dispatch means for the log. *)
Definition step_sound (args : list string) (w w' : World L) : Prop :=
  exists recs,
    (oneOf (ToUpper (arg args 0)) twoRecords = false -> (length recs <= 1)%nat) /\
    (forall old, holds (wLog w) old -> holds (wLog w') (old ++ recs)) /\
    forall s', agree (wStore w) s' -> restores rnd recs s' (wStore w').

Lemma step_same args (w w' : World L) :
  same_data (wStore w) (wStore w') -> wLog w' = wLog w -> step_sound args w w'.
Proof using Type.
  intros Hd Hl. exists []. split; [cbn; lia|].
  split; [intros old; by rewrite app_nil_r, Hl|].
  intros s' HR. apply restores_none. by eapply agree_same_l.
Qed.

Lemma publish_step r args clock i (w : World L) resp i' w' :
  run (makePublishHandler r args) clock i w = Ret (resp, i', w') ->
  wStore w' = wStore w /\ wLog w' = wLog w.
Proof using Type.
  unfold makePublishHandler. case_decide; [by intros [= <- <- <-]|].
  case_match; [by intros [= <- <- <-]|]. rewrite run_bind, run_onPubSub.
  destruct (run (Publish _ _ _) clock i _) as [[[n i1] p]|?| |]; try done. cbn [run].
  by intros [= <- <- <-].
Qed.

Lemma Dispatch_sound r args clock i (w : World L) resp i' w' :
  timed_sound -> hasAof r = true -> recoverableAt (clock i) args = true -> steady clock ->
  settled (wStore w) ->
  run (Dispatch r args) clock i w = Ret (resp, i', w') -> step_sound args w w'.
Proof using Type.
  intros Htimed Ha Hrec Hc HT. destruct args as [|a0 rest]; cbn [Dispatch].
  { intros [= <- <- <-]. by apply step_same. }
  unfold register. rewrite Ha. cbn [andb].
  destruct (String.eqb (ToUpper a0) "PUBLISH") eqn:Ep.
  - apply String.eqb_eq in Ep. rewrite Ep. rewrite run_bind.
    destruct (run (makePublishHandler r _) clock i w) as [[[resp1 i1] w1]|?| |] eqn:E; try done.
    apply publish_step in E as [Hs Hl]. rewrite run_bind.
    assert ((if negb (RType_eqb (rType resp1) TypeError)
             then appendToAOF "PUBLISH" (a0 :: rest) resp1 else Done tt) = Done (S := World L) tt)
      as -> by by destruct (negb _).
    cbn [run]. intros [= <- <- <-]. apply step_same; [|done]. by rewrite Hs.
  - destruct (lookupHandler _ _) as [h|] eqn:Eh.
    2: { intros [= <- <- <-]. by apply step_same. }
    apply lookupHandler_elem in Eh.
    pose proof (proj1 (Forall_forall _ _) (storeHandlers_sound (env r) Htimed) _ Eh) as Hh. cbn in Hh.
    rewrite run_bind, run_onStore.
    destruct (run (h _) clock i (wStore w)) as [[[resp1 i1] s1]|?| |] eqn:E; try done.
    pose proof (Hh _ _ _ _ _ _ _ _ eq_refl Hrec Hc HT E) as Ho. unfold outcome_sound, is_error in Ho.
    rewrite run_bind. destruct (RType_eqb (rType resp1) TypeError); cbn [negb run].
    + intros [= <- <- <-]. by apply step_same.
    + destruct Ho as (recs & Hlen & Hlog & Hres).
      destruct (Hlog (mkWorld s1 (wPubSub w) (wLog w))) as (i2 & l2 & -> & Hholds).
      intros [= <- <- <-]. exists recs. split; [done|]. split; [exact Hholds|exact Hres].
Qed.
End Writers.
