(* ===== verification/Recovery.v ===== *)
(** * Crash recovery: the store is the replay of its log

    For the commands of [recoverable], the log a sequence of commands leaves behind
    rebuilds the data of the store, and so does every prefix of it up to the last complete
    record.  What each command contributes is proved in file Records; the theorems here
    are for logs without deadlines, replayed at whatever time. *)

From S2P Require Import Prelude GoLib Floats Protocol Glob Store Lists Sets Hashes ZSets Scan Cmd.
From S2P Require Import StringCmds DataCmds ZSetCmds ServerCmds PubSub Router Persistence Agree Records.
Open Scope cmd_scope.

(** ** Sequences of commands *)

(** One client after the other: the commands run without interleaving. *)
Fixpoint dispatchAll {L} `{Appender L} (r : Router) (cmds : list (list string))
    : cmd (World L) (list Response) :=
  match cmds with
  | [] => Done []
  | args :: cmds' =>
      let* resp := Dispatch r args in
      let* resps := dispatchAll r cmds' in
      Done (resp :: resps)
  end.

Section Sequences.

Context `{W : Window} {L : Type} `{Appender L} (rnd : list string -> list string) (r : Router)
  (Htimed : timed_sound (L := L) rnd) (Haof : hasAof r = true).

Lemma restores_settled recs s' s1 : restores rnd recs s' s1 -> settled s1.
Proof using Type.
  intros Hr. destruct some_steady as [clock Hc].
  destruct (Hr clock O 0 [] None Hc) as (j & s2 & HR & _). by eapply agree_settled.
Qed.

Lemma restores_app recs1 recs2 s' s1 s2 :
  restores rnd recs1 s' s1 -> (forall s1', agree s1 s1' -> restores rnd recs2 s1' s2) ->
  restores rnd (recs1 ++ recs2) s' s2.
Proof using Type.
  intros H1 H2 clock j n rest last Hc.
  destruct (H1 clock j n (recs2 ++ rest) last Hc) as (j1 & s1' & HR1 & E1).
  destruct (H2 s1' HR1 clock j1 (n + llen recs1) rest last Hc) as (j2 & s2' & HR2 & E2).
  exists j2, s2'. split; [done|]. rewrite <- app_assoc, E1, E2, llen_app. f_equal. f_equal. lia.
Qed.

Lemma step_settled args (w w' : World L) :
  settled (wStore w) -> step_sound rnd args w w' -> settled (wStore w').
Proof using Type. intros HT (recs & _ & _ & Hr). by eapply restores_settled, Hr. Qed.

(** The runs of [dispatchAll], one command at a time. *)
Lemma dispatchAll_cons args cmds clock i (w : World L) resps i' w' :
  run (dispatchAll r (args :: cmds)) clock i w = Ret (resps, i', w') ->
  exists resp i1 w1 resps', run (Dispatch r args) clock i w = Ret (resp, i1, w1) /\
    run (dispatchAll r cmds) clock i1 w1 = Ret (resps', i', w') /\ resps = resp :: resps'.
Proof using Type.
  cbn [dispatchAll]. rewrite run_bind.
  destruct (run (Dispatch r args) clock i w) as [[[resp i1] w1]|?| |]; try done.
  rewrite run_bind.
  destruct (run (dispatchAll r cmds) clock i1 w1) as [[[resps' i2] w2]|?| |] eqn:E; try done.
  cbn [run]. intros [= <- <- <-]. by exists resp, i1, w1, resps'.
Qed.

(** Every command of a run is recoverable at the time it begins. *)
Fixpoint recoverableRun (cmds : list (list string)) (clock : nat -> Time) (i : nat)
    (w : World L) : bool :=
  match cmds with
  | [] => true
  | args :: cmds' =>
      recoverableAt (clock i) args &&
      match run (Dispatch r args) clock i w with
      | Ret (_, i1, w1) => recoverableRun cmds' clock i1 w1
      | _ => true
      end
  end.

Lemma recoverableRun_cons args cmds clock i w resp i1 w1 :
  recoverableRun (args :: cmds) clock i w = true ->
  run (Dispatch r args) clock i w = Ret (resp, i1, w1) ->
  recoverableAt (clock i) args = true /\ recoverableRun cmds clock i1 w1 = true.
Proof using Type. cbn [recoverableRun]. intros [Ha H']%andb_true_iff E. by rewrite E in H'. Qed.

Lemma dispatchAll_sound cmds clock i (w : World L) resps i' w' :
  recoverableRun cmds clock i w = true -> steady clock -> settled (wStore w) ->
  run (dispatchAll r cmds) clock i w = Ret (resps, i', w') ->
  exists recs, (forall old, holds (wLog w) old -> holds (wLog w') (old ++ recs)) /\
    forall s', agree (wStore w) s' -> restores rnd recs s' (wStore w').
Proof using Haof Htimed.
  intros Hrec Hc. revert i w resps Hrec.
  induction cmds as [|args cmds IH]; intros i w resps Hrec HT.
  - intros [= <- <- <-]. exists []. split; [intros old; by rewrite app_nil_r|].
    intros s'. apply restores_none.
  - intros (resp & i1 & w1 & resps' & Hd & Hds & ->)%dispatchAll_cons.
    apply (recoverableRun_cons _ _ _ _ _ _ _ _ Hrec) in Hd as Hrec'. clear Hrec.
    destruct Hrec' as [Ha Hrec]. apply (Dispatch_sound rnd) in Hd; [|done..].
    pose proof (step_settled _ _ _ HT Hd) as HT1. destruct Hd as (recs1 & _ & Hl1 & Hr1).
    destruct (IH _ _ _ Hrec HT1 Hds) as (recs2 & Hl2 & Hr2).
    exists (recs1 ++ recs2). split.
    + intros old Ho. rewrite app_assoc. by apply Hl2, Hl1.
    + intros s' HR. eapply restores_app; [by apply Hr1|done].
Qed.

End Sequences.

(** ** The append-only file *)

Section File.

Context `{W : Window} (rnd : list string -> list string) (r : Router)
  (Htimed : timed_sound (L := AOF) rnd) (Haof : hasAof r = true).

(** Records that were applied are not empty. *)
Lemma applyAll_nonempty recs n clock j s m j' s' :
  run (applyAll rnd recs n None) clock j s = Ret ((m, None), j', s') ->
  Forall (fun rec => rec <> []) recs.
Proof using Type.
  revert n j s. induction recs as [|rec recs IH]; intros n j s; [done|]. cbn [applyAll].
  rewrite run_bind. destruct (run (applyCommand rnd rec) clock j s) as [[[e j1] s1]|?| |] eqn:E;
    try done.
  destruct e; [by intros [=]|]. intros Hr. constructor; [|by eapply IH].
  intros ->. cbn in E. by injection E.
Qed.

Lemma encodeRecord_bounds rec :
  Z.of_nat (length rec) <= len (encodeRecord rec) /\
  Forall (fun a => len a <= len (encodeRecord rec)) rec.
Proof using Type.
  unfold encodeRecord, command_resp, Array. cbn [Serialize].
  assert (forall rec : list string,
    Z.of_nat (length rec) <= len (sconcat (List.map Serialize (List.map BulkString rec))) /\
    Forall (fun a => len a <= len (sconcat (List.map Serialize (List.map BulkString rec)))) rec)
    as Hb.
  { clear rec. induction rec as [|a rec [IH1 IH2]]; [by split|]. cbn [List.map sconcat length].
    rewrite len_app. cbn [Serialize BulkString]. rewrite !len_app.
    change (len "$") with 1. change (len CRLF) with 2.
    pose proof (len_nonneg (FormatInt (len a))). pose proof (len_nonneg a).
    set (N := len (sconcat _)) in *. pose proof (len_nonneg (sconcat (List.map Serialize
      (List.map BulkString rec)))). fold N in H1. split; [lia|]. constructor; [lia|].
    eapply Forall_impl; [exact IH2|]. cbn. lia. }
  destruct (Hb rec) as [H1 H2]. rewrite !len_app, List.length_map.
  set (N := len (sconcat _)) in *.
  pose proof (len_nonneg (FormatInt (Z.of_nat (length rec)))).
  change (len "*") with 1. change (len CRLF) with 2.
  split; [lia|]. eapply Forall_impl; [exact H2|]. cbn. lia.
Qed.

(** A log of less than about 5 TB holds only records the parser accepts. *)
Lemma records_fit recs s s1 :
  restores rnd recs s s1 ->
  len (sconcat (List.map encodeRecord recs)) * sizeofResponse <= maxAlloc ->
  Forall args_ok recs.
Proof using Type.
  intros Hr Hlen. destruct some_steady as [clock Hc].
  destruct (Hr clock O 0 [] None Hc) as (j & s2 & _ & E).
  rewrite app_nil_r in E. cbn [applyAll run] in E. apply applyAll_nonempty in E.
  revert Hlen. clear Hr. induction E as [|rec recs Hne _ IH]; [done|].
  cbn [List.map sconcat]. rewrite len_app. intros Hlen.
  pose proof (len_nonneg (encodeRecord rec)).
  pose proof (len_nonneg (sconcat (List.map encodeRecord recs))).
  unfold sizeofResponse in *. destruct (encodeRecord_bounds rec) as [H1 H2].
  constructor; [|apply IH; lia]. split; [done|]. split; [unfold sizeofResponse; lia|].
  eapply Forall_impl; [exact H2|]. intros a Ha. cbv beta in Ha. lia.
Qed.

(** Replaying a file that holds records which restore [s1]. *)
Lemma run_Replay_restores recs a s1 clock j s0 :
  fileHolds a recs -> restores rnd recs NewMemoryStore s1 ->
  len (file a) * sizeofResponse <= maxAlloc -> steady clock ->
  exists n j' s', run (Replay rnd (Readable (file a))) clock j s0 = Ret ((n, None), j', s') /\
    agree s1 s'.
Proof using Type.
  intros Hl Hr Hlen Hc. unfold fileHolds in Hl. rewrite Hl in *.
  assert (Forall args_ok recs) as Hok by by eapply records_fit.
  destruct (Hr clock (S j) 0 [] None Hc) as (j' & s' & Hd & E).
  rewrite app_nil_r in E. exists (0 + llen recs), j', s'. split; [|done].
  rewrite <- (sapp_nil_r (sconcat _)), (run_Replay rnd recs "" EEof) by done.
  exact E.
Qed.

(** A file cut inside a record: what comes before the record, and a piece of it at
    which reading ends. *)
Lemma cut_record before rec after m s s1 :
  restores rnd [rec] s s1 ->
  len (before +:+ encodeRecord rec +:+ after) * sizeofResponse <= maxAlloc ->
  len before <= Z.of_nat m < len (before +:+ encodeRecord rec) ->
  exists tail e, stake m (before +:+ encodeRecord rec +:+ after) = before +:+ tail /\
    ReadCommand tail = Err e /\ eof_err e = true.
Proof using Type.
  intros Hr Hlen Hm. rewrite !len_app in Hlen. rewrite len_app in Hm. unfold len in Hm.
  assert (args_ok rec) as Hok.
  { assert (Forall args_ok [rec]) as Hf; [|by inversion Hf].
    eapply records_fit; [done|]. cbn [List.map sconcat]. rewrite sapp_nil_r.
    pose proof (len_nonneg before). pose proof (len_nonneg after).
    unfold sizeofResponse in *. lia. }
  destruct (ReadCommand_prefix rec (m - String.length before) Hok) as (e & Ht & He);
    [unfold encodeRecord in Hm; lia|].
  exists (stake (m - String.length before) (encodeRecord rec)), e. split_and!; [|done..].
  rewrite stake_split, (stake_ge m) by lia. f_equal. rewrite stake_split.
  replace (m - _ - String.length (encodeRecord rec))%nat with O by lia.
  cbn [stake]. by rewrite sapp_nil_r.
Qed.

(** The command leaves at most one record. *)
Definition oneRecord (args : list string) : bool := negb (oneOf (ToUpper (arg args 0)) twoRecords).

(** A file cut at byte [m] is the file after the first [k] commands and a piece of
    the record of the next one. *)
Lemma cut_file cmds clock i (w : World AOF) resps i' w' old m :
  recoverableRun r cmds clock i w = true -> forallb oneRecord cmds = true -> steady clock ->
  settled (wStore w) ->
  run (dispatchAll r cmds) clock i w = Ret (resps, i', w') ->
  fileHolds (wLog w) old ->
  len (file (wLog w')) * sizeofResponse <= maxAlloc ->
  len (file (wLog w)) <= Z.of_nat m ->
  exists k resps1 i1 w1 recs tail e,
    run (dispatchAll r (take k cmds)) clock i w = Ret (resps1, i1, w1) /\
    len (file (wLog w1)) <= Z.of_nat m /\
    (forall resps2 i2 w2, (k < length cmds)%nat ->
       run (dispatchAll r (take (S k) cmds)) clock i w = Ret (resps2, i2, w2) ->
       Z.of_nat m < len (file (wLog w2))) /\
    fileHolds (wLog w1) (old ++ recs) /\
    stake m (file (wLog w')) = file (wLog w1) +:+ tail /\
    ReadCommand tail = Err e /\ eof_err e = true /\
    forall s', agree (wStore w) s' -> restores rnd recs s' (wStore w1).
Proof using Haof Htimed.
  intros Hrec Hone Hc. revert i w resps old Hrec Hone. induction cmds as [|args cmds IH];
    intros i w resps old Hrec Hone HT Hrun Hold Hlen Hm.
  - injection Hrun as <- <- <-. exists O, [], i, w, [], "", EEof. split_and!; try done.
    + intros ? ? ? Hk. cbn in Hk. lia.
    + by rewrite app_nil_r.
    + rewrite sapp_nil_r. apply stake_ge. unfold len in Hm. lia.
    + intros s'. apply restores_none.
  - cbn [forallb] in Hone. apply andb_true_iff in Hone as [Hoa%negb_true_iff Hone].
    apply dispatchAll_cons in Hrun as (resp & i1 & w1 & resps' & Hd & Hds & ->).
    apply (recoverableRun_cons _ _ _ _ _ _ _ _ _ Hrec) in Hd as Hrec'. clear Hrec.
    destruct Hrec' as [Hra Hrec].
    pose proof (Dispatch_sound rnd r _ _ _ _ _ _ _ Htimed Haof Hra Hc HT Hd) as Hst.
    pose proof (step_settled _ _ _ _ HT Hst) as HT1. destruct Hst as (recs1 & Hrec1 & Hl1 & Hr1).
    specialize (Hrec1 Hoa).
    pose proof (Hl1 old Hold) as Hf1.
    destruct (Z.leb_spec (len (file (wLog w1))) (Z.of_nat m)) as [Hcut|Hcut].
    + destruct (IH _ _ _ _ Hrec Hone HT1 Hds Hf1 Hlen Hcut)
        as (k & resps1 & i2 & w2 & recs & tail & e & Hk & Hle & Hmax & Hh & Hs & Ht & He & Hr).
      exists (S k), (resp :: resps1), i2, w2, (recs1 ++ recs), tail, e. split_and!; try done.
      * rewrite firstn_cons. cbn [dispatchAll]. by rewrite run_bind, Hd, run_bind, Hk.
      * intros resps2 i3 w3 Hlt. rewrite firstn_cons.
        intros (? & ? & ? & ? & Hd' & Hds' & ->)%dispatchAll_cons.
        rewrite Hd in Hd'. injection Hd' as <- <- <-. eapply Hmax; [|done]. cbn in Hlt. lia.
      * by rewrite app_assoc.
      * intros s' HR. eapply restores_app; [by apply Hr1|done].
    + destruct (dispatchAll_sound rnd r Htimed Haof _ _ _ _ _ _ _ Hrec Hc HT1 Hds) as (recs2 & Hl2 & Hr2).
      pose proof (Hl2 _ Hf1) as Hf'. cbn [holds AOF_Appender] in Hf1, Hf'.
      unfold fileHolds in Hold, Hf1, Hf'.
      rewrite List.map_app, sconcat_app, <- Hold in Hf1.
      rewrite !List.map_app, !sconcat_app, <- Hold in Hf'.
      destruct recs1 as [|rec [|]]; [|clear Hrec1|cbn in Hrec1; lia].
      { cbn in Hf1. rewrite sapp_nil_r in Hf1. rewrite Hf1 in Hcut. lia. }
      cbn [List.map sconcat] in Hf1, Hf'. rewrite sapp_nil_r in Hf1, Hf'.
      rewrite sapp_assoc in Hf'. rewrite Hf' in Hlen. rewrite Hf1 in Hcut.
      destruct (cut_record (file (wLog w)) rec (sconcat (List.map encodeRecord recs2)) m
                  (wStore w) (wStore w1)) as (tail & e & Hs & Ht & He);
        [by apply Hr1|done|done|].
      exists O, [], i, w, [], tail, e. split_and!; try done.
      * intros resps2 i2 w2 _. cbn [take].
        intros (? & ? & ? & ? & Hd' & Hds' & ->)%dispatchAll_cons.
        rewrite Hd in Hd'. injection Hd' as <- <- <-. injection Hds' as <- <- <-. by rewrite Hf1.
      * by rewrite app_nil_r.
      * by rewrite Hf'.
      * intros s'. apply restores_none.
Qed.

(** Replay of a prefix of the file that is at least what the file was when the commands
    began: the data after the first [k] of them. *)
Lemma torn_file cmds clock i (w : World AOF) resps i' w' old m clock' j s0 :
  recoverableRun r cmds clock i w = true -> forallb oneRecord cmds = true -> steady clock ->
  settled (wStore w) ->
  run (dispatchAll r cmds) clock i w = Ret (resps, i', w') ->
  fileHolds (wLog w) old -> restores rnd old NewMemoryStore (wStore w) ->
  len (file (wLog w')) * sizeofResponse <= maxAlloc -> len (file (wLog w)) <= Z.of_nat m ->
  steady clock' ->
  exists k resps1 i1 w1 n e j' s',
    run (dispatchAll r (take k cmds)) clock i w = Ret (resps1, i1, w1) /\
    len (file (wLog w1)) <= Z.of_nat m /\
    (forall resps2 i2 w2, (k < length cmds)%nat ->
       run (dispatchAll r (take (S k) cmds)) clock i w = Ret (resps2, i2, w2) ->
       Z.of_nat m < len (file (wLog w2))) /\
    run (Replay rnd (Readable (stake m (file (wLog w'))))) clock' j s0 =
      Ret ((n, endOf e), j', s') /\
    eof_err e = true /\
    agree (wStore w1) s'.
Proof using Haof Htimed.
  intros Hrec Hone Hc HT Hrun Hold Hro Hlen Hm Hc'.
  destruct (cut_file cmds clock i w _ _ _ old m Hrec Hone Hc HT Hrun Hold Hlen Hm)
    as (k & resps1 & i1 & w1 & recs & tail & e & Hk & Hle & Hmax & Hh & Hs & Ht & He & Hr).
  pose proof (restores_app rnd _ _ _ _ _ Hro Hr) as Hall.
  destruct (Hall clock' (S j) 0 [] (endOf e) Hc') as (j' & s' & Hd & E). rewrite app_nil_r in E.
  exists k, resps1, i1, w1, (0 + llen (old ++ recs)), e, j', s'. split_and!; try done.
  unfold fileHolds in Hh. rewrite Hs, Hh, (run_Replay rnd (old ++ recs) tail e).
  - exact E.
  - eapply records_fit; [exact Hall|]. rewrite <- Hh.
    assert (len (file (wLog w1)) <= len (file (wLog w'))) as Hle2.
    { apply (f_equal len) in Hs. rewrite len_app in Hs.
      pose proof (len_nonneg tail). unfold len in *. rewrite slength_stake in Hs. lia. }
    unfold sizeofResponse in *. lia.
  - done.
Qed.

End File.

(** ** At any time *)

Section Anytime.

Context (rnd : list string -> list string) (r : Router).

(** Without deadlines nothing is asked of the commands that set them. *)
Lemma anytime_timed {L} `{Appender L} : timed_sound (W := anytime) (L := L) rnd.
Proof using Type.
  unfold timed_sound. repeat apply Forall_cons_2; try apply Forall_nil_2; cbn [fst snd];
    intros a0 rest clock i s resp i' s1 Hn Hrec; exfalso; unfold recoverableAt in Hrec;
    cbn [arg nth] in Hrec; by rewrite Hn in Hrec.
Qed.

Lemma anytime_run {L} `{Appender L} cmds clock i (w : World L) :
  forallb recoverable cmds = true ->
  recoverableRun (W := anytime) r cmds clock i w = true.
Proof using Type.
  revert i w. induction cmds as [|args cmds IH]; intros i w; [done|]. cbn [forallb].
  intros [Ha Hrec]%andb_true_iff. cbn [recoverableRun]. apply andb_true_iff. split; [exact Ha|].
  destruct (run _ _ _ _) as [[[resp i1] w1]|?| |]; [by apply IH|done..].
Qed.

Lemma anytime_oneRecord cmds :
  forallb recoverable cmds = true -> forallb oneRecord cmds = true.
Proof using Type.
  rewrite !forallb_forall. intros Hr args Hin. specialize (Hr args Hin).
  unfold recoverable, recoverableAt in Hr. rewrite !andb_true_iff in Hr. destruct Hr as [[[[[Hr _] _] _] _] _].
  unfold oneRecord. unfold timed, twoRecords, oneOf in *. cbn [existsb] in *.
  destruct (String.eqb _ "SETEX"); [done|]. by destruct (String.eqb _ "PSETEX").
Qed.

(** C1: crash recovery. Commands whose records restore what they did ([recoverable]:
    all but those with a deadline or an option the log does not carry, RENAME, SPOP,
    and ZADD and ZINCRBY with arguments that are not ASCII) are dispatched one after
    the other on a fresh server with persistence on. However the run went, replaying
    the file it left, at any later time and on any store, succeeds and rebuilds
    exactly the strings, hashes, lists, sets and sorted sets of the server. *)
Theorem recovery cmds clock ps p resps i' w' clock' j s0 :
  hasAof r = true -> forallb recoverable cmds = true ->
  run (dispatchAll r cmds) clock 0 (mkWorld NewMemoryStore ps (Open "" p)) =
    Ret (resps, i', w') ->
  len (file (wLog w')) * sizeofResponse <= maxAlloc ->
  exists n j' s',
    run (Replay rnd (Readable (file (wLog w')))) clock' j s0 = Ret ((n, None), j', s') /\
    same_data (wStore w') s'.
Proof using Type.
  intros Ha Hrec Hrun Hlen.
  apply (dispatchAll_sound rnd) in Hrun as (recs & Hl & Hr);
    [|exact anytime_timed|done|by apply anytime_run|done|apply settled_new].
  specialize (Hl [] eq_refl). specialize (Hr NewMemoryStore settled_new).
  destruct (run_Replay_restores rnd recs _ _ clock' j s0 Hl Hr Hlen I)
    as (n & j' & s' & E & Hd%anytime_same).
  by exists n, j', s'.
Qed.

(** C4: recovery from a torn file. A fresh server with persistence on has run
    recoverable commands (those whose records carry what they did: [recoverable]
    leaves out commands with a deadline, SET and GETEX with options, RENAME, SPOP,
    ZUNIONSTORE and ZINTERSTORE with options, and ZADD and ZINCRBY with arguments that
    are not ASCII) one after the other, and a crash leaves any prefix of its file.
    Replay of that prefix never panics and rebuilds the data as it was after the first
    [k] commands, where [k] is the largest number of commands whose records are
    complete in the prefix; it ends with one of the two end-of-file errors of the
    parser, of which [io.EOF] is no error for replay. *)
Theorem torn_recovery cmds clock ps p resps i' w' m clock' j s0 :
  hasAof r = true -> forallb recoverable cmds = true ->
  run (dispatchAll r cmds) clock 0 (mkWorld NewMemoryStore ps (Open "" p)) =
    Ret (resps, i', w') ->
  len (file (wLog w')) * sizeofResponse <= maxAlloc ->
  exists k resps1 i1 w1 n e j' s',
    run (dispatchAll r (take k cmds)) clock 0 (mkWorld NewMemoryStore ps (Open "" p)) =
      Ret (resps1, i1, w1) /\
    len (file (wLog w1)) <= Z.of_nat m /\
    (forall resps2 i2 w2, (k < length cmds)%nat ->
       run (dispatchAll r (take (S k) cmds)) clock 0 (mkWorld NewMemoryStore ps (Open "" p)) =
         Ret (resps2, i2, w2) -> Z.of_nat m < len (file (wLog w2))) /\
    run (Replay rnd (Readable (stake m (file (wLog w'))))) clock' j s0 =
      Ret ((n, endOf e), j', s') /\
    eof_err e = true /\
    same_data (wStore w1) s'.
Proof using Type.
  intros Ha Hrec Hrun Hlen.
  destruct (torn_file rnd r anytime_timed Ha cmds clock 0
              (mkWorld NewMemoryStore ps (Open "" p)) resps i' w' [] m clock' j s0)
    as (k & resps1 & i1 & w1 & n & e & j' & s' & H1 & H2 & H3 & H4 & H5 & H6%anytime_same);
    try done; [by apply anytime_run|by apply anytime_oneRecord|apply settled_new|apply restores_none, settled_new| |].
  - change (0 <= Z.of_nat m). lia.
  - by exists k, resps1, i1, w1, n, e, j', s'.
Qed.

End Anytime.

Definition sampleEnv : environment :=
  mkEnvironment (mkRuntimeInfo "linux" "go1.22" 0 0) id (fun _ _ => 0) (mkIteration id id).
Definition sampleRouter : Router := mkRouter true true sampleEnv.

Definition sampleCommands : list (list string) :=
  [["SET"; "a"; "41"]; ["INCR"; "a"]; ["RPUSH"; "l"; "x"; "y"]; ["LPOP"; "l"];
   ["GET"; "a"]; ["ZADD"; "z"; "1.5"; "m"]; ["nosuch"]].

(** The world after the sample commands. *)
Definition sampleRun (cmds : list (list string)) : list Response * nat * World AOF :=
  match run (dispatchAll sampleRouter cmds) (fun i => Z.of_nat i) 0
          (mkWorld NewMemoryStore samplePubSub (Open "" SyncAlways)) with
  | Ret x => x
  | _ => ([], O, mkWorld NewMemoryStore samplePubSub (Open "" SyncAlways))
  end.

Lemma recovery_witness :
  exists n j' s',
    run (Replay id (Readable (file (wLog (snd (sampleRun sampleCommands)))))) (fun _ => 5) 0
      NewMemoryStore = Ret ((n, None), j', s') /\
    same_data (wStore (snd (sampleRun sampleCommands))) s'.
Proof.
  apply (recovery id sampleRouter sampleCommands (fun i => Z.of_nat i) samplePubSub SyncAlways
           (fst (fst (sampleRun sampleCommands))) (snd (fst (sampleRun sampleCommands))));
    [reflexivity|by vm_compute|by vm_compute|by vm_compute].
Defined.

Lemma torn_recovery_witness :
  exists k resps1 i1 w1 n e j' s',
    run (dispatchAll sampleRouter (take k sampleCommands)) (fun i => Z.of_nat i) 0
      (mkWorld NewMemoryStore samplePubSub (Open "" SyncAlways)) = Ret (resps1, i1, w1) /\
    len (file (wLog w1)) <= Z.of_nat 40 /\
    (forall resps2 i2 w2, (k < length sampleCommands)%nat ->
       run (dispatchAll sampleRouter (take (S k) sampleCommands)) (fun i => Z.of_nat i) 0
         (mkWorld NewMemoryStore samplePubSub (Open "" SyncAlways)) = Ret (resps2, i2, w2) ->
       Z.of_nat 40 < len (file (wLog w2))) /\
    run (Replay id (Readable (stake 40 (file (wLog (snd (sampleRun sampleCommands))))))) (fun _ => 5) 0
      NewMemoryStore = Ret ((n, endOf e), j', s') /\
    eof_err e = true /\
    same_data (wStore w1) s'.
Proof.
  apply (torn_recovery id sampleRouter sampleCommands (fun i => Z.of_nat i) samplePubSub SyncAlways
           (fst (fst (sampleRun sampleCommands))) (snd (fst (sampleRun sampleCommands))));
    [reflexivity|by vm_compute|by vm_compute|by vm_compute].
Defined.
