(* ===== verification/Clients.v ===== *)
(** * Commands as clients of the store interface

    store.go: "Commands depend on this interface, never on a concrete type."  Every atomic
    step of every command is one call of the interface, a reading of the clock, or happens
    in the broker and the log ([action]); so a pool of commands, with the cleanup goroutine
    among them, can be executed on an abstract store instead of MemoryStore, and the
    execution on MemoryStore is such an execution. *)

From S2P Require Import Prelude GoLib Floats Protocol Glob Store Keyspace Lists Sets Hashes ZSets.
From S2P Require Import Scan Interface StoreSpec StoreRefines ZSetRefines Implements.
From S2P Require Import Cmd Walk Expiry StringCmds DataCmds ZSetCmds ServerCmds PubSub Router.
From S2P Require Import Agree Records.
Open Scope cmd_scope.
Open Scope go_scope.

(** ** Programs on the store *)

Section Store.

Context (sh : list string -> list string) (rn : nat -> Z -> Z).

(** A step that is one call of the interface, or only reads the clock. *)
Definition asks {B} (f : Time -> MemoryStore -> may_panic (B * MemoryStore)) : Prop :=
  (exists c : StoreCall B, forall t s, f t s = exec sh rn c t s) \/
  (exists g : Time -> B, forall t s, f t s = Ret (g t, s)).

Fixpoint viaInterface {A} (c : cmd MemoryStore A) : Prop :=
  match c with
  | Done _ | Crash => True
  | Op _ f k => asks f /\ forall b, viaInterface (k b)
  end.

Lemma via_bind {A B} (c : cmd MemoryStore A) (k : A -> cmd MemoryStore B) :
  viaInterface c -> (forall a, viaInterface (k a)) -> viaInterface (cbind c k).
Proof. intros Hc Hk. induction c as [a|X f k' IH|]; cbn; [apply Hk| |done]. destruct Hc. eauto. Qed.

Lemma via_step {B} (f : Time -> MemoryStore -> may_panic (B * MemoryStore)) (c : StoreCall B) :
  (forall t s, f t s = exec sh rn c t s) -> viaInterface (Op B f Done).
Proof. intros H. split; [|done]. left. by exists c. Qed.

Lemma via_clock : viaInterface clockNow.
Proof. split; [|done]. right. by exists (fun t => t). Qed.

End Store.

(** The call that a step makes, by the method it names. *)
Ltac call_of f :=
  lazymatch f with
  | context [Set_ ?k ?v] => constr:(OnString (CSet k v))
  | context [SetWithTTL _ ?k ?v ?ttl] => constr:(OnString (CSetWithTTL k v ttl))
  | context [SetAdv _ ?k ?v ?ttl ?o] => constr:(OnString (CSetAdv k v ttl o))
  | context [Get _ ?k] => constr:(OnString (CGet k))
  | context [GetEx _ ?k ?ttl ?p ?h] => constr:(OnString (CGetEx k ttl p h))
  | context [Del _ ?ks] => constr:(OnString (CDel ks))
  | context [Exists_ _ ?ks] => constr:(OnString (CExists ks))
  | context [Keys _ ?p] => constr:(OnString (CKeys p))
  | context [Len] => constr:(OnString CLen)
  | context [Flush] => constr:(OnString CFlush)
  | context [Expire _ ?k ?ttl] => constr:(OnString (CExpire k ttl))
  | context [TTL _ ?k] => constr:(OnString (CTTL k))
  | context [Persist _ ?k] => constr:(OnString (CPersist k))
  | context [Rename _ ?a ?b] => constr:(OnString (CRename a b))
  | context [Version ?k] => constr:(OnMeta (CVersion k))
  | context [Type_ _ ?k] => constr:(OnMeta (CType k))
  | context [HSet ?k ?fs] => constr:(OnHash (CHSet k fs))
  | context [HGet _ ?k ?f] => constr:(OnHash (CHGet k f))
  | context [HDel _ ?k ?fs] => constr:(OnHash (CHDel k fs))
  | context [HGetAll _ ?k] => constr:(OnHash (CHGetAll k))
  | context [HLen _ ?k] => constr:(OnHash (CHLen k))
  | context [HExists _ ?k ?f] => constr:(OnHash (CHExists k f))
  | context [HKeys _ ?k] => constr:(OnHash (CHKeys k))
  | context [HVals _ ?k] => constr:(OnHash (CHVals k))
  | context [LPush _ ?k ?vs] => constr:(OnList (CLPush k vs))
  | context [RPush _ ?k ?vs] => constr:(OnList (CRPush k vs))
  | context [LPop _ ?k ?n] => constr:(OnList (CLPop k n))
  | context [RPop _ ?k ?n] => constr:(OnList (CRPop k n))
  | context [LLen _ ?k] => constr:(OnList (CLLen k))
  | context [LRange _ ?k ?a ?b] => constr:(OnList (CLRange k a b))
  | context [LIndex _ ?k ?i] => constr:(OnList (CLIndex k i))
  | context [LSet _ ?k ?i ?v] => constr:(OnList (CLSet k i v))
  | context [LInsert _ ?k ?b ?p ?v] => constr:(OnList (CLInsert k b p v))
  | context [LRem _ ?k ?n ?v] => constr:(OnList (CLRem k n v))
  | context [LTrim _ ?k ?a ?b] => constr:(OnList (CLTrim k a b))
  | context [LMove _ ?a ?b ?x ?y] => constr:(OnList (CLMove a b x y))
  | context [SAdd _ ?k ?ms] => constr:(OnSet (CSAdd k ms))
  | context [SRem _ ?k ?ms] => constr:(OnSet (CSRem k ms))
  | context [SMembers _ ?k] => constr:(OnSet (CSMembers k))
  | context [SCard _ ?k] => constr:(OnSet (CSCard k))
  | context [SIsMember _ ?k ?m] => constr:(OnSet (CSIsMember k m))
  | context [SMIsMember _ ?k ?ms] => constr:(OnSet (CSMIsMember k ms))
  | context [SInter _ ?ks] => constr:(OnSet (CSInter ks))
  | context [SUnion _ ?ks] => constr:(OnSet (CSUnion ks))
  | context [SDiff _ ?ks] => constr:(OnSet (CSDiff ks))
  | context [SInterStore _ ?d ?ks] => constr:(OnSet (CSInterStore d ks))
  | context [SUnionStore _ ?d ?ks] => constr:(OnSet (CSUnionStore d ks))
  | context [SDiffStore _ ?d ?ks] => constr:(OnSet (CSDiffStore d ks))
  | context [SRandMember _ _ _ ?k ?n] => constr:(OnSet (CSRandMember k n))
  | context [SPop _ _ ?k ?n] => constr:(OnSet (CSPop k n))
  | context [SMove _ ?a ?b ?m] => constr:(OnSet (CSMove a b m))
  | context [ZAdd _ ?k ?ms ?nx ?xx ?gt ?lt ?ch] => constr:(OnZSet (CZAdd k ms nx xx gt lt ch))
  | context [ZRem _ ?k ?ms] => constr:(OnZSet (CZRem k ms))
  | context [ZScore _ ?k ?m] => constr:(OnZSet (CZScore k m))
  | context [ZCard _ ?k] => constr:(OnZSet (CZCard k))
  | context [ZRank _ ?k ?m] => constr:(OnZSet (CZRank k m))
  | context [ZRevRank _ ?k ?m] => constr:(OnZSet (CZRevRank k m))
  | context [ZIncrBy _ ?k ?i ?m] => constr:(OnZSet (CZIncrBy k i m))
  | context [ZRange _ ?k ?a ?b ?rv ?ws] => constr:(OnZSet (CZRange k a b rv ws))
  | context [ZRangeByScore _ ?k ?a ?b ?ax ?bx ?ws ?o ?n] =>
      constr:(OnZSet (CZRangeByScore k a b ax bx ws o n))
  | context [ZRevRangeByScore _ ?k ?a ?b ?ax ?bx ?ws ?o ?n] =>
      constr:(OnZSet (CZRevRangeByScore k a b ax bx ws o n))
  | context [ZCount _ ?k ?a ?b ?ax ?bx] => constr:(OnZSet (CZCount k a b ax bx))
  | context [ZRangeByLex _ ?k ?a ?b ?o ?n] => constr:(OnZSet (CZRangeByLex k a b o n))
  | context [ZLexCount _ ?k ?a ?b] => constr:(OnZSet (CZLexCount k a b))
  | context [ZPopMin _ ?k ?n] => constr:(OnZSet (CZPopMin k n))
  | context [ZPopMax _ ?k ?n] => constr:(OnZSet (CZPopMax k n))
  | context [ZUnionStore _ ?d ?ks ?w ?a] => constr:(OnZSet (CZUnionStore d ks w a))
  | context [ZInterStore _ ?d ?ks ?w ?a] => constr:(OnZSet (CZInterStore d ks w a))
  | context [Scan _ ?c ?p ?n] => constr:(OnScan (CScan c p n))
  | context [HScan _ ?k ?c ?p ?n] => constr:(OnScan (CHScan k c p n))
  | context [SScan _ ?k ?c ?p ?n] => constr:(OnScan (CSScan k c p n))
  | context [ZScan _ ?k ?c ?p ?n] => constr:(OnScan (CZScan k c p n))
  end.

Ltac via_call sh rn f := let c := call_of f in apply (via_step sh rn _ c); reflexivity.

(** Walks over a handler; [special] closes the loops it calls. *)
Ltac vias_with special :=
  repeat first
    [ special
    | lazymatch goal with
      | |- viaInterface ?sh ?rn (cbind _ _) => apply (via_bind sh rn)
      | |- viaInterface ?sh ?rn (Done _) => exact I
      | |- viaInterface ?sh ?rn Crash => exact I
      | |- viaInterface ?sh ?rn clockNow => apply (via_clock sh rn)
      | |- viaInterface ?sh ?rn (query ?f) => via_call sh rn f
      | |- viaInterface ?sh ?rn (queryP ?f) => via_call sh rn f
      | |- viaInterface ?sh ?rn (call ?f) => via_call sh rn f
      | |- viaInterface ?sh ?rn (callP ?f) => via_call sh rn f
      | |- viaInterface ?sh ?rn (update ?f) => via_call sh rn f
      end
    | progress cbv zeta | progress intros | case_match ].

Section Handlers.

Context (sh : list string -> list string) (rn : nat -> Z -> Z).

Lemma setOptions_via : forall rest opts ttl, viaInterface sh rn (setOptions rest opts ttl).
Proof using Type.
  fix IH 1. intros [|o rest] opts ttl; cbn [setOptions]; [done|]. vias_with ltac:(apply IH).
Qed.

Lemma getexOptions_via : forall rest ttl p h, viaInterface sh rn (getexOptions rest ttl p h).
Proof using Type.
  fix IH 1. intros [|o rest] ttl p h; cbn [getexOptions]; [done|]. vias_with ltac:(apply IH).
Qed.

Lemma mgetLoop_via ks : viaInterface sh rn (mgetLoop ks).
Proof using Type. induction ks; cbn [mgetLoop]; vias_with assumption. Qed.

Lemma msetLoop_via kvs : viaInterface sh rn (msetLoop kvs).
Proof using Type. induction kvs; cbn [msetLoop]; vias_with assumption. Qed.

Lemma hmgetLoop_via k fs : viaInterface sh rn (hmgetLoop k fs).
Proof using Type. induction fs; cbn [hmgetLoop]; vias_with assumption. Qed.

End Handlers.

Lemma storeHandlers_via e :
  Forall (fun nh => forall args, viaInterface (shuffle e) (intN e) (nh.2 args)) (storeHandlers e).
Proof.
  repeat apply Forall_cons_2; try apply Forall_nil_2; cbn [fst snd]; intros args.
  all: match goal with |- viaInterface _ _ ?c => let h := head_of c in unfold h end;
    unfold handlePop, handleMembers, handleAlgebra, handleKeyScan, handleZPop, handleZSetStore,
      incrBy, expireAt, objectEncoding, objectConst.
  all: vias_with ltac:(first [apply setOptions_via | apply getexOptions_via
    | apply mgetLoop_via | apply msetLoop_via | apply hmgetLoop_via ]).
Qed.

(** ** Programs on the whole state *)

Section Router.

Context {L : Type} `{Appender L} (sh : list string -> list string) (rn : nat -> Z -> Z).

(** What one atomic step does: a call of the interface, a reading of the clock, a sweep of
    the cleanup goroutine, or something in the broker and the log. *)
Inductive action : Type -> Type :=
| Calls {B} (c : StoreCall B) : action B
| ReadsClock {B} (g : Time -> B) : action B
| Sweeps : action unit
| Elsewhere {B} (g : Time -> PubSub -> L -> may_panic (B * (PubSub * L))) : action B.

Definition perform {B} (a : action B) (t : Time) (w : World L) : may_panic (B * World L) :=
  match a with
  | Calls c =>
      let! r := exec sh rn c t (wStore w) in
      Ret (fst r, mkWorld (snd r) (wPubSub w) (wLog w))
  | ReadsClock g => Ret (g t, w)
  | Sweeps => Ret (tt, mkWorld (deleteExpired t (wStore w)) (wPubSub w) (wLog w))
  | Elsewhere g =>
      let! r := g t (wPubSub w) (wLog w) in
      Ret (fst r, mkWorld (wStore w) (fst (snd r)) (snd (snd r)))
  end.

Definition performs {B} (f : Time -> World L -> may_panic (B * World L)) (a : action B) : Prop :=
  forall t w, f t w = perform a t w.

(** Every step of the program is an action. *)
Fixpoint client {A} (c : cmd (World L) A) : Prop :=
  match c with
  | Done _ | Crash => True
  | Op _ f k => (exists a, performs f a) /\ forall b, client (k b)
  end.

Lemma client_bind {A B} (c : cmd (World L) A) (k : A -> cmd (World L) B) :
  client c -> (forall a, client (k a)) -> client (cbind c k).
Proof using Type.
  intros Hc Hk. induction c as [a|X f k' IH|]; cbn; [apply Hk| |done]. destruct Hc. eauto.
Qed.

Lemma client_onStore {A} (c : cmd MemoryStore A) : viaInterface sh rn c -> client (onStore c).
Proof using Type.
  induction c as [a|X f k IH|]; cbn; [done| |done]. intros [Hf Hk]. split; [|intros b; by apply IH].
  destruct Hf as [[c Hc]|[g Hg]].
  - exists (Calls c). intros t w. cbn. by rewrite Hc.
  - exists (ReadsClock g). intros t w. cbn. rewrite Hg. by destruct w.
Qed.

Lemma client_onPubSub {A} (c : cmd PubSub A) : client (onPubSub c).
Proof using Type.
  induction c as [a|X f k IH|]; cbn; [done| |done]. split; [|done].
  exists (Elsewhere (fun t ps l => let! r := f t ps in Ret (fst r, (snd r, l)))).
  intros t w. cbn. by destruct (f t (wPubSub w)).
Qed.

Lemma client_aofAppend args : client (aofAppend args).
Proof using Type.
  split; [|done]. exists (Elsewhere (fun t ps l => Ret (tt, (ps, Append args l)))). by intros t w.
Qed.

Lemma client_clock : client clockNow.
Proof using Type. split; [|done]. exists (ReadsClock (fun t => t)). by intros t w. Qed.

Lemma client_cleanup ticks : client (onStore (StartCleanup ticks)).
Proof using Type.
  induction ticks as [|n IH]; cbn; [done|]. split; [|done]. exists Sweeps. by intros t w.
Qed.

(** Walks over the code of the router. *)
Ltac clients :=
  repeat first
    [ lazymatch goal with
      | |- client (cbind _ _) => apply client_bind
      | |- client (Done _) => exact I
      | |- client clockNow => apply client_clock
      | |- client (aofAppend _) => apply client_aofAppend
      | |- client (onPubSub _) => apply client_onPubSub
      | |- client (onStore (query ?f)) => apply client_onStore; via_call sh rn f
      end
    | progress cbv zeta | progress intros | case_match ].

Lemma client_appendToAOF name args resp : client (appendToAOF name args resp).
Proof using Type. unfold appendToAOF, appendDeadline, appendRename. clients. Qed.

(** ** The abstract server *)

(** The shared state with a keyspace in the place of MemoryStore. *)
Record AbstractWorld : Type := mkAbstract {
  aKeys : keyspace;
  aPubSub : PubSub;
  aLog : L
}.

Definition models (w : World L) (x : AbstractWorld) : Prop :=
  represents (wStore w) (aKeys x) /\ wPubSub w = aPubSub x /\ wLog w = aLog x.

(** What an action does on the abstract state, and when it says so. *)
Definition abstractly {B} (a : action B) (t : Time) (x : AbstractWorld) : B -> AbstractWorld -> Prop :=
  match a with
  | Calls c => fun b x' => exists K', spec c t (aKeys x) b K' /\ x' = mkAbstract K' (aPubSub x) (aLog x)
  | ReadsClock g => fun b x' => b = g t /\ x' = x
  | Sweeps => fun _ x' => x' = mkAbstract (swept t (aKeys x)) (aPubSub x) (aLog x)
  | Elsewhere g => fun b x' => exists ps l, g t (aPubSub x) (aLog x) = Ret (b, (ps, l)) /\
                                 x' = mkAbstract (aKeys x) ps l
  end.

Definition admits {B} (a : action B) (t : Time) (x : AbstractWorld) : Prop :=
  match a with
  | Calls c => allowed c t (aKeys x)
  | ReadsClock _ | Sweeps => True
  | Elsewhere g => exists r, g t (aPubSub x) (aLog x) = Ret r
  end.

(** Connections of a pool take turns: who takes the next step, and when.  A panic of one
    ends the process. *)
Fixpoint serveTurns {A} (turns : list (nat * Time)) (pool : list (cmd (World L) A)) (w : World L)
    : may_panic (list (cmd (World L) A) * World L) :=
  match turns with
  | [] => Ret (pool, w)
  | (j, t) :: turns =>
      match pool !! j with
      | Some (Op _ f k) => let! r := f t w in serveTurns turns (<[j := k (fst r)]> pool) (snd r)
      | Some Crash => Panic
      | _ => serveTurns turns pool w
      end
  end.

(** The same turns on the abstract state. *)
Inductive abstractTurns {A} : list (nat * Time) -> list (cmd (World L) A) * AbstractWorld ->
    list (cmd (World L) A) * AbstractWorld -> Prop :=
| turns_nil p : abstractTurns [] p p
| turns_act j t turns pool x B f k (a : action B) b x' p :
    pool !! j = Some (Op B f k) -> performs f a -> abstractly a t x b x' ->
    abstractTurns turns (<[j := k b]> pool, x') p -> abstractTurns ((j, t) :: turns) (pool, x) p
| turns_skip j t turns pool x p :
    (forall r, pool !! j = Some r -> exists a, r = Done a) ->
    abstractTurns turns (pool, x) p -> abstractTurns ((j, t) :: turns) (pool, x) p.

(** Every action of these turns is one that the specifications cover, wherever the actions
    before it lead on the abstract state. *)
Fixpoint safe {A} (turns : list (nat * Time)) (pool : list (cmd (World L) A)) (x : AbstractWorld) : Prop :=
  match turns with
  | [] => True
  | (j, t) :: turns =>
      match pool !! j with
      | Some (Op B f k) => exists a : action B, performs f a /\ admits a t x /\
          forall b x', abstractly a t x b x' -> safe turns (<[j := k b]> pool) x'
      | Some Crash => False
      | _ => safe turns pool x
      end
  end.

Lemma safe_step {A} j t turns (pool : list (cmd (World L) A)) x B f k (a : action B) :
  pool !! j = Some (Op B f k) -> performs f a -> admits a t x ->
  (forall b x', abstractly a t x b x' -> safe turns (<[j := k b]> pool) x') ->
  safe ((j, t) :: turns) pool x.
Proof using Type. intros Hj Hf Ha Hs. cbn [safe]. rewrite Hj. by exists a. Qed.

(** One action, on MemoryStore and on the abstract state. *)
Lemma perform_refines {B} (a : action B) t w x :
  (forall l, sh l ≡ₚ l) -> (forall i n, 0 < n -> 0 <= rn i n < n) ->
  models w x -> admits a t x ->
  exists b w' x', perform a t w = Ret (b, w') /\ abstractly a t x b x' /\ models w' x'.
Proof using Type.
  intros Hs Hi (HR & Hp & Hl) Ha. destruct w as [s ps l], x as [K ps' l']. cbn in *. subst ps' l'.
  destruct a as [B c|B g| |B g]; cbn in *.
  - destruct (call_conforms sh rn c t s K Hs Hi HR Ha) as (b & s' & K' & -> & H1 & H2).
    eexists b, _, _. split; [done|]. split; [by exists K'|]. by split.
  - eexists _, _, _. split; [done|]. split; [by split|]. by split.
  - eexists _, _, _. split; [done|]. split; [done|]. split; [|done]. by apply sweep_represents.
  - destruct Ha as [[b [ps' l']] E]. rewrite E. eexists _, _, _. split; [done|].
    split; [by exists ps', l'|]. by split.
Qed.

Lemma turns_refine {A} turns (pool : list (cmd (World L) A)) w x :
  (forall l, sh l ≡ₚ l) -> (forall i n, 0 < n -> 0 <= rn i n < n) ->
  models w x -> safe turns pool x ->
  exists pool' w' x', serveTurns turns pool w = Ret (pool', w') /\
    abstractTurns turns (pool, x) (pool', x') /\ models w' x'.
Proof using Type.
  intros Hs Hi. revert pool w x.
  induction turns as [|[j t] turns IH]; intros pool w x Hm Hsafe; cbn [serveTurns safe] in *.
  - exists pool, w, x. split_and!; [done|constructor|done].
  - destruct (pool !! j) as [[r|B f k|]|] eqn:Hj; [| |done|].
    + destruct (IH pool w x Hm Hsafe) as (pool' & w' & x' & H1 & H2 & H3). exists pool', w', x'.
      split_and!; [done| |done]. apply turns_skip; [|done]. intros r'. rewrite Hj. intros [= <-]. eauto.
    + destruct Hsafe as (a & Hf & Ha & Hk).
      destruct (perform_refines a t w x Hs Hi Hm Ha) as (b & w1 & x1 & E & Hb & Hm1).
      destruct (IH _ w1 x1 Hm1 (Hk b x1 Hb)) as (pool' & w' & x' & H1 & H2 & H3).
      exists pool', w', x'. rewrite Hf, E. split_and!; [done| |done]. by eapply turns_act.
    + destruct (IH pool w x Hm Hsafe) as (pool' & w' & x' & H1 & H2 & H3). exists pool', w', x'.
      split_and!; [done| |done]. apply turns_skip; [|done]. intros r'. by rewrite Hj.
Qed.

End Router.

(** ** The commands *)

Section Commands.

Context {L : Type} `{Appender L} (r : Router).

Lemma register_client name (h : list string -> cmd (World L) Response) args :
  register r name = Some h -> client (shuffle (env r)) (intN (env r)) (h args).
Proof using Type.
  unfold register. destruct (String.eqb name "PUBLISH").
  - intros [= <-]. unfold makePublishHandler. case_decide; [done|]. case_match; [done|].
    apply client_bind; [apply client_onPubSub|done].
  - destruct (lookupHandler _ _) as [h'|] eqn:E; [|done]. intros [= <-].
    apply lookupHandler_elem in E. apply client_onStore.
    by apply (proj1 (Forall_forall _ _) (storeHandlers_via (env r)) _ E).
Qed.

Lemma Dispatch_client args : client (L := L) (shuffle (env r)) (intN (env r)) (Dispatch r args).
Proof using Type.
  destruct args as [|a0 args]; [done|]. cbn [Dispatch].
  destruct (register r (ToUpper a0)) as [h|] eqn:E; [|done].
  apply client_bind; [by eapply register_client|]. intros resp. apply client_bind; [|done].
  case_match; [apply client_appendToAOF|done].
Qed.

Lemma KeyVersion_client k : client (L := L) (shuffle (env r)) (intN (env r)) (KeyVersion k).
Proof using Type.
  apply client_onStore, (via_step _ _ _ (OnMeta (CVersion k))). done.
Qed.

End Commands.
