(* ===== verification/Replies.v ===== *)
(** * Replies: errors change nothing

    A property of every command of the registry: a command that replies with an error has
    had no effect, neither on the store, nor on a subscriber, nor on the log. *)

From S2P Require Import Prelude GoLib Floats Protocol Glob Store Lists Sets Hashes ZSets Scan Cmd.
From S2P Require Import Walk StringCmds DataCmds ZSetCmds ServerCmds PubSub Router Persistence.
From S2P Require Import Agree Records Recovery.
Open Scope cmd_scope.

(** ** Errors *)

(** A step that changes the state is never followed by an error reply. *)
Definition errors_clean {S} (c : cmd S Response) : Prop :=
  harmless (fun resp => is_error resp = true) c.

Lemma SPop_clean shuffle k n : fails_clean (fun t => SPop shuffle t k n).
Proof. unfold SPop, obind. solve_fails_clean. Qed.
#[export] Hint Resolve SPop_clean : agree.

(** The reply for a method that fails cleanly. *)
Lemma clean_callP {B} (m : Time -> MemoryStore -> may_panic (result B * MemoryStore))
    (reply : B -> Response) :
  fails_clean m -> (forall b, is_error (reply b) = false) ->
  errors_clean (let* r := callP m in Done (onOk r reply)).
Proof.
  intros Hf Hb. apply harmless_callP. intros t s r s' Hm.
  destruct r as [b|e]; cbn [onOk]; [right; apply results_done; by rewrite Hb|]. left.
  split; [by eapply Hf|done].
Qed.

Lemma clean_call {B} (m : Time -> MemoryStore -> result B * MemoryStore)
    (reply : B -> Response) :
  fails_clean (lift m) -> (forall b, is_error (reply b) = false) ->
  errors_clean (let* r := call m in Done (onOk r reply)).
Proof. intros Hf Hb. by apply (clean_callP (lift m)). Qed.

(** Walks over a program down to its replies; [special] is tried first. *)
Ltac results_with special :=
  repeat first
    [ special | apply results_bind | apply results_query; intros ? ? | apply results_queryP; intros ? ? ? _
    | apply results_update | apply results_call; intros ? ? ? ? ?
    | apply results_callP; intros ? ? ? ? ? | apply results_crash | apply results_done
    | progress cbv zeta | progress intros | case_match ].

(** A reply that is no error, whatever its parts. *)
Ltac no_error :=
  intros; repeat match goal with H : is_error _ = true |- _ => revert H end;
  unfold orNull, boolReply, popReply, randReply, bulks;
  repeat case_match; by intros.

(** The option loops only read the clock. *)
Lemma setOptions_reads : forall rest opts ttl, reads_only (setOptions rest opts ttl).
Proof.
  fix IH 1. intros [|o rest1] opts ttl; cbn [setOptions]; unfold clockNow; [by reads|].
  reads; apply IH.
Qed.

Lemma getexOptions_reads : forall rest ttl p h, reads_only (getexOptions rest ttl p h).
Proof.
  fix IH 1. intros [|o rest1] ttl p h; cbn [getexOptions]; unfold clockNow; [by reads|].
  reads; apply IH.
Qed.

Lemma errors_clean_reads {S} (c : cmd S Response) : reads_only c -> errors_clean c.
Proof.
  intros Hc. unfold errors_clean. induction c as [a|X f k IH|]; cbn; [done| |done].
  intros t s b s' E. split; [left; symmetry; by apply (proj1 (Hc s) t s b s')|].
  apply IH. intros s0. apply Hc.
Qed.

(** Walks over a program: reads, calls whose failure is reported, and changes after which
    no reply is an error. *)
Ltac cleans_with special :=
  unfold errors_clean;
  repeat first
    [ special | apply harmless_query; intros ? ? | apply harmless_queryP; intros ? ? ? _
    | done | progress cbv zeta | progress intros | case_match
    | solve [apply harmless_never; results_with fail; no_error] ].

Ltac clean_method :=
  first [ apply clean_call | apply clean_callP ]; [auto with agree|no_error].

Ltac clean_handler :=
  intros args; match goal with |- errors_clean ?c => let h := head_of c in unfold h end;
  unfold handlePop, handleMembers, handleZPop, ZPopMin, ZPopMax, handleZSetStore, incrBy,
    expireAt, clockNow;
  cleans_with clean_method.

Lemma handleSet_clean args : errors_clean (handleSet args).
Proof.
  unfold handleSet. case_decide; [done|]. apply harmless_reads; [apply setOptions_reads|].
  intros parsed. cleans_with fail.
Qed.

Lemma handleGetEX_clean args : errors_clean (handleGetEX args).
Proof.
  unfold handleGetEX. case_decide; [done|]. apply harmless_reads; [apply getexOptions_reads|].
  intros parsed. cleans_with fail.
Qed.

Lemma handleMSet_clean args : errors_clean (handleMSet args).
Proof.
  unfold handleMSet. case_decide; [done|]. apply harmless_never, results_bind.
  eapply results_mono; [apply results_any|]. intros _ _. by apply results_done.
Qed.

Lemma Rename_false t src dst s s' : Rename t src dst s = Ret (false, s') -> s' = s.
Proof.
  unfold Rename. case_decide; [by intros [= <-]|]. by destruct (renameValue _ _ _ _).
Qed.

Lemma handleRename_clean args : errors_clean (handleRename args).
Proof.
  unfold handleRename. case_decide; [done|]. case_decide; [cleans_with fail|].
  apply harmless_callP. intros t s b s' E.
  destruct b; [by right|]. left. split; [by eapply Rename_false|done].
Qed.

Lemma storeHandlers_clean e : Forall (fun nh => forall args, errors_clean (nh.2 args)) (storeHandlers e).
Proof.
  repeat apply Forall_cons_2; try apply Forall_nil_2; cbn [fst snd].
  all: first [ apply handleSet_clean | apply handleGetEX_clean | apply handleMSet_clean
    | apply handleRename_clean
    | intros args; apply errors_clean_reads; revert args; read_handler; done
    | clean_handler ].
Qed.

(** The programs, except that number [j] has nothing to do. *)
Definition without {S A} (j : nat) (a : A) (progs : list (cmd S A)) : list (cmd S A) :=
  <[j := Done a]> progs.

Section World.

Context {L : Type} `{Appender L} (r : Router).

Lemma onStore_clean (c : handler) : errors_clean c -> errors_clean (onStore (L := L) c).
Proof using Type.
  unfold errors_clean, onStore. induction c as [a|X f k IH|]; cbn; [done| |done].
  intros Hc t w b w'. destruct (f t (wStore w)) as [[b1 s1]|?| |] eqn:E; cbn; try done.
  intros [= <- <-]. destruct (Hc _ _ _ _ E) as [[->|Hr] Hk]; (split; [|by apply IH]).
  - left. by destruct w.
  - right. by apply results_zoom.
Qed.

Lemma publish_clean args : errors_clean (makePublishHandler (L := L) r args).
Proof using Type.
  unfold makePublishHandler. case_decide; [done|]. case_match; [done|].
  apply harmless_never, results_bind. eapply results_mono; [apply results_any|].
  intros n _. by apply results_done.
Qed.

Lemma register_clean name (h : list string -> cmd (World L) Response) args :
  register r name = Some h -> errors_clean (h args).
Proof using Type.
  unfold register. destruct (String.eqb name "PUBLISH"); [intros [= <-]; apply publish_clean|].
  destruct (lookupHandler _ _) as [h'|] eqn:E; [|done]. intros [= <-].
  apply lookupHandler_elem in E. apply onStore_clean.
  by apply (proj1 (Forall_forall _ _) (storeHandlers_clean (env r)) _ E).
Qed.

Lemma Dispatch_clean args : errors_clean (Dispatch (L := L) r args).
Proof using Type.
  destruct args as [|a0 rest]; cbn [Dispatch]; [done|].
  destruct (register r _) as [h|] eqn:Eh; [|done].
  apply (harmless_bind _ (fun resp => is_error resp = true)); [by apply (register_clean _ _ _ Eh)|..].
  - eapply results_mono; [apply results_any|]. intros resp _ He. apply results_bind.
    eapply results_mono; [apply results_any|]. intros _ _. by apply results_done.
  - eapply results_mono; [apply results_any|]. intros resp _ He. unfold is_error in He.
    by rewrite He, andb_false_r.
  - intros resp. destruct (is_error resp); [by left|by right].
Qed.

(** Alone: the store, the subscribers and the log are exactly as before the command. *)
Lemma error_alone args clock i (w : World L) resp i' w' :
  run (Dispatch r args) clock i w = Ret (resp, i', w') -> is_error resp = true -> w' = w.
Proof using Type. apply (harmless_post _ _ w (Dispatch_clean args)). Qed.

(** C16: errors change nothing.  Clients run any commands concurrently, in any interleaving.
    If the reply to one of them is an error, then the same interleaving is possible, with
    the same replies, stores, subscribers and logs all along, without any step of that
    command: the others cannot tell that it was sent. *)
Theorem error_changes_nothing cmds (w : World L) pool w' j resp :
  psteps (List.map (Dispatch r) cmds, w) (pool, w') ->
  pool !! j = Some (Done resp) -> is_error resp = true ->
  psteps (without j resp (List.map (Dispatch r) cmds), w) (pool, w').
Proof using Type.
  intros Hs Hd He. unfold without. assert (exists args, cmds !! j = Some args) as [args Hj].
  { apply lookup_lt_is_Some. apply psteps_length in Hs. cbn in Hs. rewrite List.length_map in Hs.
    rewrite Hs. by eapply lookup_lt_Some. }
  eapply (harmless_pool (fun resp => is_error resp = true)); [exact Hs| |apply (Dispatch_clean args)|done..].
  by rewrite list_lookup_fmap, Hj.
Qed.

End World.

(** A push on a string fails beside a command that succeeds. *)
Definition sampleFailing : list (list string) := [["LPUSH"; "a"; "x"]; ["SET"; "b"; "1"]].

Definition sampleFailed : list (cmd (World AOF) Response) * World AOF :=
  runPool [1; 0; 1]%nat 0 (List.map (Dispatch sampleRouter) sampleFailing)
    (snd (sampleRun sampleCommands)).

Lemma sampleFailed_steps :
  psteps (List.map (Dispatch sampleRouter) sampleFailing, snd (sampleRun sampleCommands))
    (fst sampleFailed, snd sampleFailed).
Proof. unfold sampleFailed. apply runPool_psteps. Qed.

Lemma error_changes_nothing_witness :
  psteps (without 0 (Error (errText ErrWrongType)) (List.map (Dispatch sampleRouter) sampleFailing),
          snd (sampleRun sampleCommands))
    (fst sampleFailed, snd sampleFailed).
Proof.
  apply (error_changes_nothing sampleRouter sampleFailing).
  - exact sampleFailed_steps.
  - by vm_compute.
  - reflexivity.
Defined.
