(* ===== verification/Framing.v ===== *)
(** * Framing: every reply is one value on the wire

    Status and error replies are written without escaping, so that a line break in their
    text would split the frame.  Every reply of the registry is [shaped]: its texts are one
    line each, and the fields its type does not use are empty.  A shaped reply of a size
    the reader can allocate is read back as itself, and the next reply begins where it
    ends.  The texts that are not constants are the name of an unknown command and that of
    an unknown subcommand; the theorem asks for them to contain no line feed, and
    [unknown_command_splits] shows what happens otherwise. *)

From S2P Require Import Prelude GoLib Floats Protocol Glob Store Lists Sets Hashes ZSets Scan Cmd.
From S2P Require Import Walk StringCmds DataCmds ZSetCmds ServerCmds PubSub Router Persistence.
From S2P Require Import Agree Records Recovery Replies.
Open Scope cmd_scope.

(** ** Shape and size *)

(** What the serializer needs of a response so that it is one value. *)
Fixpoint shaped (r : Response) : Prop :=
  match r with
  | mkResponse t s n a =>
      match t with
      | TypeSimpleString | TypeError => line_ok s /\ n = 0 /\ a = []
      | TypeInteger => s = EmptyString /\ a = []
      | TypeBulkString => n = 0 /\ a = []
      | TypeNullBulkString | TypeNullArray => s = EmptyString /\ n = 0 /\ a = []
      | TypeArray => s = EmptyString /\ n = 0 /\ fold_right (fun e P => shaped e /\ P) True a
      end
  end.

(** The reader can hold the response: integers of 64 bits, strings and arrays that [make]
    can allocate. *)
Fixpoint fits (r : Response) : Prop :=
  match r with
  | mkResponse t s n a =>
      match t with
      | TypeInteger => int64_ok n
      | TypeBulkString => len s <= maxAlloc
      | TypeArray =>
          Z.of_nat (length a) * sizeofResponse <= maxAlloc /\
          fold_right (fun e P => fits e /\ P) True a
      | _ => True
      end
  end.

Lemma fold_and_Forall {A} (P : A -> Prop) l :
  fold_right (fun e Q => P e /\ Q) True l <-> Forall P l.
Proof.
  induction l as [|e l IH]; cbn; [by split; [constructor|]|].
  rewrite IH. by rewrite Forall_cons.
Qed.

Lemma shaped_wire_ok r : shaped r -> fits r -> wire_ok r.
Proof.
  induction r as [t s n a IH] using Response_nested_ind. destruct t; cbn; try tauto.
  intros (-> & -> & Hs%fold_and_Forall) (Hlen & Hf%fold_and_Forall).
  do 3 (split; [done|]). apply fold_and_Forall. apply Forall_forall. intros e He.
  rewrite Forall_forall in IH, Hs, Hf. auto.
Qed.

Lemma shaped_array a : Forall shaped a -> shaped (Array a).
Proof. intros Ha. cbn. do 2 (split; [done|]). by apply fold_and_Forall. Qed.

Lemma shaped_bulks l : shaped (bulks l).
Proof. apply shaped_array, Forall_fmap, Forall_true. done. Qed.

Lemma shaped_integers l : shaped (Array (Integer <$> l)).
Proof. apply shaped_array, Forall_fmap, Forall_true. done. Qed.

Lemma shaped_scanReply page : shaped (scanReply page).
Proof. apply shaped_array. constructor; [done|]. constructor; [apply shaped_bulks|done]. Qed.

Lemma shaped_error s : line_ok s -> shaped (Error s).
Proof. done. Qed.

(** A text that is quoted in a constant one. *)
Lemma contains_byte_app c s t : contains_byte c (s +:+ t) = contains_byte c s || contains_byte c t.
Proof. induction s as [|d s IH]; cbn; [done|]. by rewrite IH, orb_assoc. Qed.

Lemma TrimRight_app cut s t : t <> EmptyString -> TrimRight cut t = t -> TrimRight cut (s +:+ t) = s +:+ t.
Proof.
  intros Hne Ht. induction s as [|c s IH]; cbn; [done|]. rewrite IH.
  destruct (s +:+ t) eqn:E; [|done]. destruct s; [|done]. by destruct t.
Qed.

Lemma line_ok_quote pre x suf :
  contains_byte LF pre = false -> contains_byte LF x = false -> suf <> EmptyString -> line_ok suf ->
  line_ok (pre +:+ x +:+ suf).
Proof.
  intros Hp Hx Hne [Hs Ht]. split.
  - by rewrite !contains_byte_app, Hp, Hx, Hs.
  - rewrite <- sapp_assoc. by apply TrimRight_app.
Qed.

Lemma errText_line_ok e : line_ok (errText e).
Proof. by destruct e. Qed.

Lemma typeName_line_ok t : line_ok (typeName t).
Proof. by destruct t. Qed.

(** ** Replies of the handlers *)

(** Whatever other connections do in between, the reply is a frame. *)
Definition replies_shaped {S} (c : cmd S Response) : Prop := results shaped c.


Create HintDb shaped.
#[export] Hint Resolve shaped_bulks shaped_integers shaped_scanReply errText_line_ok typeName_line_ok : shaped.

(** A reply whose texts are constants, or the two kinds of arrays. *)
Ltac shape :=
  intros; unfold orNull, boolReply, popReply, randReply, rankReply, sizeEncoding,
    notInteger, onOk, Type_;
  repeat case_match; simplify_eq;
  first [ solve [eauto with shaped]
        | apply shaped_error; solve [eauto with shaped | by split | by apply line_ok_quote]
        | split; [by split|done]
        | split; [solve [auto with shaped]|done]
        | by repeat split ].


(** The option loops fail with shaped replies. *)
Ltac options_loop IH := cbv zeta; repeat case_match; try apply IH; shape.

Lemma zrangeOptions_shaped : forall rest o e, zrangeOptions rest o = inl e -> shaped e.
Proof. fix IH 1. intros [|w rest] o e; cbn [zrangeOptions]; [done|]. options_loop IH. Qed.

Lemma scoreOptions_shaped : forall rest b o n e, scoreOptions rest b o n = inl e -> shaped e.
Proof. fix IH 1. intros [|w rest] b o n e; cbn [scoreOptions]; [done|]. options_loop IH. Qed.

Lemma lexOptions_shaped : forall rest o n e, lexOptions rest o n = inl e -> shaped e.
Proof. fix IH 1. intros [|w rest] o n e; cbn [lexOptions]; [done|]. options_loop IH. Qed.

Lemma lposOptions_shaped : forall rest o e, lposOptions rest o = inl e -> shaped e.
Proof. fix IH 1. intros [|w rest] o e; cbn [lposOptions]; [done|]. options_loop IH. Qed.

Lemma zstoreOptions_shaped fuel : forall n rest ws agg e,
  zstoreOptions fuel n rest ws agg = inl e -> shaped e.
Proof.
  induction fuel as [|fuel IH]; intros n [|w rest] ws agg e; cbn [zstoreOptions]; [done|shape|done|].
  options_loop IH.
Qed.

Lemma scanOptions_line_ok : forall rest p n e, scanOptions rest p n = inl e -> line_ok e.
Proof. fix IH 1. intros [|w rest] p n e; cbn [scanOptions]; [done|]. options_loop IH. Qed.

Lemma parseScanArgs_line_ok args o e : parseScanArgs args o = inl e -> line_ok e.
Proof. apply scanOptions_line_ok. Qed.

Lemma setOptions_shaped : forall rest opts ttl,
  results (S := MemoryStore) (fun r => forall e, r = inl e -> shaped e) (setOptions rest opts ttl).
Proof.
  fix IH 1. intros [|o rest] opts ttl; cbn [setOptions]; unfold clockNow; [by apply results_done|].
  results_with ltac:(apply IH); shape.
Qed.

Lemma getexOptions_shaped : forall rest ttl p h,
  results (S := MemoryStore) (fun r => forall e, r = inl e -> shaped e) (getexOptions rest ttl p h).
Proof.
  fix IH 1. intros [|o rest] ttl p h; cbn [getexOptions]; unfold clockNow; [by apply results_done|].
  results_with ltac:(apply IH); shape.
Qed.

Lemma mgetLoop_shaped ks : results (Forall shaped) (mgetLoop ks).
Proof.
  induction ks as [|k ks IH]; cbn [mgetLoop]; [by apply results_done|].
  apply results_bind, results_query. intros t s. apply results_bind.
  eapply results_mono; [apply IH|]. intros l Hl. apply results_done. constructor; [shape|done].
Qed.

Lemma hmgetLoop_shaped k fs : results (Forall shaped) (hmgetLoop k fs).
Proof.
  induction fs as [|f fs IH]; cbn [hmgetLoop]; [by apply results_done|].
  apply results_bind, results_query. intros t s. apply results_bind.
  eapply results_mono; [apply IH|]. intros l Hl. apply results_done. constructor; [shape|done].
Qed.

#[export] Hint Resolve zrangeOptions_shaped scoreOptions_shaped lexOptions_shaped
  lposOptions_shaped zstoreOptions_shaped parseScanArgs_line_ok shaped_array : shaped.

(** A loop inside a handler, with what its lemma says about the value. *)
Ltac shaped_loop :=
  first [ eapply results_mono; [apply setOptions_shaped|]
        | eapply results_mono; [apply getexOptions_shaped|]
        | match goal with |- results _ (msetLoop _) =>
            eapply results_mono; [apply results_any|]; intros [] _ end
        | eapply results_mono; [apply mgetLoop_shaped|]| eapply results_mono; [apply hmgetLoop_shaped|] ].

Ltac shaped_handler :=
  unfold replies_shaped; match goal with |- results _ ?c => let h := head_of c in unfold h end;
  unfold handlePop, handleMembers, handleAlgebra, handleKeyScan, handleZPop, handleZSetStore,
    incrBy, expireAt, objectEncoding, objectConst, clockNow;
  results_with shaped_loop; shape.

(** Only OBJECT and CLIENT quote an argument. *)
Lemma storeHandlers_shaped e :
  Forall (fun nh => forall args, contains_byte LF (arg args 1) = false -> replies_shaped (nh.2 args))
    (storeHandlers e).
Proof.
  repeat apply Forall_cons_2; try apply Forall_nil_2; cbn [fst snd]; intros args Harg.
  all: shaped_handler.
Qed.

(** ** Replies of the router *)

(** The arguments a reply may quote: the name and the subcommand. *)
Definition quotable (args : list string) : Prop :=
  contains_byte LF (arg args 0) = false /\ contains_byte LF (arg args 1) = false.

Section World.

Context {L : Type} `{Appender L} (r : Router).

Lemma register_shaped name (h : list string -> cmd (World L) Response) args :
  register r name = Some h -> quotable args -> replies_shaped (h args).
Proof using Type.
  unfold register, replies_shaped. destruct (String.eqb name "PUBLISH").
  - intros [= <-] _. unfold makePublishHandler. case_match; [by apply results_done|].
    case_match; [by apply results_done|]. apply results_bind.
    eapply results_mono; [apply results_any|]. intros count _. by apply results_done.
  - destruct (lookupHandler _ _) as [h'|] eqn:E; [|done]. intros [= <-] [_ Hq].
    apply lookupHandler_elem in E. apply results_zoom.
    by apply (proj1 (Forall_forall _ _) (storeHandlers_shaped (env r)) _ E).
Qed.

Lemma Dispatch_shaped args : quotable args -> replies_shaped (Dispatch (L := L) r args).
Proof using Type.
  intros Hq. unfold replies_shaped. destruct args as [|a0 rest]; cbn [Dispatch]; [by apply results_done|].
  destruct (register r _) as [h|] eqn:Eh.
  - apply results_bind. eapply results_mono; [by apply (register_shaped _ _ _ Eh Hq)|].
    intros resp H1. apply results_bind. eapply results_mono; [apply results_any|]. done.
  - apply results_done, shaped_error, line_ok_quote; [done|apply Hq|done|done].
Qed.

(** C17: replies are whole frames.  Clients run any commands concurrently, in any
    interleaving, in any state.  The reply to one whose name and first argument contain no
    line feed is one value of the protocol: when it fits in memory, the bytes written are
    read back as exactly that reply, and what follows them is left untouched. *)
Theorem replies_framed cmds (w : World L) pool w' j args resp :
  psteps (List.map (Dispatch r) cmds, w) (pool, w') -> cmds !! j = Some args -> quotable args ->
  pool !! j = Some (Done resp) -> fits resp ->
  shaped resp /\ forall rest, ReadValue (Serialize resp +:+ rest) = Ret (resp, rest).
Proof using Type.
  intros Hs Hj Hq Hp Hf. assert (shaped resp) as Hr.
  { eapply (results_pool shaped); [exact Hs| |by apply (Dispatch_shaped args)|exact Hp].
    by rewrite list_lookup_fmap, Hj. }
  split; [done|]. intros rest. by apply ReadValue_Serialize, shaped_wire_ok.
Qed.

End World.

(** Two clients, the second of which quotes. *)
Definition sampleQuoted : list (list string) := [["SET"; "k"; "v"]; ["OBJECT"; "nosuch"]].

Definition sampleReplies : list (cmd (World AOF) Response) * World AOF :=
  runPool [0; 1; 0]%nat 0 (List.map (Dispatch sampleRouter) sampleQuoted)
    (snd (sampleRun sampleCommands)).

Lemma sampleReplies_steps :
  psteps (List.map (Dispatch sampleRouter) sampleQuoted, snd (sampleRun sampleCommands))
    (fst sampleReplies, snd sampleReplies).
Proof. unfold sampleReplies. apply runPool_psteps. Qed.

Lemma replies_framed_witness :
  shaped (Error "ERR unknown subcommand 'nosuch'. Try OBJECT HELP.") /\
  forall rest,
    ReadValue (Serialize (Error "ERR unknown subcommand 'nosuch'. Try OBJECT HELP.") +:+ rest) =
    Ret (Error "ERR unknown subcommand 'nosuch'. Try OBJECT HELP.", rest).
Proof.
  apply (replies_framed (L := AOF) sampleRouter sampleQuoted (snd (sampleRun sampleCommands))
           (fst sampleReplies) (snd sampleReplies) 1 ["OBJECT"; "nosuch"]).
  - exact sampleReplies_steps.
  - reflexivity.
  - by split.
  - by vm_compute.
  - done.
Defined.

(** A command name with a line break in it: the client reads an error, and then the rest of
    the name as the next reply. *)
Lemma unknown_command_splits :
  exists resp i' w',
    run (Dispatch sampleRouter ["x" +:+ CRLF +:+ ":1" +:+ CRLF]) (fun i => Z.of_nat i) 0
      (snd (sampleRun sampleCommands)) = Ret (resp, i', w') /\
    ReadValue (Serialize resp) = Ret (Error "ERR unknown command 'x", ":1" +:+ CRLF +:+ "'" +:+ CRLF) /\
    ReadValue (":1" +:+ CRLF +:+ "'" +:+ CRLF) = Ret (Integer 1, "'" +:+ CRLF).
Proof. do 3 eexists. split; [vm_compute; reflexivity|]. split; vm_compute; reflexivity. Qed.
