(* ===== verification/Panics.v ===== *)
(** * Panics: which commands can take the server down

    The handlers run in the goroutine of their connection without [recover], so that a
    panic ends the process.  Every atomic step of every command returns, whatever the
    state, the time and the other connections do, except for the commands of [risky]:
    ZCARD and OBJECT ENCODING (a nil dereference for a sorted set that is not there),
    SRANDMEMBER with a negative count (an allocation of any size), and ZUNIONSTORE and
    ZINTERSTORE with a number of keys near 2^63 (an overflowing bounds check). *)

From S2P Require Import Prelude GoLib Floats Protocol Glob Store Lists Sets Hashes ZSets Scan Cmd.
From S2P Require Import Walk StringCmds DataCmds ZSetCmds ServerCmds PubSub Router Persistence.
From S2P Require Import Keyspace Agree Records Recovery.
Open Scope cmd_scope.
Open Scope go_scope.

(** ** Methods that may panic, and do not *)

Create HintDb total.

(** A slice or an index whose bounds are in range. *)
Lemma slice_total {A} (l : list A) lo hi :
  0 <= lo <= hi -> hi <= llen l -> exists r, slice (E := Empty_set) l lo hi = Ret r.
Proof. intros. rewrite slice_ok by lia. eauto. Qed.

Lemma index_total {A} (l : list A) i :
  0 <= i < llen l -> exists r, index (E := Empty_set) l i = Ret r.
Proof. intros Hi. destruct (index_ok (E := Empty_set) l i) as (a & _ & ->); [lia|]. eauto. Qed.

Lemma clampRange_bounds a b n :
  0 <= n -> let '(lo, hi) := clampRange a b n in (hi <? lo) = false -> 0 <= lo <= hi + 1 /\ hi + 1 <= n.
Proof. intros Hn. unfold clampRange. repeat case_match; zbool; lia. Qed.

(** The elements between clamped bounds. *)
Lemma clamped_slice {A B} (l : list A) a b (c : may_panic B) (k : list A -> may_panic B) :
  (exists r, c = Ret r) -> (forall x, exists r, k x = Ret r) ->
  exists r, (let '(lo, hi) := clampRange a b (llen l) in
             if hi <? lo then c else obind (slice l lo (hi + 1)) k) = Ret r.
Proof.
  intros Hc Hk. pose proof (clampRange_bounds a b (llen l) (llen_nonneg l)) as Hb.
  destruct (clampRange a b (llen l)) as [lo hi]. destruct (hi <? lo); [done|].
  destruct Hb as [H1 H2]; [done|]. destruct (slice_total l lo (hi + 1)) as [r ->]; [lia|lia|]. cbn. apply Hk.
Qed.

Lemma LRange_total k a b t s : exists r, LRange t k a b s = Ret r.
Proof.
  unfold LRange. destruct (getList t k s) as [l|]; [|eauto]. cbv zeta.
  destruct (llen (default [] l) =? 0); [eauto|]. apply clamped_slice; eauto.
Qed.

Lemma LTrim_total k a b t s : exists r, LTrim t k a b s = Ret r.
Proof. unfold LTrim. repeat (case_decide; [eauto|]). apply clamped_slice; eauto. Qed.

Lemma ZRange_total k a b rv ws t s : exists r, ZRange t k a b rv ws s = Ret r.
Proof.
  unfold ZRange. destruct (getZSet t k s) as [[z|]|]; [|eauto..]. case_decide; [eauto|].
  apply (clamped_slice (sortedMembers z) a b); eauto.
Qed.

Lemma LIndex_total k i t s : exists r, LIndex t k i s = Ret r.
Proof.
  unfold LIndex. destruct (getList t k s) as [l|]; [|eauto]. cbv zeta.
  generalize (default [] l). intros l'. case_match eqn:E; [eauto|]. zbool.
  destruct (index_total l' (normaliseIndex i (llen l'))) as [r ->]; [|cbn; eauto].
  split; [done|]. revert E. unfold normaliseIndex. repeat case_match; zbool; lia.
Qed.

Lemma LPop_total k n t s : 0 <= n -> exists r, LPop t k n s = Ret r.
Proof.
  intros Hn. unfold LPop. destruct (getList t k s) as [[l|]|]; [|eauto..]. cbv zeta.
  pose proof (llen_nonneg l). set (c := if llen l <? n then llen l else n).
  assert (0 <= c <= llen l) by (unfold c; case_match; zbool; lia).
  zfalse (c <? 0). destruct (slice_total l c (llen l)) as [r ->]; [lia..|]. cbn. eauto.
Qed.

Lemma RPop_total k n t s : 0 <= n -> exists r, RPop t k n s = Ret r.
Proof.
  intros Hn. unfold RPop. destruct (getList t k s) as [[l|]|]; [|eauto..]. cbv zeta.
  pose proof (llen_nonneg l). set (c := if llen l <? n then llen l else n).
  assert (0 <= c <= llen l) by (unfold c; case_match; zbool; lia).
  zfalse (c <? 0). rewrite copyTail_ok by lia. cbn [obind].
  destruct (slice_total l 0 (llen l - c)) as [r ->]; [lia..|]. cbn. eauto.
Qed.

Lemma findPivot_bounds p l i : 0 <= i -> findPivot p l i = -1 \/ i <= findPivot p l i < i + llen l.
Proof.
  revert i. induction l as [|v l IH]; intros i Hi; cbn [findPivot]; [by left|].
  change (v :: l) with ([v] ++ l). rewrite llen_app. pose proof (llen_nonneg l).
  unfold llen at 1. cbn [length]. case_decide; [lia|]. destruct (IH (i + 1)); lia.
Qed.

Lemma LInsert_total k before p v t s : exists r, LInsert t k before p v s = Ret r.
Proof.
  unfold LInsert. repeat (case_decide; [eauto|]). cbv zeta. set (l := default [] _).
  pose proof (findPivot_bounds p l 0). case_match eqn:E; [eauto|]. zbool.
  set (pos := if negb before then _ else _).
  assert (0 <= pos <= llen l) by (unfold pos; case_match; lia).
  destruct (slice_total l 0 pos) as [r1 ->]; [lia..|]. cbn [obind].
  destruct (slice_total l pos (llen l)) as [r2 ->]; [lia..|]. cbn [obind]. eauto.
Qed.

Lemma LMove_total src dst a b t s : exists r, LMove t src dst a b s = Ret r.
Proof.
  unfold LMove. repeat (case_decide; [eauto|]). cbv zeta. case_match eqn:E; [eauto|]. zbool.
  destruct (takeEnd_ok a (default [] (lists s !! src))) as (e & rest & -> & _); [|cbn; eauto].
  intros Hnil. by rewrite Hnil in E.
Qed.

Lemma SPop_total shuffle k n t s :
  (forall l, shuffle l ≡ₚ l) -> 0 <= n -> exists r, SPop shuffle t k n s = Ret r.
Proof.
  intros Hsh Hn. unfold SPop. destruct (getSet t k s) as [[st|]|]; [|eauto..]. cbv zeta.
  case_match eqn:E; [eauto|]. zbool.
  destruct (slice_total (shuffle (elements st)) 0 n) as [r ->]; [lia| |cbn; eauto].
  unfold llen in *. rewrite (Permutation_length (Hsh _)). lia.
Qed.

Lemma SRandMember_total shuffle intN k n t s :
  (forall l, shuffle l ≡ₚ l) -> 0 <= n -> exists r, SRandMember shuffle intN t k n s = Ret r.
Proof.
  intros Hsh Hn. unfold SRandMember. destruct (getSet t k s) as [[st|]|]; [|eauto..]. cbv zeta.
  case_match eqn:E0; [eauto|]. zbool. ztrue (0 <? n). case_match eqn:E; [eauto|]. zbool.
  destruct (slice_total (shuffle (elements st)) 0 n) as [r ->]; [lia| |cbn; eauto].
  unfold llen in *. rewrite (Permutation_length (Hsh _)). lia.
Qed.

Lemma zpop_total from k n t s : 0 <= n -> exists r, zpop from t k n s = Ret r.
Proof.
  intros Hn. unfold zpop. destruct (getZSet t k s) as [[z|]|]; [|eauto..]. case_decide; [eauto|].
  cbv zeta. case_match eqn:E; [|eauto]. pose proof (llen_nonneg (sortedMembers z)).
  zbool. case_match; lia.
Qed.

Lemma Rename_total src dst t s : src <> dst -> exists r, Rename t src dst s = Ret r.
Proof. intros Hne. destruct (Rename_ret t src dst s Hne) as [s' ->]. eauto. Qed.

#[export] Hint Resolve LRange_total LTrim_total ZRange_total LIndex_total LPop_total RPop_total
  LInsert_total LMove_total SPop_total SRandMember_total zpop_total Rename_total : total.

(** ** Handlers *)

(** Walks over a program; the methods that may panic are closed by the lemmas above. *)
Ltac totals_with special :=
  repeat first
    [ special | apply total_bind | apply total_done | apply total_query | apply total_update
    | apply total_call | apply total_queryP; intros; solve [eauto with total]
    | apply total_callP; intros; solve [eauto with total]
    | progress cbv zeta | progress intros | case_match ].
Ltac totals := totals_with fail.

Lemma setOptions_total : forall rest opts ttl, never_panics (setOptions rest opts ttl).
Proof.
  fix IH 1. intros [|o rest] opts ttl; cbn [setOptions]; unfold clockNow; [done|].
  totals_with ltac:(apply IH).
Qed.

Lemma getexOptions_total : forall rest ttl p h, never_panics (getexOptions rest ttl p h).
Proof.
  fix IH 1. intros [|o rest] ttl p h; cbn [getexOptions]; unfold clockNow; [done|].
  totals_with ltac:(apply IH).
Qed.

Lemma mgetLoop_total ks : never_panics (mgetLoop ks).
Proof. induction ks; cbn [mgetLoop]; totals_with assumption. Qed.

Lemma msetLoop_total kvs : never_panics (msetLoop kvs).
Proof. induction kvs; cbn [msetLoop]; totals_with assumption. Qed.

Lemma hmgetLoop_total k fs : never_panics (hmgetLoop k fs).
Proof. induction fs; cbn [hmgetLoop]; totals_with assumption. Qed.

Lemma parseNonNegative_pos v n : parseNonNegative v = Some n -> 0 <= n.
Proof. unfold parseNonNegative. repeat case_match; intros; simplify_eq; zbool; lia. Qed.

#[export] Hint Resolve parseNonNegative_pos : total.
#[export] Hint Extern 2 (0 <= _) => progress (simplify_eq; zbool); lia : total.

(** The number of keys of ZUNIONSTORE and ZINTERSTORE for which [3+numkeys] overflows. *)
Definition hugeNumkeys (args : list string) : bool :=
  match ParseInt (arg args 2) with Some n => maxInt64 - 3 <? n | None => false end.

(** The command lines that are not covered. *)
Definition risky (args : list string) : bool :=
  let name := ToUpper (arg args 0) in
  String.eqb name "ZCARD" ||
  (String.eqb name "OBJECT" && String.eqb (ToUpper (arg args 1)) "ENCODING") ||
  (String.eqb name "SRANDMEMBER" &&
     match ParseInt (arg args 2) with Some n => n <? 0 | None => false end) ||
  ((String.eqb name "ZUNIONSTORE" || String.eqb name "ZINTERSTORE") && hugeNumkeys args).

Lemma handleZSetStore_total name args inter :
  hugeNumkeys args = false -> never_panics (handleZSetStore name args inter).
Proof.
  unfold hugeNumkeys, handleZSetStore. case_decide; [done|].
  destruct (ParseInt (arg args 2)) as [n|] eqn:E; [|done]. intros Hn. zbool.
  pose proof (ParseInt_ok _ _ E) as [H1 H2]. destruct (n <? 1) eqn:E1; [done|]. zbool.
  rewrite wrap64_id by (split; unfold minInt64, maxInt64 in *; lia).
  destruct (llen args <? 3 + n); [done|]. totals.
Qed.

(** The commands that need an argument about [args] come first. *)
Lemma storeHandlers_total e :
  (forall l, shuffle e l ≡ₚ l) ->
  Forall (fun nh => forall args, nh.1 = ToUpper (arg args 0) -> risky args = false ->
    never_panics (nh.2 args)) (storeHandlers e).
Proof.
  intros Hsh. repeat apply Forall_cons_2; try apply Forall_nil_2; cbn [fst snd]; intros args Hn Hr.
  all: unfold risky in Hr; rewrite <- Hn in Hr; cbn [String.eqb Ascii.eqb Bool.eqb] in Hr.
  all: try discriminate Hr.
  all: match goal with |- never_panics ?c => let h := head_of c in unfold h end;
    try (apply handleZSetStore_total; done);
    unfold handlePop, handleMembers, handleAlgebra, handleKeyScan, handleZPop, ZPopMin, ZPopMax,
      handleZSetStore, incrBy, expireAt, objectConst, clockNow.
  all: try (totals_with ltac:(first [apply setOptions_total | apply getexOptions_total
    | apply mgetLoop_total | apply msetLoop_total | apply hmgetLoop_total ]); done).
Qed.

(** ** The router *)

Section World.

Context {L : Type} `{Appender L} (r : Router)
  (shuffle_perm : forall l, shuffle (env r) l ≡ₚ l).

Lemma Send_total id msg : never_panics (Send id msg).
Proof using Type. clear shuffle_perm. unfold Send. totals_with assumption. Qed.

Lemma sendAll_total ds : never_panics (sendAll ds).
Proof using Type.
  clear shuffle_perm. induction ds as [|[sub msg] ds IH]; cbn [sendAll];
    totals_with ltac:(first [assumption|apply Send_total]).
Qed.

Lemma register_total name (h : list string -> cmd (World L) Response) args :
  register r name = Some h -> name = ToUpper (arg args 0) -> risky args = false ->
  never_panics (h args).
Proof using shuffle_perm.
  unfold register. destruct (String.eqb name "PUBLISH").
  - intros [= <-] _ _. unfold makePublishHandler, onPubSub, Publish.
    totals_with ltac:(first [apply total_zoom|apply sendAll_total]).
  - destruct (lookupHandler _ _) as [h'|] eqn:E; [|done]. intros [= <-] Hn Hr.
    apply lookupHandler_elem in E. apply total_zoom.
    by apply (proj1 (Forall_forall _ _) (storeHandlers_total (env r) shuffle_perm) _ E).
Qed.

Lemma appendToAOF_total name args resp : never_panics (appendToAOF (L := L) name args resp).
Proof using Type.
  clear shuffle_perm. unfold appendToAOF, appendRename, appendDeadline, aofAppend, onStore, clockNow.
  totals_with ltac:(apply total_zoom).
Qed.

Lemma Dispatch_total args : risky args = false -> never_panics (Dispatch (L := L) r args).
Proof using shuffle_perm.
  intros Hr. destruct args as [|a0 rest]; cbn [Dispatch]; [done|]. cbv zeta.
  destruct (register r (ToUpper a0)) as [h|] eqn:E; [|done]. apply total_bind.
  - by eapply register_total.
  - intros resp. apply total_bind; [|done]. case_match; [apply appendToAOF_total|done].
Qed.

(** C15: commands return.  No command outside [risky] can panic: run alone it ends with a
    reply in every state; and whatever such commands other connections are executing, a
    command that has not replied yet can always take its next step. *)
Theorem commands_return (cmds : list (list string)) :
  Forall (fun args => risky args = false) cmds ->
  (forall args clock i (w : World L), args ∈ cmds ->
     exists resp i' w', run (Dispatch r args) clock i w = Ret (resp, i', w')) /\
  (forall (w : World L) pool w' j c t,
     psteps (List.map (Dispatch r) cmds, w) (pool, w') -> pool !! j = Some c ->
     (exists resp, c = Done resp) \/
     exists c' w'', pstep (pool, w') t (<[j := c']> pool, w'')).
Proof using shuffle_perm.
  intros Hr. split.
  - intros args clock i w Hin. apply total_run, Dispatch_total.
    by apply (proj1 (Forall_forall _ _) Hr).
  - intros w pool w' j c t Hs Hj.
    assert (Forall never_panics pool) as Hp.
    { apply (total_pool _ _ Hs), Forall_map. eapply Forall_impl; [exact Hr|]. apply Dispatch_total. }
    pose proof (Forall_lookup_1 _ _ _ _ Hp Hj) as Hc.
    apply list_elem_of_split_length in Hj as (pre & post & -> & ->).
    destruct (total_step pre c post w' t Hc) as [Hd|(c' & w'' & Hst)]; [by left|right].
    exists c', w''. rewrite insert_app_r_alt, Nat.sub_diag by lia. exact Hst.
Qed.

End World.

Lemma commands_return_witness :
  risky ["SPOP"; "s"; "3"] = false /\ risky ["ZCARD"; "z"] = true /\
  exists resp i' w',
    run (Dispatch sampleRouter ["SPOP"; "s"; "3"]) (fun i => Z.of_nat i) 0
      (snd (sampleRun sampleCommands)) = Ret (resp, i', w').
Proof.
  split; [reflexivity|]. split; [reflexivity|].
  apply (commands_return (L := AOF) sampleRouter (fun l => Permutation_refl l) [["SPOP"; "s"; "3"]]).
  - by repeat constructor.
  - by left.
Defined.
