(* ===== verification/CmdFacts.v ===== *)
(** * Properties of the command handlers

    What a handler does when it runs alone, and what two of them can do when their
    store calls interleave. *)

From S2P Require Import Prelude GoLib Floats Protocol Glob Store Keyspace ZSets Cmd StringCmds ZSetCmds.
Open Scope cmd_scope.

(** ** Counters *)

(** The number a counter command starts from: 0 for an absent key, [None] for a value
    that is no 64-bit integer. *)
Definition counterOf (v : option string) : option Z :=
  match v with None => Some 0 | Some v => ParseInt v end.

Lemma counterOf_ok v n : counterOf v = Some n -> int64_ok n.
Proof.
  destruct v as [v|]; cbn; [apply ParseInt_ok|]. intros [= <-]. done.
Qed.

Lemma Get_Set t key v s : Get t key (Set_ key v s) = Some v.
Proof.
  unfold Get, liveString, Set_. cbn [strings bumpVersion set_keyVersion set_strings].
  by rewrite lookup_insert_eq.
Qed.

(** The wrapped sum falls on the wrong side of [n] exactly when the sum overflows. *)
Lemma wrap64_sum n delta :
  int64_ok n -> int64_ok delta ->
  (wrap64 (n + delta) = n + delta /\ minInt64 <= n + delta <= maxInt64) \/
  (wrap64 (n + delta) < n /\ 0 < delta /\ maxInt64 < n + delta) \/
  (n < wrap64 (n + delta) /\ delta < 0 /\ n + delta < minInt64).
Proof.
  unfold int64_ok, wrap64, minInt64, maxInt64. intros Hn Hd.
  pose proof (Z.div_mod (n + delta + 2 ^ 63) (2 ^ 64)) as Hm.
  pose proof (Z.mod_pos_bound (n + delta + 2 ^ 63) (2 ^ 64)) as Hb.
  set (q := (n + delta + 2 ^ 63) / 2 ^ 64) in *.
  assert (q = -1 \/ q = 0 \/ q = 1) as [Hq|[Hq|Hq]] by nia; rewrite Hq in *; lia.
Qed.

(** What a counter command replies and leaves, run alone on a counter that [delta] is added
    to: the sum if it fits, otherwise, or if the value is no integer, an error. *)
Definition counts (h : handler) (key : string) (delta : Z) (clock : nat -> Time) (i : nat)
    (s : MemoryStore) : Prop :=
  match counterOf (Get (clock i) key s) with
  | None => run h clock i s = Ret (Error "ERR value is not an integer or out of range", S i, s)
  | Some n =>
      if decide (minInt64 <= n + delta <= maxInt64) then
        run h clock i s = Ret (Integer (n + delta), S (S i), Set_ key (FormatInt (n + delta)) s) /\
        forall t, counterOf (Get t key (Set_ key (FormatInt (n + delta)) s)) = Some (n + delta)
      else run h clock i s =
             Ret (Error (if 0 <? delta then "ERR increment would overflow"
                         else "ERR decrement would overflow"), S i, s)
  end.

(** The overflow test on the wrapped sum is exact. *)
Lemma incrBy_counts key delta clock i s :
  int64_ok delta -> counts (incrBy key delta) key delta clock i s.
Proof.
  intros Hd. unfold counts, incrBy. rewrite run_bind, run_query.
  change (match Get (clock i) key s with Some v => ParseInt v | None => Some 0 end)
    with (counterOf (Get (clock i) key s)).
  destruct (counterOf _) as [n|] eqn:En; [|done]. apply counterOf_ok in En.
  destruct (wrap64_sum n delta En Hd) as [[Hw Hr]|[(Hw & Hp & Ho)|(Hw & Hp & Ho)]].
  - rewrite decide_True, Hw by done.
    replace ((0 <? delta) && (n + delta <? n)) with false by lia.
    replace ((delta <? 0) && (n <? n + delta)) with false by lia.
    split; [by rewrite run_bind, run_update|]. intros t. rewrite Get_Set.
    by apply ParseInt_FormatInt.
  - rewrite decide_False by lia.
    replace ((0 <? delta) && (wrap64 (n + delta) <? n)) with true by lia.
    by replace (0 <? delta) with true by lia.
  - rewrite decide_False by lia.
    replace ((0 <? delta) && (wrap64 (n + delta) <? n)) with false by lia.
    replace ((delta <? 0) && (n <? wrap64 (n + delta))) with true by lia.
    by replace (0 <? delta) with false by lia.
Qed.

(** C40: INCR, DECR, INCRBY and DECRBY on a key that is absent or a string: the stored
    decimal is parsed, the sum with 1, -1, the argument or its negation is stored back as SET
    would and replied when it fits into 64 bits; when it does not fit, or the value or the
    argument is no 64-bit integer, the reply is an error and the store is unchanged.  The
    one argument that is left out is the least integer for DECRBY, which has no negation. *)
Theorem counters_correct key text clock i s :
  stringOrNone (view (clock i) s key) -> ParseInt text <> Some minInt64 ->
  counts (handleIncr ["INCR"; key]) key 1 clock i s /\
  counts (handleDecr ["DECR"; key]) key (-1) clock i s /\
  match ParseInt text with
  | Some delta =>
      counts (handleIncrBy ["INCRBY"; key; text]) key delta clock i s /\
      counts (handleDecrBy ["DECRBY"; key; text]) key (- delta) clock i s
  | None =>
      run (handleIncrBy ["INCRBY"; key; text]) clock i s =
        Ret (Error "ERR value is not an integer or out of range", i, s) /\
      run (handleDecrBy ["DECRBY"; key; text]) clock i s =
        Ret (Error "ERR value is not an integer or out of range", i, s)
  end.
Proof.
  intros _ Hmin. split; [by apply incrBy_counts|]. split; [by apply incrBy_counts|].
  destruct (ParseInt text) as [delta|] eqn:E; unfold handleIncrBy, handleDecrBy; cbn [arg nth length];
    rewrite !decide_False by lia; rewrite E; [|done].
  apply ParseInt_ok in E. split; [by apply incrBy_counts|].
  assert (delta <> minInt64) as Hne by congruence.
  rewrite wrap64_id by (unfold int64_ok, minInt64, maxInt64 in *; lia).
  apply incrBy_counts. unfold int64_ok, minInt64, maxInt64 in *. lia.
Qed.

(** A counter at one below the limit. *)
Lemma counters_correct_witness :
  let s := Set_ "k" "9223372036854775806" NewMemoryStore in
  run (handleIncr ["INCR"; "k"]) (fun _ => 0) 0 s =
    Ret (Integer 9223372036854775807, 2%nat, Set_ "k" "9223372036854775807" s) /\
  run (handleDecrBy ["DECRBY"; "k"; "-2"]) (fun _ => 0) 0 s =
    Ret (Error "ERR increment would overflow", 1%nat, s).
Proof.
  intros s.
  destruct (counters_correct "k" "-2" (fun _ => 0) 0 s) as (H1 & _ & H2); [done|by vm_compute|].
  change (ParseInt "-2") with (Some (-2)) in H2. destruct H2 as [_ H2].
  unfold counts in H1, H2.
  assert (counterOf (Get ((fun _ => 0) 0%nat) "k" s) = Some 9223372036854775806) as E by reflexivity.
  rewrite E in H1, H2. clear E. rewrite decide_True in H1 by (unfold minInt64, maxInt64; lia).
  rewrite decide_False in H2 by (unfold minInt64, maxInt64; lia).
  split; [exact (proj1 H1)|exact H2].
Defined.

(** The negation of the least integer wraps around to itself: DECRBY of it on an absent key
    replies and stores the least integer, where the sum is out of range. *)
Lemma DECRBY_min_wraps :
  run (handleDecrBy ["DECRBY"; "k"; "-9223372036854775808"]) (fun _ => 0) 0 NewMemoryStore =
    Ret (Integer minInt64, 2%nat, Set_ "k" "-9223372036854775808" NewMemoryStore) /\
  maxInt64 < 0 - minInt64.
Proof. split; [by vm_compute|done]. Qed.

(** ** Interleavings *)

(** The first or the second of two programs takes its next step. *)
Ltac first_steps := eapply (psteps_step _ 0); [apply (pstep_op [] [_])|]; [reflexivity|].
Ltac second_steps := eapply (psteps_step _ 0); [apply (pstep_op [_] [])|]; [reflexivity|].

(** Two clients increment the same absent counter. *)
Definition twoIncr : list (cmd MemoryStore Response) :=
  [handleIncr ["INCR"; "n"]; handleIncr ["INCR"; "n"]].

(** Counter updates are not atomic: two INCR of a fresh counter can both reply 1 and
    leave 1. *)
Theorem INCR_lost_update :
  exists s, psteps (twoIncr, NewMemoryStore) ([Done (Integer 1); Done (Integer 1)], s) /\
            Get 0 "n" s = Some "1".
Proof.
  eexists. split.
  - first_steps.
    second_steps.
    first_steps.
    second_steps.
    apply psteps_refl.
  - reflexivity.
Qed.

(** GETDEL is a read and then a deletion: two clients can both get the value. *)
Theorem GETDEL_delivers_twice :
  exists s, psteps ([handleGetDel ["GETDEL"; "k"]; handleGetDel ["GETDEL"; "k"]],
                    Set_ "k" "v" NewMemoryStore)
                   ([Done (BulkString "v"); Done (BulkString "v")], s).
Proof.
  eexists. first_steps. second_steps. first_steps. second_steps. apply psteps_refl.
Qed.

(** MSET sets its keys one by one: a reader between two of them sees half of it. *)
Theorem MSET_seen_half_done :
  exists s, psteps ([handleMSet ["MSET"; "a"; "1"; "b"; "2"]; handleMGet ["MGET"; "a"; "b"]],
                    NewMemoryStore)
                   ([Done (SimpleString "OK"); Done (Array [BulkString "1"; NullBulkString])], s).
Proof.
  eexists. first_steps. second_steps. second_steps. first_steps. apply psteps_refl.
Qed.

(** ** Argument checks *)

(** [3+numkeys] overflows for numkeys near 2^63: the guard lets it pass and the slice
    expression panics. *)
Theorem ZUNIONSTORE_numkeys_panics clock i s :
  run (handleZUnionStore ["ZUNIONSTORE"; "d"; "9223372036854775807"; "k"]) clock i s = Panic.
Proof. reflexivity. Qed.
