(* ===== verification/Linearizable.v ===== *)
(** * Atomic commands are linearizable

    Most handlers call the store once.  However the calls of such commands of any number of
    clients interleave, replies and store are those of the commands executed one after the
    other in some order: the order of their store calls.  CmdFacts shows what happens to
    the others. *)

From S2P Require Import Prelude GoLib Floats Protocol Glob Store Lists Sets Hashes ZSets Scan Cmd Walk.
From S2P Require Import StringCmds DataCmds ZSetCmds ServerCmds PubSub Router Persistence Agree Records Recovery.
Open Scope cmd_scope.

(** ** Programs of one step *)

(** At most one atomic step, and then a value. *)
Definition one_step {S A} (c : cmd S A) : Prop :=
  match c with
  | Op _ _ k => forall b, exists a, k b = Done a
  | _ => True
  end.

(** The programs one after the other. *)
Fixpoint sequentially {S A} (cs : list (cmd S A)) : cmd S (list A) :=
  match cs with
  | [] => Done []
  | c :: cs' =>
      let* a := c in
      let* l := sequentially cs' in
      Done (a :: l)
  end.

(** The elements at the given positions, in that order. *)
Definition pick {A} (l : list A) (order : list nat) : list A := omap (fun j => l !! j) order.

Lemma pick_app {A} (l : list A) o1 o2 : pick l (o1 ++ o2) = pick l o1 ++ pick l o2.
Proof. unfold pick. apply omap_app. Qed.

Lemma pick_cons {A} (l : list A) j o x : l !! j = Some x -> pick l (j :: o) = x :: pick l o.
Proof. intros H. unfold pick. cbn. by rewrite H. Qed.

Lemma pick_ext {A} (l l' : list A) o :
  (forall j, j ∈ o -> l !! j = l' !! j) -> pick l o = pick l' o.
Proof.
  unfold pick. induction o as [|j o IH]; intros H; [done|]. cbn. rewrite H by set_solver.
  rewrite IH; [done|]. set_solver.
Qed.

Lemma pick_all {A} (l : list A) : pick l (seq 0 (length l)) = l.
Proof.
  induction l as [|x l IH] using rev_ind; [done|].
  rewrite length_app, Nat.add_1_r, seq_S, pick_app. f_equal.
  - transitivity (pick l (seq 0 (length l))); [|exact IH]. apply pick_ext. intros j Hj%elem_of_seq. apply lookup_app_l. lia.
  - unfold pick. cbn. by rewrite list_lookup_middle.
Qed.

Lemma pick_length {A} (l : list A) o : (forall j, j ∈ o -> (j < length l)%nat) -> length (pick l o) = length o.
Proof.
  unfold pick. induction o as [|j o IH]; intros H; [done|]. cbn.
  destruct (lookup_lt_is_Some_2 l j) as [x ->]; [apply H; by left|]. cbn. rewrite IH; [done|].
  intros i Hi. apply H. by right.
Qed.

Section Sequences.

Context {S A : Type}.

Lemma run_sequentially_cons (c : cmd S A) cs clock i s a i1 s1 l i2 s2 :
  run c clock i s = Ret (a, i1, s1) -> run (sequentially cs) clock i1 s1 = Ret (l, i2, s2) ->
  run (sequentially (c :: cs)) clock i s = Ret (a :: l, i2, s2).
Proof. intros H1 H2. cbn [sequentially]. by rewrite run_bind, H1, run_bind, H2. Qed.

(** A finished program can be taken out. *)
Lemma run_without_done (xs ys : list (cmd S A)) a clock i s r i' s' :
  run (sequentially (xs ++ Done a :: ys)) clock i s = Ret (r, i', s') ->
  exists r1 r2, r = r1 ++ a :: r2 /\ length r1 = length xs /\
    run (sequentially (xs ++ ys)) clock i s = Ret (r1 ++ r2, i', s').
Proof.
  revert i s r. induction xs as [|c xs IH]; intros i s r; cbn [app sequentially].
  - rewrite run_bind. cbn [run]. rewrite run_bind.
    destruct (run (sequentially ys) clock i s) as [[[l i1] s1]|?| |]; try done.
    cbn [run]. intros [= <- <- <-]. by exists [], l.
  - rewrite run_bind. destruct (run c clock i s) as [[[b i1] s1]|?| |] eqn:E; try done.
    rewrite run_bind.
    destruct (run (sequentially (xs ++ _)) clock i1 s1) as [[[l i2] s2]|?| |] eqn:E2; try done.
    cbn [run]. intros [= <- <- <-]. destruct (IH _ _ _ E2) as (r1 & r2 & -> & Hl & Hr).
    exists (b :: r1), r2. split; [done|]. split; [cbn; congruence|].
    rewrite run_bind, E, run_bind, Hr. done.
Qed.

(** One reading of the clock earlier. *)
Lemma run_shift {B} (c : cmd S B) clock t i s a i' s' :
  run c clock i s = Ret (a, i', s') ->
  run c (fun n => match n with O => t | Datatypes.S m => clock m end) (Datatypes.S i) s =
    Ret (a, Datatypes.S i', s').
Proof.
  revert i s. induction c as [x|X f k IH|]; intros i s; cbn; [by intros [= <- <- <-]| |done].
  destruct (f (clock i) s) as [[b s1]|?| |]; try done. apply IH.
Qed.

Lemma run_dones (l : list A) clock i (s : S) :
  run (sequentially (Done <$> l)) clock i s = Ret (l, i, s).
Proof.
  induction l as [|a l IH]; [done|]. cbn [fmap list_fmap sequentially]. rewrite run_bind. cbn [run].
  by rewrite run_bind, IH.
Qed.

(** ** Linearization *)

(** A program that has finished can be executed first. *)
Lemma front_first pre post (c : cmd S A) a order replies clock i s1 s' :
  order ≡ₚ seq 0 (length (pre ++ Done a :: post)) ->
  length replies = length (pre ++ Done (S := S) a :: post) ->
  run (sequentially (pick (pre ++ Done a :: post) order)) clock 0 s1 =
    Ret (pick replies order, i, s') ->
  exists rest, length pre :: rest ≡ₚ order /\ replies !! length pre = Some a /\
    run (sequentially (pick (pre ++ c :: post) rest)) clock 0 s1 = Ret (pick replies rest, i, s').
Proof.
  intros Hp Hl Hrun. set (j := length pre).
  assert (forall j', j' ∈ order -> (j' < length (pre ++ Done (S := S) a :: post))%nat) as Hin.
  { intros j' Hx. rewrite Hp in Hx. apply elem_of_seq in Hx. lia. }
  assert (j ∈ order) as (o1 & o2 & ->)%list_elem_of_split.
  { rewrite Hp, length_app. apply elem_of_seq. cbn. unfold j. lia. }
  assert (NoDup (o1 ++ j :: o2)) as Hnd by (rewrite Hp; apply NoDup_seq).
  apply NoDup_app in Hnd as (_ & Hd & [Hn2 _]%NoDup_cons).
  assert (j ∉ o1) as Hn1 by (intros Hx; apply (Hd j Hx); by left).
  rewrite pick_app, (pick_cons _ j o2 (Done a)) in Hrun by by apply list_lookup_middle.
  apply run_without_done in Hrun as (r1 & r2 & Hr & Hlen & Hrun).
  rewrite pick_app in Hr. apply app_inj_1 in Hr as [Hr1 Hr2].
  2: { rewrite Hlen, !pick_length; [done|..]; intros j' Hx; rewrite ?Hl; apply Hin; set_solver. }
  destruct (lookup_lt_is_Some_2 replies j) as [x Hx]; [rewrite Hl; apply Hin; set_solver|].
  rewrite (pick_cons _ _ _ _ Hx) in Hr2. injection Hr2 as -> Hr2.
  exists (o1 ++ o2). split; [by rewrite Permutation_middle|]. split; [done|].
  assert (forall o, j ∉ o -> pick (pre ++ c :: post) o = pick (pre ++ Done a :: post) o) as Hpick.
  { intros o Ho. apply pick_ext. intros j' Hj'. destruct (decide (j = j')) as [<-|]; [done|].
    destruct (decide (j' < j)%nat); [by rewrite !lookup_app_l by done|].
    rewrite !lookup_app_r by (unfold j in *; lia).
    by replace (j' - length pre)%nat with (Datatypes.S (j' - length pre - 1)) by (unfold j in *; lia). }
  rewrite !pick_app, !Hpick, Hr1, Hr2 by done. exact Hrun.
Qed.

Lemma linearize (pool : list (cmd S A)) s replies s' :
  psteps (pool, s) (Done <$> replies, s') -> Forall one_step pool ->
  exists order clock i, order ≡ₚ seq 0 (length pool) /\
    run (sequentially (pick pool order)) clock 0 s = Ret (pick replies order, i, s').
Proof.
  intros H. remember (pool, s) as c eqn:Hc. remember (Done <$> replies, s') as c' eqn:Hc'.
  revert pool s Hc Hc'. induction H as [c|c t c1 c2 Hs Hss IH]; intros pool s -> Hc' Hone.
  - injection Hc' as -> ->. exists (seq 0 (length (Done (S := S) <$> replies))), (fun _ => 0), O.
    split; [done|]. rewrite pick_all, length_fmap, pick_all. apply run_dones.
  - inversion Hs as [pre post X f k s0 t' b s1 Hf Hpool Ht Hc1]; subst. clear Hs.
    apply Forall_app in Hone as [Hpre Hone]. apply Forall_cons in Hone as [Hk Hpost].
    destruct (Hk b) as [a Ha]. rewrite Ha in *. apply psteps_length in Hss. cbn [fst] in Hss.
    destruct (IH (pre ++ Done a :: post) s1) as (order & clock & i & Hp & Hrun);
      [done|done|by apply Forall_app; split; [|constructor]|].
    rewrite length_fmap in Hss.
    destruct (front_first pre post (Op X f k) a order replies clock i s1 s') as (rest & Hp' & Hx & Hrun');
      [done|done|done|].
    exists (length pre :: rest), (fun n => match n with O => t | Datatypes.S m => clock m end), (Datatypes.S i).
    split; [rewrite Hp', Hp, !length_app; done|].
    rewrite (pick_cons _ _ _ (Op X f k)) by by apply list_lookup_middle.
    rewrite (pick_cons _ _ _ _ Hx). eapply (run_sequentially_cons _ _ _ _ _ _ 1).
    + cbn. by rewrite Hf, Ha.
    + by apply run_shift.
Qed.

End Sequences.

(** ** The commands *)

Lemma one_step_bind {S A B} (c : cmd S A) (k : A -> cmd S B) :
  one_step c -> (forall a, exists b, k a = Done b) -> one_step (cbind c k).
Proof.
  destruct c as [a|X f k'|]; cbn; [|intros H Hk b|done].
  - intros _ Hk. by destruct (Hk a) as [b ->].
  - destruct (H b) as [a ->]. cbn. apply Hk.
Qed.

Lemma one_step_call {S B} (f : Time -> S -> B * S) : one_step (call f).
Proof. intros b. by eexists. Qed.
Lemma one_step_callP {S B} (f : Time -> S -> may_panic (B * S)) : one_step (callP f).
Proof. intros b. by eexists. Qed.
Lemma one_step_query {S B} (f : Time -> S -> B) : one_step (query f).
Proof. intros b. by eexists. Qed.
Lemma one_step_queryP {S B} (f : Time -> S -> may_panic B) : one_step (queryP f).
Proof. intros b. by eexists. Qed.
Lemma one_step_update {S} (f : Time -> S -> S) : one_step (update f).
Proof. intros b. by eexists. Qed.

Create HintDb one_step.
#[export] Hint Resolve one_step_call one_step_callP one_step_query one_step_queryP
  one_step_update : one_step.

Ltac one_stepper :=
  repeat first
    [ done | solve [auto with one_step]
    | apply one_step_bind; [solve [auto with one_step]|intros; repeat case_match; by eexists]
    | progress cbv zeta | case_match ].

(** The commands that call the store, or read the clock, more than once. *)
Definition composite : list string :=
  ["GETEX"; "SETNX"; "MSET"; "MGET"; "GETSET"; "GETDEL"; "APPEND"; "EXPIREAT"; "PEXPIREAT";
   "INCR"; "INCRBY"; "INCRBYFLOAT"; "DECR"; "DECRBY"; "HMGET"; "HINCRBY"; "HINCRBYFLOAT";
   "LPUSHX"; "RPUSHX"; "INFO"; "OBJECT"; "PUBLISH"].

(** SET with an absolute deadline reads the clock first. *)
Definition relative (args : list string) : bool :=
  forallb (fun a => negb (oneOf (ToUpper a) ["EXAT"; "PXAT"])) args.

Definition atomic (args : list string) : bool :=
  negb (oneOf (ToUpper (arg args 0)) composite) && relative args.

Lemma relative_cons a l : relative (a :: l) = true ->
  String.eqb (ToUpper a) "EXAT" = false /\ String.eqb (ToUpper a) "PXAT" = false /\ relative l = true.
Proof.
  unfold relative. cbn [forallb oneOf existsb].
  intros [H1%negb_true_iff H2]%andb_true_iff. rewrite !orb_false_iff in H1. tauto.
Qed.

Lemma setOptions_done : forall rest opts ttl,
  relative rest = true -> exists r, setOptions rest opts ttl = Done r.
Proof.
  fix IH 1. intros [|o rest] opts ttl Hr; cbn [setOptions]; [by eexists|].
  apply relative_cons in Hr as (H1 & H2 & Hr). rewrite H1, H2. cbv zeta.
  repeat (case_match; [by apply IH|]).
  repeat first [ by eexists | case_match; [destruct rest as [|v rest]; [by eexists|];
    apply relative_cons in Hr as (_ & _ & Hr); case_match; [by apply IH|by eexists]|] ].
Qed.

Lemma handleSet_one_step args : relative args = true -> one_step (handleSet args).
Proof.
  intros Hr. unfold handleSet. case_decide; [done|]. cbv zeta.
  destruct (setOptions_done (argsFrom 3 args) noOpts 0) as [[err|[opts ttl]] ->]; cbn [cbind]; [|done|].
  - revert Hr. unfold relative, argsFrom. rewrite <- (take_drop 3 args) at 1. rewrite forallb_app.
    by intros [_ Ho]%andb_true_iff.
  - case_match; [done|]. apply one_step_bind; [apply one_step_call|].
    intros [[v b1] b2]. repeat case_match; by eexists.
Qed.

Lemma storeHandlers_one_step e :
  Forall (fun nh => oneOf nh.1 composite = false -> forall args, relative args = true ->
    one_step (nh.2 args)) (storeHandlers e).
Proof.
  repeat apply Forall_cons_2; try apply Forall_nil_2; cbn [fst snd]; intros Hc; try discriminate Hc;
    clear Hc; intros args Hr.
  all: try (by apply handleSet_one_step).
  all: match goal with |- one_step ?c => let h := head_of c in unfold h end;
    unfold handlePop, handleMembers, handleAlgebra, handleKeyScan, handleZPop, handleZSetStore.
  all: one_stepper.
Qed.

Section World.

Context {L : Type} `{Appender L} (r : Router) (Hoff : hasAof r = false).

Lemma one_step_zoom {S T A} (get : T -> S) (put : S -> T -> T) (c : cmd S A) :
  one_step c -> one_step (zoom get put c).
Proof using Type. clear Hoff. destruct c as [a|X f k|]; cbn; [done| |done]. intros Hk b. destruct (Hk b) as [a ->]. by eexists. Qed.

Lemma Dispatch_one_step args : atomic args = true -> one_step (Dispatch (L := L) r args).
Proof using Hoff.
  intros [Hc%negb_true_iff Hr]%andb_true_iff. destruct args as [|a0 rest]; cbn [Dispatch]; [done|].
  cbn [arg nth] in Hc. cbv zeta. unfold register.
  assert (String.eqb (ToUpper a0) "PUBLISH" = false) as ->.
  { unfold oneOf in Hc. cbn [existsb composite] in Hc. rewrite !orb_false_iff in Hc. tauto. }
  destruct (lookupHandler _ _) as [h|] eqn:E; [|done]. apply lookupHandler_elem in E.
  rewrite Hoff. cbn [andb]. apply one_step_bind; [|by eexists]. apply one_step_zoom.
  by apply (proj1 (Forall_forall _ _) (storeHandlers_one_step (env r)) _ E).
Qed.

Lemma pick_map {A B} (f : A -> B) l o : pick (List.map f l) o = List.map f (pick l o).
Proof using Type.
  clear Hoff. unfold pick. induction o as [|j o IH]; [done|]. cbn.
  change (List.map f l) with (f <$> l). rewrite list_lookup_fmap.
  destruct (l !! j); cbn; [f_equal|]; exact IH.
Qed.

(** C12: atomic commands are linearizable with persistence off. Any number of clients
    execute atomic commands (all but those of [composite] and SET with an absolute
    deadline) on a server without a log, and their steps interleave in any way until
    all have replied. Then there is an order of the commands in which executing them
    one after the other, alone, gives exactly these replies and leaves exactly this
    state. *)
Theorem atomic_linearizable cmds (w : World L) replies w' :
  forallb atomic cmds = true ->
  psteps (List.map (Dispatch r) cmds, w) (List.map Done replies, w') ->
  exists order clock i, order ≡ₚ seq 0 (length cmds) /\
    run (sequentially (List.map (Dispatch r) (pick cmds order))) clock 0 w =
      Ret (pick replies order, i, w').
Proof using Hoff.
  intros Ha Hs. destruct (linearize (List.map (Dispatch r) cmds) w replies w')
    as (order & clock & i & Hp & Hrun); [exact Hs| |].
  - apply Forall_map, Forall_forall. intros args Hin. apply Dispatch_one_step.
    rewrite forallb_forall in Ha. apply Ha. by apply list_elem_of_In.
  - exists order, clock, i. rewrite length_map in Hp. rewrite pick_map in Hrun. done.
Qed.

End World.

(** Two clients push to the same list; the second one is faster. *)
Definition volatileRouter : Router := mkRouter false true sampleEnv.

Lemma atomic_linearizable_witness :
  exists (w' : World AOF) order clock i,
    psteps (List.map (Dispatch volatileRouter) [["RPUSH"; "l"; "a"]; ["RPUSH"; "l"; "b"]],
            mkWorld NewMemoryStore samplePubSub (Open "" SyncNo))
      (List.map Done [Integer 2; Integer 1], w') /\
    order ≡ₚ [0; 1]%nat /\
    run (sequentially (List.map (Dispatch volatileRouter)
           (pick [["RPUSH"; "l"; "a"]; ["RPUSH"; "l"; "b"]] order))) clock 0
      (mkWorld NewMemoryStore samplePubSub (Open "" SyncNo)) =
      Ret (pick [Integer 2; Integer 1] order, i, w').
Proof.
  assert (exists w' : World AOF,
    psteps (List.map (Dispatch volatileRouter) [["RPUSH"; "l"; "a"]; ["RPUSH"; "l"; "b"]],
            mkWorld NewMemoryStore samplePubSub (Open "" SyncNo))
      (List.map Done [Integer 2; Integer 1], w')) as [w' Hs].
  { eexists. eapply (psteps_step _ 0); [apply (pstep_op [_] []); reflexivity|].
    eapply (psteps_step _ 0); [apply (pstep_op [] [_]); reflexivity|]. apply psteps_refl. }
  destruct (atomic_linearizable volatileRouter eq_refl [["RPUSH"; "l"; "a"]; ["RPUSH"; "l"; "b"]]
    _ _ _ eq_refl Hs) as (order & clock & i & Hp & Hr).
  exists w', order, clock, i. split; [exact Hs|]. split; [exact Hp|exact Hr].
Defined.

(** SETNX is none of them: it looks and then sets, and two clients can both be told that
    they have set the key. *)
Lemma SETNX_both_win :
  exists s, psteps ([handleSetNX ["SETNX"; "lock"; "a"]; handleSetNX ["SETNX"; "lock"; "b"]],
                    NewMemoryStore)
              ([Done (Integer 1); Done (Integer 1)], s) /\ Get 0 "lock" s = Some "b".
Proof.
  eexists. split.
  - eapply (psteps_step _ 0); [apply (pstep_op [] [_]); reflexivity|].
    eapply (psteps_step _ 0); [apply (pstep_op [_] []); reflexivity|].
    eapply (psteps_step _ 0); [apply (pstep_op [] [_]); reflexivity|].
    eapply (psteps_step _ 0); [apply (pstep_op [_] []); reflexivity|]. apply psteps_refl.
  - reflexivity.
Qed.
