(* ===== verification/Timed.v ===== *)
(** * Recovery of deadlines

    The commands that set deadlines are logged with absolute times, in milliseconds.  Here
    a log is written and replayed between the times [from] and [until], none of its
    deadlines, counted from the time of the command, passes before [until], and at most [step] goes by between two readings of
    the clock.  Replay then rebuilds the data with deadlines that differ from the
    original ones by the rounding to a millisecond and a few steps. *)

From S2P Require Import Prelude GoLib Floats Protocol Glob Store Lists Sets Hashes ZSets Scan Cmd.
From S2P Require Import StringCmds DataCmds ZSetCmds ServerCmds PubSub Router Persistence Agree.
From S2P Require Import Records Recovery.
Open Scope cmd_scope.

(** ** The window *)

(** A clock that runs from [from] to [until] in steps of at most [step]. *)
Definition clockWithin (from until step : Z) (clock : nat -> Time) : Prop :=
  forall i, from <= clock i <= until /\ clock i <= clock (S i) <= clock i + step.

(** How far a restored deadline may be from the original. *)
Definition slack (step : Z) : Z := 3 * step + Millisecond.

(** A time to live, in nanoseconds, that counts from the time [now] and ends after the
    window, by more than the rounding to milliseconds. *)
Definition longTTL (from until now ttl : Z) : bool :=
  (until + Millisecond <? now + ttl) && (ttl + (until - from) <=? maxInt64).

(** A time after the window. *)
Definition afterWindow (from until t : Z) : bool := (until <? t) && (t - from <=? maxInt64).

(** The commands whose deadline is after the window when they begin at [now]. *)
Definition longLived (from until now : Z) (args : list string) : bool :=
  let name := ToUpper (arg args 0) in
  match ParseInt (arg args 2) with
  | None => true
  | Some n =>
      if oneOf name ["SETEX"; "EXPIRE"] then longTTL from until now (n * Second)
      else if oneOf name ["PSETEX"; "PEXPIRE"] then longTTL from until now (n * Millisecond)
      else if String.eqb name "EXPIREAT" then afterWindow from until (n * Second)
      else afterWindow from until (n * Millisecond)
  end.

Record window_ok (from until step : Z) : Prop := mkWindowOk {
  wo_from : 0 <= from;
  wo_until : from <= until;
  wo_step : 0 <= step;
  wo_max : until <= maxInt64
}.

#[refine] Definition within (from until step : Z) (Hok : window_ok from until step) : Window := {|
  reading := fun t => from <= t <= until;
  steady := clockWithin from until step;
  lasting := fun d => until < d;
  near := fun d d' => Z.abs (d' - d) <= slack step;
  admits := longLived from until
|}.
Proof.
  all: destruct Hok.
  - intros clock i Hc. apply Hc.
  - exists (fun _ => from). intros i. lia.
  - intros t d Ht Hd. unfold expired, After. replace (d <? t) with false by lia. apply andb_false_r.
  - intros d Hd. unfold IsZero, zeroTime, unixToInternal, Second. lia.
  - intros d. unfold slack, Millisecond. lia.
Defined.

(** ** Records of deadlines *)

Section Within.

Context (from until step : Z) (Hok : window_ok from until step).
Context {L : Type} `{Appender L} (rnd : list string -> list string).

#[local] Instance window : Window := within from until step Hok.

(** Deadlines set on both stores. *)
Lemma Expire_near t t' key ttl ttl' s s' :
  reading t -> reading t' -> agree s s' -> near_deadlines (TimeAdd t ttl) (TimeAdd t' ttl') ->
  fst (Expire t' key ttl' s') = fst (Expire t key ttl s) /\
  agree (snd (Expire t key ttl s)) (snd (Expire t' key ttl' s')).
Proof using Type.
  intros Ht Ht' HR Hd. unfold Expire.
  destruct (agree_liveString _ _ HR t t' Ht Ht' key) as [-> ->].
  rewrite (agree_typeOf _ _ HR t t' Ht Ht').
  destruct (agree_lookup _ _ HR key) as [[-> ->]|(e & e' & -> & -> & Hv & _)].
  - destruct (is_aggregate _); (split; [done|]); [|done].
    apply agree_set_expiry; [done|]. by apply map_Forall2_insert_2, HR.
  - split; [done|]. apply agree_set_strings; [done|]. apply map_Forall2_insert_2; [|apply HR].
    split; [done|]. by right.
Qed.

Lemma Expire_false t key ttl s : fst (Expire t key ttl s) = false -> snd (Expire t key ttl s) = s.
Proof using Type. unfold Expire. by repeat case_match. Qed.

(** Replaying a PEXPIREAT record whose time [D] is after the window and near the deadline
    that was set. *)
Lemma applies_PEXPIREAT w key n ms t ttl s s' :
  ToUpper w = "PEXPIREAT" -> ParseInt n = Some ms ->
  afterWindow from until (TimeUnixMilli ms) = true ->
  from <= t <= until -> until < t + ttl ->
  Z.abs (TimeUnixMilli ms - (t + ttl)) <= 2 * step + Millisecond ->
  agree s s' -> applies rnd [w; key; n] s' (snd (Expire t key ttl s)).
Proof using Type.
  intros Hw Hn Hafter Ht Hd Hnear HR clock j Hc. unfold afterWindow in Hafter. zbool.
  pose proof (Hc j) as [Hj Hj1]. pose proof (Hc (S j)) as [HSj _].
  set (D := TimeUnixMilli ms) in *.
  assert (Until (clock j) D = D - clock j) as Hrem.
  { unfold Until. unfold minInt64, maxInt64 in *. destruct Hok. lia. }
  assert (near_deadlines (TimeAdd t ttl) (TimeAdd (clock (S j)) (D - clock j))) as Hnd.
  { unfold TimeAdd. split; cbn; [lia|lia|]. unfold slack. lia. }
  destruct (Expire_near t (clock (S j)) key ttl (D - clock j) s s' Ht HSj HR Hnd) as [_ HR1].
  exists (S (S j)). eexists. split; [|exact HR1].
  cbn [applyCommand]. rewrite Hw. cbn [String.eqb Ascii.eqb Bool.eqb].
  unfold applyPExpireAt. rewrite decide_False by (cbn; lia). cbn [arg nth]. rewrite Hn.
  unfold clockNow. rewrite run_bind, run_query. fold D. rewrite Hrem.
  replace (D - clock j <=? 0) with false by lia. unfold drop_result. by rewrite run_bind, run_call.
Qed.

(** The record of a relative deadline, made at the reading [now] of the clock. *)
Definition absRecord (key : string) (now v unit_ : Z) : list string :=
  ["PEXPIREAT"; key; FormatInt (UnixMilli now + v * unit_)].

Lemma logs_deadline key n v unit_ clock i :
  ParseInt n = Some v -> int64_ok (v * unit_) -> int64_ok (UnixMilli (clock i) + v * unit_) ->
  logs (appendDeadline (L := L) key n unit_) clock i [absRecord key (clock i) v unit_].
Proof using Type.
  intros Hn H1 H2 w. unfold appendDeadline. rewrite Hn. unfold clockNow, aofAppend.
  rewrite run_bind, run_query, run_update, (wrap64_id (v * unit_)), wrap64_id by done.
  do 2 eexists. split; [done|]. cbn. intros old. apply Append_holds.
Qed.

(** What a long time to live means for the numbers of its record. *)
Lemma longTTL_record now t v u :
  longTTL from until t (v * (u * Millisecond)) = true -> 1 <= u <= 1000 ->
  from <= t <= until -> t <= now <= t + 2 * step -> now <= until ->
  let ms := UnixMilli now + v * u in
  int64_ok (v * u) /\ int64_ok ms /\ durationOf v (u * Millisecond) = v * (u * Millisecond) /\
  afterWindow from until (TimeUnixMilli ms) = true /\ until < t + v * (u * Millisecond) /\
  Z.abs (TimeUnixMilli ms - (t + v * (u * Millisecond))) <= 2 * step + Millisecond.
Proof using Hok.
  intros Hl Hu Ht Hnow Hmax. cbv zeta. destruct Hok as [H1 H2 H3 H4].
  unfold longTTL, afterWindow, TimeUnixMilli, UnixMilli, durationOf, int64_ok in *.
  unfold Millisecond, minInt64, maxInt64 in *. zbool.
  assert (0 < v * u) as Hpos by lia.
  replace (v * (u * 1000000)) with (v * u * 1000000) in * by lia. set (k := v * u) in *.
  pose proof (Z.div_mod now 1000000). pose proof (Z.mod_pos_bound now 1000000).
  split_and!; try lia. rewrite wrap64_id; [done|]. unfold int64_ok, minInt64, maxInt64. lia.
Qed.

(** EXPIRE and PEXPIRE. *)
Lemma expire_sound name u a0 rest clock i s resp i' s1 v :
  (forall resp, appendToAOF (L := L) name (a0 :: rest) resp =
     if (rInteger resp =? 1) && bool_decide (length (a0 :: rest) = 3%nat)
     then appendDeadline (arg (a0 :: rest) 1) (arg (a0 :: rest) 2) u else Done tt) ->
  length (a0 :: rest) = 3%nat -> 1 <= u <= 1000 ->
  ParseInt (arg (a0 :: rest) 2) = Some v -> longTTL from until (clock i) (v * (u * Millisecond)) = true ->
  clockWithin from until step clock -> settled s ->
  run (let* ok := call (fun now => Expire now (arg (a0 :: rest) 1) (durationOf v (u * Millisecond))) in
       Done (boolReply ok)) clock i s = Ret (resp, i', s1) ->
  outcome_sound rnd name (a0 :: rest) clock s resp i' s1.
Proof using Type.
  intros Hl Hlen Hu Hv Hlong Hc HR. rewrite run_bind, run_call. cbn [run]. intros [= <- <- <-].
  pose proof (Hc i) as [Hi Hi1]. pose proof (Hc (S i)) as [HSi _].
  destruct (longTTL_record (clock (S i)) (clock i) v u Hlong Hu Hi) as (H1 & H2 & -> & H4 & H5 & H6);
    [destruct Hok; lia|lia|].
  set (key := arg (a0 :: rest) 1) in *. set (ttl := v * (u * Millisecond)) in *.
  destruct (fst (Expire (clock i) key ttl s)) eqn:Eok.
  - cbn [boolReply]. unfold outcome_sound. change (is_error (Integer 1)) with false. cbv iota.
    exists [absRecord key (clock (S i)) v u]. split; [cbn; lia|]. split.
    + rewrite Hl, bool_decide_true by done. cbn [rInteger Integer andb Z.eqb Pos.eqb].
      by apply logs_deadline.
    + intros s' HR'. apply restores_one. eapply applies_PEXPIREAT; try done.
      by rewrite ParseInt_FormatInt.
  - rewrite (Expire_false _ _ _ _ Eok). apply sound_silent; [by rewrite Hl|done].
Qed.

(** The arguments of a command with a deadline, in an admitted command. *)
Lemma admitted_long now a0 rest name :
  recoverableAt now (a0 :: rest) = true -> ToUpper a0 = name -> oneOf name timed = true ->
  longLived from until now (a0 :: rest) = true.
Proof using Type.
  intros Hr Hn Ht. unfold recoverableAt in Hr. cbn [arg nth] in Hr. rewrite Hn, Ht in Hr.
  rewrite !andb_true_iff in Hr. by destruct Hr as [[[[[Hr _] _] _] _] _].
Qed.

(** An admitted run of a handler; [Hlong] is what its time argument satisfies. *)
Ltac start_timed :=
  start_run;
  match goal with
  | Hrec : recoverableAt _ _ = true, Hn : ToUpper _ = _ |- _ =>
      pose proof (admitted_long _ _ _ _ Hrec Hn eq_refl) as Hlong;
      unfold longLived in Hlong; cbn [arg nth] in Hlong; rewrite Hn in Hlong
  end.

Lemma handleExpire_sound : handler_sound rnd "EXPIRE" handleExpire.
Proof using Type.
  start_timed.
  unfold handleExpire. case_decide as Hlen; [bad_args|]. unfold parseNonNegative.
  destruct (ParseInt _) as [v|] eqn:Ev; [|bad_args].
  destruct (v <? 0); [bad_args|].
  apply (expire_sound "EXPIRE" 1000); done.
Qed.

Lemma handlePExpire_sound : handler_sound rnd "PEXPIRE" handlePExpire.
Proof using Type.
  start_timed.
  unfold handlePExpire. case_decide as Hlen; [bad_args|]. unfold parseNonNegative.
  destruct (ParseInt _) as [v|] eqn:Ev; [|bad_args].
  destruct (v <? 0); [bad_args|].
  apply (expire_sound "PEXPIRE" 1); done.
Qed.

(** EXPIREAT and PEXPIREAT. *)
Lemma expireAt_sound name w key n args clock i s resp i' s1 ms :
  (forall resp, appendToAOF (L := L) name args resp =
     if rInteger resp =? 1 then aofAppend [w; key; n] else Done tt) ->
  ToUpper w = "PEXPIREAT" -> ParseInt n = Some ms ->
  afterWindow from until (TimeUnixMilli ms) = true ->
  clockWithin from until step clock -> settled s ->
  run (expireAt key (TimeUnixMilli ms)) clock i s = Ret (resp, i', s1) ->
  outcome_sound rnd name args clock s resp i' s1.
Proof using Type.
  intros Hl Hw Hn Ha Hc HR. pose proof Ha as Ha'. unfold afterWindow in Ha'. zbool.
  set (D := TimeUnixMilli ms) in *. pose proof (Hc i) as [Hi Hi1]. pose proof (Hc (S i)) as [HSi _].
  assert (Until (clock i) D = D - clock i) as Hrem.
  { unfold Until. unfold minInt64, maxInt64 in *. destruct Hok. lia. }
  unfold expireAt, clockNow. rewrite run_bind, run_query, Hrem.
  replace (D - clock i <=? 0) with false by lia. rewrite run_bind, run_call. cbn [run].
  intros [= <- <- <-].
  destruct (fst (Expire _ _ _ s)) eqn:Eok.
  - cbn [boolReply]. apply (sound_logged rnd _ _ _ _ _ _ _ [w; key; n]);
      [by rewrite Hl|done|]. intros s' HR'.
    eapply applies_PEXPIREAT; try done; [lia|]. fold D. unfold Millisecond. destruct Hok. lia.
  - rewrite (Expire_false _ _ _ _ Eok). apply sound_silent; [by rewrite Hl|done].
Qed.

Lemma handlePExpireAt_sound : handler_sound rnd "PEXPIREAT" handlePExpireAt.
Proof using Type.
  start_timed.
  unfold handlePExpireAt. case_decide as Hlen; [bad_args|].
  destruct rest as [|key [|n []]]; cbn in Hlen; try lia. cbn [arg nth] in *.
  destruct (ParseInt n) as [ms|] eqn:En; [|bad_args].
  apply (expireAt_sound "PEXPIREAT" a0 key n); try done.
  intros resp1. unfold appendToAOF. cbv beta zeta. cbn. by rewrite andb_true_r.
Qed.

Lemma handleExpireAt_sound : handler_sound rnd "EXPIREAT" handleExpireAt.
Proof using Type.
  start_timed.
  unfold handleExpireAt. case_decide as Hlen; [bad_args|].
  destruct rest as [|key [|n []]]; cbn in Hlen; try lia. cbn [arg nth] in *.
  destruct (ParseInt n) as [secs|] eqn:En; [|bad_args]. cbn in Hlong.
  assert (TimeUnixMilli (secs * 1000) = secs * Second) as Hms.
  { unfold TimeUnixMilli, Millisecond, Second. lia. }
  assert (int64_ok (secs * 1000) /\ Unix secs = TimeUnixMilli (secs * 1000)) as [Hi HU].
  { unfold afterWindow in Hlong. zbool. destruct Hok.
    unfold Unix, int64_ok, unixToInternal, TimeUnixMilli, Second, Millisecond, minInt64, maxInt64 in *.
    rewrite wrap64_id; [lia|]. unfold int64_ok, minInt64, maxInt64. lia. }
  rewrite HU. apply (expireAt_sound "EXPIREAT" "PEXPIREAT" key (FormatInt (secs * 1000))); try done.
  - intros resp1. unfold appendToAOF. cbv beta zeta. cbn. by rewrite andb_true_r, En, wrap64_id.
  - by apply ParseInt_FormatInt.
  - by rewrite Hms.
Qed.

(** SETEX and PSETEX leave what SET and EXPIRE would leave. *)
Lemma SetWithTTL_Expire t key v ttl s :
  same_data (snd (Expire t key ttl (Set_ key v s))) (SetWithTTL t key v ttl s).
Proof using Type.
  unfold Expire, liveString, Set_. cbn. rewrite lookup_insert_eq. cbn [expiresAt].
  change (expired t zeroTime) with false. split; cbn; try done. by rewrite insert_insert_eq.
Qed.

Lemma logs_app (c1 c2 : cmd (World L) unit) clock i i1 recs1 recs2 :
  (forall w, exists l', run c1 clock i w = Ret (tt, i1, mkWorld (wStore w) (wPubSub w) l') /\
     forall old, holds (wLog w) old -> holds l' (old ++ recs1)) ->
  logs c2 clock i1 recs2 -> logs (cbind c1 (fun _ => c2)) clock i (recs1 ++ recs2).
Proof using Type.
  intros H1 H2 w. destruct (H1 w) as (l1 & E1 & Hl1). rewrite run_bind, E1.
  destruct (H2 (mkWorld (wStore w) (wPubSub w) l1)) as (i2 & l2 & E2 & Hl2).
  exists i2, l2. split; [exact E2|]. intros old Ho. rewrite app_assoc. by apply Hl2, Hl1.
Qed.

Lemma setex_sound name u a0 key n val clock i s resp i' s1 v :
  appendToAOF (L := L) name [a0; key; n; val] (SimpleString "OK") =
    (let* _ := aofAppend ["SET"; key; val] in appendDeadline key n u) ->
  oneOf name twoRecords = true -> 1 <= u <= 1000 ->
  ParseInt n = Some v -> longTTL from until (clock i) (v * (u * Millisecond)) = true ->
  clockWithin from until step clock ->
  run (let* _ := update (fun now => SetWithTTL now key val (durationOf v (u * Millisecond))) in
       Done (SimpleString "OK")) clock i s = Ret (resp, i', s1) ->
  outcome_sound rnd name [a0; key; n; val] clock s resp i' s1.
Proof using Type.
  intros Hl Htwo Hu Hv Hlong Hc. rewrite run_bind, run_update. cbn [run]. intros [= <- <- <-].
  pose proof (Hc i) as [Hi Hi1]. pose proof (Hc (S i)) as [HSi HSi1].
  pose proof (Hc (S (S i))) as [HSSi _].
  destruct (longTTL_record (clock (S (S i))) (clock i) v u Hlong Hu Hi)
    as (H1 & H2 & -> & H4 & H5 & H6); [destruct Hok; lia|lia|].
  set (ttl := v * (u * Millisecond)) in *. unfold outcome_sound.
  change (is_error (SimpleString "OK")) with false. cbv iota.
  exists [["SET"; key; val]; absRecord key (clock (S (S i))) v u].
  split; [by rewrite Htwo|]. split.
  - rewrite Hl. apply (logs_app _ _ clock (S i) (S (S i)) [_] [_]); [|by apply logs_deadline].
    intros w. unfold aofAppend. rewrite run_update. eexists. split; [done|]. intros old. apply Append_holds.
  - intros s' HR. apply (restores_app rnd [_] [_] s' (Set_ key val s)).
    + by apply restores_one, applies_SET.
    + intros m' HR'. apply restores_one. intros clock' j Hc'.
      destruct (applies_PEXPIREAT "PEXPIREAT" key
        (FormatInt (UnixMilli (clock (S (S i))) + v * u)) (UnixMilli (clock (S (S i))) + v * u)
        (clock i) ttl (Set_ key val s) m') with clock' j as (j' & s2 & E & HR2);
        try done; [by apply ParseInt_FormatInt|].
      exists j', s2. split; [exact E|]. eapply agree_same_l; [apply SetWithTTL_Expire|done].
Qed.

Lemma handleSetEX_sound : handler_sound rnd "SETEX" handleSetEX.
Proof using Type.
  start_timed. unfold handleSetEX. case_decide as Hlen; [bad_args|].
  destruct rest as [|key [|n [|val []]]]; cbn in Hlen; try lia. cbn [arg nth] in *.
  unfold parsePositive. destruct (ParseInt n) as [v|] eqn:En; [|bad_args].
  destruct (v <=? 0); [bad_args|]. by apply (setex_sound "SETEX" 1000).
Qed.

Lemma handlePSetEX_sound : handler_sound rnd "PSETEX" handlePSetEX.
Proof using Type.
  start_timed. unfold handlePSetEX. case_decide as Hlen; [bad_args|].
  destruct rest as [|key [|n [|val []]]]; cbn in Hlen; try lia. cbn [arg nth] in *.
  unfold parsePositive. destruct (ParseInt n) as [v|] eqn:En; [|bad_args].
  destruct (v <=? 0); [bad_args|]. by apply (setex_sound "PSETEX" 1).
Qed.

Lemma within_timed : timed_sound (L := L) rnd.
Proof using Type.
  unfold timed_sound, timedHandlers. repeat apply Forall_cons_2; try apply Forall_nil_2; cbn [fst snd].
  - apply handleSetEX_sound.
  - apply handlePSetEX_sound.
  - apply handleExpire_sound.
  - apply handlePExpire_sound.
  - apply handleExpireAt_sound.
  - apply handlePExpireAt_sound.
Qed.

(** Near deadlines are near times to live. *)
Lemma agree_TTL t key s s' :
  from <= t <= until -> agree s s' -> Z.abs (TTL t key s' - TTL t key s) <= slack step.
Proof using Type.
  intros Ht HR. assert (0 <= slack step) as H0 by (destruct Hok; unfold slack, Millisecond; lia).
  assert (forall d d', near_deadlines d d' ->
    Z.abs (Until t d' - Until t d) <= slack step) as Hnear.
  { intros d d' [_ _ Hn]. cbn in Hn. unfold Until, minInt64, maxInt64. lia. }
  unfold TTL. rewrite (agree_typeOf _ _ HR t t Ht Ht).
  destruct (agree_lookup _ _ HR key) as [[-> ->]|(e & e' & -> & -> & He)].
  - case_decide; [lia|]. pose proof (ag_expiry _ _ HR key) as Hk. inversion Hk as [d d' Hd|]; [|lia].
    rewrite !lasting_live by (done || apply Hd). by apply Hnear.
  - destruct (near_live (W := window) t t Ht Ht e e' He) as [-> ->].
    destruct He as [_ [[-> ->]|Hd]]; [cbn; lia|]. rewrite !lasting_set by apply Hd. by apply Hnear.
Qed.

End Within.

(** ** Recovery *)

Section Theorems.

Context (rnd : list string -> list string) (r : Router).

(** C5: recovery of deadlines.  Commands are dispatched one after the other on a fresh
    server with persistence on, and the file is replayed later, all of it between the times
    [from] and [until].  The commands are recoverable, and those that set a deadline (SETEX,
    PSETEX, EXPIRE, PEXPIRE, EXPIREAT, PEXPIREAT) set one that has not passed at [until],
    counted from the reading of the clock with which the command began.  Replay succeeds and
    rebuilds the data of the server; the same keys have deadlines, and during the rest of
    the window TTL differs from that of the server by less than the rounding to a
    millisecond and what the clock advanced between the readings that belong to one
    command. *)
Theorem timed_recovery from until step (Hok : window_ok from until step)
    cmds clock ps p resps i' w' clock' j s0 :
  hasAof r = true ->
  recoverableRun (W := within from until step Hok) r cmds clock 0
    (mkWorld NewMemoryStore ps (Open "" p)) = true ->
  clockWithin from until step clock ->
  run (dispatchAll r cmds) clock 0 (mkWorld NewMemoryStore ps (Open "" p)) =
    Ret (resps, i', w') ->
  len (file (wLog w')) * sizeofResponse <= maxAlloc ->
  clockWithin from until step clock' ->
  exists n j' s',
    run (Replay rnd (Readable (file (wLog w')))) clock' j s0 = Ret ((n, None), j', s') /\
    agree (W := within from until step Hok) (wStore w') s' /\
    forall t key, from <= t <= until ->
      Z.abs (TTL t key s' - TTL t key (wStore w')) <= slack step.
Proof using Type.
  intros Ha Hrec Hc Hrun Hlen Hc'.
  apply (dispatchAll_sound (W := within from until step Hok) rnd) in Hrun as (recs & Hl & Hr);
    [|apply within_timed|done|done|done|apply settled_new].
  specialize (Hl [] eq_refl). specialize (Hr NewMemoryStore settled_new).
  destruct (run_Replay_restores rnd recs _ _ clock' j s0 Hl Hr Hlen Hc')
    as (n & j' & s' & E & HR).
  exists n, j', s'. split; [done|]. split; [done|]. intros t key Ht. by eapply agree_TTL.
Qed.

(** The same for a torn file, for commands of one record: not SETEX and PSETEX. *)
Theorem timed_torn_recovery from until step (Hok : window_ok from until step)
    cmds clock ps p resps i' w' m clock' j s0 :
  hasAof r = true ->
  recoverableRun (W := within from until step Hok) r cmds clock 0
    (mkWorld NewMemoryStore ps (Open "" p)) = true ->
  forallb oneRecord cmds = true -> clockWithin from until step clock ->
  run (dispatchAll r cmds) clock 0 (mkWorld NewMemoryStore ps (Open "" p)) =
    Ret (resps, i', w') ->
  len (file (wLog w')) * sizeofResponse <= maxAlloc ->
  clockWithin from until step clock' ->
  exists k resps1 i1 w1 n e j' s',
    run (dispatchAll r (take k cmds)) clock 0 (mkWorld NewMemoryStore ps (Open "" p)) =
      Ret (resps1, i1, w1) /\
    run (Replay rnd (Readable (stake m (file (wLog w'))))) clock' j s0 =
      Ret ((n, endOf e), j', s') /\
    eof_err e = true /\ agree (W := within from until step Hok) (wStore w1) s'.
Proof using Type.
  intros Ha Hrec Hone Hc Hrun Hlen Hc'.
  destruct (torn_file (W := within from until step Hok) rnd r (within_timed from until step Hok rnd)
              Ha cmds clock 0 (mkWorld NewMemoryStore ps (Open "" p)) resps i' w' [] m clock' j s0)
    as (k & resps1 & i1 & w1 & n & e & j' & s' & H1 & _ & _ & H4 & H5 & H6); try done;
    [apply settled_new|apply restores_none, settled_new| |].
  - change (0 <= Z.of_nat m). lia.
  - by exists k, resps1, i1, w1, n, e, j', s'.
Qed.

End Theorems.

(** A span of sixteen seconds, longer than the first of the deadlines that are set in it counted
    from the start of the span; one of them is removed. *)
Definition sampleWindow : window_ok (1000 * Second) (1016 * Second) Second.
Proof. by split. Defined.

Definition timedCommands : list (list string) :=
  [["SET"; "b"; "2"]; ["RPUSH"; "l"; "x"]; ["SETEX"; "a"; "15"; "1"]; ["EXPIRE"; "l"; "3600"];
   ["PEXPIREAT"; "b"; "1200000"]; ["PERSIST"; "b"]].

(** A second between two readings. *)
Definition sampleClock (i : nat) : Time := Z.min 1016 (1000 + Z.of_nat i) * Second.

Definition timedRun : list Response * nat * World AOF :=
  match run (dispatchAll sampleRouter timedCommands) sampleClock 0
          (mkWorld NewMemoryStore samplePubSub (Open "" SyncAlways)) with
  | Ret x => x
  | _ => ([], O, mkWorld NewMemoryStore samplePubSub (Open "" SyncAlways))
  end.

Lemma sampleClock_within : clockWithin (1000 * Second) (1016 * Second) Second sampleClock.
Proof. intros i. unfold sampleClock, Second. lia. Qed.

Lemma timed_recovery_witness :
  exists n j' s',
    run (Replay id (Readable (file (wLog (snd timedRun))))) (fun _ => 1016 * Second) 0 NewMemoryStore =
      Ret ((n, None), j', s') /\
    agree (W := within _ _ _ sampleWindow) (wStore (snd timedRun)) s' /\
    forall t key, 1000 * Second <= t <= 1016 * Second ->
      Z.abs (TTL t key s' - TTL t key (wStore (snd timedRun))) <= slack Second.
Proof.
  apply (timed_recovery id sampleRouter _ _ _ sampleWindow timedCommands sampleClock samplePubSub
           SyncAlways (fst (fst timedRun)) (snd (fst timedRun)));
    [reflexivity|by vm_compute|apply sampleClock_within|by vm_compute|by vm_compute|].
  intros i. unfold Second. lia.
Defined.

(** SETEX leaves two records.  A crash between them leaves the value without its deadline:
    after the restart the key never expires. *)
Lemma SETEX_torn :
  let w := snd (sampleRun [["SETEX"; "session"; "60"; "x"]]) in
  let m := String.length (encodeRecord ["SET"; "session"; "x"]) in
  exists i s', run (Replay id (Readable (stake m (file (wLog w))))) (fun _ => 0) 0 NewMemoryStore =
      Ret ((1, None), i, s') /\
    TTL 0 "session" (wStore w) = 60 * Second /\ TTL 0 "session" s' = -1 * Second.
Proof. cbv zeta. do 2 eexists. split; [vm_compute; reflexivity|]. by vm_compute. Qed.
