(* ===== verification/PersistenceFacts.v ===== *)
(** * Deadlines in the log, and the commands the log does not restore *)

From S2P Require Import Prelude GoLib Floats Protocol Glob Store Lists Sets Hashes ZSets Scan Cmd.
From S2P Require Import StringCmds DataCmds ZSetCmds ServerCmds PubSub Router Persistence Agree.
From S2P Require Import Records Recovery.
Open Scope cmd_scope.

(** ** Deadlines *)

(** Setting a deadline on a live string. *)
Lemma Expire_string t key ttl s e :
  liveString t key s = Some e ->
  Expire t key ttl s =
    (true, set_strings (<[key := mkStrEntry (value e) (TimeAdd t ttl)]> (strings s)) s).
Proof. intros He. unfold Expire. by rewrite He. Qed.

(** The instant of the record, between the rounding of the clock to milliseconds. *)
Lemma UnixMilli_bounds t secs :
  0 <= secs -> t + secs * Second - Millisecond < TimeUnixMilli (UnixMilli t + secs * 1000) /\
  TimeUnixMilli (UnixMilli t + secs * 1000) <= t + secs * Second.
Proof.
  unfold TimeUnixMilli, UnixMilli, Millisecond, Second. intros Hs.
  pose proof (Z.div_mod t 1000000). pose proof (Z.mod_pos_bound t 1000000). lia.
Qed.

Section Deadlines.

Context {L : Type} `{Appender L} (rnd : list string -> list string) (r : Router).

(** The deadline [d'] is [d] moved by the time that passed, up to the rounding of the
    record to milliseconds. *)
Definition deadline_near (d d' passed : Z) : Prop := - Millisecond < d' - d - passed <= 0.

Lemma run_EXPIRE key n secs clock i (w : World L) e :
  hasAof r = true -> ParseInt n = Some secs -> 0 <= secs ->
  liveString (clock i) key (wStore w) = Some e ->
  run (Dispatch r ["EXPIRE"; key; n]) clock i w =
    Ret (Integer 1, S (S (S i)),
         mkWorld (set_strings (<[key := mkStrEntry (value e) (TimeAdd (clock i) (durationOf secs Second))]>
                                 (strings (wStore w))) (wStore w))
           (wPubSub w)
           (Append ["PEXPIREAT"; key;
                    FormatInt (wrap64 (UnixMilli (clock (S i)) + wrap64 (secs * 1000)))] (wLog w))).
Proof using Type.
  intros Ha Hn Hs He. cbn [Dispatch]. change (ToUpper "EXPIRE") with "EXPIRE". unfold register.
  change (String.eqb "EXPIRE" "PUBLISH") with false. cbv iota.
  change (lookupHandler "EXPIRE" _) with (Some handleExpire). cbv iota beta.
  rewrite run_bind, run_onStore. unfold handleExpire.
  rewrite decide_False by (cbn; lia). cbn [arg nth].
  unfold parseNonNegative. rewrite Hn. replace (secs <? 0) with false by lia.
  rewrite run_bind, run_call, (Expire_string _ _ _ _ e) by done. cbn [fst snd boolReply run].
  rewrite run_bind, Ha. change (negb (RType_eqb (rType (Integer 1)) TypeError)) with true.
  cbn [andb]. change (appendToAOF "EXPIRE" ["EXPIRE"; key; n] (Integer 1)) with
    (appendDeadline (L := L) key n 1000).
  unfold appendDeadline. rewrite Hn. unfold clockNow. rewrite run_bind, run_query.
  unfold aofAppend. by rewrite run_update.
Qed.

Lemma run_PEXPIREAT key ms clock j s e :
  int64_ok ms -> liveString (clock (S j)) key s = Some e ->
  clock j < TimeUnixMilli ms -> TimeUnixMilli ms - clock j <= maxInt64 ->
  run (applyCommand rnd ["PEXPIREAT"; key; FormatInt ms]) clock j s =
    Ret (None, S (S j),
         set_strings (<[key := mkStrEntry (value e)
                                 (clock (S j) + (TimeUnixMilli ms - clock j))]> (strings s)) s).
Proof using Type.
  intros Hms He Hlt Hsat.
  assert (Until (clock j) (TimeUnixMilli ms) = TimeUnixMilli ms - clock j) as Hrem.
  { unfold Until. unfold minInt64, maxInt64 in *. lia. }
  change (applyCommand rnd ["PEXPIREAT"; key; FormatInt ms]) with
    (applyPExpireAt ["PEXPIREAT"; key; FormatInt ms]).
  unfold applyPExpireAt. rewrite decide_False by (cbn; lia). cbn [arg nth].
  rewrite ParseInt_FormatInt by done. unfold clockNow. rewrite run_bind, run_query, Hrem.
  replace (TimeUnixMilli ms - clock j <=? 0) with false by lia.
  unfold drop_result. by rewrite run_bind, run_call, (Expire_string _ _ _ _ e).
Qed.

(** EXPIRE survives a restart.  On a live string, EXPIRE sets the deadline and logs
    it as an absolute time; when that record is replayed before the deadline, the
    restored deadline differs from the original one by less than a millisecond, apart
    from the time that passed between the two clock readings of the command and between
    those of the replay. *)
Theorem EXPIRE_deadline_restored key n secs clock i (w : World L) e :
  hasAof r = true -> ParseInt n = Some secs -> 0 <= secs <= 9000000000 ->
  liveString (clock i) key (wStore w) = Some e ->
  0 <= clock i <= clock (S i) -> clock (S i) <= 100000000000 * Second ->
  exists ms w1, run (Dispatch r ["EXPIRE"; key; n]) clock i w = Ret (Integer 1, S (S (S i)), w1) /\
    wLog w1 = Append ["PEXPIREAT"; key; FormatInt ms] (wLog w) /\
    strings (wStore w1) !! key = Some (mkStrEntry (value e) (clock i + secs * Second)) /\
    forall clock' j s' e',
      liveString (clock' (S j)) key s' = Some e' ->
      0 <= clock' j <= clock' (S j) -> clock' j < TimeUnixMilli ms ->
      TimeUnixMilli ms - clock' j <= maxInt64 ->
      exists s1 d', run (applyCommand rnd ["PEXPIREAT"; key; FormatInt ms]) clock' j s' =
          Ret (None, S (S j), s1) /\
        strings s1 !! key = Some (mkStrEntry (value e') d') /\
        deadline_near (clock i + secs * Second) d'
          ((clock (S i) - clock i) + (clock' (S j) - clock' j)).
Proof using Type.
  intros Ha Hn Hs He Ht Hmax.
  set (ms := UnixMilli (clock (S i)) + secs * 1000).
  pose proof (UnixMilli_bounds (clock (S i)) secs ltac:(lia)) as Hb. fold ms in Hb.
  assert (int64_ok ms) as Hms.
  { unfold TimeUnixMilli, Millisecond, Second, int64_ok, minInt64, maxInt64 in *. lia. }
  assert (int64_ok (secs * 1000) /\ int64_ok (secs * Second)) as [Hk Hd].
  { unfold int64_ok, minInt64, maxInt64, Second. lia. }
  exists ms. eexists. split; [apply (run_EXPIRE key n secs clock i w e); first [done|lia]|].
  cbn [wLog wStore]. split; [by rewrite (wrap64_id (secs * 1000)), wrap64_id|]. split.
  - cbn. rewrite lookup_insert_eq. unfold TimeAdd, durationOf. by rewrite wrap64_id.
  - intros clock' j s' e' He' Ht' Hlt Hsat. eexists _, _.
    split; [by apply (run_PEXPIREAT key ms clock' j s' e')|].
    split; [by cbn; rewrite lookup_insert_eq|]. unfold deadline_near. lia.
Qed.

End Deadlines.

Definition sampleWorld (s : MemoryStore) : World AOF :=
  mkWorld s samplePubSub (Open "" SyncAlways).

Lemma EXPIRE_deadline_restored_witness :
  exists ms w1,
    run (Dispatch sampleRouter ["EXPIRE"; "a"; "60"]) (fun i => Z.of_nat i * Second) 0
      (sampleWorld (Set_ "a" "1" NewMemoryStore)) = Ret (Integer 1, 3%nat, w1) /\
    wLog w1 = Append ["PEXPIREAT"; "a"; FormatInt ms]
                (wLog (sampleWorld (Set_ "a" "1" NewMemoryStore))) /\
    strings (wStore w1) !! "a" = Some (mkStrEntry "1" (0 * Second + 60 * Second)) /\
    forall clock' j s' e',
      liveString (clock' (S j)) "a" s' = Some e' ->
      0 <= clock' j <= clock' (S j) -> clock' j < TimeUnixMilli ms ->
      TimeUnixMilli ms - clock' j <= maxInt64 ->
      exists s1 d', run (applyCommand id ["PEXPIREAT"; "a"; FormatInt ms]) clock' j s' =
          Ret (None, S (S j), s1) /\
        strings s1 !! "a" = Some (mkStrEntry (value e') d') /\
        deadline_near (0 * Second + 60 * Second) d'
          ((1 * Second - 0 * Second) + (clock' (S j) - clock' j)).
Proof.
  apply (EXPIRE_deadline_restored id sampleRouter "a" "60" 60 (fun i => Z.of_nat i * Second) 0
           (sampleWorld (Set_ "a" "1" NewMemoryStore)) (mkStrEntry "1" zeroTime));
    by vm_compute.
Defined.

(** ** Commands the log does not restore *)

(** The data a server and its successor have after [cmds]: the store, and how the
    replay of the file ended with which store. *)
Definition restart (cmds : list (list string)) : MemoryStore * option (option replayErr * MemoryStore) :=
  let '(_, _, w) := sampleRun cmds in
  (wStore w,
   match run (Replay id (Readable (file (wLog w)))) (fun _ => 0) 0 NewMemoryStore with
   | Ret ((_, err), _, s) => Some (err, s)
   | _ => None
   end).

(** SET with an option is logged as it is and replay only accepts three arguments: it
    stops there, and everything logged later is lost. *)
Theorem SET_option_stops_replay :
  exists s s', restart [["SET"; "a"; "1"; "EX"; "100"]; ["SET"; "b"; "2"]] =
      (s, Some (Some (CommandError BadArity), s')) /\
    Get 0 "a" s = Some "1" /\ Get 0 "b" s = Some "2" /\
    Get 0 "a" s' = None /\ Get 0 "b" s' = None.
Proof. do 2 eexists. split; [vm_compute; reflexivity|]. by vm_compute. Qed.

(** RENAME of a list is logged as the deletion of its old name only. *)
Theorem RENAME_loses_list :
  exists s s', restart [["RPUSH"; "l"; "x"]; ["RENAME"; "l"; "m"]] = (s, Some (None, s')) /\
    LLen 0 "m" s = Ok 1 /\ LLen 0 "m" s' = Ok 0 /\ LLen 0 "l" s' = Ok 0.
Proof. do 2 eexists. split; [vm_compute; reflexivity|]. by vm_compute. Qed.

(** The weights of ZUNIONSTORE are dropped when its record is replayed. *)
Theorem ZUNIONSTORE_weights_lost :
  exists s s', restart [["ZADD"; "z"; "1"; "m"]; ["ZUNIONSTORE"; "d"; "1"; "z"; "WEIGHTS"; "5"]] =
      (s, Some (None, s')) /\
    ZScore 0 "d" "m" s = Ok (Some (F64.of_Z 5)) /\ ZScore 0 "d" "m" s' = Ok (Some (F64.of_Z 1)).
Proof. do 2 eexists. split; [vm_compute; reflexivity|]. by vm_compute. Qed.

(** SPOP is logged as it was sent, and replay chooses again: with another random order
    the other member is gone. *)
Theorem SPOP_drawn_again :
  let w := snd (sampleRun [["SADD"; "s"; "a"; "b"]; ["SPOP"; "s"]]) in
  exists s' i, run (Replay (@rev string) (Readable (file (wLog w)))) (fun _ => 0) 0 NewMemoryStore =
      Ret ((2, None), i, s') /\
    forall m, m = "a" \/ m = "b" ->
      SIsMember 0 "s" m s' = match SIsMember 0 "s" m (wStore w) with
                             | Ok b => Ok (negb b) | Fail e => Fail e end.
Proof. cbv zeta. do 2 eexists. split; [vm_compute; reflexivity|]. by intros m [-> | ->]; vm_compute. Qed.

(** The deadline GETEX sets is not in the log. *)
Theorem GETEX_deadline_lost :
  exists s s', restart [["SET"; "a"; "1"]; ["GETEX"; "a"; "EX"; "60"]] = (s, Some (None, s')) /\
    expiresAt <$> strings s !! "a" <> Some zeroTime /\
    expiresAt <$> strings s' !! "a" = Some zeroTime.
Proof. do 2 eexists. split; [vm_compute; reflexivity|]. by vm_compute. Qed.

(** "inf" spelled with U+0130, whose lower case is an ASCII i, is a score for ZADD and
    no number for replay. *)
Theorem dotted_inf_stops_replay :
  exists s s', restart [["ZADD"; "z"; String "196"%char (String "176"%char "nf"); "m"]] =
      (s, Some (Some (CommandError BadNumber), s')) /\
    ZScore 0 "z" "m" s = Ok (Some (F64.Inf false)) /\ ZScore 0 "z" "m" s' = Ok None.
Proof. do 2 eexists. split; [vm_compute; reflexivity|]. by vm_compute. Qed.

(** A file that ends in a torn record is opened for appending as it is: the next record
    is swallowed by the torn one, and replay stops with a parse error there. *)
Theorem append_after_torn_record :
  run (Replay id (Readable (stake 21 (encodeRecord ["SET"; "a"; "1"]) +:+
                        encodeRecord ["SET"; "b"; "2"]))) (fun _ => 0) 0 NewMemoryStore =
    Ret ((0, Some (ParseError EInvalidBulkLength)), 1%nat, NewMemoryStore).
Proof. by vm_compute. Qed.

(** ** Replay terminates *)

(** No step of the program runs out of fuel. *)
Fixpoint fuel_free {S A} (c : cmd S A) : Prop :=
  match c with
  | Done _ => True
  | Op _ f k => (forall t s, f t s <> OutOfFuel) /\ forall b, fuel_free (k b)
  | Crash => True
  end.

Lemma fuel_free_bind {S A B} (c : cmd S A) (k : A -> cmd S B) :
  fuel_free c -> (forall a, fuel_free (k a)) -> fuel_free (cbind c k).
Proof.
  intros Hc Hk. induction c as [a|X f k' IH|]; cbn in *; [apply Hk| |done].
  destruct Hc as [Hf Hc]. split; [done|]. intros b. apply IH, Hc.
Qed.

Lemma fuel_free_run {S A} (c : cmd S A) clock i s : fuel_free c -> run c clock i s <> OutOfFuel.
Proof.
  revert i s. induction c as [a|X f k IH|]; intros i s; cbn; [done| |done].
  intros [Hf Hk]. pose proof (Hf (clock i) s). destruct (f (clock i) s) as [[b s']|?| |]; try done.
  by apply IH.
Qed.

Lemma slice_no_fuel {A} (l : list A) lo hi : slice (E := Empty_set) l lo hi <> OutOfFuel.
Proof. unfold slice. by case_match. Qed.

Lemma index_no_fuel {A} (l : list A) i : index (E := Empty_set) l i <> OutOfFuel.
Proof. unfold index. by repeat case_match. Qed.

Lemma copyTail_no_fuel l from n : copyTail l from n <> OutOfFuel.
Proof.
  revert from. induction n as [|n IH]; intros from; cbn; [done|].
  apply obind_no_fuel; [apply index_no_fuel|]. intros x _.
  apply obind_no_fuel; [apply IH|]. done.
Qed.

Lemma takeEnd_no_fuel b l : takeEnd b l <> OutOfFuel.
Proof.
  unfold takeEnd. destruct b; (apply obind_no_fuel; [apply index_no_fuel|]; intros x _;
    apply obind_no_fuel; [apply slice_no_fuel|done]).
Qed.

Create HintDb fuel.
#[export] Hint Resolve slice_no_fuel index_no_fuel copyTail_no_fuel takeEnd_no_fuel : fuel.

Ltac no_fuel :=
  repeat first [ progress intros | progress cbv zeta | progress (auto with fuel) | done
               | apply obind_no_fuel | case_match ].

Lemma LPop_no_fuel t k n s : LPop t k n s <> OutOfFuel.
Proof. unfold LPop. no_fuel. Qed.
Lemma RPop_no_fuel t k n s : RPop t k n s <> OutOfFuel.
Proof. unfold RPop. no_fuel. Qed.
Lemma LInsert_no_fuel t k b p v s : LInsert t k b p v s <> OutOfFuel.
Proof. unfold LInsert. no_fuel. Qed.
Lemma LTrim_no_fuel t k a b s : LTrim t k a b s <> OutOfFuel.
Proof. unfold LTrim. no_fuel. Qed.
Lemma LMove_no_fuel t x y a b s : LMove t x y a b s <> OutOfFuel.
Proof. unfold LMove. no_fuel. Qed.
Lemma SPop_no_fuel rnd t k n s : SPop rnd t k n s <> OutOfFuel.
Proof. unfold SPop. no_fuel. Qed.
Lemma zpop_no_fuel from t k n s : zpop from t k n s <> OutOfFuel.
Proof. unfold zpop. no_fuel. Qed.
#[export] Hint Resolve LPop_no_fuel RPop_no_fuel LInsert_no_fuel LTrim_no_fuel LMove_no_fuel
  SPop_no_fuel : fuel.

Lemma fuel_free_callP {S B} (f : Time -> S -> may_panic (B * S)) :
  (forall t s, f t s <> OutOfFuel) -> fuel_free (callP f).
Proof. by intros Hf. Qed.

Lemma fuel_free_call {S B} (f : Time -> S -> B * S) : fuel_free (call f).
Proof. by split. Qed.
Lemma fuel_free_query {S B} (f : Time -> S -> B) : fuel_free (query f).
Proof. by split. Qed.
Lemma fuel_free_update {S} (f : Time -> S -> S) : fuel_free (update f).
Proof. by split. Qed.

Lemma msetLoop_fuel kvs : fuel_free (msetLoop kvs).
Proof.
  induction kvs as [|[k v] kvs IH]; cbn [msetLoop]; [done|].
  apply fuel_free_bind; [apply fuel_free_update|done].
Qed.
#[export] Hint Resolve fuel_free_call fuel_free_query fuel_free_update msetLoop_fuel : fuel.

Lemma applyCommand_fuel rnd args : fuel_free (applyCommand rnd args).
Proof.
  unfold applyCommand, applyLists, applySets, applyZSets, members, exactly, atLeast, withInt, applyStore, applyZAdd, applyPExpireAt, applyAppend, applyPushX,
    drop_result, clockNow, ZPopMin, ZPopMax.
  repeat first [ progress intros | progress cbv zeta | progress (auto with fuel) | exact I
               | apply fuel_free_bind | apply fuel_free_callP; intros; auto using zpop_no_fuel with fuel
               | case_match ].
Qed.

Lemma replayLoop_terminates rnd fuel s n clock i st :
  (String.length s < fuel)%nat -> run (replayLoop rnd fuel s n) clock i st <> OutOfFuel.
Proof.
  revert s n i st. induction fuel as [|fuel IH]; intros s n i st Hf; [lia|]. cbn [replayLoop].
  destruct (ReadCommand_total s) as [Hn Hc]. unfold consumes in Hc.
  destruct (ReadCommand s) as [[args rest]|e| |]; [|by destruct e|done|done].
  rewrite run_bind. pose proof (fuel_free_run _ clock i st (applyCommand_fuel rnd args)) as Ha.
  destruct (run (applyCommand rnd args) clock i st) as [[[e i1] s1]|?| |]; try done.
  destruct e; [done|]. apply IH. lia.
Qed.

(** The program ends, whatever the clock and the state: it returns, or it panics. *)
Definition finishes {S A} (c : cmd S A) : Prop :=
  forall clock i s, (exists x, run c clock i s = Ret x) \/ run c clock i s = Panic.

Lemma finishes_intro {S A} (c : cmd S A) :
  (forall clock i s, run c clock i s <> OutOfFuel) -> finishes c.
Proof.
  intros H clock i s. specialize (H clock i s).
  destruct (run c clock i s) as [x|[]| |]; eauto. done.
Qed.

(** C25: replay terminates on every file, well-formed or not: the fuel of the loop is
    enough, whatever the bytes, the clock and the store. *)
Theorem Replay_terminates rnd contents : finishes (Replay rnd contents).
Proof.
  apply finishes_intro. intros clock i s.
  destruct contents as [|bytes|]; [done| |done]. cbn [Replay]. rewrite run_bind, run_update.
  apply replayLoop_terminates. lia.
Qed.
