(* ===== verification/Durability.v ===== *)
(** * Durability: what a crash can lose

    The router, the log writer, the file system and the replay put together.  Whatever
    writes fail, and whatever the power failure leaves of the page cache, the replay of
    the file rebuilds the data as it was after some first part of the commands; what was
    synced is in that part. *)

From S2P Require Import Prelude GoLib Protocol Glob Store Cmd PubSub Router Persistence Agree Records Recovery Aof.
Open Scope cmd_scope.

(** ** The router does not read the log *)

Section Alike.

(** Two kinds of logs, in a relation that every [Append] keeps. *)
Context {L1 L2 : Type} `{Appender L1, Appender L2} (R : L1 -> L2 -> Prop)
  (R_append : forall args l1 l2, R l1 l2 -> R (Append args l1) (Append args l2)).

Definition worlds (w1 : World L1) (w2 : World L2) : Prop :=
  wStore w1 = wStore w2 /\ wPubSub w1 = wPubSub w2 /\ R (wLog w1) (wLog w2).

(** The second program ends like the first, with related logs. *)
Definition alike {A} (c1 : cmd (World L1) A) (c2 : cmd (World L2) A) : Prop :=
  forall clock i w1 w2 a i' w1', worlds w1 w2 -> run c1 clock i w1 = Ret (a, i', w1') ->
    exists w2', run c2 clock i w2 = Ret (a, i', w2') /\ worlds w1' w2'.

Lemma alike_done {A} (a : A) : alike (Done a) (Done a).
Proof using Type. intros clock i w1 w2 b i' w1' Hw [= <- <- <-]. by exists w2. Qed.

Lemma alike_bind {A B} (c1 : cmd (World L1) A) c2 (k1 : A -> cmd (World L1) B) k2 :
  alike c1 c2 -> (forall a, alike (k1 a) (k2 a)) -> alike (cbind c1 k1) (cbind c2 k2).
Proof using Type.
  intros Hc Hk clock i w1 w2 b i' w1' Hw. rewrite run_bind.
  destruct (run c1 clock i w1) as [[[a i1] v1]|?| |] eqn:E; try done.
  destruct (Hc _ _ _ _ _ _ _ Hw E) as (v2 & E2 & Hv). rewrite run_bind, E2.
  intros Hr. by apply (Hk a _ _ _ _ _ _ _ Hv).
Qed.

Lemma alike_zoom {S A} (c : cmd S A) get1 put1 get2 put2 :
  (forall w1 w2, worlds w1 w2 -> get1 w1 = get2 w2) ->
  (forall s w1 w2, worlds w1 w2 -> worlds (put1 s w1) (put2 s w2)) ->
  alike (zoom get1 put1 c) (zoom get2 put2 c).
Proof using Type.
  intros Hg Hp. induction c as [a|X f k IH|]; cbn; [apply alike_done| |done].
  intros clock i w1 w2 a i' w1' Hw. cbn. rewrite <- (Hg _ _ Hw).
  destruct (f (clock i) (get1 w1)) as [[b s]|?| |]; cbn; try done.
  intros Hr. eapply IH; [|exact Hr]. by apply Hp.
Qed.

Lemma alike_onStore {A} (c : cmd MemoryStore A) : alike (onStore c) (onStore c).
Proof using Type. apply alike_zoom; [by intros ? ? []|]. by intros s w1 w2 (_ & H1 & H2). Qed.

Lemma alike_onPubSub {A} (c : cmd PubSub A) : alike (onPubSub c) (onPubSub c).
Proof using Type. apply alike_zoom; [by intros ? ? (_ & ? & _)|]. by intros s w1 w2 (H1 & _ & H2). Qed.

Lemma alike_append args : alike (aofAppend args) (aofAppend args).
Proof using R_append.
  intros clock i w1 w2 [] i' w1' (H1 & H2 & H3) [= <- <-]. eexists. split; [done|].
  split_and!; cbn; auto.
Qed.

Lemma alike_clock : alike clockNow clockNow.
Proof using Type. intros clock i w1 w2 t i' w1' Hw [= <- <- <-]. by eexists. Qed.

Create HintDb alike.
Local Hint Resolve alike_done alike_onStore alike_onPubSub alike_append alike_clock : alike.

Ltac alikes :=
  repeat first [ solve [auto with alike] | apply alike_bind | progress intros | progress cbv zeta
               | case_match ].

Lemma alike_Dispatch r args : alike (Dispatch r args) (Dispatch r args).
Proof using R_append.
  destruct args as [|a0 rest]; cbn [Dispatch]; [apply alike_done|]. cbv zeta.
  unfold register. destruct (String.eqb (ToUpper a0) "PUBLISH").
  2: destruct (lookupHandler _ _) as [h|]; [|apply alike_done].
  all: apply alike_bind; [unfold makePublishHandler; by alikes|]; intros resp.
  all: apply alike_bind; [|intros []; apply alike_done]; case_match; [|apply alike_done].
  all: unfold appendToAOF, appendRename, appendDeadline; by alikes.
Qed.

Lemma alike_dispatchAll r cmds : alike (dispatchAll r cmds) (dispatchAll r cmds).
Proof using R_append.
  induction cmds as [|args cmds IH]; cbn [dispatchAll]; [apply alike_done|].
  apply alike_bind; [apply alike_Dispatch|]. intros resp. apply alike_bind; [done|].
  intros resps. apply alike_done.
Qed.

End Alike.

(** ** Crashes *)

(** The commands dispatched on a server whose log is written by the writer of aof.go over the
    file system [os]. *)
Definition dispatchOn (os : faults) (r : Router) (cmds : list (list string))
    : cmd (World writer) (list Response) :=
  @dispatchAll writer (writer_Appender os) r cmds.

(** What a power failure can leave of an append-only file: what was synced, and any part of
    the rest in order. *)
Definition crashImage (synced contents img : string) : Prop :=
  sprefix synced img /\ sprefix img contents.

Lemma sprefix_stake_len x y : sprefix x y -> x = stake (String.length x) y.
Proof. intros [z ->]. by rewrite stake_app. Qed.

Lemma sprefix_len x y : sprefix x y -> len x <= len y.
Proof. intros [z ->]. rewrite len_app. pose proof (len_nonneg z). lia. Qed.

(** C6: recovery with failing writes. Recoverable commands (see [recoverable]) run one
    after the other on a fresh server whose log writer meets any write and sync
    errors. Clients get the same replies, and the server has the same data, as with a
    log that never fails; and after a power failure at the end, replay of what is left
    of the file ends without panicking with the data as it was after the first [k]
    commands, for some [k]. *)
Theorem faulty_log_recovery os rnd r cmds clock ps p resps i' v' :
  hasAof r = true -> forallb recoverable cmds = true ->
  run (dispatchAll r cmds) clock 0 (mkWorld NewMemoryStore ps (Open "" p)) = Ret (resps, i', v') ->
  len (file (wLog v')) * sizeofResponse <= maxAlloc ->
  exists w',
    run (dispatchOn os r cmds) clock 0 (mkWorld NewMemoryStore ps (OpenWriter "" p)) =
      Ret (resps, i', w') /\
    wStore w' = wStore v' /\
    forall img clock' j s0, crashImage (onDisk (wLog w')) (osFile (wLog w')) img ->
      exists k resps1 i1 w1 n e j' s',
        run (dispatchOn os r (take k cmds)) clock 0 (mkWorld NewMemoryStore ps (OpenWriter "" p)) =
          Ret (resps1, i1, w1) /\
        run (Replay rnd (Readable img)) clock' j s0 = Ret ((n, endOf e), j', s') /\
        eof_err e = true /\ same_data (wStore w1) s'.
Proof.
  intros Ha Hrec Hrun Hlen.
  pose proof (@alike_dispatchAll AOF writer _ (writer_Appender os) (fun ab a => follows a ab)
    (fun args ab a Hf => follows_append os args a ab Hf) r) as Hsim.
  assert (follows (OpenWriter "" p) (Open "" p)) as H0 by (split; try done; apply sprefix_refl).
  assert (worlds (fun ab a => follows a ab) (mkWorld NewMemoryStore ps (Open "" p))
            (mkWorld NewMemoryStore ps (OpenWriter "" p))) as Hw0 by by split_and!.
  destruct (Hsim cmds _ _ _ _ _ _ _ Hw0 Hrun) as (w' & Hw & (Hst & _ & Hf)).
  exists w'. split; [exact Hw|]. split; [done|]. intros img clock' j s0 [_ Hi].
  pose proof (sprefix_trans _ _ _ Hi (follows_prefix _ _ Hf)) as Hpre.
  rewrite (sprefix_stake_len _ _ Hpre).
  destruct (torn_file rnd r (anytime_timed rnd) Ha cmds clock 0
    (mkWorld NewMemoryStore ps (Open "" p)) resps i' v' [] (String.length img) clock' j s0
    (anytime_run r _ _ _ _ Hrec))
    as (k & resps1 & i1 & w1 & n & e & j' & s' & Hk & _ & _ & Hr & He & Hd%anytime_same); try done.
  { by apply anytime_oneRecord. }
  { apply settled_new. }
  { apply restores_none, settled_new. }
  { change (0 <= Z.of_nat (String.length img)). lia. }
  destruct (Hsim (take k cmds) _ _ _ _ _ _ _ Hw0 Hk) as (v1 & Hv1 & (Hst1 & _ & _)).
  exists k, resps1, i1, v1, n, e, j', s'. split_and!; try done. by rewrite <- Hst1.
Qed.

(** ** Syncing *)

(** What is on the disk stays there, and is a prefix of the file; with [SyncAlways] it is
    all of the file. *)
Record synced (p : SyncPolicy) (d : string) (a b : AOF) : Prop := mkSynced {
  synced_same : a = b;
  synced_policy : policy a = p;
  synced_old : sprefix d (durable a);
  synced_prefix : sprefix (durable a) (file a);
  synced_always : p = SyncAlways -> durable a = file a
}.

Lemma synced_append p d args a b : synced p d a b -> synced p d (AppendAOF args a) (AppendAOF args b).
Proof.
  intros [-> <- Hd Hp Ha]. split; rewrite ?file_AppendAOF, ?policy_AppendAOF, ?durable_AppendAOF;
    try done; repeat case_decide; try done.
  - rewrite <- Ha by done. by apply sprefix_app.
  - apply sprefix_refl.
  - by apply sprefix_app.
Qed.

Lemma synced_run p d r cmds clock i (w : World AOF) resps i' w' :
  synced p d (wLog w) (wLog w) -> run (dispatchAll r cmds) clock i w = Ret (resps, i', w') ->
  synced p d (wLog w') (wLog w').
Proof.
  intros Hs Hr. assert (worlds (synced p d) w w) as Hw by by split_and!.
  destruct (@alike_dispatchAll AOF AOF AOF_Appender AOF_Appender (synced p d) (fun args a b => synced_append p d args a b)
    r cmds _ _ _ _ _ _ _ Hw Hr) as (w2 & _ & _ & _ & Hs2).
  pose proof (synced_same _ _ _ _ Hs2) as E. by rewrite <- E in Hs2.
Qed.

(** One second has passed: the sync goroutine has run. *)
Definition tickW (w : World AOF) : World AOF :=
  mkWorld (wStore w) (wPubSub w) (syncTick (wLog w)).

Lemma file_syncTick a : file (syncTick a) = file a.
Proof. unfold syncTick. by case_decide. Qed.

Lemma sprefix_antisym x y : sprefix x y -> sprefix y x -> x = y.
Proof.
  intros [z ->] [t E]. apply (f_equal String.length) in E. rewrite !slength_app in E.
  destruct z; [by rewrite sapp_nil_r|]. cbn in E. lia.
Qed.

Lemma synced_tick p d (w : World AOF) :
  p <> SyncNo -> synced p d (wLog w) (wLog w) ->
  synced p (file (wLog w)) (wLog (tickW w)) (wLog (tickW w)).
Proof.
  intros Hp [_ Hpol Hd Hpre Ha]. cbn. unfold syncTick. rewrite Hpol. case_decide.
  - split; try done; apply sprefix_refl.
  - assert (durable (wLog w) = file (wLog w)) as E by (apply Ha; by destruct p).
    split; try done; rewrite E; apply sprefix_refl.
Qed.

(** C7: what was synced survives. Some recoverable commands (see [recoverable]) run on
    a fresh server, the sync goroutine ticks, more of them run, and then the power
    fails. With the policy "everysec" replay rebuilds the data after all the commands
    before the tick and some [k] of those after it; with "always" every command that
    was answered survives. *)
Theorem synced_survives rnd r cmds1 cmds2 clock ps p resps1 i1 w1 resps2 i2 w2 img clock' j s0 :
  hasAof r = true -> forallb recoverable (cmds1 ++ cmds2) = true -> p <> SyncNo ->
  run (dispatchAll r cmds1) clock 0 (mkWorld NewMemoryStore ps (Open "" p)) = Ret (resps1, i1, w1) ->
  run (dispatchAll r cmds2) clock i1 (tickW w1) = Ret (resps2, i2, w2) ->
  len (file (wLog w2)) * sizeofResponse <= maxAlloc ->
  crashImage (durable (wLog w2)) (file (wLog w2)) img ->
  exists k resps i w n e j' s',
    run (dispatchAll r (take k cmds2)) clock i1 (tickW w1) = Ret (resps, i, w) /\
    (p = SyncAlways -> k = length cmds2) /\
    run (Replay rnd (Readable img)) clock' j s0 = Ret ((n, endOf e), j', s') /\
    eof_err e = true /\ same_data (wStore w) s'.
Proof.
  intros Ha Hrec Hp Hr1 Hr2 Hlen [Hi1 Hi2]. rewrite forallb_app in Hrec.
  apply andb_true_iff in Hrec as [Hrec1 Hrec2].
  assert (synced p "" (Open "" p) (Open "" p)) as H0 by (split; try done; apply sprefix_refl).
  pose proof (synced_run p "" r cmds1 clock 0 (mkWorld NewMemoryStore ps (Open "" p)) _ _ _ H0 Hr1) as Hs1.
  apply (dispatchAll_sound rnd) in Hr1 as (recs & Hl & Hr);
    [|exact (anytime_timed rnd)|done|by apply anytime_run|done|apply settled_new].
  specialize (Hl [] eq_refl). specialize (Hr NewMemoryStore settled_new).
  pose proof (synced_run _ _ _ _ _ _ _ _ _ _ (synced_tick _ _ _ Hp Hs1) Hr2) as Hs2.
  assert (fileHolds (wLog (tickW w1)) recs) as Hh by (unfold fileHolds; cbn; by rewrite file_syncTick).
  pose proof (restores_settled _ _ _ _ Hr) as HT.
  destruct (decide (p = SyncAlways)) as [Hal|Hev].
  - assert (img = file (wLog w2)) as ->.
    { apply sprefix_antisym; [done|]. by rewrite <- (synced_always _ _ _ _ Hs2 Hal). }
    pose proof Hr2 as Hrun.
    apply (dispatchAll_sound rnd) in Hr2 as (recs2 & Hl2 & Hrs2);
      [|exact (anytime_timed rnd)|done|by apply anytime_run|done..].
    destruct (run_Replay_restores rnd (recs ++ recs2) (wLog w2) (wStore w2) clock' j s0)
      as (n & j' & s' & E & Hd%anytime_same); [by apply Hl2| |done|done|].
    { eapply restores_app; [exact Hr|exact Hrs2]. }
    exists (length cmds2), resps2, i2, w2, n, EEof, j', s'. by rewrite firstn_all.
  - rewrite (sprefix_stake_len _ _ Hi2).
    destruct (torn_file rnd r (anytime_timed rnd) Ha cmds2 clock i1 (tickW w1) resps2 i2 w2 recs
      (String.length img) clock' j s0)
      as (k & resps & i & w & n & e & j' & s' & Hk & _ & _ & E & He & Hd%anytime_same); try done.
    { by apply anytime_run. }
    { by apply anytime_oneRecord. }
    { cbn. rewrite file_syncTick.
      apply sprefix_len. eapply sprefix_trans; [apply (synced_old _ _ _ _ Hs2)|done]. }
    by exists k, resps, i, w, n, e, j', s'.
Qed.

(** ** Witnesses *)

(** The sample commands, on a disk that is full for one write. *)
Lemma faulty_log_recovery_witness :
  exists w', run (dispatchOn fullOnce sampleRouter sampleCommands) (fun i => Z.of_nat i) 0
      (mkWorld NewMemoryStore samplePubSub (OpenWriter "" SyncAlways)) =
      Ret (fst (fst (sampleRun sampleCommands)), snd (fst (sampleRun sampleCommands)), w') /\
    wStore w' = wStore (snd (sampleRun sampleCommands)) /\
    exists k resps1 i1 w1 n e j' s',
      run (dispatchOn fullOnce sampleRouter (take k sampleCommands)) (fun i => Z.of_nat i) 0
        (mkWorld NewMemoryStore samplePubSub (OpenWriter "" SyncAlways)) = Ret (resps1, i1, w1) /\
      run (Replay id (Readable (osFile (wLog w')))) (fun _ => 5) 0 NewMemoryStore =
        Ret ((n, endOf e), j', s') /\
      eof_err e = true /\ same_data (wStore w1) s'.
Proof.
  destruct (faulty_log_recovery fullOnce id sampleRouter sampleCommands (fun i => Z.of_nat i)
    samplePubSub SyncAlways (fst (fst (sampleRun sampleCommands)))
    (snd (fst (sampleRun sampleCommands))) (snd (sampleRun sampleCommands)))
    as (w' & Hw & Hs & Hi); [reflexivity|by vm_compute|by vm_compute|by vm_compute|].
  exists w'. split; [exact Hw|]. split; [exact Hs|]. apply (Hi _ (fun _ => 5) O NewMemoryStore).
  vm_compute in Hw. injection Hw as <-. split; [|apply sprefix_refl].
  eexists. vm_compute. reflexivity.
Defined.

(** The world after some commands of the sample server. *)
Definition sampleAfter (cmds : list (list string)) (i : nat) (w : World AOF)
    : list Response * nat * World AOF :=
  match run (dispatchAll sampleRouter cmds) (fun _ => 0) i w with
  | Ret x => x
  | _ => ([], i, w)
  end.

Definition sampleBefore : list Response * nat * World AOF :=
  sampleAfter [["SET"; "a"; "1"]] 0 (mkWorld NewMemoryStore samplePubSub (Open "" SyncEverySec)).
Definition sampleLast : list Response * nat * World AOF :=
  sampleAfter [["SET"; "b"; "2"]] (snd (fst sampleBefore)) (tickW (snd sampleBefore)).

(** A power failure that leaves only what was synced: the command after the tick is lost. *)
Lemma synced_survives_witness :
  exists k resps i w n e j' s',
    run (dispatchAll sampleRouter (take k [["SET"; "b"; "2"]])) (fun _ => 0)
      (snd (fst sampleBefore)) (tickW (snd sampleBefore)) = Ret (resps, i, w) /\
    (SyncEverySec = SyncAlways -> k = 1%nat) /\
    run (Replay id (Readable (durable (wLog (snd sampleLast))))) (fun _ => 5) 0 NewMemoryStore =
      Ret ((n, endOf e), j', s') /\
    eof_err e = true /\ same_data (wStore w) s'.
Proof.
  apply (synced_survives id sampleRouter [["SET"; "a"; "1"]] [["SET"; "b"; "2"]] (fun _ => 0)
    samplePubSub SyncEverySec (fst (fst sampleBefore)) (snd (fst sampleBefore)) (snd sampleBefore)
    (fst (fst sampleLast)) (snd (fst sampleLast)) (snd sampleLast));
    [reflexivity|reflexivity|done|vm_compute; reflexivity|vm_compute; reflexivity|by vm_compute|].
  split; [apply sprefix_refl|]. eexists. vm_compute. reflexivity.
Defined.

(** ** What a restart changes *)

Definition freshServer : World AOF := mkWorld NewMemoryStore samplePubSub (Open "" SyncAlways).

(** A command changes the store and then appends its record, as two steps: two clients that
    set the same key can leave the records in the other order, and a restart then brings
    back the value that was overwritten. *)
Lemma log_order_differs :
  exists w' n j s',
    psteps ([Dispatch sampleRouter ["SET"; "k"; "1"]; Dispatch sampleRouter ["SET"; "k"; "2"]],
            freshServer)
      ([Done (SimpleString "OK"); Done (SimpleString "OK")], w') /\
    Get 0 "k" (wStore w') = Some "2" /\
    run (Replay id (Readable (file (wLog w')))) (fun _ => 0) 0 NewMemoryStore =
      Ret ((n, None), j, s') /\
    Get 0 "k" s' = Some "1".
Proof.
  do 4 eexists. split.
  { eapply (psteps_step _ 0); [apply (pstep_op [] [_]); reflexivity|].
    eapply (psteps_step _ 0); [apply (pstep_op [_] []); reflexivity|].
    eapply (psteps_step _ 0); [apply (pstep_op [_] []); reflexivity|].
    eapply (psteps_step _ 0); [apply (pstep_op [] [_]); reflexivity|]. apply psteps_refl. }
  split; [reflexivity|]. split; [vm_compute; reflexivity|reflexivity].
Qed.

(** A deadline that was removed again: the record of the deadline comes first in the log,
    and replayed after it has passed it deletes the key; the PERSIST record finds nothing. *)
Lemma PERSIST_lost_on_restart :
  exists resps i w' n j s',
    run (dispatchAll sampleRouter [["SETEX"; "k"; "1"; "v"]; ["PERSIST"; "k"]]) (fun _ => 0) 0
      freshServer = Ret (resps, i, w') /\
    Get (5 * Second) "k" (wStore w') = Some "v" /\
    run (Replay id (Readable (file (wLog w')))) (fun _ => 5 * Second) 0 NewMemoryStore =
      Ret ((n, None), j, s') /\
    Get (5 * Second) "k" s' = None.
Proof.
  do 6 eexists. split; [vm_compute; reflexivity|]. split; [reflexivity|].
  split; [vm_compute; reflexivity|reflexivity].
Qed.
