(* ===== verification/Handler.v ===== *)
(** * Connections (internal/server/handler.go)

    The command loop of one client: transactions, WATCH, and subscriptions.  The
    fields of a handler belong to its goroutine and are passed along; the shared
    state is the [World].  What the handler writes to its TCP connection directly is
    collected in [written]; once it has a subscriber, replies go through the
    subscriber's inbox, which the write loop drains.  A write may fail, after some of its
    bytes. *)

From S2P Require Import Prelude GoLib Protocol Glob Store Cmd StringCmds PubSub Router Records Recovery.
Open Scope cmd_scope.

(** ** itoa *)

(** The loop that fills the 20-byte buffer from its end. *)
Fixpoint itoaLoop (fuel : nat) (n : Z) (buf : string) : string :=
  match fuel with
  | O => buf
  | S fuel' =>
      if 0 <? n then itoaLoop fuel' (n / 10) (String (digit_char (n mod 10)) buf) else buf
  end.

Definition itoa (n : Z) : string :=
  if n =? 0 then "0"
  else
    let neg := n <? 0 in
    let n := if neg then wrap64 (- n) else n in
    let buf := itoaLoop 20 n "" in
    if neg then String "-"%char buf else buf.

(** ** State *)

Record conn : Type := mkConn {
  sub : option SubId;
  subChans : gset string;
  subPatterns : gset string;
  inMulti : bool;
  txQueue : list (list string);
  txErrors : Z;
  watchedKeys : gmap string Z;
  written : list string
}.

Definition newHandler : conn := mkConn None ∅ ∅ false [] 0 ∅ [].

(** Assignments to the fields. *)
Definition set_sub o h := mkConn o (subChans h) (subPatterns h) (inMulti h) (txQueue h)
  (txErrors h) (watchedKeys h) (written h).
Definition set_subChans c h := mkConn (sub h) c (subPatterns h) (inMulti h) (txQueue h)
  (txErrors h) (watchedKeys h) (written h).
Definition set_subPatterns p h := mkConn (sub h) (subChans h) p (inMulti h) (txQueue h)
  (txErrors h) (watchedKeys h) (written h).
Definition set_tx m q e h := mkConn (sub h) (subChans h) (subPatterns h) m q e
  (watchedKeys h) (written h).
Definition set_watched k h := mkConn (sub h) (subChans h) (subPatterns h) (inMulti h) (txQueue h)
  (txErrors h) k (written h).
Definition set_written o h := mkConn (sub h) (subChans h) (subPatterns h) (inMulti h) (txQueue h)
  (txErrors h) (watchedKeys h) o.

Section Handler.

(** [order] is the order in which Go ranges over the handler's own maps;
    [hasBroker] is [h.broker != nil].  [tcp] is the fate of each write to the connection:
    [None] if it succeeds, [Some k] if it fails after [k] bytes. *)
Context {L : Type} `{Appender L} (r : Router) (hasBroker : bool)
  (order : list string -> list string) (tcp : nat -> option nat).

(** ** Replies *)

(** The first component of the results is [err != nil]. *)
Definition respond (s : string) (h : conn) : cmd (World L) (bool * conn) :=
  match sub h with
  | Some id =>
      let* _ := onPubSub (Send id s) in
      Done (false, h)
  | None =>
      match tcp (length (written h)) with
      | None => Done (false, set_written (written h ++ [s]) h)
      | Some k => Done (true, set_written (written h ++ [stake k s]) h)
      end
  end.

Fixpoint respondMany (parts : list string) (h : conn) : cmd (World L) (bool * conn) :=
  match parts with
  | [] => Done (false, h)
  | p :: parts' =>
      let* out := respond p h in
      if fst out then Done out else respondMany parts' (snd out)
  end.

(** A reply whose error is ignored. *)
Definition tryRespond (s : string) (h : conn) : cmd (World L) conn :=
  let* out := respond s h in
  Done (snd out).

(** ** Transactions *)

Definition handleMulti (h : conn) : Response * conn :=
  if inMulti h then (Error "ERR MULTI calls can not be nested", h)
  else (SimpleString "OK", set_tx true [] 0 h).

Definition handleDiscard (h : conn) : Response * conn :=
  if negb (inMulti h) then (Error "ERR DISCARD without MULTI", h)
  else (SimpleString "OK", set_watched ∅ (set_tx false [] 0 h)).

Fixpoint watchLoop (keys : list string) (watched : gmap string Z) : cmd (World L) (gmap string Z) :=
  match keys with
  | [] => Done watched
  | k :: keys' =>
      let* v := KeyVersion k in
      watchLoop keys' (<[k := v]> watched)
  end.

Definition handleWatch (keys : list string) (h : conn) : cmd (World L) (Response * conn) :=
  if inMulti h then Done (Error "ERR WATCH inside MULTI is not allowed", h)
  else match keys with
       | [] => Done (Error "ERR wrong number of arguments for 'watch' command", h)
       | _ =>
           let* watched := watchLoop keys (watchedKeys h) in
           Done (SimpleString "OK", set_watched watched h)
       end.

(** The loop of [watchDirty] over the watched keys, in some order. *)
Fixpoint dirtyLoop (keys : list string) (watched : gmap string Z) : cmd (World L) bool :=
  match keys with
  | [] => Done false
  | k :: keys' =>
      let* v := KeyVersion k in
      if v =? default 0 (watched !! k) then dirtyLoop keys' watched else Done true
  end.

Definition watchDirty (h : conn) : cmd (World L) bool :=
  dirtyLoop (order (elements (dom (watchedKeys h)))) (watchedKeys h).

(** The queued commands, each dispatched and its reply serialized. *)
Fixpoint execLoop (queue : list (list string)) : cmd (World L) (list string) :=
  match queue with
  | [] => Done []
  | args :: queue' =>
      let* resp := Dispatch r args in
      let* results := execLoop queue' in
      Done (Serialize resp :: results)
  end.

Definition handleExec (h : conn) : cmd (World L) (list string * conn) :=
  if negb (inMulti h) then Done ([Serialize (Error "ERR EXEC without MULTI")], h)
  else
    let reset := set_watched ∅ (set_tx false [] 0 h) in
    if 0 <? txErrors h then
      Done ([Serialize (Error "EXECABORT Transaction discarded because of previous errors.")],
            reset)
    else
      let* dirty := watchDirty h in
      if dirty then Done ([Serialize NullArray], reset)
      else
        let* results := execLoop (txQueue h) in
        Done (["*" +:+ itoa (llen results) +:+ CRLF +:+ sconcat results], reset).

(** ** Subscriptions *)

Definition totalSubscriptions (h : conn) : Z :=
  Z.of_nat (size (subChans h)) + Z.of_nat (size (subPatterns h)).

(** A new subscriber has an identity of its own. *)
Definition allocSubscriber (ps : PubSub) : SubId * PubSub :=
  let id := fresh (dom (subscribers ps)) in
  (id, mkPubSub (broker ps) (<[id := NewSubscriber]> (subscribers ps))).

Definition ensureSubscriber (h : conn) : cmd (World L) (SubId * conn) :=
  match sub h with
  | Some id => Done (id, h)
  | None =>
      let* id := onPubSub (call (fun _ => allocSubscriber)) in
      Done (id, set_sub (Some id) h)
  end.

(** A call of the broker. *)
Definition onBroker (f : Broker -> Broker) : cmd (World L) unit :=
  onPubSub (update (fun _ ps => mkPubSub (f (broker ps)) (subscribers ps))).

(** [h.sub.Send(frame)], the result ignored. *)
Definition sendFrame (id : SubId) (frame : string) : cmd (World L) unit :=
  let* _ := onPubSub (Send id frame) in
  Done tt.

Fixpoint subscribeLoop (id : SubId) (chans : list string) (h : conn) : cmd (World L) conn :=
  match chans with
  | [] => Done h
  | ch :: chans' =>
      if decide (ch ∈ subChans h) then subscribeLoop id chans' h
      else
        let* _ := onBroker (Subscribe ch id) in
        let h := set_subChans ({[ch]} ∪ subChans h) h in
        let* _ := sendFrame id (EncodeSubscribeAck ch (totalSubscriptions h)) in
        subscribeLoop id chans' h
  end.

Definition handleSubscribe (chans : list string) (h : conn) : cmd (World L) conn :=
  if negb hasBroker then tryRespond (Serialize (Error "ERR pub/sub not available")) h
  else match chans with
       | [] => tryRespond (Serialize (Error
                 "ERR wrong number of arguments for 'subscribe' command")) h
       | _ =>
           let* idh := ensureSubscriber h in
           subscribeLoop (fst idh) chans (snd idh)
       end.

(** The loops of UNSUBSCRIBE: those over the arguments skip channels that are not
    subscribed, which the one over the handler's own map never meets. *)
Fixpoint unsubscribeLoop (id : SubId) (chans : list string) (h : conn) : cmd (World L) conn :=
  match chans with
  | [] => Done h
  | ch :: chans' =>
      if decide (ch ∈ subChans h) then
        let* _ := onBroker (Unsubscribe ch id) in
        let h := set_subChans (subChans h ∖ {[ch]}) h in
        let* _ := sendFrame id (EncodeUnsubscribeAck ch (totalSubscriptions h)) in
        unsubscribeLoop id chans' h
      else unsubscribeLoop id chans' h
  end.

Definition handleUnsubscribe (chans : list string) (h : conn) : cmd (World L) conn :=
  match sub h with
  | None => Done h
  | Some id =>
      match chans with
      | [] => unsubscribeLoop id (order (elements (subChans h))) h
      | _ => unsubscribeLoop id chans h
      end
  end.

Fixpoint psubscribeLoop (id : SubId) (pats : list string) (h : conn) : cmd (World L) conn :=
  match pats with
  | [] => Done h
  | pat :: pats' =>
      if decide (pat ∈ subPatterns h) then psubscribeLoop id pats' h
      else
        let* _ := onBroker (PSubscribe pat id) in
        let h := set_subPatterns ({[pat]} ∪ subPatterns h) h in
        let* _ := sendFrame id (EncodePSubscribeAck pat (totalSubscriptions h)) in
        psubscribeLoop id pats' h
  end.

Definition handlePSubscribe (pats : list string) (h : conn) : cmd (World L) conn :=
  if negb hasBroker then tryRespond (Serialize (Error "ERR pub/sub not available")) h
  else match pats with
       | [] => tryRespond (Serialize (Error
                 "ERR wrong number of arguments for 'psubscribe' command")) h
       | _ =>
           let* idh := ensureSubscriber h in
           psubscribeLoop (fst idh) pats (snd idh)
       end.

Fixpoint punsubscribeLoop (id : SubId) (pats : list string) (h : conn) : cmd (World L) conn :=
  match pats with
  | [] => Done h
  | pat :: pats' =>
      if decide (pat ∈ subPatterns h) then
        let* _ := onBroker (PUnsubscribe pat id) in
        let h := set_subPatterns (subPatterns h ∖ {[pat]}) h in
        let* _ := sendFrame id (EncodePUnsubscribeAck pat (totalSubscriptions h)) in
        punsubscribeLoop id pats' h
      else punsubscribeLoop id pats' h
  end.

Definition handlePUnsubscribe (pats : list string) (h : conn) : cmd (World L) conn :=
  match sub h with
  | None => Done h
  | Some id =>
      match pats with
      | [] => punsubscribeLoop id (order (elements (subPatterns h))) h
      | _ => punsubscribeLoop id pats h
      end
  end.

Definition cleanupSubscriptions (h : conn) : cmd (World L) unit :=
  match sub h with
  | None => Done tt
  | Some id =>
      let* _ :=
        (if hasBroker then
           let* _ := onBroker (fun b => snd (UnsubscribeAll id b)) in
           onBroker (fun b => snd (PUnsubscribeAll id b))
         else Done tt) in
      onPubSub (update (fun _ ps => mkPubSub (broker ps) (alter Close id (subscribers ps))))
  end.

(** ** The command loop *)

(** One iteration of the loop of [serve] on a command that was read; the first component
    of the result is whether it returns. *)
Definition serveOne (args : list string) (h : conn) : cmd (World L) (bool * conn) :=
  let name := ToUpper (arg args 0) in
  let go_on (c : cmd (World L) conn) := let* h := c in Done (false, h) in
  if String.eqb name "SUBSCRIBE" then go_on (handleSubscribe (argsFrom 1 args) h)
  else if String.eqb name "UNSUBSCRIBE" then go_on (handleUnsubscribe (argsFrom 1 args) h)
  else if String.eqb name "PSUBSCRIBE" then go_on (handlePSubscribe (argsFrom 1 args) h)
  else if String.eqb name "PUNSUBSCRIBE" then go_on (handlePUnsubscribe (argsFrom 1 args) h)
  else if String.eqb name "MULTI" then
    let '(resp, h) := handleMulti h in respond (Serialize resp) h
  else if String.eqb name "EXEC" then
    let* out := handleExec h in respondMany (fst out) (snd out)
  else if String.eqb name "DISCARD" then
    let '(resp, h) := handleDiscard h in respond (Serialize resp) h
  else if String.eqb name "WATCH" then
    let* out := handleWatch (argsFrom 1 args) h in
    respond (Serialize (fst out)) (snd out)
  else if String.eqb name "UNWATCH" then
    respond (Serialize (SimpleString "OK")) (set_watched ∅ h)
  else if bool_decide (is_Some (sub h)) then
    go_on (tryRespond (Serialize (Error "ERR Command not allowed in subscription mode")) h)
  else if inMulti h then
    respond (Serialize (SimpleString "QUEUED"))
      (set_tx (inMulti h) (txQueue h ++ [args]) (txErrors h) h)
  else
    let* resp := Dispatch r args in
    respond (Serialize resp) h.

(** [serve] on the bytes a client sends before it disconnects; the result is the state
    of the handler at the end.  Fuel: one more than the number of bytes. *)
Fixpoint serveLoop (fuel : nat) (input : string) (h : conn) : cmd (World L) conn :=
  match fuel with
  | O => Done h
  | S fuel' =>
      match ReadCommand input with
      | Ret (args, rest) =>
          let* out := serveOne args h in
          if fst out then Done (snd out) else serveLoop fuel' rest (snd out)
      | Err _ => Done h
      | Panic => Crash
      | OutOfFuel => Done h
      end
  end.

Definition serve (input : string) : cmd (World L) conn :=
  let* h := serveLoop (S (String.length input)) input newHandler in
  let* _ := cleanupSubscriptions h in
  Done h.

End Handler.

(** A connection whose writes succeed. *)
Definition reliable (n : nat) : option nat := None.
