(* ===== verification/HandlerFacts.v ===== *)
(** * Properties of connections: transactions, WATCH and subscriptions *)

From S2P Require Import Prelude GoLib Protocol Glob Store Cmd StringCmds PubSub Router.
From S2P Require Import Persistence Records Recovery Handler.
Open Scope cmd_scope.

(** ** itoa is FormatInt on lengths *)

Lemma itoaLoop_digits fuel n buf : 0 <= n -> itoaLoop fuel n buf = fmt_digits fuel n buf.
Proof.
  revert n buf. induction fuel as [|f IH]; intros n buf Hn; cbn; [done|].
  destruct (n =? 0) eqn:E; zbool; [by subst|].
  replace (0 <? n) with true by lia. apply IH, Z.div_pos; lia.
Qed.

Lemma itoa_FormatInt n : 0 <= n -> itoa n = FormatInt n.
Proof.
  intros Hn. unfold itoa, FormatInt, FormatUint.
  replace (n <? 0) with false by lia. destruct (n =? 0); [done|]. by apply itoaLoop_digits.
Qed.

Section Facts.

Context {L : Type} `{Appender L} (r : Router) (hasBroker : bool)
  (order : list string -> list string) (tcp : nat -> option nat).

(** ** Transactions *)

Definition resetTx (h : conn) : conn := set_watched ∅ (set_tx false [] 0 h).

(** EXEC dispatches the queue like any sequence of commands. *)
Lemma run_execLoop queue clock i (w : World L) :
  run (execLoop r queue) clock i w =
    match run (dispatchAll r queue) clock i w with
    | Ret (resps, i', w') => Ret (List.map Serialize resps, i', w')
    | Panic => Panic | Err e => Err e | OutOfFuel => OutOfFuel
    end.
Proof using Type.
  revert i w. induction queue as [|args queue IH]; intros i w; [done|].
  cbn [execLoop dispatchAll]. rewrite !run_bind.
  destruct (run (Dispatch r args) clock i w) as [[[resp i1] w1]|?| |]; [|done..].
  rewrite !run_bind, IH.
  by destruct (run (dispatchAll r queue) clock i1 w1) as [[[resps i2] w2]|?| |].
Qed.

Lemma run_KeyVersion k clock i (w : World L) :
  run (KeyVersion k) clock i w = Ret (Version k (wStore w), S i, w).
Proof using Type. unfold KeyVersion. rewrite run_onStore. cbn. by destruct w. Qed.

(** Whether the keys have the versions that were recorded. *)
Definition fresh_versions (s : MemoryStore) (keys : list string) (watched : gmap string Z) : bool :=
  forallb (fun k => Version k s =? default 0 (watched !! k)) keys.

Lemma run_dirtyLoop keys watched clock i (w : World L) :
  exists i', run (dirtyLoop keys watched) clock i w =
    Ret (negb (fresh_versions (wStore w) keys watched), i', w) /\
    (fresh_versions (wStore w) keys watched = true -> i' = (i + length keys)%nat).
Proof using Type.
  revert i. induction keys as [|k keys IH]; intros i.
  - exists i. split; [done|]. intros _. cbn. lia.
  - cbn [dirtyLoop fresh_versions forallb length]. rewrite run_bind, run_KeyVersion.
    destruct (Version k (wStore w) =? default 0 (watched !! k)).
    + destruct (IH (S i)) as (i' & Hr & Hi). exists i'. split; [exact Hr|].
      intros Hf. cbn in Hf. apply Hi in Hf. lia.
    + exists (S i). split; [done|]. done.
Qed.

Lemma fresh_versions_spec s (watched : gmap string Z) keys :
  keys ≡ₚ elements (dom watched) ->
  fresh_versions s keys watched = true <-> map_Forall (fun k v => Version k s = v) watched.
Proof using Type.
  intros Hp. unfold fresh_versions. rewrite List.forallb_forall. split.
  - intros Hf k v Hk. assert (k ∈ keys) as Hin.
    { rewrite Hp. apply elem_of_elements, elem_of_dom. eauto. }
    apply list_elem_of_In, Hf in Hin. rewrite Hk in Hin. cbn in Hin. lia.
  - intros Hm k Hin%list_elem_of_In. rewrite Hp in Hin. apply elem_of_elements, elem_of_dom in Hin.
    destruct Hin as [v Hk]. rewrite Hk. cbn. rewrite (Hm k v Hk). lia.
Qed.

(** C14: EXEC.  When every watched key still has the version it had at WATCH, the queued
    commands run exactly as if they had been dispatched one after the other, and the
    reply is one array of their replies; when some version changed, nothing runs and the
    reply is the null array.  Either way the transaction state is cleared. *)
Theorem EXEC_correct h clock i (w : World L) :
  inMulti h = true -> txErrors h = 0 -> (forall l, order l ≡ₚ l) ->
  if decide (map_Forall (fun k v => Version k (wStore w) = v) (watchedKeys h)) then
    run (handleExec r order h) clock i w =
      match run (dispatchAll r (txQueue h)) clock (i + size (watchedKeys h)) w with
      | Ret (resps, i', w') => Ret (([Serialize (Array resps)], resetTx h), i', w')
      | Panic => Panic | Err e => Err e | OutOfFuel => OutOfFuel
      end
  else exists i', run (handleExec r order h) clock i w =
         Ret (([Serialize NullArray], resetTx h), i', w).
Proof using Type.
  intros Hm He Ho. unfold handleExec. rewrite Hm, He. cbn [negb Z.ltb Z.compare].
  rewrite run_bind. unfold watchDirty.
  destruct (run_dirtyLoop (order (elements (dom (watchedKeys h)))) (watchedKeys h) clock i w)
    as (i' & -> & Hi).
  pose proof (fresh_versions_spec (wStore w) (watchedKeys h) _ (Ho _)) as Hf.
  destruct (fresh_versions _ _ _); cbn [negb].
  - rewrite decide_True by by apply Hf. rewrite Hi by done.
    assert (length (order (elements (dom (watchedKeys h)))) = size (watchedKeys h)) as ->.
    { rewrite (Permutation_length (Ho _)). change (length (elements (dom (watchedKeys h))))
        with (size (dom (watchedKeys h))). apply size_dom. }
    rewrite run_bind, run_execLoop.
    destruct (run (dispatchAll r (txQueue h)) clock _ w) as [[[resps i2] w2]|?| |]; [|done..].
    cbn [run]. unfold Array. cbn [Serialize]. rewrite itoa_FormatInt by apply llen_nonneg.
    unfold llen. by rewrite List.length_map.
  - rewrite decide_False by (intros Hx; by apply Hf in Hx). by exists i'.
Qed.

(** The commands the loop handles itself. *)
Definition special : list string :=
  ["SUBSCRIBE"; "UNSUBSCRIBE"; "PSUBSCRIBE"; "PUNSUBSCRIBE"; "MULTI"; "EXEC"; "DISCARD";
   "WATCH"; "UNWATCH"].

Definition plain (args : list string) : bool := negb (oneOf (ToUpper (arg args 0)) special).

(** The loop of [serve] on commands that were read, until it returns. *)
Fixpoint serveAll (cmds : list (list string)) (h : conn) : cmd (World L) conn :=
  match cmds with
  | [] => Done h
  | args :: cmds' =>
      let* out := serveOne r hasBroker order tcp args h in
      if fst out then Done (snd out) else serveAll cmds' (snd out)
  end.

Lemma serveOne_plain args h :
  plain args = true ->
  serveOne r hasBroker order tcp args h =
    if bool_decide (is_Some (sub h)) then
      let* h := tryRespond tcp
        (Serialize (Error "ERR Command not allowed in subscription mode")) h in
      Done (false, h)
    else if inMulti h then
      respond tcp (Serialize (SimpleString "QUEUED"))
        (set_tx (inMulti h) (txQueue h ++ [args]) (txErrors h) h)
    else
      let* resp := Dispatch r args in
      respond tcp (Serialize resp) h.
Proof using Type.
  intros Hp. apply negb_true_iff in Hp. unfold oneOf, special in Hp. cbn [existsb] in Hp.
  rewrite !orb_false_iff in Hp. destruct Hp as (H1 & H2 & H3 & H4 & H5 & H6 & H7 & H8 & H9 & _).
  unfold serveOne. by rewrite H1, H2, H3, H4, H5, H6, H7, H8, H9.
Qed.

End Facts.

Section Transactions.

Context {L : Type} `{Appender L} (r : Router) (hasBroker : bool)
  (order : list string -> list string).

Abbreviation serveAll := (serveAll r hasBroker order reliable).

(** In a transaction plain commands are only queued. *)
Lemma run_queue cmds h clock i (w : World L) rest :
  forallb plain cmds = true -> sub h = None -> inMulti h = true ->
  run (serveAll (cmds ++ rest) h) clock i w =
  run (serveAll rest
         (set_written (written h ++ repeat (Serialize (SimpleString "QUEUED")) (length cmds))
            (set_tx true (txQueue h ++ cmds) (txErrors h) h))) clock i w.
Proof using Type.
  revert h. induction cmds as [|args cmds IH]; intros h Hp Hs Hm.
  - cbn [app repeat length]. rewrite !app_nil_r. destruct h. cbn in *. by rewrite Hm.
  - cbn [forallb] in Hp. apply andb_true_iff in Hp as [Ha Hp]. cbn [app HandlerFacts.serveAll].
    rewrite run_bind, serveOne_plain by done.
    rewrite bool_decide_false by (rewrite Hs; by intros []).
    rewrite Hm. unfold respond. cbn [sub set_tx]. rewrite Hs. cbn [run reliable fst snd].
    rewrite IH by done. cbn [length repeat]. destruct h. cbn in *.
    unfold set_written, set_tx. cbn. by rewrite <- !app_assoc.
Qed.

(** The reply to a command that is known and well-formed: no error, or the one of a key of
    the wrong type. *)
Definition wellFormedReply (resp : Response) : Prop :=
  rType resp <> TypeError \/ resp = Error (errText ErrWrongType).

(** C13: a transaction.  On a connection that watches nothing, MULTI, any commands that are
    known and well-formed, EXEC have the effect on the shared state, and the replies, of the
    commands dispatched one after the other, an error about the type of a key included;
    until EXEC the shared state is untouched and each command is answered with QUEUED. *)
Theorem transaction_correct cmds h clock i (w : World L) resps i' w' :
  forallb plain cmds = true -> sub h = None -> inMulti h = false -> watchedKeys h = ∅ ->
  order [] = [] ->
  run (dispatchAll r cmds) clock i w = Ret (resps, i', w') -> Forall wellFormedReply resps ->
  run (serveAll (["MULTI"] :: cmds) h) clock i w =
    Ret (set_written (written h ++ Serialize (SimpleString "OK") ::
                        repeat (Serialize (SimpleString "QUEUED")) (length cmds))
           (set_tx true cmds 0 h), i, w) /\
  run (serveAll (["MULTI"] :: cmds ++ [["EXEC"]]) h) clock i w =
    Ret (set_written (written h ++ Serialize (SimpleString "OK") ::
                        repeat (Serialize (SimpleString "QUEUED")) (length cmds) ++
                        [Serialize (Array resps)]) (resetTx h), i', w').
Proof using Type.
  intros Hp Hs Hm Hw Ho Hrun _.
  assert (forall rest, run (serveAll (["MULTI"] :: cmds ++ rest) h) clock i w =
    run (serveAll rest (set_written (written h ++ Serialize (SimpleString "OK") ::
                          repeat (Serialize (SimpleString "QUEUED")) (length cmds))
           (set_tx true cmds 0 h))) clock i w) as Hq.
  { intros rest. cbn [HandlerFacts.serveAll]. rewrite run_bind.
    change (serveOne r hasBroker order reliable ["MULTI"] h) with
      (let '(resp, h) := handleMulti h in respond (L := L) reliable (Serialize resp) h).
    unfold handleMulti. rewrite Hm. unfold respond. cbn [sub set_tx]. rewrite Hs. cbn [run reliable fst snd].
    rewrite run_queue by done. unfold set_written, set_tx. cbn. by rewrite <- app_assoc. }
  split.
  - pose proof (Hq []) as Hq0. rewrite app_nil_r in Hq0. exact Hq0.
  - rewrite Hq. cbn [HandlerFacts.serveAll]. rewrite run_bind.
    set (h1 := set_written _ _).
    change (serveOne r hasBroker order reliable ["EXEC"] h1) with
      (let* out := handleExec (L := L) r order h1 in respondMany reliable (fst out) (snd out)).
    rewrite run_bind. unfold handleExec. unfold h1 at 1. cbn [inMulti set_written set_tx negb].
    unfold h1 at 1. cbn [txErrors set_written set_tx Z.ltb Z.compare].
    rewrite run_bind. unfold watchDirty. unfold h1 at 1 2.
    cbn [watchedKeys set_written set_tx]. rewrite Hw, dom_empty_L, elements_empty, Ho.
    cbn [dirtyLoop run]. rewrite run_bind, run_execLoop. unfold h1 at 1.
    cbn [txQueue set_written set_tx].
    rewrite Hrun. cbn [run fst snd respondMany]. rewrite run_bind. unfold respond, h1. cbn. rewrite Hs.
    cbn. rewrite itoa_FormatInt by apply llen_nonneg. unfold llen. rewrite List.length_map.
    unfold set_written, resetTx, set_watched, set_tx. cbn. by rewrite <- app_assoc.
Qed.

End Transactions.

(** The second command finds a string where it wants a list. *)
Definition sampleTx : list (list string) := [["SET"; "a"; "1"]; ["LPUSH"; "a"; "x"]; ["INCR"; "a"]].

Lemma transaction_correct_witness :
  let w := mkWorld NewMemoryStore samplePubSub (Open "" SyncNo) in
  exists i' w',
    run (serveAll sampleRouter true id reliable (["MULTI"] :: sampleTx ++ [["EXEC"]]) newHandler)
      (fun _ => 0) 0 w =
    Ret (set_written (Serialize (SimpleString "OK") ::
           repeat (Serialize (SimpleString "QUEUED")) 3 ++
           [Serialize (Array [SimpleString "OK"; Error (errText ErrWrongType); Integer 2])])
         (resetTx newHandler), i', w').
Proof.
  intros w. eexists _, _.
  eapply (transaction_correct sampleRouter true id sampleTx newHandler (fun _ => 0) 0 w);
    try reflexivity.
  apply Forall_cons_2; [by left|]. apply Forall_cons_2; [by right|].
  apply Forall_cons_2; [by left|]. apply Forall_nil_2.
Defined.

(** An unknown command is queued like any other and EXEC runs the rest: [txErrors] is never
    incremented, and the abort that is documented for it does not happen. *)
Lemma EXEC_runs_despite_unknown :
  let w := mkWorld NewMemoryStore samplePubSub (Open "" SyncNo) in
  exists h i' w',
    run (serveAll sampleRouter true id reliable
           [["MULTI"]; ["SET"; "k1"; "v1"]; ["NOTACOMMAND"; "arg"]; ["EXEC"]] newHandler)
      (fun _ => 0) 0 w = Ret (h, i', w') /\
    Get 0 "k1" (wStore w') = Some "v1".
Proof. eexists _, _, _. split; vm_compute; reflexivity. Qed.

Lemma EXEC_correct_witness :
  exists i', run (handleExec sampleRouter id
                    (set_watched {["k" := 7]} (set_tx true sampleTx 0 newHandler)))
               (fun _ => 0) 0
               (mkWorld NewMemoryStore samplePubSub (Open "" SyncNo)) =
    Ret (([Serialize NullArray],
          resetTx (set_watched {["k" := 7]} (set_tx true sampleTx 0 newHandler))), i',
         mkWorld NewMemoryStore samplePubSub (Open "" SyncNo)).
Proof.
  pose proof (EXEC_correct sampleRouter id
    (set_watched {["k" := 7]} (set_tx true sampleTx 0 newHandler)) (fun _ => 0) 0
    (mkWorld NewMemoryStore samplePubSub (Open "" SyncNo))
    eq_refl eq_refl (fun l => Permutation_refl l)) as Hx.
  rewrite decide_False in Hx; [exact Hx|]. intros Hf. by specialize (Hf "k" 7 eq_refl).
Defined.
