(* ===== verification/Session.v ===== *)
(** * Sessions: from the bytes a client sends to the bytes it receives

    The connection handler, the parser, the router and the serializer put together: a
    client that pipelines commands receives exactly one well-formed reply for each, in the
    order of the commands, transactions included. *)

From S2P Require Import Prelude GoLib Protocol Glob Store Cmd Walk StringCmds PubSub Router.
From S2P Require Import Persistence Records Recovery Replies Framing Panics Handler HandlerFacts.
Open Scope cmd_scope.

(** The commands of the subscription mode, whose replies go through the inbox. *)
Definition subscription (args : list string) : bool :=
  oneOf (ToUpper (arg args 0)) ["SUBSCRIBE"; "UNSUBSCRIBE"; "PSUBSCRIBE"; "PUNSUBSCRIBE"].

(** A command the router answers with a frame. *)
Definition answerable (args : list string) : Prop := quotable args /\ risky args = false.

Section Session.

Context {L : Type} `{Appender L} (r : Router) (hasBroker : bool)
  (order : list string -> list string) (shuffle_perm : forall l, shuffle (env r) l ≡ₚ l).

(** The state of a connection between two commands. *)
Definition idle (h : conn) : Prop := sub h = None /\ Forall answerable (txQueue h).

Lemma idle_reset b n h : idle h -> idle (set_tx b [] n h).
Proof using Type. clear shuffle_perm. intros [Hs _]. by split; [|constructor]. Qed.

Lemma idle_watched m h : idle h -> idle (set_watched m h).
Proof using Type. done. Qed.

Local Hint Resolve idle_reset idle_watched : core.

(** ** EXEC *)

Lemma execLoop_replies queue :
  Forall answerable queue ->
  results (fun out => exists resps, out = List.map Serialize resps /\ Forall shaped resps)
    (execLoop (L := L) r queue).
Proof using Type.
  clear shuffle_perm. induction 1 as [|args queue [Ha _] Hq IH]; cbn [execLoop].
  - apply results_done. by exists [].
  - apply results_bind. eapply results_mono; [by apply Dispatch_shaped|].
    intros resp Hr. apply results_bind. eapply results_mono; [apply IH|].
    intros out (resps & -> & Hrs). apply results_done. exists (resp :: resps).
    split; [done|]. by constructor.
Qed.

Lemma handleExec_replies h :
  idle h ->
  results (fun out => exists resp h1, out = ([Serialize resp], h1) /\ shaped resp /\ idle h1 /\
       written h1 = written h) (handleExec (L := L) r order h).
Proof using Type.
  clear shuffle_perm. intros [Hs Hq]. unfold handleExec.
  case_match; [apply results_done; by do 2 eexists|]. cbv zeta.
  case_match; [apply results_done; by do 2 eexists|].
  apply results_bind. eapply results_mono; [apply results_any|]. intros dirty _. destruct dirty.
  { apply results_done. by do 2 eexists. }
  apply results_bind. eapply results_mono; [by apply execLoop_replies|].
  intros out (resps & -> & Hrs). apply results_done.
  exists (Array resps), (resetTx h). split_and!; [|by apply shaped_array|done..].
  rewrite itoa_FormatInt by apply llen_nonneg. unfold llen. by rewrite List.length_map.
Qed.

(** ** One command *)

(** The reply to a command, and the handler before it is written. *)
Definition replyTo (args : list string) (h : conn) : cmd (World L) (string * conn) :=
  let name := ToUpper (arg args 0) in
  if String.eqb name "MULTI" then let '(resp, h) := handleMulti h in Done (Serialize resp, h)
  else if String.eqb name "EXEC" then
    let* out := handleExec r order h in Done (List.hd "" (fst out), snd out)
  else if String.eqb name "DISCARD" then
    let '(resp, h) := handleDiscard h in Done (Serialize resp, h)
  else if String.eqb name "WATCH" then
    let* out := handleWatch (argsFrom 1 args) h in Done (Serialize (fst out), snd out)
  else if String.eqb name "UNWATCH" then
    Done (Serialize (SimpleString "OK"), set_watched ∅ h)
  else if inMulti h then
    Done (Serialize (SimpleString "QUEUED"),
          set_tx (inMulti h) (txQueue h ++ [args]) (txErrors h) h)
  else
    let* resp := Dispatch r args in Done (Serialize resp, h).

(** EXEC gives one string. *)
Lemma handleExec_single h clock i (w : World L) out h1 i1 w1 :
  run (handleExec r order h) clock i w = Ret ((out, h1), i1, w1) -> exists s, out = [s].
Proof using Type.
  clear shuffle_perm. unfold handleExec. case_match; [intros [= <- _ _ _]; eauto|]. cbv zeta.
  case_match; [intros [= <- _ _ _]; eauto|]. rewrite run_bind.
  destruct (run (watchDirty order h) clock i w) as [[[dirty i2] w2]|?| |]; try done.
  destruct dirty; [intros [= <- _ _ _]; eauto|]. rewrite run_bind.
  destruct (run (execLoop r _) clock i2 w2) as [[[results i3] w3]|?| |]; try done.
  intros [= <- _ _ _]. eauto.
Qed.

Lemma respondMany_one tcp s h clock i (w : World L) :
  run (respondMany tcp [s] h) clock i w = run (respond tcp s h) clock i w.
Proof using Type.
  clear shuffle_perm. cbn [respondMany]. rewrite run_bind.
  by destruct (run (respond tcp s h) clock i w) as [[[[[] h1] i1] w1]|?| |].
Qed.

Lemma serveOne_replyTo tcp args h clock i (w : World L) :
  sub h = None -> subscription args = false ->
  run (serveOne r hasBroker order tcp args h) clock i w =
  run (let* out := replyTo args h in respond tcp (fst out) (snd out)) clock i w.
Proof using Type.
  clear shuffle_perm. intros Hs Hn. unfold subscription, oneOf in Hn. cbn [existsb] in Hn.
  rewrite !orb_false_iff in Hn. destruct Hn as (H1 & H2 & H3 & H4 & _).
  unfold serveOne, replyTo. cbv zeta. rewrite H1, H2, H3, H4.
  case_match; [by destruct (handleMulti h)|]. case_match.
  { rewrite !run_bind.
    destruct (run (handleExec r order h) clock i w) as [[[[out h1] i1] w1]|?| |] eqn:E; try done.
    destruct (handleExec_single _ _ _ _ _ _ _ _ E) as [s ->]. cbn [run fst snd List.hd].
    apply respondMany_one. }
  case_match; [by destruct (handleDiscard h)|].
  case_match; [rewrite !run_bind; by destruct (run (handleWatch _ h) clock i w) as [[[out ?] ?]|?| |]|].
  case_match; [done|]. rewrite bool_decide_false by (rewrite Hs; by intros []).
  case_match; [done|]. rewrite !run_bind.
  by destruct (run (Dispatch r args) clock i w) as [[[out ?] ?]|?| |].
Qed.

Ltac replied := apply results_done; cbn [fst snd]; split_and!; [by auto|done|eexists; split; [|reflexivity]; done].

Lemma replyTo_replies args h :
  idle h -> answerable args ->
  results (fun out => idle (snd out) /\ written (snd out) = written h /\
    exists resp, shaped resp /\ fst out = Serialize resp) (replyTo args h).
Proof using Type.
  clear shuffle_perm. intros Hi Ha. unfold replyTo. cbv zeta.
  case_match; [unfold handleMulti; destruct (inMulti h); replied|].
  case_match.
  { apply results_bind. eapply results_mono; [by apply handleExec_replies|].
    intros out (resp & h1 & -> & Hr & Hi1 & Hw). replied. }
  case_match; [unfold handleDiscard; destruct (inMulti h); replied|].
  case_match.
  { unfold handleWatch. apply results_bind. case_match; [apply results_done; replied|].
    case_match; [apply results_done; replied|]. apply results_bind.
    eapply results_mono; [apply results_any|]. intros m _. apply results_done. replied. }
  case_match; [replied|]. destruct Hi as [Hs Hq]. case_match.
  - apply results_done. cbn [fst snd]. split_and!; [|done|eexists; split; [|reflexivity]; done].
    split; [done|]. cbn. apply Forall_app. split; [done|]. by apply Forall_singleton.
  - apply results_bind. eapply results_mono; [apply Dispatch_shaped, Ha|].
    intros resp Hr. apply results_done. cbn [fst snd]. split_and!; [done|done|by exists resp].
Qed.

Lemma watch_total keys m : never_panics (watchLoop (L := L) keys m).
Proof using Type.
  clear shuffle_perm. revert m. induction keys as [|k keys IH]; intros m; cbn [watchLoop]; [done|].
  unfold KeyVersion, onStore. totals_with ltac:(first [apply IH|apply total_zoom]).
Qed.

Lemma dirty_total keys m : never_panics (dirtyLoop (L := L) keys m).
Proof using Type.
  clear shuffle_perm. induction keys as [|k keys IH]; cbn [dirtyLoop]; [done|].
  unfold KeyVersion, onStore. totals_with ltac:(first [apply IH|apply total_zoom]).
Qed.

Lemma execLoop_total queue : Forall answerable queue -> never_panics (execLoop (L := L) r queue).
Proof using shuffle_perm.
  induction 1 as [|args queue [_ Ha] _ IH]; cbn [execLoop]; [done|].
  apply total_bind; [by apply Dispatch_total|]. intros resp. by apply total_bind.
Qed.

Lemma replyTo_total args h : idle h -> answerable args -> never_panics (replyTo args h).
Proof using shuffle_perm.
  intros [Hs Hq] [_ Ha]. unfold replyTo, handleExec, handleWatch, watchDirty.
  totals_with ltac:(first [apply watch_total|apply dirty_total|by apply execLoop_total
    |by apply Dispatch_total]).
Qed.

(** A reply is computed without regard to the connection, and then written. *)
Lemma serveOne_writes args h clock i (w : World L) :
  idle h -> answerable args -> subscription args = false ->
  exists resp h1 i1 w1, idle h1 /\ written h1 = written h /\ shaped resp /\
    forall tcp, run (serveOne r hasBroker order tcp args h) clock i w =
      match tcp (length (written h)) with
      | None => Ret ((false, set_written (written h ++ [Serialize resp]) h1), i1, w1)
      | Some k => Ret ((true, set_written (written h ++ [stake k (Serialize resp)]) h1), i1, w1)
      end.
Proof using shuffle_perm.
  intros Hi Ha Hn. destruct (total_run _ clock i w (replyTo_total args h Hi Ha)) as ([s h1] & i1 & w1 & E).
  destruct (results_post _ _ w (replyTo_replies args h Hi Ha) _ _ _ _ _ E) as (Hi1 & Hw & resp & Hr & Hs).
  cbn [fst snd] in *. subst s. exists resp, h1, i1, w1. split_and!; [done..|]. intros tcp.
  rewrite serveOne_replyTo by (done || apply Hi). rewrite run_bind, E. unfold respond. cbn [fst snd].
  rewrite (proj1 Hi1), Hw. by destruct (tcp _).
Qed.

(** ** Many commands *)

(** What a client sends for its commands. *)
Definition request (cmds : list (list string)) : string :=
  sconcat (List.map (fun args => Serialize (command_resp args)) cmds).

(** The replies of a client that can read them: [n] values from the bytes received. *)
Definition readReplies (n : nat) (received : string) : outcome perr (list Response * string) :=
  readElems ReadValue n (Z.of_nat n) received.

Lemma readReplies_all replies :
  Forall shaped replies -> Forall fits replies ->
  readReplies (length replies) (sconcat (List.map Serialize replies)) = Ret (replies, EmptyString).
Proof using Type.
  clear shuffle_perm. unfold readReplies. intros Hs Hf.
  induction Hs as [|resp replies Hr Hs IH]; [done|]. apply Forall_cons in Hf as [Hf1 Hf].
  cbn [length List.map sconcat readElems]. zfalse (Z.of_nat (S (length replies)) <=? 0).
  rewrite ReadValue_Serialize by by apply shaped_wire_ok. cbn [obind].
  replace (Z.of_nat (S (length replies)) - 1) with (Z.of_nat (length replies)) by lia.
  by rewrite IH.
Qed.

Lemma request_length cmds : (length cmds <= String.length (request cmds))%nat.
Proof using Type.
  clear shuffle_perm. unfold request. induction cmds as [|args cmds IH]; cbn [List.map sconcat length]; [lia|].
  rewrite slength_app. pose proof (Serialize_nonempty (command_resp args)). lia.
Qed.

Lemma serveLoop_replies cmds fuel h clock i (w : World L) :
  (length cmds < fuel)%nat -> idle h ->
  Forall args_ok cmds -> Forall answerable cmds -> forallb (fun c => negb (subscription c)) cmds = true ->
  exists h' i' w' replies,
    run (serveLoop r hasBroker order reliable fuel (request cmds) h) clock i w = Ret (h', i', w') /\
    sub h' = None /\ written h' = written h ++ List.map Serialize replies /\
    length replies = length cmds /\ Forall shaped replies.
Proof using shuffle_perm.
  revert fuel h i w. induction cmds as [|args cmds IH]; intros [|fuel] h i w Hf Hi Ho Ha Hn; [cbn in Hf; lia| |cbn in Hf; lia|].
  - exists h, i, w, []. split; [done|]. cbn. rewrite app_nil_r. split_and!; [apply Hi|done..].
  - apply Forall_cons in Ho as [Ho1 Ho]. apply Forall_cons in Ha as [Ha1 Ha]. cbn [forallb] in Hn.
    apply andb_true_iff in Hn as [Hn1%negb_true_iff Hn]. unfold request. cbn [List.map sconcat serveLoop].
    rewrite ReadCommand_Serialize by done. rewrite run_bind.
    destruct (serveOne_writes args h clock i w Hi Ha1 Hn1) as (resp & h1 & i1 & w1 & Hi1 & _ & Hr & E).
    rewrite E. cbn [reliable fst snd].
    destruct (IH fuel (set_written (written h ++ [Serialize resp]) h1) i1 w1)
      as (h' & i' & w' & replies & Hrun & Hs & Hw & Hlen & Hsh); [cbn in Hf; lia|done..|].
    exists h', i', w', (resp :: replies). split; [exact Hrun|]. split; [done|].
    split; [rewrite Hw; cbn; by rewrite <- app_assoc|]. split; [cbn; congruence|by constructor].
Qed.

(** A session alone, from bytes to bytes.  A client that sends any commands (outside the
    subscription mode and [risky], names and subcommands without line feeds) in one
    stream, transactions included, receives exactly one reply for each, in order: the
    handler returns at the end of the stream, and the bytes it has written are read back
    as that many values and nothing else. *)
Theorem session_correct cmds clock i (w : World L) :
  Forall args_ok cmds -> Forall answerable cmds ->
  forallb (fun c => negb (subscription c)) cmds = true ->
  exists h' i' w' replies,
    run (serve r hasBroker order reliable (request cmds)) clock i w = Ret (h', i', w') /\
    written h' = List.map Serialize replies /\ length replies = length cmds /\
    (Forall fits replies ->
     readReplies (length cmds) (sconcat (written h')) = Ret (replies, EmptyString)).
Proof using shuffle_perm.
  intros Ho Ha Hn. pose proof (request_length cmds).
  destruct (serveLoop_replies cmds (S (String.length (request cmds))) newHandler clock i w)
    as (h' & i' & w' & replies & Hrun & Hs & Hw & Hlen & Hsh); [lia|by split; [|constructor]|done..|].
  exists h', i', w', replies. unfold serve. rewrite run_bind, Hrun.
  unfold cleanupSubscriptions. rewrite Hs. cbn [run cbind]. split_and!; [done|done|done|].
  intros Hf. rewrite Hw, <- Hlen. by apply readReplies_all.
Qed.

(** ** Many clients *)

(** What a client may send: commands that can be read, that have answers, and that do not
    subscribe. *)
Definition session_ok (cmds : list (list string)) : Prop :=
  Forall args_ok cmds /\ Forall answerable cmds /\
  forallb (fun c => negb (subscription c)) cmds = true.

(** After a command: the connection is idle again, and one more reply is written. *)
Definition replied_to (h : conn) (out : bool * conn) : Prop :=
  fst out = false /\ idle (snd out) /\
  exists resp, shaped resp /\ written (snd out) = written h ++ [Serialize resp].

Lemma respond_replied h0 h resp :
  idle h -> written h = written h0 -> shaped resp ->
  results (replied_to h0) (respond (L := L) reliable (Serialize resp) h).
Proof using Type.
  clear shuffle_perm. intros [Hs Hq] Hw Hr. unfold respond. rewrite Hs. apply results_done.
  split_and!; [done|done|]. exists resp. cbn. by rewrite Hw.
Qed.

Lemma serveOne_replies args h :
  idle h -> answerable args -> subscription args = false ->
  results (replied_to h) (serveOne (L := L) r hasBroker order reliable args h).
Proof using Type.
  clear shuffle_perm. intros Hi Ha Hn. unfold subscription, oneOf in Hn. cbn [existsb] in Hn.
  rewrite !orb_false_iff in Hn. destruct Hn as (H1 & H2 & H3 & H4 & _).
  unfold serveOne. cbv zeta. rewrite H1, H2, H3, H4.
  case_match; [unfold handleMulti; destruct (inMulti h); apply respond_replied; by auto|].
  case_match.
  { apply results_bind. eapply results_mono; [by apply handleExec_replies|].
    intros out (resp & h1 & -> & Hr & Hi1 & Hw). cbn [fst snd respondMany]. apply results_bind.
    eapply results_mono; [by apply (respond_replied h)|]. intros out (Hf & Hi2 & Hw2).
    rewrite Hf. by apply results_done. }
  case_match; [unfold handleDiscard; destruct (negb _); apply respond_replied; by auto|].
  case_match.
  { unfold handleWatch. apply results_bind.
    case_match; [apply results_done, respond_replied; by auto|].
    case_match; [apply results_done, respond_replied; by auto|]. apply results_bind.
    eapply results_mono; [apply results_any|]. intros m _. apply results_done, respond_replied; by auto. }
  case_match; [apply respond_replied; by auto|].
  rewrite bool_decide_false by (rewrite (proj1 Hi); by intros []). case_match.
  - destruct Hi as [Hs Hq]. apply respond_replied; [|done|done]. split; [done|]. cbn.
    apply Forall_app. split; [done|]. by apply Forall_singleton.
  - apply results_bind. eapply results_mono; [apply Dispatch_shaped, Ha|].
    intros resp Hr. by apply respond_replied.
Qed.

Lemma respond_total tcp s h : never_panics (respond (L := L) tcp s h).
Proof using Type.
  clear shuffle_perm. unfold respond, onPubSub.
  totals_with ltac:(apply total_zoom).
Qed.

Lemma respondMany_total tcp parts h : never_panics (respondMany (L := L) tcp parts h).
Proof using Type.
  clear shuffle_perm. revert h. induction parts as [|p parts IH]; intros h; cbn [respondMany]; [done|].
  apply total_bind; [apply respond_total|]. intros out. by destruct (fst out).
Qed.

Lemma serveOne_total tcp args h :
  idle h -> answerable args -> subscription args = false ->
  never_panics (serveOne (L := L) r hasBroker order tcp args h).
Proof using shuffle_perm.
  intros [Hs Hq] [_ Ha] Hn. unfold subscription, oneOf in Hn. cbn [existsb] in Hn.
  rewrite !orb_false_iff in Hn. destruct Hn as (H1 & H2 & H3 & H4 & _).
  unfold serveOne, tryRespond, handleExec, handleWatch, watchDirty. cbv zeta.
  rewrite H1, H2, H3, H4.
  totals_with ltac:(first [apply respond_total|apply respondMany_total|apply watch_total
    |apply dirty_total|by apply execLoop_total|by apply Dispatch_total]).
Qed.

(** The replies a connection has written since [h]. *)
Definition answered (n : nat) (h h' : conn) : Prop :=
  sub h' = None /\ exists replies, Forall shaped replies /\ length replies = n /\
    written h' = written h ++ List.map Serialize replies.

Lemma serveLoop_returns cmds fuel h :
  (length cmds < fuel)%nat -> idle h -> session_ok cmds ->
  returns (answered (length cmds) h)
    (serveLoop (L := L) r hasBroker order reliable fuel (request cmds) h).
Proof using shuffle_perm.
  revert fuel h. induction cmds as [|args cmds IH]; intros [|fuel] h Hf Hi (Ho & Ha & Hn);
    [cbn in Hf; lia| |cbn in Hf; lia|].
  - cbn. split; [apply Hi|]. exists []. by rewrite app_nil_r.
  - apply Forall_cons in Ho as [Ho1 Ho]. apply Forall_cons in Ha as [Ha1 Ha]. cbn [forallb] in Hn.
    apply andb_true_iff in Hn as [Hn1%negb_true_iff Hn]. unfold request. cbn [List.map sconcat serveLoop].
    rewrite ReadCommand_Serialize by done. eapply (returns_bind (replied_to h)).
    + apply returns_intro; [by apply serveOne_total|by apply serveOne_replies].
    + intros [b h1] (-> & Hi1 & resp & Hr & Hw). cbn [fst snd] in *.
      assert (returns (answered (length cmds) h1)
        (serveLoop (L := L) r hasBroker order reliable fuel (request cmds) h1)) as Hrest
        by (apply IH; [cbn in Hf; lia|done|by split]).
      eapply returns_mono; [exact Hrest|].
      intros h2 (Hs & replies & Hall & Hlen & Hw2). split; [done|]. exists (resp :: replies).
      split_and!; [by constructor|cbn; congruence|]. rewrite Hw2, Hw. cbn. by rewrite <- app_assoc.
Qed.

(** C9: sessions, from bytes to bytes.  Any number of clients each send commands in one
    stream, transactions included (but outside the subscription mode and [risky], names and
    subcommands without line feeds), and the steps of their connections interleave in any
    way.  No interleaving is endless; at every point of one, the handler of each client has
    returned or can go on; and when it has returned, the client has received exactly one
    reply for each of its commands, in order: the bytes written to it are read back as that
    many values and nothing else. *)
Theorem sessions_correct clients (w : World L) pool w' :
  Forall session_ok clients ->
  psteps (List.map (fun cmds => serve r hasBroker order reliable (request cmds)) clients, w)
    (pool, w') ->
  Acc after (pool, w') /\
  forall j cmds, clients !! j = Some cmds ->
    (exists h replies, pool !! j = Some (Done h) /\
       written h = List.map Serialize replies /\ length replies = length cmds /\
       (Forall fits replies ->
        readReplies (length cmds) (sconcat (written h)) = Ret (replies, EmptyString))) \/
    (forall t, exists c w2, pstep (pool, w') t (<[j := c]> pool, w2)).
Proof using shuffle_perm.
  intros Hok Hs. split; [apply pool_terminates|]. intros j cmds Hj.
  assert (session_ok cmds) as Hc by (by eapply Forall_lookup_1).
  destruct (returns_pool (answered (length cmds) newHandler) _ _ _ _ j
    (serve r hasBroker order reliable (request cmds)) Hs) as [(h & Hh & _ & replies & Hr & Hl & Hw)|Hstep].
  - by rewrite list_lookup_fmap, Hj.
  - unfold serve. eapply returns_bind.
    + apply serveLoop_returns; [|by split; [|constructor]|exact Hc]. pose proof (request_length cmds). lia.
    + intros h Ha. unfold cleanupSubscriptions. by rewrite (proj1 Ha).
  - left. exists h, replies. cbn in Hw. split_and!; [done..|]. intros Hf. rewrite Hw, <- Hl.
    by apply readReplies_all.
  - by right.
Qed.

(** ** Broken connections *)

Lemma serveLoop_broken tcp m b cmds fuel fuel' h clock i (w : World L) :
  (length cmds < fuel)%nat -> (S m < fuel')%nat -> (m < length cmds)%nat -> idle h ->
  Forall args_ok cmds -> Forall answerable cmds -> forallb (fun c => negb (subscription c)) cmds = true ->
  (forall j, (j < m)%nat -> tcp (length (written h) + j)%nat = None) ->
  tcp (length (written h) + m)%nat = Some b ->
  exists h' i' w' front last,
    run (serveLoop r hasBroker order reliable fuel' (request (take (S m) cmds)) h) clock i w =
      Ret (set_written (front ++ [last]) h', i', w') /\
    run (serveLoop r hasBroker order tcp fuel (request cmds) h) clock i w =
      Ret (set_written (front ++ [stake b last]) h', i', w') /\
    sub h' = None /\ length front = (length (written h) + m)%nat.
Proof using shuffle_perm.
  revert m fuel fuel' h i w. induction cmds as [|args cmds IH];
    intros m [|fuel] [|fuel'] h i w Hf Hf' Hm Hi Ho Ha Hn Hok Hbad; try (cbn in *; lia).
  apply Forall_cons in Ho as [Ho1 Ho]. apply Forall_cons in Ha as [Ha1 Ha]. cbn [forallb] in Hn.
  apply andb_true_iff in Hn as [Hn1%negb_true_iff Hn]. rewrite firstn_cons. unfold request.
  cbn [List.map sconcat serveLoop]. rewrite !ReadCommand_Serialize by done. rewrite !run_bind.
  destruct (serveOne_writes args h clock i w Hi Ha1 Hn1) as (resp & h1 & i1 & w1 & Hi1 & _ & Hr & E).
  rewrite !E. cbn [reliable fst snd]. destruct m as [|m].
  - rewrite Nat.add_0_r in Hbad. rewrite Hbad. cbn [fst snd take List.map sconcat].
    exists h1, i1, w1, (written h), (Serialize resp). rewrite Nat.add_0_r.
    split_and!; [|done|apply Hi1|done]. by destruct fuel' as [|fuel']; [cbn in Hf'; lia|].
  - specialize (Hok O) as Hok0. rewrite Nat.add_0_r in Hok0. rewrite Hok0 by lia. cbn [fst snd].
    destruct (IH m fuel fuel' (set_written (written h ++ [Serialize resp]) h1) i1 w1)
      as (h' & i' & w' & front & last & H1 & H2 & H3 & H4);
      [cbn in *; lia|cbn in *; lia|cbn in *; lia|done..| | |].
    + intros j Hj. cbn. rewrite length_app. cbn. replace (length (written h) + 1 + j)%nat with
        (length (written h) + S j)%nat by lia. apply Hok. lia.
    + cbn. rewrite length_app. cbn. by replace (length (written h) + 1 + m)%nat with
        (length (written h) + S m)%nat by lia.
    + exists h', i', w', front, last. split_and!; [exact H1|exact H2|done|].
      rewrite H4. cbn. rewrite length_app. cbn. lia.
Qed.

(** C10: a connection that breaks. One client, served alone, sends commands in one
    stream, none of them a subscription command or [risky] and with names and
    subcommands without line feeds, and the write of the reply to command [m] is the
    first to fail, after [b] bytes. The handler returns, and the server is left
    exactly as after the first [m + 1] commands on a connection that does not break:
    that command has taken effect, none of the later ones has, and what the client
    received are the first [m] replies and [b] bytes of the next. *)
Theorem broken_connection tcp m b cmds clock i (w : World L) :
  Forall args_ok cmds -> Forall answerable cmds ->
  forallb (fun c => negb (subscription c)) cmds = true -> (m < length cmds)%nat ->
  (forall j, (j < m)%nat -> tcp j = None) -> tcp m = Some b ->
  exists h h' i' w' front last,
    run (serve r hasBroker order reliable (request (take (S m) cmds))) clock i w =
      Ret (h, i', w') /\
    run (serve r hasBroker order tcp (request cmds)) clock i w = Ret (h', i', w') /\
    written h = front ++ [last] /\ written h' = front ++ [stake b last] /\ length front = m.
Proof using shuffle_perm.
  intros Ho Ha Hn Hm Hok Hbad. pose proof (request_length cmds) as Hl.
  pose proof (request_length (take (S m) cmds)) as Hl'. rewrite length_take in Hl'.
  destruct (serveLoop_broken tcp m b cmds (S (String.length (request cmds)))
    (S (String.length (request (take (S m) cmds)))) newHandler clock i w)
    as (h' & i' & w' & front & last & H1 & H2 & Hs & Hlen); try done; [lia..|].
  exists (set_written (front ++ [last]) h'), (set_written (front ++ [stake b last]) h'), i', w', front, last.
  unfold serve. rewrite !run_bind, H1, H2. unfold cleanupSubscriptions. cbn [sub set_written].
  rewrite Hs. done.
Qed.

End Session.

Definition sampleSession : list (list string) :=
  [["PING"]; ["MULTI"]; ["SET"; "a"; CRLF]; ["GET"; "a"]; ["EXEC"]; ["NOSUCH"]].

Lemma session_correct_witness :
  exists h' i' w' replies,
    run (serve sampleRouter true id reliable (request sampleSession)) (fun _ => 0) 0
      (mkWorld NewMemoryStore samplePubSub (Open "" SyncNo)) = Ret (h', i', w') /\
    written h' = List.map Serialize replies /\ length replies = 6%nat /\
    (Forall fits replies -> readReplies 6 (sconcat (written h')) = Ret (replies, EmptyString)).
Proof.
  apply (session_correct sampleRouter true id (fun l => Permutation_refl l) sampleSession).
  all: by repeat (constructor || split).
Defined.

(** The same session beside another client, step by step in turn. *)
Definition sampleSessions : list (list (list string)) :=
  [sampleSession; [["SET"; "a"; "b"]; ["WATCH"; "a"]; ["GET"; "a"]]].

Definition samplePool : list (cmd (World AOF) conn) * World AOF :=
  runPool (concat (replicate 20 [0; 1]%nat)) 0
    (List.map (fun cmds => serve sampleRouter true id reliable (request cmds)) sampleSessions)
    (mkWorld NewMemoryStore samplePubSub (Open "" SyncNo)).

Lemma samplePool_steps :
  psteps (List.map (fun cmds => serve sampleRouter true id reliable (request cmds)) sampleSessions,
          mkWorld NewMemoryStore samplePubSub (Open "" SyncNo)) (fst samplePool, snd samplePool).
Proof. unfold samplePool. apply runPool_psteps. Qed.

Lemma sessions_correct_witness :
  Acc after (fst samplePool, snd samplePool) /\
  forall j cmds, sampleSessions !! j = Some cmds ->
    (exists h replies, fst samplePool !! j = Some (Done h) /\
       written h = List.map Serialize replies /\ length replies = length cmds /\
       (Forall fits replies ->
        readReplies (length cmds) (sconcat (written h)) = Ret (replies, EmptyString))) \/
    (forall t, exists c w2,
       pstep (fst samplePool, snd samplePool) t (<[j := c]> (fst samplePool), w2)).
Proof.
  apply (sessions_correct sampleRouter true id (fun l => Permutation_refl l) sampleSessions
    (mkWorld NewMemoryStore samplePubSub (Open "" SyncNo))).
  - by repeat (constructor || split).
  - exact samplePool_steps.
Defined.

(** There both have returned, with one reply per command. *)
Example samplePool_ended :
  (fun c => match c with Done h => Some (length (written h)) | _ => None end) <$> fst samplePool =
    [Some 6%nat; Some 3%nat].
Proof. vm_compute. reflexivity. Qed.

(** The write of the reply to EXEC fails: the transaction has been executed. *)
Lemma broken_connection_witness :
  exists h h' i' w' front last,
    run (serve sampleRouter true id reliable (request (take 5 sampleSession))) (fun _ => 0) 0
      (mkWorld NewMemoryStore samplePubSub (Open "" SyncNo)) = Ret (h, i', w') /\
    run (serve sampleRouter true id (fun n => if decide (n = 4%nat) then Some 3%nat else None)
           (request sampleSession)) (fun _ => 0) 0
      (mkWorld NewMemoryStore samplePubSub (Open "" SyncNo)) = Ret (h', i', w') /\
    written h = front ++ [last] /\ written h' = front ++ [stake 3 last] /\ length front = 4%nat.
Proof.
  apply (broken_connection sampleRouter true id (fun l => Permutation_refl l)
    (fun n => if decide (n = 4%nat) then Some 3%nat else None) 4 3 sampleSession).
  1, 2, 3, 4, 6: by repeat (constructor || split).
  intros j Hj. by rewrite decide_False by lia.
Defined.
