(* ===== verification/Abstraction.v ===== *)
(** * The server on an abstract store

    The whole of a connection, from the bytes it reads to the bytes it writes, uses the store
    through its interface only.  Connections that take turns on MemoryStore therefore behave
    as on an abstract store, a mapping of keys to values with deadlines. *)

From S2P Require Import Prelude GoLib Protocol Store Keyspace Lists Interface StoreSpec StoreRefines.
From S2P Require Import Implements Cmd Expiry StringCmds PubSub Router Persistence Recovery Clients.
From S2P Require Import Handler Session.
Open Scope cmd_scope.
Open Scope go_scope.

Section Connections.

Context {L : Type} `{Appender L} (r : Router) (hasBroker : bool)
  (order : list string -> list string) (tcp : nat -> option nat).

Abbreviation isClient := (client (L := L) (shuffle (env r)) (intN (env r))).

(** Walks over the code of the connection handler; [special] closes the loops it calls. *)
Ltac conns_with special :=
  repeat first
    [ special
    | lazymatch goal with
      | |- client _ _ (cbind _ _) => apply client_bind
      | |- client _ _ (Done _) => exact I
      | |- client _ _ Crash => exact I
      | |- client _ _ (onPubSub _) => apply client_onPubSub
      | |- client _ _ (KeyVersion _) => apply KeyVersion_client
      | |- client _ _ (Dispatch _ _) => apply Dispatch_client
      end
    | progress cbv zeta | progress intros | case_match ].
Ltac conns := conns_with fail.

Lemma respond_client s h : isClient (respond tcp s h).
Proof using Type. unfold respond. conns. Qed.

Lemma respondMany_client parts h : isClient (respondMany tcp parts h).
Proof using Type.
  revert h. induction parts as [|p parts IH]; intros h; cbn [respondMany]; [done|].
  conns_with ltac:(first [apply respond_client|apply IH]).
Qed.

Lemma tryRespond_client s h : isClient (tryRespond tcp s h).
Proof using Type. unfold tryRespond. conns_with ltac:(apply respond_client). Qed.

Lemma watchLoop_client keys watched : isClient (watchLoop keys watched).
Proof using Type.
  revert watched. induction keys as [|k keys IH]; intros watched; cbn [watchLoop]; [done|].
  conns_with ltac:(apply IH).
Qed.

Lemma dirtyLoop_client keys watched : isClient (dirtyLoop keys watched).
Proof using Type. induction keys as [|k keys IH]; cbn [dirtyLoop]; conns_with ltac:(apply IH). Qed.

Lemma execLoop_client queue : isClient (execLoop r queue).
Proof using Type. induction queue as [|args queue IH]; cbn [execLoop]; conns_with ltac:(apply IH). Qed.

Lemma subscribeLoop_client id chans h : isClient (subscribeLoop id chans h).
Proof using Type.
  revert h. induction chans as [|ch chans IH]; intros h; cbn [subscribeLoop];
    unfold onBroker, sendFrame; conns_with ltac:(apply IH).
Qed.

Lemma unsubscribeLoop_client id chans h : isClient (unsubscribeLoop id chans h).
Proof using Type.
  revert h. induction chans as [|ch chans IH]; intros h; cbn [unsubscribeLoop];
    unfold onBroker, sendFrame; conns_with ltac:(apply IH).
Qed.

Lemma psubscribeLoop_client id pats h : isClient (psubscribeLoop id pats h).
Proof using Type.
  revert h. induction pats as [|pat pats IH]; intros h; cbn [psubscribeLoop];
    unfold onBroker, sendFrame; conns_with ltac:(apply IH).
Qed.

Lemma punsubscribeLoop_client id pats h : isClient (punsubscribeLoop id pats h).
Proof using Type.
  revert h. induction pats as [|pat pats IH]; intros h; cbn [punsubscribeLoop];
    unfold onBroker, sendFrame; conns_with ltac:(apply IH).
Qed.

Lemma serveOne_client args h : isClient (serveOne r hasBroker order tcp args h).
Proof using Type.
  unfold serveOne, handleSubscribe, handleUnsubscribe, handlePSubscribe, handlePUnsubscribe,
    handleExec, handleWatch, watchDirty, ensureSubscriber.
  conns_with ltac:(first
    [ apply respond_client | apply respondMany_client | apply tryRespond_client
    | apply watchLoop_client | apply dirtyLoop_client | apply execLoop_client
    | apply subscribeLoop_client | apply unsubscribeLoop_client
    | apply psubscribeLoop_client | apply punsubscribeLoop_client ]).
Qed.

Lemma serveLoop_client fuel input h : isClient (serveLoop r hasBroker order tcp fuel input h).
Proof using Type.
  revert input h. induction fuel as [|fuel IH]; intros input h; cbn [serveLoop]; [done|].
  conns_with ltac:(first [apply serveOne_client|apply IH]).
Qed.

Lemma serve_client input : isClient (serve r hasBroker order tcp input).
Proof using Type.
  unfold serve, cleanupSubscriptions, onBroker.
  conns_with ltac:(apply serveLoop_client).
Qed.

End Connections.

Section Server.

Context {L : Type} `{Appender L} (r : Router) (hasBroker : bool) (order : list string -> list string).

(** A client: the bytes it sends, and which of the writes to it fail ([None]: it succeeds). *)
Record peer : Type := mkPeer {
  input : string;
  writes : nat -> option nat
}.

(** The connections of any number of clients, and the cleanup goroutine. *)
Definition serverPool (peers : list peer) (ticks : nat) : list (cmd (World L) conn) :=
  List.map (fun p => serve r hasBroker order (writes p) (input p)) peers ++
  [let* _ := onStore (StartCleanup ticks) in Done newHandler].

(** Commands depend on the interface of the store, never on a concrete type (store.go):
    whatever bytes clients send, every atomic step of every connection is one call of the
    interface, a reading of the clock, or a step in the broker and the log that neither
    reads nor changes the store; the only other one is the sweep of the cleanup goroutine. *)
Theorem connections_use_interface peers ticks :
  Forall (client (shuffle (env r)) (intN (env r))) (serverPool peers ticks).
Proof using Type.
  apply Forall_app_2; [|apply Forall_singleton, client_bind; [apply client_cleanup|done]].
  apply Forall_map, Forall_forall. intros p _. apply serve_client.
Qed.

(** C2: the server on MemoryStore refines the server on an abstract store. The
    connections of any number of clients, whatever bytes they send and whichever
    writes to them fail, and the cleanup goroutine take turns, in any order and at any
    times. The turns are [safe]: wherever they lead on the abstract state, no program
    panics outside the store (the parser at a length that cannot be allocated, say), a
    step in the broker or the log returns, and a call of the store is one its
    specification covers ([allowed]). Then MemoryStore serves every call of them
    without a panic, and the bytes written to the clients, the messages queued for
    subscribers and the log are those of the same turns on a keyspace (a mapping of
    keys to values with deadlines), which the store represents afterwards. *)
Theorem server_refines peers ticks turns (w : World L) x :
  (forall l, shuffle (env r) l ≡ₚ l) -> (forall i n, 0 < n -> 0 <= intN (env r) i n < n) ->
  models w x -> safe (shuffle (env r)) (intN (env r)) turns (serverPool peers ticks) x ->
  exists pool w' x', serveTurns turns (serverPool peers ticks) w = Ret (pool, w') /\
    abstractTurns (shuffle (env r)) (intN (env r)) turns (serverPool peers ticks, x) (pool, x') /\
    models w' x'.
Proof using Type. intros Hs Hi. by apply turns_refine. Qed.

End Server.

(** ** A sample *)

(** Three clients and the cleanup goroutine: one makes a list and lets it expire, one reads
    it in between, and the last looks for it after the sweep. *)
Definition samplePeers : list peer :=
  [mkPeer (request [["RPUSH"; "l"; "a"; "b"]; ["EXPIRE"; "l"; "1"]]) reliable;
   mkPeer (request [["LRANGE"; "l"; "-1"; "-1"]]) reliable;
   mkPeer (request [["EXISTS"; "l"]]) reliable].
Definition sampleTurns : list (nat * Time) :=
  [(0%nat, 10); (0%nat, 15); (0%nat, 20); (1%nat, 30); (3%nat, 2000000000); (2%nat, 2000000001)].

Definition sampleFresh : World AOF := mkWorld NewMemoryStore samplePubSub (Open "" SyncAlways).
Definition sampleAbstract : AbstractWorld := mkAbstract (fun _ => None) samplePubSub (Open "" SyncAlways).

(** The next turn performs this action. *)
Local Ltac turn act :=
  eapply (safe_step _ _ _ _ _ _ _ _ _ _ act);
  [reflexivity|by intros t w|first [by repeat split|by eexists]|].

Lemma sample_safe :
  safe id (fun _ _ => 0) sampleTurns (serverPool sampleRouter true id samplePeers 1) sampleAbstract.
Proof.
  unfold sampleTurns.
  turn (Calls (L := AOF) (OnList (CRPush "l" ["a"; "b"]))). intros b x (K & [-> ->] & ->).
  turn (Elsewhere (fun _ ps (l : AOF) => Ret (tt, (ps, Append ["RPUSH"; "l"; "a"; "b"] l)))).
  intros [] x (ps & l & [= <- <-] & ->).
  turn (Calls (L := AOF) (OnString (CExpire "l" 1000000000))). intros b x (K & [-> ->] & ->).
  turn (Calls (L := AOF) (OnList (CLRange "l" (-1) (-1)))). intros b x (K & [-> ->] & ->).
  turn (Sweeps (L := AOF)). intros b x ->.
  turn (Calls (L := AOF) (OnString (CExists ["l"]))). done.
Qed.

(** What has been written to a client whose connection has ended. *)
Definition writtenTo (j : nat) (p : may_panic (list (cmd (World AOF) conn) * World AOF)) : string :=
  match p with
  | Ret (pool, _) => match pool !! j with Some (Done h) => sconcat (written h) | _ => "" end
  | _ => ""
  end.

Lemma server_refines_witness :
  exists pool w' x', serveTurns sampleTurns (serverPool sampleRouter true id samplePeers 1) sampleFresh =
      Ret (pool, w') /\ models w' x' /\
    writtenTo 1 (Ret (pool, w')) = Serialize (Array [BulkString "b"]) /\
    writtenTo 2 (Ret (pool, w')) = Serialize (Integer 0).
Proof.
  destruct (server_refines sampleRouter true id samplePeers 1 sampleTurns sampleFresh sampleAbstract)
    as (pool & w' & x' & E & _ & Hm);
    [done|intros; cbn; lia|by split; [apply new_represents|]|exact sample_safe|].
  exists pool, w', x'. split; [exact E|]. split; [exact Hm|]. rewrite <- E. split; vm_compute; reflexivity.
Defined.
