(* ===== verification/Isolation.v ===== *)
(** * Isolation: what WATCH promises

    EXEC compares the version of every watched key with the one WATCH recorded.  The
    comparison is sound for the commands that count: across any interleaving of atomic
    steps of any number of clients, equal versions mean that the key has exactly the value
    and the deadline it had.  The commands of [uncounted] are left out, because they remove
    a key's counter, delete a value without counting or change a deadline without counting
    (see [HDel_version_reuse], [SInterStore_unwatched] and [WATCH_misses_deadline]); so is
    the background sweep.  That a deadline passes between WATCH and EXEC is not noticed. *)

From S2P Require Import Prelude GoLib Floats Protocol Glob Store Keyspace Lists Sets Hashes ZSets Scan Cmd.
From S2P Require Import Walk StringCmds DataCmds ZSetCmds ServerCmds PubSub Router Persistence.
From S2P Require Import Agree Records Recovery Replies Handler HandlerFacts.
Open Scope cmd_scope.

(** ** Versions and values *)

(** What the store holds under a key, in every map: its value and its deadline. *)
Definition data (k : string) (s : MemoryStore) : cell := cell_of s k.

(** [s'] comes from [s] by writes that count: the version of a key grows by at most [n], and
    a key whose version is the same has the same value and deadline. *)
Definition versioned (n : Z) (s s' : MemoryStore) : Prop :=
  forall k, 0 <= Version k s -> Version k s + n < 2 ^ 64 ->
    Version k s <= Version k s' <= Version k s + n /\
    (Version k s' = Version k s -> data k s' = data k s).

Lemma versioned_refl n s : 0 <= n -> versioned n s s.
Proof. intros Hn k H0 H1. split; [lia|done]. Qed.

Lemma versioned_trans n m s s1 s2 :
  0 <= n -> 0 <= m -> versioned n s s1 -> versioned m s1 s2 -> versioned (n + m) s s2.
Proof.
  intros Hn Hm H1 H2 k Hk Hb. destruct (H1 k Hk) as [Hv1 Hd1]; [lia|].
  destruct (H2 k) as [Hv2 Hd2]; [lia..|]. split; [lia|]. intros He.
  rewrite Hd2, Hd1 by lia. done.
Qed.

Lemma versioned_mono n m s s' : n <= m -> versioned n s s' -> versioned m s s'.
Proof.
  intros Hm H k Hk Hb. destruct (H k Hk) as [Hv Hd]; [lia|]. split; [lia|done].
Qed.

(** Writes to the values of the keys [ks] only, before they are counted. *)
Definition touches (ks : list string) (s s' : MemoryStore) : Prop :=
  (forall k, k ∉ ks -> data k s' = data k s) /\ keyVersion s' = keyVersion s.

Lemma touches_Version ks s s' k : touches ks s s' -> Version k s' = Version k s.
Proof. intros [_ Hv]. unfold Version. by rewrite Hv. Qed.

Lemma data_bump k k' s : data k' (bumpVersion k s) = data k' s.
Proof. done. Qed.

Lemma touched_bump k s s1 : touches [k] s s1 -> versioned 1 s (bumpVersion k s1).
Proof.
  intros Ht k' H0 H1. rewrite Version_bump, data_bump, !(touches_Version _ _ _ _ Ht).
  case_decide as E.
  - subst k'. rewrite wrapU64_id by lia. lia.
  - split; [lia|]. intros _. apply Ht. set_solver.
Qed.

Lemma touched_bump2 a b s s1 :
  touches [a; b] s s1 -> versioned 2 s (bumpVersion a (bumpVersion b s1)).
Proof.
  intros Ht k' H0 H1. rewrite !Version_bump, !data_bump, !(touches_Version _ _ _ _ Ht).
  repeat case_decide; subst; try rewrite !wrapU64_id by (try rewrite !wrapU64_id by lia; lia); try lia.
  split; [lia|]. intros _. apply Ht. set_solver.
Qed.

(** One of the two, for a write whose keys are named in the goal. *)
Ltac lookups :=
  repeat first [ rewrite lookup_insert_ne by set_solver | rewrite lookup_delete_ne by set_solver ].
Ltac touch :=
  unfold putList, dropList, putSet, dropSet, putZSet, dropZSet, deleteKey;
  split; [intros k' Hk'; unfold data, cell_of; cbn; repeat case_match; cbn; lookups; done
         |cbn; repeat case_match; done].
Ltac counted :=
  first [ apply versioned_refl; lia
        | eapply versioned_mono; [|apply touched_bump; touch]; lia
        | eapply versioned_mono; [|apply touched_bump2; touch]; lia ].

(** ** The methods *)

(** Every outcome of the method counts. *)
Definition counts {B} (m : Time -> MemoryStore -> may_panic (B * MemoryStore)) : Prop :=
  forall t s b s', m t s = Ret (b, s') -> versioned 2 s s'.

Create HintDb counts.

(** Walks over a method down to its outcomes. *)
Ltac count_method m :=
  intros t s ? s'; unfold m, obind; cbv zeta; repeat case_match; intros; simplify_eq; counted.

Lemma counts_Set k v s : versioned 2 s (Set_ k v s).
Proof. unfold Set_. counted. Qed.

Lemma counts_SetWithTTL t k v ttl s : versioned 2 s (SetWithTTL t k v ttl s).
Proof. unfold SetWithTTL. counted. Qed.

(** A method that cannot panic. *)
Lemma counts_lift {B} (m : Time -> MemoryStore -> B * MemoryStore) :
  (forall t s, versioned 2 s (snd (m t s))) -> counts (lift m).
Proof. intros H t s b s' [= E]. specialize (H t s). by rewrite E in H. Qed.

Ltac count_pure m := apply counts_lift; intros t s; unfold m; cbv zeta; repeat case_match; counted.

Lemma counts_SetAdv k v ttl o : counts (lift (fun t => SetAdv t k v ttl o)).
Proof. count_pure SetAdv. Qed.

Lemma counts_HSet k fs : counts (lift (fun _ => HSet k fs)).
Proof. count_pure HSet. Qed.

Lemma counts_LPush k vs : counts (lift (fun t => LPush t k vs)).
Proof. count_pure LPush. Qed.

Lemma counts_RPush k vs : counts (lift (fun t => RPush t k vs)).
Proof. count_pure RPush. Qed.

Lemma counts_LSet k i v : counts (lift (fun t => LSet t k i v)).
Proof. count_pure LSet. Qed.

Lemma counts_LRem k n v : counts (lift (fun t => LRem t k n v)).
Proof. count_pure LRem. Qed.

Lemma counts_SAdd k ms : counts (lift (fun t => SAdd t k ms)).
Proof. count_pure SAdd. Qed.

Lemma counts_SRem k ms : counts (lift (fun t => SRem t k ms)).
Proof. count_pure SRem. Qed.

Lemma counts_SMove a b m : counts (lift (fun t => SMove t a b m)).
Proof. count_pure SMove. Qed.

Lemma counts_ZAdd k ms nx xx gt lt ch : counts (lift (fun t => ZAdd t k ms nx xx gt lt ch)).
Proof. count_pure ZAdd. Qed.

Lemma counts_ZRem k ms : counts (lift (fun t => ZRem t k ms)).
Proof. count_pure ZRem. Qed.

Lemma counts_LPop k n : counts (fun t => LPop t k n).
Proof. count_method LPop. Qed.

Lemma counts_RPop k n : counts (fun t => RPop t k n).
Proof. count_method RPop. Qed.

Lemma counts_LInsert k b p v : counts (fun t => LInsert t k b p v).
Proof. count_method LInsert. Qed.

Lemma counts_LTrim k a b : counts (fun t => LTrim t k a b).
Proof. count_method LTrim. Qed.

Lemma counts_LMove a b l r : counts (fun t => LMove t a b l r).
Proof. count_method LMove. Qed.

Lemma counts_SPop shuffle k n : counts (fun t => SPop shuffle t k n).
Proof. count_method @SPop. Qed.

Lemma counts_zpop from k n : counts (fun t => zpop from t k n).
Proof. count_method zpop. Qed.

Lemma counts_ZIncrBy k f m : counts (lift (fun t => ZIncrBy t k f m)).
Proof. count_pure ZIncrBy. Qed.

(** DEL counts a key once, however often it is named: it is absent the second time. *)
Lemma typeOf_deleted t k k' s :
  typeOf t k' (bumpVersion k (deleteKey k s)) = if decide (k = k') then TNone else typeOf t k' s.
Proof.
  unfold typeOf, keyExpiredNonStr. cbn. case_decide; [subst; by simplify_map_eq|by lookups].
Qed.

Lemma Del_version t keys s k :
  let s' := snd (Del t keys s) in
  (Version k s' = Version k s /\ data k s' = data k s) \/
  (typeOf t k s <> TNone /\ Version k s' = wrapU64 (Version k s + 1)).
Proof.
  revert s. induction keys as [|k0 keys IH]; intros s; cbn [Del]; [by left|].
  case_decide as Ht; [|apply IH]. specialize (IH (bumpVersion k0 (deleteKey k0 s))).
  destruct (Del t keys _) as [n s']. cbn [snd] in *.
  rewrite typeOf_deleted, Version_bump in IH. cbn [deleteKey] in IH.
  change (Version ?k (deleteKey k0 s)) with (Version k s) in IH.
  case_decide as E.
  - subst k0. right. split; [done|]. destruct IH as [[-> _]|[? _]]; done.
  - destruct IH as [[-> ->]|[? ->]]; [left|by right]. split; [done|]. unfold data, cell_of. cbn. by lookups.
Qed.

Lemma counts_Del keys : counts (lift (fun t => Del t keys)).
Proof.
  apply counts_lift. intros t s k H0 H1.
  destruct (Del_version t keys s k) as [[-> ->]|[_ ->]]; [split; [lia|done]|].
  rewrite wrapU64_id by lia. lia.
Qed.

Lemma counts_Rename a b : counts (fun t => Rename t a b).
Proof.
  intros t s r s'. unfold Rename, obind, renameValue, renameExpiry. cbv zeta.
  repeat case_match; intros; simplify_eq; counted.
Qed.

#[export] Hint Resolve counts_SetAdv counts_HSet counts_LPush counts_RPush counts_LSet counts_LRem
  counts_SAdd counts_SRem counts_SMove counts_ZAdd counts_ZRem counts_LPop counts_RPop
  counts_LInsert counts_LTrim counts_LMove counts_SPop counts_zpop counts_ZIncrBy counts_Del counts_Rename counts_Set counts_SetWithTTL : counts.

(** ** The commands *)

(** The commands that remove counters, delete without counting, or change a deadline
    without counting. *)
Definition uncounted : list string :=
  ["HDEL"; "FLUSHDB"; "FLUSHALL"; "SINTERSTORE"; "SUNIONSTORE"; "SDIFFSTORE";
   "ZUNIONSTORE"; "ZINTERSTORE"; "EXPIRE"; "PEXPIRE"; "EXPIREAT"; "PEXPIREAT"; "PERSIST"; "GETEX"].

Lemma reads_versioned {A} (c : cmd MemoryStore A) : reads_only c -> steps_in (versioned 2) c.
Proof.
  intros Hc. induction c as [a|X f k IH|]; [done| |done]. split.
  - intros t s b s' E. destruct (Hc s) as [Hf _]. rewrite <- (Hf t s b s' eq_refl E). by apply versioned_refl.
  - intros b. apply IH. intros P. apply Hc.
Qed.

Lemma counts_callP {B} (m : Time -> MemoryStore -> may_panic (B * MemoryStore)) :
  counts m -> steps_in (versioned 2) (callP m).
Proof. intros Hm. apply steps_callP. intros t s b s' E. by eapply Hm. Qed.

Lemma counts_call {B} (m : Time -> MemoryStore -> B * MemoryStore) :
  counts (lift m) -> steps_in (versioned 2) (call m).
Proof. apply counts_callP. Qed.

Ltac counting_with special :=
  repeat first
    [ special | apply steps_bind | apply steps_done | apply steps_crash
    | apply steps_query; intros; by apply versioned_refl
    | apply steps_queryP; intros; by apply versioned_refl
    | apply steps_update; intros; solve [auto with counts]
    | apply counts_call; solve [auto with counts]
    | apply counts_callP; solve [auto with counts]
    | progress cbv zeta | progress intros | case_match ].

Lemma msetLoop_counts kvs : steps_in (versioned 2) (msetLoop kvs).
Proof. induction kvs; cbn [msetLoop]; counting_with assumption. Qed.

Lemma storeHandlers_count e :
  Forall (fun nh => oneOf nh.1 uncounted = false -> forall args, steps_in (versioned 2) (nh.2 args))
    (storeHandlers e).
Proof.
  repeat apply Forall_cons_2; try apply Forall_nil_2; cbn [fst snd]; intros Hu; try discriminate Hu;
    clear Hu.
  all: first [ intros args; apply reads_versioned; revert args; read_handler; done
    | intros args; match goal with |- steps_in _ ?c => let h := head_of c in unfold h end;
      unfold handlePop, handleMembers, handleZPop, ZPopMin, ZPopMax, incrBy, expireAt, clockNow;
      counting_with ltac:(first [apply reads_versioned, setOptions_reads
        | apply reads_versioned, getexOptions_reads | apply msetLoop_counts]); done ].
Qed.

(** ** The router *)

Section World.

Context {L : Type} `{Appender L} (r : Router).

Definition versionedW (n : nat) (w w' : World L) : Prop :=
  versioned (2 * Z.of_nat n) (wStore w) (wStore w').

Abbreviation countsW := (steps_in (versionedW 1)).

Lemma versionedW_refl w : versionedW 1 w w.
Proof using Type. by apply versioned_refl. Qed.

Lemma countsW_onStore {A} (c : cmd MemoryStore A) : steps_in (versioned 2) c -> countsW (onStore c).
Proof using Type. apply steps_zoom. by intros s' w. Qed.

(** Programs on the subscribers and the log leave the store alone. *)
Lemma countsW_onPubSub {A} (c : cmd PubSub A) : countsW (onPubSub c).
Proof using Type.
  unfold onPubSub. induction c as [a|X f k IH|]; cbn; [done| |done]. split; [|done].
  intros t w b w'. destruct (f t (wPubSub w)) as [[b1 p1]|?| |]; cbn; try done.
  intros [= <- <-]. by apply versioned_refl.
Qed.

Lemma countsW_append args : countsW (aofAppend (L := L) args).
Proof using Type. apply steps_update. intros t w. by apply versioned_refl. Qed.

Lemma countsW_query {B} (f : Time -> MemoryStore -> B) : countsW (onStore (L := L) (query f)).
Proof using Type. apply countsW_onStore, steps_query. intros s. by apply versioned_refl. Qed.

Lemma countsW_toAOF name args resp : countsW (appendToAOF (L := L) name args resp).
Proof using Type.
  unfold appendToAOF, appendRename, appendDeadline, clockNow.
  repeat first [ apply steps_done | apply countsW_append | apply countsW_query | apply steps_bind
    | apply steps_query; intros; apply versionedW_refl
    | progress cbv zeta | progress intros | case_match ].
Qed.

Lemma countsW_Dispatch args :
  oneOf (ToUpper (arg args 0)) uncounted = false -> countsW (Dispatch (L := L) r args).
Proof using Type.
  intros Hu. destruct args as [|a0 rest]; cbn [Dispatch]; [done|]. cbv zeta.
  destruct (register r (ToUpper a0)) as [h|] eqn:E; [|done]. apply steps_bind.
  - unfold register in E. destruct (String.eqb (ToUpper a0) "PUBLISH").
    + injection E as <-. unfold makePublishHandler.
      repeat (case_match; [done|]). apply steps_bind; [apply countsW_onPubSub|done].
    + destruct (lookupHandler _ _) as [h'|] eqn:Eh; [|done]. injection E as <-.
      apply lookupHandler_elem in Eh. apply countsW_onStore.
      by apply (proj1 (Forall_forall _ _) (storeHandlers_count (env r)) _ Eh).
  - intros resp. apply steps_bind; [|done]. case_match; [apply countsW_toAOF|done].
Qed.

(** A pool of commands after [n] atomic steps. *)
Lemma pool_versioned n cmds (w w' : World L) pool :
  Forall (fun args => oneOf (ToUpper (arg args 0)) uncounted = false) cmds ->
  interleaved n (List.map (Dispatch r) cmds, w) (pool, w') -> versionedW n w w'.
Proof using Type.
  intros Hu Hi. apply (interleaved_in (S := World L) versionedW n _ _) in Hi; [done| | |].
  - intros w0. by apply versioned_refl.
  - intros m w0 w1 w2 H1 H2. unfold versionedW in *.
    replace (2 * Z.of_nat (S m)) with (2 * Z.of_nat 1 + 2 * Z.of_nat m) by lia.
    eapply versioned_trans; [lia|lia|exact H1|exact H2].
  - apply Forall_map. eapply Forall_impl; [exact Hu|]. apply countsW_Dispatch.
Qed.

(** WATCH records the versions of its keys. *)
Lemma run_watchLoop keys watched clock i (w : World L) :
  exists i', run (watchLoop keys watched) clock i w =
    Ret (foldl (fun m k => <[k := Version k (wStore w)]> m) watched keys, i', w).
Proof using Type.
  revert watched i. induction keys as [|k keys IH]; intros watched i; cbn [watchLoop foldl]; [by exists i|].
  rewrite run_bind, run_KeyVersion. apply IH.
Qed.

Lemma watched_versions s keys : forall (m : gmap string Z) k,
  (k ∈ keys \/ m !! k = Some (Version k s)) ->
  foldl (fun m k => <[k := Version k s]> m) m keys !! k = Some (Version k s).
Proof using Type.
  induction keys as [|k0 keys IH]; intros m k; cbn [foldl]; [by intros [?%elem_of_nil|?]|].
  intros Hk. apply IH. destruct (decide (k0 = k)) as [->|Hne]; [right; apply lookup_insert_eq|].
  rewrite lookup_insert_ne by done. set_solver.
Qed.

(** What is seen of a key stays the same as long as no deadline passes. *)
Lemma view_later t t' s k :
  store_wf s -> t <= t' -> (forall v d, view t s k = Some (v, Some d) -> t' <= d) ->
  view t' s k = view t s k.
Proof using Type.
  intros Hs Ht Hd. unfold view in *. destruct (wf_shape s k Hs) as [|v d|v d Hv Hz].
  - done.
  - rewrite !cellView_strCell in *. unfold seen in *. cbn in *. destruct (deadline d) as [x|]; [|done].
    destruct (x <? t) eqn:E1, (x <? t') eqn:E2; try done; zbool; try lia.
    specialize (Hd _ _ eq_refl). lia.
  - rewrite !cellView_aggCell in * by done. unfold seen in *. cbn in *. destruct d as [x|]; [|done].
    destruct (x <? t) eqn:E1, (x <? t') eqn:E2; try done; zbool; try lia.
    specialize (Hd _ _ eq_refl). lia.
Qed.

(** C11: WATCH is sound.  A connection watches some keys; then any other clients take any
    number [n] of atomic steps of any commands that count, interleaved in any way.  If the
    check of EXEC then finds nothing changed (so that the queued commands run), every
    watched key has exactly the value and the deadline it had at the WATCH; so a later
    reading finds what it would have found at the WATCH, unless the deadline of the key has
    passed meanwhile.  A counter would have to go through all 2^64 values to be mistaken. *)
Theorem watch_sound keys cmds (order : list string -> list string) h n clock i (w w' : World L)
    pool resp h1 i1 w1 :
  run (handleWatch keys h) clock i w = Ret ((resp, h1), i1, w1) -> is_error resp = false ->
  Forall (fun args => oneOf (ToUpper (arg args 0)) uncounted = false) cmds ->
  interleaved n (List.map (Dispatch r) cmds, w1) (pool, w') ->
  (forall k, k ∈ keys -> 0 <= Version k (wStore w) < 2 ^ 64 - 2 * Z.of_nat n) ->
  store_wf (wStore w) -> (forall l, order l ≡ₚ l) ->
  forall clock' j j' w'', run (watchDirty order h1) clock' j w' = Ret (false, j', w'') ->
  w1 = w /\ w'' = w' /\ forall k, k ∈ keys ->
    data k (wStore w') = data k (wStore w) /\
    forall t t', t <= t' ->
      (forall v d, view t (wStore w) k = Some (v, Some d) -> t' <= d) ->
      view t' (wStore w') k = view t (wStore w) k.
Proof using Type.
  intros Hw He Hu Hi Hb Hwf Ho clock' j j' w'' Hd. unfold handleWatch in Hw.
  destruct (inMulti h); [injection Hw as <- _ _ _; by vm_compute in He|].
  destruct keys as [|k0 keys']; [injection Hw as <- _ _ _; by vm_compute in He|].
  set (keys := k0 :: keys') in *.
  rewrite run_bind in Hw. destruct (run_watchLoop keys (watchedKeys h) clock i w) as [i2 E].
  rewrite E in Hw. injection Hw as <- <- _ <-. split; [done|].
  unfold watchDirty in Hd. cbn [watchedKeys set_watched] in Hd. set (m := foldl _ _ _) in *.
  destruct (run_dirtyLoop (order (elements (dom m))) m clock' j w') as (j2 & Hrun & _).
  rewrite Hrun in Hd. injection Hd as Hf _ <-. split; [done|]. intros k Hk.
  apply negb_false_iff, (fresh_versions_spec _ _ _ (Ho _)) in Hf.
  assert (m !! k = Some (Version k (wStore w))) as Hm
    by (apply (watched_versions (wStore w) keys (watchedKeys h)); by left).
  destruct (pool_versioned n cmds w w' pool Hu Hi k) as [_ Heq];
    [apply Hb; done|destruct (Hb k Hk); lia|].
  assert (data k (wStore w') = data k (wStore w)) as Hsame by (apply Heq; by apply (Hf k)).
  split; [done|]. intros t t' Ht Hdl. rewrite <- (view_later t t' (wStore w) k) by done.
  unfold view. by change (cell_of (wStore w') k) with (data k (wStore w')); rewrite Hsame.
Qed.

End World.

(** Another client sets another key between WATCH and EXEC. *)
Lemma watch_sound_witness :
  exists w' : World AOF,
    interleaved 2 ([Dispatch sampleRouter ["SET"; "b"; "2"]],
                   mkWorld (Set_ "a" "1" NewMemoryStore) samplePubSub (Open "" SyncNo))
      ([Done (SimpleString "OK")], w') /\
    view 9 (wStore w') "a" = Some (VString "1", None) /\ view 9 (wStore w') "b" = Some (VString "2", None).
Proof.
  pose (w := mkWorld (Set_ "a" "1" NewMemoryStore) samplePubSub (Open "" SyncNo)).
  assert (exists w' : World AOF, interleaved 2 ([Dispatch sampleRouter ["SET"; "b"; "2"]], w)
            ([Done (SimpleString "OK")], w') /\
          wStore w' = Set_ "b" "2" (Set_ "a" "1" NewMemoryStore)) as (w' & Hi & Hw').
  { eexists. split.
    - eapply interleaved_step; [apply (pstep_op [] []) with (t := 0); vm_compute; reflexivity|].
      eapply interleaved_step; [apply (pstep_op [] []) with (t := 0); vm_compute; reflexivity|]. apply interleaved_none.
    - reflexivity. }
  exists w'. split; [exact Hi|]. split; [|by rewrite Hw'].
  destruct (watch_sound sampleRouter ["a"] [["SET"; "b"; "2"]] (fun l => l) newHandler 2 (fun _ => 0) 0
    w w' [Done (SimpleString "OK")] (SimpleString "OK") (set_watched {["a" := 1]} newHandler) 1 w)
    with (clock' := fun _ : nat => 0) (j := 0%nat) (j' := 1%nat) (w'' := w') as (_ & _ & Hd).
  - reflexivity.
  - reflexivity.
  - by repeat constructor.
  - exact Hi.
  - intros k ->%list_elem_of_singleton. vm_compute. split; congruence.
  - apply wf_Set, wf_New.
  - reflexivity.
  - clear Hi. destruct w' as [s' p' l']. cbn in Hw'. subst s'. reflexivity.
  - destruct (Hd "a" ltac:(by left)) as [_ Hv]. rewrite (Hv 0 9); [reflexivity|lia|].
    intros v d [=].
Defined.

(** A deadline is set without counting: the key is gone and the check of EXEC finds nothing
    changed. *)
Lemma WATCH_misses_deadline :
  let w := mkWorld (Set_ "k" "v" NewMemoryStore) samplePubSub (Open "" SyncNo) in
  let h := set_watched {["k" := Version "k" (wStore w)]} newHandler in
  exists i w' w'',
    run (Dispatch sampleRouter ["PEXPIRE"; "k"; "0"]) (fun _ => 10) 0 w = Ret (Integer 1, i, w') /\
    run (watchDirty id h) (fun _ => 11) 0 w' = Ret (false, 1%nat, w'') /\
    view 11 (wStore w) "k" = Some (VString "v", None) /\ view 11 (wStore w') "k" = None.
Proof. eexists _, _, _. split_and!; vm_compute; reflexivity. Qed.

(** The check and the commands of EXEC are separate steps: a key that WATCH saw absent, and
    the check found unchanged, is read by the transaction with the value another client
    has set in between. *)
Lemma EXEC_not_isolated :
  let w := mkWorld NewMemoryStore samplePubSub (Open "" SyncNo) in
  let h := set_watched {["a" := 0]} (set_tx true [["GET"; "a"]] 0 newHandler) in
  exists w' : World AOF,
    psteps ([let* out := handleExec sampleRouter id h in Done (fst out);
             let* resp := Dispatch sampleRouter ["SET"; "a"; "9"] in Done [Serialize resp]], w)
      ([Done [Serialize (Array [BulkString "9"])]; Done [Serialize (SimpleString "OK")]], w').
Proof.
  eexists. eapply (psteps_step _ 0); [apply (pstep_op [] [_]); reflexivity|].
  do 2 (eapply (psteps_step _ 0); [apply (pstep_op [_] []); reflexivity|]).
  eapply (psteps_step _ 0); [apply (pstep_op [] [_]); reflexivity|]. apply psteps_refl.
Qed.
