(* ===== verification/Subscriptions.v ===== *)
(** * The connection and the broker agree on the subscriptions

    A handler keeps its channels and patterns in its own sets, the broker in its
    registry.  They agree after every command, and after a disconnect nothing of the
    connection is left in the registry, whatever other connections do in between.  A
    connection owns its subscriber (file Rely): its steps change no other entry of the
    registry. *)

From S2P Require Import Prelude GoLib Protocol Glob Store Cmd Walk Rely StringCmds PubSub Router.
From S2P Require Import Persistence Records Recovery Handler HandlerFacts.
Open Scope cmd_scope.

(** ** The invariant *)

(** Everyone in the registry is a subscriber. *)
Definition registered (ps : PubSub) : Prop := forall id k,
  id ∈ listeners (channels (broker ps)) k \/ id ∈ listeners (patterns (broker ps)) k ->
  id ∈ dom (subscribers ps).

(** The handler's sets are the registry's entries for its subscriber. *)
Definition in_sync (h : conn) (ps : PubSub) : Prop :=
  match sub h with
  | None => subChans h = ∅ /\ subPatterns h = ∅
  | Some id =>
      id ∈ dom (subscribers ps) /\
      (forall ch, id ∈ listeners (channels (broker ps)) ch <-> ch ∈ subChans h) /\
      (forall p, id ∈ listeners (patterns (broker ps)) p <-> p ∈ subPatterns h)
  end.

Definition inv (h : conn) (ps : PubSub) : Prop := registered ps /\ in_sync h ps.

(** The part of a handler that [in_sync] is about. *)
Definition subs (h : conn) : option SubId * gset string * gset string :=
  (sub h, subChans h, subPatterns h).

Lemma inv_ext h h' p : inv h p -> subs h' = subs h -> inv h' p.
Proof. unfold inv, in_sync. intros Hi [= -> -> ->]. exact Hi. Qed.

Lemma in_sync_some h id ps :
  sub h = Some id -> in_sync h ps ->
  id ∈ dom (subscribers ps) /\
  (forall ch, id ∈ listeners (channels (broker ps)) ch <-> ch ∈ subChans h) /\
  (forall p, id ∈ listeners (patterns (broker ps)) p <-> p ∈ subPatterns h).
Proof. unfold in_sync. by intros ->. Qed.

(** ** Ownership of subscribers *)

(** What the registry and the heap say of a subscriber is unchanged; its inbox may be
    another. *)
Definition entry_kept (id : SubId) (p p' : PubSub) : Prop :=
  (forall k, id ∈ listeners (channels (broker p')) k <-> id ∈ listeners (channels (broker p)) k) /\
  (forall k, id ∈ listeners (patterns (broker p')) k <-> id ∈ listeners (patterns (broker p)) k) /\
  done <$> subscribers p' !! id = done <$> subscribers p !! id.

(** A step keeps the registry sound and the subscribers in place, and the entries of those
    that [P] selects. *)
Record moves (P : SubId -> Prop) (p p' : PubSub) : Prop := mkMoves {
  mv_registered : registered p -> registered p';
  mv_dom : dom (subscribers p) ⊆ dom (subscribers p');
  mv_kept : forall id, P id -> entry_kept id p p'
}.

Lemma entry_kept_refl id p : entry_kept id p p.
Proof. by split_and!. Qed.

Lemma entry_kept_trans id p1 p2 p3 :
  entry_kept id p1 p2 -> entry_kept id p2 p3 -> entry_kept id p1 p3.
Proof.
  intros (A1 & A2 & A3) (B1 & B2 & B3).
  split_and!; [intros k; by rewrite B1|intros k; by rewrite B2|congruence].
Qed.

Lemma moves_refl P p : moves P p p.
Proof. split; [done..|]. intros. apply entry_kept_refl. Qed.

Lemma moves_trans P p1 p2 p3 : moves P p1 p2 -> moves P p2 p3 -> moves P p1 p3.
Proof.
  intros [A1 A2 A3] [B1 B2 B3]. split; [by auto|by etrans|].
  intros id Hid. eapply entry_kept_trans; auto.
Qed.

Lemma moves_mono (P Q : SubId -> Prop) p p' :
  moves P p p' -> (forall id, Q id -> P id) -> moves Q p p'.
Proof. intros [A1 A2 A3] HPQ. split; auto. Qed.

Section Ownership.

Context {L : Type}.

(** The subscriber a connection owns, once it has one. *)
Definition owner : Type := option SubId.

Definition subs_rely (o : owner) (w w' : World L) : Prop :=
  moves (fun id => o = Some id) (wPubSub w) (wPubSub w').

(** A step of the owner of [o]: subscribers of others are left alone, and it may get a new
    subscriber if it has none. *)
Definition subs_guar (o : owner) (w : World L) (o' : owner) (w' : World L) : Prop :=
  moves (fun id => id ∈ dom (subscribers (wPubSub w)) /\ o <> Some id) (wPubSub w) (wPubSub w') /\
  (o' = o \/ exists id, o = None /\ o' = Some id /\ (id ∉ dom (subscribers (wPubSub w))) /\
                       id ∈ dom (subscribers (wPubSub w'))).

Definition owners (os : list owner) : list SubId := omap (fun o => o) os.

Definition subs_owned (os : list owner) (w : World L) : Prop :=
  NoDup (owners os) /\ forall id, id ∈ owners os -> id ∈ dom (subscribers (wPubSub w)).

Lemma owners_middle pre o post :
  owners (pre ++ o :: post) ≡ₚ owners [o] ++ owners (pre ++ post).
Proof using Type.
  unfold owners. rewrite !omap_app. cbn. rewrite Permutation_app_swap_app. destruct o; cbn; done.
Qed.

Lemma owners_map {A} (f : A -> owner) l : owners (List.map f l) = omap f l.
Proof using Type. unfold owners. induction l as [|x l IH]; cbn; [done|]. by rewrite IH. Qed.

#[export, refine] Instance subs_sharing : Sharing (World L) owner := {|
  rely := subs_rely;
  guar := subs_guar;
  owned := subs_owned
|}.
Proof.
  - intros o w. apply moves_refl.
  - intros o w w1 w2. apply moves_trans.
  - intros pre post o o' w w' [Hn Hd] [Hm Ho]. unfold subs_owned in *.
    setoid_rewrite owners_middle in Hd. rewrite owners_middle in Hn |- *.
    destruct Ho as [->|(id & -> & -> & Hf & Hi)].
    + split; [done|]. intros id. rewrite owners_middle. intros Hid. by apply (mv_dom _ _ _ Hm), Hd.
    + cbn in *. split.
      * constructor; [|done]. intros Hin. by apply Hf, Hd.
      * intros id'. rewrite owners_middle. cbn. intros [->|Hin]%elem_of_cons; [done|].
        by apply (mv_dom _ _ _ Hm), Hd.
  - intros pre post o o' w w' x [Hn Hd] [Hm _] Hx. eapply moves_mono; [exact Hm|].
    intros id ->. assert (id ∈ owners (pre ++ post)) as Hid
      by (apply list_elem_of_omap; by exists (Some id)).
    rewrite owners_middle in Hn. setoid_rewrite owners_middle in Hd.
    split; [apply Hd, elem_of_app; by right|]. intros ->.
    cbn in Hn. by apply NoDup_cons in Hn as [Hn _].
Defined.

End Ownership.

(** ** Dispatch leaves the subscriptions alone *)

(** Only inboxes changed. *)
Definition stable (p p' : PubSub) : Prop :=
  broker p' = broker p /\ done <$> subscribers p' = done <$> subscribers p.

Lemma stable_refl p : stable p p.
Proof. done. Qed.

Lemma stable_dom p p' : stable p p' -> dom (subscribers p') = dom (subscribers p).
Proof.
  intros [_ Hd]. rewrite <- (dom_fmap_L done (subscribers p')), Hd. apply dom_fmap_L.
Qed.

Lemma stable_moves P p p' : stable p p' -> moves P p p'.
Proof.
  intros Hs. pose proof (stable_dom _ _ Hs) as Hd. destruct Hs as [Hb Hm]. split.
  - intros Hr id k. rewrite Hb, Hd. apply Hr.
  - by rewrite Hd.
  - intros id _. split_and!; [by rewrite Hb..|]. by rewrite <- !lookup_fmap, Hm.
Qed.

Lemma enqueue_done msg s : done (snd (enqueue msg s)) = done s.
Proof. unfold enqueue. by case_match. Qed.

Lemma enqueueTo_stable id msg p : stable p (snd (enqueueTo id msg p)).
Proof.
  unfold enqueueTo. destruct (subscribers p !! id) as [s|] eqn:E; [|done].
  pose proof (enqueue_done msg s) as Hd. destruct (enqueue msg s) as [ok s']. split; [done|].
  cbn in *. rewrite fmap_insert, Hd. apply insert_id. by rewrite lookup_fmap, E.
Qed.

Lemma Send_stable id msg : steps_in stable (Send id msg).
Proof.
  unfold Send. apply steps_bind; [by apply steps_query|]. intros closed.
  destruct closed; [apply steps_done|]. apply steps_call. intros _ p. apply enqueueTo_stable.
Qed.

Section Keeps.

Context {L : Type} `{Appender L}.

Definition stableW (w w' : World L) : Prop := stable (wPubSub w) (wPubSub w').

Lemma keeps_onStore {A} (c : cmd MemoryStore A) : steps_in stableW (onStore c).
Proof using Type.
  apply (steps_zoom _ _ (fun _ _ => True)); [done|]. by induction c.
Qed.

Lemma keeps_append args : steps_in stableW (aofAppend args).
Proof using Type. by apply steps_update. Qed.

Lemma keeps_clock : steps_in stableW clockNow.
Proof using Type. by apply steps_query. Qed.

Lemma keeps_send id msg : steps_in stableW (onPubSub (Send id msg)).
Proof using Type. apply (steps_zoom _ _ stable); [done|]. apply Send_stable. Qed.

Lemma keeps_Publish it ch msg : steps_in stableW (onPubSub (Publish it ch msg)).
Proof using Type.
  apply (steps_zoom _ _ stable); [done|]. unfold Publish. apply steps_bind; [by apply steps_query|].
  intros ds. induction ds as [|[id m] ds IH]; cbn [sendAll]; [done|].
  apply steps_bind; [apply Send_stable|]. intros ok. by apply steps_bind.
Qed.

Create HintDb keeps.
#[local] Hint Resolve keeps_onStore keeps_append keeps_clock keeps_send keeps_Publish : keeps.

Ltac keeps :=
  repeat first [ progress intros | progress cbv zeta | apply steps_done | progress (auto with keeps)
               | apply steps_bind | case_match ].

Lemma keeps_appendToAOF name args resp : steps_in stableW (appendToAOF name args resp).
Proof using Type. unfold appendToAOF, appendDeadline, appendRename. keeps. Qed.

Lemma keeps_Dispatch r args : steps_in stableW (Dispatch r args).
Proof using Type.
  unfold Dispatch, register, makePublishHandler.
  destruct args as [|a0 rest]; [apply steps_done|].
  pose proof keeps_appendToAOF. destruct (String.eqb _ "PUBLISH").
  - keeps.
  - destruct (lookupHandler _ _); keeps.
Qed.

Lemma keeps_watchLoop keys m : steps_in stableW (watchLoop keys m).
Proof using Type.
  revert m. induction keys as [|k keys IH]; intros m; cbn [watchLoop]; [apply steps_done|].
  apply steps_bind; [apply keeps_onStore|intros v; apply IH].
Qed.

Lemma keeps_dirtyLoop keys m : steps_in stableW (dirtyLoop keys m).
Proof using Type.
  induction keys as [|k keys IH]; cbn [dirtyLoop]; [apply steps_done|].
  apply steps_bind; [apply keeps_onStore|]. intros v. by destruct (v =? _).
Qed.

Lemma keeps_execLoop r queue : steps_in stableW (execLoop r queue).
Proof using Type.
  induction queue as [|args queue IH]; cbn [execLoop]; [apply steps_done|].
  apply steps_bind; [apply keeps_Dispatch|]. intros resp. by apply steps_bind.
Qed.

End Keeps.

(** ** Rules for connections *)

Section Rules.

Context {L : Type} `{Appender L}.

(** The world with another pub/sub state. *)
Definition withPubSub (w : World L) (p : PubSub) : World L := mkWorld (wStore w) p (wLog w).

(** The connection in the result of a program owns its subscriber and is in sync. *)
Definition synced {A} (conn_of : A -> conn) (o : owner) (a : A) (w : World L) : Prop :=
  o = sub (conn_of a) /\ inv (conn_of a) (wPubSub w).

Lemma inv_moves h p p' :
  inv h p -> moves (fun id => sub h = Some id) p p' -> inv h p'.
Proof using Type.
  intros [Hr Hs] [Hm Hd Hk]. split; [by auto|]. unfold in_sync in *.
  destruct (sub h) as [id|]; [|done]. destruct Hs as (Hi & Hc & Hp).
  destruct (Hk id eq_refl) as (K1 & K2 & _).
  split_and!; [by apply Hd|intros ch; by rewrite K1|intros pat; by rewrite K2].
Qed.

Lemma inv_rely h (w w' : World L) : inv h (wPubSub w) -> rely (sub h) w w' -> inv h (wPubSub w').
Proof using Type. apply inv_moves. Qed.

Lemma wp_end {A} (conn_of : A -> conn) h a (w : World L) :
  inv h (wPubSub w) -> subs (conn_of a) = subs h -> wp (sub h) (Done a) (synced conn_of) w.
Proof using Type.
  intros Hi Hs. apply wp_done. intros w' Hw. split; [by injection Hs|].
  eapply inv_ext; [by eapply inv_rely|done].
Qed.

(** Steps that change inboxes at most. *)
Lemma wp_keeps {A B} h (c : cmd (World L) A) (k : A -> cmd (World L) B) Q w :
  steps_in stableW c -> inv h (wPubSub w) ->
  (forall a w', inv h (wPubSub w') -> wp (sub h) (k a) Q w') -> wp (sub h) (cbind c k) Q w.
Proof using Type.
  intros Hc Hi Hk. apply wp_bind. eapply wp_steps; [|exact Hc|].
  - intros w1 w2 Hs. split; [by apply stable_moves|]. split; [by apply stable_moves|by left].
  - intros a w' Hw. apply Hk. by eapply inv_rely.
Qed.

(** An assertion about a subscriber that steps of others cannot falsify. *)
Definition persists (id : SubId) (P : PubSub -> Prop) : Prop :=
  forall p p', P p -> moves (fun id' => Some id = Some id') p p' -> P p'.

(** A step that changes the owned subscriber only. *)
Lemma wp_own id (f : PubSub -> PubSub) (P P' : PubSub -> Prop) (Q : owner -> unit -> World L -> Prop) w :
  persists id P -> persists id P' -> P (wPubSub w) ->
  (forall p, P p -> moves (fun id' => id' <> id) p (f p) /\ P' (f p)) ->
  (forall w', P' (wPubSub w') -> Q (Some id) tt w') ->
  wp (Some id) (onPubSub (update (fun _ => f))) Q w.
Proof using Type.
  intros HP HP' H0 Hf Hk. unfold onPubSub, update. cbn.
  intros t w1 b w2 Hw [= <- <-]. destruct (Hf (wPubSub w1)) as [Hm H1]; [by eapply HP|].
  exists (Some id). split.
  - split; [|by left]. eapply moves_mono; [exact Hm|]. by intros id' [_ Hn] ->.
  - intros w2 Hw2. apply Hk. by eapply HP'.
Qed.

Lemma inv_persists h id : sub h = Some id -> persists id (inv h).
Proof using Type. intros Hs p p' Hi. rewrite <- Hs. by apply inv_moves. Qed.

(** One round of a subscription loop: the registry changes and the subscriber is told. *)
Lemma wp_registry_step id f fr h h' (c : cmd (World L) conn) w :
  sub h = Some id -> sub h' = Some id -> inv h (wPubSub w) ->
  (forall p, inv h p -> let p' := mkPubSub (f (broker p)) (subscribers p) in
     moves (fun id' => id' <> id) p p' /\ inv h' p') ->
  (forall w', inv h' (wPubSub w') -> wp (Some id) c (synced (fun h => h)) w') ->
  wp (Some id) (let* _ := onBroker f in let* _ := sendFrame id fr in c) (synced (fun h => h)) w.
Proof using Type.
  intros Hs Hs' Hi Hstep Hc. apply wp_bind, (wp_own id _ (inv h) (inv h')); auto using inv_persists.
  intros w' Hi'. rewrite <- Hs' in *. apply wp_keeps; [|done|intros; by apply Hc].
  unfold sendFrame. apply steps_bind; [apply keeps_send|]. intros. apply steps_done.
Qed.

(** ** The four loops *)

(** The broker changed what it lists of one subscriber. *)
Definition touches (id : SubId) (b b' : Broker) : Prop := forall id' k, id' <> id ->
  (id' ∈ listeners (channels b') k <-> id' ∈ listeners (channels b) k) /\
  (id' ∈ listeners (patterns b') k <-> id' ∈ listeners (patterns b) k).

Lemma touches_moves id p b' :
  touches id (broker p) b' -> id ∈ dom (subscribers p) ->
  moves (fun id' => id' <> id) p (mkPubSub b' (subscribers p)).
Proof using Type.
  intros Ht Hd. split; [|done|].
  - intros Hr id' k. cbn. destruct (decide (id' = id)) as [->|Hn]; [done|].
    destruct (Ht id' k Hn) as [-> ->]. apply Hr.
  - intros id' Hn. split_and!; [intros k; apply (Ht id' k Hn)..|done].
Qed.

Ltac touches :=
  intros id' k Hn; cbn; rewrite ?addTo_listeners, ?removeFromMap_listeners, ?removeAll_listeners;
  try case_decide; subst; set_solver.

Lemma Subscribe_touches ch id b :
  touches id b (Subscribe ch id b) /\ touches id b (PSubscribe ch id b) /\
  touches id b (Unsubscribe ch id b) /\ touches id b (PUnsubscribe ch id b).
Proof using Type. split_and!; touches. Qed.

Lemma UnsubscribeAll_touches id b :
  touches id b (snd (UnsubscribeAll id b)) /\ touches id b (snd (PUnsubscribeAll id b)).
Proof using Type.
  split; intros id' k Hn.
  - pose proof (removeAll_listeners (channels b) id k) as E. split; [|done].
    change (channels (snd (UnsubscribeAll id b))) with (snd (removeSubFromAllChannels (channels b) id)). rewrite E. set_solver.
  - pose proof (removeAll_listeners (patterns b) id k) as E. split; [done|].
    change (patterns (snd (PUnsubscribeAll id b))) with (snd (removeSubFromAllChannels (patterns b) id)). rewrite E. set_solver.
Qed.

(** What a round of a loop does to the registry and to the handler. *)
Lemma registry_round id f h h' p :
  sub h = Some id -> sub h' = Some id -> inv h p -> touches id (broker p) (f (broker p)) ->
  (forall k, (id ∈ listeners (channels (f (broker p))) k <-> k ∈ subChans h') /\
             (id ∈ listeners (patterns (f (broker p))) k <-> k ∈ subPatterns h')) ->
  let p' := mkPubSub (f (broker p)) (subscribers p) in
  moves (fun id' => id' <> id) p p' /\ inv h' p'.
Proof using Type.
  intros Hs Hs' [Hr Hy] Ht Hk. destruct (in_sync_some _ _ _ Hs Hy) as (Hd & _).
  pose proof (touches_moves _ _ _ Ht Hd) as Hm. split; [done|]. split; [by apply Hm|].
  unfold in_sync. rewrite Hs'. split_and!; [done|apply Hk..].
Qed.

(** The entry for one name changes: the rest of the registry and of the handler's sets agree
    as before. *)
Ltac round Hs Hy :=
  let Hc := fresh "Hc" in let Hp := fresh "Hp" in
  destruct (in_sync_some _ _ _ Hs Hy) as (_ & Hc & Hp); intros k; cbn;
  rewrite ?addTo_listeners, ?removeFromMap_listeners; split; try done; case_decide; subst;
  rewrite <- ?Hc, <- ?Hp; set_solver.

Lemma wp_subscribeLoop id names h (w : World L) :
  sub h = Some id -> inv h (wPubSub w) ->
  wp (Some id) (subscribeLoop id names h) (synced (fun h => h)) w.
Proof using Type.
  revert h w. induction names as [|x names IH]; intros h w Hs Hi;
    [rewrite <- Hs; by apply wp_end|].
  cbn [subscribeLoop]. case_decide as Hin; [by apply IH|].
  apply (wp_registry_step id _ _ h (set_subChans ({[x]} ∪ subChans h) h)); [done..| |].
  - intros p [Hr Hy]. apply (registry_round id _ h); [done..|apply Subscribe_touches|]. round Hs Hy.
  - intros w' Hw'. by apply IH.
Qed.

Lemma wp_psubscribeLoop id names h (w : World L) :
  sub h = Some id -> inv h (wPubSub w) ->
  wp (Some id) (psubscribeLoop id names h) (synced (fun h => h)) w.
Proof using Type.
  revert h w. induction names as [|x names IH]; intros h w Hs Hi;
    [rewrite <- Hs; by apply wp_end|].
  cbn [psubscribeLoop]. case_decide as Hin; [by apply IH|].
  apply (wp_registry_step id _ _ h (set_subPatterns ({[x]} ∪ subPatterns h) h)); [done..| |].
  - intros p [Hr Hy]. apply (registry_round id _ h); [done..|apply Subscribe_touches|]. round Hs Hy.
  - intros w' Hw'. by apply IH.
Qed.

Lemma wp_unsubscribeLoop id names h (w : World L) :
  sub h = Some id -> inv h (wPubSub w) ->
  wp (Some id) (unsubscribeLoop id names h) (synced (fun h => h)) w.
Proof using Type.
  revert h w. induction names as [|x names IH]; intros h w Hs Hi;
    [rewrite <- Hs; by apply wp_end|].
  cbn [unsubscribeLoop]. case_decide as Hin; [|by apply IH].
  apply (wp_registry_step id _ _ h (set_subChans (subChans h ∖ {[x]}) h)); [done..| |].
  - intros p [Hr Hy]. apply (registry_round id _ h); [done..|apply Subscribe_touches|]. round Hs Hy.
  - intros w' Hw'. by apply IH.
Qed.

Lemma wp_punsubscribeLoop id names h (w : World L) :
  sub h = Some id -> inv h (wPubSub w) ->
  wp (Some id) (punsubscribeLoop id names h) (synced (fun h => h)) w.
Proof using Type.
  revert h w. induction names as [|x names IH]; intros h w Hs Hi;
    [rewrite <- Hs; by apply wp_end|].
  cbn [punsubscribeLoop]. case_decide as Hin; [|by apply IH].
  apply (wp_registry_step id _ _ h (set_subPatterns (subPatterns h ∖ {[x]}) h)); [done..| |].
  - intros p [Hr Hy]. apply (registry_round id _ h); [done..|apply Subscribe_touches|]. round Hs Hy.
  - intros w' Hw'. by apply IH.
Qed.

Lemma wp_then {A B} (conn_of : A -> conn) o (c : cmd (World L) A) (k : A -> cmd (World L) B) Q w :
  wp o c (synced conn_of) w ->
  (forall a w', inv (conn_of a) (wPubSub w') -> wp (sub (conn_of a)) (k a) Q w') ->
  wp o (cbind c k) Q w.
Proof using Type.
  intros Hc Hk. apply wp_bind. eapply wp_mono; [exact Hc|]. intros o' a w' [-> Hi]. by apply Hk.
Qed.

End Rules.

(** ** Every command keeps the invariant *)

Section Serve.

Context {L : Type} `{Appender L} (r : Router) (hasBroker : bool)
  (order : list string -> list string).

Lemma alloc_inv h ps :
  sub h = None -> inv h ps ->
  inv (set_sub (Some (fst (allocSubscriber ps))) h) (snd (allocSubscriber ps)).
Proof using Type.
  intros Hs [Hr Hy]. unfold in_sync in Hy. rewrite Hs in Hy. destruct Hy as [Hc Hp].
  unfold allocSubscriber. set (id := fresh (dom (subscribers ps))).
  assert (id ∉ dom (subscribers ps)) as Hf by apply is_fresh. cbn [fst snd]. split.
  - intros id' k Hk. cbn in *. rewrite dom_insert. apply elem_of_union. right. by apply (Hr id' k).
  - unfold in_sync. cbn. rewrite Hc, Hp. split_and!; [set_solver| |].
    + intros ch. split; [|set_solver]. intros Hx. destruct Hf. apply (Hr id ch). by left.
    + intros p. split; [|set_solver]. intros Hx. destruct Hf. apply (Hr id p). by right.
Qed.

Lemma alloc_moves ps :
  moves (fun id => id ∈ dom (subscribers ps)) ps (snd (allocSubscriber ps)).
Proof using Type.
  unfold allocSubscriber. set (id := fresh (dom (subscribers ps))).
  assert (id ∉ dom (subscribers ps)) as Hf by apply is_fresh. cbn. split; cbn.
  - intros Hr id' k Hk. cbn in *. rewrite dom_insert. apply elem_of_union. right. by apply (Hr id' k).
  - rewrite dom_insert. set_solver.
  - intros id' Hid. split_and!; [done..|]. cbn. rewrite lookup_insert_ne; [done|]. by intros <-.
Qed.

Lemma wp_ensureSubscriber h (w : World L) :
  inv h (wPubSub w) ->
  wp (sub h) (ensureSubscriber h)
    (fun o out w' => synced snd o out w' /\ o = Some (fst out)) w.
Proof using Type.
  intros Hi. unfold ensureSubscriber. destruct (sub h) as [id|] eqn:Hs.
  - apply wp_done. intros w' Hw. rewrite <- Hs in Hw. split; [|done].
    split; [by rewrite <- Hs|]. by eapply inv_rely.
  - apply wp_bind. unfold onPubSub, call. cbn -[allocSubscriber].
    intros t w1 id w2 Hw [= <- <-]. rewrite <- Hs in Hw. pose proof (inv_rely _ _ _ Hi Hw) as Hi1.
    pose proof (alloc_inv h _ Hs Hi1) as Hi2. pose proof (alloc_moves (wPubSub w1)) as Hm.
    exists (Some (fst (allocSubscriber (wPubSub w1)))). split.
    + split; [eapply moves_mono; [exact Hm|by intros id' [Hd _]]|]. right. eexists.
      split_and!; [done|done|apply is_fresh|]. cbn. rewrite dom_insert. set_solver.
    + intros w' Hw'. cbn. intros w3 Hw3. split; [|done]. split; [done|].
      eapply (inv_rely (set_sub _ h)); [|exact Hw3]. eapply (inv_rely (set_sub _ h)); [|exact Hw'].
      exact Hi2.
Qed.

Lemma wp_respond tcp msg h h0 (w : World L) :
  inv h0 (wPubSub w) -> subs h = subs h0 -> wp (sub h0) (respond tcp msg h) (synced snd) w.
Proof using Type.
  intros Hi E. unfold respond. destruct (sub h) as [id|].
  - apply wp_keeps; [apply keeps_send|done|]. intros _ w' Hw'. by apply wp_end.
  - case_match; by apply wp_end.
Qed.

Lemma wp_respondMany tcp parts h (w : World L) :
  inv h (wPubSub w) -> wp (sub h) (respondMany tcp parts h) (synced snd) w.
Proof using Type.
  revert h w. induction parts as [|p parts IH]; intros h w Hi; cbn [respondMany]; [by apply wp_end|].
  eapply wp_then; [by apply wp_respond|]. intros out w' Hw'.
  destruct (fst out); [by apply wp_end|by apply IH].
Qed.

Lemma wp_tryRespond tcp msg h (w : World L) :
  inv h (wPubSub w) -> wp (sub h) (tryRespond tcp msg h) (synced (fun h => h)) w.
Proof using Type.
  intros Hi. eapply wp_then; [by apply wp_respond|]. intros out w' Hw'. by apply wp_end.
Qed.

Lemma wp_handleExec h (w : World L) :
  inv h (wPubSub w) -> wp (sub h) (handleExec r order h) (synced snd) w.
Proof using Type.
  intros Hi. unfold handleExec. destruct (negb _); [by apply wp_end|].
  destruct (0 <? _); [by apply wp_end|].
  apply wp_keeps; [apply keeps_dirtyLoop|done|]. intros [] w1 Hi1; [by apply wp_end|].
  apply wp_keeps; [apply keeps_execLoop|done|]. intros res w2 Hi2. by apply wp_end.
Qed.

Lemma wp_handleWatch keys h (w : World L) :
  inv h (wPubSub w) -> wp (sub h) (handleWatch keys h) (synced snd) w.
Proof using Type.
  intros Hi. unfold handleWatch. destruct (inMulti h); [by apply wp_end|].
  destruct keys as [|k keys]; [by apply wp_end|].
  apply wp_keeps; [apply keeps_watchLoop|done|]. intros m w1 Hi1. by apply wp_end.
Qed.

(** SUBSCRIBE and PSUBSCRIBE: the loop after the connection got its subscriber. *)
Lemma wp_subscription h (loop : SubId -> conn -> cmd (World L) conn) (w : World L) :
  inv h (wPubSub w) ->
  (forall id h w, sub h = Some id -> inv h (wPubSub w) ->
     wp (Some id) (loop id h) (synced (fun h => h)) w) ->
  wp (sub h) (let* idh := ensureSubscriber h in loop (fst idh) (snd idh)) (synced (fun h => h)) w.
Proof using Type.
  intros Hi Hl. apply wp_bind. eapply wp_mono; [by apply wp_ensureSubscriber|].
  intros o [id h'] w' [[-> Hi'] Hs]. cbn in *. rewrite Hs. by apply Hl.
Qed.

Lemma wp_serveOne tcp args h (w : World L) :
  inv h (wPubSub w) -> wp (sub h) (serveOne r hasBroker order tcp args h) (synced snd) w.
Proof using Type.
  intros Hi. unfold serveOne. cbv zeta.
  assert (forall c, wp (sub h) c (synced (fun h => h)) w ->
    wp (sub h) (let* h := c in Done (false, h)) (synced snd) w) as Hgo.
  { intros c Hc. eapply wp_then; [exact Hc|]. intros h1 w1 Hi1. by apply wp_end. }
  case_match.
  { apply Hgo. unfold handleSubscribe. destruct (negb _); [by apply wp_tryRespond|].
    destruct (argsFrom 1 args) as [|a l]; [by apply wp_tryRespond|].
    apply (wp_subscription h (fun id h => subscribeLoop id (a :: l) h)); [done|].
    intros; by apply wp_subscribeLoop. }
  case_match.
  { apply Hgo. unfold handleUnsubscribe. destruct (sub h) eqn:E; [|rewrite <- E; by apply wp_end].
    destruct (argsFrom 1 args); by apply wp_unsubscribeLoop. }
  case_match.
  { apply Hgo. unfold handlePSubscribe. destruct (negb _); [by apply wp_tryRespond|].
    destruct (argsFrom 1 args) as [|a l]; [by apply wp_tryRespond|].
    apply (wp_subscription h (fun id h => psubscribeLoop id (a :: l) h)); [done|].
    intros; by apply wp_psubscribeLoop. }
  case_match.
  { apply Hgo. unfold handlePUnsubscribe. destruct (sub h) eqn:E; [|rewrite <- E; by apply wp_end].
    destruct (argsFrom 1 args); by apply wp_punsubscribeLoop. }
  case_match.
  { unfold handleMulti. destruct (inMulti h); by apply wp_respond. }
  case_match; [eapply wp_then; [by apply wp_handleExec|]; intros; by apply wp_respondMany|].
  case_match.
  { unfold handleDiscard. destruct (negb _); by apply wp_respond. }
  case_match; [eapply wp_then; [by apply wp_handleWatch|]; intros; by apply wp_respond|].
  case_match; [by apply wp_respond|]. case_match; [by apply Hgo, wp_tryRespond|].
  case_match; [by apply wp_respond|].
  apply wp_keeps; [apply keeps_Dispatch|done|]. intros resp w1 Hi1. by apply wp_respond.
Qed.

Lemma wp_serveAll tcp cmds h (w : World L) :
  inv h (wPubSub w) ->
  wp (sub h) (serveAll r hasBroker order tcp cmds h) (synced (fun h => h)) w.
Proof using Type.
  revert h w. induction cmds as [|args cmds IH]; intros h w Hi; cbn [serveAll]; [by apply wp_end|].
  eapply wp_then; [by apply wp_serveOne|]. intros out w' Hw'.
  destruct (fst out); [by apply wp_end|by apply IH].
Qed.

(** C19: whatever commands clients send, and however the steps of their connections
    interleave, when the commands of one have been processed its own sets of channels and
    patterns are exactly the entries the broker's registry has for its subscriber, and the
    registry only names subscribers that exist.  At the start the connections have
    subscribers of their own, or none. *)
Theorem subscriptions_in_sync clients (w : World L) pool w' j h :
  registered (wPubSub w) -> NoDup (omap (fun c => sub (fst c)) clients) ->
  Forall (fun c => in_sync (fst c) (wPubSub w)) clients ->
  psteps (List.map (fun '(h, (tcp, cmds)) => serveAll r hasBroker order tcp cmds h) clients, w)
    (pool, w') ->
  pool !! j = Some (Done h) -> registered (wPubSub w') /\ in_sync h (wPubSub w').
Proof using Type.
  intros Hr Hn Hs Hp Hj.
  destruct (wp_ended (synced (fun h => h)) _ _ (List.map (fun c => sub (fst c)) clients)
    _ _ _ _ Hp Hj) as (o & _ & Hi); [|apply Forall2_maps|exact Hi].
  - split; rewrite owners_map; [done|]. intros id (c & Hc & Hid)%list_elem_of_omap.
    rewrite Forall_forall in Hs. by apply (in_sync_some (fst c) id _ Hid), Hs.
  - eapply Forall_impl; [exact Hs|]. intros [h0 [tcp cmds]] Hy. by apply wp_serveAll.
Qed.

(** ** The loop on bytes *)

(** The fuel of [serve] is enough: more of it changes nothing. *)
Lemma serveLoop_fuel tcp fuel fuel' input h clock i (w : World L) :
  (String.length input < fuel)%nat -> (String.length input < fuel')%nat ->
  run (serveLoop r hasBroker order tcp fuel input h) clock i w =
  run (serveLoop r hasBroker order tcp fuel' input h) clock i w.
Proof using Type.
  revert fuel' input h i w. induction fuel as [|fuel IH]; intros fuel' input h i w Hf Hf'; [lia|].
  destruct fuel' as [|fuel']; [lia|]. cbn [serveLoop].
  destruct (ReadCommand_total input) as [_ Hc]. unfold consumes in Hc.
  destruct (ReadCommand input) as [[args rest]|?| |]; [|done..]. rewrite !run_bind.
  destruct (run (serveOne r hasBroker order tcp args h) clock i w) as [[[[[] h1] i1] w1]|?| |];
    [done| |done..].
  apply IH; lia.
Qed.

Lemma wp_serveLoop tcp fuel input h (w : World L) :
  inv h (wPubSub w) ->
  wp (sub h) (serveLoop r hasBroker order tcp fuel input h) (synced (fun h => h)) w.
Proof using Type.
  revert input h w. induction fuel as [|fuel IH]; intros input h w Hi; cbn [serveLoop]; [by apply wp_end|].
  destruct (ReadCommand input) as [[args rest]|?| |]; [|by apply wp_end|done|by apply wp_end].
  eapply wp_then; [by apply wp_serveOne|]. intros out w' Hw'.
  destruct (fst out); [by apply wp_end|by apply IH].
Qed.

(** ** The clean-up *)

(** The subscriber is not listed under any channel, respectively any pattern. *)
Definition unlisted (m : registry) (id : SubId) : Prop := forall k, id ∉ listeners m k.

Definition closed (id : SubId) (ps : PubSub) : Prop :=
  exists s, subscribers ps !! id = Some s /\ done s = true.

(** How far the clean-up has come: the channels, the patterns, the subscriber itself. *)
Definition cleaned (id : SubId) (chans pats sub : Prop) (ps : PubSub) : Prop :=
  registered ps /\ id ∈ dom (subscribers ps) /\
  (chans -> unlisted (channels (broker ps)) id) /\ (pats -> unlisted (patterns (broker ps)) id) /\
  (sub -> closed id ps).

Lemma cleaned_persists id X Y Z : persists id (cleaned id X Y Z).
Proof using Type.
  intros p p' (Hr & Hd & H1 & H2 & H3) [Mr Md Mk]. destruct (Mk id eq_refl) as (K1 & K2 & K3).
  split_and!; [by auto|by apply Md|intros Hx k; rewrite K1; by apply H1
              |intros Hx k; rewrite K2; by apply H2|].
  intros Hx. destruct (H3 Hx) as (s & Es & Hs). rewrite Es in K3. cbn in K3.
  destruct (subscribers p' !! id) as [s'|] eqn:E'; [|done].
  exists s'. split; [done|]. injection K3. congruence.
Qed.

(** The three steps. *)
Lemma UnsubscribeAll_cleaned id p :
  cleaned id False False False p ->
  let p' := mkPubSub (snd (UnsubscribeAll id (broker p))) (subscribers p) in
  moves (fun id' => id' <> id) p p' /\ cleaned id True False False p'.
Proof using Type.
  intros (Hr & Hd & _).
  pose proof (touches_moves _ _ _ (proj1 (UnsubscribeAll_touches id (broker p))) Hd) as Hm.
  split; [done|]. split_and!; [by apply Hm|done| |done..].
  intros _ k. pose proof (removeAll_listeners (channels (broker p)) id k) as E.
  change (id ∉ listeners (snd (removeSubFromAllChannels (channels (broker p)) id)) k).
  rewrite E. set_solver.
Qed.

Lemma PUnsubscribeAll_cleaned id p :
  cleaned id True False False p ->
  let p' := mkPubSub (snd (PUnsubscribeAll id (broker p))) (subscribers p) in
  moves (fun id' => id' <> id) p p' /\ cleaned id True True False p'.
Proof using Type.
  intros (Hr & Hd & Hc & _).
  pose proof (touches_moves _ _ _ (proj2 (UnsubscribeAll_touches id (broker p))) Hd) as Hm.
  split; [done|]. split_and!; [by apply Hm|done|exact Hc| |done].
  intros _ k. pose proof (removeAll_listeners (patterns (broker p)) id k) as E.
  change (id ∉ listeners (snd (removeSubFromAllChannels (patterns (broker p)) id)) k).
  rewrite E. set_solver.
Qed.

Lemma Close_cleaned id p :
  cleaned id True True False p ->
  let p' := mkPubSub (broker p) (alter Close id (subscribers p)) in
  moves (fun id' => id' <> id) p p' /\ cleaned id True True True p'.
Proof using Type.
  intros (Hr & Hd & Hc & Hp & _). cbn. assert (moves (fun id' => id' <> id) p
    (mkPubSub (broker p) (alter Close id (subscribers p)))) as Hm.
  { split; cbn; [intros Hr' id' k; cbn; rewrite dom_alter_L; apply Hr'|by rewrite dom_alter_L|].
    intros id' Hn. split_and!; [done..|]. cbn. by rewrite lookup_alter_ne. }
  split; [done|]. split_and!; [by apply Hm|by apply Hm|exact Hc|exact Hp|].
  intros _. apply elem_of_dom in Hd as [s Hs]. exists (Close s).
  split; [|done]. cbn. by rewrite lookup_alter_eq, Hs.
Qed.

(** After the clean-up nothing is left of the connection's subscriber. *)
Definition gone (o : owner) (h : conn) (w : World L) : Prop :=
  registered (wPubSub w) /\
  forall id, sub h = Some id -> cleaned id True True True (wPubSub w).

Lemma wp_cleanup h (w : World L) :
  hasBroker = true -> inv h (wPubSub w) ->
  wp (sub h) (let* _ := cleanupSubscriptions hasBroker h in Done h) gone w.
Proof using Type.
  intros Hb Hi. unfold cleanupSubscriptions. destruct (sub h) as [id|] eqn:Hs.
  2:{ cbn. intros w' Hw. split; [|congruence]. rewrite <- Hs in Hw. by apply (inv_rely h w w'). }
  rewrite Hb. destruct Hi as [Hr Hy]. destruct (in_sync_some _ _ _ Hs Hy) as (Hd & _).
  apply wp_bind, wp_bind, wp_bind. eapply wp_own;
    [apply (cleaned_persists id False False False)|apply (cleaned_persists id True False False)
    |done|apply UnsubscribeAll_cleaned|].
  intros w1 H1. eapply wp_own; [apply (cleaned_persists id True False False)
    |apply (cleaned_persists id True True False)|done|apply PUnsubscribeAll_cleaned|].
  intros w2 H2. eapply wp_own; [apply (cleaned_persists id True True False)
    |apply (cleaned_persists id True True True)|done|apply Close_cleaned|].
  intros w3 H3. apply wp_done. intros w4 Hw4.
  assert (cleaned id True True True (wPubSub w4)) as H4 by (by eapply cleaned_persists).
  split; [by apply H4|]. intros id'. rewrite Hs. by intros [= <-].
Qed.

(** C18: a client that disconnects leaves nothing behind, however the steps of the
    connections interleave.  Once the handler of client [j] has returned, whatever bytes it
    and the others sent and whatever writes failed, its subscriber is in no entry of the
    registry, so that no later publication finds it, and is closed, so that a Send that
    begins now is refused; and the registry names only subscribers that exist. *)
Theorem disconnect_clean clients (w : World L) pool w' j h id :
  hasBroker = true -> registered (wPubSub w) ->
  psteps (List.map (fun c => serve r hasBroker order (fst c) (snd c)) clients, w) (pool, w') ->
  pool !! j = Some (Done h) -> sub h = Some id ->
  (forall k, (id ∉ listeners (channels (broker (wPubSub w'))) k) /\
             (id ∉ listeners (patterns (broker (wPubSub w'))) k)) /\
  (exists s, subscribers (wPubSub w') !! id = Some s /\ done s = true) /\
  (forall msg clock i, run (Send id msg) clock i (wPubSub w') = Ret (false, S i, wPubSub w')) /\
  registered (wPubSub w').
Proof using Type.
  intros Hb Hr Hp Hj Hid.
  destruct (wp_ended gone _ _ (List.map (fun _ => None) clients) _ _ _ _ Hp Hj) as (o & _ & Hg).
  - split; rewrite owners_map; [|by intros id' (c & _ & Hc)%list_elem_of_omap].
    clear. by induction clients; [apply NoDup_nil_2|].
  - apply Forall2_maps, Forall_forall. intros [tcp input] _. unfold serve.
    eapply (wp_then _ (sub newHandler)); [by apply wp_serveLoop|].
    intros h' w1 Hi. by apply wp_cleanup.
  - destruct (Hg id Hid) as (Hr' & _ & H1 & H2 & H3). destruct (H3 I) as (s & Hs & Hd).
    split_and!; [intros k; split; [by apply H1|by apply H2]|by exists s| |done].
    intros msg clock i. unfold Send. rewrite run_bind, run_query. unfold isDone. by rewrite Hs, Hd.
Qed.

End Serve.

Lemma samplePubSub_registered : registered samplePubSub.
Proof.
  intros id k. cbn. unfold listeners. rewrite !lookup_insert, !lookup_empty.
  repeat case_decide; cbn; set_solver.
Qed.

Definition sampleServer : World AOF :=
  mkWorld NewMemoryStore samplePubSub (Open "" SyncNo).

(** The bytes of a client that subscribes and then talks on. *)
Definition sampleInput : string :=
  encodeRecord ["SUBSCRIBE"; "news"; "tech"] +:+ encodeRecord ["PSUBSCRIBE"; "n*"] +:+
  encodeRecord ["UNSUBSCRIBE"; "tech"] +:+ encodeRecord ["GET"; "k"].

(** One that subscribes and publishes. *)
Definition otherInput : string :=
  encodeRecord ["PUBLISH"; "news"; "hello"] +:+ encodeRecord ["SUBSCRIBE"; "news"] +:+
  encodeRecord ["PING"].

Definition sampleClients : list ((nat -> option nat) * string) :=
  [(reliable, sampleInput); ((fun _ => Some 0%nat), otherInput); (reliable, otherInput)].

(** The three take turns. *)
Definition sampleServed : list (cmd (World AOF) conn) * World AOF :=
  runPool (concat (replicate 40 [0; 1; 2]%nat)) 0
    (List.map (fun c => serve sampleRouter true id (fst c) (snd c)) sampleClients) sampleServer.

Lemma sampleServed_steps :
  psteps (List.map (fun c => serve sampleRouter true id (fst c) (snd c)) sampleClients, sampleServer)
    (fst sampleServed, snd sampleServed).
Proof. unfold sampleServed. apply runPool_psteps. Qed.

Definition thirdServed : conn :=
  match fst sampleServed !! 2%nat with Some (Done h) => h | _ => newHandler end.

Lemma disconnect_clean_witness :
  (forall k, (4%positive ∉ listeners (channels (broker (wPubSub (snd sampleServed)))) k) /\
             (4%positive ∉ listeners (patterns (broker (wPubSub (snd sampleServed)))) k)) /\
  (exists s, subscribers (wPubSub (snd sampleServed)) !! 4%positive = Some s /\ done s = true) /\
  (forall msg clock i, run (Send 4 msg) clock i (wPubSub (snd sampleServed)) =
     Ret (false, S i, wPubSub (snd sampleServed))) /\
  registered (wPubSub (snd sampleServed)).
Proof.
  apply (disconnect_clean sampleRouter true id sampleClients sampleServer
           (fst sampleServed) (snd sampleServed) 2 thirdServed).
  - reflexivity.
  - exact samplePubSub_registered.
  - exact sampleServed_steps.
  - by vm_compute.
  - by vm_compute.
Defined.

(** The same clients, with the commands read; the first is subscribed to a channel already. *)
Definition sampleSubscribers : list (conn * ((nat -> option nat) * list (list string))) :=
  [(set_sub (Some 1%positive) (set_subChans {["news"]} (set_subPatterns {["*"]} newHandler)),
    (reliable, [["UNSUBSCRIBE"; "tech"]; ["PSUBSCRIBE"; "n*"]]));
   (newHandler, (reliable, [["PUBLISH"; "news"; "hello"]; ["SUBSCRIBE"; "news"; "tech"]]))].

Definition sampleInSync : list (cmd (World AOF) conn) * World AOF :=
  runPool (concat (replicate 20 [0; 1]%nat)) 0
    (List.map (fun '(h, (tcp, cmds)) => serveAll sampleRouter true id tcp cmds h) sampleSubscribers)
    sampleServer.

Lemma sampleSubscribers_in_sync :
  Forall (fun c => in_sync (fst c) (wPubSub sampleServer)) sampleSubscribers.
Proof.
  assert (forall k, listeners ∅ k = ∅) as He by (intros k; unfold listeners; by rewrite lookup_empty).
  constructor; [|by repeat constructor]. split_and!; [by vm_compute| |].
  - intros ch. change (1%positive ∈ listeners (addTo ∅ "news" 1%positive) ch <-> ch ∈ ({["news"]} : gset string)).
    rewrite addTo_listeners, !He. case_decide; set_solver.
  - intros k. change (1%positive ∈ listeners (addTo (addTo ∅ "*" 1%positive) "n*" 2%positive) k <->
      k ∈ ({["*"]} : gset string)). rewrite !addTo_listeners, !He. repeat case_decide; set_solver.
Qed.

Lemma sampleInSync_steps :
  psteps (List.map (fun '(h, (tcp, cmds)) => serveAll sampleRouter true id tcp cmds h) sampleSubscribers,
          sampleServer) (fst sampleInSync, snd sampleInSync).
Proof. unfold sampleInSync. apply runPool_psteps. Qed.

Definition firstInSync : conn :=
  match fst sampleInSync !! 0%nat with Some (Done h) => h | _ => newHandler end.

Lemma subscriptions_in_sync_witness :
  subPatterns firstInSync = {["*"; "n*"]} /\
  registered (wPubSub (snd sampleInSync)) /\ in_sync firstInSync (wPubSub (snd sampleInSync)).
Proof.
  split; [by vm_compute|].
  apply (subscriptions_in_sync sampleRouter true id sampleSubscribers sampleServer
            (fst sampleInSync) (snd sampleInSync) 0 firstInSync).
  - exact samplePubSub_registered.
  - cbn. apply NoDup_singleton.
  - exact sampleSubscribers_in_sync.
  - exact sampleInSync_steps.
  - by vm_compute.
Defined.
