(* ===== verification/Server.v ===== *)
(** * The server: connections, the client limit and shutdown (internal/server/server.go)

    The accept loop, the goroutine of each connection and the shutdown goroutine are
    interleaved; each step is one operation on the shared fields.  A connection is an
    identifier. *)

From S2P Require Import Prelude GoLib.

(** Where the accept loop is with a connection it has accepted. *)
Inductive acceptAt : Type :=
| Accepting
| Tracking (c : positive)   (* before [s.trackConn(conn)] *)
| Counting (c : positive)   (* before [s.connCount.Add(1)] *)
| Waiting (c : positive)    (* before [s.wg.Add(1)] *)
| Spawning (c : positive)   (* before [go func(c)] *)
| Returned.                 (* the listener was closed *)

Inductive shutdownAt : Type :=
| Serving
| ListenerClosed
| ConnsClosed.

Record Server : Type := mkServer {
  connCount : Z;
  wg : Z;
  conns : gset positive;
  acceptLoop : acceptAt;
  shutdown : shutdownAt;
  serving : gset positive;    (* goroutines in [serve] *)
  untracked : gset positive;  (* after [untrackConn] *)
  uncounted : gset positive;  (* after [connCount.Add(-1)] *)
  closedConns : gset positive (* sockets closed by the server *)
}.

Definition New : Server := mkServer 0 0 ∅ Accepting Serving ∅ ∅ ∅ ∅.

(** [s.cfg.MaxClients > 0 && int(s.connCount.Load()) >= s.cfg.MaxClients] *)
Definition atLimit (maxClients : Z) (s : Server) : bool :=
  (0 <? maxClients) && (maxClients <=? connCount s).

Definition live (s : Server) : gset positive := serving s ∪ untracked s ∪ uncounted s.

Section Steps.

Context (maxClients : Z).

Inductive step : Server -> Server -> Prop :=
| step_accept c s :
    acceptLoop s = Accepting -> shutdown s = Serving -> atLimit maxClients s = false ->
    c ∉ live s -> c ∉ closedConns s -> c ∉ conns s ->
    step s (mkServer (connCount s) (wg s) (conns s) (Tracking c) (shutdown s)
              (serving s) (untracked s) (uncounted s) (closedConns s))
| step_reject c s :
    acceptLoop s = Accepting -> shutdown s = Serving -> atLimit maxClients s = true ->
    c ∉ live s -> c ∉ closedConns s -> c ∉ conns s ->
    step s (mkServer (connCount s) (wg s) (conns s) Accepting (shutdown s)
              (serving s) (untracked s) (uncounted s) ({[c]} ∪ closedConns s))
| step_track c s :
    acceptLoop s = Tracking c ->
    step s (mkServer (connCount s) (wg s) ({[c]} ∪ conns s) (Counting c) (shutdown s)
              (serving s) (untracked s) (uncounted s) (closedConns s))
| step_count c s :
    acceptLoop s = Counting c ->
    step s (mkServer (connCount s + 1) (wg s) (conns s) (Waiting c) (shutdown s)
              (serving s) (untracked s) (uncounted s) (closedConns s))
| step_wgAdd c s :
    acceptLoop s = Waiting c ->
    step s (mkServer (connCount s) (wg s + 1) (conns s) (Spawning c) (shutdown s)
              (serving s) (untracked s) (uncounted s) (closedConns s))
| step_spawn c s :
    acceptLoop s = Spawning c ->
    step s (mkServer (connCount s) (wg s) (conns s) Accepting (shutdown s)
              ({[c]} ∪ serving s) (untracked s) (uncounted s) (closedConns s))
| step_untrack c s :
    c ∈ serving s ->
    step s (mkServer (connCount s) (wg s) (conns s ∖ {[c]}) (acceptLoop s) (shutdown s)
              (serving s ∖ {[c]}) ({[c]} ∪ untracked s) (uncounted s) ({[c]} ∪ closedConns s))
| step_uncount c s :
    c ∈ untracked s ->
    step s (mkServer (connCount s - 1) (wg s) (conns s) (acceptLoop s) (shutdown s)
              (serving s) (untracked s ∖ {[c]}) ({[c]} ∪ uncounted s) (closedConns s))
| step_wgDone c s :
    c ∈ uncounted s ->
    step s (mkServer (connCount s) (wg s - 1) (conns s) (acceptLoop s) (shutdown s)
              (serving s) (untracked s) (uncounted s ∖ {[c]}) (closedConns s))
| step_closeListener s :
    shutdown s = Serving ->
    step s (mkServer (connCount s) (wg s) (conns s) (acceptLoop s) ListenerClosed
              (serving s) (untracked s) (uncounted s) (closedConns s))
| step_closeAllConns s :
    shutdown s = ListenerClosed ->
    step s (mkServer (connCount s) (wg s) (conns s) (acceptLoop s) ConnsClosed
              (serving s) (untracked s) (uncounted s) (conns s ∪ closedConns s))
| step_acceptReturns s :
    acceptLoop s = Accepting -> shutdown s <> Serving ->
    step s (mkServer (connCount s) (wg s) (conns s) Returned (shutdown s)
              (serving s) (untracked s) (uncounted s) (closedConns s)).

Inductive reachable : Server -> Prop :=
| reach_new : reachable New
| reach_step s s' : reachable s -> step s s' -> reachable s'.

(** ** The invariant *)

(** The connection the accept loop is setting up, by how far it has got. *)
Definition counted (a : acceptAt) : gset positive :=
  match a with Waiting c | Spawning c => {[c]} | _ => ∅ end.
Definition waited (a : acceptAt) : gset positive :=
  match a with Spawning c => {[c]} | _ => ∅ end.
Definition tracked (a : acceptAt) : gset positive :=
  match a with Counting c | Waiting c | Spawning c => {[c]} | _ => ∅ end.
Definition pending (a : acceptAt) : gset positive :=
  match a with Tracking c | Counting c | Waiting c | Spawning c => {[c]} | _ => ∅ end.

Definition csize (x : gset positive) : Z := Z.of_nat (size x).

Record server_inv (s : Server) : Prop := mkServerInv {
  inv_count : connCount s = csize (serving s) + csize (untracked s) + csize (counted (acceptLoop s));
  inv_wg : wg s = csize (live s) + csize (waited (acceptLoop s));
  inv_conns : conns s = serving s ∪ tracked (acceptLoop s);
  inv_disj1 : serving s ## untracked s;
  inv_disj2 : serving s ∪ untracked s ## uncounted s;
  inv_pending : pending (acceptLoop s) ## live s;
  inv_limit : 0 < maxClients ->
    connCount s <= maxClients /\
    (match acceptLoop s with Tracking _ | Counting _ => connCount s < maxClients | _ => True end)
}.

Lemma csize_union x y : x ## y -> csize (x ∪ y) = csize x + csize y.
Proof using Type. intros Hd. unfold csize. rewrite size_union by done. lia. Qed.

Lemma csize_single c : csize {[c]} = 1.
Proof using Type. unfold csize. by rewrite size_singleton. Qed.

Lemma csize_remove x c : c ∈ x -> csize (x ∖ {[c]}) = csize x - 1.
Proof using Type.
  intros Hc. unfold csize. rewrite size_difference by set_solver. rewrite size_singleton.
  assert (size x <> 0%nat) by (intros Hx%size_empty_inv; set_solver). lia.
Qed.

Lemma csize_nonneg x : 0 <= csize x.
Proof using Type. unfold csize. lia. Qed.

Lemma csize_empty : csize ∅ = 0.
Proof using Type. done. Qed.

Lemma live_size s :
  server_inv s -> csize (live s) = csize (serving s) + csize (untracked s) + csize (uncounted s).
Proof using Type.
  intros [_ _ _ H1 H2 _ _]. unfold live. by rewrite csize_union, csize_union.
Qed.

(** Steps of the accept loop and of the shutdown. *)
Lemma accept_inv s s' :
  server_inv s ->
  serving s' = serving s -> untracked s' = untracked s -> uncounted s' = uncounted s ->
  connCount s' - csize (counted (acceptLoop s')) =
    connCount s - csize (counted (acceptLoop s)) ->
  wg s' - csize (waited (acceptLoop s')) = wg s - csize (waited (acceptLoop s)) ->
  conns s' = serving s ∪ tracked (acceptLoop s') ->
  pending (acceptLoop s') ## live s ->
  (0 < maxClients -> connCount s' <= maxClients /\
    match acceptLoop s' with Tracking _ | Counting _ => connCount s' < maxClients | _ => True end) ->
  server_inv s'.
Proof using Type.
  intros [Hc Hw Hn H1 H2 Hp Hl] E1 E2 E3 Ec Ew En Ep El.
  assert (live s' = live s) as Elive by (unfold live; congruence).
  split; rewrite ?E1, ?E2, ?E3, ?Elive; try done; lia.
Qed.

(** Steps of a connection's goroutine. *)
Lemma live_elem s c : c ∈ live s <-> c ∈ serving s \/ c ∈ untracked s \/ c ∈ uncounted s.
Proof using Type. unfold live. set_solver. Qed.

Lemma spawn_inv s c :
  server_inv s -> acceptLoop s = Spawning c ->
  server_inv (mkServer (connCount s) (wg s) (conns s) Accepting (shutdown s)
              ({[c]} ∪ serving s) (untracked s) (uncounted s) (closedConns s)).
Proof using Type.
  intros Hi Ha. pose proof (live_size s Hi) as Hls. destruct Hi as [Hc Hw Hn H1 H2 Hp Hl].
  rewrite Ha in *. cbn in *. apply disjoint_singleton_l in Hp. rewrite live_elem in Hp.
  assert ((c ∉ serving s) /\ (c ∉ untracked s) /\ (c ∉ uncounted s)) as (N1 & N2 & N3) by tauto.
  rewrite csize_single in *.
  assert (csize ({[c]} ∪ serving s) = 1 + csize (serving s)) as Hsz.
  { rewrite csize_union, csize_single; [done|]. by apply disjoint_singleton_l. }
  assert ({[c]} ∪ serving s ## untracked s) as D1 by (clear - H1 N2; set_solver).
  assert ({[c]} ∪ serving s ∪ untracked s ## uncounted s) as D2 by (clear - H2 N3; set_solver).
  split; cbn; try done.
  - rewrite Hsz, csize_empty. lia.
  - unfold live. cbn. rewrite csize_union, csize_union, Hsz, csize_empty by done. lia.
  - rewrite Hn. clear. set_solver.
Qed.

Lemma untrack_inv s c :
  server_inv s -> c ∈ serving s ->
  server_inv (mkServer (connCount s) (wg s) (conns s ∖ {[c]}) (acceptLoop s) (shutdown s)
              (serving s ∖ {[c]}) ({[c]} ∪ untracked s) (uncounted s) ({[c]} ∪ closedConns s)).
Proof using Type.
  intros [Hc Hw Hn H1 H2 Hp Hl] Hin.
  assert (c ∉ untracked s) as N1 by (clear - H1 Hin; set_solver).
  assert (c ∉ tracked (acceptLoop s)) as N2.
  { assert (c ∉ pending (acceptLoop s)) as Hcp.
    { intros Hx. apply (Hp c Hx). apply live_elem. by left. }
    destruct (acceptLoop s); done. }
  assert (serving s ∖ {[c]} ∪ ({[c]} ∪ untracked s) = serving s ∪ untracked s) as E.
  { apply set_eq. intros x. clear - Hin. destruct (decide (x = c)); set_solver. }
  split; cbn; try done.
  - rewrite csize_union, csize_single, csize_remove; [lia|done|]. by apply disjoint_singleton_l.
  - unfold live. cbn. rewrite E. exact Hw.
  - rewrite Hn. apply set_eq. intros x. clear - N2. destruct (decide (x = c)); set_solver.
  - clear - H1. set_solver.
  - rewrite E. done.
  - unfold live. cbn. by rewrite E.
Qed.

Lemma uncount_inv s c :
  server_inv s -> c ∈ untracked s ->
  server_inv (mkServer (connCount s - 1) (wg s) (conns s) (acceptLoop s) (shutdown s)
              (serving s) (untracked s ∖ {[c]}) ({[c]} ∪ uncounted s) (closedConns s)).
Proof using Type.
  intros [Hc Hw Hn H1 H2 Hp Hl] Hin.
  assert (serving s ∪ untracked s ∖ {[c]} ∪ ({[c]} ∪ uncounted s) = live s) as E.
  { apply set_eq. intros x. rewrite live_elem. clear - Hin. destruct (decide (x = c)); set_solver. }
  split; cbn; try done.
  - rewrite csize_remove by done. lia.
  - unfold live at 1. cbn. rewrite E. exact Hw.
  - clear - H1. set_solver.
  - clear - H1 H2 Hin. set_solver.
  - unfold live. cbn. by rewrite E.
  - intros Hm. destruct (Hl Hm) as [Hle Hlt]. split; [lia|]. destruct (acceptLoop s); done || lia.
Qed.

Lemma wgDone_inv s c :
  server_inv s -> c ∈ uncounted s ->
  server_inv (mkServer (connCount s) (wg s - 1) (conns s) (acceptLoop s) (shutdown s)
              (serving s) (untracked s) (uncounted s ∖ {[c]}) (closedConns s)).
Proof using Type.
  intros Hi Hin. pose proof (live_size s Hi) as Hls. destruct Hi as [Hc Hw Hn H1 H2 Hp Hl].
  assert (serving s ∪ untracked s ## uncounted s ∖ {[c]}) as D by (clear - H2; set_solver).
  split; cbn; try done.
  - unfold live. cbn. rewrite csize_union, csize_union, csize_remove by done. lia.
  - intros x Hx Hy. apply (Hp x Hx). apply live_elem in Hy. apply live_elem. cbn in Hy.
    clear - Hy. set_solver.
Qed.

Lemma step_inv s s' : server_inv s -> step s s' -> server_inv s'.
Proof using Type.
  intros Hi Hst. revert Hi.
  destruct Hst as [c s Ha Hs Hlim Hf1 Hf2 Hf3|c s Ha Hs Hlim Hf1 Hf2 Hf3|c s Ha|c s Ha|c s Ha
    |c s Ha|c s Hin|c s Hin|c s Hin|s Hs|s Hs|s Ha Hs]; intros Hi;
    pose proof (live_size s Hi) as Hls; pose proof Hi as [Hc Hw Hn H1 H2 Hp Hl].
  - apply (accept_inv s); cbn; rewrite ?Ha in *; cbn in *; try done.
    + apply disjoint_singleton_l. done.
    + intros Hm. destruct (Hl Hm). unfold atLimit in Hlim. lia.
  - apply (accept_inv s); cbn; rewrite ?Ha in *; cbn in *; done.
  - apply (accept_inv s); cbn; rewrite ?Ha in *; cbn in *; try done.
    rewrite Hn. clear. set_solver.
  - apply (accept_inv s); cbn; rewrite ?Ha in *; cbn in *; try done;
      rewrite ?csize_single, ?csize_empty; lia.
  - apply (accept_inv s); cbn; rewrite ?Ha in *; cbn in *; try done;
      rewrite ?csize_single, ?csize_empty; lia.
  - by apply spawn_inv.
  - by apply untrack_inv.
  - by apply uncount_inv.
  - by apply wgDone_inv.
  - by apply (accept_inv s).
  - by apply (accept_inv s).
  - apply (accept_inv s); cbn; rewrite ?Ha in *; cbn in *; done.
Qed.

Lemma reachable_inv s : reachable s -> server_inv s.
Proof using Type.
  induction 1 as [|s s' _ IH Hs]; [|by eapply step_inv]. split; cbn; try done; try set_solver. lia.
Qed.

(** C26: the client limit.  In every reachable state of the interleaved accept loop and
    connection goroutines, the counter is the number of connections that are served or
    being taken down plus the one being set up, the server never serves more than
    MaxClients connections, [conns] holds exactly the served connections and the one
    being set up, and the wait group is zero only when no goroutine is left. *)
Theorem maxclients_respected s :
  reachable s ->
  connCount s = csize (serving s) + csize (untracked s) + csize (counted (acceptLoop s)) /\
  (0 < maxClients -> csize (serving s) <= connCount s <= maxClients) /\
  conns s = serving s ∪ tracked (acceptLoop s) /\
  (wg s = 0 -> serving s = ∅ /\ untracked s = ∅ /\ uncounted s = ∅).
Proof using Type.
  intros Hr%reachable_inv. pose proof (live_size s Hr) as Hls.
  destruct Hr as [Hc Hw Hn _ _ _ Hl].
  pose proof (csize_nonneg (serving s)). pose proof (csize_nonneg (untracked s)).
  pose proof (csize_nonneg (uncounted s)). pose proof (csize_nonneg (counted (acceptLoop s))).
  pose proof (csize_nonneg (waited (acceptLoop s))).
  split_and!; [done| |done|].
  - intros Hm. destruct (Hl Hm). lia.
  - intros Hz. unfold csize in *. split_and!; apply leibniz_equiv, size_empty_inv; lia.
Qed.

(** ** Shutdown *)

(** How much is left to do until [Serve] returns. *)
Definition acceptRank (a : acceptAt) : nat :=
  match a with
  | Tracking _ => 8 | Counting _ => 7 | Waiting _ => 6 | Spawning _ => 5 | Accepting => 1
  | Returned => 0
  end.
Definition shutdownRank (d : shutdownAt) : nat :=
  match d with Serving => 2 | ListenerClosed => 1 | ConnsClosed => 0 end.

Definition remaining (s : Server) : nat :=
  3 * size (serving s) + 2 * size (untracked s) + size (uncounted s) +
  acceptRank (acceptLoop s) + shutdownRank (shutdown s).

Lemma size_add_le (x : gset positive) c : (size ({[c]} ∪ x) <= S (size x))%nat.
Proof using Type. rewrite size_union_alt, size_singleton. pose proof (subseteq_size (x ∖ {[c]}) x). set_solver by lia. Qed.

Lemma size_remove_lt (x : gset positive) c : c ∈ x -> size x = S (size (x ∖ {[c]})).
Proof using Type.
  intros Hc. rewrite size_difference, size_singleton by set_solver.
  assert (size x <> 0%nat) by (intros Hx%size_empty_inv; set_solver). lia.
Qed.

(** Once the listener is closed every step makes progress. *)
Lemma step_remaining s s' :
  shutdown s <> Serving -> step s s' -> (remaining s' < remaining s)%nat /\ shutdown s' <> Serving.
Proof using Type.
  intros Hs Hst. destruct Hst as [c s Ha|c s Ha|c s Ha|c s Ha|c s Ha|c s Ha|c s Hin|c s Hin|c s Hin
    |s Hd|s Hd|s Ha]; try done; unfold remaining; cbn; (split; [|done]); rewrite ?Ha, ?Hd; cbn.
  all: try (pose proof (size_add_le (serving s) c)); try (pose proof (size_add_le (untracked s) c));
    try (pose proof (size_add_le (uncounted s) c)); try (pose proof (size_remove_lt _ c Hin)); lia.
Qed.

(** Every connection that is served or being set up has been closed. *)
Definition covered (s : Server) : Prop :=
  shutdown s = ConnsClosed /\ serving s ∪ pending (acceptLoop s) ⊆ closedConns s.

Lemma step_covered s s' : covered s -> step s s' -> covered s'.
Proof using Type.
  intros [Hs Hc] Hst. destruct Hst; try congruence; (split; [done|]); cbn in *;
    repeat match goal with H : acceptLoop _ = _ |- _ => rewrite H in *; clear H end; cbn in *; set_solver.
Qed.

(** [Serve] has returned: the accept loop is over and [wg.Wait] does not block. *)
Definition returned (s : Server) : Prop :=
  acceptLoop s = Returned /\ wg s = 0 /\ serving s = ∅ /\ conns s = ∅.

(** Something is left to do and can be done. *)
Lemma covered_progress s : server_inv s -> covered s -> returned s \/ exists s', step s s'.
Proof using Type.
  intros Hi [Hs Hc].
  destruct (acceptLoop s) as [|c|c|c|c|] eqn:Ha;
    try (right; eexists; first [by apply (step_track c)|by apply (step_count c)
           |by apply (step_wgAdd c)|by apply (step_spawn c)|by apply step_acceptReturns; congruence]).
  destruct (set_choose_or_empty (serving s)) as [[c Hx]|H1]; [right; eexists; by apply (step_untrack c)|].
  destruct (set_choose_or_empty (untracked s)) as [[c Hx]|H2]; [right; eexists; by apply (step_uncount c)|].
  destruct (set_choose_or_empty (uncounted s)) as [[c Hx]|H3]; [right; eexists; by apply (step_wgDone c)|].
  left. apply leibniz_equiv in H1, H2, H3. destruct Hi as [_ Hw Hn _ _ _ _]. unfold live in Hw.
  rewrite Ha, H1, H2, H3 in *. by split_and!.
Qed.

(** C27: shutdown completes.  The listener was closed; the open connections are closed while
    the accept loop is not between [Accept] and [trackConn].  From then on every step, in
    whatever order the goroutines take them, brings [Serve] closer to its return, there
    can only be as many as [remaining] says, and unless [Serve] has returned one of them
    can be taken without a client doing anything: all served connections are closed. *)
Theorem shutdown_completes s s1 n s2 :
  reachable s -> shutdown s = ListenerClosed -> (forall c, acceptLoop s <> Tracking c) ->
  step s s1 -> shutdown s1 = ConnsClosed -> nsteps step n s1 s2 ->
  (n + remaining s2 <= remaining s1)%nat /\ serving s2 ⊆ closedConns s2 /\
  (returned s2 \/ exists s3, step s2 s3).
Proof using Type.
  intros Hr Hl Ht Hst Hd Hn.
  assert (server_inv s1) as Hi1 by (eapply step_inv; [by apply reachable_inv|done]).
  assert (covered s1) as Hc1.
  { pose proof (inv_conns _ (reachable_inv _ Hr)) as Hcn. destruct Hst; cbn in Hd; try congruence.
    split; [done|]. cbn. rewrite Hcn. destruct (acceptLoop s); cbn; set_solver. }
  clear Hr Hl Ht Hst Hd s. revert Hi1 Hc1.
  induction Hn as [s1|n s1 s s2 Hst _ IH]; intros Hi Hc.
  - split; [lia|]. split; [|by apply covered_progress]. destruct Hc as [_ Hc]. set_solver.
  - destruct (step_remaining s1 s) as [Hlt _]; [by destruct Hc as [-> _]|done|].
    destruct IH as (H1 & H2 & H3); [by eapply step_inv|by eapply step_covered|].
    split; [lia|]. by split.
Qed.

End Steps.

(** The server with one served client. *)
Definition client : gset positive := {[1%positive]} ∪ ∅.
Definition oneClient : Server := mkServer 1 1 client Accepting Serving client ∅ ∅ ∅.

Lemma oneClient_reachable : reachable 1 oneClient.
Proof.
  eapply reach_step; [|apply (step_spawn 1 1 (mkServer 1 1 client (Spawning 1) Serving
                                                ∅ ∅ ∅ ∅)); done].
  eapply reach_step; [|apply (step_wgAdd 1 1 (mkServer 1 0 client (Waiting 1) Serving
                                                ∅ ∅ ∅ ∅)); done].
  eapply reach_step; [|apply (step_count 1 1 (mkServer 0 0 client (Counting 1) Serving
                                                ∅ ∅ ∅ ∅)); done].
  eapply reach_step; [|apply (step_track 1 1 (mkServer 0 0 ∅ (Tracking 1) Serving ∅ ∅ ∅ ∅)); done].
  eapply reach_step; [apply reach_new|].
  apply (step_accept 1 1 New); done || (cbn; set_solver).
Qed.

Lemma maxclients_respected_witness :
  connCount oneClient =
    csize (serving oneClient) + csize (untracked oneClient) + csize (counted (acceptLoop oneClient)) /\
  (0 < 1 -> csize (serving oneClient) <= connCount oneClient <= 1) /\
  conns oneClient = serving oneClient ∪ tracked (acceptLoop oneClient) /\
  (wg oneClient = 0 ->
     serving oneClient = ∅ /\ untracked oneClient = ∅ /\ uncounted oneClient = ∅).
Proof. apply (maxclients_respected 1). exact oneClient_reachable. Defined.

(** One client is connected when the server shuts down. *)
Lemma shutdown_completes_witness :
  let s := mkServer 1 1 client Accepting ListenerClosed client ∅ ∅ ∅ in
  let s1 := mkServer 1 1 client Accepting ConnsClosed client ∅ ∅ (client ∪ ∅) in
  (O + remaining s1 <= remaining s1)%nat /\ serving s1 ⊆ closedConns s1 /\
  (returned s1 \/ exists s3, step 1 s1 s3).
Proof.
  intros s s1. apply (shutdown_completes 1 s s1 O s1); try done.
  - eapply reach_step; [exact oneClient_reachable|]. by apply (step_closeListener 1 oneClient).
  - by apply (step_closeAllConns 1 s).
  - constructor.
Defined.

(** The connections that are closed when none is tracked. *)
Definition nobody : gset positive := ∅ ∪ ∅.

(** A connection accepted just before the listener is closed and tracked only after the
    connections were closed is served on: the shutdown waits for its client. *)
Theorem shutdown_misses_connection :
  exists s c, reachable 0 s /\ shutdown s = ConnsClosed /\ c ∈ serving s /\ (c ∉ closedConns s) /\
              acceptLoop s = Returned /\ 0 < wg s.
Proof.
  exists (mkServer 1 1 client Returned ConnsClosed client ∅ ∅ nobody), 1%positive.
  split_and!; try done; try (cbn; set_solver).
  eapply reach_step; [|apply (step_acceptReturns 0 (mkServer 1 1 client Accepting
                                ConnsClosed client ∅ ∅ nobody)); done].
  eapply reach_step; [|apply (step_spawn 0 1 (mkServer 1 1 client (Spawning 1)
                                ConnsClosed ∅ ∅ ∅ nobody)); done].
  eapply reach_step; [|apply (step_wgAdd 0 1 (mkServer 1 0 client (Waiting 1)
                                ConnsClosed ∅ ∅ ∅ nobody)); done].
  eapply reach_step; [|apply (step_count 0 1 (mkServer 0 0 client (Counting 1)
                                ConnsClosed ∅ ∅ ∅ nobody)); done].
  eapply reach_step; [|apply (step_track 0 1 (mkServer 0 0 ∅ (Tracking 1) ConnsClosed
                                ∅ ∅ ∅ nobody)); done].
  eapply reach_step; [|apply (step_closeAllConns 0 (mkServer 0 0 ∅ (Tracking 1) ListenerClosed
                                ∅ ∅ ∅ ∅)); done].
  eapply reach_step; [|apply (step_closeListener 0 (mkServer 0 0 ∅ (Tracking 1) Serving
                                ∅ ∅ ∅ ∅)); done].
  eapply reach_step; [apply reach_new|].
  apply (step_accept 0 1 New); done || (cbn; set_solver).
Qed.
