(* ===== verification/Config.v ===== *)
(** * Configuration (internal/config, internal/logger)

    The command line is parsed by Go's flag package, which is modelled as far as [Load]
    uses it: string, integer and boolean flags on [flag.CommandLine], whose errors end
    the process. *)

From S2P Require Import Prelude GoLib.

(** ** strconv, as the flag package calls it *)

(** [lower] of package strconv: [c | ('x' - 'X')]. *)
Definition orLower (c : Ascii.ascii) : Z := Z.lor (byte c) 32.

Definition digitOf (c : Ascii.ascii) : option Z :=
  if (48 <=? byte c) && (byte c <=? 57) then Some (byte c - 48)
  else if (97 <=? orLower c) && (orLower c <=? 122) then Some (orLower c - 97 + 10)
  else None.

(** The loop of [ParseUint] in base 0, where underscores are skipped; the second component
    is whether there were any. *)
Fixpoint digitsIn (base acc : Z) (under : bool) (s : string) : option (Z * bool) :=
  match s with
  | EmptyString => Some (acc, under)
  | String c s' =>
      if byte c =? 95 then digitsIn base acc true s'
      else match digitOf c with
           | Some d => if d <? base then digitsIn base (base * acc + d) under s' else None
           | None => None
           end
  end.

(** What [underscoreOK] saw last. *)
Inductive seen : Type := SawStart | SawDigit | SawUnderscore | SawOther.

Fixpoint underscoreLoop (hex : bool) (saw : seen) (s : string) : bool :=
  match s with
  | EmptyString => match saw with SawUnderscore => false | _ => true end
  | String c s' =>
      if ((48 <=? byte c) && (byte c <=? 57)) ||
         (hex && (97 <=? orLower c) && (orLower c <=? 102)) then underscoreLoop hex SawDigit s'
      else if byte c =? 95 then
        match saw with SawDigit => underscoreLoop hex SawUnderscore s' | _ => false end
      else match saw with SawUnderscore => false | _ => underscoreLoop hex SawOther s' end
  end.

(** The base a number is written in, and its digits. *)
Definition basePrefix (s : string) : Z * string :=
  match s with
  | String z s' =>
      if negb (byte z =? 48) then (10, s)
      else match s' with
           | String c (String d s'') =>
               if orLower c =? 98 then (2, String d s'')
               else if orLower c =? 111 then (8, String d s'')
               else if orLower c =? 120 then (16, String d s'')
               else (8, s')
           | _ => (8, s')
           end
  | EmptyString => (10, s)
  end.

(** [underscoreOK(s)] for [s] without a sign. *)
Definition underscoreOK (s : string) : bool :=
  match s with
  | String z (String c s') =>
      if (byte z =? 48) && ((orLower c =? 98) || (orLower c =? 111) || (orLower c =? 120))
      then underscoreLoop (orLower c =? 120) SawDigit s'
      else underscoreLoop false SawStart s
  | _ => underscoreLoop false SawStart s
  end.

(** [strconv.ParseUint(s, 0, 64)] *)
Definition ParseUintAny (s : string) : option Z :=
  if is_empty s then None
  else
    let '(base, digits) := basePrefix s in
    match digitsIn base 0 false digits with
    | Some (n, under) =>
        if 2 ^ 64 <=? n then None
        else if under && negb (underscoreOK s) then None
        else Some n
    | None => None
    end.

(** [strconv.ParseInt(s, 0, 64)] *)
Definition ParseIntAny (s : string) : option Z :=
  let '(neg, digits) :=
    match s with
    | String c s' =>
        if byte c =? 43 then (false, s')
        else if byte c =? 45 then (true, s')
        else (false, s)
    | EmptyString => (false, s)
    end in
  match ParseUintAny digits with
  | None => None
  | Some un =>
      if neg then (if un <=? 2 ^ 63 then Some (- un) else None)
      else (if un <? 2 ^ 63 then Some un else None)
  end.

(** [strconv.ParseBool(s)] *)
Definition ParseBool (s : string) : option bool :=
  if existsb (String.eqb s) ["1"; "t"; "T"; "TRUE"; "true"; "True"] then Some true
  else if existsb (String.eqb s) ["0"; "f"; "F"; "FALSE"; "false"; "False"] then Some false
  else None.

(** ** config.go *)

Record Config : Type := mkConfig {
  Host : string;
  Port : Z;
  AOFEnabled : bool;
  AOFPath : string;
  AOFSync : string;
  LogLevel : string;
  MaxClients : Z
}.

Definition Addr (c : Config) : string := Host c +:+ ":" +:+ FormatInt (Port c).

(** Assignments through the pointers the flags hold. *)
Definition set_Host v c := mkConfig v (Port c) (AOFEnabled c) (AOFPath c) (AOFSync c) (LogLevel c) (MaxClients c).
Definition set_Port v c := mkConfig (Host c) v (AOFEnabled c) (AOFPath c) (AOFSync c) (LogLevel c) (MaxClients c).
Definition set_AOFEnabled v c := mkConfig (Host c) (Port c) v (AOFPath c) (AOFSync c) (LogLevel c) (MaxClients c).
Definition set_AOFPath v c := mkConfig (Host c) (Port c) (AOFEnabled c) v (AOFSync c) (LogLevel c) (MaxClients c).
Definition set_AOFSync v c := mkConfig (Host c) (Port c) (AOFEnabled c) (AOFPath c) v (LogLevel c) (MaxClients c).
Definition set_LogLevel v c := mkConfig (Host c) (Port c) (AOFEnabled c) (AOFPath c) (AOFSync c) v (MaxClients c).
Definition set_MaxClients v c := mkConfig (Host c) (Port c) (AOFEnabled c) (AOFPath c) (AOFSync c) (LogLevel c) v.

(** A flag that was defined: what its type is, and where its value goes. *)
Inductive flagValue : Type :=
| stringValue (set : string -> Config -> Config)
| intValue (set : Z -> Config -> Config)
| boolValue (set : bool -> Config -> Config).

(** The flags [Load] defines. *)
Definition formal (name : string) : option flagValue :=
  if String.eqb name "host" then Some (stringValue set_Host)
  else if String.eqb name "port" then Some (intValue set_Port)
  else if String.eqb name "aof" then Some (boolValue set_AOFEnabled)
  else if String.eqb name "aof-path" then Some (stringValue set_AOFPath)
  else if String.eqb name "aof-sync" then Some (stringValue set_AOFSync)
  else if String.eqb name "log-level" then Some (stringValue set_LogLevel)
  else if String.eqb name "max-clients" then Some (intValue set_MaxClients)
  else None.

(** The values the flags are defined with. *)
Definition defaults : Config :=
  mkConfig "0.0.0.0" 6379 true "appendonly.aof" "everysec" "info" 0.

(** [flag.Value.Set(value)]; [None] is an error. *)
Definition setFlag (f : flagValue) (value : string) (c : Config) : option Config :=
  match f with
  | stringValue set => Some (set value c)
  | intValue set => (fun n => set n c) <$> ParseIntAny value
  | boolValue set => (fun b => set b c) <$> ParseBool value
  end.

(** ** flag.Parse *)

Inductive flagErr : Type := ErrHelp | ErrFlag.

(** The result of [parseOne]: no flag is next, one was seen, or an error. *)
Inductive parsed : Type :=
| NoFlag (rest : list string)
| Seen (rest : list string) (c : Config)
| Failed (e : flagErr).

(** [name=value] at the first equals sign that is not the first byte. *)
Fixpoint splitEquals (s : string) : string * option string :=
  match s with
  | EmptyString => (EmptyString, None)
  | String c s' =>
      match s' with
      | String e v =>
          if Ascii.eqb e "=" then (String c EmptyString, Some v)
          else let '(name, v) := splitEquals s' in (String c name, v)
      | EmptyString => (s, None)
      end
  end.

Definition setOr (f : flagValue) (value : string) (rest : list string) (c : Config) : parsed :=
  match setFlag f value c with Some c' => Seen rest c' | None => Failed ErrFlag end.

(** A flag called [s], after its minus signs. *)
Definition parseNamed (s : string) (rest : list string) (c : Config) : parsed :=
  match s with
  | EmptyString => Failed ErrFlag
  | String a _ =>
      if Ascii.eqb a "-" || Ascii.eqb a "=" then Failed ErrFlag else
      let '(name, value) := splitEquals s in
      match formal name with
      | None =>
          if String.eqb name "help" || String.eqb name "h" then Failed ErrHelp else Failed ErrFlag
      | Some (boolValue set) => setOr (boolValue set) (default "true" value) rest c
      | Some f =>
          match value, rest with
          | Some v, _ => setOr f v rest c
          | None, v :: rest' => setOr f v rest' c
          | None, [] => Failed ErrFlag
          end
      end
  end.

Definition parseOne (args : list string) (c : Config) : parsed :=
  match args with
  | [] => NoFlag []
  | s :: rest =>
      match s with
      | String a (String b s') =>
          if negb (Ascii.eqb a "-") then NoFlag args
          else if Ascii.eqb b "-" then
            if is_empty s' then NoFlag rest else parseNamed s' rest c
          else parseNamed (String b s') rest c
      | _ => NoFlag args
      end
  end.

Inductive loaded : Type :=
| Loaded (c : Config)
| Exit (code : Z).

(** The loop of [Parse] with [ExitOnError]; every round takes an argument, so that as many
    rounds as there are arguments and one more are enough. *)
Fixpoint parseLoop (fuel : nat) (args : list string) (c : Config) : loaded :=
  match fuel with
  | O => Loaded c
  | S fuel' =>
      match parseOne args c with
      | Seen rest c' => parseLoop fuel' rest c'
      | NoFlag _ => Loaded c
      | Failed ErrHelp => Exit 0
      | Failed ErrFlag => Exit 2
      end
  end.

(** [args] is [os.Args[1:]]. *)
Definition Load (args : list string) : loaded := parseLoop (S (length args)) args defaults.

(** ** logger.go *)

Inductive Level : Type := LevelDebug | LevelInfo | LevelWarn | LevelError.

(** The level of the logger that [New] creates. *)
Definition logLevel (level : string) : Level :=
  let l := ToLower level in
  if String.eqb l "debug" then LevelDebug
  else if String.eqb l "warn" then LevelWarn
  else if String.eqb l "error" then LevelError
  else LevelInfo.

(** ** What a command line means *)

Section Grammar.

(** What the flag [name] with this value sets. *)
Inductive assigns (c : Config) : string -> string -> Config -> Prop :=
| assigns_host v : assigns c "host" v (set_Host v c)
| assigns_port v n : ParseIntAny v = Some n -> assigns c "port" v (set_Port n c)
| assigns_aof v b : ParseBool v = Some b -> assigns c "aof" v (set_AOFEnabled b c)
| assigns_aof_path v : assigns c "aof-path" v (set_AOFPath v c)
| assigns_aof_sync v : assigns c "aof-sync" v (set_AOFSync v c)
| assigns_log_level v : assigns c "log-level" v (set_LogLevel v c)
| assigns_max_clients v n :
    ParseIntAny v = Some n -> assigns c "max-clients" v (set_MaxClients n c).

(** A flag on the command line, and what it does to the configuration: [-name=value],
    [-name value] unless it is [-aof], and [-aof] alone; one minus sign or two. *)
Inductive spelled (c : Config) : list string -> Config -> Prop :=
| spelled_equals dash name value c' :
    dash = "-" \/ dash = "--" -> assigns c name value c' ->
    spelled c [dash +:+ name +:+ "=" +:+ value] c'
| spelled_next dash name value c' :
    dash = "-" \/ dash = "--" -> name <> "aof" -> assigns c name value c' ->
    spelled c [dash +:+ name; value] c'
| spelled_bare dash :
    dash = "-" \/ dash = "--" -> spelled c [dash +:+ "aof"] (set_AOFEnabled true c).

(** Flags one after the other; a later one overrides. *)
Inductive spelledAll (c : Config) : list string -> Config -> Prop :=
| spelledAll_nil : spelledAll c [] c
| spelledAll_cons flag c1 flags c2 :
    spelled c flag c1 -> spelledAll c1 flags c2 -> spelledAll c (flag ++ flags) c2.

(** Where the flags end: at the end, at [--], or at an argument without a minus sign. *)
Definition flagsEnd (rest : list string) : bool :=
  match rest with
  | [] => true
  | s :: _ =>
      String.eqb s "--" ||
      match s with String a (String _ _) => negb (Ascii.eqb a "-") | _ => true end
  end.

(** The table of the flags. *)
Lemma formal_assigns name f value c c' :
  formal name = Some f -> setFlag f value c = Some c' -> assigns c name value c'.
Proof.
  unfold formal. do 7 (match goal with |- context [String.eqb name ?n] =>
    destruct (String.eqb_spec name n) as [->|_];
    [intros [= <-] Hs; apply fmap_Some in Hs as (x & Hp & ->) || injection Hs as <-; by constructor|]
  end). done.
Qed.

Lemma formal_bool name set :
  formal name = Some (boolValue set) -> name = "aof" /\ set = set_AOFEnabled.
Proof.
  unfold formal. do 7 (match goal with |- context [String.eqb name ?n] =>
    destruct (String.eqb_spec name n) as [->|_]; [by intros [= <-]|] end). done.
Qed.

Lemma splitEquals_app s name v :
  splitEquals s = (name, v) -> s = name +:+ match v with Some v => "=" +:+ v | None => "" end.
Proof.
  revert name v. induction s as [|c s IH]; intros name v; cbn [splitEquals]; [by intros [= <- <-]|].
  destruct s as [|e s']; [by intros [= <- <-]|].
  destruct (Ascii.eqb e "=") eqn:E.
  - apply Ascii.eqb_eq in E as ->. by intros [= <- <-].
  - destruct (splitEquals (String e s')) as [n v1]. intros [= <- <-].
    cbn [String.append]. f_equal. by apply IH.
Qed.

Lemma setOr_seen f value rest c rest' c' :
  setOr f value rest c = Seen rest' c' -> rest' = rest /\ setFlag f value c = Some c'.
Proof. unfold setOr. case_match; [|done]. by intros [= <- <-]. Qed.

Lemma parseNamed_sound dash s rest c rest' c' :
  dash = "-" \/ dash = "--" -> parseNamed s rest c = Seen rest' c' ->
  exists flag, (dash +:+ s) :: rest = flag ++ rest' /\ spelled c flag c'.
Proof.
  intros Hd. unfold parseNamed. destruct s as [|a s]; [done|]. case_match; [done|].
  destruct (splitEquals (String a s)) as [name value] eqn:Es.
  apply splitEquals_app in Es as ->.
  destruct (formal name) as [f|] eqn:Ef; [|by case_match].
  assert (forall v, value = Some v -> setOr f v rest c = Seen rest' c' ->
    exists flag, (dash +:+ name +:+ "=" +:+ v) :: rest = flag ++ rest' /\ spelled c flag c') as Heq.
  { intros v -> [-> Hs]%setOr_seen. exists [dash +:+ name +:+ "=" +:+ v]. split; [done|].
    eapply spelled_equals; [done|]. by eapply formal_assigns. }
  assert (name <> "aof" -> match value, rest with
      | Some v, _ => setOr f v rest c
      | None, v :: rest' => setOr f v rest' c
      | None, [] => Failed ErrFlag
      end = Seen rest' c' ->
    exists flag, (dash +:+ name +:+ match value with Some v => "=" +:+ v | None => "" end) :: rest =
      flag ++ rest' /\ spelled c flag c') as Hval.
  { intros Hb. destruct value as [v|]; [by apply Heq|]. destruct rest as [|v rest]; [done|].
    intros [-> Hs]%setOr_seen. exists [dash +:+ name; v]. rewrite sapp_nil_r. split; [done|].
    eapply spelled_next; [done..|]. by eapply formal_assigns. }
  destruct f as [set|set|set]; [apply Hval; by intros ->..|].
  apply formal_bool in Ef as [-> ->].
  destruct value as [v|]; [by apply Heq|]. intros [-> [= <-]]%setOr_seen.
  exists [dash +:+ "aof"]. rewrite sapp_nil_r. split; [done|]. by apply spelled_bare.
Qed.

Lemma parseOne_sound args c rest c' :
  parseOne args c = Seen rest c' -> exists flag, args = flag ++ rest /\ spelled c flag c'.
Proof.
  unfold parseOne. destruct args as [|[|a [|b s]] rest0]; [done..|].
  destruct (Ascii.eqb a "-") eqn:Ea; [|done]. apply Ascii.eqb_eq in Ea as ->. cbn [negb].
  destruct (Ascii.eqb b "-") eqn:Eb.
  - apply Ascii.eqb_eq in Eb as ->. case_match; [done|]. apply (parseNamed_sound "--"). by right.
  - apply (parseNamed_sound "-"). by left.
Qed.

Lemma parseOne_complete flag rest c c' :
  spelled c flag c' -> parseOne (flag ++ rest) c = Seen rest c'.
Proof.
  intros Hsp. destruct Hsp as [dash name v c' Hd Ha|dash name v c' Hd Hn Ha|dash Hd];
    destruct Hd as [->| ->]; try destruct Ha as [v|v n Hp|v b Hp|v|v|v|v n Hp]; try done;
    cbn -[ParseIntAny ParseBool]; unfold setOr; cbn -[ParseIntAny ParseBool]; by rewrite ?Hp.
Qed.

(** ** The loop *)

(** What [parseOne] says when the flags have ended, and when they have not. *)
Lemma parseOne_end args c :
  match parseOne args c with NoFlag _ => flagsEnd args = true | _ => flagsEnd args = false end.
Proof.
  unfold parseOne, flagsEnd. destruct args as [|[|a [|b s]] rest]; [done|done|apply orb_true_r|].
  destruct (Ascii.eqb a "-") eqn:Ea; cbn [negb]; [|apply orb_true_r].
  rewrite orb_false_r. apply Ascii.eqb_eq in Ea as ->.
  assert (forall n, n <> "" -> match parseNamed n rest c with NoFlag _ => false | _ => true end = true)
    as Hp.
  { intros n _. unfold parseNamed, setOr. by repeat case_match. }
  destruct (Ascii.eqb b "-") eqn:Eb.
  - apply Ascii.eqb_eq in Eb as ->. destruct s as [|a s]; [done|]. cbn [is_empty].
    specialize (Hp (String a s)). by destruct (parseNamed _ _ _); [discriminate Hp| |].
  - specialize (Hp (String b s)). assert (String.eqb (String "-" (String b s)) "--" = false) as ->.
    { cbn. by rewrite Eb. }
    by destruct (parseNamed _ _ _); [discriminate Hp| |].
Qed.

Lemma spelled_nonempty c flag c' : spelled c flag c' -> (1 <= length flag)%nat.
Proof. destruct 1; cbn; lia. Qed.

Lemma parseLoop_complete c flags c' fuel rest :
  spelledAll c flags c' -> flagsEnd rest = true -> (length flags < fuel)%nat ->
  parseLoop fuel (flags ++ rest) c = Loaded c'.
Proof.
  intros Hs Hr. revert fuel. induction Hs as [c|c flag c1 flags c2 Hf _ IH]; intros [|fuel] Hl;
    try (cbn in Hl; lia).
  - cbn [app parseLoop]. pose proof (parseOne_end rest c) as He. rewrite Hr in He.
    by destruct (parseOne rest c).
  - cbn [parseLoop]. rewrite <- app_assoc, (parseOne_complete flag _ c c1) by done. apply IH.
    pose proof (spelled_nonempty _ _ _ Hf). rewrite length_app in Hl. lia.
Qed.

Lemma parseLoop_sound fuel args c c' :
  parseLoop fuel args c = Loaded c' -> (length args < fuel)%nat ->
  exists flags rest, args = flags ++ rest /\ spelledAll c flags c' /\ flagsEnd rest = true.
Proof.
  revert args c. induction fuel as [|fuel IH]; intros args c; [lia|]. cbn [parseLoop].
  pose proof (parseOne_end args c) as He. destruct (parseOne args c) as [rest|rest c1|[]] eqn:E; try done.
  - intros [= <-] _. exists [], args. split_and!; [done|constructor|done].
  - intros Hp Hl. apply parseOne_sound in E as (flag & -> & Hf).
    pose proof (spelled_nonempty _ _ _ Hf). rewrite length_app in Hl.
    destruct (IH rest c1 Hp ltac:(lia)) as (flags & rest1 & -> & Hs & Hr).
    exists (flag ++ flags), rest1. rewrite app_assoc. split_and!; [done|by econstructor|done].
Qed.

(** ** Printed configurations *)

Lemma fmt_digits_head fuel n acc :
  0 < n < 10 ^ Z.of_nat fuel ->
  exists c s, fmt_digits fuel n acc = String c s /\ 49 <= byte c <= 57.
Proof.
  revert n acc. induction fuel as [|fuel IH]; intros n acc H.
  - change (10 ^ Z.of_nat 0) with 1 in H. lia.
  - rewrite Nat2Z.inj_succ, Z.pow_succ_r in H by lia. cbn [fmt_digits].
    replace (n =? 0) with false by lia.
    destruct (decide (n < 10)) as [Hn|Hn].
    + rewrite Z.div_small by lia. exists (digit_char (n mod 10)), acc.
      split; [by destruct fuel|]. rewrite Z.mod_small by lia. unfold digit_char.
      rewrite byte_of_N, Z2N.id by lia. lia.
    + apply IH. split; [apply Z.div_str_pos; lia|apply Z.div_lt_upper_bound; lia].
Qed.

Lemma digitsIn_decimal s acc n :
  digits_val acc s = Some n -> digitsIn 10 acc false s = Some (n, false).
Proof.
  revert acc. induction s as [|c s IH]; intros acc; cbn [digits_val digitsIn]; [by intros [= ->]|].
  destruct (digit_val c) as [d|] eqn:Ed; [|done]. pose proof (digit_val_range _ _ Ed) as [Hc ->].
  intros Hs. replace (byte c =? 95) with false by lia. unfold digitOf.
  replace (48 <=? byte c) with true by lia. replace (byte c <=? 57) with true by lia. cbn [andb].
  replace (byte c - 48 <? 10) with true by lia. by apply IH.
Qed.

Lemma ParseUintAny_FormatUint n : 0 <= n < 2 ^ 64 -> ParseUintAny (FormatUint n) = Some n.
Proof.
  intros Hn. destruct (decide (n = 0)) as [->|H0]; [done|]. unfold ParseUintAny.
  rewrite FormatUint_nonempty. pose proof (ParseUint_FormatUint n Hn) as Hp.
  unfold ParseUint in Hp. rewrite FormatUint_nonempty in Hp.
  assert (basePrefix (FormatUint n) = (10, FormatUint n)) as ->.
  { unfold FormatUint. replace (n =? 0) with false by lia.
    destruct (fmt_digits_head 20 n "") as (c & s & -> & Hc).
    - change (10 ^ Z.of_nat 20) with 100000000000000000000. lia.
    - cbn [basePrefix]. by replace (byte c =? 48) with false by lia. }
  destruct (digits_val 0 (FormatUint n)) as [m|] eqn:Ed; [|done].
  rewrite (digitsIn_decimal _ _ _ Ed). case_match; [|done]. injection Hp as ->.
  by replace (2 ^ 64 <=? n) with false by lia.
Qed.

Lemma ParseIntAny_FormatInt n : int64_ok n -> ParseIntAny (FormatInt n) = Some n.
Proof.
  intros Hn. unfold int64_ok, minInt64, maxInt64 in Hn. unfold FormatInt, ParseIntAny.
  destruct (n <? 0) eqn:E; zbool.
  - cbn [String.append]. change (byte "-"%char) with 45. cbn [Z.eqb Pos.eqb].
    rewrite ParseUintAny_FormatUint by lia. case_match; zbool; [f_equal; lia|lia].
  - destruct (FormatUint_head n ltac:(lia)) as (c & s & Es & Hc). rewrite Es.
    replace (byte c =? 43) with false by lia. replace (byte c =? 45) with false by lia.
    rewrite <- Es, ParseUintAny_FormatUint by lia. case_match; zbool; [done|lia].
Qed.

(** All flags of a configuration. *)
Definition commandLine (cfg : Config) : list string :=
  ["-host"; Host cfg; "-port"; FormatInt (Port cfg); "-aof=" +:+ (if AOFEnabled cfg then "true" else "false");
   "-aof-path"; AOFPath cfg; "-aof-sync"; AOFSync cfg; "-log-level"; LogLevel cfg;
   "-max-clients"; FormatInt (MaxClients cfg)].

(** The flags printed from a configuration are read back, whatever bytes its texts have. *)
Lemma Load_commandLine cfg :
  int64_ok (Port cfg) -> int64_ok (MaxClients cfg) -> Load (commandLine cfg) = Loaded cfg.
Proof.
  intros Hp Hm. unfold Load, commandLine. destruct cfg as [h p a path sync lvl m].
  assert (forall set n rest c, int64_ok n ->
    setOr (intValue set) (FormatInt n) rest c = Seen rest (set n c)) as Hint.
  { intros set n rest c Hn. unfold setOr, setFlag. by rewrite ParseIntAny_FormatInt. }
  cbn -[ParseIntAny FormatInt] in *. rewrite Hint by done.
  destruct a; cbn -[ParseIntAny FormatInt]; by rewrite Hint by done.
Qed.

(** C28: the command line.  [Load] returns the configuration [cfg] exactly when the command
    line is a sequence of flags, each spelled in one of the ways the flag package knows,
    that leads from the defaults to [cfg] (a later flag overrides an earlier one), and then
    ends, in [--] or in an argument that is no flag. *)
Theorem Load_correct args cfg :
  Load args = Loaded cfg <->
  exists flags rest, args = flags ++ rest /\ spelledAll defaults flags cfg /\ flagsEnd rest = true.
Proof.
  unfold Load. split.
  - intros Hl. apply parseLoop_sound in Hl; [done|lia].
  - intros (flags & rest & -> & Hs & Hr). apply parseLoop_complete; [done..|].
    rewrite length_app. lia.
Qed.

End Grammar.

Definition sampleArgs : list string :=
  ["-port"; "6380"; "--aof-sync=always"; "-log-level"; "debug"; "-aof=F"; "-max-clients"; "0x_1F"].

Example sampleArgs_loaded :
  Load sampleArgs = Loaded (mkConfig "0.0.0.0" 6380 false "appendonly.aof" "always" "debug" 31).
Proof. reflexivity. Qed.

(** A boolean flag takes no separate argument: [-aof false] leaves the log on, and the rest
    of the command line is not read. *)
Example aof_false_ignored :
  Load ["-aof"; "false"; "-port"; "7000"] = Loaded defaults /\
  Load ["-aof=false"; "-port"; "7000"] = Loaded (set_Port 7000 (set_AOFEnabled false defaults)).
Proof. done. Qed.

(** Unknown flags, values that do not parse and missing values end the process. *)
Example bad_flags :
  Load ["-verbose"] = Exit 2 /\ Load ["-port"; "http"] = Exit 2 /\ Load ["-port"] = Exit 2 /\
  Load ["-port=010"] = Loaded (set_Port 8 defaults) /\ Load ["-h"] = Exit 0.
Proof. done. Qed.
