(* ===== verification/Startup.v ===== *)
(** * Startup (cmd/server/main.go)

    What the program derives from its configuration, and the order in which main restores
    the log, opens it, builds the server and binds its address. *)

From S2P Require Import Prelude GoLib Protocol Store Cmd PubSub Router Persistence Agree Records.
From S2P Require Import Recovery Config.
Open Scope cmd_scope.

(** [persistence.SyncPolicy(cfg.AOFSync)]: any other text behaves like "no". *)
Definition syncPolicy (s : string) : SyncPolicy :=
  if String.eqb s "always" then SyncAlways
  else if String.eqb s "everysec" then SyncEverySec
  else SyncNo.

(** The bytes [Open] finds at the path; a new file is empty. *)
Definition contentsOf (path : aofFile) : string :=
  match path with NotExist => "" | Readable s | Unreadable s => s end.

(** [contents] is what is at [cfg.AOFPath]; [canOpen] is whether the
    operating system lets it be opened for appending.  The error of the replay is only
    logged. *)
Definition setupAOF (rnd : list string -> list string) (cfg : Config) (contents : aofFile)
    (canOpen : bool) : cmd MemoryStore (option AOF) :=
  let* _ := Replay rnd contents in
  if negb canOpen then Done None
  else Done (Some (Open (contentsOf contents) (syncPolicy (AOFSync cfg)))).

(** The store and the log a server starts with. *)
Definition startup (rnd : list string -> list string) (cfg : Config) (contents : aofFile)
    (canOpen : bool) : cmd MemoryStore (option AOF) :=
  if AOFEnabled cfg then setupAOF rnd cfg contents canOpen else Done None.

(** [Run]: the listener is bound to the configured address before connections are served;
    [canBind] is whether the operating system lets it. *)
Definition Run (canBind : string -> bool) (cfg : Config) : bool := canBind (Addr cfg).

(** How [main] goes on: the process exits, or it serves connections with this
    configuration, router and log. *)
Inductive program : Type :=
| Exited (code : Z)
| Serving (cfg : Config) (r : Router) (aof : option AOF).

(** [main] on a command line: the store is filled from the log, the router gets the log (if
    it could be opened) and the broker, and the listener is bound. *)
Definition main_ (rnd : list string -> list string) (args : list string) (e : environment)
    (contents : aofFile) (canOpen : bool) (canBind : string -> bool)
    : cmd MemoryStore program :=
  match Load args with
  | Exit code => Done (Exited code)
  | Loaded cfg =>
      let* aof := startup rnd cfg contents canOpen in
      let r := NewRouter aof true e in
      if Run canBind cfg then Done (Serving cfg r aof) else Done (Exited 1)
  end.

Lemma restores_same `{Window} rnd recs s0 s1 s2 :
  restores rnd recs s0 s1 -> same_data s1 s2 -> restores rnd recs s0 s2.
Proof.
  intros Hr Hd clock j n rest last Hc.
  destruct (Hr clock j n rest last Hc) as (j' & s' & HR & E). exists j', s'. split; [|done].
  by eapply agree_same_l.
Qed.

(** C8: generations. A server runs recoverable commands (see [recoverable]), stops, is
    started again on its file, with any command line that leaves the log on, and runs
    more of them. The second start succeeds, with the data of the first server and its
    file kept, and the file the second server leaves restores the data of the second. *)
Theorem restart_generations rnd args cfg r p cmds1 cmds2 clock ps1 resps1 i1 w1 s' clock2 ps2 resps2
    i2 w2 clock3 j3 s0 canBind :
  Load args = Loaded cfg -> canBind (Addr cfg) = true ->
  AOFEnabled cfg = true -> hasAof r = true ->
  forallb recoverable cmds1 = true -> forallb recoverable cmds2 = true ->
  run (dispatchAll r cmds1) clock 0 (mkWorld NewMemoryStore ps1 (Open "" p)) =
    Ret (resps1, i1, w1) ->
  same_data (wStore w1) s' ->
  run (dispatchAll r cmds2) clock2 0
    (mkWorld s' ps2 (Open (file (wLog w1)) (syncPolicy (AOFSync cfg)))) = Ret (resps2, i2, w2) ->
  len (file (wLog w1)) * sizeofResponse <= maxAlloc ->
  len (file (wLog w2)) * sizeofResponse <= maxAlloc ->
  (exists j' st,
    run (main_ rnd args (env r) (Readable (file (wLog w1))) true canBind) clock3 j3 s0 =
      Ret (Serving cfg (mkRouter true true (env r))
            (Some (Open (file (wLog w1)) (syncPolicy (AOFSync cfg)))), j', st) /\
    same_data (wStore w1) st) /\
  (exists n j' st, run (Replay rnd (Readable (file (wLog w2)))) clock3 j3 s0 =
      Ret ((n, None), j', st) /\ same_data (wStore w2) st).
Proof.
  intros Hload Hbind He Ha Hr1 Hr2 Hrun1 Hd Hrun2 Hlen1 Hlen2.
  apply (dispatchAll_sound rnd) in Hrun1 as (recs1 & Hl1 & Hs1);
    [|exact (anytime_timed rnd)|done|by apply anytime_run|done|apply settled_new].
  specialize (Hl1 [] eq_refl). specialize (Hs1 NewMemoryStore settled_new).
  apply (dispatchAll_sound rnd) in Hrun2 as (recs2 & Hl2 & Hs2);
    [|exact (anytime_timed rnd)|done|by apply anytime_run|done|
     eapply settled_same; [by eapply restores_settled|done]].
  specialize (Hl2 recs1 Hl1). split.
  - destruct (run_Replay_restores rnd recs1 _ _ clock3 j3 s0 Hl1 Hs1 Hlen1 I)
      as (n & j' & st & E & Hst%anytime_same).
    exists j', st. split; [|done]. unfold main_, startup. rewrite Hload, He. unfold setupAOF.
    rewrite !run_bind, E. cbn [run]. unfold Run. by rewrite Hbind.
  - assert (restores rnd (recs1 ++ recs2) NewMemoryStore (wStore w2)) as Hs.
    { eapply restores_app; [by eapply restores_same|done]. }
    destruct (run_Replay_restores rnd _ _ _ clock3 j3 s0 Hl2 Hs Hlen2 I)
      as (n & j' & st & E & Hst%anytime_same).
    by exists n, j', st.
Qed.

(** The sample server, started again. *)
Definition secondRun : list Response * nat * World AOF :=
  let w1 := snd (sampleRun sampleCommands) in
  match run (dispatchAll sampleRouter [["INCR"; "a"]]) (fun _ => 7) 0
          (mkWorld (wStore w1) samplePubSub (Open (file (wLog w1)) SyncEverySec)) with
  | Ret x => x
  | _ => sampleRun []
  end.

Lemma restart_generations_witness :
  (exists j' st, run (main_ id ["-port"; "7000"] sampleEnv
          (Readable (file (wLog (snd (sampleRun sampleCommands))))) true
          (String.eqb "0.0.0.0:7000")) (fun _ => 9) 0 NewMemoryStore =
      Ret (Serving (set_Port 7000 defaults) sampleRouter
            (Some (Open (file (wLog (snd (sampleRun sampleCommands)))) SyncEverySec)), j', st) /\
    same_data (wStore (snd (sampleRun sampleCommands))) st) /\
  (exists n j' st, run (Replay id (Readable (file (wLog (snd secondRun))))) (fun _ => 9) 0
        NewMemoryStore = Ret ((n, None), j', st) /\ same_data (wStore (snd secondRun)) st).
Proof.
  apply (restart_generations id ["-port"; "7000"] (set_Port 7000 defaults) sampleRouter SyncAlways sampleCommands [["INCR"; "a"]]
           (fun i => Z.of_nat i) samplePubSub (fst (fst (sampleRun sampleCommands)))
           (snd (fst (sampleRun sampleCommands))) (snd (sampleRun sampleCommands))
           (wStore (snd (sampleRun sampleCommands))) (fun _ => 7) samplePubSub
           (fst (fst secondRun)) (snd (fst secondRun)) (snd secondRun));
    try by vm_compute.
Defined.
